(* ===== verification/_CoqProject ===== *)
-Q . S2P
Prelude.v
Runtime.v
Lifecycle.v
Walltime.v
Slots.v
Directory.v
Manager.v
Services.v
ServiceOrder.v
ServiceLists.v
Events.v
Ipc.v
Bytes.v
BlockStore.v
Cow.v
DiskLogic.v
CowCodec.v
CowAlloc.v
CowCrash.v
CowCommit.v
CowVolume.v
Journal.v
JournalCodec.v
JournalVolume.v
JournalCommit.v
JournalCheckpoint.v
JournalFaults.v
MemoryMap.v
FrameLayout.v
Frames.v
FrameSearch.v
FrameInv.v
FrameOps.v
FrameMemory.v
Scheduler.v
SchedulerConc.v
SchedulerSeq.v
