(* ===== verification/Prelude.v ===== *)
(** * LogOS core: a verification development

    LogOS is an operating system in Rust: a kernel (src/src), the storage
    format (src/storage), the shared message layouts (src/abi), user-mode
    services (src/services), a user-interface toolkit and a hosted build.
    This library models the parts of the kernel and of the storage format
    whose behaviour is a matter of state and not of hardware, and proves what
    their callers rely on.

    ** The parts and how they interact

    The kernel keeps generation-stamped tables.  A service is a record of the
    service registry, owns events and event sets, and holds capabilities on
    IPC endpoints; every endpoint has two events that the queue signals; a
    signalled event wakes the sets it is a member of, through the scheduler,
    which runs tasks on several CPUs by compare-exchange on one word per task.
    Physical frames come from a frame manager built from the firmware memory
    map, which hands out leases stamped with the generation of the frame.  The
    storage format runs in the storage service over the block seam: a
    copy-on-write volume, and the journalled volume that preceded it.

    ** Files

    - [Prelude]: machine integers with their wrap-around, the type [result],
      list and arithmetic lemmas, tactics and hint databases of the library.
    - [Runtime] (src/src/runtime.rs): the two-slot operation table behind a
      one-entry mailbox.  [Lifecycle] (service_lifecycle.rs, health.rs): the
      operation slots of a service across restarts and the health service.
    - [Walltime] (abi/walltime.rs, arch.rs, host/main.rs): decoding of the
      clock registers, the packed date, the advance loop and the closed form
      the hosted build uses.
    - [Slots] and [Directory] (abi/runtime_abi.rs): handles, slot tables with
      generations and the paging protocol of directory requests.
    - [Manager] (abi/service_manager.rs), [Services], [ServiceOrder],
      [ServiceLists] (runtime_services.rs): the service registry; the
      dependency-ordered start, the restart closure, the listings.
    - [Events] (runtime_events.rs) and [Ipc] (runtime_ipc.rs): the event
      registry with hardware cells and the IPC topology on top of it.
    - [Bytes], [BlockStore], [DiskLogic] (storage/lib.rs): byte fields,
      CRC-32C, the block seam as a class with two instances, and the logic of
      crashes.  Storage operations are programs over the seam ([io]), run by
      [exec] on any instance.
    - [Cow], [CowCodec], [CowAlloc], [CowCrash], [CowCommit], [CowVolume]
      (storage/cow.rs): the copy-on-write volume, its encodings, allocation,
      and what power losses leave.
    - [Journal], [JournalCodec], [JournalVolume], [JournalCommit],
      [JournalCheckpoint], [JournalFaults] (storage/journal.rs): the
      journalled volume, its encodings, recovery, commit, checkpoint, and the
      executions in which it loses data.
    - [MemoryMap] (boot_resources.rs, memory.rs): the firmware memory map and
      its normalisation into runs.  [FrameLayout] (memory.rs): where the
      arrays of the frame manager lie in the region given to it.
    - [Frames] (memory.rs): the frame manager, every operation.
      [FrameSearch] holds the lemmas on its two-level bitmap, [FrameInv] its
      invariant, [FrameOps] the specification of each operation and
      [FrameMemory] the theorems on whole histories of operations.
    - [Scheduler], [SchedulerConc], [SchedulerSeq] (scheduler.rs): every
      operation as a program of atomic accesses; all interleavings of any
      number of threads; the behaviour of a call that runs alone.

    ** Correspondence

    A struct is a [Record], an enum an [Inductive], a method a definition with
    the method's name that takes the state and returns the new one; a method
    that fails returns [result].  Fixed arrays with a count are lists whose
    length the capacity check compares; tables indexed by slot are lists.
    Allocation answers ([try_reserve]) are arguments.  The invariants of events
    and services hold for every answer; that of [Ipc] comes in two strengths,
    because a failed reservation in [destroy_endpoint] leaves the committed
    count too low.  The frame pool of the IPC queues and the sink of a replay are
    interfaces (classes).  Panics of the source (indexing, overflow in a debug
    build) are an explicit outcome where an operation can reach one.

    ** What the theorems show

    - Storage: a session of begin, operations and commit on the copy-on-write
      volume is atomic under power loss at any moment, if its caller retires
      no empty extent and reserves no block of the current metadata or retired
      list (neither is checked by the code); opening recovers,
      formatting is atomic, allocation is first fit; commits and checkpoints
      of the journal are atomic and durable from a clean journal, and recovery
      replays exactly the committed transactions in order.
    - Events and IPC: no wake-up is lost between a wait and a signal, queues
      are first-in first-out channels for any interleaving of callers,
      destruction revokes exactly the capabilities on the endpoint or, when it
      runs out of memory, nothing; reachable states are well-formed.
    - Scheduler: the packed state word of every task refines the abstract
      task life cycle under all interleavings; running tasks are exclusive; no
      recorded wake-up is lost; claims are round robin with bounded waiting,
      also across a wrap-around of the cursor.
    - Services: starting a service starts exactly what it needs in dependency
      order; the restart closure is exact and ordered; the service directory
      is complete, the manager list is not.
    - Tables: stale handles are rejected; a restart invalidates operations in
      flight; commands refine an abstract table.
    - Memory: normalisation yields exactly the available and not excluded
      addresses; the bitmap search equals a linear scan; whatever is asked of
      it the frame manager never panics and never has one page under two
      current leases that disagree; stale leases are refused; batches restore
      what they took; contiguous allocation is first fit; the metadata arrays
      do not overlap.
    - The error theorems exhibit executions in which the code loses a wake-up,
      an accounting unit, a listing entry or a volume; each is a finding of
      the manifest.

    ** Bounds and fuel

    Integers are [Z] within their machine width, with wrap-around, saturation
    or checked arithmetic as the source writes it.  Walks over the service
    registry use [walk_fuel], one more than the number of slots; the theorems
    of [ServiceOrder] show it is never exhausted.  Compare-exchange loops of
    the scheduler take fuel per retry; [SchedulerSeq] shows one iteration is
    enough without interference and [SchedulerConc] covers every number of
    retries.  The chunk loop of a checkpoint takes the payload length as fuel.
    The searches of the frame manager take the number of words, of runs or of
    bits of a word as fuel; [FrameSearch] and [FrameInv] show it suffices.
    Every other loop is structural over the list it scans.

    ** Assumptions of the model

    Block writes are atomic and a flush makes every earlier write durable; a
    power loss keeps any subset of the unflushed writes.  The scheduler is
    sequentially consistent: the model does not distinguish memory orderings.
    No hash or checksum collision assumption is made: theorems about damaged
    blocks speak of blocks the code itself wrote.

    ** Not modelled

    Of memory.rs, the code above the frame manager: the per-CPU facade, address
    spaces, translation shootdown and the kernel heap.  The metadata arrays of
    the frame manager are lists here; that the source reads and writes them
    through raw pointers into the region is not modelled, and the sizes of
    their elements are parameters of [FrameLayout].
    The system-call dispatcher (service_runtime.rs), the architecture layer,
    loaders and device drivers act on raw memory, ports and device registers.
    The register image that the scheduler saves for a task is such memory.
    The services above the kernel (display, atrium, flow, terminal, session,
    user, network and others), the namespace of the storage service, the
    interface toolkit and the hosted build are application code outside this
    library; the manifest lists each of them.  Constants and message records
    of src/abi are translated where modelled code uses them. *)

From Stdlib Require Import ZArith Lia.
From stdpp Require Import base list option numbers.

#[local] Open Scope Z_scope.

(** ** Machine integers

    A Rust [uN] (or [usize], which is 64 bits on every LogOS target) is a [Z]
    kept in [0, 2^N); the operations below write the wrap-around and the
    saturation out. *)

#[global] Arguments Z.pow : simpl never.
#[global] Arguments Z.shiftl : simpl never.
#[global] Arguments Z.shiftr : simpl never.
#[global] Arguments Z.lor : simpl never.
#[global] Arguments Z.land : simpl never.
#[global] Arguments Z.modulo : simpl never.
#[global] Arguments Z.div : simpl never.
#[global] Arguments Z.testbit : simpl never.

Definition fits (w z : Z) : Prop := 0 <= z < 2 ^ w.
Definition wrap (w z : Z) : Z := z mod 2 ^ w.
#[global] Arguments wrap : simpl never.
Definition wrapping_add (w a b : Z) : Z := wrap w (a + b).
Definition saturating_add (w a b : Z) : Z := Z.min (a + b) (2 ^ w - 1).
Definition saturating_sub (a b : Z) : Z := Z.max 0 (a - b).
Definition checked_add (w a b : Z) : option Z :=
  if a + b <? 2 ^ w then Some (a + b) else None.
#[global] Arguments wrapping_add : simpl never.
#[global] Arguments saturating_add : simpl never.
#[global] Arguments saturating_sub : simpl never.
#[global] Arguments checked_add : simpl never.
Definition U8_MAX : Z := 2 ^ 8 - 1.
Definition U16_MAX : Z := 2 ^ 16 - 1.
Definition U32_MAX : Z := 2 ^ 32 - 1.
Definition U64_MAX : Z := 2 ^ 64 - 1.
Definition USIZE_MAX : Z := U64_MAX.

Lemma wrap_small w z : fits w z -> wrap w z = z.
Proof. intros H. by apply Z.mod_small. Qed.

Lemma wrap_fits w z : 0 <= w -> fits w (wrap w z).
Proof. intros Hw. apply Z.mod_pos_bound. by apply Z.pow_pos_nonneg. Qed.

(** A low field placed under a shifted high field adds up. *)
Lemma lor_shiftl_add n g i : 0 <= n -> 0 <= i < 2 ^ n -> Z.lor (Z.shiftl g n) i = g * 2 ^ n + i.
Proof.
  intros Hn Hi. rewrite <- Z.shiftl_mul_pow2, <- Z.add_lor_land by done.
  enough (Z.land (Z.shiftl g n) i = 0) as -> by lia.
  apply Z.bits_inj'. intros b Hb. rewrite Z.land_spec, Z.bits_0.
  destruct (decide (b < n)); [by rewrite Z.shiftl_spec_low by lia|].
  rewrite <- (Z.mod_small i (2 ^ n)) by lia. rewrite Z.mod_pow2_bits_high by lia.
  apply andb_false_r.
Qed.

(** ** Results

    Rust's [Result]; [let?] is the [?] operator on a pure computation. *)

Inductive result (A E : Type) : Type :=
| Ok (a : A)
| Err (e : E).
Arguments Ok {A E} _.
Arguments Err {A E} _.

Declare Scope logos_scope.
Delimit Scope logos_scope with logos.
Notation "'let?' x ':=' e 'in' k" :=
  (match e with Ok x => k | Err err => Err err end)
  (at level 10, x pattern, e at level 200, k at level 200) : logos_scope.

Definition is_ok {A E} (r : result A E) : bool :=
  match r with Ok _ => true | Err _ => false end.

Definition ok_or {A E} (o : option A) (e : E) : result A E :=
  match o with Some a => Ok a | None => Err e end.

#[export] Instance result_eq_dec {A E} `{EqDecision A, EqDecision E} : EqDecision (result A E).
Proof. solve_decision. Defined.

(** ** Tactics *)

(** Turn every boolean comparison in the context and the goal into its
    proposition, split conjunctions and substitute. *)
Ltac boolprop :=
  repeat match goal with
  | H : _ && _ = true |- _ => apply andb_true_iff in H; destruct H
  | H : _ || _ = false |- _ => apply orb_false_iff in H; destruct H
  | H : _ || _ = true |- _ => apply orb_true_iff in H
  | H : _ && _ = false |- _ => apply andb_false_iff in H
  | H : negb _ = true |- _ => apply negb_true_iff in H
  | H : negb _ = false |- _ => apply negb_false_iff in H
  | H : (_ =? _) = true |- _ => apply Z.eqb_eq in H
  | H : (_ =? _) = false |- _ => apply Z.eqb_neq in H
  | H : (_ <? _) = true |- _ => apply Z.ltb_lt in H
  | H : (_ <? _) = false |- _ => apply Z.ltb_ge in H
  | H : (_ <=? _) = true |- _ => apply Z.leb_le in H
  | H : (_ <=? _) = false |- _ => apply Z.leb_gt in H
  | H : bool_decide _ = true |- _ => apply bool_decide_eq_true_1 in H
  | H : bool_decide _ = false |- _ => apply bool_decide_eq_false_1 in H
  end.

(** Case on the scrutinee of the first match in the goal (or in a named
    hypothesis), keeping the equation. *)
Ltac case_match_in H :=
  match type of H with
  | context [ match ?x with _ => _ end ] => destruct x eqn:?
  end.

(** Discharge the trivial conjuncts from the left. *)
Ltac conj := repeat (split; [done|]); try done.

Ltac des := repeat (case_match; simplify_eq/=).

(** ** Generations

    Every generation-stamped handle of LogOS advances its generation with a
    wrapping increment that skips zero.  [next_gen w] is that function at
    width [w]; the source writes it either as a test for zero or as
    [.max(1)]. *)

Definition next_gen (w g : Z) : Z :=
  let next := wrapping_add w g 1 in
  if next =? 0 then 1 else next.

Lemma next_gen_max w g : 0 <= w -> Z.max (wrapping_add w g 1) 1 = next_gen w g.
Proof.
  intros Hw. unfold next_gen, wrapping_add, wrap.
  assert (0 < 2 ^ w) by (apply Z.pow_pos_nonneg; lia).
  pose proof (Z.mod_pos_bound (g + 1) (2 ^ w) ltac:(lia)).
  destruct (Z.eqb_spec ((g + 1) mod 2 ^ w) 0); lia.
Qed.

Definition gen_ok (w g : Z) : Prop := 1 <= g < 2 ^ w.

Lemma next_gen_ok w g : 1 <= w -> gen_ok w g -> gen_ok w (next_gen w g).
Proof.
  intros Hw Hg. unfold next_gen, gen_ok, wrapping_add, wrap in *.
  pose proof (Z.pow_le_mono_r 2 1 w ltac:(lia) Hw).
  pose proof (Z.mod_pos_bound (g + 1) (2 ^ w) ltac:(lia)).
  destruct (Z.eqb_spec ((g + 1) mod 2 ^ w) 0); lia.
Qed.

(** On valid generations the increment is addition modulo [2^w - 1], shifted by one. *)
Lemma next_gen_cyclic w g :
  1 <= w -> gen_ok w g -> next_gen w g = 1 + (g - 1 + 1) mod (2 ^ w - 1).
Proof.
  intros Hw Hg. unfold next_gen, gen_ok, wrapping_add, wrap in *.
  pose proof (Z.pow_le_mono_r 2 1 w ltac:(lia) Hw).
  destruct (decide (g = 2 ^ w - 1)) as [->|].
  - replace (2 ^ w - 1 + 1) with (2 ^ w) by lia.
    rewrite Z.mod_same by lia. replace (2 ^ w - 1 - 1 + 1) with (2 ^ w - 1) by lia.
    rewrite Z.mod_same by lia. reflexivity.
  - rewrite (Z.mod_small (g + 1)) by lia. rewrite (Z.mod_small (g - 1 + 1)) by lia.
    destruct (Z.eqb_spec (g + 1) 0); lia.
Qed.

Lemma iter_next_gen w g k :
  2 <= w -> gen_ok w g ->
  gen_ok w (Nat.iter k (next_gen w) g) ∧
  Nat.iter k (next_gen w) g = 1 + (g - 1 + Z.of_nat k) mod (2 ^ w - 1).
Proof.
  intros Hw Hg. pose proof (Z.pow_le_mono_r 2 2 w ltac:(lia) Hw).
  induction k as [|k [IHok IH]].
  - split; [exact Hg|]. unfold gen_ok in Hg. rewrite Z.mod_small; simpl; lia.
  - split; [apply next_gen_ok; [lia|exact IHok]|].
    change (Nat.iter (S k) (next_gen w) g) with (next_gen w (Nat.iter k (next_gen w) g)).
    rewrite next_gen_cyclic by (try lia; exact IHok). rewrite IH. f_equal.
    replace (1 + (g - 1 + Z.of_nat k) mod (2 ^ w - 1) - 1 + 1)
      with ((g - 1 + Z.of_nat k) mod (2 ^ w - 1) + 1) by lia.
    rewrite Z.add_mod_idemp_l by lia. f_equal. lia.
Qed.

(** A generation does not come back before [2^w - 1] increments. *)
Lemma iter_next_gen_fresh w g k :
  2 <= w -> gen_ok w g -> 0 < Z.of_nat k < 2 ^ w - 1 ->
  Nat.iter k (next_gen w) g ≠ g.
Proof.
  intros Hw Hg Hk Heq. destruct (iter_next_gen w g k Hw Hg) as [_ E].
  rewrite Heq in E. unfold gen_ok in Hg.
  assert (Hm : (g - 1 + Z.of_nat k) mod (2 ^ w - 1) = g - 1) by lia.
  destruct (decide (g - 1 + Z.of_nat k < 2 ^ w - 1)).
  - rewrite Z.mod_small in Hm by lia. lia.
  - replace (g - 1 + Z.of_nat k)
      with ((g - 1 + Z.of_nat k - (2 ^ w - 1)) + 1 * (2 ^ w - 1)) in Hm by lia.
    rewrite Z.mod_add in Hm by lia. rewrite Z.mod_small in Hm by lia. lia.
Qed.

(** ** Loops *)

Lemma foldl_inv {A B} (P : A -> Prop) (f : A -> B -> A) (l : list B) (a : A) :
  (forall a b, b ∈ l -> P a -> P (f a b)) -> P a -> P (foldl f a l).
Proof.
  revert a. induction l as [|b l IH]; intros a Hf Ha; simpl; [done|].
  apply IH; [|apply Hf; [by left|done]]. intros a' b' Hb'. apply Hf. by right.
Qed.

(** A loop that settles each element it visits, and unsettles none, settles all. *)
Lemma foldl_settles {A B} (I : A -> Prop) (R : A -> B -> Prop) (f : A -> B -> A) (l : list B) (a : A) :
  (forall a b, b ∈ l -> I a -> I (f a b) ∧ R (f a b) b ∧ forall b', R a b' -> R (f a b) b') ->
  I a -> I (foldl f a l) ∧ (forall b, b ∈ l -> R (foldl f a l) b) ∧
  forall b, R a b -> R (foldl f a l) b.
Proof.
  revert a. induction l as [|b l IH]; intros a Hf Ha; simpl.
  { split; [done|]. split; [by intros b ?%not_elem_of_nil|done]. }
  destruct (Hf a b ltac:(by left) Ha) as (Ha' & Hb & Hk).
  destruct (IH (f a b)) as (HI & Hl & Hk'); [|done|].
  { intros a' b' Hb'. apply Hf. by right. }
  split; [done|]. split; [|by auto]. intros b' [->|H]%elem_of_cons; auto.
Qed.

(** ** Hints *)

Create HintDb logos.
#[export] Hint Resolve next_gen_ok : logos.
