(* ===== verification/Runtime.v ===== *)
(** * The runtime operation table ([src/src/runtime.rs])

    [Runtime] is a two-slot table of operations behind a one-command,
    one-response mailbox.  The file models every method of the source and
    proves that the table refines an abstract map from live handles to
    operation states, that its invariant holds in every reachable state, and
    that a reclaimed handle stays rejected until the slot generation has gone
    through all its values. *)

From Stdlib Require Import ZArith Lia.
From stdpp Require Import base list option numbers relations.
From S2P Require Import Prelude.

#[local] Open Scope Z_scope.

(** ** Constants and data *)

Definition VACANT : Z := 0.
Definition READY : Z := 1.
Definition WAITING : Z := 2.
Definition COMPLETE : Z := 3.
Definition CANCELLED : Z := 4.
Definition TIMED_OUT : Z := 5.
Definition INITIAL_GENERATION : Z := 1.
Definition NO_DEADLINE : Z := U64_MAX.
Definition MAX_OPERATIONS : nat := 2.

Inductive OperationState : Type :=
| Ready
| Waiting
| Complete
| Cancelled
| TimedOut.

Inductive RuntimeError : Type :=
| Capacity
| InvalidOperation.

Record OperationHandle : Type := mk_handle {
  slot : Z;
  generation : Z
}.

Inductive RuntimeCommand : Type :=
| CmdSubmit
| CmdWait (handle : OperationHandle) (deadline : Z)
| CmdComplete (handle : OperationHandle)
| CmdCancel (handle : OperationHandle)
| CmdTimeout (handle : OperationHandle) (now : Z)
| CmdReclaim (handle : OperationHandle).

Inductive CommandError : Type :=
| Busy.

Inductive RuntimeResponse : Type :=
| RespSubmitted (h : OperationHandle)
| RespWaiting (h : OperationHandle)
| RespCompleted (h : OperationHandle)
| RespCancelled (h : OperationHandle)
| RespTimedOut (h : OperationHandle)
| RespReclaimed (h : OperationHandle)
| RespRejected (e : RuntimeError).

#[export] Instance OperationHandle_eq_dec : EqDecision OperationHandle.
Proof. solve_decision. Defined.

Record OperationSlot : Type := mk_slot {
  op_generation : Z;
  op_state : Z;
  op_deadline : Z
}.

Definition OperationSlot_new : OperationSlot :=
  mk_slot INITIAL_GENERATION VACANT NO_DEADLINE.

Record Runtime : Type := mk_runtime {
  operations : list OperationSlot;
  command : option RuntimeCommand;
  response : option RuntimeResponse
}.

Definition new : Runtime :=
  mk_runtime (replicate MAX_OPERATIONS OperationSlot_new) None None.

(** ** Operations *)

Definition next_generation (g : Z) : Z :=
  let next := wrapping_add 64 g 1 in
  if next =? 0 then INITIAL_GENERATION else next.

Definition set_operation (r : Runtime) (i : nat) (o : OperationSlot) : Runtime :=
  mk_runtime (<[i := o]> (operations r)) (command r) (response r).

Definition submit (r : Runtime) (c : RuntimeCommand) : Runtime * result unit CommandError :=
  if bool_decide (is_Some (command r)) || bool_decide (is_Some (response r))
  then (r, Err Busy)
  else (mk_runtime (operations r) (Some c) (response r), Ok tt).

Definition start (r : Runtime) : Runtime * result OperationHandle RuntimeError :=
  match list_find (fun o => op_state o = VACANT) (operations r) with
  | None => (r, Err Capacity)
  | Some (i, o) =>
      (set_operation r i (mk_slot (op_generation o) READY NO_DEADLINE),
       Ok (mk_handle (wrap 8 (Z.of_nat i)) (op_generation o)))
  end.

Definition state (r : Runtime) (h : OperationHandle) : option OperationState :=
  match operations r !! Z.to_nat (slot h) with
  | None => None
  | Some o =>
      if negb (op_generation o =? generation h) || (op_state o =? VACANT) then None
      else if op_state o =? READY then Some Ready
      else if op_state o =? WAITING then Some Waiting
      else if op_state o =? COMPLETE then Some Complete
      else if op_state o =? CANCELLED then Some Cancelled
      else if op_state o =? TIMED_OUT then Some TimedOut
      else None
  end.

Definition current_mut (r : Runtime) (h : OperationHandle) : option (nat * OperationSlot) :=
  match operations r !! Z.to_nat (slot h) with
  | None => None
  | Some o =>
      if (op_generation o =? generation h) && negb (op_state o =? VACANT)
      then Some (Z.to_nat (slot h), o) else None
  end.

Definition wait_operation (r : Runtime) (h : OperationHandle) (deadline : Z) : Runtime * bool :=
  match current_mut r h with
  | None => (r, false)
  | Some (i, o) =>
      if negb (op_state o =? READY) then (r, false)
      else (set_operation r i (mk_slot (op_generation o) WAITING deadline), true)
  end.

Definition complete_operation (r : Runtime) (h : OperationHandle) : Runtime * bool :=
  match current_mut r h with
  | None => (r, false)
  | Some (i, o) =>
      if negb (op_state o =? WAITING) then (r, false)
      else (set_operation r i (mk_slot (op_generation o) COMPLETE NO_DEADLINE), true)
  end.

Definition cancel_operation (r : Runtime) (h : OperationHandle) : Runtime * bool :=
  match current_mut r h with
  | None => (r, false)
  | Some (i, o) =>
      if negb ((op_state o =? READY) || (op_state o =? WAITING)) then (r, false)
      else (set_operation r i (mk_slot (op_generation o) CANCELLED NO_DEADLINE), true)
  end.

Definition timeout_operation (r : Runtime) (h : OperationHandle) (now : Z) : Runtime * bool :=
  match current_mut r h with
  | None => (r, false)
  | Some (i, o) =>
      if negb (op_state o =? WAITING) || (now <? op_deadline o) then (r, false)
      else (set_operation r i (mk_slot (op_generation o) TIMED_OUT NO_DEADLINE), true)
  end.

Definition reclaim_operation (r : Runtime) (h : OperationHandle) : Runtime * bool :=
  match current_mut r h with
  | None => (r, false)
  | Some (i, o) =>
      if negb ((op_state o =? COMPLETE) || (op_state o =? CANCELLED) || (op_state o =? TIMED_OUT))
      then (r, false)
      else (set_operation r i (mk_slot (next_generation (op_generation o)) VACANT NO_DEADLINE), true)
  end.

Definition respond (ok : RuntimeResponse) (p : Runtime * bool) : Runtime * RuntimeResponse :=
  (p.1, if p.2 then ok else RespRejected InvalidOperation).

(** The [match command] of [step]. *)
Definition execute (r : Runtime) (c : RuntimeCommand) : Runtime * RuntimeResponse :=
  match c with
  | CmdSubmit =>
      match start r with
      | (r', Ok h) => (r', RespSubmitted h)
      | (r', Err e) => (r', RespRejected e)
      end
  | CmdWait h d => respond (RespWaiting h) (wait_operation r h d)
  | CmdComplete h => respond (RespCompleted h) (complete_operation r h)
  | CmdCancel h => respond (RespCancelled h) (cancel_operation r h)
  | CmdTimeout h now => respond (RespTimedOut h) (timeout_operation r h now)
  | CmdReclaim h => respond (RespReclaimed h) (reclaim_operation r h)
  end.

Definition step (r : Runtime) : Runtime * bool :=
  match command r with
  | None => (r, false)
  | Some c =>
      let '(r', resp) := execute (mk_runtime (operations r) None (response r)) c in
      (mk_runtime (operations r') (command r') (Some resp), true)
  end.

Definition take_response (r : Runtime) : Runtime * option RuntimeResponse :=
  (mk_runtime (operations r) (command r) None, response r).

(** ** The abstract machine

    Abstractly the runtime is a map from handles to a state and a deadline;
    slots and generations are an implementation detail. *)

Definition handle_ok (h : OperationHandle) : Prop := fits 8 (slot h).

Definition slot_view (o : OperationSlot) (h : OperationHandle) : option (OperationState * Z) :=
  if op_generation o =? generation h then
    if op_state o =? READY then Some (Ready, op_deadline o)
    else if op_state o =? WAITING then Some (Waiting, op_deadline o)
    else if op_state o =? COMPLETE then Some (Complete, op_deadline o)
    else if op_state o =? CANCELLED then Some (Cancelled, op_deadline o)
    else if op_state o =? TIMED_OUT then Some (TimedOut, op_deadline o)
    else None
  else None.

Definition view (r : Runtime) (h : OperationHandle) : option (OperationState * Z) :=
  match operations r !! Z.to_nat (slot h) with
  | Some o => slot_view o h
  | None => None
  end.

Definition table : Type := OperationHandle -> option (OperationState * Z).

Definition upd (V : table) (h : OperationHandle) (v : option (OperationState * Z)) : table :=
  fun h' => if decide (h' = h) then v else V h'.

Definition terminal (s : OperationState) : Prop := s = Complete ∨ s = Cancelled ∨ s = TimedOut.

(** When a command on an existing handle is accepted, and what it leaves there. *)
Inductive accepts (V : table) : RuntimeCommand -> RuntimeResponse -> table -> Prop :=
| acc_wait h d d0 : V h = Some (Ready, d0) ->
    accepts V (CmdWait h d) (RespWaiting h) (upd V h (Some (Waiting, d)))
| acc_complete h d : V h = Some (Waiting, d) ->
    accepts V (CmdComplete h) (RespCompleted h) (upd V h (Some (Complete, NO_DEADLINE)))
| acc_cancel h s d : V h = Some (s, d) -> s = Ready ∨ s = Waiting ->
    accepts V (CmdCancel h) (RespCancelled h) (upd V h (Some (Cancelled, NO_DEADLINE)))
| acc_timeout h d now : V h = Some (Waiting, d) -> d <= now ->
    accepts V (CmdTimeout h now) (RespTimedOut h) (upd V h (Some (TimedOut, NO_DEADLINE)))
| acc_reclaim h s d : V h = Some (s, d) -> terminal s ->
    accepts V (CmdReclaim h) (RespReclaimed h) (upd V h None).

Definition max_slots : Z := Z.of_nat MAX_OPERATIONS.

Inductive spec_step (V : table) : RuntimeCommand -> RuntimeResponse -> table -> Prop :=
| spec_submit h :
    0 <= slot h < max_slots ->
    (forall h', handle_ok h' -> slot h' = slot h -> V h' = None) ->
    spec_step V CmdSubmit (RespSubmitted h) (upd V h (Some (Ready, NO_DEADLINE)))
| spec_full :
    (forall i, 0 <= i < max_slots -> exists h, slot h = i ∧ V h ≠ None) ->
    spec_step V CmdSubmit (RespRejected Capacity) V
| spec_accept c resp V' : accepts V c resp V' -> spec_step V c resp V'
| spec_reject c : c ≠ CmdSubmit -> (forall resp V', ~ accepts V c resp V') ->
    spec_step V c (RespRejected InvalidOperation) V.

(** ** Invariant *)

Definition slot_wf (o : OperationSlot) : Prop :=
  gen_ok 64 (op_generation o) ∧ VACANT <= op_state o <= TIMED_OUT ∧
  (op_state o ≠ WAITING -> op_deadline o = NO_DEADLINE).

Definition table_wf (ops : list OperationSlot) : Prop :=
  length ops = MAX_OPERATIONS ∧ Forall slot_wf ops.

Definition wf (r : Runtime) : Prop :=
  table_wf (operations r) ∧ (command r = None ∨ response r = None).

(** Everything a client can do with a runtime. *)
Inductive client_step : Runtime -> Runtime -> Prop :=
| client_submit r c : client_step r (submit r c).1
| client_run r : client_step r (step r).1
| client_take r : client_step r (take_response r).1.

Definition reachable (r : Runtime) : Prop := rtc client_step new r.

(** One full mailbox exchange, and a sequence of them. *)
Definition exchange (r : Runtime) (c : RuntimeCommand) : Runtime * option RuntimeResponse :=
  take_response (step (submit r c).1).1.

Fixpoint exchanges (r : Runtime) (cs : list RuntimeCommand) : Runtime :=
  match cs with
  | [] => r
  | c :: cs => exchanges (exchange r c).1 cs
  end.

(** ** Lemmas *)

Ltac rt_unfold :=
  unfold VACANT, READY, WAITING, COMPLETE, CANCELLED, TIMED_OUT in *.

Lemma next_generation_next_gen g : next_generation g = next_gen 64 g.
Proof. reflexivity. Qed.

Lemma state_view r h : state r h = fst <$> view r h.
Proof.
  unfold state, view, slot_view. destruct (operations r !! _) as [o|]; [|done].
  rt_unfold.
  repeat (case_match; boolprop; simplify_eq/=; try done); lia.
Qed.

Lemma view_set r i o h :
  (i < length (operations r))%nat ->
  view (set_operation r i o) h = if decide (Z.to_nat (slot h) = i) then slot_view o h else view r h.
Proof.
  intros Hi. unfold view, set_operation; simpl. case_decide as Hd.
  - subst. by rewrite list_lookup_insert_eq.
  - by rewrite list_lookup_insert_ne.
Qed.

Lemma slot_wf_new : slot_wf OperationSlot_new.
Proof. split; [|split]; simpl; [unfold gen_ok, INITIAL_GENERATION|rt_unfold|]; [lia|lia|done]. Qed.

Lemma table_wf_set ops i o : table_wf ops -> slot_wf o -> table_wf (<[i := o]> ops).
Proof.
  intros [Hl Hf] Ho. split; [by rewrite length_insert|]. by apply Forall_insert.
Qed.

Lemma table_wf_lookup ops i o : table_wf ops -> ops !! i = Some o -> slot_wf o.
Proof. intros [_ Hf] Hi. by eapply Forall_lookup_1. Qed.

Lemma current_mut_Some r h i o :
  current_mut r h = Some (i, o) ->
  i = Z.to_nat (slot h) ∧ operations r !! i = Some o ∧
  op_generation o = generation h ∧ op_state o ≠ VACANT.
Proof. unfold current_mut. intros H. des. boolprop. by subst. Qed.

Lemma current_mut_None r h :
  table_wf (operations r) -> current_mut r h = None -> view r h = None.
Proof.
  unfold current_mut, view, slot_view. intros Hwf H. destruct (operations r !! _) as [o|] eqn:E; [|done].
  rt_unfold. repeat (case_match; boolprop; simplify_eq/=; try done); destruct H; boolprop; try lia; congruence.
Qed.

Lemma start_wf r : table_wf (operations r) -> table_wf (operations (start r).1).
Proof.
  intros Hwf. unfold start. destruct (list_find _ _) as [[i o]|] eqn:E; [|done].
  apply list_find_Some in E as (Hi & _ & _). simpl. apply table_wf_set; [done|].
  destruct (table_wf_lookup _ _ _ Hwf Hi) as (Hg & _ & _).
  split; [done|]. split; simpl; [rt_unfold; lia|done].
Qed.

(** The five handle-directed operations share one shape: find the current
    slot, test its state, overwrite it. *)
Ltac op_cases :=
  match goal with
  | |- context [ current_mut ?r ?h ] =>
      let E := fresh "E" in
      destruct (current_mut r h) as [[? ?]|] eqn:E; [apply current_mut_Some in E as (-> & ? & ? & ?)|]
  end; simpl; repeat case_match; simpl; boolprop.

Lemma execute_wf r c : table_wf (operations r) -> table_wf (operations (execute r c).1).
Proof.
  intros Hwf. destruct c; simpl;
    [destruct (start r) as [r' [|]] eqn:E; pose proof (start_wf r Hwf) as H; by rewrite E in H|..];
    unfold wait_operation, complete_operation, cancel_operation, timeout_operation, reclaim_operation;
    op_cases; try done; apply table_wf_set; try done;
    match goal with H : _ !! _ = Some _ |- _ => destruct (table_wf_lookup _ _ _ Hwf H) as (Hg & Hs & Hd) end;
    (split; [|split]); simpl; try done; rt_unfold; try lia;
    (rewrite next_generation_next_gen; apply next_gen_ok; [lia|done]).
Qed.

Lemma execute_mailbox r c : command (execute r c).1 = command r ∧ response (execute r c).1 = response r.
Proof.
  destruct c; simpl;
    unfold start, wait_operation, complete_operation, cancel_operation, timeout_operation, reclaim_operation;
    repeat (case_match; simpl in *; simplify_eq); done.
Qed.

Lemma client_step_wf r r' : wf r -> client_step r r' -> wf r'.
Proof.
  intros [Ht Hm] Hs. destruct Hs as [r c|r|r]; unfold submit, step, take_response.
  - case_match; [by split|]. boolprop. split; [done|]. right; simpl.
    by apply eq_None_not_Some.
  - destruct (command r) as [c|] eqn:E; [|by split; [|left]].
    pose proof (execute_wf (mk_runtime (operations r) None (response r)) c Ht) as H1.
    pose proof (execute_mailbox (mk_runtime (operations r) None (response r)) c) as [H2 _].
    destruct (execute _ c) as [r1 resp]. simpl in *. split; simpl; auto.
  - split; simpl; auto.
Qed.

Lemma slot_view_live o h :
  slot_wf o -> op_generation o = generation h -> op_state o ≠ VACANT -> slot_view o h ≠ None.
Proof.
  intros (_ & Hs & _) Hg Hv. unfold slot_view. rewrite Hg, Z.eqb_refl.
  rt_unfold. repeat (case_match; boolprop; try done). lia.
Qed.

Lemma slot_view_vacant o h : op_state o = VACANT -> slot_view o h = None.
Proof. intros Hv. unfold slot_view. rewrite Hv. by case_match. Qed.

Lemma slot_view_other o h : op_generation o ≠ generation h -> slot_view o h = None.
Proof. intros Hg. unfold slot_view. apply Z.eqb_neq in Hg. by rewrite Hg. Qed.

Lemma handle_slot_inj h h' :
  handle_ok h -> handle_ok h' -> Z.to_nat (slot h) = Z.to_nat (slot h') ->
  generation h = generation h' -> h = h'.
Proof.
  destruct h, h'; unfold handle_ok, fits; simpl. intros ?? E ?. f_equal; lia.
Qed.

(** Overwriting the slot of one handle updates the abstract map at that handle only. *)
Lemma view_update r h o o' :
  handle_ok h -> operations r !! Z.to_nat (slot h) = Some o ->
  op_state o = VACANT ∨ op_generation o = generation h ->
  op_state o' = VACANT ∨ op_generation o' = generation h ->
  forall h', handle_ok h' ->
    view (set_operation r (Z.to_nat (slot h)) o') h' = upd (view r) h (slot_view o' h) h'.
Proof.
  intros Hh Hl Ho Ho' h' Hh'. rewrite view_set by by eapply lookup_lt_Some.
  unfold upd. destruct (decide (h' = h)) as [->|Hne]; [by rewrite decide_True|].
  case_decide as Hs; [|done].
  assert (Hg : generation h' ≠ generation h) by (intros ?; by apply Hne, handle_slot_inj).
  unfold view. rewrite Hs, Hl. transitivity (@None (OperationState * Z)); [|symmetry].
  - destruct Ho'; [by apply slot_view_vacant|apply slot_view_other; congruence].
  - destruct Ho; [by apply slot_view_vacant|apply slot_view_other; congruence].
Qed.

Definition command_handle (c : RuntimeCommand) : option OperationHandle :=
  match c with
  | CmdSubmit => None
  | CmdWait h _ | CmdComplete h | CmdCancel h | CmdTimeout h _ | CmdReclaim h => Some h
  end.

Definition command_ok (c : RuntimeCommand) : Prop :=
  match command_handle c with Some h => handle_ok h | None => True end.

Definition refines (r : Runtime) (c : RuntimeCommand) (p : Runtime * RuntimeResponse) : Prop :=
  exists V', spec_step (view r) c p.2 V' ∧ forall h, handle_ok h -> view p.1 h = V' h.

Lemma start_refines r : table_wf (operations r) -> refines r CmdSubmit (execute r CmdSubmit).
Proof.
  intros Hwf. unfold refines, execute, start.
  destruct (list_find _ _) as [[i o]|] eqn:E; simpl.
  - apply list_find_Some in E as (Hi & Hv & _).
    pose proof (lookup_lt_Some _ _ _ Hi) as Hlt. destruct Hwf as [Hlen _]. rewrite Hlen in Hlt.
    unfold MAX_OPERATIONS in Hlt. rewrite wrap_small by (unfold fits; lia).
    set (h := mk_handle (Z.of_nat i) (op_generation o)).
    assert (Hh : handle_ok h) by (unfold handle_ok, fits; simpl; lia).
    assert (Hi' : operations r !! Z.to_nat (slot h) = Some o) by (simpl; by rewrite Nat2Z.id).
    exists (upd (view r) h (Some (Ready, NO_DEADLINE))). split.
    + apply spec_submit; [simpl; unfold max_slots, MAX_OPERATIONS; lia|].
      intros h' _ Hs. unfold view. rewrite Hs, Hi'. by apply slot_view_vacant.
    + intros h' Hh'.
      replace i with (Z.to_nat (slot h)) by (simpl; lia).
      rewrite (view_update r h o) by (auto; by right).
      unfold upd, slot_view; simpl. by rewrite Z.eqb_refl.
  - apply list_find_None in E. exists (view r). split; [|done]. apply spec_full.
    intros i Hi. destruct Hwf as [Hlen Hf].
    destruct (lookup_lt_is_Some_2 (operations r) (Z.to_nat i)) as [o Ho].
    { rewrite Hlen. unfold max_slots in Hi. lia. }
    exists (mk_handle i (op_generation o)). split; [done|]. unfold view; simpl. rewrite Ho.
    apply slot_view_live; [by eapply Forall_lookup_1|done|by apply (Forall_lookup_1 _ _ _ _ E Ho)].
Qed.

(** A rejected or accepted command on a handle, in terms of its current slot. *)
Lemma refines_reject r c :
  c ≠ CmdSubmit -> (forall resp V', ~ accepts (view r) c resp V') ->
  refines r c (r, RespRejected InvalidOperation).
Proof. intros Hc Ha. exists (view r). split; [by apply spec_reject|done]. Qed.

Lemma refines_accept r c resp h o o' v :
  handle_ok h -> operations r !! Z.to_nat (slot h) = Some o -> op_generation o = generation h ->
  op_state o' = VACANT ∨ op_generation o' = generation h -> slot_view o' h = v ->
  accepts (view r) c resp (upd (view r) h v) ->
  refines r c (set_operation r (Z.to_nat (slot h)) o', resp).
Proof.
  intros Hh Hl Ho Ho' <- Ha. eexists. split; [by apply spec_accept|].
  simpl. intros h' Hh'. apply (view_update r h o); auto.
Qed.

Definition code (s : OperationState) : Z :=
  match s with
  | Ready => READY | Waiting => WAITING | Complete => COMPLETE
  | Cancelled => CANCELLED | TimedOut => TIMED_OUT
  end.

Lemma view_current r h o :
  table_wf (operations r) -> operations r !! Z.to_nat (slot h) = Some o ->
  op_generation o = generation h -> op_state o ≠ VACANT ->
  exists s, op_state o = code s ∧ view r h = Some (s, op_deadline o).
Proof.
  intros Hwf Hl Hg Hv. destruct (table_wf_lookup _ _ _ Hwf Hl) as (_ & Hs & _).
  unfold view, slot_view. rewrite Hl, Hg, Z.eqb_refl. rt_unfold.
  assert (op_state o = 1 ∨ op_state o = 2 ∨ op_state o = 3 ∨ op_state o = 4 ∨ op_state o = 5)
    as [E|[E|[E|[E|E]]]] by lia; rewrite E;
    [exists Ready|exists Waiting|exists Complete|exists Cancelled|exists TimedOut]; done.
Qed.

Ltac reject_op Hview :=
  apply refines_reject; [done|]; intros ? ? Ha; inversion Ha; subst;
  match goal with H : view _ _ = Some _ |- _ => rewrite Hview in H end;
  simplify_eq/=; unfold terminal in *; intuition (congruence || lia).

Ltac accept_op Hl Hg Hview :=
  eapply refines_accept;
    [done|exact Hl|exact Hg|simpl; auto|
     first [by apply slot_view_vacant|unfold slot_view; simpl; by rewrite ?Hg, ?Z.eqb_refl]|];
  first [eapply acc_wait|eapply acc_complete|eapply acc_cancel|eapply acc_timeout|eapply acc_reclaim];
  [exact Hview|unfold terminal; auto..].

Lemma execute_refines_handle r c :
  table_wf (operations r) -> command_ok c -> c ≠ CmdSubmit -> refines r c (execute r c).
Proof.
  intros Hwf Hc Hns.
  destruct c as [|h d|h|h|h now|h]; [done|..]; simpl in *;
    unfold respond, wait_operation, complete_operation, cancel_operation, timeout_operation, reclaim_operation;
    (destruct (current_mut r h) as [[i o]|] eqn:E;
      [|simpl; apply current_mut_None in E; [reject_op E|done]]);
    apply current_mut_Some in E as (-> & Hl & Hg & Hv);
    destruct (view_current r h o Hwf Hl Hg Hv) as (s & Hs & Hview); rewrite Hs; destruct s; simpl;
    try case_match; simpl; boolprop; first [reject_op Hview|accept_op Hl Hg Hview].
Qed.

(** ** Stale handles *)

Lemma execute_generation r c i o :
  operations r !! i = Some o ->
  exists o', operations (execute r c).1 !! i = Some o' ∧
    (op_generation o' = op_generation o ∨ op_generation o' = next_gen 64 (op_generation o)).
Proof.
  intros Hi.
  assert (Hset : forall j x x', operations r !! j = Some x ->
    op_generation x' = op_generation x ∨ op_generation x' = next_gen 64 (op_generation x) ->
    exists o', operations (set_operation r j x') !! i = Some o' ∧
      (op_generation o' = op_generation o ∨ op_generation o' = next_gen 64 (op_generation o))).
  { intros j x x' Hj Hx. simpl. destruct (decide (i = j)) as [->|].
    - exists x'. rewrite list_lookup_insert_eq by by eapply lookup_lt_Some. by simplify_eq.
    - exists o. rewrite list_lookup_insert_ne by done. auto. }
  destruct c; simpl;
    unfold start, wait_operation, complete_operation, cancel_operation, timeout_operation, reclaim_operation.
  - destruct (list_find _ _) as [[j x]|] eqn:E; [|by eauto].
    apply list_find_Some in E as (Hj & _ & _). eapply Hset; eauto.
  - op_cases; try (by eauto). eapply Hset; eauto.
  - op_cases; try (by eauto). eapply Hset; eauto.
  - op_cases; try (by eauto). eapply Hset; eauto.
  - op_cases; try (by eauto). eapply Hset; eauto.
  - op_cases; try (by eauto). eapply Hset; eauto.
Qed.

(** From an idle mailbox, an exchange runs exactly one command. *)
Lemma exchange_idle r c :
  command r = None -> response r = None ->
  exchange r c =
    (mk_runtime (operations (execute r c).1) None None, Some (execute r c).2).
Proof.
  intros Hc Hr. unfold exchange, submit. destruct r as [ops cmd rsp]; simpl in *; subst.
  rewrite !bool_decide_eq_false_2 by (intros [? ?]; done). simpl.
  unfold step, take_response. simpl.
  pose proof (execute_mailbox (mk_runtime ops None None) c) as [H1 H2].
  destruct (execute _ c) as [r1 resp]. simpl in *. by rewrite H1.
Qed.

Lemma exchanges_generation cs : forall r i o,
  command r = None -> response r = None -> operations r !! i = Some o ->
  exists k o', (k <= length cs)%nat ∧ operations (exchanges r cs) !! i = Some o' ∧
    op_generation o' = Nat.iter k (next_gen 64) (op_generation o).
Proof.
  induction cs as [|c cs IH]; intros r i o Hc Hr Hi.
  - exists 0%nat, o. auto.
  - change (exchanges r (c :: cs)) with (exchanges (exchange r c).1 cs).
    rewrite exchange_idle by done. cbn [fst].
    destruct (execute_generation r c i o Hi) as (o1 & Hi1 & Hg1).
    destruct (IH (mk_runtime (operations (execute r c).1) None None) i o1)
      as (k & o' & Hk & Hi' & Hg'); [done..|].
    destruct Hg1 as [Hg1|Hg1].
    + exists k, o'. rewrite Hg', Hg1. split; [simpl; lia|auto].
    + exists (S k), o'. split; [simpl; lia|]. split; [done|]. rewrite Hg', Hg1.
      by rewrite Nat.iter_succ_r.
Qed.

Lemma table_wf_new : table_wf (operations new).
Proof. split; [done|]. apply Forall_replicate, slot_wf_new. Qed.

Lemma exchange_wf r c : wf r -> wf (exchange r c).1.
Proof.
  intros Hwf. unfold exchange.
  eapply client_step_wf; [|apply client_take]. eapply client_step_wf; [|apply client_run].
  eapply client_step_wf; [done|apply client_submit].
Qed.

(** ** Properties *)

(** C9: the runtime table refines the abstract operation machine.  Whatever the
    command, [execute] (the body of [Runtime::step]) answers and changes the
    table exactly as the abstract machine allows: [Submit] takes a slot with no
    live handle or reports [Capacity] when every slot is live; the other
    commands move only their own handle along Ready, Waiting, Complete,
    Cancelled, TimedOut (a timeout only once its deadline has passed) or are
    rejected with the table unchanged. *)
Theorem runtime_refines_spec (r : Runtime) (c : RuntimeCommand)
    (Hwf : table_wf (operations r)) (Hc : command_ok c) :
  exists V', spec_step (view r) c (execute r c).2 V' ∧
    forall h, handle_ok h -> view (execute r c).1 h = V' h.
Proof.
  destruct c; [by apply start_refines|by apply execute_refines_handle..].
Qed.

(** Every state a client can reach keeps the table invariant (two slots,
    64-bit nonzero generations, known state codes, a deadline only while
    waiting) and never holds a command and an unread response at once, so the
    mailbox never overwrites a response. *)
Theorem runtime_reachable_wf (r : Runtime) (Hr : reachable r) : wf r.
Proof.
  revert r Hr. apply (rtc_ind_r wf new).
  - split; [apply table_wf_new|by left].
  - intros r r' _ Hs Hr. by eapply client_step_wf.
Qed.

(** C11: a reclaimed handle is dead.  After a successful [Reclaim] of [h], any
    sequence of fewer than 2^64 - 2 further exchanges leaves [h] unknown to
    [state] and every command on it is answered with
    [Rejected(InvalidOperation)]. *)
Theorem runtime_stale_handle_rejected (r : Runtime) (h : OperationHandle) (cs : list RuntimeCommand)
    (Hwf : wf r) (Hcmd : command r = None) (Hresp : response r = None) (Hh : handle_ok h)
    (Hreclaim : (exchange r (CmdReclaim h)).2 = Some (RespReclaimed h))
    (Hcs : Z.of_nat (length cs) < 2 ^ 64 - 2) :
  let r' := exchanges (exchange r (CmdReclaim h)).1 cs in
  state r' h = None ∧
  forall c, command_handle c = Some h -> (execute r' c).2 = RespRejected InvalidOperation.
Proof.
  rewrite exchange_idle in * by done. cbn [fst snd execute respond] in *.
  unfold reclaim_operation in *.
  destruct (current_mut r h) as [[i o]|] eqn:E; [|done].
  apply current_mut_Some in E as (-> & Hl & Hg & Hv).
  revert Hreclaim. destruct (negb _); [done|]. intros _. simpl.
  set (o1 := mk_slot (next_generation (op_generation o)) VACANT NO_DEADLINE) in *.
  set (r1 := mk_runtime (<[Z.to_nat (slot h):=o1]> (operations r)) None None) in *.
  destruct (exchanges_generation cs r1 (Z.to_nat (slot h)) o1) as (k & o' & Hk & Hi' & Hg');
    [done|done|simpl; apply list_lookup_insert_eq; by eapply lookup_lt_Some|].
  destruct Hwf as [Hwf _]. destruct (table_wf_lookup _ _ _ Hwf Hl) as (Hgok & _ & _).
  assert (Hne : op_generation o' ≠ generation h).
  { rewrite Hg', <- Hg. simpl. rewrite next_generation_next_gen, <- Nat.iter_succ_r.
    apply iter_next_gen_fresh; [lia|done|lia]. }
  assert (Hcur : current_mut (exchanges r1 cs) h = None).
  { unfold current_mut. rewrite Hi'. apply Z.eqb_neq in Hne. by rewrite Hne. }
  split.
  - rewrite state_view. unfold view. rewrite Hi'. by rewrite slot_view_other.
  - intros c Hc. destruct c; simpl in Hc; simplify_eq/=;
      unfold complete_operation, cancel_operation, reclaim_operation, wait_operation, timeout_operation;
      by rewrite Hcur.
Qed.

(** ** Witnesses *)

Definition demo : Runtime := (exchange new CmdSubmit).1.
Definition demo_handle : OperationHandle := mk_handle 0 1.

Lemma runtime_refines_spec_witness :
  exists V', spec_step (view new) CmdSubmit (RespSubmitted demo_handle) V' ∧
    forall h, handle_ok h -> view (execute new CmdSubmit).1 h = V' h.
Proof. exact (runtime_refines_spec new CmdSubmit table_wf_new I). Defined.

Lemma runtime_reachable_wf_witness : wf demo.
Proof.
  apply runtime_reachable_wf. unfold reachable, demo, exchange.
  eapply rtc_l; [apply (client_submit new CmdSubmit)|].
  eapply rtc_l; [apply client_run|]. eapply rtc_l; [apply client_take|]. apply rtc_refl.
Defined.

Definition demo_cancelled : Runtime := (exchange demo (CmdCancel demo_handle)).1.

Lemma demo_cancelled_wf : wf demo_cancelled.
Proof. apply exchange_wf, exchange_wf. split; [apply table_wf_new|by left]. Qed.

Lemma runtime_stale_handle_rejected_witness :
  state (exchanges (exchange demo_cancelled (CmdReclaim demo_handle)).1 [CmdSubmit]) demo_handle = None.
Proof.
  apply (runtime_stale_handle_rejected demo_cancelled demo_handle [CmdSubmit]);
    [apply demo_cancelled_wf|reflexivity|reflexivity|unfold handle_ok, fits; simpl; lia|reflexivity|reflexivity].
Defined.
