(* ===== verification/Lifecycle.v ===== *)
(** * The service restart contract ([src/src/service_lifecycle.rs], [src/src/health.rs])

    [ServiceLifecycle] keeps two owner-held operation slots stamped with a slot
    generation and a service epoch; [HealthService] is the ping mailbox built on
    it.  Module [Health] calls the lifecycle exactly as the source does. *)

From Stdlib Require Import ZArith Lia.
From stdpp Require Import base list option numbers relations.
From S2P Require Import Prelude.

#[local] Open Scope Z_scope.

(** ** Data *)

Definition VACANT : Z := 0.
Definition IN_FLIGHT : Z := 1.
Definition COMPLETED : Z := 2.
Definition CANCELLED : Z := 3.
Definition RESTARTED : Z := 4.
Definition INITIAL_EPOCH : Z := 1.
Definition INITIAL_SLOT_GENERATION : Z := 1.
Definition MAX_OPERATIONS : nat := 2.

Inductive OperationState : Type :=
| InFlight
| Completed
| Cancelled
| Restarted.

Inductive StartError : Type :=
| Capacity
| InvalidRequest.

Record OperationHandle : Type := mk_handle {
  slot : Z;
  slot_generation : Z;
  service_epoch : Z;
  request_id : Z
}.

Record OperationSlot : Type := mk_slot {
  op_slot_generation : Z;
  op_service_epoch : Z;
  op_request_id : Z;
  op_state : Z
}.

Definition OperationSlot_new : OperationSlot := mk_slot INITIAL_SLOT_GENERATION 0 0 VACANT.

Record ServiceLifecycle : Type := mk_lifecycle {
  epoch : Z;
  operations : list OperationSlot
}.

Definition new : ServiceLifecycle :=
  mk_lifecycle INITIAL_EPOCH (replicate MAX_OPERATIONS OperationSlot_new).

(** ** Operations *)

Definition next_epoch (e : Z) : Z :=
  let next := wrapping_add 64 e 1 in
  if next =? 0 then INITIAL_EPOCH else next.

Definition set_operation (l : ServiceLifecycle) (i : nat) (o : OperationSlot) : ServiceLifecycle :=
  mk_lifecycle (epoch l) (<[i := o]> (operations l)).

Definition set_state (o : OperationSlot) (s : Z) : OperationSlot :=
  mk_slot (op_slot_generation o) (op_service_epoch o) (op_request_id o) s.

Definition start (l : ServiceLifecycle) (rid : Z) :
    ServiceLifecycle * result OperationHandle StartError :=
  if rid =? 0 then (l, Err InvalidRequest)
  else match list_find (fun o => op_state o = VACANT) (operations l) with
  | None => (l, Err Capacity)
  | Some (i, o) =>
      (set_operation l i (mk_slot (op_slot_generation o) (epoch l) rid IN_FLIGHT),
       Ok (mk_handle (wrap 8 (Z.of_nat i)) (op_slot_generation o) (epoch l) rid))
  end.

Definition state (l : ServiceLifecycle) (h : OperationHandle) : option OperationState :=
  match operations l !! Z.to_nat (slot h) with
  | None => None
  | Some o =>
      if negb (op_slot_generation o =? slot_generation h) || (op_state o =? VACANT) then None
      else if op_state o =? IN_FLIGHT then Some InFlight
      else if op_state o =? COMPLETED then Some Completed
      else if op_state o =? CANCELLED then Some Cancelled
      else if op_state o =? RESTARTED then Some Restarted
      else None
  end.

Definition current_mut (l : ServiceLifecycle) (h : OperationHandle) : option (nat * OperationSlot) :=
  match operations l !! Z.to_nat (slot h) with
  | None => None
  | Some o =>
      if (op_slot_generation o =? slot_generation h) && negb (op_state o =? VACANT)
      then Some (Z.to_nat (slot h), o) else None
  end.

Definition complete (l : ServiceLifecycle) (h : OperationHandle) (e rid : Z) :
    ServiceLifecycle * bool :=
  let current_epoch := epoch l in
  match current_mut l h with
  | None => (l, false)
  | Some (i, o) =>
      if negb (op_state o =? IN_FLIGHT)
         || negb (op_service_epoch o =? current_epoch)
         || negb (e =? current_epoch)
         || negb (op_request_id o =? rid)
      then (l, false)
      else (set_operation l i (set_state o COMPLETED), true)
  end.

Definition cancel (l : ServiceLifecycle) (h : OperationHandle) : ServiceLifecycle * bool :=
  match current_mut l h with
  | None => (l, false)
  | Some (i, o) =>
      if negb (op_state o =? IN_FLIGHT) then (l, false)
      else (set_operation l i (set_state o CANCELLED), true)
  end.

(** The loop of [restart] over the slots: restarted slots and their count. *)
Fixpoint restart_slots (ops : list OperationSlot) : list OperationSlot * nat :=
  match ops with
  | [] => ([], 0%nat)
  | o :: ops =>
      let '(ops', n) := restart_slots ops in
      if op_state o =? IN_FLIGHT then (set_state o RESTARTED :: ops', S n) else (o :: ops', n)
  end.

Definition restart (l : ServiceLifecycle) : ServiceLifecycle * nat :=
  let '(ops, restarted) := restart_slots (operations l) in
  (mk_lifecycle (next_epoch (epoch l)) ops, restarted).

Definition reclaim (l : ServiceLifecycle) (h : OperationHandle) : ServiceLifecycle * bool :=
  match current_mut l h with
  | None => (l, false)
  | Some (i, o) =>
      if negb ((op_state o =? COMPLETED) || (op_state o =? CANCELLED) || (op_state o =? RESTARTED))
      then (l, false)
      else (set_operation l i (mk_slot (next_epoch (op_slot_generation o)) 0 0 VACANT), true)
  end.

(** ** Health: the ping mailbox *)

Module Health.

Inductive PingState : Type :=
| PInFlight
| PCompleted
| PCancelled
| PRestarted.

Inductive HealthError : Type :=
| HCapacity
| HInvalidRequest
| HStaleOperation.

(** [PingHandle] wraps the lifecycle's handle. *)
Record PingHandle : Type := mk_ping { inner : OperationHandle }.

Inductive HealthCommand : Type :=
| Ping (rid : Z)
| CompletePing (h : PingHandle)
| CancelPing (h : PingHandle)
| Restart
| Reclaim (h : PingHandle).

Inductive CommandError : Type :=
| Busy.

Inductive HealthResponse : Type :=
| PingAccepted (h : PingHandle)
| PingCompleted (h : PingHandle)
| PingCancelled (h : PingHandle)
| RestartedCount (count : nat)
| Reclaimed (h : PingHandle)
| Rejected (e : HealthError).

Record HealthService : Type := mk_health {
  lifecycle : ServiceLifecycle;
  command : option HealthCommand;
  response : option HealthResponse
}.

Definition health_new : HealthService := mk_health new None None.

Definition submit (s : HealthService) (c : HealthCommand) :
    HealthService * result unit CommandError :=
  if bool_decide (is_Some (command s)) || bool_decide (is_Some (response s))
  then (s, Err Busy)
  else (mk_health (lifecycle s) (Some c) (response s), Ok tt).

Definition start_ping (l : ServiceLifecycle) (rid : Z) :
    ServiceLifecycle * result PingHandle HealthError :=
  match start l rid with
  | (l', Ok h) => (l', Ok (mk_ping h))
  | (l', Err Capacity) => (l', Err HCapacity)
  | (l', Err InvalidRequest) => (l', Err HInvalidRequest)
  end.

Definition complete_ping (l : ServiceLifecycle) (h : PingHandle) : ServiceLifecycle * bool :=
  complete l (inner h) (service_epoch (inner h)) (request_id (inner h)).

Definition cancel_ping (l : ServiceLifecycle) (h : PingHandle) : ServiceLifecycle * bool :=
  cancel l (inner h).

Definition reclaim_ping (l : ServiceLifecycle) (h : PingHandle) : ServiceLifecycle * bool :=
  reclaim l (inner h).

Definition ping_state (s : HealthService) (h : PingHandle) : option PingState :=
  match state (lifecycle s) (inner h) with
  | Some InFlight => Some PInFlight
  | Some Completed => Some PCompleted
  | Some Cancelled => Some PCancelled
  | Some Restarted => Some PRestarted
  | None => None
  end.

Definition respond (ok : HealthResponse) (p : ServiceLifecycle * bool) :
    ServiceLifecycle * HealthResponse :=
  (p.1, if p.2 then ok else Rejected HStaleOperation).

(** The [match command] of [step]. *)
Definition execute (l : ServiceLifecycle) (c : HealthCommand) : ServiceLifecycle * HealthResponse :=
  match c with
  | Ping rid =>
      match start_ping l rid with
      | (l', Ok h) => (l', PingAccepted h)
      | (l', Err e) => (l', Rejected e)
      end
  | CompletePing h => respond (PingCompleted h) (complete_ping l h)
  | CancelPing h => respond (PingCancelled h) (cancel_ping l h)
  | Restart => let '(l', n) := restart l in (l', RestartedCount n)
  | Reclaim h => respond (Reclaimed h) (reclaim_ping l h)
  end.

Definition step (s : HealthService) : HealthService * bool :=
  match command s with
  | None => (s, false)
  | Some c =>
      let '(l, resp) := execute (lifecycle s) c in
      (mk_health l None (Some resp), true)
  end.

Definition take_response (s : HealthService) : HealthService * option HealthResponse :=
  (mk_health (lifecycle s) (command s) None, response s).

(** One full mailbox exchange, and a sequence of them. *)
Definition exchange (s : HealthService) (c : HealthCommand) : HealthService * option HealthResponse :=
  take_response (step (submit s c).1).1.

Fixpoint exchanges (s : HealthService) (cs : list HealthCommand) : HealthService :=
  match cs with
  | [] => s
  | c :: cs => exchanges (exchange s c).1 cs
  end.

End Health.

(** ** Invariant *)

Definition handle_ok (h : OperationHandle) : Prop := fits 8 (slot h).

Definition slot_wf (e : Z) (o : OperationSlot) : Prop :=
  gen_ok 64 (op_slot_generation o) ∧ VACANT <= op_state o <= RESTARTED ∧
  (op_state o = IN_FLIGHT -> op_service_epoch o = e ∧ op_request_id o ≠ 0) ∧
  (op_state o = VACANT -> op_service_epoch o = 0 ∧ op_request_id o = 0).

Definition wf (l : ServiceLifecycle) : Prop :=
  gen_ok 64 (epoch l) ∧ length (operations l) = MAX_OPERATIONS ∧
  Forall (slot_wf (epoch l)) (operations l).

Inductive lifecycle_step : ServiceLifecycle -> ServiceLifecycle -> Prop :=
| do_start l rid : lifecycle_step l (start l rid).1
| do_complete l h e rid : lifecycle_step l (complete l h e rid).1
| do_cancel l h : lifecycle_step l (cancel l h).1
| do_restart l : lifecycle_step l (restart l).1
| do_reclaim l h : lifecycle_step l (reclaim l h).1.

Definition reachable (l : ServiceLifecycle) : Prop := rtc lifecycle_step new l.

(** ** Lemmas *)

Ltac lc_unfold := unfold VACANT, IN_FLIGHT, COMPLETED, CANCELLED, RESTARTED in *.

Lemma next_epoch_next_gen e : next_epoch e = next_gen 64 e.
Proof. reflexivity. Qed.

Lemma next_epoch_ne e : gen_ok 64 e -> next_epoch e ≠ e.
Proof.
  intros He. rewrite next_epoch_next_gen.
  apply (iter_next_gen_fresh 64 e 1); [lia|done|lia].
Qed.

Lemma wf_set l i o : wf l -> slot_wf (epoch l) o -> wf (set_operation l i o).
Proof.
  intros (He & Hl & Hf) Ho. split; [done|split]; simpl.
  - by rewrite length_insert.
  - by apply Forall_insert.
Qed.

Lemma wf_lookup l i o : wf l -> operations l !! i = Some o -> slot_wf (epoch l) o.
Proof. intros (_ & _ & Hf) Hi. by eapply Forall_lookup_1. Qed.

Lemma wf_lookup_gen l i o : wf l -> operations l !! i = Some o -> gen_ok 64 (op_slot_generation o).
Proof. intros Hwf Hi. by destruct (wf_lookup l i o Hwf Hi). Qed.

Lemma wf_new : wf new.
Proof.
  split; [|split; [done|]].
  - unfold gen_ok; simpl; unfold INITIAL_EPOCH; lia.
  - apply Forall_replicate. split; [unfold gen_ok; simpl; unfold INITIAL_SLOT_GENERATION; lia|].
    split; [simpl; lc_unfold; lia|]. split; intros E; simpl in *; [lc_unfold; lia|done].
Qed.

Lemma lifecycle_current_mut_Some l h i o :
  current_mut l h = Some (i, o) ->
  i = Z.to_nat (slot h) ∧ operations l !! i = Some o ∧
  op_slot_generation o = slot_generation h ∧ op_state o ≠ VACANT.
Proof. unfold current_mut. intros H. des. boolprop. by subst. Qed.

Lemma restart_slots_spec ops :
  (restart_slots ops).1 = (fun o => if op_state o =? IN_FLIGHT then set_state o RESTARTED else o) <$> ops ∧
  (restart_slots ops).2 = length (filter (fun o => op_state o = IN_FLIGHT) ops).
Proof.
  induction ops as [|o ops [IH1 IH2]]; [done|]. simpl.
  destruct (restart_slots ops) as [ops' n]. simpl in *. rewrite filter_cons.
  destruct (Z.eqb_spec (op_state o) IN_FLIGHT); simpl.
  - rewrite decide_True by done. simpl. by rewrite IH1, IH2.
  - rewrite decide_False by done. by rewrite IH1, IH2.
Qed.

Lemma restart_operations l :
  operations (restart l).1 =
  (fun o => if op_state o =? IN_FLIGHT then set_state o RESTARTED else o) <$> operations l.
Proof.
  unfold restart. destruct (restart_slots_spec (operations l)) as [H _].
  by destruct (restart_slots (operations l)).
Qed.

Lemma restart_epoch l : epoch (restart l).1 = next_epoch (epoch l).
Proof. unfold restart. by destruct (restart_slots (operations l)). Qed.

Ltac op_cases :=
  match goal with
  | |- context [ current_mut ?l ?h ] =>
      let E := fresh "E" in
      destruct (current_mut l h) as [[? ?]|] eqn:E; [apply lifecycle_current_mut_Some in E as (-> & ? & ? & ?)|]
  end; simpl; try case_match; simpl; boolprop.

Lemma slot_wf_terminal e o s :
  gen_ok 64 (op_slot_generation o) -> COMPLETED <= s <= RESTARTED -> slot_wf e (set_state o s).
Proof. intros Hg H. split; [done|]. simpl. lc_unfold. repeat split; intros; lia. Qed.

Lemma lifecycle_step_wf l l' : wf l -> lifecycle_step l l' -> wf l'.
Proof.
  intros Hwf Hs. destruct Hs as [l rid|l h e rid|l h|l|l h].
  - unfold start. case_match; [done|]. destruct (list_find _ _) as [[i o]|] eqn:E; [|done].
    apply list_find_Some in E as (Hi & _ & _). boolprop. simpl. apply wf_set; [done|].
    destruct (wf_lookup l i o Hwf Hi) as (Hg & _). split; [done|]. simpl. lc_unfold.
    split; [lia|]. split; [done|lia].
  - unfold complete. op_cases; try done. apply wf_set; [done|].
    apply slot_wf_terminal; [by eapply wf_lookup_gen|lc_unfold; lia].
  - unfold cancel. op_cases; try done. apply wf_set; [done|].
    apply slot_wf_terminal; [by eapply wf_lookup_gen|lc_unfold; lia].
  - destruct Hwf as (He & Hl & Hf). split; [|split].
    + rewrite restart_epoch. by apply next_gen_ok.
    + by rewrite restart_operations, length_fmap.
    + rewrite restart_operations, restart_epoch. apply Forall_fmap. eapply Forall_impl; [exact Hf|].
      intros o Ho. simpl. destruct (Z.eqb_spec (op_state o) IN_FLIGHT).
      * apply slot_wf_terminal; [by destruct Ho|lc_unfold; lia].
      * destruct Ho as (Hg & Hs & Hi & Hv). by split.
  - unfold reclaim. op_cases; try done; apply wf_set; try done.
    match goal with H : operations _ !! _ = Some _ |- _ => destruct (wf_lookup _ _ _ Hwf H) as (Hg & _) end.
    split; [by apply next_gen_ok|]. simpl. lc_unfold. repeat split; intros; lia.
Qed.

Lemma state_slot l h o :
  operations l !! Z.to_nat (slot h) = Some o ->
  state l h =
    if negb (op_slot_generation o =? slot_generation h) || (op_state o =? VACANT) then None
    else if op_state o =? IN_FLIGHT then Some InFlight
    else if op_state o =? COMPLETED then Some Completed
    else if op_state o =? CANCELLED then Some Cancelled
    else if op_state o =? RESTARTED then Some Restarted
    else None.
Proof. intros H. unfold state. by rewrite H. Qed.

(** The slot of a restarted operation, along any execution: still restarted, or
    past its generation by at most [n] reclaims. *)
Definition retired (g : Z) (i n : nat) (l : ServiceLifecycle) : Prop :=
  exists o, operations l !! i = Some o ∧
    ((op_slot_generation o = g ∧ op_state o = RESTARTED) ∨
     exists k, (1 <= k <= n)%nat ∧ op_slot_generation o = Nat.iter k (next_gen 64) g).

Lemma retired_mono g i n m l : (n <= m)%nat -> retired g i n l -> retired g i m l.
Proof.
  intros Hm (o & Ho & [H|(k & Hk & H)]); exists o; split; try done; [by left|].
  right. exists k. split; [lia|done].
Qed.

(** Overwriting a slot keeps the property when the generation is kept and the
    slot was not restarted, or when the generation advances. *)
Lemma retired_set g i n l j o o' :
  retired g i n l -> operations l !! j = Some o ->
  (op_state o ≠ RESTARTED ∧ op_slot_generation o' = op_slot_generation o) ∨
  op_slot_generation o' = next_gen 64 (op_slot_generation o) ->
  retired g i (S n) (set_operation l j o').
Proof.
  intros (x & Hx & Hr) Hj Ho'. destruct (decide (i = j)) as [->|Hne].
  - simplify_eq. exists o'. simpl.
    rewrite list_lookup_insert_eq by by eapply lookup_lt_Some. split; [done|]. right.
    destruct Hr as [[Hg Hs]|(k & Hk & Hg)], Ho' as [[Hns Hsame]|Hnext]; try done.
    + exists 1%nat. split; [lia|]. by rewrite Hnext, Hg.
    + exists k. split; [lia|]. by rewrite Hsame.
    + exists (S k). split; [lia|]. by rewrite Hnext, Hg.
  - exists x. simpl. rewrite list_lookup_insert_ne by done. split; [done|].
    destruct Hr as [?|(k & Hk & Hg)]; [by left|]. right. exists k. split; [lia|done].
Qed.

Lemma retired_step g i n l l' : retired g i n l -> lifecycle_step l l' -> retired g i (S n) l'.
Proof.
  intros Hr Hs. pose proof (retired_mono g i n (S n) l ltac:(lia) Hr) as Hr'.
  destruct Hs as [l rid|l h e rid|l h|l|l h].
  - unfold start. case_match; [done|]. destruct (list_find _ _) as [[j o]|] eqn:E; [|done].
    apply list_find_Some in E as (Hj & Hv & _). simpl. eapply retired_set; [done..|].
    left. split; [rewrite Hv; done|done].
  - unfold complete. op_cases; try done. eapply retired_set; [done..|]. left.
    split; [lc_unfold; lia|done].
  - unfold cancel. op_cases; try done. eapply retired_set; [done..|]. left.
    split; [lc_unfold; lia|done].
  - destruct Hr' as (o & Ho & Hor). eexists. rewrite restart_operations, list_lookup_fmap, Ho.
    simpl. split; [done|]. destruct Hor as [[Hg Hst]|?].
    + left. rewrite Hst. done.
    + right. by case_match.
  - unfold reclaim. op_cases; try done; (eapply retired_set; [done..|]); by right.
Qed.

Lemma retired_complete g i n l h e rid :
  retired g i n l -> gen_ok 64 g -> Z.of_nat n < 2 ^ 64 - 1 ->
  i = Z.to_nat (slot h) -> g = slot_generation h -> complete l h e rid = (l, false).
Proof.
  intros (o & Ho & Hor) Hg Hn -> ->. unfold complete, current_mut. rewrite Ho.
  destruct Hor as [[_ Hs]|(k & Hk & Hgen)].
  - case_match; [|done]. case_match; [|done]. simplify_eq/=. by rewrite Hs.
  - case_match; [|done]. case_match; [|done]. boolprop. exfalso.
    apply (iter_next_gen_fresh 64 (slot_generation h) k); [lia|done|lia|congruence].
Qed.

(** ** Properties of the lifecycle *)

(** In every reachable lifecycle, an operation that is in flight was started
    in the current service epoch, so a completion can only be accepted for the
    epoch that issued it; slot generations and the epoch stay nonzero 64-bit
    values, and vacant slots carry no request. *)
Theorem lifecycle_reachable_wf (l : ServiceLifecycle) (Hr : reachable l) : wf l.
Proof.
  revert l Hr. apply (rtc_ind_r wf new); [apply wf_new|].
  intros l l' _ Hs Hl. by eapply lifecycle_step_wf.
Qed.

(** [restart] reports the number of operations in flight, turns exactly
    those into [Restarted], leaves every other handle's state alone and moves
    to a different epoch. *)
Theorem restart_spec (l : ServiceLifecycle) (Hwf : wf l) :
  (restart l).2 = length (filter (fun o => op_state o = IN_FLIGHT) (operations l)) ∧
  epoch (restart l).1 ≠ epoch l ∧
  forall h, state (restart l).1 h =
    match state l h with Some InFlight => Some Restarted | s => s end.
Proof.
  split; [|split].
  - unfold restart. destruct (restart_slots_spec (operations l)) as [_ H].
    by destruct (restart_slots (operations l)).
  - rewrite restart_epoch. apply next_epoch_ne, Hwf.
  - intros h. unfold state. rewrite restart_operations, list_lookup_fmap.
    destruct (operations l !! _) as [o|]; [|done]. simpl.
    destruct (Z.eqb_spec (op_state o) IN_FLIGHT) as [E|E]; simpl.
    + rewrite E. simpl. case_match; done.
    + apply Z.eqb_neq in E. rewrite E. repeat case_match; done.
Qed.

(** ** The health mailbox drives the lifecycle *)

Lemma health_execute_step l c : lifecycle_step l (Health.execute l c).1.
Proof.
  destruct c as [rid|h|h| |h]; simpl.
  - unfold Health.start_ping. pose proof (do_start l rid) as H.
    destruct (start l rid) as [l' [h|[]]]; done.
  - apply do_complete.
  - apply do_cancel.
  - pose proof (do_restart l) as H. by destruct (restart l).
  - apply do_reclaim.
Qed.

Lemma health_execute_restart l : (Health.execute l Health.Restart).1 = (restart l).1.
Proof. simpl. by destruct (restart l). Qed.

Definition idle (s : Health.HealthService) : Prop :=
  Health.command s = None ∧ Health.response s = None.

Lemma health_exchange_idle s c :
  idle s ->
  Health.exchange s c =
    (Health.mk_health (Health.execute (Health.lifecycle s) c).1 None None,
     Some (Health.execute (Health.lifecycle s) c).2).
Proof.
  destruct s as [l cmd rsp]. intros [Hc Hr]; simpl in *; subst.
  unfold Health.exchange, Health.submit.
  rewrite !bool_decide_eq_false_2 by (intros [? ?]; done). simpl.
  unfold Health.step, Health.take_response. simpl. by destruct (Health.execute l c).
Qed.

Lemma exchanges_retired cs : forall g i n s,
  idle s -> retired g i n (Health.lifecycle s) ->
  idle (Health.exchanges s cs) ∧
  retired g i (n + length cs) (Health.lifecycle (Health.exchanges s cs)).
Proof.
  induction cs as [|c cs IH]; intros g i n s Hi Hr.
  - simpl. by rewrite Nat.add_0_r.
  - change (Health.exchanges s (c :: cs)) with (Health.exchanges (Health.exchange s c).1 cs).
    rewrite health_exchange_idle by done. cbn [fst].
    replace (n + length (c :: cs))%nat with (S n + length cs)%nat by (simpl; lia).
    apply IH; [done|]. simpl. eapply retired_step; [done|]. apply health_execute_step.
Qed.

(** C10: a ping that was in flight when the service restarted can never complete
    afterwards.  Whatever the owner does next (fewer than 2^64 - 1 exchanges),
    [CompletePing] on the old handle is answered [Rejected(StaleOperation)] and
    changes nothing. *)
Theorem health_restart_rejects_late_completion
    (s : Health.HealthService) (h : Health.PingHandle) (cs : list Health.HealthCommand)
    (Hidle : idle s) (Hwf : wf (Health.lifecycle s))
    (Hflight : Health.ping_state s h = Some Health.PInFlight)
    (Hcs : Z.of_nat (length cs) < 2 ^ 64 - 1) :
  let s' := Health.exchanges (Health.exchange s Health.Restart).1 cs in
  Health.exchange s' (Health.CompletePing h) =
    (s', Some (Health.Rejected Health.HStaleOperation)).
Proof.
  simpl. set (l := Health.lifecycle s) in *.
  assert (Hr : retired (slot_generation (Health.inner h)) (Z.to_nat (slot (Health.inner h))) 0
            (restart l).1 ∧ gen_ok 64 (slot_generation (Health.inner h))).
  { unfold Health.ping_state, state in Hflight. fold l in Hflight.
    destruct (operations l !! _) as [o|] eqn:Ho; [|done].
    destruct (op_state o =? IN_FLIGHT) eqn:Hst; [|by repeat case_match].
    destruct (negb _ || _) eqn:Hm in Hflight; [done|]. boolprop. split.
    - eexists. rewrite restart_operations, list_lookup_fmap, Ho. split; [done|]. left.
      rewrite Hst. done.
    - match goal with H : op_slot_generation _ = _ |- _ => rewrite <- H end.
      by eapply wf_lookup_gen. }
  destruct Hr as [Hr Hg].
  destruct (exchanges_retired cs (slot_generation (Health.inner h))
    (Z.to_nat (slot (Health.inner h))) 0 (Health.exchange s Health.Restart).1) as [Hi Hr'].
  { by rewrite health_exchange_idle. }
  { rewrite health_exchange_idle by done. cbn [fst Health.lifecycle].
    by rewrite health_execute_restart. }
  set (s' := Health.exchanges _ cs) in *. rewrite health_exchange_idle by done.
  simpl. unfold Health.complete_ping.
  rewrite (retired_complete _ _ _ _ _ _ _ Hr'); [|done|simpl; lia|done|done].
  destruct Hi as [Hi1 Hi2], s' as [l' cmd rsp]; simpl in *. by subst.
Qed.

(** ** Witnesses *)

Definition ping_demo : Health.HealthService := (Health.exchange Health.health_new (Health.Ping 7)).1.
Definition ping_handle : Health.PingHandle := Health.mk_ping (mk_handle 0 1 1 7).

Lemma lifecycle_demo_wf : wf (Health.lifecycle ping_demo).
Proof.
  change (Health.lifecycle ping_demo) with (Health.execute new (Health.Ping 7)).1.
  eapply lifecycle_step_wf; [apply wf_new|apply health_execute_step].
Qed.

Lemma lifecycle_reachable_wf_witness : wf (Health.lifecycle ping_demo).
Proof.
  apply lifecycle_reachable_wf. apply rtc_once. exact (do_start new 7).
Defined.

Lemma restart_spec_witness :
  (restart (Health.lifecycle ping_demo)).2 = 1%nat ∧
  state (restart (Health.lifecycle ping_demo)).1 (Health.inner ping_handle) = Some Restarted.
Proof.
  destruct (restart_spec (Health.lifecycle ping_demo) lifecycle_demo_wf) as (H1 & _ & H3).
  split; [exact H1|exact (H3 (Health.inner ping_handle))].
Defined.

Lemma health_restart_rejects_late_completion_witness :
  let s' := Health.exchanges (Health.exchange ping_demo Health.Restart).1
              [Health.Ping 8; Health.Reclaim ping_handle; Health.Ping 9] in
  (Health.exchange s' (Health.CompletePing ping_handle)).2
    = Some (Health.Rejected Health.HStaleOperation).
Proof.
  exact (f_equal snd (health_restart_rejects_late_completion ping_demo ping_handle
    [Health.Ping 8; Health.Reclaim ping_handle; Health.Ping 9]
    (conj eq_refl eq_refl) lifecycle_demo_wf eq_refl eq_refl)).
Defined.
