(* ===== verification/Walltime.v ===== *)
(** * Wall-clock time ([src/abi/src/walltime.rs])

    The reading a service gets is the battery clock decoded at boot
    ([decode_rtc]) advanced by the elapsed seconds ([advance_wall_time]), and
    travels in one register ([pack], [unpack]).  The hosted build computes the
    same reading from a Unix timestamp with a closed formula
    ([wall_time] of [src/host/src/main.rs]).  The file proves that the two
    agree, that advancing keeps a date valid and composes, and that the
    register carries a reading unchanged. *)

From Stdlib Require Import ZArith Lia.
From stdpp Require Import base list option numbers.
From S2P Require Import Prelude.

#[local] Open Scope Z_scope.

(** ** Readings *)

Record WallTime : Type := mk_wall {
  year : Z;
  month : Z;
  day : Z;
  hour : Z;
  minute : Z;
  second : Z
}.

#[export] Instance WallTime_eq_dec : EqDecision WallTime.
Proof. solve_decision. Defined.

Definition pack (w : WallTime) : Z :=
  Z.lor (Z.lor (Z.lor (Z.lor (Z.lor (Z.shiftl (year w) 40) (Z.shiftl (month w) 32))
    (Z.shiftl (day w) 24)) (Z.shiftl (hour w) 16)) (Z.shiftl (minute w) 8)) (second w).

Definition unpack (raw : Z) : WallTime :=
  mk_wall (Z.land (Z.shiftr raw 40) 65535) (Z.land (Z.shiftr raw 32) 255) (Z.land (Z.shiftr raw 24) 255)
    (Z.land (Z.shiftr raw 16) 255) (Z.land (Z.shiftr raw 8) 255) (Z.land raw 255).

(** ** The battery clock *)

Record RtcRegisters : Type := mk_rtc {
  rtc_second : Z;
  rtc_minute : Z;
  rtc_hour : Z;
  rtc_day : Z;
  rtc_month : Z;
  rtc_year : Z;
  rtc_century : option Z;
  rtc_status_b : Z
}.

Definition STATUS_B_BINARY : Z := Z.shiftl 1 2.
Definition STATUS_B_24_HOUR : Z := Z.shiftl 1 1.
Definition HOUR_PM_FLAG : Z := Z.shiftl 1 7.

(** At most 165, so the [u8] sum never overflows. *)
Definition bcd_to_binary (value : Z) : Z := Z.land value 15 + Z.shiftr value 4 * 10.

Definition is_leap_year (y : Z) : bool :=
  ((y mod 4 =? 0) && negb (y mod 100 =? 0)) || (y mod 400 =? 0).

Definition days_in_month (y m : Z) : Z :=
  match m with
  | 1 | 3 | 5 | 7 | 8 | 10 | 12 => 31
  | 4 | 6 | 9 | 11 => 30
  | 2 => if is_leap_year y then 29 else 28
  | _ => 0
  end.

(** A register in binary or in decimal digits. *)
Definition rtc_field (binary : bool) (v : Z) : Z := if binary then v else bcd_to_binary v.

Definition decode_rtc (raw : RtcRegisters) : option WallTime :=
  let binary := negb (Z.land (rtc_status_b raw) STATUS_B_BINARY =? 0) in
  let is_24_hour := negb (Z.land (rtc_status_b raw) STATUS_B_24_HOUR =? 0) in
  let field := rtc_field binary in
  let second := field (rtc_second raw) in
  let minute := field (rtc_minute raw) in
  let day := field (rtc_day raw) in
  let month := field (rtc_month raw) in
  let year_low := field (rtc_year raw) in
  let pm := negb (Z.land (rtc_hour raw) HOUR_PM_FLAG =? 0) in
  let hour_field := Z.land (rtc_hour raw) (U8_MAX - HOUR_PM_FLAG) in
  let hour_value := field hour_field in
  let hour :=
    if is_24_hour then hour_value
    else if hour_value =? 12 then (if pm then 12 else 0)
    else if pm then hour_value + 12 else hour_value in
  let year :=
    match rtc_century raw with
    | Some c => field c * 100 + year_low
    | None => 2000 + year_low
    end in
  if negb ((1 <=? month) && (month <=? 12)) then None
  else if (day <? 1) || (days_in_month year month <? day) then None
  else if (23 <? hour) || (59 <? minute) || (59 <? second) then None
  else Some (mk_wall year month day hour minute second).

(** ** Advancing *)

(** One iteration of the carry loop on (year, month, day); [u8] and [u16]
    arithmetic. *)
Definition next_day (date : Z * Z * Z) : Z * Z * Z :=
  let '(y, m, d) := date in
  let d := wrapping_add 8 d 1 in
  if days_in_month y m <? d then
    let m := wrapping_add 8 m 1 in
    if 12 <? m then (saturating_add 16 y 1, 1, 1) else (y, m, 1)
  else (y, m, d).

Definition advance_wall_time (base : WallTime) (elapsed_seconds : Z) : WallTime :=
  let total := wrapping_add 64 (hour base * 3600 + minute base * 60 + second base) elapsed_seconds in
  let '(y, m, d) := Nat.iter (Z.to_nat (total / 86400)) next_day (year base, month base, day base) in
  let total := total mod 86400 in
  mk_wall y m d (wrap 8 (total / 3600)) (wrap 8 (total mod 3600 / 60)) (wrap 8 (total mod 60)).

(** ** The hosted build: days to civil date

    [days] counts from the first of March of year zero. *)
Definition civil_year_month_day (days : Z) : Z * Z * Z :=
  let era := days / 146097 in
  let doe := days - era * 146097 in
  let yoe := (doe - doe / 1460 + doe / 36524 - doe / 146096) / 365 in
  let doy := doe - (365 * yoe + yoe / 4 - yoe / 100) in
  let mp := (5 * doy + 2) / 153 in
  let day := wrap 8 (doy - (153 * mp + 2) / 5 + 1) in
  let month := wrap 8 (if mp <? 10 then mp + 3 else mp - 9) in
  let year := wrap 16 (yoe + era * 400 + (if month <=? 2 then 1 else 0)) in
  (year, month, day).

Definition host_wall_time (unix_seconds : Z) : WallTime :=
  let days := unix_seconds / 86400 + 719468 in
  let '(year, month, day) := civil_year_month_day days in
  let seconds := unix_seconds mod 86400 in
  mk_wall year month day (wrap 8 (seconds / 3600)) (wrap 8 (seconds mod 3600 / 60)) (wrap 8 (seconds mod 60)).

(** ** The kernel's clock ([src/src/arch.rs])

    The reading at boot, packed, and the tick count at that moment. *)
Record clock : Type := mk_clock {
  WALL_CLOCK_ANCHOR : Z;
  WALL_CLOCK_ANCHOR_TICKS : Z
}.

Definition WALL_CLOCK_TICKS_PER_SECOND : Z := 100.

Definition init_wall_clock (registers : RtcRegisters) (ticks : Z) : clock :=
  let wall := match decode_rtc registers with Some w => w | None => mk_wall 2000 1 1 0 0 0 end in
  mk_clock (pack wall) ticks.

Definition wall_time (c : clock) (ticks : Z) : WallTime :=
  let anchor := unpack (WALL_CLOCK_ANCHOR c) in
  let elapsed_ticks := saturating_sub ticks (WALL_CLOCK_ANCHOR_TICKS c) in
  advance_wall_time anchor (elapsed_ticks / WALL_CLOCK_TICKS_PER_SECOND).

(** ** Validity *)

Definition valid_date (date : Z * Z * Z) : Prop :=
  let '(y, m, d) := date in fits 16 y ∧ 1 <= m <= 12 ∧ 1 <= d <= days_in_month y m.

Definition valid (w : WallTime) : Prop :=
  valid_date (year w, month w, day w) ∧ 0 <= hour w <= 23 ∧ 0 <= minute w <= 59 ∧ 0 <= second w <= 59.

(** ** The register *)

Lemma land_ones_mod a n : 0 <= n -> Z.land a (2 ^ n - 1) = a mod 2 ^ n.
Proof. intros Hn. rewrite <- Z.land_ones by done. by rewrite Z.ones_equiv, Z.sub_1_r. Qed.

Lemma pack_sum w :
  fits 16 (year w) -> fits 8 (month w) -> fits 8 (day w) -> fits 8 (hour w) -> fits 8 (minute w) ->
  fits 8 (second w) ->
  pack w = ((((year w * 2 ^ 8 + month w) * 2 ^ 8 + day w) * 2 ^ 8 + hour w) * 2 ^ 8 + minute w) * 2 ^ 8 + second w.
Proof.
  unfold fits, pack. intros Hy Hmo Hd Hh Hmi Hs.
  assert (Hj : forall a b n, 0 <= n -> 0 <= b < 2 ^ 8 ->
    Z.lor (Z.shiftl a (n + 8)) (Z.shiftl b n) = Z.shiftl (a * 2 ^ 8 + b) n).
  { intros a b n Hn Hb. rewrite Z.add_comm, <- Z.shiftl_shiftl, <- Z.shiftl_lor by lia.
    f_equal. by rewrite lor_shiftl_add. }
  rewrite (Hj _ _ 32), (Hj _ _ 24), (Hj _ _ 16), (Hj _ _ 8) by lia.
  by rewrite lor_shiftl_add by lia.
Qed.

(** A reading survives the register. *)
Lemma pack_unpack w :
  fits 16 (year w) -> fits 8 (month w) -> fits 8 (day w) -> fits 8 (hour w) -> fits 8 (minute w) ->
  fits 8 (second w) -> unpack (pack w) = w.
Proof.
  intros Hy Hmo Hd Hh Hmi Hs. rewrite pack_sum by done. unfold unpack, fits in *.
  change 65535 with (2 ^ 16 - 1). change 255 with (2 ^ 8 - 1).
  rewrite !land_ones_mod, !Z.shiftr_div_pow2 by lia.
  destruct w as [y mo d h mi s]; cbn [year month day hour minute second] in *.
  f_equal; Z.div_mod_to_equations; lia.
Qed.

(** ** The closed formula steps like the loop

    Years are counted from March.  [era_start y] is the first day of year [y]
    of a 400-year era and [yoe_of] the year the formula assigns to a day. *)

Definition era_start (y : Z) : Z := if y =? 400 then 146097 else 365 * y + y / 4 - y / 100.
Definition yoe_of (doe : Z) : Z := (doe - doe / 1460 + doe / 36524 - doe / 146096) / 365.

(** The 400 years of an era: the formula gives the year at its first and last
    day, and the year is as long as the leap-year rule says. *)
Definition year_ok (y : Z) : bool :=
  (yoe_of (era_start y) =? y) && (yoe_of (era_start (y + 1) - 1) =? y)
  && (era_start (y + 1) - era_start y =? if is_leap_year (y + 1) then 366 else 365)
  && (era_start y <? era_start (y + 1)).

Lemma forallb_range (p : Z -> bool) n :
  forallb p (Z.of_nat <$> seq 0 n) = true -> forall y, 0 <= y < Z.of_nat n -> p y = true.
Proof.
  intros H y Hy. rewrite forallb_forall in H. apply H, list_elem_of_In, list_elem_of_fmap.
  exists (Z.to_nat y). split; [lia|]. apply elem_of_seq. lia.
Qed.

Lemma years_ok y : 0 <= y < 400 -> year_ok y = true.
Proof. apply (forallb_range year_ok 400). vm_compute. reflexivity. Qed.

Lemma yoe_monotone a b : 0 <= a <= b -> yoe_of a <= yoe_of b.
Proof.
  intros H. unfold yoe_of. apply Z.div_le_mono; [lia|].
  change 146096 with (36524 * 4). rewrite <- !Z.div_div by lia.
  assert (a - a / 1460 <= b - b / 1460) by (Z.div_mod_to_equations; lia).
  pose proof (Z.div_le_mono a b 36524 ltac:(lia) ltac:(lia)).
  assert (a / 36524 - a / 36524 / 4 <= b / 36524 - b / 36524 / 4); [|lia].
  generalize dependent (a / 36524). generalize dependent (b / 36524). intros kb ka Hk.
  Z.div_mod_to_equations. lia.
Qed.

Lemma era_start_nonneg y : 0 <= y -> 0 <= era_start y.
Proof. intros Hy. unfold era_start. destruct (y =? 400); [lia|]. Z.div_mod_to_equations. lia. Qed.

(** The formula assigns a day to the year that contains it. *)
Lemma yoe_unique y doe : 0 <= y < 400 -> era_start y <= doe < era_start (y + 1) -> yoe_of doe = y.
Proof.
  intros Hy Hd. pose proof (years_ok y Hy) as H. unfold year_ok in H. boolprop.
  pose proof (era_start_nonneg y ltac:(lia)).
  pose proof (yoe_monotone (era_start y) doe ltac:(lia)).
  pose proof (yoe_monotone doe (era_start (y + 1) - 1) ltac:(lia)). lia.
Qed.

Lemma yoe_bounds doe :
  0 <= doe < 146097 ->
  0 <= yoe_of doe < 400 ∧ era_start (yoe_of doe) <= doe < era_start (yoe_of doe + 1).
Proof.
  intros Hd.
  assert (Hy : 0 <= yoe_of doe < 400).
  { pose proof (yoe_monotone 0 doe ltac:(lia)) as H1. pose proof (yoe_monotone doe 146096 ltac:(lia)) as H2.
    change (yoe_of 0) with 0 in H1. change (yoe_of 146096) with 399 in H2. lia. }
  split; [done|]. pose proof (years_ok _ Hy) as H. unfold year_ok in H. boolprop.
  pose proof (era_start_nonneg (yoe_of doe) ltac:(lia)).
  split.
  - destruct (Z.le_gt_cases (era_start (yoe_of doe)) doe); [done|]. exfalso.
    destruct (decide (yoe_of doe = 0)) as [E|]; [rewrite E in *; change (era_start 0) with 0 in *; lia|].
    pose proof (years_ok (yoe_of doe - 1) ltac:(lia)) as H'. unfold year_ok in H'. boolprop.
    replace (yoe_of doe - 1 + 1) with (yoe_of doe) in * by lia.
    pose proof (yoe_monotone doe (era_start (yoe_of doe) - 1) ltac:(lia)). lia.
  - destruct (Z.lt_ge_cases doe (era_start (yoe_of doe + 1))); [done|]. exfalso.
    destruct (decide (yoe_of doe = 399)) as [E|]; [rewrite E in *; change (era_start (399 + 1)) with 146097 in *; lia|].
    pose proof (years_ok (yoe_of doe + 1) ltac:(lia)) as H'. unfold year_ok in H'. boolprop.
    pose proof (yoe_monotone (era_start (yoe_of doe + 1)) doe ltac:(lia)). lia.
Qed.

(** Month and day of a day of the March-based year. *)
Definition month_day (doy : Z) : Z * Z :=
  let mp := (5 * doy + 2) / 153 in
  (if mp <? 10 then mp + 3 else mp - 9, doy - (153 * mp + 2) / 5 + 1).

(** The first 365 days of the year: each is followed by the next day of its
    month or the first of the next month, February has a 29th day at the end. *)
Definition month_step_ok (doy : Z) : bool :=
  let '(m, d) := month_day doy in
  let '(m', d') := month_day (doy + 1) in
  (1 <=? m) && (m <=? 12) && (1 <=? d) && (d <=? 31) &&
  (if m =? 2 then (m' =? 2) && (d' =? d + 1) && (d <? 29) && Bool.eqb (d =? 28) (doy =? 364)
   else negb (doy =? 364) && (d <=? days_in_month 0 m) &&
     (if d + 1 <=? days_in_month 0 m then (m' =? m) && (d' =? d + 1)
      else (d' =? 1) && (m' =? if m =? 12 then 1 else m + 1))).

Lemma month_steps_ok doy : 0 <= doy < 365 -> month_step_ok doy = true.
Proof. apply (forallb_range month_step_ok 365). vm_compute. reflexivity. Qed.

Definition date_of (era y doy : Z) : Z * Z * Z :=
  let '(m, d) := month_day doy in (y + era * 400 + (if m <=? 2 then 1 else 0), m, d).

(** Day [doy] of year [y] of an era. *)
Record in_era (era y doy : Z) : Prop := {
  ie_era : 0 <= era;
  ie_year : 0 <= y < 400;
  ie_day : 0 <= doy < era_start (y + 1) - era_start y
}.

Definition day_number (era y doy : Z) : Z := era * 146097 + era_start y + doy.

Definition year_of (date : Z * Z * Z) : Z := let '(y, _, _) := date in y.

Lemma year_length y : 0 <= y < 400 ->
  era_start (y + 1) - era_start y = if is_leap_year (y + 1) then 366 else 365.
Proof. intros Hy. pose proof (years_ok y Hy) as H. unfold year_ok in H. boolprop. done. Qed.

Lemma leap_era y era : is_leap_year (y + era * 400) = is_leap_year y.
Proof.
  unfold is_leap_year. rewrite Z.mod_add by lia.
  replace (y + era * 400) with (y + era * 100 * 4) at 1 by lia. rewrite Z.mod_add by lia.
  replace (y + era * 400) with (y + era * 4 * 100) by lia. by rewrite Z.mod_add by lia.
Qed.

Lemma month_day_range doy : 0 <= doy < 366 -> 1 <= (month_day doy).1 <= 12 ∧ 1 <= (month_day doy).2 <= 31.
Proof.
  intros Hd. destruct (decide (doy = 365)) as [->|]; [vm_compute; intuition discriminate|].
  pose proof (month_steps_ok doy ltac:(lia)) as H. unfold month_step_ok in H.
  destruct (month_day doy) as [m d], (month_day (doy + 1)) as [m' d']. boolprop. cbn. lia.
Qed.

(** Every day number from the epoch of the formula on is a day of some year. *)
Lemma day_number_split n : 0 <= n -> exists era y doy, in_era era y doy ∧ n = day_number era y doy.
Proof.
  intros Hn. pose proof (Z.mod_pos_bound n 146097 ltac:(lia)) as Hm.
  destruct (yoe_bounds _ Hm) as [Hy Hd].
  exists (n / 146097), (yoe_of (n mod 146097)), (n mod 146097 - era_start (yoe_of (n mod 146097))).
  split; [split; [by apply Z.div_pos|done|lia]|]. unfold day_number. pose proof (Z.div_mod n 146097 ltac:(lia)). lia.
Qed.

(** The formula on a day of a year that fits sixteen bits. *)
Lemma civil_date_of era y doy :
  in_era era y doy -> year_of (date_of era y doy) < 65536 ->
  civil_year_month_day (day_number era y doy) = date_of era y doy.
Proof.
  intros [He Hy Hd] Hb. unfold civil_year_month_day, day_number.
  pose proof (era_start_nonneg y ltac:(lia)) as H0. pose proof (year_length y Hy) as Hlen.
  assert (Hl : era_start (y + 1) <= 146097).
  { destruct (decide (y = 399)) as [->|]; [done|]. pose proof (years_ok (y + 1) ltac:(lia)) as H.
    unfold era_start. destruct (Z.eqb_spec (y + 1) 400); [lia|]. Z.div_mod_to_equations. lia. }
  assert (Hera : (era * 146097 + era_start y + doy) / 146097 = era).
  { symmetry. apply (Z.div_unique _ _ _ (era_start y + doy)); lia. }
  rewrite Hera. replace (era * 146097 + era_start y + doy - era * 146097) with (era_start y + doy) by lia.
  fold (yoe_of (era_start y + doy)). rewrite (yoe_unique y) by lia.
  assert (Hes : 365 * y + y / 4 - y / 100 = era_start y).
  { unfold era_start. destruct (Z.eqb_spec y 400); [lia|done]. }
  rewrite Hes. replace (era_start y + doy - era_start y) with doy by lia.
  assert (Hdoy : 0 <= doy < 366) by (rewrite Hlen in Hd; destruct (is_leap_year _); lia).
  pose proof (month_day_range doy Hdoy) as Hr. unfold date_of, year_of in *.
  unfold month_day in *. cbn [fst snd] in Hr. rewrite !(wrap_small 8) by (unfold fits; lia).
  do 2 f_equal. apply wrap_small. unfold fits. revert Hb.
  match goal with |- context [if ?c then 1 else 0] => destruct c end; lia.
Qed.

Lemma days_in_month_other y m : m <> 2 -> days_in_month y m = days_in_month 0 m.
Proof. intros Hm. unfold days_in_month. repeat case_match; done. Qed.

Lemma days_in_month_february y : days_in_month y 2 = if is_leap_year y then 29 else 28.
Proof. done. Qed.

(** The loop body takes a day to the next day of the same year... *)
Lemma next_day_same era y doy :
  in_era era y doy -> doy + 1 < era_start (y + 1) - era_start y ->
  year_of (date_of era y (doy + 1)) < 65536 ->
  next_day (date_of era y doy) = date_of era y (doy + 1).
Proof.
  intros [He Hy Hd] Hn Hb. pose proof (year_length y Hy) as Hlen.
  assert (Hdoy : 0 <= doy < 365) by (rewrite Hlen in Hn; destruct (is_leap_year _); lia).
  pose proof (month_steps_ok doy Hdoy) as H. unfold month_step_ok in H. unfold date_of, year_of in *.
  destruct (month_day doy) as [m d], (month_day (doy + 1)) as [m' d']. boolprop.
  unfold next_day, wrapping_add. rewrite (wrap_small 8 (d + 1)) by (unfold fits; lia).
  destruct (Z.eqb_spec m 2) as [->|Hm2]; boolprop.
  - subst m' d'. rewrite days_in_month_february. cbn [Z.leb Z.compare Pos.compare Pos.compare_cont].
    replace (y + era * 400 + 1) with (y + 1 + era * 400) by lia. rewrite leap_era.
    match goal with H : Bool.eqb _ _ = true |- _ => apply Bool.eqb_prop in H as Heq end.
    destruct (Z.ltb_spec (if is_leap_year (y + 1) then 29 else 28) (d + 1)); [|done].
    exfalso. destruct (Z.eqb_spec doy 364), (Z.eqb_spec d 28), (is_leap_year (y + 1)); try done; lia.
  - rewrite (days_in_month_other _ m) by done.
    destruct (Z.leb_spec (d + 1) (days_in_month 0 m)); boolprop; subst m' d'.
    + destruct (Z.ltb_spec (days_in_month 0 m) (d + 1)); [lia|done].
    + destruct (Z.ltb_spec (days_in_month 0 m) (d + 1)); [|lia].
      rewrite (wrap_small 8 (m + 1)) by (unfold fits; lia).
      destruct (Z.eqb_spec m 12) as [E|].
      * rewrite E in *. cbn in Hb |- *. unfold saturating_add. do 2 f_equal. lia.
      * destruct (Z.ltb_spec 12 (m + 1)); [lia|]. do 2 f_equal.
        destruct (Z.leb_spec m 2), (Z.leb_spec (m + 1) 2); lia.
Qed.

(** ...and the last day of a year, the end of February, to the first of March. *)
Lemma next_day_march era y doy :
  in_era era y doy -> doy + 1 = era_start (y + 1) - era_start y ->
  next_day (date_of era y doy) = (y + 1 + era * 400, 3, 1).
Proof.
  intros [He Hy Hd] Hn. pose proof (year_length y Hy) as Hlen.
  assert (Hdate : date_of era y doy = (y + 1 + era * 400, 2, if is_leap_year (y + 1) then 29 else 28)).
  { rewrite Hlen in Hn. destruct (is_leap_year (y + 1)).
    - replace doy with 365 by lia. unfold date_of. change (month_day 365) with (2, 29). cbn. do 2 f_equal. lia.
    - replace doy with 364 by lia. unfold date_of. change (month_day 364) with (2, 28). cbn. do 2 f_equal. lia. }
  rewrite Hdate. unfold next_day. rewrite days_in_month_february, leap_era.
  by destruct (is_leap_year (y + 1)).
Qed.

Lemma date_of_march era y : date_of era y 0 = (y + era * 400, 3, 1).
Proof. unfold date_of. change (month_day 0) with (3, 1). cbn. do 2 f_equal. lia. Qed.

(** The day number of the first of January 65536. *)
Definition LAST_DAY : Z := 23936472.

Lemma year_fits era y doy :
  in_era era y doy -> day_number era y doy < LAST_DAY -> year_of (date_of era y doy) < 65536.
Proof.
  intros [He Hy Hd] Hn. unfold day_number, LAST_DAY in Hn. unfold date_of, month_day, year_of.
  assert (Hs : era_start y = 365 * y + y / 4 - y / 100).
  { unfold era_start. destruct (Z.eqb_spec y 400); [lia|done]. }
  assert (Hdm : (if (if (5 * doy + 2) / 153 <? 10 then (5 * doy + 2) / 153 + 3 else (5 * doy + 2) / 153 - 9) <=? 2
                 then 1 else 0) <= (if 306 <=? doy then 1 else 0)).
  { destruct (Z.leb_spec 306 doy); [case_match; lia|].
    destruct (Z.ltb_spec ((5 * doy + 2) / 153) 10); [|Z.div_mod_to_equations; lia].
    destruct (Z.leb_spec ((5 * doy + 2) / 153 + 3) 2); [Z.div_mod_to_equations; lia|lia]. }
  eapply Z.le_lt_trans; [apply Zplus_le_compat_l, Hdm|].
  rewrite Hs in Hn. destruct (Z.leb_spec 306 doy); Z.div_mod_to_equations; lia.
Qed.

(** The closed formula steps like the loop. *)
Lemma civil_next n :
  0 <= n -> n + 1 < LAST_DAY -> civil_year_month_day (n + 1) = next_day (civil_year_month_day n).
Proof.
  intros Hn Hb. destruct (day_number_split n Hn) as (era & y & doy & Hin & ->).
  rewrite (civil_date_of era y doy Hin) by (apply year_fits; [done|lia]).
  destruct (decide (doy + 1 < era_start (y + 1) - era_start y)) as [Hs|Hs].
  - assert (Hin' : in_era era y (doy + 1)) by (destruct Hin; split; lia).
    assert (E : day_number era y doy + 1 = day_number era y (doy + 1)) by (unfold day_number; lia).
    rewrite E in *. pose proof (year_fits era y (doy + 1) Hin' Hb) as Hy.
    rewrite civil_date_of by done. symmetry. by apply next_day_same.
  - rewrite next_day_march by (destruct Hin; done || lia).
    destruct (decide (y = 399)) as [->|Hne].
    + assert (Hin' : in_era (era + 1) 0 0) by (destruct Hin; split; [lia|lia|done]).
      assert (E : day_number era 399 doy + 1 = day_number (era + 1) 0 0).
      { destruct Hin as [_ _ Hd]. change (era_start (399 + 1)) with 146097 in *. unfold day_number.
        change (era_start 0) with 0. lia. }
      rewrite E in *. rewrite civil_date_of by (done || by apply year_fits).
      rewrite date_of_march. do 2 f_equal. lia.
    + assert (Hin' : in_era era (y + 1) 0).
      { destruct Hin as [? Hy ?]. split; [lia|lia|]. pose proof (year_length (y + 1) ltac:(lia)) as ->.
        destruct (is_leap_year _); lia. }
      assert (E : day_number era y doy + 1 = day_number era (y + 1) 0).
      { destruct Hin as [_ _ Hd]. unfold day_number. lia. }
      rewrite E in *. rewrite civil_date_of by (done || by apply year_fits).
      by rewrite date_of_march.
Qed.

Lemma civil_iter k : forall n,
  0 <= n -> n + Z.of_nat k < LAST_DAY ->
  civil_year_month_day (n + Z.of_nat k) = Nat.iter k next_day (civil_year_month_day n).
Proof.
  induction k as [|k IH]; intros n Hn Hb; [by rewrite Z.add_0_r|].
  change (Nat.iter (S k) next_day ?x) with (next_day (Nat.iter k next_day x)). rewrite <- IH by lia. rewrite <- civil_next by lia. f_equal. lia.
Qed.

(** ** Validity is kept *)

Lemma days_in_month_bounds y m : 1 <= m <= 12 -> 28 <= days_in_month y m <= 31.
Proof.
  intros Hm. unfold days_in_month.
  assert (m = 1 ∨ m = 2 ∨ m = 3 ∨ m = 4 ∨ m = 5 ∨ m = 6 ∨ m = 7 ∨ m = 8 ∨ m = 9 ∨ m = 10 ∨ m = 11 ∨ m = 12) as H by lia.
  repeat destruct H as [->|H]; try lia; [destruct (is_leap_year y); lia|subst m; lia].
Qed.

Lemma next_day_valid date : valid_date date -> valid_date (next_day date).
Proof.
  destruct date as [[y m] d]. intros (Hy & Hm & Hd). pose proof (days_in_month_bounds y m Hm) as Hb.
  unfold next_day, wrapping_add. rewrite !(wrap_small 8) by (unfold fits; lia).
  destruct (Z.ltb_spec (days_in_month y m) (d + 1)).
  - destruct (Z.ltb_spec 12 (m + 1)).
    + split; [unfold fits, saturating_add in *; lia|]. split; [lia|]. cbn. lia.
    + split; [done|]. split; [lia|]. pose proof (days_in_month_bounds y (m + 1) ltac:(lia)). lia.
  - split; [done|]. split; [done|lia].
Qed.

Lemma iter_valid k date : valid_date date -> valid_date (Nat.iter k next_day date).
Proof. intros H. induction k as [|k IH]; [done|]. by apply next_day_valid. Qed.

(** Seconds since midnight. *)
Definition time_of_day (w : WallTime) : Z := hour w * 3600 + minute w * 60 + second w.

Lemma time_of_day_bound w : valid w -> 0 <= time_of_day w < 86400.
Proof. intros (_ & ? & ? & ?). unfold time_of_day. lia. Qed.

(** Advancing in terms of days carried and the time of day reached. *)
Lemma advance_spec w e :
  valid w -> 0 <= e -> e + 86400 <= 2 ^ 64 ->
  let total := time_of_day w + e in
  let w' := advance_wall_time w e in
  (year w', month w', day w') = Nat.iter (Z.to_nat (total / 86400)) next_day (year w, month w, day w) ∧
  time_of_day w' = total mod 86400 ∧ valid w'.
Proof.
  intros Hv He Hb total w'. pose proof (time_of_day_bound w Hv) as Ht. subst w'. unfold advance_wall_time, wrapping_add.
  fold (time_of_day w). rewrite (wrap_small 64) by (unfold fits; lia). fold total.
  pose proof (iter_valid (Z.to_nat (total / 86400)) _ (proj1 Hv)) as Hiv.
  destruct (Nat.iter _ next_day _) as [[y m] d]. unfold time_of_day, valid.
  cbn [year month day hour minute second].
  pose proof (Z.mod_pos_bound total 86400 ltac:(lia)) as Hm. set (s := total mod 86400) in *. clearbody s.
  rewrite !(wrap_small 8) by (unfold fits; Z.div_mod_to_equations; lia).
  split; [done|]. split; [|split; [done|]]; Z.div_mod_to_equations; lia.
Qed.

(** A reading is determined by its date and its time of day. *)
Lemma valid_ext w w' :
  valid w -> valid w' -> (year w, month w, day w) = (year w', month w', day w') ->
  time_of_day w = time_of_day w' -> w = w'.
Proof.
  destruct w as [y m d h mi s], w' as [y' m' d' h' mi' s']. unfold valid, time_of_day. cbn.
  intros (_ & ? & ? & ?) (_ & ? & ? & ?) [= -> -> ->] Ht. f_equal; lia.
Qed.

(** Advancing twice is advancing by the sum: the clock does not drift with the
    moments at which it is read. *)
Lemma advance_compose w a b :
  valid w -> 0 <= a -> 0 <= b -> a + b + 86400 <= 2 ^ 64 ->
  advance_wall_time (advance_wall_time w a) b = advance_wall_time w (a + b).
Proof.
  intros Hv Ha Hb Hs.
  destruct (advance_spec w a Hv Ha ltac:(lia)) as (Hd1 & Ht1 & Hv1).
  destruct (advance_spec _ b Hv1 Hb ltac:(lia)) as (Hd2 & Ht2 & Hv2).
  destruct (advance_spec w (a + b) Hv ltac:(lia) ltac:(lia)) as (Hd3 & Ht3 & Hv3).
  pose proof (time_of_day_bound w Hv) as Ht.
  set (t := time_of_day w) in *. apply valid_ext; [done..| |].
  - rewrite Hd2, Hd1, Ht1, Hd3, <- Nat.iter_add. f_equal.
    rewrite <- Z2Nat.inj_add by (apply Z.div_pos; Z.div_mod_to_equations; lia).
    f_equal. Z.div_mod_to_equations. lia.
  - rewrite Ht2, Ht1, Ht3. Z.div_mod_to_equations. lia.
Qed.

(** ** Decoding *)

Definition rtc_ok (raw : RtcRegisters) : Prop :=
  fits 8 (rtc_second raw) ∧ fits 8 (rtc_minute raw) ∧ fits 8 (rtc_hour raw) ∧ fits 8 (rtc_day raw) ∧
  fits 8 (rtc_month raw) ∧ fits 8 (rtc_year raw) ∧ fits 8 (rtc_status_b raw) ∧
  match rtc_century raw with Some c => fits 8 c | None => True end.

Lemma bcd_bounds v : fits 8 v -> 0 <= bcd_to_binary v <= 165.
Proof.
  unfold fits, bcd_to_binary. intros Hv. change 15 with (2 ^ 4 - 1).
  rewrite land_ones_mod, Z.shiftr_div_pow2 by lia. Z.div_mod_to_equations. lia.
Qed.

Lemma rtc_field_fits binary v : fits 8 v -> fits 8 (rtc_field binary v).
Proof.
  intros Hv. unfold rtc_field. destruct binary; [done|]. pose proof (bcd_bounds v Hv). unfold fits. lia.
Qed.

(** Whatever the registers hold, a decoded reading is a date of the calendar
    and a time of the day. *)
Lemma decode_rtc_valid raw w : rtc_ok raw -> decode_rtc raw = Some w -> valid w.
Proof.
  intros (Hs & Hmi & Hh & Hd & Hmo & Hy & _ & Hc). unfold decode_rtc. cbv zeta.
  set (field := rtc_field _). assert (Hf : forall v, fits 8 v -> fits 8 (field v)) by (intros; by apply rtc_field_fits).
  clearbody field. destruct (negb (_ && _)) eqn:E1; [done|]. boolprop.
  match goal with |- context [days_in_month ?y _] => set (yr := y) in * end.
  destruct (_ || _) eqn:E2; [done|]. boolprop.
  match goal with |- context [23 <? ?h] => set (hr := h) in * end.
  destruct (_ || _ || _) eqn:E3; [done|]. boolprop. intros [= <-]. unfold valid. cbn.
  pose proof (Hf _ Hs) as [? _]. pose proof (Hf _ Hmi) as [? _].
  assert (Hyr : fits 16 yr).
  { subst yr. pose proof (Hf _ Hy) as [? ?]. unfold fits. destruct (rtc_century raw) as [c|].
    - pose proof (Hf _ Hc) as [? ?]. lia.
    - lia. }
  assert (Hhf : fits 8 (field (Z.land (rtc_hour raw) (U8_MAX - HOUR_PM_FLAG)))).
  { apply Hf. change (U8_MAX - HOUR_PM_FLAG) with (2 ^ 7 - 1). rewrite land_ones_mod by lia. unfold fits.
    pose proof (Z.mod_pos_bound (rtc_hour raw) (2 ^ 7) ltac:(lia)). lia. }
  assert (Hhr : 0 <= hr) by (subst hr; unfold fits in Hhf; repeat case_match; lia).
  clearbody yr hr. split; [split; [exact Hyr|]|]; lia.
Qed.

(** The registers of a boot are anchored unchanged, so every later reading is
    the decoded reading (or 2000-01-01 when the registers make none) advanced
    by the whole seconds since boot. *)
Lemma kernel_clock registers boot ticks :
  rtc_ok registers -> fits 64 boot -> fits 64 ticks ->
  let anchor := match decode_rtc registers with Some w => w | None => mk_wall 2000 1 1 0 0 0 end in
  let reading := wall_time (init_wall_clock registers boot) ticks in
  reading = advance_wall_time anchor (Z.max 0 (ticks - boot) / 100) ∧ valid reading.
Proof.
  intros Hr Hb Ht anchor reading.
  assert (Ha : valid anchor).
  { subst anchor. destruct (decode_rtc registers) as [w|] eqn:E; [by eapply decode_rtc_valid|].
    unfold valid, valid_date, fits. cbn. lia. }
  assert (Hpu : unpack (pack anchor) = anchor).
  { pose proof Ha as ((Hy & Hm & Hd) & ? & ? & ?). pose proof (days_in_month_bounds (year anchor) (month anchor) Hm).
    apply pack_unpack; [exact Hy|unfold fits; lia..]. }
  assert (Hrd : reading = advance_wall_time anchor (Z.max 0 (ticks - boot) / 100)).
  { unfold reading, wall_time, init_wall_clock. cbn [WALL_CLOCK_ANCHOR WALL_CLOCK_ANCHOR_TICKS].
    fold anchor. by rewrite Hpu. }
  split; [done|]. rewrite Hrd. apply advance_spec; [done|apply Z.div_pos; lia|].
  unfold fits in *. Z.div_mod_to_equations. lia.
Qed.

(** In twelve-hour mode the register should hold 1 to 12; other values are
    decoded too, here thirteen in the morning. *)
Lemma decode_rtc_accepts_13_am :
  decode_rtc (mk_rtc 0 0 19 1 1 38 None 0) = Some (mk_wall 2026 1 1 13 0 0).
Proof. reflexivity. Qed.

(** ** Theorems *)

Definition unix_epoch : WallTime := mk_wall 1970 1 1 0 0 0.

(** C35: the two clocks agree.  For every Unix timestamp before the year 65536
    the closed formula of the hosted build gives the reading that the kernel's
    day-by-day loop reaches from the first of January 1970. *)
Theorem walltime_host_agrees unix_seconds :
  0 <= unix_seconds < (LAST_DAY - 719468) * 86400 ->
  host_wall_time unix_seconds = advance_wall_time unix_epoch unix_seconds.
Proof.
  intros Hu. unfold host_wall_time, advance_wall_time, wrapping_add. cbn [unix_epoch year month day hour minute second].
  assert (Hw : wrap 64 (0 * 3600 + 0 * 60 + 0 + unix_seconds) = unix_seconds).
  { rewrite wrap_small; [lia|]. unfold fits, LAST_DAY in *. lia. }
  rewrite Hw. assert (Hd : 0 <= unix_seconds / 86400 < LAST_DAY - 719468).
  { split; [apply Z.div_pos; lia|apply Z.div_lt_upper_bound; lia]. }
  change (1970, 1, 1) with (civil_year_month_day 719468).
  rewrite <- civil_iter by lia. rewrite Z2Nat.id by lia. rewrite (Z.add_comm 719468). done.
Qed.

Lemma walltime_host_agrees_witness :
  host_wall_time 1790433005 = advance_wall_time unix_epoch 1790433005 ∧
  host_wall_time 1790433005 = mk_wall 2026 9 26 14 30 5.
Proof.
  split; [|vm_compute; reflexivity].
  apply (walltime_host_agrees 1790433005). unfold LAST_DAY. split; [discriminate|reflexivity].
Defined.
