(* ===== verification/Slots.v ===== *)
(** * Generation-stamped handles and slot tables

    [src/abi/src/runtime_abi.rs] declares five handle types with one macro: a
    64-bit word with a 32-bit slot index and a nonzero 32-bit generation.  The
    runtime registries ([runtime_events.rs], [runtime_ipc.rs],
    [runtime_services.rs]) all keep their records in a [Vec<Slot<T>>] whose
    generation advances when a record is dropped.  This file models the handles
    and the table operations those registries share, and proves what they rely
    on: handles encode and decode faithfully, and a handle to a dropped record
    does not resolve again before the generation has gone through all its
    values. *)

From Stdlib Require Import ZArith Lia.
From stdpp Require Import base list option numbers.
From S2P Require Import Prelude.

#[local] Open Scope Z_scope.

(** ** Handles *)

Inductive handle_kind : Type :=
| KService
| KEndpoint
| KCapability
| KEvent
| KEventSet.

(** [define_handle!]: the kind is the macro's [$name]. *)
Record handle (k : handle_kind) : Type := mk_handle { raw : Z }.
Arguments mk_handle {k} _.
Arguments raw {k} _.

Definition ServiceHandle : Type := handle KService.
Definition EndpointHandle : Type := handle KEndpoint.
Definition CapabilityHandle : Type := handle KCapability.
Definition EventHandle : Type := handle KEvent.
Definition EventSetHandle : Type := handle KEventSet.

#[export] Instance handle_eq_dec k : EqDecision (handle k).
Proof. solve_decision. Defined.

Definition EMPTY {k} : handle k := mk_handle 0.

Definition handle_new {k} (index generation : Z) : option (handle k) :=
  if generation =? 0 then None
  else Some (mk_handle (Z.lor (Z.shiftl generation 32) index)).

Definition from_raw {k} (r : Z) : option (handle k) :=
  if Z.shiftr r 32 =? 0 then None else Some (mk_handle r).

Definition index {k} (h : handle k) : Z := wrap 32 (raw h).
Definition generation {k} (h : handle k) : Z := wrap 32 (Z.shiftr (raw h) 32).
Definition is_valid {k} (h : handle k) : bool := negb (generation h =? 0).

(** ** Slots *)

Record slot (T : Type) : Type := mk_slot {
  slot_generation : Z;
  slot_value : option T
}.
Arguments mk_slot {T} _ _.
Arguments slot_generation {T} _.
Arguments slot_value {T} _.

Definition next_generation (g : Z) : Z := Z.max (wrapping_add 32 g 1) 1.

Section table.
Context {T : Type}.
Implicit Types (slots : list (slot T)).

Definition with_generation (g : Z) : slot T := mk_slot (Z.max g 1) None.

(** [*_index]: the table position of a handle, or nothing when it is stale. *)
Definition slot_index {k} slots (h : handle k) : option nat :=
  match slots !! Z.to_nat (index h) with
  | None => None
  | Some s =>
      if negb (slot_generation s =? generation h) || bool_decide (slot_value s = None)
      then None else Some (Z.to_nat (index h))
  end.

Definition slot_get {k} slots (h : handle k) : option T :=
  match slot_index slots h with
  | None => None
  | Some i => match slots !! i with Some s => slot_value s | None => None end
  end.

(** [allocate_*]: reuse the first vacant slot, or grow the vector by one
    ([reserve] is the answer of [try_reserve(1)]). *)
Definition allocate (reserve : bool) slots (seed : Z) : option (list (slot T) * nat) :=
  match list_find (fun s => slot_value s = None) slots with
  | Some (i, _) => Some (slots, i)
  | None =>
      if reserve then Some (slots ++ [with_generation seed], length slots) else None
  end.

(** [slots[i].value = Some(v)]. *)
Definition fill slots (i : nat) (v : T) : list (slot T) :=
  alter (fun s => mk_slot (slot_generation s) (Some v)) i slots.

(** [slots[i].value = None; slots[i].generation = next_generation(..)]. *)
Definition vacate slots (i : nat) : list (slot T) :=
  alter (fun s => mk_slot (next_generation (slot_generation s)) None) i slots.

(** The live records, in table order. *)
Definition live slots : list T := omap slot_value slots.

End table.

(** In-place update of the record in slot [i]. *)
Definition modify {T} (f : T -> T) (slots : list (slot T)) (i : nat) : list (slot T) :=
  alter (fun s => mk_slot (slot_generation s) (f <$> slot_value s)) i slots.

(** [slots[i].generation]; the registries only read it in range. *)
Definition generation_at {T} (slots : list (slot T)) (i : nat) : Z :=
  match slots !! i with Some s => slot_generation s | None => 0 end.

(** Handles of the live records a predicate selects, in table order. *)
Fixpoint handles_from {T k} (i : nat) (slots : list (slot T)) (p : T -> bool) : list (handle k) :=
  match slots with
  | [] => []
  | s :: slots =>
      let rest := handles_from (S i) slots p in
      match slot_value s with
      | None => rest
      | Some v =>
          if p v then
            match handle_new (wrap 32 (Z.of_nat i)) (slot_generation s) with
            | Some h => h :: rest
            | None => rest
            end
          else rest
      end
  end.

(** ** Handle encoding *)

Lemma handle_word i g :
  fits 32 i -> fits 32 g ->
  wrap 32 (Z.lor (Z.shiftl g 32) i) = i ∧ wrap 32 (Z.shiftr (Z.lor (Z.shiftl g 32) i) 32) = g.
Proof.
  unfold fits, wrap. intros Hi Hg.
  rewrite (lor_shiftl_add 32 g i), Z.shiftr_div_pow2 by lia. split.
  - rewrite Z.add_comm, Z.mod_add by lia. apply Z.mod_small; lia.
  - rewrite Z.div_add_l, Z.div_small by lia. rewrite Z.add_0_r. apply Z.mod_small; lia.
Qed.

Lemma handle_new_spec k i g :
  fits 32 i -> gen_ok 32 g ->
  exists h : handle k, handle_new i g = Some h ∧ index h = i ∧ generation h = g ∧ is_valid h = true.
Proof.
  intros Hi [Hg1 Hg2]. unfold handle_new. destruct (Z.eqb_spec g 0); [lia|].
  eexists. split; [done|]. unfold is_valid, index, generation. cbn [raw].
  destruct (handle_word i g Hi ltac:(unfold fits; lia)) as [H1 H2]. rewrite H1, H2.
  repeat split. destruct (Z.eqb_spec g 0); [lia|done].
Qed.

(** A handle is a 64-bit word, so its index and generation determine it. *)
Definition handle_ok {k} (h : handle k) : Prop := fits 64 (raw h).

Lemma handle_ext k (h h' : handle k) :
  handle_ok h -> handle_ok h' -> index h = index h' -> generation h = generation h' -> h = h'.
Proof.
  destruct h as [a], h' as [b]. unfold handle_ok, fits, index, generation, wrap. cbn [raw].
  intros Ha Hb Hi Hg. f_equal. rewrite !Z.shiftr_div_pow2 in Hg by lia.
  rewrite !(Z.mod_small (_ / _)) in Hg by (split; [apply Z.div_pos|apply Z.div_lt_upper_bound]; lia).
  rewrite (Z.div_mod a (2 ^ 32)), (Z.div_mod b (2 ^ 32)) by lia. by rewrite Hi, Hg.
Qed.

Lemma handle_new_ok k i g (h : handle k) :
  fits 32 i -> fits 32 g -> handle_new i g = Some h -> handle_ok h.
Proof.
  unfold handle_new, handle_ok, fits. intros Hi Hg H. case_match; simplify_eq/=.
  rewrite lor_shiftl_add by lia. lia.
Qed.

(** ** Table lemmas *)

Lemma slot_next_generation g : next_generation g = next_gen 32 g.
Proof. apply next_gen_max. lia. Qed.

Section table_lemmas.
Context {T : Type}.
Implicit Types (slots : list (slot T)).

(** What a position and generation resolve to. *)
Definition at_slot slots (i : nat) (g : Z) : option T :=
  match slots !! i with
  | Some s => if slot_generation s =? g then slot_value s else None
  | None => None
  end.

Lemma slot_get_at {k} slots (h : handle k) :
  slot_get slots h = at_slot slots (Z.to_nat (index h)) (generation h).
Proof.
  unfold slot_get, slot_index, at_slot.
  destruct (slots !! Z.to_nat (index h)) as [s|] eqn:E; [|done].
  destruct (Z.eqb_spec (slot_generation s) (generation h)); simpl; [|done].
  case_bool_decide as Hv; [by rewrite Hv|]. by rewrite E.
Qed.

Lemma slot_index_get {k} slots (h : handle k) :
  slot_index slots h =
  match slot_get slots h with Some _ => Some (Z.to_nat (index h)) | None => None end.
Proof.
  unfold slot_get, slot_index.
  destruct (slots !! Z.to_nat (index h)) as [s|] eqn:E; [|done].
  destruct (negb (slot_generation s =? generation h)); simpl; [done|].
  case_bool_decide as Hv; [done|]. rewrite E. by destruct (slot_value s).
Qed.

Lemma at_slot_Some slots i g v :
  at_slot slots i g = Some v <->
  exists s, slots !! i = Some s ∧ slot_generation s = g ∧ slot_value s = Some v.
Proof.
  unfold at_slot. split.
  - intros H. destruct (slots !! i) as [s|]; [|done]. exists s. case_match; boolprop; [done|congruence].
  - intros (s & -> & <- & Hv). by rewrite Z.eqb_refl.
Qed.

Lemma at_slot_fill slots i v j g s :
  slots !! i = Some s ->
  at_slot (fill slots i v) j g =
  if decide (j = i) then (if slot_generation s =? g then Some v else None) else at_slot slots j g.
Proof.
  intros Hi. unfold at_slot, fill. case_decide as E.
  - subst. by rewrite list_lookup_alter_eq, Hi.
  - by rewrite list_lookup_alter_ne.
Qed.

Lemma at_slot_vacate slots i j g s :
  slots !! i = Some s ->
  at_slot (vacate slots i) j g = if decide (j = i) then None else at_slot slots j g.
Proof.
  intros Hi. unfold at_slot, vacate. case_decide as E.
  - subst. rewrite list_lookup_alter_eq, Hi. simpl. by case_match.
  - by rewrite list_lookup_alter_ne.
Qed.

Lemma at_slot_app slots seed j g :
  at_slot (slots ++ [with_generation seed]) j g = at_slot slots j g.
Proof.
  unfold at_slot. destruct (decide (j < length slots)%nat).
  - by rewrite lookup_app_l.
  - rewrite lookup_app_r by lia. rewrite (lookup_ge_None_2 slots j) by lia.
    destruct (j - length slots)%nat as [|m]; [|done]. simpl. by case_match.
Qed.

Lemma at_slot_modify (f : T -> T) slots i j g :
  at_slot (modify f slots i) j g =
  if decide (j = i) then f <$> at_slot slots j g else at_slot slots j g.
Proof.
  unfold at_slot, modify. case_decide as E.
  - subst. rewrite list_lookup_alter_eq. destruct (slots !! i); simpl; [by case_match|done].
  - by rewrite list_lookup_alter_ne.
Qed.

(** Generations are valid and indices fit the handle. *)
Definition slots_wf slots : Prop :=
  Forall (fun s => gen_ok 32 (slot_generation s)) slots ∧ Z.of_nat (length slots) <= 2 ^ 32.

(** What [allocate] promises: a vacant slot of a table that resolves as before. *)
Lemma allocate_spec reserve slots seed slots' i :
  allocate reserve slots seed = Some (slots', i) ->
  (slots' = slots ∨ (reserve = true ∧ slots' = slots ++ [with_generation seed])) ∧
  (exists s, slots' !! i = Some s ∧ slot_value s = None) ∧
  (forall j g, at_slot slots' j g = at_slot slots j g).
Proof.
  unfold allocate. destruct (list_find _ _) as [[j s]|] eqn:E; intros H.
  - apply list_find_Some in E as (Hj & Hv & _). simplify_eq. repeat split; eauto.
  - destruct reserve; [|done]. simplify_eq. repeat split; [by right|..].
    + exists (with_generation seed). by rewrite list_lookup_middle.
    + intros. apply at_slot_app.
Qed.

Lemma slots_wf_app slots seed :
  slots_wf slots -> gen_ok 32 seed -> Z.of_nat (length slots) < 2 ^ 32 ->
  slots_wf (slots ++ [with_generation seed]).
Proof.
  intros [Hf Hl] Hs Hn. split.
  - apply Forall_app. split; [done|]. constructor; [|done]. unfold gen_ok in *. simpl. lia.
  - rewrite length_app. simpl. lia.
Qed.

Lemma slots_wf_fill slots i v : slots_wf slots -> slots_wf (fill slots i v).
Proof.
  intros [Hf Hl]. unfold fill. split; [|by rewrite length_alter].
  apply Forall_alter; auto.
Qed.

Lemma slots_wf_vacate slots i : slots_wf slots -> slots_wf (vacate slots i).
Proof.
  intros [Hf Hl]. unfold vacate. split; [|by rewrite length_alter].
  apply Forall_alter; [done|]. intros s Hs Hg. simpl. rewrite slot_next_generation.
  apply next_gen_ok; [lia|done].
Qed.

Lemma slots_wf_modify (f : T -> T) slots i : slots_wf slots -> slots_wf (modify f slots i).
Proof.
  intros [Hf Hl]. unfold modify. split; [|by rewrite length_alter].
  apply Forall_alter; auto.
Qed.

(** The number of times a slot has been vacated determines its generation; a
    handle dropped by [vacate] is not resolved by a later table whose slot has
    been vacated fewer than 2^32 - 1 times since the handle was issued. *)
Lemma at_slot_stale slots i g k s :
  gen_ok 32 g -> slots !! i = Some s ->
  slot_generation s = Nat.iter k (next_gen 32) g -> 0 < Z.of_nat k < 2 ^ 32 - 1 ->
  at_slot slots i g = None.
Proof.
  intros Hg Hs Hk Hkb. unfold at_slot. rewrite Hs.
  destruct (Z.eqb_spec (slot_generation s) g) as [E|]; [|done].
  exfalso. apply (iter_next_gen_fresh 32 g k); [lia|done..|congruence].
Qed.

End table_lemmas.

(** ** The table as a map from handles

    The registries use the four operations below only through handles; up to
    stale handles the table behaves as a finite map. *)

Section handle_map.
Context {T : Type} {k : handle_kind}.
Implicit Types (slots : list (slot T)) (h : handle k).

Lemma slot_get_Some slots h v :
  slot_get slots h = Some v <->
  exists s, slots !! Z.to_nat (index h) = Some s ∧ slot_generation s = generation h ∧
    slot_value s = Some v.
Proof. rewrite slot_get_at. apply at_slot_Some. Qed.

Lemma index_nonneg h : 0 <= index h.
Proof. apply (wrap_fits 32). lia. Qed.

Lemma same_slot h h' :
  handle_ok h -> handle_ok h' -> Z.to_nat (index h) = Z.to_nat (index h') ->
  generation h = generation h' -> h = h'.
Proof.
  intros Ho Ho' Hi Hg. apply handle_ext; [done..| |done].
  pose proof (index_nonneg h). pose proof (index_nonneg h'). lia.
Qed.

(** The raw value of a live handle decodes to it. *)
Lemma live_from_raw slots h v : slots_wf slots -> slot_get slots h = Some v -> from_raw (raw h) = Some h.
Proof.
  intros [Hwf _] (sl & Hsl & Hg & _)%slot_get_Some.
  pose proof (Forall_lookup_1 _ _ _ _ Hwf Hsl) as Hok. cbn beta in Hok. rewrite Hg in Hok. unfold from_raw.
  destruct (Z.eqb_spec (Z.shiftr (raw h) 32) 0) as [Hz|_]; [|by destruct h].
  unfold generation in Hok. rewrite Hz in Hok. by destruct Hok.
Qed.

Lemma slot_get_modify f slots h v h' :
  handle_ok h -> handle_ok h' -> slot_get slots h = Some v ->
  slot_get (modify f slots (Z.to_nat (index h))) h' =
  if decide (h' = h) then Some (f v) else slot_get slots h'.
Proof.
  intros Ho Ho' Hv. rewrite !slot_get_at, at_slot_modify. rewrite slot_get_at in Hv.
  destruct (decide (h' = h)) as [->|Hne]; [by rewrite decide_True, Hv|].
  case_decide as Hi; [|done].
  apply at_slot_Some in Hv as (s & Hs & Hg & _). unfold at_slot. rewrite Hi, Hs.
  destruct (Z.eqb_spec (slot_generation s) (generation h')); [|done].
  exfalso. apply Hne, same_slot; congruence.
Qed.

Lemma slot_get_vacate slots h v h' :
  handle_ok h -> handle_ok h' -> slot_get slots h = Some v ->
  slot_get (vacate slots (Z.to_nat (index h))) h' =
  if decide (h' = h) then None else slot_get slots h'.
Proof.
  intros Ho Ho' Hv. rewrite slot_get_at in Hv. apply at_slot_Some in Hv as (s & Hs & Hg & _).
  rewrite !slot_get_at, (at_slot_vacate _ _ _ _ s Hs).
  destruct (decide (h' = h)) as [->|Hne]; [by rewrite decide_True|].
  case_decide as Hi; [|done]. unfold at_slot. rewrite Hi, Hs.
  destruct (Z.eqb_spec (slot_generation s) (generation h')); [|done].
  exfalso. apply Hne, same_slot; congruence.
Qed.

Lemma allocate_wf reserve slots seed slots' i :
  slots_wf slots -> gen_ok 32 seed -> Z.of_nat (length slots) < 2 ^ 32 ->
  allocate reserve slots seed = Some (slots', i) ->
  slots_wf slots' ∧ Z.of_nat i < 2 ^ 32 ∧ gen_ok 32 (generation_at slots' i).
Proof.
  intros Hwf Hs Hl Ha. destruct (allocate_spec _ _ _ _ _ Ha) as (Hs' & (s & Hi & Hv) & _).
  assert (Hwf' : slots_wf slots').
  { destruct Hs' as [->|[_ ->]]; [done|]. by apply slots_wf_app. }
  split; [done|]. destruct Hwf' as [Hf Hn]. split.
  - apply lookup_lt_Some in Hi. lia.
  - unfold generation_at. rewrite Hi. by apply (Forall_lookup_1 _ _ _ _ Hf Hi).
Qed.

(** Creating a record always yields a handle; it resolves to the record, was
    stale before, and no other handle changes its meaning. *)
Lemma create_spec reserve slots seed slots' i v :
  slots_wf slots -> gen_ok 32 seed -> Z.of_nat (length slots) < 2 ^ 32 ->
  allocate reserve slots seed = Some (slots', i) ->
  exists h, handle_new (wrap 32 (Z.of_nat i)) (generation_at slots' i) = Some h ∧
    handle_ok h ∧ is_valid h = true ∧ slots_wf (fill slots' i v) ∧ slot_get slots h = None ∧
    forall h', handle_ok h' ->
      slot_get (fill slots' i v) h' = if decide (h' = h) then Some v else slot_get slots h'.
Proof.
  intros Hwf Hs Hl Ha. destruct (allocate_wf _ _ _ _ _ Hwf Hs Hl Ha) as (Hwf' & Hi & Hg).
  destruct (allocate_spec _ _ _ _ _ Ha) as (_ & (s & His & Hv) & Hat).
  assert (Hfit : fits 32 (Z.of_nat i)) by (unfold fits; lia).
  rewrite wrap_small by done.
  destruct (handle_new_spec k (Z.of_nat i) _ Hfit Hg) as (h & Hh & Hix & Hgen & Hval).
  assert (Hok : handle_ok h) by (apply (handle_new_ok k (Z.of_nat i) (generation_at slots' i));
    [done|unfold fits, gen_ok in *; lia|done]).
  assert (Hgs : generation_at slots' i = slot_generation s) by (unfold generation_at; by rewrite His).
  exists h. split; [done|]. split; [done|]. split; [done|]. split; [by apply slots_wf_fill|].
  assert (Hnone : forall g, at_slot slots' i g = None).
  { intros g. unfold at_slot. rewrite His, Hv. by case_match. }
  split.
  - rewrite slot_get_at, <- Hat, Hix, Nat2Z.id. apply Hnone.
  - intros h' Hok'. rewrite !slot_get_at, (at_slot_fill _ _ _ _ _ s His).
    destruct (decide (h' = h)) as [->|Hne].
    + rewrite decide_True by (rewrite Hix; lia). rewrite Hgen, Hgs. by rewrite Z.eqb_refl.
    + rewrite <- Hat. case_decide as Hi'; [|done]. rewrite Hi', Hnone.
      destruct (Z.eqb_spec (slot_generation s) (generation h')); [|done].
      exfalso. apply Hne, same_slot; try done; [rewrite Hix; lia|congruence].
Qed.

End handle_map.

(** A generation-preserving update of every record. *)
Definition map_slots {T} (f : T -> T) (slots : list (slot T)) : list (slot T) :=
  (fun s => mk_slot (slot_generation s) (f <$> slot_value s)) <$> slots.

Lemma slot_get_map {T k} (f : T -> T) (slots : list (slot T)) (h : handle k) :
  slot_get (map_slots f slots) h = f <$> slot_get slots h.
Proof.
  rewrite !slot_get_at. unfold at_slot, map_slots. rewrite list_lookup_fmap.
  destruct (slots !! _) as [s|]; [|done]. simpl. by case_match.
Qed.

Lemma slots_wf_map {T} (f : T -> T) (slots : list (slot T)) :
  slots_wf slots -> slots_wf (map_slots f slots).
Proof.
  intros [Hf Hl]. split; [|unfold map_slots; by rewrite length_fmap].
  unfold map_slots. by apply Forall_fmap.
Qed.

(** The handle of an occupied slot resolves to its record, and every handle
    that resolves is the handle of its slot. *)
Lemma slot_handle {T} k (slots : list (slot T)) i s :
  slots_wf slots -> slots !! i = Some s ->
  exists h : handle k, handle_new (wrap 32 (Z.of_nat i)) (slot_generation s) = Some h ∧
    handle_ok h ∧ Z.to_nat (index h) = i ∧ generation h = slot_generation s.
Proof.
  intros [Hf Hl] Hi. pose proof (Forall_lookup_1 _ _ _ _ Hf Hi) as Hg. simpl in Hg.
  pose proof (lookup_lt_Some _ _ _ Hi).
  assert (Hfit : fits 32 (Z.of_nat i)) by (unfold fits; lia). rewrite wrap_small by done.
  destruct (handle_new_spec k (Z.of_nat i) _ Hfit Hg) as (h & Hh & Hix & Hgen & _).
  exists h. split; [done|]. split; [|split; [rewrite Hix; lia|done]].
  apply (handle_new_ok k (Z.of_nat i) (slot_generation s)); [done|unfold fits, gen_ok in *; lia|done].
Qed.

Lemma handles_from_spec {T k} (slots : list (slot T)) (p : T -> bool) (h : handle k) :
  slots_wf slots ->
  h ∈ handles_from 0 slots p <->
  handle_ok h ∧ exists v, slot_get slots h = Some v ∧ p v = true.
Proof.
  intros Hwf.
  assert (Hgen : forall i l, (forall j s, l !! j = Some s -> slots !! (i + j)%nat = Some s) ->
    h ∈ handles_from i l p <->
    exists j s v, l !! j = Some s ∧ slot_value s = Some v ∧ p v = true ∧
      handle_new (wrap 32 (Z.of_nat (i + j))) (slot_generation s) = Some h).
  { intros i l. revert i. induction l as [|s l IH]; intros i Hl; simpl.
    { split; [by intros ?%not_elem_of_nil|intros (j & s & ? & ? & _); done]. }
    assert (Hrest : h ∈ handles_from (S i) l p <-> exists j t v, l !! j = Some t ∧
      slot_value t = Some v ∧ p v = true ∧
      handle_new (wrap 32 (Z.of_nat (i + S j))) (slot_generation t) = Some h).
    { rewrite IH.
      - by setoid_rewrite Nat.add_succ_comm.
      - intros j t Ht. rewrite Nat.add_succ_comm. by apply (Hl (S j)). }
    destruct (slot_handle k slots (i + 0) s Hwf (Hl 0%nat s eq_refl)) as (h0 & Hh0 & _).
    split.
    - destruct (slot_value s) as [v|] eqn:Ev; [destruct (p v) eqn:Ep|].
      + rewrite Nat.add_0_r in Hh0. rewrite Hh0, elem_of_cons. intros [->|H].
        * exists 0%nat, s, v. rewrite Nat.add_0_r. done.
        * apply Hrest in H as (j & t & u & ?). by exists (S j), t, u.
      + intros (j & t & u & ?)%Hrest. by exists (S j), t, u.
      + intros (j & t & u & ?)%Hrest. by exists (S j), t, u.
    - intros ([|j] & t & v & Ht & Hv & Hp & Hh); simpl in Ht.
      + injection Ht as ->. rewrite Hv, Hp. rewrite Nat.add_0_r in Hh. rewrite Hh. apply elem_of_cons. by left.
      + assert (h ∈ handles_from (S i) l p) by (apply Hrest; eauto 10).
        repeat case_match; try done. apply elem_of_cons. by right. }
  rewrite Hgen by done. clear Hgen. split.
  - intros (j & s & v & Hj & Hv & Hp & Hh). simpl in Hh.
    destruct (slot_handle k slots j s Hwf Hj) as (h' & Hh' & Hok & Hi & Hg). simplify_eq.
    split; [done|]. exists v. split; [|done]. apply slot_get_Some. by exists s.
  - intros (Hok & v & Hg & Hp). apply slot_get_Some in Hg as (s & Hs & Hgs & Hv).
    exists (Z.to_nat (index h)), s, v. split; [done|]. split; [done|]. split; [done|].
    destruct (slot_handle k slots _ s Hwf Hs) as (h' & Hh' & Hok' & Hi & Hg).
    simpl. rewrite Hh'. f_equal. apply same_slot; congruence.
Qed.

(** No live record satisfies [P] when no handle resolves to one. *)
Lemma live_filter_nil {T} k (slots : list (slot T)) (P : T -> Prop) `{!forall v, Decision (P v)} :
  slots_wf slots ->
  (forall (h : handle k) v, handle_ok h -> slot_get slots h = Some v -> ~ P v) ->
  length (filter P (live slots)) = 0%nat.
Proof.
  intros Hwf Hn. destruct (filter P (live slots)) as [|v l] eqn:E; [done|]. exfalso.
  assert (Hin : v ∈ filter P (live slots)) by (rewrite E; by left).
  apply list_elem_of_filter in Hin as [HP Hin].
  apply list_elem_of_omap in Hin as (s & Hs & Hv). apply list_elem_of_lookup in Hs as [i Hi].
  destruct (slot_handle k slots i s Hwf Hi) as (h & _ & Hok & Hix & Hg).
  apply (Hn h v Hok); [|done]. apply slot_get_Some. exists s. by rewrite Hix.
Qed.

Lemma length_handles_from {T k} (slots : list (slot T)) (p : T -> bool) : forall i,
  (length (handles_from (k := k) i slots p) <= length slots)%nat.
Proof.
  induction slots as [|s slots IH]; intros i; simpl; [done|]. specialize (IH (S i)).
  repeat case_match; simpl; lia.
Qed.

(** ** Sums over the live records *)

Section total.
Context {T : Type} (f : T -> Z).
Implicit Types (slots : list (slot T)).

Definition total slots : Z := foldr Z.add 0 (f <$> live slots).

Definition value_total (s : slot T) : Z := match slot_value s with Some v => f v | None => 0 end.

Lemma total_cons s slots : total (s :: slots) = value_total s + total slots.
Proof. unfold total, value_total, live. simpl. by destruct (slot_value s). Qed.

Lemma total_alter g slots : forall i s,
  slots !! i = Some s ->
  total (alter g i slots) = total slots - value_total s + value_total (g s).
Proof.
  induction slots as [|t slots IH]; intros [|i] s Hi; simpl in Hi; simplify_eq.
  - change (alter g 0%nat (s :: slots)) with (g s :: slots). rewrite !total_cons. lia.
  - change (alter g (S i) (t :: slots)) with (t :: alter g i slots).
    rewrite !total_cons, (IH i s Hi). lia.
Qed.

Lemma total_app_vacant slots g : total (slots ++ [with_generation g]) = total slots.
Proof. induction slots as [|s slots IH]; [done|]. rewrite <- app_comm_cons, !total_cons. lia. Qed.

Lemma total_allocate reserve slots seed slots' i v :
  allocate reserve slots seed = Some (slots', i) ->
  total slots' = total slots ∧ total (fill slots' i v) = total slots + f v.
Proof.
  intros Ha. destruct (allocate_spec _ _ _ _ _ Ha) as (Hs & (s & Hi & Hv) & _).
  assert (Ht : total slots' = total slots).
  { destruct Hs as [->|[_ ->]]; [done|]. apply total_app_vacant. }
  split; [done|]. unfold fill. rewrite (total_alter _ _ i s Hi), Ht. unfold value_total. simpl.
  rewrite Hv. lia.
Qed.

Lemma total_vacate {k} slots (h : handle k) v :
  slot_get slots h = Some v ->
  total (vacate slots (Z.to_nat (index h))) = total slots - f v.
Proof.
  intros (s & Hs & _ & Hv)%slot_get_Some. unfold vacate. rewrite (total_alter _ _ _ s Hs).
  unfold value_total. rewrite Hv. simpl. lia.
Qed.

Lemma total_modify {k} g slots (h : handle k) v :
  slot_get slots h = Some v ->
  total (modify g slots (Z.to_nat (index h))) = total slots - f v + f (g v).
Proof.
  intros (s & Hs & _ & Hv)%slot_get_Some. unfold modify. rewrite (total_alter _ _ _ s Hs).
  unfold value_total. rewrite Hv. simpl. lia.
Qed.

Lemma total_nonneg slots : (forall v, 0 <= f v) -> 0 <= total slots.
Proof.
  intros Hf. induction slots as [|s slots IH]; [done|]. rewrite total_cons. unfold value_total.
  destruct (slot_value s) as [v|]; [specialize (Hf v)|]; lia.
Qed.

End total.

(** The live records are those the handles resolve to. *)
Lemma elem_of_live {T} k (slots : list (slot T)) v :
  slots_wf slots ->
  v ∈ live slots <-> exists h : handle k, handle_ok h ∧ slot_get slots h = Some v.
Proof.
  intros Hwf. unfold live. rewrite list_elem_of_omap. split.
  - intros (s & [i Hi]%list_elem_of_lookup & Hv).
    destruct (slot_handle k slots i s Hwf Hi) as (h & _ & Hok & Hix & Hg).
    exists h. split; [done|]. apply slot_get_Some. exists s. by rewrite Hix.
  - intros (h & Hok & (s & Hs & _ & Hv)%slot_get_Some). exists s.
    split; [by eapply list_elem_of_lookup_2|done].
Qed.

Lemma allocate_length {T} reserve (slots : list (slot T)) seed slots' i :
  allocate reserve slots seed = Some (slots', i) -> (length slots' <= S (length slots))%nat.
Proof.
  intros (Hs & _ & _)%allocate_spec. destruct Hs as [->|[_ ->]]; [lia|]. rewrite length_app. simpl. lia.
Qed.

Lemma length_fill {T} (slots : list (slot T)) i v : length (fill slots i v) = length slots.
Proof. apply length_alter. Qed.

Lemma length_live {T} (slots : list (slot T)) : (length (live slots) <= length slots)%nat.
Proof.
  unfold live. induction slots as [|s slots IH]; [done|]. cbn. destruct (slot_value s); cbn; lia.
Qed.
