(* ===== verification/Directory.v ===== *)
(** * Directory pages ([src/abi/src/runtime_abi.rs])

    The wire shape of a directory request, record and response, the validation
    the receiving service applies, and the paging loop that the three runtime
    registries run over their live records.  The loop's theorem says that a
    client that follows the returned cursor reads every record once, in
    order. *)

From Stdlib Require Import ZArith Lia.
From stdpp Require Import base list option numbers.
From S2P Require Import Prelude Slots.

#[local] Open Scope Z_scope.

(** ** Wire shapes *)

Definition ABI_VERSION : Z := 14.
Definition RUNTIME_ABI_VERSION : Z := ABI_VERSION.
Definition IPC_PAGE_BYTES : Z := 4096.
Definition MAX_SERVICE_NAME_BYTES : nat := 16.
Definition DIRECTORY_FLAG_MORE : Z := 1.
Definition DIRECTORY_RECORDS_PER_PAGE : nat := 32.

Inductive DirectoryOperation : Type :=
| OpServices
| OpCapabilities
| OpEndpoints
| OpEvents.

#[export] Instance DirectoryOperation_eq_dec : EqDecision DirectoryOperation.
Proof. solve_decision. Defined.

Inductive DirectoryStatus : Type :=
| DirOk
| DirMalformed
| DirUnauthorized
| DirStale
| DirNotFound
| DirCapacity.

Inductive DirectoryRecordKind : Type :=
| KindEmpty
| KindService
| KindCapability
| KindEndpoint
| KindEvent.

#[export] Instance DirectoryRecordKind_eq_dec : EqDecision DirectoryRecordKind.
Proof. solve_decision. Defined.

Record DirectoryRequest : Type := mk_request {
  rq_abi_version : Z;
  rq_operation : DirectoryOperation;
  rq_reserved : Z;
  rq_request_id : Z;
  rq_cursor : Z;
  rq_subject : ServiceHandle
}.

Record DirectoryRecord : Type := mk_record {
  rec_kind : DirectoryRecordKind;
  rec_rights : Z;
  rec_flags : Z;
  rec_handle : Z;
  rec_peer : ServiceHandle;
  rec_contract_id : Z;
  rec_message_bytes : Z;
  rec_queue_capacity : Z;
  rec_event : EventHandle;
  rec_name_len : Z;
  rec_reserved : list Z;
  rec_name : list Z
}.

#[export] Instance DirectoryRecord_eq_dec : EqDecision DirectoryRecord.
Proof. solve_decision. Defined.

Record DirectoryResponse : Type := mk_response {
  rs_abi_version : Z;
  rs_operation : DirectoryOperation;
  rs_status : DirectoryStatus;
  rs_request_id : Z;
  rs_cursor : Z;
  rs_count : Z;
  rs_flags : Z;
  rs_reserved : list Z;
  rs_records : list DirectoryRecord
}.

Definition operation_code (op : DirectoryOperation) : Z :=
  match op with OpServices => 1 | OpCapabilities => 2 | OpEndpoints => 3 | OpEvents => 4 end.

Definition operation_from_raw (r : Z) : option DirectoryOperation :=
  if r =? 1 then Some OpServices
  else if r =? 2 then Some OpCapabilities
  else if r =? 3 then Some OpEndpoints
  else if r =? 4 then Some OpEvents
  else None.

Definition request_is_valid (rq : DirectoryRequest) : bool :=
  (rq_abi_version rq =? RUNTIME_ABI_VERSION)
  && bool_decide (is_Some (operation_from_raw (operation_code (rq_operation rq))))
  && (rq_reserved rq =? 0)
  && negb (rq_request_id rq =? 0).

Definition record_EMPTY : DirectoryRecord :=
  mk_record KindEmpty 0 0 0 EMPTY 0 0 0 EMPTY 0 [0] (replicate MAX_SERVICE_NAME_BYTES 0).

(** [DirectoryRecord::service]; the name is copied over the zeroed array. *)
Definition record_service (h : ServiceHandle) (name : list Z) : option DirectoryRecord :=
  if negb (is_valid h) || bool_decide (name = []) || (MAX_SERVICE_NAME_BYTES <? length name)%nat
  then None
  else Some (mk_record KindService 0 0 (raw h) EMPTY 0 0 0 EMPTY (wrap 8 (Z.of_nat (length name))) [0]
    (name ++ replicate (MAX_SERVICE_NAME_BYTES - length name) 0)).

Definition record_is_empty (r : DirectoryRecord) : bool := bool_decide (rec_kind r = KindEmpty).

Definition record_is_valid (r : DirectoryRecord) : bool :=
  if record_is_empty r then bool_decide (r = record_EMPTY)
  else if negb (bool_decide (rec_reserved r = [0])) || (rec_handle r =? 0) then false
  else
    let shape_valid :=
      match rec_kind r with
      | KindCapability =>
          bool_decide (is_Some (from_raw (k := KCapability) (rec_handle r)))
          && ((rec_rights r =? 1) || (rec_rights r =? 2))
          && negb (rec_contract_id r =? 0)
          && is_valid (rec_peer r)
          && negb (rec_message_bytes r =? 0)
          && (rec_message_bytes r <=? IPC_PAGE_BYTES)
          && negb (rec_queue_capacity r =? 0)
          && is_valid (rec_event r)
      | KindEndpoint =>
          bool_decide (is_Some (from_raw (k := KEndpoint) (rec_handle r)))
          && (rec_rights r =? 0)
          && is_valid (rec_peer r)
          && negb (rec_contract_id r =? 0)
          && negb (rec_message_bytes r =? 0)
          && (rec_message_bytes r <=? IPC_PAGE_BYTES)
          && negb (rec_queue_capacity r =? 0)
          && negb (is_valid (rec_event r))
      | KindEvent =>
          bool_decide (is_Some (from_raw (k := KEvent) (rec_handle r)))
          && (rec_rights r =? 0)
          && is_valid (rec_peer r)
          && (rec_contract_id r =? 0)
          && (rec_message_bytes r =? 0)
          && (rec_queue_capacity r =? 0)
          && negb (is_valid (rec_event r))
      | KindService =>
          bool_decide (is_Some (from_raw (k := KService) (rec_handle r)))
          && (rec_rights r =? 0)
          && negb (rec_name_len r =? 0)
          && (rec_contract_id r =? 0)
          && (rec_message_bytes r =? 0)
          && (rec_queue_capacity r =? 0)
          && negb (is_valid (rec_event r))
      | KindEmpty => false
      end in
    shape_valid
    && (rec_name_len r <=? Z.of_nat (length (rec_name r)))
    && forallb (fun b => b =? 0) (drop (Z.to_nat (rec_name_len r)) (rec_name r)).

Definition response_empty (op : DirectoryOperation) (st : DirectoryStatus) (id : Z) : DirectoryResponse :=
  mk_response RUNTIME_ABI_VERSION op st id 0 0 0 [0; 0]
    (replicate DIRECTORY_RECORDS_PER_PAGE record_EMPTY).

(** [DirectoryResponse::is_valid_for], the check the receiving service runs. *)
Definition is_valid_for (rs : DirectoryResponse) (rq : DirectoryRequest) : bool :=
  (rs_abi_version rs =? RUNTIME_ABI_VERSION)
  && bool_decide (rs_operation rs = rq_operation rq)
  && request_is_valid rq
  && (rs_request_id rs =? rq_request_id rq)
  && (Z.land (rs_flags rs) (Z.lnot DIRECTORY_FLAG_MORE) =? 0)
  && ((Z.land (rs_flags rs) DIRECTORY_FLAG_MORE =? 0) || negb (rs_cursor rs =? 0))
  && bool_decide (rs_reserved rs = [0; 0])
  && (rs_count rs <=? Z.of_nat DIRECTORY_RECORDS_PER_PAGE)
  && forallb record_is_valid (take (Z.to_nat (rs_count rs)) (rs_records rs))
  && forallb record_is_empty (drop (Z.to_nat (rs_count rs)) (rs_records rs)).

(** ** The paging loop

    The registries walk their live records with a [seen] and a [written]
    counter.  A record the loop reaches is written to the page ([ItemRecord]),
    passed over without counting it ([ItemSkip]) or ends the call with
    [Malformed] ([ItemFail]). *)

Inductive PageItem : Type :=
| ItemSkip
| ItemFail
| ItemRecord (r : DirectoryRecord).

Definition set_more (rs : DirectoryResponse) (cursor : Z) : DirectoryResponse :=
  mk_response (rs_abi_version rs) (rs_operation rs) (rs_status rs) (rs_request_id rs)
    cursor (rs_count rs) (Z.lor (rs_flags rs) DIRECTORY_FLAG_MORE) (rs_reserved rs) (rs_records rs).

Definition set_record (rs : DirectoryResponse) (i : nat) (r : DirectoryRecord) : DirectoryResponse :=
  mk_response (rs_abi_version rs) (rs_operation rs) (rs_status rs) (rs_request_id rs)
    (rs_cursor rs) (rs_count rs) (rs_flags rs) (rs_reserved rs) (<[i := r]> (rs_records rs)).

Definition set_count (rs : DirectoryResponse) (count cursor : Z) : DirectoryResponse :=
  mk_response (rs_abi_version rs) (rs_operation rs) (rs_status rs) (rs_request_id rs)
    cursor count (rs_flags rs) (rs_reserved rs) (rs_records rs).

(** The [for] loop: the response, the number written and whether it ran to its
    end or broke on a full page ([None] for the early [Malformed] return). *)
Fixpoint page_loop (cursor : Z) (items : list PageItem) (seen : Z) (written : nat)
    (rs : DirectoryResponse) : DirectoryResponse * option nat :=
  match items with
  | [] => (rs, Some written)
  | item :: items =>
      if seen <? cursor then page_loop cursor items (seen + 1) written rs
      else if (written =? DIRECTORY_RECORDS_PER_PAGE)%nat
      then (set_more rs (saturating_add 64 cursor (Z.of_nat written)), Some written)
      else match item with
      | ItemSkip => page_loop cursor items seen written rs
      | ItemFail => (rs, None)
      | ItemRecord r => page_loop cursor items (seen + 1) (S written) (set_record rs written r)
      end
  end.

(** The code after the loop: the count, and the end cursor when nothing is left. *)
Definition page_finish (cursor : Z) (p : DirectoryResponse * option nat) :
    DirectoryResponse * DirectoryStatus :=
  match p with
  | (rs, None) => (rs, DirMalformed)
  | (rs, Some written) =>
      (set_count rs (wrap 8 (Z.of_nat written))
         (if Z.land (rs_flags rs) DIRECTORY_FLAG_MORE =? 0
          then saturating_add 64 cursor (Z.of_nat written) else rs_cursor rs), DirOk)
  end.

Definition page (op : DirectoryOperation) (rq : DirectoryRequest) (items : list PageItem) :
    DirectoryResponse * DirectoryStatus :=
  page_finish (rq_cursor rq)
    (page_loop (rq_cursor rq) items 0 0 (response_empty op DirOk (rq_request_id rq))).

(** ** Lemmas *)

Definition set_records (rs : DirectoryResponse) (i : nat) (k : list DirectoryRecord) : DirectoryResponse :=
  mk_response (rs_abi_version rs) (rs_operation rs) (rs_status rs) (rs_request_id rs)
    (rs_cursor rs) (rs_count rs) (rs_flags rs) (rs_reserved rs) (list_inserts i k (rs_records rs)).

Lemma page_loop_skip cursor items : forall seen written rs,
  seen <= cursor ->
  page_loop cursor items seen written rs =
  page_loop cursor (drop (Z.to_nat (cursor - seen)) items) cursor written rs.
Proof.
  induction items as [|item items IH]; intros seen written rs Hs.
  - by rewrite drop_nil.
  - destruct (decide (seen = cursor)) as [->|].
    + by rewrite Z.sub_diag.
    + replace (Z.to_nat (cursor - seen)) with (S (Z.to_nat (cursor - (seen + 1)))) by lia.
      simpl. destruct (Z.ltb_spec seen cursor); [|lia]. rewrite IH by lia. done.
Qed.

Lemma page_loop_fill cursor recs : forall seen written rs,
  cursor <= seen -> (written <= DIRECTORY_RECORDS_PER_PAGE)%nat ->
  page_loop cursor (ItemRecord <$> recs) seen written rs =
  let room := (DIRECTORY_RECORDS_PER_PAGE - written)%nat in
  if (length recs <=? room)%nat
  then (set_records rs written recs, Some (written + length recs)%nat)
  else (set_more (set_records rs written (take room recs))
          (saturating_add 64 cursor (Z.of_nat DIRECTORY_RECORDS_PER_PAGE)),
        Some DIRECTORY_RECORDS_PER_PAGE).
Proof.
  unfold DIRECTORY_RECORDS_PER_PAGE.
  induction recs as [|r recs IH]; intros seen written rs Hs Hw; cbn zeta.
  - simpl. rewrite Nat.add_0_r. destruct rs; reflexivity.
  - rewrite fmap_cons. cbn [page_loop].
    destruct (Z.ltb_spec seen cursor); [lia|].
    destruct (Nat.eqb_spec written DIRECTORY_RECORDS_PER_PAGE) as [E|E];
      unfold DIRECTORY_RECORDS_PER_PAGE in E.
    + subst. simpl. destruct rs; reflexivity.
    + rewrite IH by lia. cbn zeta.
      destruct (Nat.leb_spec (length recs) (32 - S written)),
        (Nat.leb_spec (length (r :: recs)) (32 - written)); simpl in *; try lia.
      * f_equal; [|f_equal; lia]. unfold set_records, set_record; simpl. f_equal.
        by rewrite list_insert_inserts_lt by lia.
      * f_equal. unfold set_records, set_record, set_more; simpl.
        replace (32 - written)%nat with (S (32 - S written)) by lia. simpl.
        f_equal. by rewrite list_insert_inserts_lt by lia.
Qed.

(** Inserting a list at the front of a long enough array overwrites its prefix. *)
Lemma list_inserts_0 {A} (k l : list A) :
  (length k <= length l)%nat -> list_inserts 0 k l = k ++ drop (length k) l.
Proof.
  intros Hk. apply list_eq. intros i. destruct (decide (i < length k)%nat).
  - rewrite list_lookup_inserts by lia. rewrite lookup_app_l by lia. f_equal. lia.
  - rewrite list_lookup_inserts_ge by lia. rewrite lookup_app_r, lookup_drop by lia. f_equal. lia.
Qed.

Ltac cbn_rs :=
  cbn [rs_abi_version rs_operation rs_status rs_request_id rs_cursor rs_count rs_flags
       rs_reserved rs_records fst snd].

Lemma page_spec op rq recs :
  0 <= rq_cursor rq ->
  let rest := drop (Z.to_nat (rq_cursor rq)) recs in
  let out := take DIRECTORY_RECORDS_PER_PAGE rest in
  page op rq (ItemRecord <$> recs) =
    (mk_response RUNTIME_ABI_VERSION op DirOk (rq_request_id rq)
       (saturating_add 64 (rq_cursor rq) (Z.of_nat (length out))) (Z.of_nat (length out))
       (if (length rest <=? DIRECTORY_RECORDS_PER_PAGE)%nat then 0 else DIRECTORY_FLAG_MORE) [0; 0]
       (out ++ replicate (DIRECTORY_RECORDS_PER_PAGE - length out) record_EMPTY), DirOk).
Proof.
  intros Hc. cbn zeta. unfold page.
  rewrite page_loop_skip by done. rewrite <- fmap_drop, page_loop_fill by (try done; unfold DIRECTORY_RECORDS_PER_PAGE; lia).
  rewrite Z.sub_0_r. set (rest := drop _ recs). cbn zeta. rewrite Nat.sub_0_r.
  destruct (Nat.leb_spec (length rest) DIRECTORY_RECORDS_PER_PAGE) as [Hle|Hgt].
  - rewrite (take_ge rest) by lia. unfold page_finish, set_count, set_records, response_empty; cbn_rs.
    f_equal. f_equal.
    + apply wrap_small. unfold fits, DIRECTORY_RECORDS_PER_PAGE in *. lia.
    + rewrite list_inserts_0 by (rewrite length_replicate; lia). by rewrite drop_replicate.
  - assert (Hl : length (take DIRECTORY_RECORDS_PER_PAGE rest) = DIRECTORY_RECORDS_PER_PAGE)
      by (rewrite length_take; lia).
    rewrite Hl. unfold page_finish, set_count, set_more, set_records, response_empty; cbn_rs.
    f_equal. f_equal.
    rewrite list_inserts_0 by (rewrite length_replicate; lia). by rewrite drop_replicate, Hl.
Qed.

(** A client that starts at a cursor and follows the returned one while the
    [MORE] flag is set. *)
Definition page_records (rs : DirectoryResponse) : list DirectoryRecord :=
  take (Z.to_nat (rs_count rs)) (rs_records rs).

Fixpoint read_all (call : Z -> DirectoryResponse) (fuel : nat) (cursor : Z) : list DirectoryRecord :=
  match fuel with
  | O => []
  | S fuel =>
      let rs := call cursor in
      page_records rs ++
        (if Z.land (rs_flags rs) DIRECTORY_FLAG_MORE =? 0 then [] else read_all call fuel (rs_cursor rs))
  end.

Definition at_cursor (rq : DirectoryRequest) (cursor : Z) : DirectoryRequest :=
  mk_request (rq_abi_version rq) (rq_operation rq) (rq_reserved rq) (rq_request_id rq) cursor (rq_subject rq).

Lemma read_all_pages op rq recs fuel : forall cursor,
  0 <= cursor -> Z.of_nat (length recs) < 2 ^ 64 - 1 ->
  (length (drop (Z.to_nat cursor) recs) < fuel * DIRECTORY_RECORDS_PER_PAGE)%nat ->
  read_all (fun c => (page op (at_cursor rq c) (ItemRecord <$> recs)).1) fuel cursor
  = drop (Z.to_nat cursor) recs.
Proof.
  unfold DIRECTORY_RECORDS_PER_PAGE.
  induction fuel as [|fuel IH]; intros cursor Hc Hn Hf; [lia|].
  cbn [read_all]. rewrite page_spec by done. cbn [fst]. cbn zeta.
  unfold at_cursor, DIRECTORY_RECORDS_PER_PAGE; cbn [rq_cursor rq_request_id].
  set (rest := drop (Z.to_nat cursor) recs) in *.
  unfold page_records; cbn [rs_count rs_records rs_flags rs_cursor]. rewrite Nat2Z.id.
  rewrite take_app_length.
  destruct (Nat.leb_spec (length rest) 32) as [Hle|Hgt].
  - simpl. rewrite app_nil_r. by apply take_ge.
  - change (Z.land DIRECTORY_FLAG_MORE DIRECTORY_FLAG_MORE =? 0) with false.
    assert (Hlen : (length rest = length recs - Z.to_nat cursor)%nat) by apply length_drop.
    rewrite length_take, Nat.min_l by lia.
    unfold saturating_add. rewrite Z.min_l by lia. rewrite IH by (try lia; rewrite length_drop; lia).
    replace (Z.to_nat (cursor + Z.of_nat 32)) with (Z.to_nat cursor + 32)%nat by lia.
    rewrite <- drop_drop. fold rest. apply take_drop.
Qed.

Lemma page_valid rq recs :
  0 <= rq_cursor rq -> request_is_valid rq = true ->
  Forall (fun r => record_is_valid r = true) recs ->
  is_valid_for (page (rq_operation rq) rq (ItemRecord <$> recs)).1 rq = true.
Proof.
  intros Hc Hrq Hrecs. rewrite page_spec by done. cbn zeta. cbn_rs.
  set (rest := drop _ recs). set (out := take _ rest).
  assert (Hout : (length out <= DIRECTORY_RECORDS_PER_PAGE)%nat) by (unfold out; rewrite length_take; lia).
  unfold is_valid_for. cbn_rs. rewrite Hrq, Nat2Z.id, take_app_length, drop_app_length.
  rewrite !bool_decide_eq_true_2 by done. rewrite !Z.eqb_refl. simpl.
  assert (Hf : forallb record_is_valid out = true).
  { apply forallb_forall. intros r Hr%list_elem_of_In. rewrite Forall_forall in Hrecs. apply Hrecs, list_elem_of_In.
    eapply elem_of_submseteq; [exact Hr|]. apply sublist_submseteq.
    unfold out, rest. etrans; [apply sublist_take|apply sublist_drop]. }
  assert (He : forall n, forallb record_is_empty (replicate n record_EMPTY) = true).
  { induction n; simpl; [done|]. by rewrite IHn. }
  rewrite Hf, He, !andb_true_r. apply andb_true_iff. split; [|apply Z.leb_le; lia].
  destruct (Nat.leb_spec (length rest) DIRECTORY_RECORDS_PER_PAGE) as [|Hgt]; [done|].
  assert (length out = DIRECTORY_RECORDS_PER_PAGE) as -> by (unfold out; rewrite length_take; lia).
  unfold saturating_add. change (Z.of_nat DIRECTORY_RECORDS_PER_PAGE) with 32.
  destruct (Z.eqb_spec (Z.min (rq_cursor rq + 32) (2 ^ 64 - 1)) 0); [lia|done].
Qed.
