(* ===== verification/Manager.v ===== *)
(** * Service-manager messages ([src/abi/src/service_manager.rs])

    The request and response a service exchanges with the service manager, the
    package names they carry ([PackageTarget] of [src/abi/src/package_ipc.rs])
    and the checks both sides run on them. *)

From Stdlib Require Import ZArith Lia.
From stdpp Require Import base list option numbers.
From S2P Require Import Prelude Slots.

#[local] Open Scope Z_scope.

(** ** Package names *)

Definition MAX_PACKAGE_NAME_BYTES : nat := 32.

Inductive PackageTargetKind : Type :=
| TargetService
| TargetProgram
| TargetNamedService.

Record PackageTarget : Type := mk_target {
  tg_kind : PackageTargetKind;
  tg_service : Z;
  tg_name_len : Z;
  tg_reserved : Z;
  tg_name : list Z
}.

#[export] Instance PackageTargetKind_eq_dec : EqDecision PackageTargetKind.
Proof. solve_decision. Defined.
#[export] Instance PackageTarget_eq_dec : EqDecision PackageTarget.
Proof. solve_decision. Defined.

(** A name copied over the front of a zeroed array of [n] bytes. *)
Definition padded (n : nat) (name : list Z) : list Z := name ++ replicate (n - length name) 0.

(** [b'a'..=b'z' | b'0'..=b'9' | b'-']. *)
Definition name_byte (b : Z) : bool :=
  ((97 <=? b) && (b <=? 122)) || ((48 <=? b) && (b <=? 57)) || (b =? 45).

Definition target_program (name : list Z) : option PackageTarget :=
  if bool_decide (name = []) || (MAX_PACKAGE_NAME_BYTES <? length name)%nat
     || bool_decide (name !! 0%nat = Some 45) || bool_decide (name !! (length name - 1)%nat = Some 45)
     || negb (forallb name_byte name)
  then None
  else Some (mk_target TargetProgram 0 (wrap 8 (Z.of_nat (length name))) 0
               (padded MAX_PACKAGE_NAME_BYTES name)).

Definition named_service (name : list Z) : option PackageTarget :=
  match target_program name with
  | None => None
  | Some t => Some (mk_target TargetNamedService (tg_service t) (tg_name_len t) (tg_reserved t) (tg_name t))
  end.

(** ** Wire shapes *)

Definition MANAGER_ABI_VERSION : Z := 5.

Inductive ManagerTargetKind : Type :=
| KindOfService
| KindOfProgram.

Inductive ManagerOperation : Type :=
| MgrList
| MgrStatus
| MgrStart
| MgrStop
| MgrRestart
| MgrProgramStart
| MgrProgramStatus
| MgrProgramStop
| MgrRegister.

Inductive ManagerStatus : Type :=
| MsOk
| MsAccepted
| MsMalformed
| MsUnauthorized
| MsNotFound
| MsStale
| MsInvalidState
| MsDependency
| MsBusy
| MsCapacity
| MsUnsupported.

Inductive ManagerState : Type :=
| MgVacant
| MgDisabled
| MgStopped
| MgStarting
| MgRunning
| MgStopping
| MgFailed
| MgExited
| MgFaulted.

#[export] Instance ManagerTargetKind_eq_dec : EqDecision ManagerTargetKind.
Proof. solve_decision. Defined.
#[export] Instance ManagerOperation_eq_dec : EqDecision ManagerOperation.
Proof. solve_decision. Defined.
#[export] Instance ManagerStatus_eq_dec : EqDecision ManagerStatus.
Proof. solve_decision. Defined.
#[export] Instance ManagerState_eq_dec : EqDecision ManagerState.
Proof. solve_decision. Defined.

(** The [repr(u8)] codes and their inverses. *)
Definition kind_code (k : ManagerTargetKind) : Z :=
  match k with KindOfService => 0 | KindOfProgram => 1 end.

Definition kind_from_raw (raw : Z) : option ManagerTargetKind :=
  if raw =? 0 then Some KindOfService else if raw =? 1 then Some KindOfProgram else None.

Definition mgr_code (op : ManagerOperation) : Z :=
  match op with
  | MgrList => 1 | MgrStatus => 2 | MgrStart => 3 | MgrStop => 4 | MgrRestart => 5
  | MgrProgramStart => 6 | MgrProgramStatus => 7 | MgrProgramStop => 8 | MgrRegister => 9
  end.

Definition mgr_from_raw (raw : Z) : option ManagerOperation :=
  if raw =? 1 then Some MgrList
  else if raw =? 2 then Some MgrStatus
  else if raw =? 3 then Some MgrStart
  else if raw =? 4 then Some MgrStop
  else if raw =? 5 then Some MgrRestart
  else if raw =? 6 then Some MgrProgramStart
  else if raw =? 7 then Some MgrProgramStatus
  else if raw =? 8 then Some MgrProgramStop
  else if raw =? 9 then Some MgrRegister
  else None.

Definition requires_lifecycle (op : ManagerOperation) : bool :=
  match op with MgrList | MgrStatus | MgrProgramStatus => false | _ => true end.

(** [ManagerRights]: a set of two bits. *)
Definition rights_NONE : Z := 0.
Definition rights_INSPECT : Z := Z.shiftl 1 0.
Definition rights_LIFECYCLE : Z := Z.shiftl 1 1.
Definition rights_ALL : Z := Z.lor rights_INSPECT rights_LIFECYCLE.
Definition rights_contains (rights required : Z) : bool := Z.land rights required =? required.

Record ManagerRequest : Type := mk_mrequest {
  mq_abi_version : Z;
  mq_operation : ManagerOperation;
  mq_target_kind : ManagerTargetKind;
  mq_request_id : Z;
  mq_service : ServiceHandle;
  mq_cursor : Z;
  mq_program_slot : Z;
  mq_name_len : Z;
  mq_reserved_tail : list Z;
  mq_program_generation : Z;
  mq_name : list Z
}.

Record ServiceManagerRecord : Type := mk_mrecord {
  mr_service : ServiceHandle;
  mr_state : ManagerState;
  mr_restarts : Z;
  mr_name_len : Z;
  mr_dependencies : Z;
  mr_reserved : list Z;
  mr_program_slot : Z;
  mr_reserved_program : list Z;
  mr_program_generation : Z;
  mr_name : list Z
}.

Record ManagerResponse : Type := mk_mresponse {
  mp_abi_version : Z;
  mp_operation : ManagerOperation;
  mp_status : ManagerStatus;
  mp_request_id : Z;
  mp_cursor : Z;
  mp_record : ServiceManagerRecord
}.

#[export] Instance ServiceManagerRecord_eq_dec : EqDecision ServiceManagerRecord.
Proof. solve_decision. Defined.

Definition mrequest_new (op : ManagerOperation) (request_id : Z) : ManagerRequest :=
  mk_mrequest MANAGER_ABI_VERSION op KindOfService request_id EMPTY 0 U8_MAX 0 [0; 0] 0
    (replicate MAX_PACKAGE_NAME_BYTES 0).

(** [self.name[..name.len()].copy_from_slice(name)] with the new length. *)
Definition with_name (rq : ManagerRequest) (kind : ManagerTargetKind) (name : list Z) : ManagerRequest :=
  mk_mrequest (mq_abi_version rq) (mq_operation rq) kind (mq_request_id rq) (mq_service rq)
    (mq_cursor rq) (mq_program_slot rq) (wrap 8 (Z.of_nat (length name))) (mq_reserved_tail rq)
    (mq_program_generation rq) (name ++ drop (length name) (mq_name rq)).

Definition with_program_name (rq : ManagerRequest) (name : list Z) : option ManagerRequest :=
  match target_program name with
  | None => None
  | Some _ => Some (with_name rq KindOfProgram name)
  end.

Definition with_service_name (rq : ManagerRequest) (name : list Z) : option ManagerRequest :=
  match target_program name with
  | None => None
  | Some _ => Some (with_name rq KindOfService name)
  end.

Definition program_target (rq : ManagerRequest) : bool := bool_decide (mq_target_kind rq = KindOfProgram).

(** [ManagerRequest::name]: the first [name_len] bytes. *)
Definition request_name (rq : ManagerRequest) : list Z := take (Z.to_nat (mq_name_len rq)) (mq_name rq).

(** The enumeration bytes sit at offsets 2 and 3 of the [repr(C)] request. *)
Definition wire_enums_valid (bytes : list Z) : bool :=
  match bytes !! 2%nat with
  | Some raw => bool_decide (is_Some (mgr_from_raw raw))
  | None => false
  end
  && match bytes !! 3%nat with
     | Some raw => bool_decide (is_Some (kind_from_raw raw))
     | None => false
     end.

Definition mrecord_EMPTY : ServiceManagerRecord :=
  mk_mrecord EMPTY MgVacant 0 0 0 [0; 0] U8_MAX [0; 0; 0] 0 (replicate MAX_PACKAGE_NAME_BYTES 0).

Definition mresponse_new (op : ManagerOperation) (st : ManagerStatus) (request_id : Z) : ManagerResponse :=
  mk_mresponse MANAGER_ABI_VERSION op st request_id 0 mrecord_EMPTY.

(** ** Checks *)

(** The test [request.name_len as usize > request.name.len() || request.name[name_len..]
    has a nonzero byte], negated. *)
Definition name_field_valid (rq : ManagerRequest) : bool :=
  (mq_name_len rq <=? Z.of_nat (length (mq_name rq)))
  && forallb (fun b => b =? 0) (drop (Z.to_nat (mq_name_len rq)) (mq_name rq)).

(** [service_request_shape_valid] of [src/src/runtime_services.rs]. *)
Definition service_request_shape_valid (rq : ManagerRequest) : bool :=
  (mq_abi_version rq =? MANAGER_ABI_VERSION)
  && negb (mq_request_id rq =? 0)
  && bool_decide (mq_target_kind rq = KindOfService)
  && bool_decide (mq_reserved_tail rq = [0; 0])
  && name_field_valid rq
  && match mq_operation rq with
     | MgrList =>
         bool_decide (mq_service rq = EMPTY)
         && (mq_program_generation rq =? 0)
         && (mq_program_slot rq =? U8_MAX)
     | MgrStatus | MgrStart | MgrStop | MgrRestart =>
         is_valid (mq_service rq)
         && (mq_program_slot rq =? U8_MAX)
         && (mq_program_generation rq =? 0)
         && (mq_cursor rq =? 0)
     | MgrRegister =>
         bool_decide (mq_service rq = EMPTY)
         && (mq_program_slot rq =? U8_MAX)
         && (mq_program_generation rq =? 0)
         && (mq_cursor rq =? 0)
         && bool_decide (is_Some (target_program (request_name rq)))
     | _ => false
     end.

(** [ManagerResponse::is_valid_for], run by the service that asked. *)
Definition response_valid_for (rs : ManagerResponse) (rq : ManagerRequest) : bool :=
  let cursor_valid :=
    match mq_operation rq with
    | MgrList => true
    | _ => mp_cursor rs =? 0
    end in
  (mp_abi_version rs =? MANAGER_ABI_VERSION)
  && bool_decide (mp_operation rs = mq_operation rq)
  && negb (mq_request_id rq =? 0)
  && (mp_request_id rs =? mq_request_id rq)
  && bool_decide (is_Some (kind_from_raw (kind_code (mq_target_kind rq))))
  && bool_decide (mq_reserved_tail rq = [0; 0])
  && (bool_decide (mq_target_kind rq = KindOfService)
      || bool_decide (is_Some (target_program (request_name rq))))
  && name_field_valid rq
  && bool_decide (mr_reserved (mp_record rs) = [0; 0])
  && bool_decide (mr_reserved_program (mp_record rs) = [0; 0; 0])
  && (mr_name_len (mp_record rs) <=? Z.of_nat (length (mr_name (mp_record rs))))
  && cursor_valid.

(** ** Lemmas *)

Lemma mgr_codes op : mgr_from_raw (mgr_code op) = Some op.
Proof. by destruct op. Qed.

Lemma kind_codes k : kind_from_raw (kind_code k) = Some k.
Proof. by destruct k. Qed.

Lemma mgr_from_raw_inv raw op : mgr_from_raw raw = Some op -> raw = mgr_code op.
Proof. unfold mgr_from_raw. intros H. repeat case_match; simplify_eq/=; boolprop; lia. Qed.

Lemma target_program_Some name t :
  target_program name = Some t ->
  name <> [] ∧ (length name <= MAX_PACKAGE_NAME_BYTES)%nat ∧ forallb name_byte name = true ∧
  tg_name_len t = Z.of_nat (length name) ∧ tg_name t = padded MAX_PACKAGE_NAME_BYTES name.
Proof.
  unfold target_program. intros H. case_match eqn:Hc; simplify_eq/=. boolprop.
  destruct (Nat.ltb_spec MAX_PACKAGE_NAME_BYTES (length name)); [done|].
  repeat split; try done. apply wrap_small. unfold fits, MAX_PACKAGE_NAME_BYTES in *. lia.
Qed.

Lemma zero_bytes_replicate n : forallb (fun b => b =? 0) (replicate n 0) = true.
Proof. by induction n. Qed.

(** A registration request built by the client library is accepted by the
    manager, which reads back the name the client gave. *)
Lemma register_request_accepted name request_id rq :
  request_id <> 0 ->
  with_service_name (mrequest_new MgrRegister request_id) name = Some rq ->
  service_request_shape_valid rq = true ∧ request_name rq = name.
Proof.
  intros Hid. unfold with_service_name. destruct (target_program name) as [t|] eqn:Ht; [|done].
  intros [= <-]. destruct (target_program_Some _ _ Ht) as (Hn & Hl & _).
  assert (Hw : wrap 8 (Z.of_nat (length name)) = Z.of_nat (length name)).
  { apply wrap_small. unfold fits, MAX_PACKAGE_NAME_BYTES in *. lia. }
  assert (Hname : request_name (with_name (mrequest_new MgrRegister request_id) KindOfService name) = name).
  { unfold request_name, with_name. cbn [mq_name_len mq_name]. by rewrite Hw, Nat2Z.id, take_app_length. }
  split; [|done]. unfold service_request_shape_valid. rewrite Hname, Ht.
  unfold name_field_valid, with_name, mrequest_new.
  cbn [mq_abi_version mq_operation mq_target_kind mq_request_id mq_service mq_cursor mq_program_slot
    mq_name_len mq_reserved_tail mq_program_generation mq_name].
  rewrite Hw, Nat2Z.id, drop_app_length, length_app, length_drop, length_replicate.
  rewrite !bool_decide_eq_true_2 by done. rewrite !Z.eqb_refl.
  rewrite drop_replicate, zero_bytes_replicate. destruct (Z.eqb_spec request_id 0); [done|].
  cbn [andb negb]. rewrite !andb_true_r. apply Z.leb_le. lia.
Qed.
