(* ===== verification/Services.v ===== *)
(** * Dynamic service records ([src/src/runtime_services.rs])

    The registry of services: registration, the dependency-driven start and
    restart, the lifecycle admission the service manager runs, the ownership
    bookkeeping, and the two listings (the directory page and the manager's
    record-by-record list).

    This file holds the operations and the table invariant;
    [ServiceOrder.v] proves what the dependency walks compute and
    [ServiceLists.v] what the listings enumerate. *)

From Stdlib Require Import ZArith Lia.
From stdpp Require Import relations.
From stdpp Require Import base list option numbers.
From S2P Require Import Prelude Slots Directory Manager.

#[local] Open Scope Z_scope.

(** ** Data *)

Definition SERVICE_HEAP_MAX_PAGES : Z := 16 * 1024.

Inductive ServiceState : Type :=
| Disabled
| Stopped
| Starting
| Running
| Stopping
| Failed.

Inductive ServiceImageSource : Type :=
| Builtin
| FilesystemPackage.

Inductive ServiceRegistryError : Type :=
| Stale
| InvalidName
| InvalidImage
| InvalidDependency
| DependencyCycle
| Capacity
| RunningDependents.

#[export] Instance ServiceState_eq_dec : EqDecision ServiceState.
Proof. solve_decision. Defined.
#[export] Instance ServiceImageSource_eq_dec : EqDecision ServiceImageSource.
Proof. solve_decision. Defined.
#[export] Instance ServiceRegistryError_eq_dec : EqDecision ServiceRegistryError.
Proof. solve_decision. Defined.

Record ServiceOwnership : Type := mk_ownership {
  ow_runtime_slot : option Z;
  ow_process : Z;
  ow_address_space : Z;
  ow_task : Z;
  ow_heap_pages : Z;
  ow_heartbeat : Z;
  ow_ipc_endpoints : Z;
  ow_capabilities : Z;
  ow_events : Z
}.

Definition ownership_EMPTY : ServiceOwnership := mk_ownership None 0 0 0 0 0 0 0 0.

Record ServiceRecord : Type := mk_service {
  sv_handle : ServiceHandle;
  sv_name : list Z;
  sv_image : list Z;
  sv_dependencies : list ServiceHandle;
  sv_state : ServiceState;
  sv_epoch : Z;
  sv_restarts : Z;
  sv_heap_quota_pages : Z;
  sv_manager_rights : Z;
  sv_image_source : ServiceImageSource;
  sv_ownership : ServiceOwnership
}.

Record RuntimeServiceRegistry : Type := mk_registry {
  slots : list (slot ServiceRecord);
  generation_seed : Z
}.

Inductive RuntimeLifecycleAction : Type :=
| ActStart (h : ServiceHandle)
| ActStop (h : ServiceHandle)
| ActRestart (closure : list ServiceHandle).

(** Field assignments. *)
Definition with_handle (s : ServiceRecord) (h : ServiceHandle) : ServiceRecord :=
  mk_service h (sv_name s) (sv_image s) (sv_dependencies s) (sv_state s) (sv_epoch s) (sv_restarts s)
    (sv_heap_quota_pages s) (sv_manager_rights s) (sv_image_source s) (sv_ownership s).
Definition with_image (image : list Z) (s : ServiceRecord) : ServiceRecord :=
  mk_service (sv_handle s) (sv_name s) image (sv_dependencies s) (sv_state s) (sv_epoch s)
    (sv_restarts s) (sv_heap_quota_pages s) (sv_manager_rights s) (sv_image_source s) (sv_ownership s).
Definition with_dependencies (deps : list ServiceHandle) (s : ServiceRecord) : ServiceRecord :=
  mk_service (sv_handle s) (sv_name s) (sv_image s) deps (sv_state s) (sv_epoch s)
    (sv_restarts s) (sv_heap_quota_pages s) (sv_manager_rights s) (sv_image_source s) (sv_ownership s).
Definition with_state (st : ServiceState) (s : ServiceRecord) : ServiceRecord :=
  mk_service (sv_handle s) (sv_name s) (sv_image s) (sv_dependencies s) st (sv_epoch s)
    (sv_restarts s) (sv_heap_quota_pages s) (sv_manager_rights s) (sv_image_source s) (sv_ownership s).
Definition with_epoch (e : Z) (s : ServiceRecord) : ServiceRecord :=
  mk_service (sv_handle s) (sv_name s) (sv_image s) (sv_dependencies s) (sv_state s) e
    (sv_restarts s) (sv_heap_quota_pages s) (sv_manager_rights s) (sv_image_source s) (sv_ownership s).
Definition with_restarts (n : Z) (s : ServiceRecord) : ServiceRecord :=
  mk_service (sv_handle s) (sv_name s) (sv_image s) (sv_dependencies s) (sv_state s) (sv_epoch s)
    n (sv_heap_quota_pages s) (sv_manager_rights s) (sv_image_source s) (sv_ownership s).
Definition with_rights (rights : Z) (s : ServiceRecord) : ServiceRecord :=
  mk_service (sv_handle s) (sv_name s) (sv_image s) (sv_dependencies s) (sv_state s) (sv_epoch s)
    (sv_restarts s) (sv_heap_quota_pages s) rights (sv_image_source s) (sv_ownership s).
Definition with_source (src : ServiceImageSource) (s : ServiceRecord) : ServiceRecord :=
  mk_service (sv_handle s) (sv_name s) (sv_image s) (sv_dependencies s) (sv_state s) (sv_epoch s)
    (sv_restarts s) (sv_heap_quota_pages s) (sv_manager_rights s) src (sv_ownership s).
Definition with_ownership (f : ServiceOwnership -> ServiceOwnership) (s : ServiceRecord) : ServiceRecord :=
  mk_service (sv_handle s) (sv_name s) (sv_image s) (sv_dependencies s) (sv_state s) (sv_epoch s)
    (sv_restarts s) (sv_heap_quota_pages s) (sv_manager_rights s) (sv_image_source s) (f (sv_ownership s)).
Definition with_slots (r : RuntimeServiceRegistry) (sl : list (slot ServiceRecord)) : RuntimeServiceRegistry :=
  mk_registry sl (generation_seed r).

Definition next_epoch (current : Z) : Z := Z.max (wrapping_add 64 current 1) 1.

(** A mutating method: the registry afterwards and the answer. *)
Definition outcome (A : Type) : Type := RuntimeServiceRegistry * result A ServiceRegistryError.

(** ** Lookup *)

Definition new_with_generation (generation : Z) : RuntimeServiceRegistry :=
  mk_registry [] (Z.max generation 1).

Definition new : RuntimeServiceRegistry := new_with_generation 1.

Definition service_index (r : RuntimeServiceRegistry) (h : ServiceHandle) : result nat ServiceRegistryError :=
  ok_or (slot_index (slots r) h) Stale.

Definition service (r : RuntimeServiceRegistry) (h : ServiceHandle) :
    result ServiceRecord ServiceRegistryError :=
  ok_or (slot_get (slots r) h) Stale.

(** [self.service_mut(handle)?] followed by assignments through the reference. *)
Definition service_mut (r : RuntimeServiceRegistry) (h : ServiceHandle)
    (f : ServiceRecord -> ServiceRecord) : outcome unit :=
  match service_index r h with
  | Err e => (r, Err e)
  | Ok i => (with_slots r (modify f (slots r) i), Ok tt)
  end.

(** [slots.iter().filter_map(|slot| slot.value.as_ref())]. *)
Definition services (r : RuntimeServiceRegistry) : list ServiceRecord := live (slots r).

(** [Vec::contains]. *)
Definition contains (l : list ServiceHandle) (h : ServiceHandle) : bool := bool_decide (h ∈ l).

(** ** Registration *)

Definition allocate_slot (reserve : bool) (r : RuntimeServiceRegistry) : outcome nat :=
  match allocate reserve (slots r) (generation_seed r) with
  | None => (r, Err Capacity)
  | Some (sl, i) => (with_slots r sl, Ok i)
  end.

(** [reserve k] is the answer of the k-th [try_reserve] of the method: the slot
    vector, the name, the image and the dependencies.  A failure after the
    slot was found leaves a grown table. *)
Definition register_with_source (reserve : nat -> bool) (r : RuntimeServiceRegistry)
    (name image : list Z) (dependencies : list ServiceHandle) (heap_quota_pages : Z)
    (source : ServiceImageSource) : outcome ServiceHandle :=
  if bool_decide (name = []) || (MAX_SERVICE_NAME_BYTES <? length name)%nat then (r, Err InvalidName)
  else if bool_decide (image = []) || (heap_quota_pages =? 0) then (r, Err InvalidImage)
  else if existsb (fun d => negb (is_ok (service r d))) dependencies then (r, Err InvalidDependency)
  else match allocate_slot (reserve 0%nat) r with
  | (r, Err e) => (r, Err e)
  | (r, Ok i) =>
      match handle_new (wrap 32 (Z.of_nat i)) (generation_at (slots r) i) with
      | None => (r, Err Capacity)
      | Some h =>
          if reserve 1%nat && reserve 2%nat && reserve 3%nat
          then (with_slots r (fill (slots r) i
                 (mk_service h name image dependencies Stopped 1 0 heap_quota_pages
                    rights_NONE source ownership_EMPTY)), Ok h)
          else (r, Err Capacity)
      end
  end.

Definition register_with_quota (reserve : nat -> bool) (r : RuntimeServiceRegistry)
    (name image : list Z) (dependencies : list ServiceHandle) (heap_quota_pages : Z) : outcome ServiceHandle :=
  register_with_source reserve r name image dependencies heap_quota_pages Builtin.

Definition register (reserve : nat -> bool) (r : RuntimeServiceRegistry)
    (name image : list Z) (dependencies : list ServiceHandle) : outcome ServiceHandle :=
  register_with_quota reserve r name image dependencies SERVICE_HEAP_MAX_PAGES.

Definition register_filesystem_package (reserve : nat -> bool) (r : RuntimeServiceRegistry)
    (name image : list Z) (dependencies : list ServiceHandle) (heap_quota_pages : Z) : outcome ServiceHandle :=
  register_with_source reserve r name image dependencies heap_quota_pages FilesystemPackage.

(** [b"pending"]. *)
Definition pending_image : list Z := [112; 101; 110; 100; 105; 110; 103].

Definition register_pending_package (reserve : nat -> bool) (r : RuntimeServiceRegistry)
    (name : list Z) (heap_quota_pages : Z) : outcome ServiceHandle :=
  register_filesystem_package reserve r name pending_image [] heap_quota_pages.

Definition set_dependencies (reserve : bool) (r : RuntimeServiceRegistry) (h : ServiceHandle)
    (dependencies : list ServiceHandle) : outcome unit :=
  if existsb (fun d => negb (is_ok (service r d))) dependencies then (r, Err InvalidDependency)
  else match service r h with
  | Err e => (r, Err e)
  | Ok _ =>
      if reserve then service_mut r h (with_dependencies dependencies) else (r, Err Capacity)
  end.

(** ** Dependency walks

    The source recurses over the dependency graph and loops until nothing
    changes; [fuel] bounds the recursion depth and the number of passes, and
    [None] is the answer of a walk that used it up.  [ServiceOrder.v] shows
    that one more than the number of slots is always enough. *)

(** [for dependency in dependencies { self.collect_start_order(..)?; }]. *)
Fixpoint for_dependencies
    (collect : ServiceHandle -> list ServiceHandle -> option (result (list ServiceHandle) ServiceRegistryError))
    (dependencies order : list ServiceHandle) : option (result (list ServiceHandle) ServiceRegistryError) :=
  match dependencies with
  | [] => Some (Ok order)
  | d :: dependencies =>
      match collect d order with
      | Some (Ok order) => for_dependencies collect dependencies order
      | answer => answer
      end
  end.

(** [visiting] is the path from the root; it is restored by [pop] on every
    successful return and dropped by the callers otherwise, so only [order] is
    returned. *)
Fixpoint collect_start_order (fuel : nat) (r : RuntimeServiceRegistry) (visiting : list ServiceHandle)
    (h : ServiceHandle) (order : list ServiceHandle) :
    option (result (list ServiceHandle) ServiceRegistryError) :=
  match fuel with
  | O => None
  | S fuel =>
      if contains visiting h then Some (Err DependencyCycle)
      else match service r h with
      | Err e => Some (Err e)
      | Ok s =>
          if bool_decide (sv_state s = Running) || contains order h then Some (Ok order)
          else match for_dependencies (collect_start_order fuel r (visiting ++ [h])) (sv_dependencies s) order with
          | Some (Ok order) => Some (Ok (order ++ [h]))
          | answer => answer
          end
      end
  end.

Fixpoint apply_start_order (r : RuntimeServiceRegistry) (order : list ServiceHandle) : outcome unit :=
  match order with
  | [] => (r, Ok tt)
  | h :: order =>
      match service_mut r h (with_state Running) with
      | (r, Err e) => (r, Err e)
      | (r, Ok _) => apply_start_order r order
      end
  end.

Definition walk_fuel (r : RuntimeServiceRegistry) : nat := S (length (slots r)).

Definition start (r : RuntimeServiceRegistry) (h : ServiceHandle) : option (outcome unit) :=
  match collect_start_order (walk_fuel r) r [] h [] with
  | None => None
  | Some (Err e) => Some (r, Err e)
  | Some (Ok order) => Some (apply_start_order r order)
  end.

Definition restarted (s : ServiceRecord) : ServiceRecord :=
  with_restarts (saturating_add 8 (sv_restarts s) 1)
    (with_state Running (with_epoch (next_epoch (sv_epoch s)) s)).

Definition restart (r : RuntimeServiceRegistry) (h : ServiceHandle) : option (outcome unit) :=
  match service r h with
  | Err e => Some (r, Err e)
  | Ok s =>
      match for_dependencies (collect_start_order (walk_fuel r) r [h]) (sv_dependencies s) [] with
      | None => None
      | Some (Err e) => Some (r, Err e)
      | Some (Ok order) =>
          Some match apply_start_order r order with
          | (r, Err e) => (r, Err e)
          | (r, Ok _) =>
              (* [self.slots[index]] with the index found on entry *)
              match slots r !! Z.to_nat (index h) with
              | Some (mk_slot _ (Some _)) =>
                  (with_slots r (modify restarted (slots r) (Z.to_nat (index h))), Ok tt)
              | _ => (r, Err Stale)
              end
          end
      end
  end.

Definition record_restart (r : RuntimeServiceRegistry) (h : ServiceHandle) : outcome unit :=
  service_mut r h restarted.

(** [Vec::swap_remove]: the element, and the vector with its last element in
    the gap. *)
Definition swap_remove (l : list ServiceHandle) (i : nat) : option (ServiceHandle * list ServiceHandle) :=
  match l !! i, l !! (length l - 1)%nat with
  | Some x, Some z => Some (x, take (length l - 1) (<[i := z]> l))
  | _, _ => None
  end.

(** One [for] pass over the services: the handles included so far and whether
    one was added.  [reserve n] answers the [try_reserve] made with [n]
    handles included. *)
Fixpoint closure_pass (reserve : nat -> bool) (svs : list ServiceRecord) (included : list ServiceHandle)
    (changed : bool) : result (list ServiceHandle * bool) ServiceRegistryError :=
  match svs with
  | [] => Ok (included, changed)
  | s :: svs =>
      if bool_decide (sv_state s = Running) && negb (contains included (sv_handle s))
         && existsb (contains included) (sv_dependencies s)
      then if reserve (length included)
           then closure_pass reserve svs (included ++ [sv_handle s]) true
           else Err Capacity
      else closure_pass reserve svs included changed
  end.

Fixpoint closure_loop (fuel : nat) (reserve : nat -> bool) (svs : list ServiceRecord)
    (included : list ServiceHandle) : option (result (list ServiceHandle) ServiceRegistryError) :=
  match fuel with
  | O => None
  | S fuel =>
      match closure_pass reserve svs included false with
      | Err e => Some (Err e)
      | Ok (included, true) => closure_loop fuel reserve svs included
      | Ok (included, false) => Some (Ok included)
      end
  end.

(** A handle whose service depends on nothing that remains. *)
Definition removable (r : RuntimeServiceRegistry) (remaining : list ServiceHandle) (h : ServiceHandle) : bool :=
  match service r h with
  | Ok s => negb (existsb (contains remaining) (sv_dependencies s))
  | Err _ => false
  end.

Fixpoint order_loop (fuel : nat) (r : RuntimeServiceRegistry) (remaining order : list ServiceHandle) :
    option (result (list ServiceHandle) ServiceRegistryError) :=
  match remaining with
  | [] => Some (Ok order)
  | _ =>
      match fuel with
      | O => None
      | S fuel =>
          match list_find (fun h => removable r remaining h = true) remaining with
          | None => Some (Err DependencyCycle)
          | Some (position, _) =>
              match swap_remove remaining position with
              | Some (h, remaining) => order_loop fuel r remaining (order ++ [h])
              | None => None
              end
          end
      end
  end.

Definition restart_closure (reserve : nat -> bool) (r : RuntimeServiceRegistry) (h : ServiceHandle) :
    option (result (list ServiceHandle) ServiceRegistryError) :=
  match service r h with
  | Err e => Some (Err e)
  | Ok _ =>
      if negb (reserve 0%nat) then Some (Err Capacity)
      else match closure_loop (walk_fuel r) reserve (services r) [h] with
      | None => None
      | Some (Err e) => Some (Err e)
      | Some (Ok included) =>
          if negb (reserve (length included)) then Some (Err Capacity)
          else match order_loop (length included) r included [] with
          | Some (Ok order) => Some (Ok (reverse order))
          | answer => answer
          end
      end
  end.

(** ** State changes *)

Definition disable (r : RuntimeServiceRegistry) (h : ServiceHandle) : outcome unit :=
  service_mut r h (with_state Disabled).

Definition stop (r : RuntimeServiceRegistry) (h : ServiceHandle) : outcome unit :=
  match service_index r h with
  | Err e => (r, Err e)
  | Ok i =>
      if existsb (fun s => bool_decide (sv_state s = Running) && contains (sv_dependencies s) h) (services r)
      then (r, Err RunningDependents)
      else (with_slots r (modify (fun s => with_epoch (next_epoch (sv_epoch s)) (with_state Stopped s))
              (slots r) i), Ok tt)
  end.

Definition fail (r : RuntimeServiceRegistry) (h : ServiceHandle) : outcome unit :=
  service_mut r h (with_state Failed).

Definition mark_stopping (r : RuntimeServiceRegistry) (h : ServiceHandle) : outcome unit :=
  service_mut r h (fun s => if bool_decide (sv_state s = Running) then with_state Stopping s else s).

Definition remove (r : RuntimeServiceRegistry) (h : ServiceHandle) : outcome unit :=
  match service_index r h with
  | Err e => (r, Err e)
  | Ok i =>
      if existsb (fun s => contains (sv_dependencies s) h) (services r)
      then (r, Err RunningDependents)
      else (with_slots r (vacate (slots r) i), Ok tt)
  end.

(** The record moves to the next generation of its slot. *)
Definition replace_generation (r : RuntimeServiceRegistry) (h : ServiceHandle) : outcome ServiceHandle :=
  match service_index r h with
  | Err e => (r, Err e)
  | Ok i =>
      let generation := next_generation (generation_at (slots r) i) in
      match handle_new (wrap 32 (Z.of_nat i)) generation with
      | None => (r, Err Capacity)
      | Some replacement =>
          match slot_get (slots r) h with
          | None => (r, Err Stale)
          | Some s =>
              if negb (bool_decide (sv_state s = Stopped)) then (r, Err Capacity)
              else (with_slots r (<[i := mk_slot generation (Some
                      (with_restarts (saturating_add 8 (sv_restarts s) 1)
                        (with_epoch (next_epoch (sv_epoch s)) (with_handle s replacement))))]> (slots r)),
                    Ok replacement)
          end
      end
  end.

Definition set_image (reserve : bool) (r : RuntimeServiceRegistry) (h : ServiceHandle) (image : list Z) :
    outcome unit :=
  if bool_decide (image = []) then (r, Err InvalidImage)
  else match service r h with
  | Err e => (r, Err e)
  | Ok _ => if reserve then service_mut r h (with_image image) else (r, Err Capacity)
  end.

Definition set_manager_rights (r : RuntimeServiceRegistry) (h : ServiceHandle) (rights : Z) : outcome unit :=
  service_mut r h (with_rights rights).

Definition set_image_source (r : RuntimeServiceRegistry) (h : ServiceHandle) (src : ServiceImageSource) :
    outcome unit :=
  service_mut r h (with_source src).

(** ** Queries *)

Definition state (r : RuntimeServiceRegistry) (h : ServiceHandle) : result ServiceState ServiceRegistryError :=
  match service r h with Ok s => Ok (sv_state s) | Err e => Err e end.

Definition epoch (r : RuntimeServiceRegistry) (h : ServiceHandle) : result Z ServiceRegistryError :=
  match service r h with Ok s => Ok (sv_epoch s) | Err e => Err e end.

Definition image_len (r : RuntimeServiceRegistry) (h : ServiceHandle) : result Z ServiceRegistryError :=
  match service r h with Ok s => Ok (Z.of_nat (length (sv_image s))) | Err e => Err e end.

Definition image_bytes (r : RuntimeServiceRegistry) (h : ServiceHandle) :
    result (list Z) ServiceRegistryError :=
  match service r h with Ok s => Ok (sv_image s) | Err e => Err e end.

Definition heap_quota_pages (r : RuntimeServiceRegistry) (h : ServiceHandle) : result Z ServiceRegistryError :=
  match service r h with Ok s => Ok (sv_heap_quota_pages s) | Err e => Err e end.

Definition service_name (r : RuntimeServiceRegistry) (h : ServiceHandle) :
    result (list Z) ServiceRegistryError :=
  match service r h with Ok s => Ok (sv_name s) | Err e => Err e end.

Definition manager_rights (r : RuntimeServiceRegistry) (h : ServiceHandle) : result Z ServiceRegistryError :=
  match service r h with Ok s => Ok (sv_manager_rights s) | Err e => Err e end.

Definition image_source (r : RuntimeServiceRegistry) (h : ServiceHandle) :
    result ServiceImageSource ServiceRegistryError :=
  match service r h with Ok s => Ok (sv_image_source s) | Err e => Err e end.

Definition runtime_slot (r : RuntimeServiceRegistry) (h : ServiceHandle) :
    result (option Z) ServiceRegistryError :=
  match service r h with Ok s => Ok (ow_runtime_slot (sv_ownership s)) | Err e => Err e end.

Definition ownership (r : RuntimeServiceRegistry) (h : ServiceHandle) :
    result ServiceOwnership ServiceRegistryError :=
  match service r h with Ok s => Ok (sv_ownership s) | Err e => Err e end.

Definition validate_lifecycle_handle (r : RuntimeServiceRegistry) (h : ServiceHandle) :
    result unit ServiceRegistryError :=
  match service r h with Ok _ => Ok tt | Err e => Err e end.

(** ** Ownership *)

Definition set_runtime_ownership (r : RuntimeServiceRegistry) (h : ServiceHandle)
    (process address_space task heap_pages : Z) : outcome unit :=
  if (process =? 0) || (address_space =? 0) || (task =? 0) || (heap_pages =? 0) then (r, Err Capacity)
  else service_mut r h (with_ownership (fun o =>
    mk_ownership (ow_runtime_slot o) process address_space task heap_pages (ow_heartbeat o)
      (ow_ipc_endpoints o) (ow_capabilities o) (ow_events o))).

Definition bind_runtime_slot (r : RuntimeServiceRegistry) (h : ServiceHandle) (sl : Z) : outcome unit :=
  if existsb (fun s => negb (bool_decide (sv_handle s = h))
                       && bool_decide (ow_runtime_slot (sv_ownership s) = Some sl)) (services r)
  then (r, Err Capacity)
  else service_mut r h (with_ownership (fun o =>
    mk_ownership (Some sl) (ow_process o) (ow_address_space o) (ow_task o) (ow_heap_pages o)
      (ow_heartbeat o) (ow_ipc_endpoints o) (ow_capabilities o) (ow_events o))).

Definition set_heartbeat (r : RuntimeServiceRegistry) (h : ServiceHandle) (heartbeat : Z) : outcome unit :=
  service_mut r h (with_ownership (fun o =>
    mk_ownership (ow_runtime_slot o) (ow_process o) (ow_address_space o) (ow_task o) (ow_heap_pages o)
      heartbeat (ow_ipc_endpoints o) (ow_capabilities o) (ow_events o))).

Definition set_runtime_counts (r : RuntimeServiceRegistry) (h : ServiceHandle)
    (ipc_endpoints capabilities events : Z) : outcome unit :=
  service_mut r h (with_ownership (fun o =>
    mk_ownership (ow_runtime_slot o) (ow_process o) (ow_address_space o) (ow_task o) (ow_heap_pages o)
      (ow_heartbeat o) ipc_endpoints capabilities events)).

Definition set_heap_pages (r : RuntimeServiceRegistry) (h : ServiceHandle) (heap_pages : Z) : outcome unit :=
  if heap_pages =? 0 then (r, Err Capacity)
  else service_mut r h (with_ownership (fun o =>
    mk_ownership (ow_runtime_slot o) (ow_process o) (ow_address_space o) (ow_task o) heap_pages
      (ow_heartbeat o) (ow_ipc_endpoints o) (ow_capabilities o) (ow_events o))).

Definition clear_runtime_ownership (r : RuntimeServiceRegistry) (h : ServiceHandle) : outcome unit :=
  service_mut r h (with_ownership (fun _ => ownership_EMPTY)).

Definition clear_execution_ownership (r : RuntimeServiceRegistry) (h : ServiceHandle) : outcome unit :=
  service_mut r h (with_ownership (fun o =>
    mk_ownership None 0 0 0 0 0 (ow_ipc_endpoints o) (ow_capabilities o) (ow_events o))).

Definition clear_execution_resources (r : RuntimeServiceRegistry) (h : ServiceHandle) : outcome unit :=
  service_mut r h (with_ownership (fun o =>
    mk_ownership (ow_runtime_slot o) 0 0 0 0 0 (ow_ipc_endpoints o) (ow_capabilities o) (ow_events o))).

(** ** Lifecycle admission *)

Definition busy_or_invalid (st : ServiceState) : ManagerStatus :=
  match st with Starting | Stopping => MsBusy | _ => MsInvalidState end.

Definition lifecycle_status (r : RuntimeServiceRegistry) (op : ManagerOperation) (h : ServiceHandle) :
    ManagerStatus :=
  match service r h with
  | Err _ => MsStale
  | Ok s =>
      match op with
      | MgrStart =>
          if negb (bool_decide (sv_state s = Stopped)) then busy_or_invalid (sv_state s)
          else if existsb (fun d => negb (bool_decide (state r d = Ok Running))) (sv_dependencies s)
          then MsDependency else MsOk
      | MgrStop =>
          if negb (bool_decide (sv_state s = Running)) then busy_or_invalid (sv_state s)
          else if existsb (fun d => contains (sv_dependencies d) h
                                    && negb (bool_decide (sv_state d = Stopped))) (services r)
          then MsDependency else MsOk
      | MgrRestart =>
          if bool_decide (sv_state s = Running) then MsOk else busy_or_invalid (sv_state s)
      | _ => MsUnsupported
      end
  end.

Definition begin_lifecycle (r : RuntimeServiceRegistry) (op : ManagerOperation) (h : ServiceHandle) :
    RuntimeServiceRegistry * ManagerStatus :=
  let status := lifecycle_status r op h in
  if negb (bool_decide (status = MsOk)) then (r, status)
  else match op with
  | MgrStart =>
      match service_mut r h (with_state Starting) with
      | (r, Err _) => (r, MsStale)
      | (r, Ok _) => (r, MsAccepted)
      end
  | MgrStop | MgrRestart =>
      match service_mut r h (with_state Stopping) with
      | (r, Err _) => (r, MsStale)
      | (r, Ok _) => (r, MsAccepted)
      end
  | _ => (r, if is_ok (service r h) then MsUnsupported else MsStale)
  end.

(** The loop of the [Restart] arm: every member of the closure becomes [Stopping]. *)
Fixpoint stop_members (r : RuntimeServiceRegistry) (closure : list ServiceHandle) : outcome unit :=
  match closure with
  | [] => (r, Ok tt)
  | h :: closure =>
      match service_mut r h (with_state Stopping) with
      | (r, Err e) => (r, Err e)
      | (r, Ok _) => stop_members r closure
      end
  end.

Definition begin_lifecycle_action (reserve : nat -> bool) (r : RuntimeServiceRegistry)
    (op : ManagerOperation) (h : ServiceHandle) :
    option (RuntimeServiceRegistry * result RuntimeLifecycleAction ManagerStatus) :=
  let status := lifecycle_status r op h in
  if negb (bool_decide (status = MsOk)) then Some (r, Err status)
  else match op with
  | MgrStart =>
      Some match service_mut r h (with_state Starting) with
      | (r, Err _) => (r, Err MsStale)
      | (r, Ok _) => (r, Ok (ActStart h))
      end
  | MgrStop =>
      Some match service_mut r h (with_state Stopping) with
      | (r, Err _) => (r, Err MsStale)
      | (r, Ok _) => (r, Ok (ActStop h))
      end
  | MgrRestart =>
      match restart_closure reserve r h with
      | None => None
      | Some (Err _) => Some (r, Err MsDependency)
      | Some (Ok closure) =>
          Some match stop_members r closure with
          | (r, Err _) => (r, Err MsStale)
          | (r, Ok _) => (r, Ok (ActRestart closure))
          end
      end
  | _ => Some (r, Err MsUnsupported)
  end.

Definition abort_lifecycle (r : RuntimeServiceRegistry) (op : ManagerOperation) (h : ServiceHandle) :
    RuntimeServiceRegistry * ManagerStatus :=
  match service r h with
  | Err _ => (r, MsStale)
  | Ok s =>
      match op with
      | MgrStart =>
          if negb (bool_decide (sv_state s = Starting)) then (r, MsInvalidState)
          else ((service_mut r h (with_state Stopped)).1, MsOk)
      | MgrStop | MgrRestart =>
          if negb (bool_decide (sv_state s = Stopping)) then (r, MsInvalidState)
          else ((service_mut r h (with_state Running)).1, MsOk)
      | _ => (r, MsUnsupported)
      end
  end.

(** The first loop: every member is live and stopping. *)
Fixpoint check_stopping (r : RuntimeServiceRegistry) (members : list ServiceHandle) : option ManagerStatus :=
  match members with
  | [] => None
  | h :: members =>
      match service r h with
      | Err _ => Some MsStale
      | Ok s => if negb (bool_decide (sv_state s = Stopping)) then Some MsInvalidState
                else check_stopping r members
      end
  end.

Definition abort_lifecycle_members (r : RuntimeServiceRegistry) (members : list ServiceHandle) :
    RuntimeServiceRegistry * ManagerStatus :=
  match check_stopping r members with
  | Some status => (r, status)
  | None => (foldl (fun r h => (service_mut r h (with_state Running)).1) r members, MsOk)
  end.

(** ** Listings *)

Definition manager_state (st : ServiceState) : ManagerState :=
  match st with
  | Disabled => MgDisabled
  | Stopped => MgStopped
  | Starting => MgStarting
  | Running => MgRunning
  | Stopping => MgStopping
  | Failed => MgFailed
  end.

Definition manager_record (r : RuntimeServiceRegistry) (h : ServiceHandle) :
    result ServiceManagerRecord ServiceRegistryError :=
  match service r h with
  | Err e => Err e
  | Ok s =>
      let name_len := Nat.min (length (sv_name s)) MAX_PACKAGE_NAME_BYTES in
      Ok (mk_mrecord (sv_handle s) (manager_state (sv_state s)) (sv_restarts s) (wrap 8 (Z.of_nat name_len))
            (wrap 16 (Z.min (Z.of_nat (length (sv_dependencies s))) U16_MAX)) [0; 0] U8_MAX [0; 0; 0] 0
            (padded MAX_PACKAGE_NAME_BYTES (take name_len (sv_name s))))
  end.

(** [Iterator::skip]. *)
Fixpoint skip {A} (n : Z) (l : list A) : list A :=
  match l with
  | [] => []
  | _ :: rest => if n <=? 0 then l else skip (n - 1) rest
  end.

(** [enumerate().filter_map(|(index, slot)| slot.value.as_ref().map(|_| index))]
    with the record beside its index. *)
Fixpoint enumerate_live (i : nat) (sl : list (slot ServiceRecord)) : list (nat * ServiceRecord) :=
  match sl with
  | [] => []
  | s :: sl =>
      match slot_value s with
      | Some v => (i, v) :: enumerate_live (S i) sl
      | None => enumerate_live (S i) sl
      end
  end.

(** [find_map]. *)
Fixpoint find_map {A B} (f : A -> option B) (l : list A) : option B :=
  match l with
  | [] => None
  | a :: l => match f a with Some b => Some b | None => find_map f l end
  end.

(** The vacant slots are dropped before [skip(cursor)], the cursor returned is
    a slot index. *)
Definition next_manager_record (r : RuntimeServiceRegistry) (cursor : Z) :
    option (nat * ServiceManagerRecord) :=
  find_map (fun '(i, s) =>
    match manager_record r (sv_handle s) with
    | Ok record => Some (S i, record)
    | Err _ => None
    end) (skip cursor (enumerate_live 0 (slots r))).

Definition manager_request (r : RuntimeServiceRegistry) (rq : ManagerRequest) : ManagerResponse :=
  let response status cursor record :=
    mk_mresponse MANAGER_ABI_VERSION (mq_operation rq) status (mq_request_id rq) cursor record in
  if negb (service_request_shape_valid rq) then mresponse_new (mq_operation rq) MsMalformed (mq_request_id rq)
  else match mq_operation rq with
  | MgrList =>
      match next_manager_record r (mq_cursor rq) with
      | None => response MsOk U64_MAX mrecord_EMPTY
      | Some (next, record) => response MsOk (Z.of_nat next) record
      end
  | MgrStatus =>
      match manager_record r (mq_service rq) with
      | Err _ => response MsStale 0 mrecord_EMPTY
      | Ok record => response MsOk 0 record
      end
  | _ => response MsUnsupported 0 mrecord_EMPTY
  end.

Definition state_flags (st : ServiceState) : Z :=
  match st with
  | Disabled => 2
  | Stopped => 0
  | Starting => 1
  | Running => 1
  | Stopping => 0
  | Failed => 0
  end.

Definition with_flags (rec : DirectoryRecord) (flags : Z) : DirectoryRecord :=
  mk_record (rec_kind rec) (rec_rights rec) flags (rec_handle rec) (rec_peer rec) (rec_contract_id rec)
    (rec_message_bytes rec) (rec_queue_capacity rec) (rec_event rec) (rec_name_len rec)
    (rec_reserved rec) (rec_name rec).

(** The [for] loop of [list]; [None] is the panic of [expect]. *)
Fixpoint list_loop (items : list (nat * ServiceRecord)) (written : nat) (rs : DirectoryResponse) :
    option (DirectoryResponse * nat) :=
  match items with
  | [] => Some (rs, written)
  | (i, s) :: items =>
      if (written =? DIRECTORY_RECORDS_PER_PAGE)%nat then Some (set_more rs (Z.of_nat i), written)
      else match record_service (sv_handle s) (sv_name s) with
      | None => None
      | Some rec =>
          list_loop items (S written) (set_record rs written (with_flags rec (state_flags (sv_state s))))
      end
  end.

(** [enumerate().skip(start).filter_map(..)]. *)
Definition live_from (r : RuntimeServiceRegistry) (cursor : Z) : list (nat * ServiceRecord) :=
  let rest := skip cursor (slots r) in
  enumerate_live (length (slots r) - length rest) rest.

(** The caller's buffer [rs] is overwritten unless the request id is zero. *)
Definition list_services (r : RuntimeServiceRegistry) (cursor : Z) (rs : DirectoryResponse)
    (request_id : Z) : option (DirectoryResponse * DirectoryStatus) :=
  if request_id =? 0 then Some (rs, DirMalformed)
  else match list_loop (live_from r cursor) 0 (response_empty OpServices DirOk request_id) with
  | None => None
  | Some (rs, written) =>
      Some (set_count rs (wrap 8 (Z.of_nat written))
              (if Z.land (rs_flags rs) DIRECTORY_FLAG_MORE =? 0 then U64_MAX else rs_cursor rs), DirOk)
  end.

(** ** Invariant

    Every live record sits under its own handle, has a name the directory can
    carry, an image, a quota and an epoch, and shares its runtime slot with no
    other record. *)

Definition get (r : RuntimeServiceRegistry) (h : ServiceHandle) : option ServiceRecord := slot_get (slots r) h.

Record record_ok (h : ServiceHandle) (s : ServiceRecord) : Prop := {
  ok_handle : sv_handle s = h;
  ok_name : (1 <= length (sv_name s) <= MAX_SERVICE_NAME_BYTES)%nat;
  ok_image : sv_image s <> [];
  ok_quota : sv_heap_quota_pages s <> 0;
  ok_epoch : gen_ok 64 (sv_epoch s);
  ok_restarts : fits 8 (sv_restarts s);
  ok_deps : Forall handle_ok (sv_dependencies s)
}.

Record wf (r : RuntimeServiceRegistry) : Prop := {
  wf_slots : slots_wf (slots r);
  wf_seed : gen_ok 32 (generation_seed r);
  wf_record : forall h s, handle_ok h -> get r h = Some s -> record_ok h s;
  wf_exclusive : forall h h' s s' p, handle_ok h -> handle_ok h' ->
    get r h = Some s -> get r h' = Some s' ->
    ow_runtime_slot (sv_ownership s) = Some p -> ow_runtime_slot (sv_ownership s') = Some p -> h = h'
}.

(** Every dependency of a live service is a live service. *)
Definition deps_live (r : RuntimeServiceRegistry) : Prop :=
  forall h s d, handle_ok h -> get r h = Some s -> d ∈ sv_dependencies s -> is_Some (get r d).

Definition room (r : RuntimeServiceRegistry) : Prop := Z.of_nat (length (slots r)) < 2 ^ 32.

(** No live service depends on [h]. *)
Definition no_dependents (r : RuntimeServiceRegistry) (h : ServiceHandle) : Prop :=
  forall h' s, handle_ok h' -> get r h' = Some s -> h ∉ sv_dependencies s.

(** One call of a mutating method.  [careful] callers do not replace the
    generation of a service others depend on. *)
Inductive service_step (careful : bool) (r : RuntimeServiceRegistry) : RuntimeServiceRegistry -> Prop :=
| step_register reserve name image deps quota src :
    room r -> Forall handle_ok deps ->
    service_step careful r (register_with_source reserve r name image deps quota src).1
| step_set_dependencies reserve h deps :
    handle_ok h -> Forall handle_ok deps -> service_step careful r (set_dependencies reserve r h deps).1
| step_start h out : handle_ok h -> start r h = Some out -> service_step careful r out.1
| step_restart h out : handle_ok h -> restart r h = Some out -> service_step careful r out.1
| step_record_restart h : handle_ok h -> service_step careful r (record_restart r h).1
| step_disable h : handle_ok h -> service_step careful r (disable r h).1
| step_stop h : handle_ok h -> service_step careful r (stop r h).1
| step_fail h : handle_ok h -> service_step careful r (fail r h).1
| step_mark_stopping h : handle_ok h -> service_step careful r (mark_stopping r h).1
| step_remove h : handle_ok h -> service_step careful r (remove r h).1
| step_replace h :
    handle_ok h -> (careful = true -> no_dependents r h) -> service_step careful r (replace_generation r h).1
| step_set_image reserve h image : handle_ok h -> service_step careful r (set_image reserve r h image).1
| step_rights h rights : handle_ok h -> service_step careful r (set_manager_rights r h rights).1
| step_source h src : handle_ok h -> service_step careful r (set_image_source r h src).1
| step_own h process space task pages :
    handle_ok h -> service_step careful r (set_runtime_ownership r h process space task pages).1
| step_bind h sl : handle_ok h -> service_step careful r (bind_runtime_slot r h sl).1
| step_heartbeat h beat : handle_ok h -> service_step careful r (set_heartbeat r h beat).1
| step_counts h a b c : handle_ok h -> service_step careful r (set_runtime_counts r h a b c).1
| step_heap h pages : handle_ok h -> service_step careful r (set_heap_pages r h pages).1
| step_clear h : handle_ok h -> service_step careful r (clear_runtime_ownership r h).1
| step_clear_execution h : handle_ok h -> service_step careful r (clear_execution_ownership r h).1
| step_clear_resources h : handle_ok h -> service_step careful r (clear_execution_resources r h).1
| step_begin op h : handle_ok h -> service_step careful r (begin_lifecycle r op h).1
| step_begin_action reserve op h out :
    handle_ok h -> begin_lifecycle_action reserve r op h = Some out -> service_step careful r out.1
| step_abort op h : handle_ok h -> service_step careful r (abort_lifecycle r op h).1
| step_abort_members members :
    Forall handle_ok members -> service_step careful r (abort_lifecycle_members r members).1.

(** ** Lemmas on records *)

Lemma Forall_elem {A} (P : A -> Prop) (l : list A) x : Forall P l -> x ∈ l -> P x.
Proof. intros Hf [i Hi]%list_elem_of_lookup_1. by eapply Forall_lookup_1. Qed.

Lemma service_Ok r h s : service r h = Ok s <-> get r h = Some s.
Proof. unfold service, get, ok_or. case_match; split; congruence. Qed.

Lemma service_Err r h e : service r h = Err e <-> get r h = None ∧ e = Stale.
Proof. unfold service, get, ok_or. case_match; intuition congruence. Qed.

Lemma service_mut_eq r h f :
  service_mut r h f =
  match get r h with
  | Some _ => (with_slots r (modify f (slots r) (Z.to_nat (index h))), Ok tt)
  | None => (r, Err Stale)
  end.
Proof.
  unfold service_mut, service_index, get. rewrite slot_index_get. by destruct (slot_get (slots r) h).
Qed.

Lemma get_modify r f h s h' :
  handle_ok h -> handle_ok h' -> get r h = Some s ->
  get (with_slots r (modify f (slots r) (Z.to_nat (index h)))) h' =
  if decide (h' = h) then Some (f s) else get r h'.
Proof. apply slot_get_modify. Qed.

Lemma is_ok_service r h : is_ok (service r h) = true <-> is_Some (get r h).
Proof.
  unfold is_Some. destruct (service r h) eqn:E; simpl.
  - apply service_Ok in E. rewrite E. split; eauto.
  - apply service_Err in E as [E _]. rewrite E. split; [done|by intros [? ?]].
Qed.

(** A live slot is resolved by the handle of its position and generation. *)
Lemma live_slot_handle (r : RuntimeServiceRegistry) i sl v :
  slots_wf (slots r) -> slots r !! i = Some sl -> slot_value sl = Some v ->
  exists h : ServiceHandle, handle_ok h ∧ index h = Z.of_nat i ∧ get r h = Some v.
Proof.
  intros [Hf Hl] Hi Hv. pose proof (Forall_lookup_1 _ _ _ _ Hf Hi) as Hg.
  assert (Hfit : fits 32 (Z.of_nat i)) by (apply lookup_lt_Some in Hi; unfold fits; lia).
  destruct (handle_new_spec KService (Z.of_nat i) _ Hfit Hg) as (h & Hn & Hix & Hgen & _).
  exists h. split; [|split; [done|]].
  - eapply handle_new_ok; [exact Hfit| |exact Hn]. unfold gen_ok, fits in *. simpl in Hg. lia.
  - apply slot_get_Some. exists sl. rewrite Hix, Nat2Z.id. by rewrite Hgen.
Qed.

(** The live services are the records that some handle resolves to. *)
Lemma elem_of_services r s :
  wf r -> s ∈ services r <-> handle_ok (sv_handle s) ∧ get r (sv_handle s) = Some s.
Proof.
  intros Hwf. unfold services, live. rewrite list_elem_of_omap. split.
  - intros (sl & Hsl & Hv). apply list_elem_of_lookup_1 in Hsl as [i Hi].
    destruct (live_slot_handle r i sl s (wf_slots r Hwf) Hi Hv) as (h & Hh & _ & Hget).
    by rewrite (ok_handle h s (wf_record r Hwf h s Hh Hget)).
  - intros [Hh Hget]. apply slot_get_Some in Hget as (sl & Hsl & _ & Hv).
    exists sl. split; [by eapply list_elem_of_lookup_2|done].
Qed.

Lemma next_epoch_ok e : gen_ok 64 e -> gen_ok 64 (next_epoch e).
Proof. intros H. unfold next_epoch. rewrite next_gen_max by lia. by apply next_gen_ok. Qed.

Lemma restarts_ok n : fits 8 n -> fits 8 (saturating_add 8 n 1).
Proof. unfold fits, saturating_add. lia. Qed.

(** ** Preservation *)

Definition inv (careful : bool) (r : RuntimeServiceRegistry) : Prop :=
  wf r ∧ (careful = true -> deps_live r).

(** An update of one record that respects its own validity and the other
    records' runtime slots and dependencies. *)
Lemma registry_update_inv c r h s f :
  handle_ok h -> get r h = Some s -> inv c r ->
  record_ok h (f s) ->
  (forall p h' s', ow_runtime_slot (sv_ownership (f s)) = Some p -> handle_ok h' -> get r h' = Some s' ->
     ow_runtime_slot (sv_ownership s') = Some p -> h' = h) ->
  (c = true -> forall d, d ∈ sv_dependencies (f s) -> is_Some (get r d)) ->
  (c = true -> Forall handle_ok (sv_dependencies (f s))) ->
  inv c (with_slots r (modify f (slots r) (Z.to_nat (index h)))).
Proof.
  intros Hh Hs [Hwf Hd] Hok Hex Hdeps Hdok.
  pose proof (fun h' (Hh' : handle_ok h') => get_modify r f h s h' Hh Hh' Hs) as Hget.
  split.
  - split; [apply slots_wf_modify, Hwf|apply Hwf| |].
    + intros h' s' Hh'. rewrite Hget by done. case_decide; intros; simplify_eq; [done|by apply Hwf].
    + intros h1 h2 s1 s2 p H1 H2. rewrite !Hget by done.
      destruct (decide (h1 = h)) as [->|], (decide (h2 = h)) as [->|]; intros; simplify_eq; [done|..].
      * symmetry. by eapply Hex.
      * by eapply Hex.
      * by eapply (wf_exclusive r Hwf).
  - intros Hc h' s' d Hh'. rewrite Hget by done. intros Hs' Hin.
    specialize (Hd Hc). specialize (Hdeps Hc). specialize (Hdok Hc).
    assert (Hlive : handle_ok d ∧ is_Some (get r d)).
    { case_decide; simplify_eq.
      - split; [|by apply Hdeps]. exact (Forall_elem _ _ d Hdok Hin).
      - split; [|by eapply (Hd h')].
        exact (Forall_elem _ _ d (ok_deps _ _ (wf_record r Hwf h' s' Hh' Hs')) Hin). }
    destruct Hlive as [Hdo Hlive]. rewrite Hget by done. clear Hs'. case_decide; [|done]. exists (f s). reflexivity.
Qed.

(** What most setters do: they leave the handle, the dependencies and the
    runtime slot alone. *)
Record benign (f : ServiceRecord -> ServiceRecord) : Prop := {
  benign_ok : forall h s, record_ok h s -> record_ok h (f s);
  benign_deps : forall s, sv_dependencies (f s) = sv_dependencies s;
  benign_slot : forall s p, ow_runtime_slot (sv_ownership (f s)) = Some p ->
    ow_runtime_slot (sv_ownership s) = Some p
}.

Lemma inv_benign c r h f :
  handle_ok h -> benign f -> inv c r -> inv c (service_mut r h f).1.
Proof.
  intros Hh [Hok Hdeps Hslot] [Hwf Hd]. rewrite service_mut_eq.
  destruct (get r h) as [s|] eqn:Hs; [|done].
  eapply registry_update_inv; try done.
  - by apply Hok, (wf_record r Hwf).
  - intros p h' s' Hp Hh' Hs' Hp'. by eapply (wf_exclusive r Hwf); eauto.
  - intros Hc d. rewrite Hdeps. by apply (Hd Hc h).
  - rewrite Hdeps. intros _. by apply (wf_record r Hwf h).
Qed.

Ltac benign :=
  split; [intros h s []; split; cbn; auto using next_epoch_ok, restarts_ok
         |intros []; reflexivity || (unfold mark_stopping; cbn; by case_bool_decide)
         |intros s p; cbn; try done].

Lemma benign_state st : benign (with_state st).
Proof. benign. Qed.
Lemma benign_restarted : benign restarted.
Proof. benign. Qed.
Lemma benign_rights rights : benign (with_rights rights).
Proof. benign. Qed.
Lemma benign_source src : benign (with_source src).
Proof. benign. Qed.
Lemma benign_image image : image <> [] -> benign (with_image image).
Proof. intros Hi. benign. Qed.
Lemma benign_stop : benign (fun s => with_epoch (next_epoch (sv_epoch s)) (with_state Stopped s)).
Proof. benign. Qed.
Lemma benign_mark : benign (fun s => if bool_decide (sv_state s = Running) then with_state Stopping s else s).
Proof.
  destruct (benign_state Stopping) as [H1 H2 H3].
  split; intros; destruct (bool_decide _); auto.
Qed.
Lemma benign_ownership f :
  (forall o p, ow_runtime_slot (f o) = Some p -> ow_runtime_slot o = Some p) -> benign (with_ownership f).
Proof. intros Hf. benign. apply Hf. Qed.

Create HintDb services.
#[export] Hint Resolve inv_benign benign_state benign_restarted benign_rights benign_source benign_image
  benign_stop benign_mark benign_ownership : services.

(** A table that resolves every handle as before. *)
Lemma inv_same c r sl :
  slots_wf sl -> (forall h : ServiceHandle, handle_ok h -> slot_get sl h = get r h) ->
  inv c r -> inv c (with_slots r sl).
Proof.
  intros Hswf Hget [Hwf Hd]. unfold get in Hget. split.
  - split; [done|apply Hwf|..]; unfold get; cbn [with_slots slots].
    + intros h s Hh. rewrite Hget by done. by apply Hwf.
    + intros h h' s s' p Hh Hh'. rewrite !Hget by done. by apply Hwf.
  - intros Hc h s d Hh. unfold get; cbn [with_slots slots]. rewrite Hget by done. intros Hs Hin.
    rewrite Hget; [by eapply Hd|]. exact (Forall_elem _ _ d (ok_deps _ _ (wf_record r Hwf h s Hh Hs)) Hin).
Qed.

(** A table with one more record, or with a record moved from [h0] to [h]. *)
Lemma inv_moved c r sl (h0 h : ServiceHandle) s :
  slots_wf sl -> handle_ok h -> record_ok h s ->
  (forall h' : ServiceHandle, handle_ok h' ->
     slot_get sl h' = if decide (h' = h) then Some s else if decide (h' = h0) then None else get r h') ->
  (forall p h' s', ow_runtime_slot (sv_ownership s) = Some p -> handle_ok h' -> get r h' = Some s' ->
     ow_runtime_slot (sv_ownership s') = Some p -> h' = h0) ->
  (c = true -> no_dependents r h0 ∧ forall d, d ∈ sv_dependencies s -> d <> h0 ∧ is_Some (get r d)) ->
  inv c r -> inv c (with_slots r sl).
Proof.
  intros Hswf Hh Hok Hget Hex Hdeps [Hwf Hd]. split.
  - split; [done|apply Hwf|..]; unfold get; cbn [with_slots slots].
    + intros h' s' Hh'. rewrite Hget by done. repeat case_decide; intros; simplify_eq; [done|by apply Hwf].
    + intros h1 h2 s1 s2 p H1 H2. rewrite !Hget by done.
      destruct (decide (h1 = h)) as [->|], (decide (h2 = h)) as [->|]; intros; simplify_eq; [done|..];
        repeat case_decide; simplify_eq.
      * exfalso. eauto.
      * exfalso. eauto.
      * by eapply (wf_exclusive r Hwf).
  - intros Hc h' s' d Hh'. unfold get; cbn [with_slots slots]. rewrite Hget by done. intros Hs' Hin.
    destruct (Hdeps Hc) as [Hno Hlive]. specialize (Hd Hc).
    assert (handle_ok d ∧ d <> h0 ∧ is_Some (get r d)) as (Hdo & Hne & [sd Hsd]).
    { repeat case_decide; simplify_eq.
      - split; [exact (Forall_elem _ _ d (ok_deps _ _ Hok) Hin)|by apply Hlive].
      - split; [exact (Forall_elem _ _ d (ok_deps _ _ (wf_record r Hwf h' s' Hh' Hs')) Hin)|].
        split; [|by eapply (Hd h')]. intros ->. by apply (Hno h' s'). }
    rewrite Hget by done. rewrite (decide_False (P := d = h0)) by done. rewrite Hsd.
    destruct (decide (d = h)); [by exists s|by exists sd].
Qed.

Lemma existsb_stale r (deps : list ServiceHandle) :
  existsb (fun d => negb (is_ok (service r d))) deps = false ->
  forall d, d ∈ deps -> is_Some (get r d).
Proof.
  intros H d Hd. apply is_ok_service. destruct (is_ok (service r d)) eqn:E; [done|].
  exfalso. apply (not_true_iff_false _) in H. apply H, existsb_exists.
  exists d. split; [by apply list_elem_of_In|by rewrite E].
Qed.

Lemma inv_register c reserve r name image deps quota src :
  room r -> Forall handle_ok deps -> inv c r ->
  inv c (register_with_source reserve r name image deps quota src).1.
Proof.
  intros Hroom Hdok Hinv. pose proof Hinv as [Hwf Hd]. unfold register_with_source.
  destruct (bool_decide (name = []) || _) eqn:Hname; [done|].
  destruct (bool_decide (image = []) || _) eqn:Himage; [done|].
  destruct (existsb _ _) eqn:Hdeps; [done|]. unfold allocate_slot.
  destruct (allocate _ _ _) as [[sl i]|] eqn:Ha; [|done]. cbn [fst snd slots with_slots].
  set (s := fun h => mk_service h name image deps Stopped 1 0 quota rights_NONE src ownership_EMPTY).
  destruct (create_spec (k := KService) _ _ _ sl i (s EMPTY) (wf_slots r Hwf) (wf_seed r Hwf) Hroom Ha)
    as (h & Hn & _). rewrite Hn.
  destruct (create_spec (k := KService) _ _ _ sl i (s h) (wf_slots r Hwf) (wf_seed r Hwf) Hroom Ha)
    as (h' & Hn' & Hh & _ & Hswf & Hnone & Hget).
  assert (h' = h) as -> by congruence.
  destruct (allocate_spec _ _ _ _ _ Ha) as (_ & _ & Hat).
  destruct (allocate_wf _ _ _ _ _ (wf_slots r Hwf) (wf_seed r Hwf) Hroom Ha) as (Hswf' & _).
  destruct (_ && _); cbn [fst].
  - fold (s h). change (with_slots (with_slots r sl) (fill sl i (s h))) with (with_slots r (fill sl i (s h))).
    boolprop. destruct (Nat.ltb_spec MAX_SERVICE_NAME_BYTES (length name)); [done|].
    apply (inv_moved c r _ h h (s h)); try done.
    + split; cbn; try done; [|unfold gen_ok, fits; lia..]. destruct name; [done|simpl in *; lia].
    + intros h' Hh'. rewrite Hget by done. repeat case_decide; done.
    + intros Hc. split.
      * intros h' s' Hh' Hs' Hin. destruct (Hd Hc h' s' h Hh' Hs' Hin) as [? Hl].
        unfold get in Hl. congruence.
      * intros d Hin. pose proof (existsb_stale _ _ Hdeps d Hin) as Hl. split; [|done].
        intros ->. destruct Hl as [? Hl]. unfold get in Hl. congruence.
  - apply inv_same; [done| |done]. intros h' _. unfold get. rewrite !slot_get_at. apply Hat.
Qed.

Lemma inv_set_dependencies c reserve r h deps :
  handle_ok h -> Forall handle_ok deps -> inv c r -> inv c (set_dependencies reserve r h deps).1.
Proof.
  intros Hh Hdok Hinv. pose proof Hinv as [Hwf Hd]. unfold set_dependencies.
  destruct (existsb _ _) eqn:Hdeps; [done|]. destruct (service r h) as [s|] eqn:Hs; [|done].
  destruct reserve; [|done]. apply service_Ok in Hs. rewrite service_mut_eq, Hs.
  pose proof (wf_record r Hwf h s Hh Hs) as [].
  eapply registry_update_inv; try done.
  - intros p h' s' Hp Hh' Hs' Hp'. by eapply (wf_exclusive r Hwf); eauto.
  - intros _. by apply existsb_stale.
Qed.

Lemma get_index r h i : service_index r h = Ok i -> exists s, get r h = Some s ∧ i = Z.to_nat (index h).
Proof.
  unfold service_index, get. rewrite slot_index_get. destruct (slot_get (slots r) h); simpl; [|done].
  intros [= <-]. eauto.
Qed.

Lemma inv_stop c r h : handle_ok h -> inv c r -> inv c (stop r h).1.
Proof.
  intros Hh Hinv. unfold stop. destruct (service_index r h) as [i|] eqn:Hi; [|done].
  destruct (get_index _ _ _ Hi) as (s & Hs & ->). case_match; [done|].
  pose proof (inv_benign c r h _ Hh benign_stop Hinv) as H'. by rewrite service_mut_eq, Hs in H'.
Qed.

Lemma existsb_dependents r h :
  wf r -> existsb (fun s => contains (sv_dependencies s) h) (services r) = false -> no_dependents r h.
Proof.
  intros Hwf H h' s Hh' Hs Hin. apply not_true_iff_false in H. apply H, existsb_exists.
  exists s. split; [|by apply bool_decide_eq_true_2].
  apply list_elem_of_In, elem_of_services; [done|]. by rewrite (ok_handle _ _ (wf_record r Hwf h' s Hh' Hs)).
Qed.

Lemma inv_remove c r h : handle_ok h -> inv c r -> inv c (remove r h).1.
Proof.
  intros Hh Hinv. pose proof Hinv as [Hwf Hd]. unfold remove.
  destruct (service_index r h) as [i|] eqn:Hi; [|done].
  destruct (get_index _ _ _ Hi) as (s & Hs & ->). destruct (existsb _ _) eqn:Hdep; [done|].
  pose proof (existsb_dependents r h Hwf Hdep) as Hno. cbn [fst].
  pose proof (fun h' (Hh' : handle_ok h') => slot_get_vacate _ h s h' Hh Hh' Hs) as Hget.
  split.
  - split; [apply slots_wf_vacate, Hwf|apply Hwf|..]; unfold get; cbn [with_slots slots].
    + intros h' s' Hh'. rewrite Hget by done. case_decide; [done|by apply Hwf].
    + intros h1 h2 s1 s2 p H1 H2. rewrite !Hget by done. repeat case_decide; try done. by apply Hwf.
  - intros Hc h' s' d Hh'. unfold get; cbn [with_slots slots]. rewrite Hget by done.
    case_decide; [done|]. intros Hs' Hin. rewrite Hget.
    + rewrite decide_False; [by eapply Hd|]. intros ->. by apply (Hno h' s').
    + exact (Forall_elem _ _ d (ok_deps _ _ (wf_record r Hwf h' s' Hh' Hs')) Hin).
Qed.

(** A slot whose record moved to a new generation: the old handle is stale and
    the new one, stale before, resolves to the record. *)
Lemma slot_get_reissue (sl : list (slot ServiceRecord)) (h h2 : ServiceHandle) s s2 :
  handle_ok h -> handle_ok h2 -> slot_get sl h = Some s ->
  index h2 = index h -> generation h2 <> generation h ->
  slot_get sl h2 = None ∧
  forall x : ServiceHandle, handle_ok x ->
    slot_get (<[Z.to_nat (index h) := mk_slot (generation h2) (Some s2)]> sl) x =
    if decide (x = h2) then Some s2 else if decide (x = h) then None else slot_get sl x.
Proof.
  intros Hh Hh2 Hs Hix Hgn. apply slot_get_Some in Hs as (s0 & Hs0 & Hg & Hv).
  assert (Hlt := lookup_lt_Some _ _ _ Hs0). split.
  - rewrite slot_get_at, Hix. unfold at_slot. rewrite Hs0. case_match; boolprop; congruence.
  - intros x Hx. rewrite !slot_get_at. unfold at_slot.
    destruct (decide (Z.to_nat (index x) = Z.to_nat (index h))) as [E|E].
    + rewrite E, list_lookup_insert_eq, Hs0 by done. cbn [slot_generation slot_value].
      destruct (decide (x = h2)) as [->|Hne]; [by rewrite Z.eqb_refl|].
      destruct (Z.eqb_spec (generation h2) (generation x)) as [E2|_].
      { exfalso. apply Hne, same_slot; congruence. }
      destruct (decide (x = h)) as [->|Hne']; [done|].
      destruct (Z.eqb_spec (slot_generation s0) (generation x)) as [E2|_]; [|done].
      exfalso. apply Hne', same_slot; congruence.
    + rewrite list_lookup_insert_ne by congruence.
      rewrite !decide_False; [done|intros ->; congruence..].
Qed.

Lemma next_generation_ok g : gen_ok 32 g -> gen_ok 32 (next_generation g) ∧ next_generation g <> g.
Proof.
  intros Hg. rewrite slot_next_generation. split; [by apply next_gen_ok|].
  by apply (iter_next_gen_fresh 32 g 1).
Qed.

(** How handles resolve after the generation of a slot was replaced. *)
Lemma replace_generation_spec r h r' h' :
  wf r -> handle_ok h -> replace_generation r h = (r', Ok h') ->
  exists s, get r h = Some s ∧ sv_state s = Stopped ∧ handle_ok h' ∧ h' <> h ∧ get r h' = None ∧
    slots_wf (slots r') ∧ r' = with_slots r (slots r') ∧
    forall x : ServiceHandle, handle_ok x ->
      get r' x =
      if decide (x = h')
      then Some (with_restarts (saturating_add 8 (sv_restarts s) 1)
                  (with_epoch (next_epoch (sv_epoch s)) (with_handle s h')))
      else if decide (x = h) then None else get r x.
Proof.
  intros Hwf Hh. unfold replace_generation.
  destruct (service_index r h) as [i|] eqn:Hi; [|done]. destruct (get_index _ _ _ Hi) as (s & Hs & ->).
  change (slot_get (slots r) h) with (get r h). rewrite Hs.
  pose proof Hs as Hsl. apply slot_get_Some in Hsl as (sl & Hsl & Hg & Hv).
  destruct (wf_slots r Hwf) as [Hf Hl].
  assert (Hgat : generation_at (slots r) (Z.to_nat (index h)) = generation h).
  { unfold generation_at. by rewrite Hsl. }
  assert (Hgen : gen_ok 32 (generation h)).
  { rewrite <- Hg. exact (Forall_lookup_1 _ _ _ _ Hf Hsl). }
  destruct (next_generation_ok _ Hgen) as [Hg' Hgne].
  pose proof (index_nonneg h). assert (Hfit : fits 32 (index h)) by (apply wrap_fits; lia).
  rewrite Hgat, Z2Nat.id, wrap_small by done.
  destruct (handle_new_spec KService _ _ Hfit Hg') as (h2 & Hn & Hix & Hgn & _). rewrite Hn.
  destruct (negb _) eqn:Hst; [done|]. intros [= <- <-]. boolprop.
  assert (Hh2 : handle_ok h2).
  { eapply handle_new_ok; [exact Hfit| |exact Hn]. unfold gen_ok, fits in *. lia. }
  exists s. rewrite <- Hgn.
  match goal with |- context [mk_slot (generation h2) (Some ?v)] =>
    destruct (slot_get_reissue (slots r) h h2 s v Hh Hh2 Hs Hix ltac:(congruence)) as [Hnone Hget] end.
  do 3 (split; [done|]). split; [congruence|]. split; [done|]. split; [|split; [done|exact Hget]].
  cbn [with_slots slots]. split; [|by rewrite length_insert].
  apply Forall_insert; [done|]. cbn [slot_generation]. by rewrite Hgn.
Qed.

Lemma inv_replace c r h :
  handle_ok h -> (c = true -> no_dependents r h) -> inv c r -> inv c (replace_generation r h).1.
Proof.
  intros Hh Hno Hinv. pose proof Hinv as [Hwf Hd].
  destruct (replace_generation r h) as [r' [h'|e]] eqn:E; cbn [fst].
  - destruct (replace_generation_spec r h r' h' Hwf Hh E)
      as (s & Hs & Hst & Hh' & Hne & Hnone & Hswf & -> & Hget).
    destruct (wf_record r Hwf h s Hh Hs).
    eapply (inv_moved c r (slots r') h h'); [done..| |exact Hget| | |done].
    + split; try done; [by apply next_epoch_ok|by apply restarts_ok].
    + intros p x sx Hp Hx Hsx Hpx. by eapply (wf_exclusive r Hwf); eauto.
    + intros Hc. split; [by apply Hno|]. intros d Hin. cbn in Hin. split.
      * intros ->. by apply (Hno Hc h s).
      * by eapply (Hd Hc h).
  - unfold replace_generation in E. repeat (case_match; simplify_eq/=); done.
Qed.

Lemma inv_set_image c reserve r h image : handle_ok h -> inv c r -> inv c (set_image reserve r h image).1.
Proof.
  intros Hh Hinv. unfold set_image. case_bool_decide; [done|].
  destruct (service r h); [|done]. destruct reserve; [|done]. auto with services.
Qed.

Lemma inv_bind c r h sl : handle_ok h -> inv c r -> inv c (bind_runtime_slot r h sl).1.
Proof.
  intros Hh Hinv. pose proof Hinv as [Hwf Hd]. unfold bind_runtime_slot.
  destruct (existsb _ _) eqn:Hex; [done|]. rewrite service_mut_eq.
  destruct (get r h) as [s|] eqn:Hs; [|done]. destruct (wf_record r Hwf h s Hh Hs).
  apply (registry_update_inv c r h s); try done.
  - cbn. intros p h' s' [= <-] Hh' Hs' Hp. apply not_true_iff_false in Hex.
    destruct (decide (h' = h)) as [|Hne]; [done|]. exfalso. apply Hex, existsb_exists.
    exists s'. pose proof (ok_handle _ _ (wf_record r Hwf h' s' Hh' Hs')) as Hsh.
    split; [apply list_elem_of_In, elem_of_services; [done|]; by rewrite Hsh|].
    rewrite Hsh, bool_decide_eq_false_2 by done. by rewrite bool_decide_eq_true_2.
  - intros Hc d Hin. exact (Hd Hc h s d Hh Hs Hin).
Qed.

Lemma inv_apply c order : forall r,
  Forall handle_ok order -> inv c r -> inv c (apply_start_order r order).1.
Proof.
  induction order as [|h order IH]; intros r Hok Hinv; [done|].
  apply Forall_cons_1 in Hok as [Hh Hok]. cbn [apply_start_order].
  pose proof (inv_benign c r h _ Hh (benign_state Running) Hinv) as H'.
  destruct (service_mut r h _) as [r' [u|e]]; [by apply IH|done].
Qed.

Lemma inv_stop_members c members : forall r,
  Forall handle_ok members -> inv c r -> inv c (stop_members r members).1.
Proof.
  induction members as [|h members IH]; intros r Hok Hinv; [done|].
  apply Forall_cons_1 in Hok as [Hh Hok]. cbn [stop_members].
  pose proof (inv_benign c r h _ Hh (benign_state Stopping) Hinv) as H'.
  destruct (service_mut r h _) as [r' [u|e]]; [by apply IH|done].
Qed.

Lemma inv_abort_members c members r :
  Forall handle_ok members -> inv c r -> inv c (abort_lifecycle_members r members).1.
Proof.
  intros Hok Hinv. unfold abort_lifecycle_members. destruct (check_stopping r members); [done|].
  cbn [fst]. revert r Hinv. induction Hok as [|h members Hh Hok IH]; intros r Hinv; [done|].
  cbn [foldl]. apply IH. auto with services.
Qed.

(** The loop over the dependencies keeps what each call keeps. *)
Lemma for_dependencies_ind collect (Q : ServiceHandle -> Prop) (P : list ServiceHandle -> Prop) :
  (forall d o o', Q d -> P o -> collect d o = Some (Ok o') -> P o') ->
  forall deps o o', Forall Q deps -> P o -> for_dependencies collect deps o = Some (Ok o') -> P o'.
Proof.
  intros Hc. induction deps as [|d deps IH]; intros o o' Hd Ho; cbn [for_dependencies].
  - by intros [= <-].
  - apply Forall_cons_1 in Hd as [Hd Hds]. destruct (collect d o) as [[o1|]|] eqn:E; [|done..].
    apply IH; [done|]. by eapply Hc.
Qed.

(** The walks only meet handles of the registry. *)
Lemma collect_ok r : wf r -> forall fuel visiting h order order',
  handle_ok h -> Forall handle_ok order ->
  collect_start_order fuel r visiting h order = Some (Ok order') -> Forall handle_ok order'.
Proof.
  intros Hwf. induction fuel as [|fuel IH]; intros visiting h order order' Hh Hord; [done|].
  cbn [collect_start_order]. destruct (contains visiting h); [done|].
  destruct (service r h) as [s|] eqn:Hs; [|done]. destruct (_ || _); [by intros [= <-]|].
  apply service_Ok in Hs. pose proof (ok_deps _ _ (wf_record r Hwf h s Hh Hs)) as Hdok.
  destruct (for_dependencies _ _ _) as [[o1|]|] eqn:E; [|done..]. intros [= <-].
  apply Forall_app. split; [|by constructor].
  eapply (for_dependencies_ind _ handle_ok (Forall handle_ok)); [|exact Hdok|exact Hord|exact E].
  intros d o o' Hd Ho. by apply IH.
Qed.

Lemma for_dependencies_ok r fuel visiting deps order order' :
  wf r -> Forall handle_ok deps -> Forall handle_ok order ->
  for_dependencies (collect_start_order fuel r visiting) deps order = Some (Ok order') ->
  Forall handle_ok order'.
Proof.
  intros Hwf. apply for_dependencies_ind. intros d o o' Hd Ho. by apply collect_ok.
Qed.

Lemma inv_start c r h out : handle_ok h -> inv c r -> start r h = Some out -> inv c out.1.
Proof.
  intros Hh Hinv. unfold start. destruct (collect_start_order _ _ _ _ _) as [[order|e]|] eqn:E; [| |done].
  - intros [= <-]. apply inv_apply; [|done]. eapply collect_ok; [apply Hinv|done|by constructor|done].
  - by intros [= <-].
Qed.

Lemma inv_restart c r h out : handle_ok h -> inv c r -> restart r h = Some out -> inv c out.1.
Proof.
  intros Hh Hinv. unfold restart. destruct (service r h) as [s|] eqn:Hs; [|by intros [= <-]].
  apply service_Ok in Hs. pose proof (ok_deps _ _ (wf_record r (proj1 Hinv) h s Hh Hs)) as Hdok.
  destruct (for_dependencies _ _ _) as [[order|e]|] eqn:E; [|by intros [= <-]|done]. intros [= <-].
  assert (Forall handle_ok order) as Hord.
  { eapply for_dependencies_ok; [apply Hinv|exact Hdok|by constructor|exact E]. }
  pose proof (inv_apply c order r Hord Hinv) as H'.
  destruct (apply_start_order r order) as [r' [u|e]]; [|done]. cbn [fst] in H'.
  destruct (slots r' !! Z.to_nat (index h)) as [[g [s'|]]|] eqn:Hsl; [|done..]. cbn [fst].
  destruct (live_slot_handle r' _ _ s' (wf_slots _ (proj1 H')) Hsl eq_refl) as (h' & Hh' & Hix & Hget).
  pose proof (inv_benign c r' h' _ Hh' benign_restarted H') as H2. rewrite service_mut_eq, Hget in H2.
  pose proof (index_nonneg h). by rewrite Hix, Nat2Z.id in H2.
Qed.

Lemma swap_remove_perm l i x l' : swap_remove l i = Some (x, l') -> l !! i = Some x ∧ l ≡ₚ x :: l'.
Proof.
  unfold swap_remove. destruct (l !! i) as [y|] eqn:Hy; [|done].
  destruct (l !! (length l - 1)%nat) as [z|] eqn:Hz; [|done]. intros [= <- <-]. split; [done|].
  assert (Hi := lookup_lt_Some _ _ _ Hy).
  destruct l as [|a l _] using rev_ind; [done|]. rewrite length_app in *. simpl in *.
  replace (length l + 1 - 1)%nat with (length l) in * by lia.
  rewrite list_lookup_middle in Hz by done. injection Hz as ->.
  destruct (decide (i = length l)) as [->|].
  - rewrite list_lookup_middle in Hy by done. injection Hy as ->.
    rewrite insert_app_r_alt, take_app_length by lia. apply Permutation_app_comm.
  - rewrite lookup_app_l in Hy by lia. rewrite insert_app_l, take_app_length' by (rewrite ?length_insert; lia).
    rewrite <- (take_drop_middle l i y Hy) at 1.
    rewrite insert_take_drop by lia. solve_Permutation.
Qed.

Lemma closure_pass_Forall (P : ServiceHandle -> Prop) reserve svs : forall included changed included' changed',
  Forall (fun s => P (sv_handle s)) svs -> Forall P included ->
  closure_pass reserve svs included changed = Ok (included', changed') -> Forall P included'.
Proof.
  induction svs as [|s svs IH]; intros included changed included' changed' Hs Hi; cbn [closure_pass].
  - by intros [= <- _].
  - apply Forall_cons_1 in Hs as [Hs Hss]. destruct (_ && _); [destruct (reserve _); [|done]|]; apply IH; try done.
    apply Forall_app. split; [done|by constructor].
Qed.

Lemma closure_loop_Forall (P : ServiceHandle -> Prop) reserve svs : forall fuel included included',
  Forall (fun s => P (sv_handle s)) svs -> Forall P included ->
  closure_loop fuel reserve svs included = Some (Ok included') -> Forall P included'.
Proof.
  induction fuel as [|fuel IH]; intros included included' Hs Hi; cbn [closure_loop]; [done|].
  destruct (closure_pass _ _ _ _) as [[inc [|]]|] eqn:E; [| |done].
  - apply IH; [done|]. by eapply closure_pass_Forall.
  - intros [= <-]. by eapply closure_pass_Forall.
Qed.

(** The order is a permutation of what remained. *)
Lemma order_loop_perm r : forall fuel remaining order order',
  order_loop fuel r remaining order = Some (Ok order') -> order' ≡ₚ order ++ remaining.
Proof.
  induction fuel as [|fuel IH]; intros [|a remaining] order order'; cbn [order_loop]; try done.
  1,2: intros [= <-]; by rewrite app_nil_r.
  set (rem := a :: remaining). destruct (list_find _ rem) as [[i x]|]; [|done].
  destruct (swap_remove rem i) as [[y rem']|] eqn:Hsw; [|done]. intros H.
  apply swap_remove_perm in Hsw as [_ Hp]. rewrite (IH _ _ _ H), Hp. solve_Permutation.
Qed.

Lemma restart_closure_ok reserve r h closure :
  wf r -> handle_ok h -> restart_closure reserve r h = Some (Ok closure) -> Forall handle_ok closure.
Proof.
  intros Hwf Hh. unfold restart_closure. destruct (service r h); [|done].
  destruct (negb _); [done|]. destruct (closure_loop _ _ _ _) as [[included|]|] eqn:E; [|done..].
  destruct (negb _); [done|]. destruct (order_loop _ _ _ _) as [[order|]|] eqn:Eo; [|done..]. intros [= <-].
  apply Forall_reverse. rewrite (order_loop_perm _ _ _ _ _ Eo). simpl.
  eapply closure_loop_Forall; [|by constructor|exact E].
  apply Forall_forall. intros s Hs. apply (elem_of_services r s Hwf). by apply list_elem_of_In.
Qed.

Lemma inv_begin c r op h : handle_ok h -> inv c r -> inv c (begin_lifecycle r op h).1.
Proof.
  intros Hh Hinv. unfold begin_lifecycle. destruct (negb _); [done|].
  destruct op; try done.
  - pose proof (inv_benign c r h _ Hh (benign_state Starting) Hinv). by destruct (service_mut r h _) as [r' [u|e]].
  - pose proof (inv_benign c r h _ Hh (benign_state Stopping) Hinv). by destruct (service_mut r h _) as [r' [u|e]].
  - pose proof (inv_benign c r h _ Hh (benign_state Stopping) Hinv). by destruct (service_mut r h _) as [r' [u|e]].
Qed.

Lemma inv_begin_action c reserve r op h out :
  handle_ok h -> inv c r -> begin_lifecycle_action reserve r op h = Some out -> inv c out.1.
Proof.
  intros Hh Hinv. unfold begin_lifecycle_action. destruct (negb _); [by intros [= <-]|].
  destruct op; try (by intros [= <-]).
  - pose proof (inv_benign c r h _ Hh (benign_state Starting) Hinv). intros [= <-].
    by destruct (service_mut r h _) as [r' [u|e]].
  - pose proof (inv_benign c r h _ Hh (benign_state Stopping) Hinv). intros [= <-].
    by destruct (service_mut r h _) as [r' [u|e]].
  - destruct (restart_closure reserve r h) as [[closure|]|] eqn:E; [|by intros [= <-]|done]. intros [= <-].
    pose proof (inv_stop_members c closure r (restart_closure_ok _ _ _ _ (proj1 Hinv) Hh E) Hinv).
    destruct (stop_members r closure) as [r' [u|e]]; done.
Qed.

Lemma inv_abort c r op h : handle_ok h -> inv c r -> inv c (abort_lifecycle r op h).1.
Proof.
  intros Hh Hinv. unfold abort_lifecycle. destruct (service r h) as [s|]; [|done].
  destruct op; try done; (destruct (negb _); [done|cbn [fst]; auto with services]).
Qed.

(** The setters of one ownership field. *)
Lemma inv_ownership c r h f :
  handle_ok h -> (forall o p, ow_runtime_slot (f o) = Some p -> ow_runtime_slot o = Some p) -> inv c r ->
  inv c (service_mut r h (with_ownership f)).1.
Proof. auto with services. Qed.

Lemma registry_step_inv c r r' : service_step c r r' -> inv c r -> inv c r'.
Proof.
  intros Hstep Hinv. destruct Hstep.
  all: try (apply inv_benign; [done|solve [auto with services]|done]).
  all: try (apply inv_ownership; [done|done|done]).
  - by apply inv_register.
  - by apply inv_set_dependencies.
  - by eapply inv_start.
  - by eapply inv_restart.
  - by apply inv_stop.
  - by apply inv_remove.
  - by apply inv_replace.
  - by apply inv_set_image.
  - unfold set_runtime_ownership. case_match; [done|]. by apply inv_ownership.
  - by apply inv_bind.
  - unfold set_heap_pages. case_match; [done|]. by apply inv_ownership.
  - by apply inv_begin.
  - by eapply inv_begin_action.
  - by apply inv_abort.
  - by apply inv_abort_members.
Qed.

Lemma inv_new c g : fits 32 g -> inv c (new_with_generation g).
Proof.
  intros Hg. split.
  - split; cbn; [by split; [constructor|]|unfold gen_ok, fits in *; lia|..].
    + intros h s _. unfold get. cbn. rewrite slot_get_at. done.
    + intros h h' s s' p _ _. unfold get. cbn. rewrite slot_get_at. done.
  - intros _ h s d _. unfold get. cbn. rewrite slot_get_at. done.
Qed.

Lemma inv_reachable c g r : fits 32 g -> rtc (service_step c) (new_with_generation g) r -> inv c r.
Proof.
  intros Hg Hr. pose proof (inv_new c g Hg) as H0. induction Hr as [|r1 r2 r3 Hs _ IH]; [done|].
  apply IH. by eapply registry_step_inv.
Qed.

(** C32: in every registry reachable from boot through its methods, while the
    table has fewer than 2^32 slots, each live
    record is stored under its own handle with a listable name, an image, a
    quota and a nonzero epoch, no two services are bound to the same runtime
    slot, and, unless a caller replaced the generation of a service that others
    depend on, every dependency of a live service is live. *)
Theorem services_reachable_wf c g r :
  fits 32 g -> rtc (service_step c) (new_with_generation g) r ->
  wf r ∧ (c = true -> deps_live r).
Proof. apply inv_reachable. Qed.

(** ** An example

    A storage service, a session service that depends on it and a shell that
    depends on the session. *)

Module Example.

Definition memory (_ : nat) : bool := true.

Definition ha : ServiceHandle := mk_handle (2 ^ 32).
Definition hb : ServiceHandle := mk_handle (2 ^ 32 + 1).
Definition hc : ServiceHandle := mk_handle (2 ^ 32 + 2).

Definition one : RuntimeServiceRegistry := (register memory new [97] [1] []).1.
Definition two : RuntimeServiceRegistry := (register memory one [98] [1] [ha]).1.
Definition three : RuntimeServiceRegistry := (register memory two [99] [1] [hb]).1.

(** All three running. *)
Definition up : RuntimeServiceRegistry := match start three hc with Some (r, _) => r | None => three end.

End Example.

Lemma handle_ok_dec (h : ServiceHandle) : (0 <=? raw h) && (raw h <? 2 ^ 64) = true -> handle_ok h.
Proof. unfold handle_ok, fits. intros H. boolprop. lia. Qed.

Lemma example_three c : rtc (service_step c) (new_with_generation 1) Example.three.
Proof.
  eapply rtc_l; [apply (step_register c new Example.memory [97] [1] [] SERVICE_HEAP_MAX_PAGES Builtin);
    [vm_compute; done|by constructor]|].
  eapply rtc_l; [apply (step_register c Example.one Example.memory [98] [1] [Example.ha] SERVICE_HEAP_MAX_PAGES Builtin);
    [vm_compute; done|repeat constructor; by vm_compute]|].
  eapply rtc_l; [apply (step_register c Example.two Example.memory [99] [1] [Example.hb] SERVICE_HEAP_MAX_PAGES Builtin);
    [vm_compute; done|repeat constructor; by vm_compute]|].
  apply rtc_refl.
Qed.

Lemma example_up c : rtc (service_step c) (new_with_generation 1) Example.up.
Proof.
  eapply rtc_r; [apply example_three|].
  apply (step_start c Example.three Example.hc (Example.up, Ok tt)); [by apply handle_ok_dec|by vm_compute].
Qed.

Lemma example_seed : fits 32 1.
Proof. unfold fits. lia. Qed.

Lemma services_example_wf : wf Example.three ∧ wf Example.up.
Proof. split; apply (inv_reachable true 1 _ example_seed); [apply example_three|apply example_up]. Qed.

Lemma services_reachable_wf_witness :
  wf Example.up ∧ (true = true -> deps_live Example.up).
Proof.
  apply (services_reachable_wf true 1 Example.up); [apply example_seed|apply example_up].
Defined.
