(* ===== verification/ServiceOrder.v ===== *)
(** * What the dependency walks of the service registry compute

    [collect_start_order] and [restart_closure] of
    [src/src/runtime_services.rs] walk the dependency graph of the registered
    services.  This file relates them to the graph: the fuel of the model is
    never used up, a start brings up exactly the services the target needs and
    fails exactly on a stale or circular need, and a restart stops exactly the
    running services that depend on the target, dependents first. *)

From Stdlib Require Import ZArith Lia.
From stdpp Require Import relations.
From stdpp Require Import base list option numbers finite.
From S2P Require Import Prelude Slots Directory Manager Services.

#[local] Open Scope Z_scope.
#[local] Set Warnings "-clear-no-such-hyp".

(** ** The graph *)

Definition running (r : RuntimeServiceRegistry) (h : ServiceHandle) : Prop :=
  exists s, get r h = Some s ∧ sv_state s = Running.

(** [x] is not running yet and depends on [y]. *)
Definition needs (r : RuntimeServiceRegistry) (x y : ServiceHandle) : Prop :=
  exists s, get r x = Some s ∧ sv_state s <> Running ∧ y ∈ sv_dependencies s.

(** [y] is a running service that depends on [x]. *)
Definition drags (r : RuntimeServiceRegistry) (x y : ServiceHandle) : Prop :=
  exists s, handle_ok y ∧ get r y = Some s ∧ sv_state s = Running ∧ x ∈ sv_dependencies s.

(** [x] depends on [y]. *)
Definition depends (r : RuntimeServiceRegistry) (x y : ServiceHandle) : Prop :=
  exists s, get r x = Some s ∧ y ∈ sv_dependencies s.

(** ** Counting live handles *)

Lemma live_handles_bound r (l : list ServiceHandle) :
  NoDup l -> Forall (fun h => handle_ok h ∧ is_Some (get r h)) l -> (length l <= length (slots r))%nat.
Proof.
  intros Hnd Hl. pose (f := fun h : ServiceHandle => Z.to_nat (index h)).
  rewrite <- (length_fmap f l), <- (length_seq (length (slots r)) 0).
  apply submseteq_length, NoDup_submseteq.
  - apply NoDup_fmap_2_strong; [|done]. intros x y Hx Hy Hf.
    apply (Forall_elem _ _ _ Hl) in Hx as [Hx [sx Hsx]]. apply (Forall_elem _ _ _ Hl) in Hy as [Hy [sy Hsy]].
    apply slot_get_Some in Hsx as (s1 & H1 & Hg1 & _), Hsy as (s2 & H2 & Hg2 & _).
    unfold f in Hf. rewrite Hf in H1. apply same_slot; [done..|]. congruence.
  - intros i (h & -> & Hh)%list_elem_of_fmap. apply (Forall_elem _ _ _ Hl) in Hh as [_ [s Hs]].
    apply slot_get_Some in Hs as (sl & Hsl & _). apply elem_of_seq. apply lookup_lt_Some in Hsl. unfold f. lia.
Qed.

(** ** Start *)

(** Every service of the list comes after the services it needs. *)
Inductive start_order (r : RuntimeServiceRegistry) : list ServiceHandle -> Prop :=
| order_nil : start_order r []
| order_snoc l h s :
    start_order r l -> handle_ok h -> get r h = Some s -> sv_state s <> Running ->
    (forall d, d ∈ sv_dependencies s -> d ∈ l ∨ running r d) ->
    start_order r (l ++ [h]).

Section collect.
Context (r : RuntimeServiceRegistry) (Hwf : wf r).

(** What a walk from any of the handles in [from] answers. *)
Definition collect_post (from order : list ServiceHandle)
    (out : option (result (list ServiceHandle) ServiceRegistryError)) : Prop :=
  match out with
  | Some (Ok order') =>
      exists ext, order' = order ++ ext ∧ start_order r order' ∧
        Forall (fun h => h ∈ order' ∨ running r h) from ∧
        Forall (fun x => exists h, h ∈ from ∧ rtc (needs r) h x) ext
  | Some (Err Stale) => exists h y, h ∈ from ∧ rtc (needs r) h y ∧ get r y = None
  | Some (Err DependencyCycle) => exists h y, h ∈ from ∧ rtc (needs r) h y ∧ tc (needs r) y y
  | _ => False
  end.

(** The loop over the dependencies composes the walks it makes. *)
Lemma for_dependencies_post collect deps : forall order,
  start_order r order ->
  (forall d o, d ∈ deps -> start_order r o -> collect_post [d] o (collect d o)) ->
  collect_post deps order (for_dependencies collect deps order).
Proof.
  induction deps as [|d deps IH]; intros order Hord Hc; cbn [for_dependencies].
  - exists []. rewrite app_nil_r. repeat split; auto.
  - pose proof (Hc d order ltac:(set_solver) Hord) as Hd.
    destruct (collect d order) as [[o|[]]|] eqn:E; cbn in Hd; try done.
    + destruct Hd as (ext & -> & Hord' & Hdo & Hext).
      pose proof (IH (order ++ ext) Hord' ltac:(intros; apply Hc; set_solver)) as Hrest.
      destruct (for_dependencies _ _ _) as [[o'|[]]|]; cbn in *; try done.
      * destruct Hrest as (ext' & -> & Hord2 & Hdeps & Hext').
        exists (ext ++ ext'). rewrite app_assoc. split; [done|]. split; [done|]. split.
        -- constructor; [|done]. apply Forall_cons_1 in Hdo as [[Hin|Hr] _]; [left|by right]. set_solver.
        -- apply Forall_app. split; (eapply Forall_impl; [eassumption|]); set_solver.
      * set_solver.
      * set_solver.
    + set_solver.
    + set_solver.
Qed.

Lemma collect_spec fuel : forall visiting h order,
  handle_ok h -> NoDup visiting -> Forall (fun v => handle_ok v ∧ is_Some (get r v)) visiting ->
  (forall v, v ∈ visiting -> tc (needs r) v h) ->
  (S (length (slots r)) <= fuel + length visiting)%nat -> start_order r order ->
  collect_post [h] order (collect_start_order fuel r visiting h order).
Proof.
  induction fuel as [|fuel IH]; intros visiting h order Hh Hnd Hvis Htc Hfuel Hord.
  { pose proof (live_handles_bound r visiting Hnd Hvis). cbn in Hfuel. unfold ServiceHandle in *. lia. }
  cbn [collect_start_order]. unfold contains at 1. case_bool_decide as Hin.
  { exists h, h. repeat split; [set_solver|done|by apply Htc]. }
  destruct (service r h) as [s|e] eqn:Hs.
  2: { apply service_Err in Hs as [Hs ->]. exists h, h. repeat split; [set_solver|done|done]. }
  apply service_Ok in Hs. pose proof (ok_deps _ _ (wf_record r Hwf h s Hh Hs)) as Hdok.
  unfold contains. case_bool_decide as Hrun; cbn [orb].
  { exists []. rewrite app_nil_r. repeat split; [done| |done]. constructor; [|done]. right. by exists s. }
  case_bool_decide as Ho.
  { exists []. rewrite app_nil_r. repeat split; [done| |done]. constructor; [by left|done]. }
  assert (Hedge : forall d, d ∈ sv_dependencies s -> needs r h d) by (intros d Hd; by exists s).
  assert (Hdeps : collect_post (sv_dependencies s) order
    (for_dependencies (collect_start_order fuel r (visiting ++ [h])) (sv_dependencies s) order)).
  { apply for_dependencies_post; [done|]. intros d o Hd Hord'. apply IH; try done.
    - exact (Forall_elem _ _ d Hdok Hd).
    - apply NoDup_app. split; [done|]. split; [set_solver|apply NoDup_singleton].
    - apply Forall_app. split; [done|]. constructor; [|done]. split; [done|by eexists].
    - intros v [Hv| ->%list_elem_of_singleton]%elem_of_app.
      + eapply tc_r; [by apply Htc|by apply Hedge].
      + apply tc_once. by apply Hedge.
    - rewrite length_app. simpl. lia. }
  destruct (for_dependencies _ _ _) as [[o|[]]|]; cbn in Hdeps |- *; try done.
  - destruct Hdeps as (ext & -> & Hord' & Hall & Hext).
    exists (ext ++ [h]). rewrite app_assoc. split; [done|]. split.
    { econstructor; [done|done|exact Hs|done|]. intros d Hd. exact (Forall_elem _ _ d Hall Hd). }
    split; [constructor; [left; set_solver|done]|].
    apply Forall_app. split; [|constructor; [|done]].
    + eapply Forall_impl; [exact Hext|]. cbn. intros x (d & Hd & Hx). exists h. split; [set_solver|].
      eapply rtc_l; [by apply Hedge|done].
    + exists h. split; [set_solver|done].
  - destruct Hdeps as (d & y & Hd & Hy & Hst). exists h, y. split; [set_solver|].
    split; [|done]. eapply rtc_l; [by apply Hedge|done].
  - destruct Hdeps as (d & y & Hd & Hy & Hcy). exists h, y. split; [set_solver|].
    split; [|done]. eapply rtc_l; [by apply Hedge|done].
Qed.

End collect.

Lemma start_order_live r l : start_order r l -> Forall (fun h => handle_ok h ∧ is_Some (get r h)) l.
Proof.
  induction 1 as [|l h s _ IH Hh Hs _ _]; [done|]. apply Forall_app. split; [done|].
  constructor; [|done]. split; [done|by eexists].
Qed.

(** The order is closed: following the needs of a member leads to a member or
    to a running service. *)
Lemma start_order_closed r l : start_order r l ->
  forall x y, x ∈ l -> needs r x y -> y ∈ l ∨ running r y.
Proof.
  induction 1 as [|l h s _ IH Hh Hs Hn Hdeps]; intros x y Hx Hxy; [by apply not_elem_of_nil in Hx|].
  apply elem_of_app in Hx as [Hx| ->%list_elem_of_singleton].
  - destruct (IH x y Hx Hxy); [left|by right]. apply elem_of_app. by left.
  - destruct Hxy as (s' & Hs' & _ & Hy). assert (s' = s) as -> by congruence.
    destruct (Hdeps y Hy); [left|by right]. apply elem_of_app. by left.
Qed.

Lemma running_needs_nothing r x y : running r x -> ~ needs r x y.
Proof. intros (s & Hs & Hr) (s' & Hs' & Hn & _). congruence. Qed.

Lemma start_order_acc r l : start_order r l -> forall x, x ∈ l -> Acc (flip (needs r)) x.
Proof.
  induction 1 as [|l h s _ IH Hh Hs Hn Hdeps]; intros x Hx; [by apply not_elem_of_nil in Hx|].
  apply elem_of_app in Hx as [Hx| ->%list_elem_of_singleton]; [by apply IH|].
  constructor. intros y (s' & Hs' & _ & Hy). assert (s' = s) as -> by congruence.
  destruct (Hdeps y Hy) as [Hl|Hr]; [by apply IH|].
  constructor. intros z Hz. by destruct (running_needs_nothing r y z).
Qed.

Lemma acc_no_cycle {A} (R : relation A) x : Acc (flip R) x -> ~ tc R x x.
Proof.
  induction 1 as [x _ IH]. intros Hc. inversion Hc as [? ? Hxx|? y ? Hxy Hyx]; subst.
  - apply (IH x Hxx). by apply tc_once.
  - apply (IH y Hxy). eapply tc_r; eassumption.
Qed.

(** The two loops that write one state to a list of services. *)
Fixpoint set_states (st : ServiceState) (r : RuntimeServiceRegistry) (l : list ServiceHandle) : outcome unit :=
  match l with
  | [] => (r, Ok tt)
  | h :: l =>
      match service_mut r h (with_state st) with
      | (r, Err e) => (r, Err e)
      | (r, Ok _) => set_states st r l
      end
  end.

Lemma apply_set_states l : forall r, apply_start_order r l = set_states Running r l.
Proof. induction l as [|h l IH]; intros r; cbn; [done|]. by destruct (service_mut _ _ _) as [r' [|]]. Qed.

Lemma stop_set_states l : forall r, stop_members r l = set_states Stopping r l.
Proof. induction l as [|h l IH]; intros r; cbn; [done|]. by destruct (service_mut _ _ _) as [r' [|]]. Qed.

Lemma set_states_spec st l : forall r,
  Forall (fun h => handle_ok h ∧ is_Some (get r h)) l ->
  exists r', set_states st r l = (r', Ok tt) ∧
    forall x, handle_ok x -> get r' x = if decide (x ∈ l) then with_state st <$> get r x else get r x.
Proof.
  induction l as [|h l IH]; intros r Hall; cbn [set_states].
  - exists r. split; [done|]. intros x _. rewrite decide_False; [done|apply not_elem_of_nil].
  - apply Forall_cons_1 in Hall as [[Hh [s Hs]] Hall]. rewrite service_mut_eq, Hs.
    set (r1 := with_slots r _).
    assert (Hget : forall x, handle_ok x -> get r1 x = if decide (x = h) then Some (with_state st s) else get r x)
      by (intros x Hx; by apply get_modify).
    destruct (IH r1) as (r' & -> & Hr').
    { apply Forall_forall. intros x Hx. apply (Forall_elem _ _ _ Hall) in Hx as [Hx [sx Hsx]].
      split; [done|]. rewrite Hget by done. case_decide; by eexists. }
    exists r'. split; [done|]. intros x Hx. rewrite Hr', Hget by done.
    destruct (decide (x = h)) as [->|Hne].
    + rewrite (decide_True (P := h ∈ h :: l)) by (apply list_elem_of_here). rewrite Hs. by case_decide.
    + destruct (decide (x ∈ l)) as [Hin|Hin].
      * rewrite decide_True by (by apply list_elem_of_further). done.
      * rewrite decide_False; [done|]. by intros [->|?]%elem_of_cons.
Qed.

(** Everything reachable through needs from a member of a closed order is a
    member or running. *)
Lemma start_order_reach r l h x :
  start_order r l -> h ∈ l ∨ running r h -> rtc (needs r) h x -> x ∈ l ∨ running r x.
Proof.
  intros Hord Hh Hx. induction Hx as [|a b c Hab _ IH]; [done|]. apply IH.
  destruct Hh as [Hh|Hr]; [by eapply start_order_closed|by destruct (running_needs_nothing r a b)].
Qed.

(** C8: starting a service always returns.  It succeeds exactly when every
    service the target needs (its dependencies, theirs, and so on through
    services not yet running) is registered and none needs itself; then exactly
    those services are running afterwards and no other record has changed.
    Otherwise nothing changes, and the error names a needed service that is
    stale or one that needs itself. *)
Theorem services_start_spec r h :
  wf r -> handle_ok h ->
  match start r h with
  | Some (r', Ok _) =>
      (forall x, rtc (needs r) h x -> is_Some (get r x) ∧ ~ tc (needs r) x x) ∧
      (forall x s, handle_ok x -> rtc (needs r) h x -> get r x = Some s ->
         get r' x = Some (with_state Running s)) ∧
      (forall x, handle_ok x -> ~ rtc (needs r) h x -> get r' x = get r x)
  | Some (r', Err Stale) => r' = r ∧ exists x, rtc (needs r) h x ∧ get r x = None
  | Some (r', Err DependencyCycle) => r' = r ∧ exists x, rtc (needs r) h x ∧ tc (needs r) x x
  | _ => False
  end.
Proof.
  intros Hwf Hh. unfold start.
  assert (Hpost : collect_post r [h] [] (collect_start_order (walk_fuel r) r [] h [])).
  { apply collect_spec; try done; [apply NoDup_nil_2|by intros v ?%not_elem_of_nil| |constructor].
    unfold walk_fuel. cbn. lia. }
  destruct (collect_start_order _ _ _ _ _) as [[order|[]]|]; cbn in Hpost; try done.
  - destruct Hpost as (ext & -> & Hord & Hin & Hext). apply Forall_cons_1 in Hin as [Hin _].
    destruct (set_states_spec Running _ r (start_order_live _ _ Hord)) as (r' & Hset & Hget).
    rewrite apply_set_states, Hset.
    repeat split.
    + destruct (start_order_reach _ _ _ x Hord Hin H) as [Hl|(s & Hs & _)]; [|by exists s].
      by apply (Forall_elem _ _ _ (start_order_live _ _ Hord)) in Hl as [_ Hl].
    + destruct (start_order_reach _ _ _ x Hord Hin H) as [Hl|Hr].
      * by apply acc_no_cycle, (start_order_acc _ _ Hord).
      * intros Hc. inversion Hc; by eapply running_needs_nothing.
    + intros x s Hx Hhx Hs. rewrite Hget, Hs by done.
      destruct (start_order_reach _ _ _ x Hord Hin Hhx) as [Hl|(s' & Hs' & Hr)]; [by rewrite decide_True|].
      assert (s' = s) as -> by congruence. case_decide; [done|]. f_equal. rewrite <- Hr. by destruct s.
    + intros x Hx Hno. rewrite Hget by done. rewrite decide_False; [done|]. intros Hl.
      apply (Forall_elem _ _ _ Hext) in Hl as (h' & ->%list_elem_of_singleton & Hr). done.
  - destruct Hpost as (h' & y & ->%list_elem_of_singleton & Hy & Hst). split; [done|by exists y].
  - destruct Hpost as (h' & y & ->%list_elem_of_singleton & Hy & Hst). split; [done|by exists y].
Qed.

(** ** Finite walks *)

Section pigeonhole.
Context {A : Type} (R : relation A).

Lemma chain_tc (w : list A) :
  (forall i a b, w !! i = Some a -> w !! S i = Some b -> R a b) ->
  forall n i a b, w !! i = Some a -> w !! (S n + i)%nat = Some b -> tc R a b.
Proof.
  intros Hw. induction n as [|n IH]; intros i a b Ha Hb; [by apply tc_once; eauto|].
  assert (is_Some (w !! S i)) as [c Hc].
  { apply lookup_lt_is_Some. apply lookup_lt_Some in Hb. lia. }
  eapply tc_l; [by eapply Hw|]. apply (IH (S i)); [done|]. rewrite <- Hb. f_equal. lia.
Qed.

Lemma walk_exists (l : list A) :
  (forall x, x ∈ l -> exists y, y ∈ l ∧ R x y) ->
  forall n x, x ∈ l -> exists w, length w = S n ∧ w !! 0%nat = Some x ∧ w ⊆ l ∧
    forall i a b, w !! i = Some a -> w !! S i = Some b -> R a b.
Proof.
  intros Hs. induction n as [|n IH]; intros x Hx.
  - exists [x]. repeat split; [set_solver|]. by intros [|i] a b.
  - destruct (Hs x Hx) as (y & Hy & Hxy). destruct (IH y Hy) as (w & Hl & H0 & Hsub & Hw).
    exists (x :: w). repeat split; [by rewrite <- Hl|set_solver|].
    intros [|i] a b Ha Hb; [|by apply (Hw i)]. change (w !! 0%nat = Some b) in Hb. injection Ha as <-. congruence.
Qed.

(** A nonempty finite set in which every element has a successor contains a
    cycle. *)
Lemma finite_cycle (l : list A) x0 :
  x0 ∈ l -> (forall x, x ∈ l -> exists y, y ∈ l ∧ R x y) -> exists x, x ∈ l ∧ tc R x x.
Proof.
  intros H0 Hs. destruct (walk_exists l Hs (length l) x0 H0) as (w & Hlen & _ & Hsub & Hw).
  destruct (list_pigeonhole w l Hsub ltac:(lia)) as (i & j & x & Hij & Hi & Hj).
  exists x. split; [apply Hsub; by eapply list_elem_of_lookup_2|].
  apply (chain_tc w Hw (j - i - 1) i); [done|]. rewrite <- Hj. f_equal. lia.
Qed.

End pigeonhole.

(** ** Restart *)

(** [x] is running and depends, through running services, on [h]; or is [h]. *)
Definition dragged (r : RuntimeServiceRegistry) (h x : ServiceHandle) : Prop := rtc (drags r) h x.

Section closure.
Context (r : RuntimeServiceRegistry) (Hwf : wf r) (h : ServiceHandle) (reserve : nat -> bool).

Definition included_ok (included : list ServiceHandle) : Prop :=
  NoDup included ∧ h ∈ included ∧
  Forall (fun x => (handle_ok x ∧ is_Some (get r x)) ∧ dragged r h x) included.

(** One pass keeps the invariant, reports a change exactly when it added a
    handle, and adds nothing only if the set is closed under the services it
    looked at. *)
Lemma closure_pass_spec svs : forall included changed,
  Forall (fun s => handle_ok (sv_handle s) ∧ get r (sv_handle s) = Some s) svs -> included_ok included ->
  match closure_pass reserve svs included changed with
  | Ok (included', changed') =>
      exists ext, included' = included ++ ext ∧ included_ok included' ∧
        changed' = changed || negb (bool_decide (ext = [])) ∧
        (ext = [] -> forall s d, s ∈ svs -> sv_state s = Running -> d ∈ sv_dependencies s ->
           d ∈ included -> sv_handle s ∈ included)
  | Err Capacity => exists k, reserve k = false
  | Err _ => False
  end.
Proof.
  induction svs as [|s svs IH]; intros included changed Hsvs Hinc; cbn [closure_pass].
  { exists []. rewrite app_nil_r, orb_false_r. repeat split; try apply Hinc. by intros _ s d ?%not_elem_of_nil. }
  apply Forall_cons_1 in Hsvs as [[Hso Hsg] Hsvs].
  destruct (_ && _) eqn:Hc.
  - boolprop. match goal with H : existsb _ _ = true |- _ => apply existsb_exists in H as (d & Hd & Hin) end.
    apply list_elem_of_In in Hd. unfold contains in *. boolprop.
    destruct (reserve (length included)) eqn:Hr; [|by eexists].
    assert (Hinc' : included_ok (included ++ [sv_handle s])).
    { destruct Hinc as (Hnd & Hh & Hall). split; [|split].
      - apply NoDup_app. split; [done|]. split; [set_solver|apply NoDup_singleton].
      - set_solver.
      - apply Forall_app. split; [done|]. constructor; [|done]. split; [by split; [|eexists]|].
        apply (Forall_elem _ _ _ Hall) in Hin as [_ Hdr].
        eapply rtc_r; [exact Hdr|]. by exists s. }
    specialize (IH _ true Hsvs Hinc'). destruct (closure_pass _ _ _ _) as [[inc' ch']|[]]; try done.
    destruct IH as (ext & -> & Hok & -> & _). exists (sv_handle s :: ext).
    rewrite <- app_assoc. split; [done|]. split; [by rewrite <- app_assoc in Hok|].
    split; [|done]. rewrite (bool_decide_eq_false_2 (sv_handle s :: ext = [])) by done. by rewrite orb_true_r.
  - specialize (IH included changed Hsvs Hinc). destruct (closure_pass _ _ _ _) as [[inc' ch']|[]]; try done.
    destruct IH as (ext & -> & Hok & -> & Hcl). exists ext. repeat split; try apply Hok.
    intros Hnil s' d Hs' Hrun Hd Hin. apply elem_of_cons in Hs' as [->|Hs']; [|by eapply Hcl].
    destruct (decide (sv_handle s ∈ included)); [done|]. exfalso.
    unfold contains in Hc. rewrite (bool_decide_eq_true_2 (sv_state s = Running)) in Hc by done.
    rewrite (bool_decide_eq_false_2 (sv_handle s ∈ included)) in Hc by done. cbn [negb andb] in Hc. apply not_true_iff_false in Hc. apply Hc, existsb_exists.
    exists d. split; [by apply list_elem_of_In|by apply bool_decide_eq_true_2].
Qed.

Lemma services_listed : Forall (fun s => handle_ok (sv_handle s) ∧ get r (sv_handle s) = Some s) (services r).
Proof. apply Forall_forall. intros s Hs. by apply elem_of_services. Qed.

(** The loop ends with a set closed under [drags]. *)
Lemma closure_loop_spec fuel : forall included,
  included_ok included -> (S (S (length (slots r))) <= fuel + length included)%nat ->
  match closure_loop fuel reserve (services r) included with
  | Some (Ok included') =>
      included_ok included' ∧ (forall x y, x ∈ included' -> drags r x y -> y ∈ included')
  | Some (Err Capacity) => exists k, reserve k = false
  | _ => False
  end.
Proof.
  induction fuel as [|fuel IH]; intros included Hinc Hfuel.
  { destruct Hinc as (Hnd & _ & Hall).
    pose proof (live_handles_bound r included Hnd (Forall_impl _ _ _ Hall (fun x H => proj1 H))).
    cbn in Hfuel. unfold ServiceHandle in *. lia. }
  cbn [closure_loop]. pose proof (closure_pass_spec (services r) included false services_listed Hinc) as Hp.
  destruct (closure_pass _ _ _ _) as [[inc' ch']|[]]; try done.
  destruct Hp as (ext & -> & Hok & -> & Hcl). cbn [orb]. destruct (decide (ext = [])) as [->|Hne].
  - rewrite bool_decide_eq_true_2 by done. cbn [negb]. split; [done|]. rewrite app_nil_r.
    intros x y Hx (s & Hy & Hs & Hrun & Hd).
    pose proof (ok_handle _ _ (wf_record r Hwf y s Hy Hs)) as Hsy. rewrite <- Hsy.
    apply (Hcl eq_refl s x); try done. apply elem_of_services; [done|]. by rewrite Hsy.
  - rewrite bool_decide_eq_false_2 by done. cbn [negb]. apply IH; [done|].
    rewrite length_app. destruct ext; [done|]. cbn [length]. lia.
Qed.

(** Members come after everything of the list they depend on. *)
Definition topological (order : list ServiceHandle) : Prop :=
  forall l1 x l2 y, order = l1 ++ x :: l2 -> y ∈ x :: l2 -> ~ depends r x y.

(** The cycle reported when no remaining handle can be removed. *)
Lemma stuck_cycle remaining x0 :
  Forall (fun x => is_Some (get r x) ∧ dragged r h x) remaining -> x0 ∈ remaining ->
  list_find (fun x => removable r remaining x = true) remaining = None ->
  exists x, dragged r h x ∧ tc (fun a b => depends r a b ∧ dragged r h b) x x.
Proof.
  intros Hall H0 Hf. apply list_find_None in Hf.
  destruct (finite_cycle (fun a b => depends r a b ∧ dragged r h b) remaining x0 H0) as (x & Hx & Hc).
  - intros x Hx. pose proof (Forall_elem _ _ _ Hf Hx) as Hnr. cbn in Hnr.
    destruct (Forall_elem _ _ _ Hall Hx) as [[s Hs] _]. unfold removable in Hnr.
    apply service_Ok in Hs as Hs'. rewrite Hs' in Hnr. apply not_true_is_false, negb_false_iff in Hnr.
    apply existsb_exists in Hnr as (d & Hd%list_elem_of_In & Hin). unfold contains in Hin. boolprop.
    exists d. split; [done|]. split; [by exists s|]. by apply (Forall_elem _ _ _ Hall Hin).
  - exists x. split; [|done]. by apply (Forall_elem _ _ _ Hall Hx).
Qed.

Lemma order_loop_spec fuel : forall remaining order,
  Forall (fun x => is_Some (get r x) ∧ dragged r h x) remaining -> (length remaining <= fuel)%nat ->
  match order_loop fuel r remaining order with
  | Some (Ok order') => exists ext, order' = order ++ ext ∧ ext ≡ₚ remaining ∧ topological ext
  | Some (Err DependencyCycle) => exists x, dragged r h x ∧ tc (fun a b => depends r a b ∧ dragged r h b) x x
  | _ => False
  end.
Proof.
  induction fuel as [|fuel IH]; intros [|a remaining] order Hall Hlen; cbn [order_loop].
  1,3: exists []; rewrite app_nil_r; repeat split; try done; intros [] ? ? ? ?; discriminate.
  { cbn in Hlen. lia. }
  set (rem := a :: remaining) in *. destruct (list_find _ rem) as [[i x]|] eqn:Hf.
  2: { apply (stuck_cycle rem a); [done|apply list_elem_of_here|done]. }
  apply list_find_Some in Hf as (Hi & Hrm & _).
  destruct (swap_remove rem i) as [[y rem']|] eqn:Hsw.
  2: { unfold swap_remove in Hsw. rewrite Hi in Hsw.
       assert (is_Some (rem !! (length rem - 1)%nat)) as [z Hz] by (apply lookup_lt_is_Some; subst rem; cbn; lia).
       by rewrite Hz in Hsw. }
  apply swap_remove_perm in Hsw as [Hy Hp]. assert (y = x) as -> by congruence.
  rewrite Hp in Hall. apply Forall_cons_1 in Hall as [Hx Hall].
  specialize (IH rem' (order ++ [x]) Hall). apply Permutation_length in Hp as Hpl. cbn in Hpl, Hlen.
  specialize (IH ltac:(lia)). destruct (order_loop _ _ _ _) as [[o|[]]|]; try done.
  destruct IH as (ext & -> & Hpe & Htopo). exists (x :: ext). rewrite <- app_assoc. split; [done|].
  assert (Hperm : x :: ext ≡ₚ rem) by (by rewrite Hpe, Hp). split; [done|].
  intros [|b l1] u l2 v Heq Hv; injection Heq as -> Heq; [subst l2|by eapply Htopo].
  intros (s & Hs & Hd). unfold removable in Hrm. apply service_Ok in Hs. rewrite Hs in Hrm.
  boolprop. apply not_true_iff_false in Hrm. apply Hrm, existsb_exists. exists v.
  split; [by apply list_elem_of_In|]. apply bool_decide_eq_true_2. by rewrite <- Hperm.
Qed.

End closure.

Lemma included_start r h s : handle_ok h -> get r h = Some s -> included_ok r h [h].
Proof.
  intros Hh Hs. split; [apply NoDup_singleton|]. split; [by apply list_elem_of_singleton|].
  constructor; [|done]. split; [by split; [|exists s]|apply rtc_refl].
Qed.

Lemma restart_closure_correct reserve r h :
  wf r -> handle_ok h ->
  match restart_closure reserve r h with
  | Some (Ok closure) =>
      NoDup closure ∧ (forall x, x ∈ closure <-> dragged r h x) ∧
      (forall l1 x l2 y, closure = l1 ++ x :: l2 -> depends r x y -> y ∉ l1 ++ [x])
  | Some (Err Stale) => get r h = None
  | Some (Err Capacity) => exists k, reserve k = false
  | Some (Err DependencyCycle) =>
      exists x, dragged r h x ∧ tc (fun a b => depends r a b ∧ dragged r h b) x x
  | _ => False
  end.
Proof.
  intros Hwf Hh. unfold restart_closure. destruct (service r h) as [s|e] eqn:Hs.
  2: { apply service_Err in Hs as [Hs ->]. done. }
  apply service_Ok in Hs. destruct (reserve 0%nat) eqn:H0; cbn [negb]; [|by eexists].
  pose proof (closure_loop_spec r Hwf h reserve (walk_fuel r) [h] (included_start r h s Hh Hs)) as Hl.
  specialize (Hl ltac:(unfold walk_fuel; cbn; lia)).
  destruct (closure_loop _ _ _ _) as [[included|[]]|]; try done.
  destruct Hl as [(Hnd & Hin & Hall) Hclosed].
  destruct (reserve (length included)) eqn:H1; cbn [negb]; [|by eexists].
  pose proof (order_loop_spec r h (length included) included []) as Ho.
  specialize (Ho ltac:(eapply Forall_impl; [exact Hall|]; cbn; tauto) ltac:(done)).
  destruct (order_loop _ _ _ _) as [[order|[]]|]; try done.
  destruct Ho as (ext & -> & Hp & Htopo). cbn [app]. split; [|split].
  - rewrite reverse_Permutation, Hp. done.
  - intros x. rewrite elem_of_reverse, Hp. split.
    + intros Hx. by apply (Forall_elem _ _ _ Hall Hx).
    + unfold dragged. intros Hx. clear -Hx Hclosed Hin. induction Hx as [|a b c Hab _ IH]; [done|].
      apply IH. by eapply Hclosed.
  - intros l1 x l2 y Hrev Hd Hy.
    assert (Hext : ext = reverse l2 ++ x :: reverse l1).
    { rewrite <- (reverse_involutive ext), Hrev, reverse_app, reverse_cons, <- app_assoc. done. }
    apply (Htopo (reverse l2) x (reverse l1) y Hext); [|done].
    apply elem_of_app in Hy as [Hy| ->%list_elem_of_singleton]; [|apply list_elem_of_here].
    apply list_elem_of_further. by apply elem_of_reverse.
Qed.

Lemma restart_closure_members reserve r h closure :
  wf r -> handle_ok h -> restart_closure reserve r h = Some (Ok closure) ->
  forall x, x ∈ closure <-> dragged r h x.
Proof.
  intros Hwf Hh Hcl. pose proof (restart_closure_correct reserve r h Hwf Hh) as H. rewrite Hcl in H. apply H.
Qed.

(** C33: the restart closure is always computed.  It lists, once each, exactly
    the target and the running services that depend on it directly or through
    other running services; every member comes before all the members it
    depends on, so services are stopped before what they use.  It fails only
    for a stale target, when memory runs out, or when services to be stopped
    depend on each other in a circle. *)
Theorem services_restart_closure_spec reserve r h :
  wf r -> handle_ok h ->
  match restart_closure reserve r h with
  | Some (Ok closure) =>
      NoDup closure ∧ (forall x, x ∈ closure <-> dragged r h x) ∧
      (forall l1 x l2 y, closure = l1 ++ x :: l2 -> depends r x y -> y ∉ l1 ++ [x])
  | Some (Err Stale) => get r h = None
  | Some (Err Capacity) => exists k, reserve k = false
  | Some (Err DependencyCycle) =>
      exists x, dragged r h x ∧ tc (fun a b => depends r a b ∧ dragged r h b) x x
  | _ => False
  end.
Proof. apply restart_closure_correct. Qed.

Lemma dragged_running r h x : dragged r h x -> running r h -> running r x.
Proof. intros Hx Hh. induction Hx as [|a b c (s & _ & Hs & Hr & _) _ IH]; [done|]. apply IH. by exists s. Qed.

Lemma lifecycle_status_restart r h : lifecycle_status r MgrRestart h = MsOk -> running r h.
Proof.
  unfold lifecycle_status. destruct (service r h) as [s|] eqn:Hs; [|done]. apply service_Ok in Hs.
  case_bool_decide; [intros _; by exists s|]. unfold busy_or_invalid. by destruct (sv_state s).
Qed.

Lemma check_stopping_None r l :
  Forall (fun h => exists s, get r h = Some s ∧ sv_state s = Stopping) l -> check_stopping r l = None.
Proof.
  induction 1 as [|h l (s & Hs & Hst) _ IH]; cbn; [done|].
  apply service_Ok in Hs. rewrite Hs. by rewrite bool_decide_eq_true_2.
Qed.

Lemma abort_fold st l : forall r r',
  set_states st r l = (r', Ok tt) -> foldl (fun r h => (service_mut r h (with_state st)).1) r l = r'.
Proof.
  induction l as [|h l IH]; intros r r'; cbn; [by intros [= ->]|].
  destruct (service_mut r h _) as [r1 [u|e]]; [|done]. apply IH.
Qed.

Lemma with_state_id s st : sv_state s = st -> with_state st s = s.
Proof. intros <-. by destruct s. Qed.

(** An admitted restart stops exactly its members and can be rolled back.
    After [begin_lifecycle_action] every member of the closure is [Stopping],
    nothing else changed, and aborting the members returns every record to
    what it was. *)
Theorem services_restart_rollback reserve r h r1 closure :
  wf r -> handle_ok h ->
  begin_lifecycle_action reserve r MgrRestart h = Some (r1, Ok (ActRestart closure)) ->
  (forall x, handle_ok x ->
     get r1 x = if decide (x ∈ closure) then with_state Stopping <$> get r x else get r x) ∧
  exists r2, abort_lifecycle_members r1 closure = (r2, MsOk) ∧
    forall x, handle_ok x -> get r2 x = get r x.
Proof.
  intros Hwf Hh. unfold begin_lifecycle_action. destruct (negb _) eqn:Hst; [done|].
  boolprop. apply lifecycle_status_restart in Hst.
  destruct (restart_closure reserve r h) as [[cl|e]|] eqn:Hcl; [|done..].
  pose proof (restart_closure_ok _ _ _ _ Hwf Hh Hcl) as Hok.
  assert (Hrun : Forall (running r) cl).
  { apply Forall_forall. intros x Hx. apply (dragged_running r h); [|done].
    by apply (restart_closure_members reserve r h cl Hwf Hh Hcl). }
  assert (Hlive : Forall (fun x => handle_ok x ∧ is_Some (get r x)) cl).
  { apply Forall_and. split; [done|]. eapply Forall_impl; [exact Hrun|]. intros x (s & Hs & _). by exists s. }
  destruct (set_states_spec Stopping cl r Hlive) as (r1' & Hset & Hget).
  rewrite stop_set_states, Hset. intros [= -> ->]. split; [done|].
  assert (Hst1 : Forall (fun x => exists s, get r1 x = Some s ∧ sv_state s = Stopping) closure).
  { apply Forall_forall. intros x Hx. destruct (Forall_elem _ _ _ Hlive Hx) as [Hxo [s Hs]].
    exists (with_state Stopping s). split; [|done]. rewrite Hget, decide_True, Hs by done. done. }
  destruct (set_states_spec Running closure r1) as (r2 & Hset2 & Hget2).
  { apply Forall_and. split; [done|]. eapply Forall_impl; [exact Hst1|]. intros x (s & Hs & _). by exists s. }
  exists r2. unfold abort_lifecycle_members. rewrite check_stopping_None by done.
  rewrite (abort_fold _ _ _ _ Hset2). split; [done|]. intros x Hx. rewrite Hget2, Hget by done.
  case_decide as Hin; [|done]. destruct (Forall_elem _ _ _ Hrun Hin) as (s & -> & Hr).
  cbn. f_equal. rewrite <- (with_state_id s Running) at 2 by done. by destruct s.
Qed.

(** ** Witnesses *)

Lemma example_needs :
  needs Example.three Example.hc Example.hb ∧ needs Example.three Example.hb Example.ha.
Proof. split; eexists; (split; [vm_compute; reflexivity|]); (split; [discriminate|apply list_elem_of_here]). Qed.

Lemma services_start_spec_witness :
  exists s, get Example.three Example.ha = Some s ∧ get Example.up Example.ha = Some (with_state Running s).
Proof.
  pose proof (services_start_spec Example.three Example.hc (proj1 services_example_wf)
    (handle_ok_dec Example.hc eq_refl)) as H.
  assert (E : start Example.three Example.hc = Some (Example.up, Ok tt)) by (vm_compute; reflexivity).
  rewrite E in H. destruct H as (_ & Hrun & _).
  eexists. split; [vm_compute; reflexivity|].
  apply Hrun; [by apply handle_ok_dec| |vm_compute; reflexivity].
  destruct example_needs as [H1 H2]. eapply rtc_l; [exact H1|]. eapply rtc_l; [exact H2|]. apply rtc_refl.
Defined.

Lemma services_restart_closure_spec_witness :
  restart_closure Example.memory Example.up Example.ha = Some (Ok [Example.hc; Example.hb; Example.ha]) ∧
  dragged Example.up Example.ha Example.hc.
Proof.
  assert (E : restart_closure Example.memory Example.up Example.ha =
    Some (Ok [Example.hc; Example.hb; Example.ha])) by (vm_compute; reflexivity).
  split; [exact E|].
  pose proof (services_restart_closure_spec Example.memory Example.up Example.ha (proj2 services_example_wf)
    (handle_ok_dec Example.ha eq_refl)) as H.
  rewrite E in H. destruct H as (_ & H & _). apply H. apply list_elem_of_here.
Defined.

Lemma services_restart_rollback_witness :
  exists r1 r2, abort_lifecycle_members r1 [Example.hc; Example.hb; Example.ha] = (r2, MsOk) ∧
    get r1 Example.hb <> get Example.up Example.hb ∧ get r2 Example.hb = get Example.up Example.hb.
Proof.
  destruct (begin_lifecycle_action Example.memory Example.up MgrRestart Example.ha) as [[r1 a]|] eqn:E;
    [|vm_compute in E; discriminate E].
  assert (Ha : a = Ok (ActRestart [Example.hc; Example.hb; Example.ha])).
  { vm_compute in E. injection E as _ <-. reflexivity. }
  rewrite Ha in E.
  destruct (services_restart_rollback Example.memory Example.up Example.ha r1 _ (proj2 services_example_wf)
    (handle_ok_dec Example.ha eq_refl) E) as (H1 & r2 & H2 & H3).
  exists r1, r2. split; [exact H2|]. split; [|apply H3; by apply handle_ok_dec].
  rewrite H1 by (by apply handle_ok_dec). vm_compute. discriminate.
Defined.
