(* ===== verification/ServiceLists.v ===== *)
(** * What the service listings enumerate

    [RuntimeServiceRegistry::list] serves directory pages whose cursor is a
    slot index; a client that follows it reads every live service once.
    [manager_request] answers one record per [List] request; its cursor is a
    slot index as well but is applied to the vacancy-free list, so the listing
    is complete only while no slot is vacant. *)

From Stdlib Require Import ZArith Lia.
From stdpp Require Import relations.
From stdpp Require Import base list option numbers.
From S2P Require Import Prelude Slots Directory Manager Services.

#[local] Open Scope Z_scope.

(** ** Positions *)

Lemma skip_drop {A} (l : list A) : forall n, 0 <= n -> skip n l = drop (Z.to_nat n) l.
Proof.
  induction l as [|a l IH]; intros n Hn; cbn [skip]; [by rewrite drop_nil|].
  destruct (Z.leb_spec n 0); [by replace n with 0 by lia|].
  rewrite IH by lia. by replace (Z.to_nat n) with (S (Z.to_nat (n - 1))) by lia.
Qed.

Lemma enumerate_live_snd sl : forall i, snd <$> enumerate_live i sl = live sl.
Proof.
  unfold live. induction sl as [|a sl IH]; intros i; cbn; [done|]. destruct (slot_value a); cbn; by rewrite IH.
Qed.

(** The tail of the enumeration from an entry is the enumeration from its slot. *)
Lemma enumerate_drop sl : forall i k j s,
  enumerate_live i sl !! k = Some (j, s) ->
  (i <= j < i + length sl)%nat ∧ drop k (enumerate_live i sl) = enumerate_live j (drop (j - i) sl).
Proof.
  induction sl as [|a sl IH]; intros i k j s; cbn [enumerate_live]; [done|].
  assert (Hnext : forall k, enumerate_live (S i) sl !! k = Some (j, s) ->
    (i <= j < i + length (a :: sl))%nat ∧
    drop k (enumerate_live (S i) sl) = enumerate_live j (drop (j - i) (a :: sl))).
  { intros k' Hk. destruct (IH _ _ _ _ Hk) as [Hj ->]. cbn [length]. split; [lia|].
    by replace (j - i)%nat with (S (j - S i)) by lia. }
  destruct (slot_value a) as [v|] eqn:Ha; [|apply Hnext].
  destruct k as [|k]; [|apply Hnext]. cbn. intros [= <- <-]. split; [lia|].
  rewrite Nat.sub_diag. cbn. by rewrite Ha.
Qed.

Lemma enumerate_index sl : forall i k j s, enumerate_live i sl !! k = Some (j, s) -> (i + k <= j)%nat.
Proof.
  induction sl as [|a sl IH]; intros i k j s; cbn [enumerate_live]; [done|].
  destruct (slot_value a); [destruct k as [|k]|]; cbn; intros H.
  - simplify_eq. lia.
  - apply IH in H. lia.
  - apply IH in H. lia.
Qed.

Lemma live_from_drop r c : 0 <= c <= Z.of_nat (length (slots r)) ->
  live_from r c = enumerate_live (Z.to_nat c) (drop (Z.to_nat c) (slots r)).
Proof.
  intros Hc. unfold live_from. rewrite skip_drop by lia. f_equal. rewrite length_drop. lia.
Qed.

Lemma live_from_snd r c : 0 <= c -> snd <$> live_from r c = live (drop (Z.to_nat c) (slots r)).
Proof. intros Hc. unfold live_from. by rewrite enumerate_live_snd, skip_drop. Qed.

Lemma live_from_next r c k j s :
  0 <= c <= Z.of_nat (length (slots r)) -> live_from r c !! k = Some (j, s) ->
  c <= Z.of_nat j < Z.of_nat (length (slots r)) ∧ live_from r (Z.of_nat j) = drop k (live_from r c).
Proof.
  intros Hc. rewrite live_from_drop by done. intros Hk.
  destruct (enumerate_drop _ _ _ _ _ Hk) as [Hj ->]. rewrite length_drop in Hj.
  split; [lia|]. rewrite live_from_drop, Nat2Z.id, drop_drop by lia. do 2 f_equal. lia.
Qed.

(** ** Directory pages *)

(** The record the directory shows for a service. *)
Definition service_record (s : ServiceRecord) : DirectoryRecord :=
  mk_record KindService 0 (state_flags (sv_state s)) (raw (sv_handle s)) EMPTY 0 0 0 EMPTY
    (Z.of_nat (length (sv_name s))) [0] (padded MAX_SERVICE_NAME_BYTES (sv_name s)).

Definition listable (s : ServiceRecord) : Prop :=
  is_valid (sv_handle s) = true ∧ (1 <= length (sv_name s) <= MAX_SERVICE_NAME_BYTES)%nat.

Lemma record_service_listable s :
  listable s ->
  exists rec, record_service (sv_handle s) (sv_name s) = Some rec ∧
    with_flags rec (state_flags (sv_state s)) = service_record s.
Proof.
  intros [Hv Hn]. unfold record_service. rewrite Hv. cbn [negb orb].
  rewrite bool_decide_eq_false_2 by (intros E; rewrite E in Hn; cbn in Hn; lia). cbn [orb].
  destruct (Nat.ltb_spec MAX_SERVICE_NAME_BYTES (length (sv_name s))); [lia|].
  eexists. split; [done|]. unfold with_flags, service_record, padded. cbn. f_equal.
  apply wrap_small. unfold fits, MAX_SERVICE_NAME_BYTES in *. lia.
Qed.

Lemma list_loop_spec items : forall written rs,
  Forall (fun p => listable p.2) items -> (written <= DIRECTORY_RECORDS_PER_PAGE)%nat ->
  let room := (DIRECTORY_RECORDS_PER_PAGE - written)%nat in
  let recs := (fun p => service_record p.2) <$> items in
  list_loop items written rs =
  match items !! room with
  | None => Some (set_records rs written recs, (written + length items)%nat)
  | Some (i, _) => Some (set_more (set_records rs written (take room recs)) (Z.of_nat i), DIRECTORY_RECORDS_PER_PAGE)
  end.
Proof.
  induction items as [|[i s] items IH]; intros written rs Hall Hw; cbn zeta.
  - rewrite lookup_nil. cbn. rewrite Nat.add_0_r. by destruct rs.
  - apply Forall_cons_1 in Hall as [Hs Hall]. cbn [list_loop].
    destruct (Nat.eqb_spec written DIRECTORY_RECORDS_PER_PAGE) as [->|Hne].
    + rewrite Nat.sub_diag. cbn. by destruct rs.
    + destruct (record_service_listable s Hs) as (rec & -> & ->).
      rewrite IH by (try done; lia). cbn zeta.
      replace (DIRECTORY_RECORDS_PER_PAGE - written)%nat with (S (DIRECTORY_RECORDS_PER_PAGE - S written)) by lia.
      change (((i, s) :: items) !! S ?n) with (items !! n).
      rewrite fmap_cons. cbn [take length].
      destruct (items !! _) as [[j ?]|]; (f_equal; f_equal);
        try (unfold set_more, set_records, set_record; cbn; f_equal; by rewrite list_insert_inserts_lt by lia); lia.
Qed.

Definition page_of (r : RuntimeServiceRegistry) (c : Z) : list DirectoryRecord :=
  take DIRECTORY_RECORDS_PER_PAGE ((fun p => service_record p.2) <$> live_from r c).

(** One page in closed form. *)
Lemma list_services_spec r c rs id :
  wf r -> id <> 0 -> Forall listable (services r) -> 0 <= c ->
  let out := page_of r c in
  list_services r c rs id =
  Some (mk_response RUNTIME_ABI_VERSION OpServices DirOk id
          (match live_from r c !! DIRECTORY_RECORDS_PER_PAGE with Some (i, _) => Z.of_nat i | None => U64_MAX end)
          (Z.of_nat (length out))
          (match live_from r c !! DIRECTORY_RECORDS_PER_PAGE with Some _ => DIRECTORY_FLAG_MORE | None => 0 end)
          [0; 0] (out ++ replicate (DIRECTORY_RECORDS_PER_PAGE - length out) record_EMPTY), DirOk).
Proof.
  intros Hwf Hid Hlist Hc out. unfold list_services. destruct (Z.eqb_spec id 0); [done|].
  assert (Hall : Forall (fun p => listable p.2) (live_from r c)).
  { enough (Forall listable (snd <$> live_from r c)) as Hsnd by (by rewrite Forall_fmap in Hsnd).
    rewrite live_from_snd by done. apply Forall_forall. intros s Hs%list_elem_of_In. apply (Forall_elem _ _ _ Hlist).
    unfold services. rewrite <- (take_drop (Z.to_nat c) (slots r)). unfold live in *. rewrite omap_app.
    apply elem_of_app. by right. }
  rewrite list_loop_spec by (done || (unfold DIRECTORY_RECORDS_PER_PAGE; lia)). cbn zeta.
  rewrite Nat.sub_0_r. unfold out, page_of.
  set (items := live_from r c). set (recs := _ <$> items).
  assert (Hrl : length recs = length items) by apply length_fmap.
  destruct (items !! DIRECTORY_RECORDS_PER_PAGE) as [[j ?]|] eqn:Hj.
  - apply lookup_lt_Some in Hj.
    assert (Hl : length (take DIRECTORY_RECORDS_PER_PAGE recs) = DIRECTORY_RECORDS_PER_PAGE)
      by (rewrite length_take; lia).
    rewrite Hl. unfold set_count, set_more, set_records, response_empty; cbn_rs.
    change (Z.land (Z.lor 0 DIRECTORY_FLAG_MORE) DIRECTORY_FLAG_MORE =? 0) with false.
    do 3 f_equal. rewrite list_inserts_0 by (rewrite length_replicate; lia). by rewrite drop_replicate, Hl.
  - apply lookup_ge_None in Hj. rewrite (take_ge recs) by lia.
    unfold set_count, set_records, response_empty; cbn_rs.
    change (Z.land 0 DIRECTORY_FLAG_MORE =? 0) with true. rewrite Hrl, Nat.add_0_l.
    rewrite list_inserts_0 by (rewrite length_replicate; lia). rewrite drop_replicate, Hrl.
    do 3 f_equal. apply wrap_small. unfold fits, DIRECTORY_RECORDS_PER_PAGE in *. lia.
Qed.

Lemma service_record_valid s : handle_ok (sv_handle s) -> listable s -> record_is_valid (service_record s) = true.
Proof.
  intros Hh [Hv Hn]. unfold handle_ok, fits in Hh. unfold is_valid, generation, wrap in Hv. boolprop.
  assert (Hsh : 0 <= Z.shiftr (raw (sv_handle s)) 32 < 2 ^ 32).
  { rewrite Z.shiftr_div_pow2 by lia. split; [apply Z.div_pos; lia|apply Z.div_lt_upper_bound; lia]. }
  rewrite Z.mod_small in Hv by done.
  unfold record_is_valid, record_is_empty, service_record. cbn [rec_kind rec_rights rec_flags rec_handle rec_peer
    rec_contract_id rec_message_bytes rec_queue_capacity rec_event rec_name_len rec_reserved rec_name].
  rewrite (bool_decide_eq_false_2 (KindService = KindEmpty)), (bool_decide_eq_true_2 ([0] = [0])) by done.
  destruct (Z.eqb_spec (raw (sv_handle s)) 0) as [E|_]; [rewrite E in Hv; done|].
  rewrite (bool_decide_eq_true_2 (is_Some (from_raw (k := KService) (raw (sv_handle s))))).
  2: { unfold from_raw. destruct (Z.eqb_spec (Z.shiftr (raw (sv_handle s)) 32) 0); [done|by eexists]. }
  cbn -[MAX_SERVICE_NAME_BYTES padded]. unfold padded. rewrite Nat2Z.id, drop_app_length, length_app, length_replicate.
  rewrite zero_bytes_replicate. destruct (Z.eqb_spec (Z.of_nat (length (sv_name s))) 0); [lia|].
  cbn -[MAX_SERVICE_NAME_BYTES]. rewrite andb_true_r. apply Z.leb_le. lia.
Qed.

Lemma services_listable r : wf r -> Forall listable (services r) ∧ Forall (fun s => handle_ok (sv_handle s)) (services r).
Proof.
  intros Hwf. split; apply Forall_forall; intros s Hs%list_elem_of_In%(elem_of_services r s Hwf); [|apply Hs].
  destruct Hs as [Hh Hs]. split; [|apply (wf_record r Hwf _ s Hh Hs)].
  apply slot_get_Some in Hs as (sl & Hsl & Hg & _). destruct (wf_slots r Hwf) as [Hf _].
  pose proof (Forall_lookup_1 _ _ _ _ Hf Hsl) as Hok. unfold is_valid. rewrite <- Hg.
  unfold gen_ok in Hok. cbn in Hok. destruct (Z.eqb_spec (slot_generation sl) 0); [lia|done].
Qed.

Lemma page_records_spec r c :
  page_of r c = service_record <$> take DIRECTORY_RECORDS_PER_PAGE (snd <$> live_from r c).
Proof. unfold page_of. by rewrite fmap_take, <- list_fmap_compose. Qed.

Lemma list_services_valid r c rs rq :
  wf r -> request_is_valid rq = true -> rq_operation rq = OpServices -> 0 <= c ->
  exists page, list_services r c rs (rq_request_id rq) = Some (page, DirOk) ∧ is_valid_for page rq = true.
Proof.
  intros Hwf Hrq Hop Hc. destruct (services_listable r Hwf) as [Hl Ho].
  assert (Hid : rq_request_id rq <> 0).
  { unfold request_is_valid in Hrq. boolprop. done. }
  eexists. split; [by apply list_services_spec|].
  assert (Hlen : (length (page_of r c) <= DIRECTORY_RECORDS_PER_PAGE)%nat)
    by (unfold page_of; rewrite length_take; lia).
  assert (Hvalid : forallb record_is_valid (page_of r c) = true).
  { apply forallb_forall. intros rec Hrec%list_elem_of_In. rewrite page_records_spec in Hrec.
    apply list_elem_of_fmap in Hrec as (s & -> & Hs). rewrite live_from_snd in Hs by done.
    assert (Hin : s ∈ services r).
    { unfold services. rewrite <- (take_drop (Z.to_nat c) (slots r)). unfold live in *. rewrite omap_app.
      apply elem_of_app. right. eapply elem_of_submseteq; [exact Hs|]. apply sublist_submseteq, sublist_take. }
    apply service_record_valid; [exact (Forall_elem _ _ _ Ho Hin)|exact (Forall_elem _ _ _ Hl Hin)]. }
  unfold is_valid_for. cbn_rs. rewrite Hrq, Hop, Nat2Z.id, take_app_length, drop_app_length, Hvalid.
  rewrite !bool_decide_eq_true_2 by done. rewrite !Z.eqb_refl.
  assert (He : forall n, forallb record_is_empty (replicate n record_EMPTY) = true).
  { induction n as [|n IH]; cbn; [done|]. by rewrite IH. }
  rewrite He. cbn [andb]. rewrite !andb_true_r. apply andb_true_iff. split; [|apply Z.leb_le; lia].
  destruct (live_from r c !! DIRECTORY_RECORDS_PER_PAGE) as [[j s]|] eqn:Hj; [|done].
  change (Z.land DIRECTORY_FLAG_MORE (Z.lnot DIRECTORY_FLAG_MORE) =? 0) with true.
  change (Z.land DIRECTORY_FLAG_MORE DIRECTORY_FLAG_MORE =? 0) with false. cbn [andb orb].
  apply enumerate_index in Hj. destruct (Z.eqb_spec (Z.of_nat j) 0); [|done].
  unfold DIRECTORY_RECORDS_PER_PAGE in Hj. lia.
Qed.

(** The buffer a client sees after asking for the page at a cursor. *)
Definition list_page (r : RuntimeServiceRegistry) (rs : DirectoryResponse) (id c : Z) : DirectoryResponse :=
  match list_services r c rs id with Some (page, _) => page | None => rs end.

Lemma read_all_services r rs id : wf r -> id <> 0 -> forall fuel c,
  0 <= c <= Z.of_nat (length (slots r)) ->
  (length (live_from r c) < fuel * DIRECTORY_RECORDS_PER_PAGE)%nat ->
  read_all (list_page r rs id) fuel c = service_record <$> (snd <$> live_from r c).
Proof.
  intros Hwf Hid. destruct (services_listable r Hwf) as [Hl _].
  induction fuel as [|fuel IH]; intros c Hc Hf; [cbn in Hf; lia|]. cbn [read_all].
  pose proof (list_services_spec r c rs id Hwf Hid Hl ltac:(lia)) as Hp. cbn zeta in Hp.
  assert (Hpage : list_page r rs id c = _) by (unfold list_page; rewrite Hp; reflexivity).
  rewrite Hpage. unfold page_records. cbn_rs. rewrite Nat2Z.id, take_app_length, page_records_spec.
  destruct (live_from r c !! DIRECTORY_RECORDS_PER_PAGE) as [[j s]|] eqn:Hj.
  - change (Z.land DIRECTORY_FLAG_MORE DIRECTORY_FLAG_MORE =? 0) with false. cbv iota.
    destruct (live_from_next r c _ j s Hc Hj) as [Hjb Hnext].
    apply lookup_lt_Some in Hj. cbn [Nat.mul] in Hf.
    rewrite IH by (rewrite ?Hnext, ?length_drop; lia). rewrite Hnext.
    by rewrite <- fmap_app, fmap_drop, take_drop.
  - change (Z.land 0 DIRECTORY_FLAG_MORE =? 0) with true. cbv iota. rewrite app_nil_r.
    apply lookup_ge_None in Hj. by rewrite take_ge by (rewrite length_fmap; lia).
Qed.

(** The service directory is complete.  Every page is accepted by the
    receiver's check, no page panics, and a client that starts at zero and
    follows the returned cursor reads the record of each live service exactly
    once, in table order. *)
Theorem services_directory_complete r rq rs fuel :
  wf r -> request_is_valid rq = true -> rq_operation rq = OpServices ->
  (length (services r) < fuel * DIRECTORY_RECORDS_PER_PAGE)%nat ->
  (forall c, 0 <= c -> exists page,
     list_services r c rs (rq_request_id rq) = Some (page, DirOk) ∧ is_valid_for page rq = true) ∧
  read_all (list_page r rs (rq_request_id rq)) fuel 0 = service_record <$> services r.
Proof.
  intros Hwf Hrq Hop Hf. split; [intros; by apply list_services_valid|].
  assert (Hall : snd <$> live_from r 0 = services r) by (by rewrite live_from_snd).
  rewrite read_all_services, Hall; try done.
  - unfold request_is_valid in Hrq. boolprop. done.
  - lia.
  - by rewrite <- (length_fmap snd), Hall.
Qed.

(** ** The manager's list *)

(** The [List] request of a client at a cursor. *)
Definition list_request (cursor : Z) : ManagerRequest :=
  mk_mrequest MANAGER_ABI_VERSION MgrList KindOfService 1 EMPTY cursor U8_MAX 0 [0; 0] 0
    (replicate MAX_PACKAGE_NAME_BYTES 0).

(** A client that follows the cursor until it is [u64::MAX]. *)
Fixpoint manager_read (r : RuntimeServiceRegistry) (fuel : nat) (cursor : Z) : list ServiceManagerRecord :=
  match fuel with
  | O => []
  | S fuel =>
      let rs := manager_request r (list_request cursor) in
      if mp_cursor rs =? U64_MAX then [] else mp_record rs :: manager_read r fuel (mp_cursor rs)
  end.

Lemma list_request_valid c : service_request_shape_valid (list_request c) = true.
Proof. reflexivity. Qed.

Lemma manager_request_list r c :
  manager_request r (list_request c) =
  match next_manager_record r c with
  | None => mk_mresponse MANAGER_ABI_VERSION MgrList MsOk 1 U64_MAX mrecord_EMPTY
  | Some (next, record) => mk_mresponse MANAGER_ABI_VERSION MgrList MsOk 1 (Z.of_nat next) record
  end.
Proof. unfold manager_request. rewrite list_request_valid. done. Qed.

(** The record the manager shows for a service. *)
Definition shown (s : ServiceRecord) : ServiceManagerRecord :=
  mk_mrecord (sv_handle s) (manager_state (sv_state s)) (sv_restarts s) (Z.of_nat (length (sv_name s)))
    (Z.min (Z.of_nat (length (sv_dependencies s))) U16_MAX) [0; 0] U8_MAX [0; 0; 0] 0
    (padded MAX_PACKAGE_NAME_BYTES (sv_name s)).

Lemma manager_record_shown r h s : wf r -> handle_ok h -> get r h = Some s -> manager_record r h = Ok (shown s).
Proof.
  intros Hwf Hh Hs. unfold manager_record. apply service_Ok in Hs as Hs'. rewrite Hs'.
  destruct (ok_name _ _ (wf_record r Hwf h s Hh Hs)) as [_ Hn]. unfold MAX_SERVICE_NAME_BYTES in Hn.
  rewrite Nat.min_l, take_ge by (unfold MAX_PACKAGE_NAME_BYTES; lia).
  unfold shown. do 2 f_equal; apply wrap_small; unfold fits, U16_MAX; [|lia].
  unfold MAX_SERVICE_NAME_BYTES in Hn. split; [lia|]. change (2 ^ 8) with 256. lia.
Qed.

Lemma enumerate_services r i s :
  wf r -> (i, s) ∈ enumerate_live 0 (slots r) -> handle_ok (sv_handle s) ∧ get r (sv_handle s) = Some s.
Proof.
  intros Hwf Hin. apply elem_of_services; [done|]. unfold services.
  rewrite <- (enumerate_live_snd _ 0). apply list_elem_of_fmap. by exists (i, s).
Qed.

Lemma skip_elem {A} (l : list A) x : forall n, x ∈ skip n l -> x ∈ l.
Proof.
  induction l as [|a l IH]; intros n; cbn [skip]; [done|]. case_match; [done|].
  intros Hx%IH. by apply list_elem_of_further.
Qed.

(** The manager always answers with the first service it reaches. *)
Lemma next_manager_record_spec r c :
  wf r ->
  next_manager_record r c =
  match skip c (enumerate_live 0 (slots r)) with
  | [] => None
  | (i, s) :: _ => Some (S i, shown s)
  end.
Proof.
  intros Hwf. unfold next_manager_record. destruct (skip c _) as [|[i s] rest] eqn:E; [done|]. cbn.
  destruct (enumerate_services r i s Hwf) as [Hh Hs].
  { apply (skip_elem _ _ c). rewrite E. apply list_elem_of_here. }
  by rewrite (manager_record_shown r _ s Hwf Hh Hs).
Qed.

(** With no vacant slot the cursor of the manager's list counts services. *)
Lemma enumerate_dense sl : forall i,
  Forall (fun s => is_Some (slot_value s)) sl -> (fst <$> enumerate_live i sl) = seq i (length sl).
Proof.
  induction sl as [|a sl IH]; intros i Hall; [done|]. apply Forall_cons_1 in Hall as [[v Hv] Hall].
  cbn [enumerate_live]. rewrite Hv. cbn. by rewrite IH.
Qed.

Lemma manager_read_dense r :
  wf r -> Forall (fun s => is_Some (slot_value s)) (slots r) -> forall fuel c,
  0 <= c <= Z.of_nat (length (slots r)) -> (length (slots r) < fuel + Z.to_nat c)%nat ->
  manager_read r fuel c = shown <$> drop (Z.to_nat c) (services r).
Proof.
  intros Hwf Hall. pose proof (enumerate_dense _ 0 Hall) as Hix.
  assert (Hb : Z.of_nat (length (slots r)) <= 2 ^ 32) by apply Hwf.
  induction fuel as [|fuel IH]; intros c Hc Hf; [lia|].
  cbn [manager_read]. rewrite manager_request_list, next_manager_record_spec, skip_drop by (done || lia).
  unfold services. rewrite <- (enumerate_live_snd _ 0), <- fmap_drop.
  destruct (drop (Z.to_nat c) (enumerate_live 0 (slots r))) as [|[i s] rest] eqn:E; [done|].
  assert (Hlook : enumerate_live 0 (slots r) !! Z.to_nat c = Some (i, s)).
  { rewrite <- (Nat.add_0_r (Z.to_nat c)), <- lookup_drop, E. done. }
  assert (Hi : i = Z.to_nat c).
  { assert (H1 : (fst <$> enumerate_live 0 (slots r)) !! Z.to_nat c = Some i).
    { rewrite list_lookup_fmap, Hlook. done. }
    rewrite Hix in H1. apply lookup_seq in H1 as [-> _]. done. }
  assert (Hlt : (i < length (slots r))%nat).
  { apply (enumerate_drop _ _ _ _ _ Hlook). }
  cbn [mp_cursor mp_record]. unfold U64_MAX. destruct (Z.eqb_spec (Z.of_nat (S i)) (2 ^ 64 - 1)); [lia|].
  cbn. f_equal. rewrite IH by lia. unfold services.
  rewrite <- (enumerate_live_snd _ 0), <- fmap_drop. do 2 f_equal.
  replace (Z.to_nat (Z.of_nat (S i))) with (S (Z.to_nat c)) by lia.
  replace (S (Z.to_nat c)) with (Z.to_nat c + 1)%nat by lia. by rewrite <- drop_drop, E.
Qed.

(** What every record of a manager response satisfies. *)
Definition presentable (rec : ServiceManagerRecord) : Prop :=
  mr_reserved rec = [0; 0] ∧ mr_reserved_program rec = [0; 0; 0] ∧
  mr_name_len rec <= Z.of_nat (length (mr_name rec)).

Lemma shown_presentable s : presentable (shown s).
Proof. repeat split. cbn. unfold padded. rewrite length_app. lia. Qed.

Lemma manager_request_shape r rq :
  wf r -> handle_ok (mq_service rq) -> service_request_shape_valid rq = true ->
  exists st c rec, manager_request r rq =
    mk_mresponse MANAGER_ABI_VERSION (mq_operation rq) st (mq_request_id rq) c rec ∧
    presentable rec ∧ (mq_operation rq <> MgrList -> c = 0).
Proof.
  intros Hwf Hh Hrq. unfold manager_request. rewrite Hrq. cbn [negb].
  assert (He : presentable mrecord_EMPTY) by (repeat split; by vm_compute).
  destruct (mq_operation rq) eqn:Hop; try (do 3 eexists; split; [reflexivity|done]).
  - rewrite next_manager_record_spec by done.
    destruct (skip _ _) as [|[i s] l]; do 3 eexists; (split; [reflexivity|]); split; try done.
    apply shown_presentable.
  - destruct (get r (mq_service rq)) as [s|] eqn:Hs.
    + rewrite (manager_record_shown r _ s Hwf Hh Hs). do 3 eexists. split; [reflexivity|].
      split; [apply shown_presentable|done].
    + unfold manager_record, service. unfold get in Hs. rewrite Hs. do 3 eexists. by split.
Qed.

(** The answer to a well-formed request passes the check of the service that asked. *)
Lemma manager_response_valid r rq :
  wf r -> handle_ok (mq_service rq) -> service_request_shape_valid rq = true ->
  response_valid_for (manager_request r rq) rq = true.
Proof.
  intros Hwf Hh Hrq. destruct (manager_request_shape r rq Hwf Hh Hrq) as (st & c & rec & -> & (H1 & H2 & H3) & Hc).
  unfold service_request_shape_valid in Hrq. boolprop.
  unfold response_valid_for.
  cbn [mp_abi_version mp_operation mp_request_id mp_cursor mp_record].
  rewrite kind_codes, H1, H2. rewrite !bool_decide_eq_true_2 by (done || by eexists).
  rewrite !Z.eqb_refl. destruct (Z.eqb_spec (mq_request_id rq) 0); [done|]. cbn [andb negb orb].
  match goal with H : name_field_valid rq = true |- _ => rewrite H end. cbn [andb].
  apply andb_true_iff. split; [by apply Z.leb_le|].
  destruct (mq_operation rq); try done; by rewrite Hc.
Qed.

Lemma manager_read_end r : wf r -> forall fuel c,
  skip c (enumerate_live 0 (slots r)) = [] -> manager_read r fuel c = [].
Proof.
  intros Hwf [|fuel] c Hs; [done|]. cbn [manager_read].
  by rewrite manager_request_list, next_manager_record_spec, Hs.
Qed.

(** The shell and the session with the storage service gone. *)
Definition example_hole : RuntimeServiceRegistry :=
  (remove (set_dependencies true Example.three Example.hb []).1 Example.ha).1.

(** C34: the manager's list loses services behind a vacant slot.  After three
    services were registered and the first was removed, two are live, but a
    client that follows the cursor, for however long, is shown only one of
    them. *)
Theorem services_manager_list_skips :
  rtc (service_step true) (new_with_generation 1) example_hole ∧
  length (services example_hole) = 2%nat ∧ is_Some (get example_hole Example.hc) ∧
  forall fuel, (length (manager_read example_hole fuel 0) <= 1)%nat ∧
    Forall (fun rec => mr_service rec <> Example.hc) (manager_read example_hole fuel 0).
Proof.
  assert (Hreach : rtc (service_step true) (new_with_generation 1) example_hole).
  { eapply rtc_r; [eapply rtc_r; [apply example_three|]|].
    - apply (step_set_dependencies true Example.three true Example.hb []); [by apply handle_ok_dec|by constructor].
    - apply (step_remove true (set_dependencies true Example.three Example.hb []).1 Example.ha).
      by apply handle_ok_dec. }
  split; [exact Hreach|]. split; [vm_compute; reflexivity|]. split; [vm_compute; by eexists|].
  pose proof (proj1 (inv_reachable true 1 _ example_seed Hreach)) as Hwf.
  intros [|fuel]; [split; [cbn; lia|by constructor]|]. cbn [manager_read].
  destruct (manager_request example_hole (list_request 0)) as [v o st id c rec] eqn:E.
  vm_compute in E. injection E as <- <- <- <- <- <-. cbn [mp_cursor mp_record].
  change (2 =? U64_MAX) with false. cbv iota.
  rewrite manager_read_end; [|done|vm_compute; reflexivity].
  split; [cbn; lia|]. constructor; [|by constructor]. vm_compute. discriminate.
Qed.

Lemma services_directory_complete_witness :
  let rq := mk_request RUNTIME_ABI_VERSION OpServices 0 7 0 EMPTY in
  read_all (list_page Example.up (response_empty OpServices DirOk 0) 7) 1 0 =
  service_record <$> services Example.up.
Proof.
  exact (proj2 (services_directory_complete Example.up (mk_request RUNTIME_ABI_VERSION OpServices 0 7 0 EMPTY)
    (response_empty OpServices DirOk 0) 1 (proj2 services_example_wf) eq_refl eq_refl
    ltac:(vm_compute; lia))).
Defined.
