(* ===== verification/Events.v ===== *)
(** * Runtime events and event sets ([src/src/runtime_events.rs])

    The registry of generation-stamped events and event sets, together with the
    three static hardware cells of the source.  [wake_event_set] hands a set to
    the scheduler; the model records the sets it was called with, in order, in
    the [woken] field of the world.  The allocator's answer to each
    [try_reserve] is the boolean argument [reserve] of the operation. *)

From Stdlib Require Import ZArith Lia.
From stdpp Require Import base list option numbers relations.
From S2P Require Import Prelude Slots Directory.

#[local] Open Scope Z_scope.

(** ** Data *)

Definition NO_DEADLINE : Z := U64_MAX.
Definition DIRECTORY_EVENT_FLAG_HARDWARE_KEYBOARD : Z := 1.
Definition DIRECTORY_EVENT_FLAG_HARDWARE_POINTER : Z := 2.

Inductive HardwareEventSource : Type :=
| Network
| Keyboard
| Pointer.

(** The statics [*_EVENT_RAW], [*_SET_RAW] and [*_PENDING] of one source. *)
Record HardwareCell : Type := mk_cell {
  event_raw : Z;
  set_raw : Z;
  pending : bool
}.

Record Statics : Type := mk_statics {
  network : HardwareCell;
  keyboard : HardwareCell;
  pointer : HardwareCell
}.

Record EventRecord : Type := mk_event {
  ev_owner : ServiceHandle;
  ev_directory_flags : Z;
  ev_signaled : bool
}.

Record EventSetRecord : Type := mk_set {
  es_owner : ServiceHandle;
  es_members : list EventHandle;
  es_waiting : bool;
  es_invalidated : bool
}.

Inductive EventWait : Type :=
| Ready (event : EventHandle)
| Pending
| Timeout.

#[export] Instance source_eq_dec : EqDecision HardwareEventSource.
Proof. solve_decision. Defined.

#[export] Instance event_wait_eq_dec : EqDecision EventWait.
Proof. solve_decision. Defined.

Inductive EventError : Type :=
| Stale
| Unauthorized
| Capacity
| Duplicate
| NotMember
| InvalidDeadline
| Busy.

Record RuntimeEventRegistry : Type := mk_registry {
  events : list (slot EventRecord);
  sets : list (slot EventSetRecord);
  generation_seed : Z
}.

Record World : Type := mk_world {
  registry : RuntimeEventRegistry;
  statics : Statics;
  woken : list EventSetHandle
}.

Definition cell_new : HardwareCell := mk_cell 0 0 false.

Definition new_with_generation (g : Z) : RuntimeEventRegistry := mk_registry [] [] (Z.max g 1).
Definition new : RuntimeEventRegistry := new_with_generation 1.

(** The world at boot: an empty registry over zeroed statics. *)
Definition boot (g : Z) : World :=
  mk_world (new_with_generation g) (mk_statics cell_new cell_new cell_new) [].

(** ** Field updates *)

Definition cell (st : Statics) (src : HardwareEventSource) : HardwareCell :=
  match src with Network => network st | Keyboard => keyboard st | Pointer => pointer st end.

Definition set_cell (st : Statics) (src : HardwareEventSource) (c : HardwareCell) : Statics :=
  match src with
  | Network => mk_statics c (keyboard st) (pointer st)
  | Keyboard => mk_statics (network st) c (pointer st)
  | Pointer => mk_statics (network st) (keyboard st) c
  end.

Definition with_statics (w : World) (st : Statics) : World := mk_world (registry w) st (woken w).
Definition with_events (w : World) (evs : list (slot EventRecord)) : World :=
  mk_world (mk_registry evs (sets (registry w)) (generation_seed (registry w))) (statics w) (woken w).
Definition with_sets (w : World) (ss : list (slot EventSetRecord)) : World :=
  mk_world (mk_registry (events (registry w)) ss (generation_seed (registry w))) (statics w) (woken w).
Definition wake_event_set (w : World) (s : EventSetHandle) : World :=
  mk_world (registry w) (statics w) (woken w ++ [s]).

Definition set_signaled (b : bool) (e : EventRecord) : EventRecord :=
  mk_event (ev_owner e) (ev_directory_flags e) b.
Definition set_waiting (b : bool) (s : EventSetRecord) : EventSetRecord :=
  mk_set (es_owner s) (es_members s) b (es_invalidated s).
Definition set_members (ms : list EventHandle) (s : EventSetRecord) : EventSetRecord :=
  mk_set (es_owner s) ms (es_waiting s) (es_invalidated s).

(** ** Hardware cells *)

Definition bind_hardware_event (st : Statics) (src : HardwareEventSource) (e : EventHandle) : Statics :=
  set_cell st src (mk_cell (raw e) 0 false).

Definition clear_hardware_event (st : Statics) (src : HardwareEventSource) : Statics :=
  set_cell st src (mk_cell 0 0 false).

Definition bind_hardware_wait_set (st : Statics) (src : HardwareEventSource)
    (e : EventHandle) (s : EventSetHandle) : Statics :=
  let c := cell st src in
  if event_raw c =? raw e then set_cell st src (mk_cell (event_raw c) (raw s) (pending c)) else st.

Definition unbind_hardware_wait_set (st : Statics) (src : HardwareEventSource)
    (e : EventHandle) (s : EventSetHandle) : Statics :=
  let c := cell st src in
  if event_raw c =? raw e
  then (if set_raw c =? raw s then set_cell st src (mk_cell (event_raw c) 0 (pending c)) else st)
  else st.

Definition signal_hardware_event (w : World) (src : HardwareEventSource) : World :=
  let c := cell (statics w) src in
  if event_raw c =? 0 then w
  else
    let w := with_statics w (set_cell (statics w) src (mk_cell (event_raw c) (set_raw c) true)) in
    match from_raw (set_raw c) with
    | Some s => wake_event_set w s
    | None => w
    end.

Definition sources : list HardwareEventSource := [Network; Keyboard; Pointer].

Definition hardware_event_is_pending (st : Statics) (e : EventHandle) : bool :=
  existsb (fun src => (event_raw (cell st src) =? raw e) && pending (cell st src)) sources.

Definition consume_hardware_event (st : Statics) (e : EventHandle) : Statics :=
  foldl (fun st src =>
    let c := cell st src in
    if event_raw c =? raw e then set_cell st src (mk_cell (event_raw c) (set_raw c) false) else st)
    st sources.

Definition bind_all_hardware_wait_sets (st : Statics) (e : EventHandle) (s : EventSetHandle) : Statics :=
  foldl (fun st src => bind_hardware_wait_set st src e s) st sources.

Definition unbind_all_hardware_wait_sets (st : Statics) (e : EventHandle) (s : EventSetHandle) : Statics :=
  foldl (fun st src => unbind_hardware_wait_set st src e s) st sources.

(** ** Lookups *)

Definition event_index (r : RuntimeEventRegistry) (e : EventHandle) : result nat EventError :=
  ok_or (slot_index (events r) e) Stale.

Definition set_index (r : RuntimeEventRegistry) (s : EventSetHandle) : result nat EventError :=
  ok_or (slot_index (sets r) s) Stale.

Definition event (r : RuntimeEventRegistry) (e : EventHandle) : result EventRecord EventError :=
  ok_or (slot_get (events r) e) Stale.

Definition set (r : RuntimeEventRegistry) (s : EventSetHandle) : result EventSetRecord EventError :=
  ok_or (slot_get (sets r) s) Stale.

(** ** Creation *)

Definition create_event_with_flags (reserve : bool) (w : World) (owner : ServiceHandle) (flags : Z) :
    World * result EventHandle EventError :=
  if negb (is_valid owner) then (w, Err Unauthorized)
  else match allocate reserve (events (registry w)) (generation_seed (registry w)) with
  | None => (w, Err Capacity)
  | Some (slots, i) =>
      match handle_new (wrap 32 (Z.of_nat i)) (generation_at slots i) with
      | None => (with_events w slots, Err Capacity)
      | Some h => (with_events w (fill slots i (mk_event owner flags false)), Ok h)
      end
  end.

Definition create_event (reserve : bool) (w : World) (owner : ServiceHandle) :
    World * result EventHandle EventError :=
  create_event_with_flags reserve w owner 0.

Definition create_hardware_event (reserve : bool) (w : World) (owner : ServiceHandle)
    (src : HardwareEventSource) : World * result EventHandle EventError :=
  let flags :=
    match src with
    | Network => 0
    | Keyboard => DIRECTORY_EVENT_FLAG_HARDWARE_KEYBOARD
    | Pointer => DIRECTORY_EVENT_FLAG_HARDWARE_POINTER
    end in
  match create_event_with_flags reserve w owner flags with
  | (w, Err err) => (w, Err err)
  | (w, Ok e) => (with_statics w (bind_hardware_event (statics w) src e), Ok e)
  end.

Definition create_set (reserve : bool) (w : World) (owner : ServiceHandle) :
    World * result EventSetHandle EventError :=
  if negb (is_valid owner) then (w, Err Unauthorized)
  else match allocate reserve (sets (registry w)) (generation_seed (registry w)) with
  | None => (w, Err Capacity)
  | Some (slots, i) =>
      match handle_new (wrap 32 (Z.of_nat i)) (generation_at slots i) with
      | None => (with_sets w slots, Err Capacity)
      | Some h => (with_sets w (fill slots i (mk_set owner [] false false)), Ok h)
      end
  end.

(** ** Membership *)

Definition add (reserve : bool) (w : World) (owner : ServiceHandle) (s : EventSetHandle)
    (e : EventHandle) : World * result unit EventError :=
  match event (registry w) e with
  | Err err => (w, Err err)
  | Ok er =>
      if negb (bool_decide (ev_owner er = owner)) then (w, Err Unauthorized)
      else match set (registry w) s with
      | Err err => (w, Err err)
      | Ok sr =>
          if negb (bool_decide (es_owner sr = owner)) then (w, Err Unauthorized)
          else if es_invalidated sr then (w, Err Stale)
          else if es_waiting sr then (w, Err Busy)
          else if bool_decide (e ∈ es_members sr) then (w, Err Duplicate)
          else if negb reserve then (w, Err Capacity)
          else
            let w := with_sets w (modify (set_members (es_members sr ++ [e])) (sets (registry w))
                                    (Z.to_nat (index s))) in
            (with_statics w (bind_all_hardware_wait_sets (statics w) e s), Ok tt)
      end
  end.

(** [members.remove(index)]. *)
Definition remove_at {A} (l : list A) (i : nat) : list A := take i l ++ drop (S i) l.

Definition remove (w : World) (owner : ServiceHandle) (s : EventSetHandle) (e : EventHandle) :
    World * result unit EventError :=
  match set (registry w) s with
  | Err err => (w, Err err)
  | Ok sr =>
      if negb (bool_decide (es_owner sr = owner)) then (w, Err Unauthorized)
      else if es_invalidated sr then (w, Err Stale)
      else if es_waiting sr then (w, Err Busy)
      else match list_find (fun m => m = e) (es_members sr) with
      | None => (w, Err NotMember)
      | Some (i, _) =>
          let w := with_sets w (modify (set_members (remove_at (es_members sr) i)) (sets (registry w))
                                  (Z.to_nat (index s))) in
          (with_statics w (unbind_all_hardware_wait_sets (statics w) e s), Ok tt)
      end
  end.

(** ** Signals *)

(** The sets [for_each_waiter] calls back with, in table order. *)
Fixpoint waiters_from (i : nat) (slots : list (slot EventSetRecord)) (e : EventHandle) :
    list EventSetHandle :=
  match slots with
  | [] => []
  | s :: slots =>
      let rest := waiters_from (S i) slots e in
      match slot_value s with
      | None => rest
      | Some r =>
          if negb (es_waiting r) || negb (bool_decide (e ∈ es_members r)) then rest
          else match handle_new (wrap 32 (Z.of_nat i)) (slot_generation s) with
          | None => rest
          | Some h => h :: rest
          end
      end
  end.

Definition waiters (r : RuntimeEventRegistry) (e : EventHandle) : list EventSetHandle :=
  waiters_from 0 (sets r) e.

(** [for_each_waiter(event, |set, _| wake_event_set(set))], also [wake_waiters]. *)
Definition wake_waiters (w : World) (e : EventHandle) : World :=
  foldl wake_event_set w (waiters (registry w) e).

Definition store_signaled (w : World) (e : EventHandle) (b : bool) : World :=
  with_events w (modify (set_signaled b) (events (registry w)) (Z.to_nat (index e))).

Definition signal_irq (w : World) (e : EventHandle) : World * result unit EventError :=
  match event (registry w) e with
  | Err err => (w, Err err)
  | Ok _ => (wake_waiters (store_signaled w e true) e, Ok tt)
  end.

Definition signal (w : World) (owner : ServiceHandle) (e : EventHandle) :
    World * result unit EventError :=
  match event (registry w) e with
  | Err err => (w, Err err)
  | Ok er =>
      if negb (bool_decide (ev_owner er = owner)) then (w, Err Unauthorized)
      else (wake_waiters (store_signaled w e true) e, Ok tt)
  end.

(** ** Waiting *)

(** The member scan of [wait_any] and [has_ready_event]: the first signalled
    member, or the error of a member that no longer resolves. *)
Fixpoint first_ready (w : World) (members : list EventHandle) : result (option EventHandle) EventError :=
  match members with
  | [] => Ok None
  | e :: members =>
      match event (registry w) e with
      | Err err => Err err
      | Ok er =>
          if ev_signaled er || hardware_event_is_pending (statics w) e
          then Ok (Some e) else first_ready w members
      end
  end.

Definition store_waiting (w : World) (s : EventSetHandle) (b : bool) : World :=
  with_sets w (modify (set_waiting b) (sets (registry w)) (Z.to_nat (index s))).

Definition wait_any (w : World) (owner : ServiceHandle) (s : EventSetHandle) (now : Z)
    (deadline : option Z) : World * result EventWait EventError :=
  let deadline := default NO_DEADLINE deadline in
  if negb (deadline =? NO_DEADLINE) && (deadline <? now) then (w, Err InvalidDeadline)
  else match set (registry w) s with
  | Err err => (w, Err err)
  | Ok sr =>
      if negb (bool_decide (es_owner sr = owner)) then (w, Err Unauthorized)
      else if es_invalidated sr then (w, Err Stale)
      else match first_ready w (es_members sr) with
      | Err err => (w, Err err)
      | Ok (Some e) =>
          let w := store_signaled w e false in
          let w := with_statics w (consume_hardware_event (statics w) e) in
          (store_waiting w s false, Ok (Ready e))
      | Ok None =>
          if negb (deadline =? NO_DEADLINE) && (deadline <=? now)
          then (store_waiting w s false, Ok Timeout)
          else (store_waiting w s true, Ok Pending)
      end
  end.

Definition has_ready_event (w : World) (owner : ServiceHandle) (s : EventSetHandle) :
    result bool EventError :=
  match set (registry w) s with
  | Err err => Err err
  | Ok sr =>
      if negb (bool_decide (es_owner sr = owner)) then Err Unauthorized
      else match first_ready w (es_members sr) with
      | Err err => Err err
      | Ok o => Ok (bool_decide (is_Some o))
      end
  end.

Definition members (w : World) (owner : ServiceHandle) (s : EventSetHandle) :
    result (list EventHandle) EventError :=
  match set (registry w) s with
  | Err err => Err err
  | Ok sr => if negb (bool_decide (es_owner sr = owner)) then Err Unauthorized else Ok (es_members sr)
  end.

Definition is_waiting (w : World) (owner : ServiceHandle) (s : EventSetHandle) : result bool EventError :=
  match set (registry w) s with
  | Err err => Err err
  | Ok sr => if negb (bool_decide (es_owner sr = owner)) then Err Unauthorized else Ok (es_waiting sr)
  end.

Definition cancel_wait (w : World) (owner : ServiceHandle) (s : EventSetHandle) :
    World * result unit EventError :=
  match set (registry w) s with
  | Err err => (w, Err err)
  | Ok sr =>
      if negb (bool_decide (es_owner sr = owner)) then (w, Err Unauthorized)
      else if es_invalidated sr then (w, Err Stale)
      else
        let w := store_waiting w s false in
        ((if es_waiting sr then wake_event_set w s else w), Ok tt)
  end.

(** ** Destruction *)

(** The loop of [destroy_event] over the sets: drop the event from every set,
    invalidating those that held it and unbinding them from the hardware cells. *)
Fixpoint drop_event_from (i : nat) (slots : list (slot EventSetRecord)) (e : EventHandle)
    (st : Statics) : list (slot EventSetRecord) * Statics :=
  match slots with
  | [] => ([], st)
  | s :: slots =>
      let '(s', st') :=
        match handle_new (wrap 32 (Z.of_nat i)) (slot_generation s) with
        | None => (s, st)
        | Some set_handle =>
            match slot_value s with
            | None => (s, st)
            | Some r =>
                let contains := bool_decide (e ∈ es_members r) in
                let r' := mk_set (es_owner r) (filter (fun m => m ≠ e) (es_members r))
                            (if contains then false else es_waiting r)
                            (if contains then true else es_invalidated r) in
                (mk_slot (slot_generation s) (Some r'),
                 if contains then unbind_all_hardware_wait_sets st e set_handle else st)
            end
        end in
      let '(slots', st'') := drop_event_from (S i) slots e st' in
      (s' :: slots', st'')
  end.

Definition clear_sources (st : Statics) (e : EventHandle) : Statics :=
  foldl (fun st src =>
    if event_raw (cell st src) =? raw e then clear_hardware_event st src else st) st sources.

Definition destroy_event (w : World) (owner : ServiceHandle) (e : EventHandle) :
    World * result unit EventError :=
  match event_index (registry w) e with
  | Err err => (w, Err err)
  | Ok i =>
      match event (registry w) e with
      | Ok er =>
          if negb (bool_decide (ev_owner er = owner)) then (w, Err Unauthorized)
          else
            let w := wake_waiters w e in
            let w := with_events w (vacate (events (registry w)) i) in
            let '(ss, st) := drop_event_from 0 (sets (registry w)) e (statics w) in
            let w := with_statics (with_sets w ss) st in
            (with_statics w (clear_sources (statics w) e), Ok tt)
      | Err err => (w, Err err)
      end
  end.

Definition destroy_set (w : World) (owner : ServiceHandle) (s : EventSetHandle) :
    World * result unit EventError :=
  match set_index (registry w) s with
  | Err err => (w, Err err)
  | Ok i =>
      match set (registry w) s with
      | Ok sr =>
          if negb (bool_decide (es_owner sr = owner)) then (w, Err Unauthorized)
          else
            let w := if es_waiting sr then wake_event_set w s else w in
            let w := with_statics w
              (foldl (fun st e => unbind_all_hardware_wait_sets st e s) (statics w) (es_members sr)) in
            (with_sets w (vacate (sets (registry w)) i), Ok tt)
      | Err err => (w, Err err)
      end
  end.

Definition ownership_count (r : RuntimeEventRegistry) (owner : ServiceHandle) : nat :=
  length (filter (fun e => ev_owner e = owner) (live (events r))).

Definition event_set_count (r : RuntimeEventRegistry) (owner : ServiceHandle) : nat :=
  length (filter (fun s => es_owner s = owner) (live (sets r))).

Definition destroy_service (w : World) (owner : ServiceHandle) : World :=
  let evs : list EventHandle :=
    handles_from 0 (events (registry w)) (fun e => bool_decide (ev_owner e = owner)) in
  let w := foldl (fun w e => (destroy_event (wake_waiters w e) owner e).1) w evs in
  let ss : list EventSetHandle :=
    handles_from 0 (sets (registry w)) (fun s => bool_decide (es_owner s = owner)) in
  foldl (fun w s =>
    let w := match set (registry w) s with
             | Ok sr => if es_waiting sr then wake_event_set w s else w
             | Err _ => w
             end in
    (destroy_set w owner s).1) w ss.

(** ** Directory *)

Definition event_item (i : nat) (s : slot EventRecord) (e : EventRecord) : PageItem :=
  match handle_new (k := KEvent) (wrap 32 (Z.of_nat i)) (slot_generation s) with
  | None => ItemFail
  | Some h =>
      ItemRecord (mk_record KindEvent 0 (ev_directory_flags e) (raw h) (ev_owner e)
        0 0 0 EMPTY 0 [0] (replicate MAX_SERVICE_NAME_BYTES 0))
  end.

Fixpoint event_items_from (i : nat) (slots : list (slot EventRecord)) (subject : ServiceHandle) :
    list PageItem :=
  match slots with
  | [] => []
  | s :: slots =>
      let rest := event_items_from (S i) slots subject in
      match slot_value s with
      | None => rest
      | Some e => if bool_decide (ev_owner e = subject) then event_item i s e :: rest else rest
      end
  end.

Definition directory (w : World) (rq : DirectoryRequest) (rs : DirectoryResponse) :
    DirectoryResponse * DirectoryStatus :=
  if negb (request_is_valid rq) || negb (bool_decide (rq_operation rq = OpEvents))
     || negb (is_valid (rq_subject rq))
  then (rs, DirMalformed)
  else page (rq_operation rq) rq (event_items_from 0 (events (registry w)) (rq_subject rq)).

(** ** Invariant and reachable worlds *)

Definition set_ok (evs : list (slot EventRecord)) (sr : EventSetRecord) : Prop :=
  NoDup (es_members sr) ∧
  (forall e, e ∈ es_members sr ->
     handle_ok e ∧ exists er, slot_get evs e = Some er ∧ ev_owner er = es_owner sr) ∧
  (es_waiting sr = true -> es_invalidated sr = false).

Record wf (w : World) : Prop := {
  wf_events : slots_wf (events (registry w));
  wf_sets : slots_wf (sets (registry w));
  wf_seed : gen_ok 32 (generation_seed (registry w));
  wf_set_ok : forall (s : EventSetHandle) sr, handle_ok s ->
    slot_get (sets (registry w)) s = Some sr -> set_ok (events (registry w)) sr
}.

(** The tables stay below the 2^32 records a handle can name. *)
Definition room (w : World) : Prop :=
  Z.of_nat (length (events (registry w))) < 2 ^ 32 ∧ Z.of_nat (length (sets (registry w))) < 2 ^ 32.

Inductive event_step : World -> World -> Prop :=
| step_create_event b w o fl : room w -> event_step w (create_event_with_flags b w o fl).1
| step_create_hardware_event b w o src : room w -> event_step w (create_hardware_event b w o src).1
| step_create_set b w o : room w -> event_step w (create_set b w o).1
| step_add b w o s e : handle_ok s -> handle_ok e -> event_step w (add b w o s e).1
| step_remove w o s e : handle_ok s -> handle_ok e -> event_step w (remove w o s e).1
| step_signal_irq w e : handle_ok e -> event_step w (signal_irq w e).1
| step_signal w o e : handle_ok e -> event_step w (signal w o e).1
| step_signal_hardware w src : event_step w (signal_hardware_event w src)
| step_wait_any w o s now d : handle_ok s -> event_step w (wait_any w o s now d).1
| step_cancel_wait w o s : handle_ok s -> event_step w (cancel_wait w o s).1
| step_destroy_event w o e : handle_ok e -> event_step w (destroy_event w o e).1
| step_destroy_set w o s : handle_ok s -> event_step w (destroy_set w o s).1
| step_destroy_service w o : event_step w (destroy_service w o).

(** ** Lemmas *)

Lemma event_Ok r e er : event r e = Ok er <-> slot_get (events r) e = Some er.
Proof. unfold event, ok_or. case_match; split; congruence. Qed.

Lemma set_Ok r s sr : set r s = Ok sr <-> slot_get (sets r) s = Some sr.
Proof. unfold set, ok_or. case_match; split; congruence. Qed.

Lemma wake_waiters_eq w e :
  wake_waiters w e = mk_world (registry w) (statics w) (woken w ++ waiters (registry w) e).
Proof.
  unfold wake_waiters. generalize (waiters (registry w) e) as l. intros l. revert w.
  induction l as [|s l IH]; intros [r st lg]; simpl; [by rewrite app_nil_r|].
  rewrite IH. simpl. by rewrite <- app_assoc.
Qed.

Lemma set_ok_impl evs evs' sr :
  (forall e er, e ∈ es_members sr -> handle_ok e -> slot_get evs e = Some er ->
     exists er', slot_get evs' e = Some er' ∧ ev_owner er' = ev_owner er) ->
  set_ok evs sr -> set_ok evs' sr.
Proof.
  intros Hi (Hn & Hm & Hw). split; [done|]. split; [|done]. intros e He.
  destruct (Hm e He) as (Hok & er & Her & Ho). split; [done|].
  destruct (Hi e er He Hok Her) as (er' & Her' & Ho'). exists er'. split; [done|congruence].
Qed.

Definition drop_member (e : EventHandle) (r : EventSetRecord) : EventSetRecord :=
  let contains := bool_decide (e ∈ es_members r) in
  mk_set (es_owner r) (filter (fun m => m ≠ e) (es_members r))
    (if contains then false else es_waiting r) (if contains then true else es_invalidated r).

Lemma drop_event_from_map e slots : forall i st,
  Forall (fun s => gen_ok 32 (slot_generation s)) slots ->
  (drop_event_from i slots e st).1 = map_slots (drop_member e) slots.
Proof.
  induction slots as [|s slots IH]; intros i st Hf; [done|].
  apply Forall_cons in Hf as [Hg Hf]. simpl. unfold gen_ok in Hg.
  assert (exists h : EventSetHandle, handle_new (wrap 32 (Z.of_nat i)) (slot_generation s) = Some h)
    as [h ->].
  { unfold handle_new. destruct (Z.eqb_spec (slot_generation s) 0); [lia|eauto]. }
  destruct s as [g [r|]]; simpl.
  - match goal with |- context [drop_event_from (S i) slots e ?x] => pose proof (IH (S i) x Hf) as E end.
    destruct (drop_event_from (S i) slots e _). simpl in *. by rewrite E.
  - pose proof (IH (S i) st Hf) as E. destruct (drop_event_from (S i) slots e st). simpl in *. by rewrite E.
Qed.

(** The registry after a successful [destroy_event]. *)
Lemma destroy_event_registry w o e :
  wf w -> handle_ok e ->
  registry (destroy_event w o e).1 =
  match slot_get (events (registry w)) e with
  | Some er =>
      if decide (ev_owner er = o)
      then mk_registry (vacate (events (registry w)) (Z.to_nat (index e)))
             (map_slots (drop_member e) (sets (registry w))) (generation_seed (registry w))
      else registry w
  | None => registry w
  end.
Proof.
  intros Hwf He. unfold destroy_event, event_index. rewrite slot_index_get.
  destruct (slot_get _ e) as [er|] eqn:E; [|done]. simpl. rewrite (proj2 (event_Ok _ _ _) E).
  destruct (decide (ev_owner er = o)) as [Ho|Ho].
  - rewrite bool_decide_eq_true_2 by done. simpl. rewrite wake_waiters_eq. simpl.
    pose proof (drop_event_from_map e (sets (registry w)) 0 (statics w)
      (proj1 (wf_sets w Hwf))) as Hd.
    destruct (drop_event_from _ _ _ _). simpl in *. by rewrite Hd.
  - by rewrite bool_decide_eq_false_2.
Qed.

(** The registry after a successful [destroy_set]. *)
Lemma destroy_set_registry w o s :
  registry (destroy_set w o s).1 =
  match slot_get (sets (registry w)) s with
  | Some sr =>
      if decide (es_owner sr = o)
      then mk_registry (events (registry w)) (vacate (sets (registry w)) (Z.to_nat (index s)))
             (generation_seed (registry w))
      else registry w
  | None => registry w
  end.
Proof.
  unfold destroy_set, set_index. rewrite slot_index_get.
  destruct (slot_get _ s) as [sr|] eqn:E; [|done]. simpl. rewrite (proj2 (set_Ok _ _ _) E).
  destruct (decide (es_owner sr = o)) as [Ho|Ho].
  - rewrite bool_decide_eq_true_2 by done. simpl. by destruct (es_waiting sr).
  - by rewrite bool_decide_eq_false_2.
Qed.

Lemma waiters_spec r e s :
  slots_wf (sets r) ->
  s ∈ waiters r e <->
  handle_ok s ∧ exists sr, slot_get (sets r) s = Some sr ∧ es_waiting sr = true ∧ e ∈ es_members sr.
Proof.
  intros Hwf. pose (p := fun sr => es_waiting sr && bool_decide (e ∈ es_members sr)).
  assert (Heq : forall i l, waiters_from i l e = handles_from i l p).
  { intros i l. revert i. induction l as [|[g [sr|]] l IH]; intros i; simpl; [done| |by rewrite IH].
    rewrite IH. unfold p. by destruct (es_waiting sr), (bool_decide (e ∈ es_members sr)). }
  unfold waiters. rewrite Heq, handles_from_spec by done. unfold p.
  setoid_rewrite andb_true_iff. by setoid_rewrite bool_decide_eq_true.
Qed.

(** ** Preservation of the invariant *)

Lemma wf_eq w w' : registry w' = registry w -> wf w -> wf w'.
Proof. intros E [H1 H2 H3 H4]. split; by rewrite E. Qed.

Lemma wf_with_statics w st : wf w -> wf (with_statics w st).
Proof. by apply wf_eq. Qed.

Lemma wf_with_events w evs :
  wf w -> slots_wf evs ->
  (forall (e : EventHandle) er, handle_ok e -> slot_get (events (registry w)) e = Some er ->
     exists er', slot_get evs e = Some er' ∧ ev_owner er' = ev_owner er) ->
  wf (with_events w evs).
Proof.
  intros [H1 H2 H3 H4] Hevs Hi. split; [done..|]. simpl. intros s sr Hs Hsr.
  eapply set_ok_impl; [|by eapply H4]. naive_solver.
Qed.

Lemma wf_with_sets w ss :
  wf w -> slots_wf ss ->
  (forall (s : EventSetHandle) sr, handle_ok s -> slot_get ss s = Some sr -> set_ok (events (registry w)) sr) ->
  wf (with_sets w ss).
Proof. intros [H1 H2 H3 H4] Hss Hi. by split. Qed.

Lemma wf_modify_set w f (s : EventSetHandle) sr :
  wf w -> handle_ok s -> slot_get (sets (registry w)) s = Some sr ->
  (set_ok (events (registry w)) sr -> set_ok (events (registry w)) (f sr)) ->
  wf (with_sets w (modify f (sets (registry w)) (Z.to_nat (index s)))).
Proof.
  intros Hwf Hs Hsr Hf. apply wf_with_sets; [done|apply slots_wf_modify, Hwf|].
  intros s' sr' Hs'. rewrite (slot_get_modify f _ s sr s') by done.
  case_decide; intros; simplify_eq; [apply Hf|]; by eapply wf_set_ok.
Qed.

Lemma wf_store_signaled w e er b :
  wf w -> handle_ok e -> slot_get (events (registry w)) e = Some er -> wf (store_signaled w e b).
Proof.
  intros Hwf He Her. apply wf_with_events; [done|apply slots_wf_modify, Hwf|].
  intros e' er' He' Her'. rewrite (slot_get_modify _ _ e er e') by done.
  case_decide; simplify_eq; eauto.
Qed.

Lemma wf_store_waiting w s sr b :
  wf w -> handle_ok s -> slot_get (sets (registry w)) s = Some sr -> es_invalidated sr = false ->
  wf (store_waiting w s b).
Proof.
  intros Hwf Hs Hsr Hinv. eapply wf_modify_set; [done..|]. intros (Hn & Hm & _).
  by split; [|split].
Qed.

Lemma wf_create_event b w o fl : wf w -> room w -> wf (create_event_with_flags b w o fl).1.
Proof.
  intros Hwf [Hr _]. unfold create_event_with_flags. destruct (negb (is_valid o)); [done|].
  destruct (allocate b _ _) as [[slots i]|] eqn:Ha; [|done].
  destruct (create_spec (k := KEvent) b _ _ slots i (mk_event o fl false)
    (wf_events w Hwf) (wf_seed w Hwf) Hr Ha) as (h & -> & Hok & _ & Hswf & Hnone & Hget).
  apply wf_with_events; [done..|]. intros e er He Her. rewrite Hget by done.
  rewrite decide_False by congruence. eauto.
Qed.

(** What the creator of an event gets. *)
Lemma create_event_ok b w o w' h :
  wf w -> room w -> create_event b w o = (w', Ok h) ->
  handle_ok h ∧ is_valid h = true ∧ is_valid o = true ∧
  slot_get (events (registry w)) h = None ∧
  (forall e, handle_ok e -> slot_get (events (registry w')) e =
     if decide (e = h) then Some (mk_event o 0 false) else slot_get (events (registry w)) e) ∧
  sets (registry w') = sets (registry w) ∧
  (length (events (registry w')) <= S (length (events (registry w))))%nat.
Proof.
  intros Hwf [Hr _]. unfold create_event, create_event_with_flags.
  destruct (is_valid o) eqn:Ho; [|done]. simpl.
  destruct (allocate b _ _) as [[slots i]|] eqn:Ha; [|done].
  destruct (create_spec (k := KEvent) b _ _ slots i (mk_event o 0 false)
    (wf_events w Hwf) (wf_seed w Hwf) Hr Ha) as (h' & -> & Hok & Hv & Hswf & Hnone & Hget).
  intros E. simplify_eq. apply allocate_length in Ha. simpl. rewrite length_fill. conj.
Qed.

Lemma create_hardware_event_registry b w o src :
  exists fl, registry (create_hardware_event b w o src).1 =
    registry (create_event_with_flags b w o fl).1.
Proof.
  exists (match src with Network => 0 | Keyboard => DIRECTORY_EVENT_FLAG_HARDWARE_KEYBOARD
     | Pointer => DIRECTORY_EVENT_FLAG_HARDWARE_POINTER end).
  unfold create_hardware_event. by destruct (create_event_with_flags b w o _) as [w' [h|err]].
Qed.

Lemma wf_create_set b w o : wf w -> room w -> wf (create_set b w o).1.
Proof.
  intros Hwf [_ Hr]. unfold create_set. destruct (negb (is_valid o)); [done|].
  destruct (allocate b _ _) as [[slots i]|] eqn:Ha; [|done].
  destruct (create_spec (k := KEventSet) b _ _ slots i (mk_set o [] false false)
    (wf_sets w Hwf) (wf_seed w Hwf) Hr Ha) as (h & -> & Hok & _ & Hswf & Hnone & Hget).
  apply wf_with_sets; [done..|]. intros s sr Hs. rewrite Hget by done. case_decide.
  - intros [= <-]. split; [constructor|]. split; [|done]. by intros e ?%not_elem_of_nil.
  - by apply wf_set_ok.
Qed.

Lemma wf_add b w o s e : wf w -> handle_ok s -> handle_ok e -> wf (add b w o s e).1.
Proof.
  intros Hwf Hs He. unfold add. destruct (event _ e) as [er|] eqn:Ee; [|done].
  case_bool_decide as Ho; [|done]. destruct (set _ s) as [sr|] eqn:Es; [|done]. simpl.
  case_bool_decide as Ho'; [|done]. simpl.
  destruct (es_invalidated sr) eqn:Ei; [done|]. destruct (es_waiting sr) eqn:Ew; [done|].
  case_bool_decide as Hd; [done|]. destruct b; [|done]. simpl. apply event_Ok in Ee. apply set_Ok in Es.
  apply wf_with_statics. eapply wf_modify_set; [done..|]. intros (Hn & Hm & Hw).
  split; [|split]; simpl; [|intros e' [H| ->%list_elem_of_singleton]%elem_of_app|congruence].
  - apply NoDup_app. split; [done|]. split; [|apply NoDup_singleton].
    intros x Hx ->%list_elem_of_singleton. done.
  - by apply Hm.
  - split; [done|]. exists er. split; congruence.
Qed.

Lemma remove_at_sublist {A} (l : list A) i : sublist (remove_at l i) l.
Proof.
  unfold remove_at. rewrite <- (take_drop i l) at 3. apply sublist_app; [done|].
  replace (S i) with (i + 1)%nat by lia. rewrite <- drop_drop. apply sublist_drop.
Qed.

Lemma wf_remove w o s e : wf w -> handle_ok s -> wf (remove w o s e).1.
Proof.
  intros Hwf Hs. unfold remove. destruct (set _ s) as [sr|] eqn:Es; [|done].
  destruct (negb _); [done|]. destruct (es_invalidated sr) eqn:Ei; [done|].
  destruct (es_waiting sr) eqn:Ew; [done|]. destruct (list_find _ _) as [[i x]|]; [|done].
  apply set_Ok in Es. apply wf_with_statics. eapply wf_modify_set; [done..|].
  pose proof (remove_at_sublist (es_members sr) i) as Hsub. intros (Hn & Hm & Hw).
  split; [|split]; simpl; [by eapply sublist_NoDup| |congruence].
  intros e' He'. apply Hm. eapply elem_of_submseteq; [done|by apply sublist_submseteq].
Qed.

(** The member scan returns the first ready member; no member is stale. *)
Definition ready (w : World) (e : EventHandle) : Prop :=
  (exists er, slot_get (events (registry w)) e = Some er ∧ ev_signaled er = true) ∨
  hardware_event_is_pending (statics w) e = true.

Lemma first_ready_spec w ms :
  (forall e, e ∈ ms -> exists er, slot_get (events (registry w)) e = Some er) ->
  match first_ready w ms with
  | Ok (Some e) => exists i, ms !! i = Some e ∧ ready w e ∧
      forall j e', (j < i)%nat -> ms !! j = Some e' -> ~ ready w e'
  | Ok None => forall e, e ∈ ms -> ~ ready w e
  | Err _ => False
  end.
Proof.
  induction ms as [|e ms IH]; intros Hm; simpl; [by intros e ?%not_elem_of_nil|].
  destruct (Hm e ltac:(by left)) as [er Her]. rewrite (proj2 (event_Ok _ _ _) Her).
  destruct (ev_signaled er || hardware_event_is_pending (statics w) e) eqn:Er.
  - exists 0%nat. split; [done|]. split; [|lia]. apply orb_true_iff in Er as [|]; [left|right]; eauto.
  - apply orb_false_iff in Er as [Er1 Er2].
    assert (Hnr : ~ ready w e).
    { intros [(er' & Her' & ?)|?]; congruence. }
    specialize (IH (fun e' He' => Hm e' (list_elem_of_further _ _ _ He'))).
    destruct (first_ready w ms) as [[e'|]|]; [|intros x [->|Hx]%elem_of_cons; by auto|done].
    destruct IH as (i & Hi & Hr & Hlt). exists (S i). split; [done|]. split; [done|].
    intros [|j] x Hj Hx; simpl in Hx; [congruence|]. eapply Hlt; [|done]. lia.
Qed.

Lemma member_resolves w (s : EventSetHandle) sr e :
  wf w -> handle_ok s -> slot_get (sets (registry w)) s = Some sr -> e ∈ es_members sr ->
  handle_ok e ∧ exists er, slot_get (events (registry w)) e = Some er ∧ ev_owner er = es_owner sr.
Proof. intros Hwf Hs Hsr. by apply (wf_set_ok w Hwf s sr Hs Hsr). Qed.

Lemma wf_wait_any w o s now d : wf w -> handle_ok s -> wf (wait_any w o s now d).1.
Proof.
  intros Hwf Hs. unfold wait_any. destruct (_ && _); [done|].
  destruct (set _ s) as [sr|] eqn:Es; [|done]. destruct (negb (bool_decide _)); [done|].
  destruct (es_invalidated sr) eqn:Ei; [done|]. apply set_Ok in Es.
  pose proof (first_ready_spec w (es_members sr)) as Hf.
  destruct (first_ready w (es_members sr)) as [[e|]|err]; [..|done].
  - destruct Hf as (i & Hi & _); [intros x Hx; by destruct (member_resolves w s sr x) as (? & ? & ? & ?); eauto|].
    apply list_elem_of_lookup_2 in Hi.
    destruct (member_resolves w s sr e) as (He & er & Her & _); [done..|].
    simpl. eapply wf_store_waiting; [|done| |done].
    + apply wf_with_statics. by eapply wf_store_signaled.
    + done.
  - destruct (_ && _); by eapply wf_store_waiting.
Qed.

Lemma wf_cancel_wait w o s : wf w -> handle_ok s -> wf (cancel_wait w o s).1.
Proof.
  intros Hwf Hs. unfold cancel_wait. destruct (set _ s) as [sr|] eqn:Es; [|done].
  destruct (negb _); [done|]. destruct (es_invalidated sr) eqn:Ei; [done|]. apply set_Ok in Es.
  assert (wf (store_waiting w s false)) by (by eapply wf_store_waiting).
  simpl. destruct (es_waiting sr); [|done].
  by apply (wf_eq (store_waiting w s false)).
Qed.

Lemma wf_signal_irq w e : wf w -> handle_ok e -> wf (signal_irq w e).1.
Proof.
  intros Hwf He. unfold signal_irq. destruct (event _ e) as [er|] eqn:Ee; [|done].
  apply event_Ok in Ee. simpl. rewrite wake_waiters_eq.
  eapply wf_eq; [|by eapply (wf_store_signaled w e er true)]. done.
Qed.

(** [signal] is [signal_irq] behind the owner check. *)
Lemma signal_cases w o e :
  (signal w o e).1 = w ∨ (signal w o e).1 = (signal_irq w e).1.
Proof. unfold signal, signal_irq. destruct (event _ e); [destruct (negb _)|]; auto. Qed.

Lemma drop_member_ok evs e er0 sr :
  handle_ok e -> slot_get evs e = Some er0 ->
  set_ok evs sr -> set_ok (vacate evs (Z.to_nat (index e))) (drop_member e sr).
Proof.
  intros He Her0 (Hn & Hm & Hw). split; [|split]; simpl.
  - by apply NoDup_filter.
  - intros x [Hx Hin]%list_elem_of_filter. destruct (Hm x Hin) as (Hok & er & Her & Ho).
    split; [done|]. exists er. split; [|done]. rewrite (slot_get_vacate _ e er0) by done.
    by rewrite decide_False.
  - case_bool_decide; [done|]. done.
Qed.

Lemma wf_destroy_event w o e : wf w -> handle_ok e -> wf (destroy_event w o e).1.
Proof.
  intros Hwf He. pose proof (destroy_event_registry w o e Hwf He) as E.
  destruct (slot_get _ e) as [er|] eqn:Her; [case_decide|]; [|by eapply wf_eq..].
  split; rewrite E; simpl.
  - apply slots_wf_vacate, Hwf.
  - apply slots_wf_map, Hwf.
  - apply Hwf.
  - intros s sr Hs. rewrite slot_get_map. intros (sr0 & Hsr0 & ->)%fmap_Some.
    eapply drop_member_ok; [done..|by eapply wf_set_ok].
Qed.

Lemma wf_destroy_set w o s : wf w -> handle_ok s -> wf (destroy_set w o s).1.
Proof.
  intros Hwf Hs. pose proof (destroy_set_registry w o s) as E.
  destruct (slot_get _ s) as [sr|] eqn:Hsr; [case_decide|]; [|by eapply wf_eq..].
  split; rewrite E; simpl; [apply Hwf|apply slots_wf_vacate, Hwf|apply Hwf|].
  intros s' sr' Hs'. rewrite (slot_get_vacate _ s sr) by done. case_decide; [done|]. by apply wf_set_ok.
Qed.

(** [destroy_service] is a sequence of wakes, event and set destructions. *)
Lemma destroy_service_inv (P : World -> Prop) w o :
  (forall w s, P w -> P (wake_event_set w s)) ->
  (forall w e, wf w -> handle_ok e -> P w -> P (destroy_event w o e).1) ->
  (forall w s, wf w -> handle_ok s -> P w -> P (destroy_set w o s).1) ->
  wf w -> P w -> wf (destroy_service w o) ∧ P (destroy_service w o).
Proof.
  intros Hw He Hs Hwf HP. unfold destroy_service.
  assert (Hww : forall w e, wf w ∧ P w -> wf (wake_waiters w e) ∧ P (wake_waiters w e)).
  { intros w0 e H0. unfold wake_waiters. apply (foldl_inv (fun w => wf w ∧ P w)); [|done].
    intros w1 s _ [? ?]. split; [by apply (wf_eq w1)|by apply Hw]. }
  match goal with |- context [foldl ?f w ?l] => assert (wf (foldl f w l) ∧ P (foldl f w l)) as [Hwf1 HP1] end.
  { apply (foldl_inv (fun w => wf w ∧ P w)); [|done]. intros w1 e Hin H1.
    apply handles_from_spec in Hin as [Hok _]; [|apply Hwf].
    apply (Hww _ e) in H1 as [H1 HP1]. split; [by apply wf_destroy_event|by apply He]. }
  apply (foldl_inv (fun w => wf w ∧ P w)); [|done]. intros w1 s Hin [H1 HP2].
  apply handles_from_spec in Hin as [Hok _]; [|apply Hwf1].
  set (w2 := match set (registry w1) s with Ok sr => _ | Err _ => w1 end).
  assert (wf w2 ∧ P w2) as [H2 HP3].
  { unfold w2. destruct (set _ s) as [sr|]; [destruct (es_waiting sr)|]; [|done..].
    split; [by eapply (wf_eq w1)|by apply Hw]. }
  split; [by apply wf_destroy_set|by apply Hs].
Qed.

Lemma event_step_wf w w' : event_step w w' -> wf w -> wf w'.
Proof.
  intros Hstep Hwf.
  destruct Hstep;
    auto using wf_create_event, wf_create_set, wf_add, wf_remove, wf_signal_irq, wf_wait_any,
      wf_cancel_wait, wf_destroy_event, wf_destroy_set.
  - destruct (create_hardware_event_registry b w o src) as [fl E].
    eapply wf_eq; [exact E|by apply wf_create_event].
  - destruct (signal_cases w o e) as [->| ->]; auto using wf_signal_irq.
  - unfold signal_hardware_event. case_match; [done|]. case_match; by eapply (wf_eq w).
  - by apply (destroy_service_inv (fun _ => True)).
Qed.

Lemma boot_wf g : 0 <= g < 2 ^ 32 -> wf (boot g).
Proof.
  intros Hg. split; simpl; [by split; [|vm_compute]..|unfold gen_ok; lia|].
  intros s sr _ H. by rewrite slot_get_at in H.
Qed.

Lemma reachable_wf w w' : wf w -> rtc event_step w w' -> wf w'.
Proof. intros Hwf H. induction H; eauto using event_step_wf. Qed.

(** ** Wakeups

    [owed w s]: the set [s] is waiting although a member is signalled, so the
    scheduler must have been told. *)

Definition owed (w : World) (s : EventSetHandle) : Prop :=
  exists sr e er, slot_get (sets (registry w)) s = Some sr ∧ es_waiting sr = true ∧
    e ∈ es_members sr ∧ handle_ok e ∧
    slot_get (events (registry w)) e = Some er ∧ ev_signaled er = true.

Definition notified (n : nat) (s : EventSetHandle) (w : World) : Prop :=
  (n <= length (woken w))%nat ∧ (owed w s -> s ∈ drop n (woken w)).

Lemma notified_mono n s w w' l :
  woken w' = woken w ++ l -> (owed w' s -> owed w s ∨ s ∈ l) ->
  notified n s w -> notified n s w'.
Proof.
  intros Hl Ho [Hn Hd]. unfold notified. rewrite Hl, length_app, drop_app_le by done.
  split; [lia|]. intros [H|H]%Ho; apply elem_of_app; auto.
Qed.

Lemma notified_same n s w w' :
  woken w' = woken w -> (owed w' s -> owed w s) -> notified n s w -> notified n s w'.
Proof. intros Hw Ho. apply (notified_mono _ _ _ _ []); [by rewrite app_nil_r|tauto]. Qed.

Lemma notified_wake n s w s' : notified n s w -> notified n s (wake_event_set w s').
Proof. apply (notified_mono _ _ _ _ [s']); [done|by left]. Qed.

Lemma notified_wake_waiters n s w e : notified n s w -> notified n s (wake_waiters w e).
Proof. rewrite wake_waiters_eq. eapply notified_mono; [done|by left]. Qed.

(** Dropping the signal of an event, or a record that was not signalled, owes nothing new. *)
Lemma owed_events w evs s :
  (forall (e : EventHandle) er, handle_ok e -> slot_get evs e = Some er -> ev_signaled er = true ->
     slot_get (events (registry w)) e = Some er) ->
  owed (with_events w evs) s -> owed w s.
Proof. intros Hi (sr & e & er & ? & ? & ? & ? & ? & ?). exists sr, e, er. naive_solver. Qed.

Lemma owed_sets w ss s :
  (forall sr, slot_get ss s = Some sr -> es_waiting sr = true ->
     slot_get (sets (registry w)) s = Some sr) ->
  owed (with_sets w ss) s -> owed w s.
Proof. intros Hi (sr & e & er & ? & ? & ? & ? & ? & ?). exists sr, e, er. naive_solver. Qed.

Lemma owed_modify_set w f (s0 s : EventSetHandle) sr0 :
  handle_ok s0 -> handle_ok s -> slot_get (sets (registry w)) s0 = Some sr0 ->
  es_waiting (f sr0) = false ->
  owed (with_sets w (modify f (sets (registry w)) (Z.to_nat (index s0)))) s -> owed w s.
Proof.
  intros H0 Hs Hsr0 Hf. apply owed_sets. intros sr. rewrite (slot_get_modify f _ s0 sr0) by done.
  case_decide; [|done]. intros. simplify_eq. congruence.
Qed.

Lemma owed_store_signaled_false w e er s :
  handle_ok e -> slot_get (events (registry w)) e = Some er ->
  owed (store_signaled w e false) s -> owed w s.
Proof.
  intros He Her. apply owed_events. intros e' er' He'. rewrite (slot_get_modify _ _ e er) by done.
  case_decide; [|done]. intros. by simplify_eq.
Qed.

Lemma notified_create_event n s b w o fl :
  wf w -> room w -> notified n s w -> notified n s (create_event_with_flags b w o fl).1.
Proof.
  intros Hwf [Hr _]. unfold create_event_with_flags. destruct (negb (is_valid o)); [done|].
  destruct (allocate b _ _) as [[slots i]|] eqn:Ha; [|done].
  destruct (create_spec (k := KEvent) b _ _ slots i (mk_event o fl false)
    (wf_events w Hwf) (wf_seed w Hwf) Hr Ha) as (h & -> & _ & _ & _ & _ & Hget).
  apply notified_same; [done|]. apply owed_events. intros e er He. rewrite Hget by done.
  case_decide; [|done]. intros. by simplify_eq.
Qed.

Lemma notified_create_set n s b w o :
  wf w -> room w -> handle_ok s -> notified n s w -> notified n s (create_set b w o).1.
Proof.
  intros Hwf [_ Hr] Hs. unfold create_set. destruct (negb (is_valid o)); [done|].
  destruct (allocate b _ _) as [[slots i]|] eqn:Ha; [|done].
  destruct (create_spec (k := KEventSet) b _ _ slots i (mk_set o [] false false)
    (wf_sets w Hwf) (wf_seed w Hwf) Hr Ha) as (h & -> & _ & _ & _ & _ & Hget).
  apply notified_same; [done|]. apply owed_sets. intros sr. rewrite Hget by done.
  case_decide; [|done]. intros. by simplify_eq.
Qed.

Lemma notified_add n s b w o s0 e :
  handle_ok s -> handle_ok s0 -> notified n s w -> notified n s (add b w o s0 e).1.
Proof.
  intros Hs Hs0 HN. unfold add. destruct (event _ e) as [er|] eqn:Ee; [|done].
  destruct (negb _); [done|]. destruct (set _ s0) as [sr|] eqn:Es; [|done].
  destruct (negb _); [done|]. destruct (es_invalidated sr); [done|].
  destruct (es_waiting sr) eqn:Ew; [done|]. destruct (bool_decide _); [done|].
  destruct (negb b); [done|]. apply set_Ok in Es. eapply notified_same; [..|exact HN]; [done|].
  by eapply owed_modify_set.
Qed.

Lemma notified_remove n s w o s0 e :
  handle_ok s -> handle_ok s0 -> notified n s w -> notified n s (remove w o s0 e).1.
Proof.
  intros Hs Hs0 HN. unfold remove. destruct (set _ s0) as [sr|] eqn:Es; [|done].
  destruct (negb _); [done|]. destruct (es_invalidated sr); [done|].
  destruct (es_waiting sr) eqn:Ew; [done|]. destruct (list_find _ _) as [[i x]|]; [|done].
  apply set_Ok in Es. eapply notified_same; [..|exact HN]; [done|]. by eapply owed_modify_set.
Qed.

Lemma notified_signal_irq n s w e :
  wf w -> handle_ok s -> handle_ok e -> notified n s w -> notified n s (signal_irq w e).1.
Proof.
  intros Hwf Hs He. unfold signal_irq. destruct (event _ e) as [er|] eqn:Ee; [|done].
  apply event_Ok in Ee. simpl. rewrite wake_waiters_eq. eapply notified_mono; [done|].
  intros (sr & e' & er' & Hsr & Hwait & Hin & He' & Her' & Hsig). simpl in *.
  rewrite (slot_get_modify _ _ e er) in Her' by done. case_decide as Hee.
  - right. subst. apply waiters_spec; [apply Hwf|]. eauto.
  - left. exists sr, e', er'. done.
Qed.

(** What a successful [wait_any] did. *)
Lemma wait_any_cases w o s now d :
  wf w -> handle_ok s ->
  (exists err, wait_any w o s now d = (w, Err err)) ∨
  exists sr, slot_get (sets (registry w)) s = Some sr ∧ es_owner sr = o ∧ es_invalidated sr = false ∧
    ((exists e er i, slot_get (events (registry w)) e = Some er ∧ handle_ok e ∧
        es_members sr !! i = Some e ∧ ready w e ∧
        (forall j e', (j < i)%nat -> es_members sr !! j = Some e' -> ~ ready w e') ∧
        wait_any w o s now d =
          (store_waiting (with_statics (store_signaled w e false)
             (consume_hardware_event (statics w) e)) s false, Ok (Ready e))) ∨
     ((forall e, e ∈ es_members sr -> ~ ready w e) ∧
        let dl := default NO_DEADLINE d in
        ((dl ≠ NO_DEADLINE ∧ dl = now ∧
          wait_any w o s now d = (store_waiting w s false, Ok Timeout)) ∨
         ((dl = NO_DEADLINE ∨ now < dl) ∧
          wait_any w o s now d = (store_waiting w s true, Ok Pending))))).
Proof.
  intros Hwf Hs. unfold wait_any. set (dl := default NO_DEADLINE d).
  destruct (negb (dl =? NO_DEADLINE) && (dl <? now)) eqn:Ed; [by left; eauto|].
  destruct (set _ s) as [sr|err] eqn:Es; [|by left; eauto].
  case_bool_decide as Ho; [|by left; eauto]. simpl.
  destruct (es_invalidated sr) eqn:Ei; [by left; eauto|]. apply set_Ok in Es.
  right. exists sr. split; [done|]. split; [done|]. split; [done|].
  pose proof (first_ready_spec w (es_members sr)) as Hf.
  destruct (first_ready w (es_members sr)) as [[e|]|err];
    [destruct Hf as (i & Hi & Hr & Hlt)|right; specialize (Hf)|destruct Hf];
    try (intros x Hx; destruct (member_resolves w s sr x) as (_ & er & ? & _); by eauto).
  - left. pose proof Hi as Hin%list_elem_of_lookup_2.
    destruct (member_resolves w s sr e) as (He & er & Her & _); [done..|].
    by exists e, er, i.
  - split.
    { apply Hf. intros x Hx. destruct (member_resolves w s sr x) as (_ & er & ? & _); eauto. }
    destruct (negb (dl =? NO_DEADLINE) && (dl <=? now)) eqn:El; boolprop.
    + left. destruct Ed; boolprop; [done|]. split; [done|]. split; [lia|done].
    + right. split; [|done]. destruct El; boolprop; auto.
Qed.

Lemma wait_any_no_error w o s now d sr err :
  wf w -> handle_ok s -> slot_get (sets (registry w)) s = Some sr ->
  es_owner sr = o -> es_invalidated sr = false ->
  (default NO_DEADLINE d = NO_DEADLINE ∨ now <= default NO_DEADLINE d) ->
  wait_any w o s now d ≠ (w, Err err).
Proof.
  intros Hwf Hs Hsr Ho Hi Hd. unfold wait_any. set (dl := default NO_DEADLINE d) in *.
  destruct (negb (dl =? NO_DEADLINE) && (dl <? now)) eqn:Ed; [exfalso; boolprop; lia|].
  rewrite (proj2 (set_Ok _ _ _) Hsr), bool_decide_eq_true_2 by done. simpl. rewrite Hi.
  pose proof (first_ready_spec w (es_members sr)) as Hf.
  destruct (first_ready w (es_members sr)) as [[e|]|err']; [done|destruct (negb (dl =? NO_DEADLINE) && (dl <=? now)); done|].
  exfalso. apply Hf. intros x Hx.
  destruct (member_resolves w s sr x) as (_ & er & ? & _); eauto.
Qed.

Lemma notified_wait_any n s w o s0 now d :
  wf w -> handle_ok s -> handle_ok s0 -> notified n s w -> notified n s (wait_any w o s0 now d).1.
Proof.
  intros Hwf Hs Hs0 HN.
  destruct (wait_any_cases w o s0 now d Hwf Hs0) as [[err ->]|(sr & Hsr & _ & _ & Hc)]; [done|].
  destruct Hc as [(e & er & i & Her & He & _ & _ & _ & ->)|[Hnr Hc]].
  - eapply notified_same; [..|exact HN]; [done|]. intros H.
    apply (owed_store_signaled_false w e er); [done..|].
    by apply (owed_modify_set _ (set_waiting false) s0 s sr) in H.
  - destruct Hc as [(_ & _ & ->)|[_ ->]]; (eapply notified_same; [..|exact HN]; [done|]).
    + by apply (owed_modify_set _ (set_waiting false) s0 s sr).
    + intros (sr' & e & er & Hsr' & Hw & Hin & He & Her & Hsig). simpl in *.
      rewrite (slot_get_modify _ _ s0 sr) in Hsr' by done. case_decide; simplify_eq/=.
      * destruct (Hnr e Hin). left. eauto.
      * exists sr', e, er. done.
Qed.

Lemma notified_cancel_wait n s w o s0 :
  handle_ok s -> handle_ok s0 -> notified n s w -> notified n s (cancel_wait w o s0).1.
Proof.
  intros Hs Hs0 HN. unfold cancel_wait. destruct (set _ s0) as [sr|] eqn:Es; [|done].
  destruct (negb _); [done|]. destruct (es_invalidated sr); [done|]. apply set_Ok in Es.
  assert (notified n s (store_waiting w s0 false)).
  { eapply notified_same; [..|exact HN]; [done|]. by eapply owed_modify_set. }
  simpl. destruct (es_waiting sr); [by apply notified_wake|done].
Qed.

Lemma destroy_event_woken w o e :
  exists l, woken (destroy_event w o e).1 = woken w ++ l.
Proof.
  unfold destroy_event. destruct (event_index _ e); [|exists []; by rewrite app_nil_r].
  destruct (event _ e) as [er|]; [|exists []; by rewrite app_nil_r].
  destruct (negb _); [exists []; by rewrite app_nil_r|]. rewrite wake_waiters_eq. simpl.
  destruct (drop_event_from _ _ _ _). simpl. eauto.
Qed.

Lemma notified_destroy_event n s w o e :
  wf w -> handle_ok s -> handle_ok e -> notified n s w -> notified n s (destroy_event w o e).1.
Proof.
  intros Hwf Hs He HN. destruct (destroy_event_woken w o e) as [l Hl].
  eapply notified_mono; [exact Hl| |exact HN]. intros Ho. left. revert Ho. unfold owed.
  rewrite (destroy_event_registry w o e Hwf He).
  destruct (slot_get (events _) e) as [er0|] eqn:Her0; [case_decide|]; [|done..].
  intros (sr & e' & er & Hsr & Hw & Hin & He' & Her & Hsig). simpl in *.
  rewrite slot_get_map in Hsr. apply fmap_Some in Hsr as (sr0 & Hsr0 & ->). simpl in *.
  case_bool_decide; [done|]. apply list_elem_of_filter in Hin as [_ Hin].
  rewrite (slot_get_vacate _ e er0) in Her by done. case_decide; [done|].
  by exists sr0, e', er.
Qed.

Lemma notified_destroy_set n s w o s0 :
  handle_ok s -> handle_ok s0 -> notified n s w -> notified n s (destroy_set w o s0).1.
Proof.
  intros Hs Hs0 HN.
  assert (Hl : exists l, woken (destroy_set w o s0).1 = woken w ++ l).
  { unfold destroy_set. destruct (set_index _ _); [|exists []; by rewrite app_nil_r].
    destruct (set _ _) as [sr|]; [|exists []; by rewrite app_nil_r].
    destruct (negb _); [exists []; by rewrite app_nil_r|]. simpl.
    destruct (es_waiting sr); simpl; [eauto|exists []; by rewrite app_nil_r]. }
  destruct Hl as [l Hl]. eapply notified_mono; [exact Hl| |exact HN]. intros Ho. left. revert Ho.
  unfold owed. rewrite (destroy_set_registry w o s0).
  destruct (slot_get (sets _) s0) as [sr0|] eqn:Hsr0; [case_decide|]; [|done..].
  intros (sr & e' & er & Hsr & Hrest). simpl in *.
  rewrite (slot_get_vacate _ s0 sr0) in Hsr by done. case_decide; [done|]. by exists sr, e', er.
Qed.

Lemma event_step_notified n s w w' :
  handle_ok s -> event_step w w' -> wf w -> notified n s w -> notified n s w'.
Proof.
  intros Hs Hstep Hwf HN.
  destruct Hstep;
    auto using notified_create_event, notified_create_set, notified_add, notified_remove,
      notified_signal_irq, notified_wait_any, notified_cancel_wait, notified_destroy_event,
      notified_destroy_set.
  - unfold create_hardware_event.
    match goal with |- context [create_event_with_flags b w o ?fl] =>
      pose proof (notified_create_event n s b w o fl Hwf H HN) as H1;
      destruct (create_event_with_flags b w o fl) as [w1 [h|err]] end; [|done].
    eapply notified_same; [..|exact H1]; done.
  - destruct (signal_cases w o e) as [->| ->]; auto using notified_signal_irq.
  - unfold signal_hardware_event. case_match; [done|].
    set (w1 := with_statics w _). assert (notified n s w1) by (by eapply notified_same).
    case_match; [by apply notified_wake|done].
  - apply (destroy_service_inv (notified n s)); auto using notified_wake, notified_destroy_event,
      notified_destroy_set.
Qed.

(** Consuming clears the pending bit of the event's own cells only. *)
Lemma consume_cell st e src :
  cell (consume_hardware_event st e) src =
  let c := cell st src in
  if event_raw c =? raw e then mk_cell (event_raw c) (set_raw c) false else c.
Proof.
  destruct st as [[n1 n2 n3] [k1 k2 k3] [p1 p2 p3]].
  unfold consume_hardware_event. simpl.
  destruct (n1 =? raw e) eqn:E1, (k1 =? raw e) eqn:E2, (p1 =? raw e) eqn:E3; simpl;
    rewrite ?E1, ?E2, ?E3; simpl; rewrite ?E1, ?E2, ?E3; simpl; destruct src; simpl;
    by rewrite ?E1, ?E2, ?E3.
Qed.

Lemma consume_pending st (e e' : EventHandle) :
  hardware_event_is_pending (consume_hardware_event st e) e' =
  if decide (e' = e) then false else hardware_event_is_pending st e'.
Proof.
  assert (Hp : forall src,
    (event_raw (cell (consume_hardware_event st e) src) =? raw e') &&
      pending (cell (consume_hardware_event st e) src) =
    if decide (e' = e) then false else (event_raw (cell st src) =? raw e') && pending (cell st src)).
  { intros src. rewrite consume_cell. cbn zeta. case_decide as He.
    - subst. destruct (event_raw (cell st src) =? raw e) eqn:E; simpl; [apply andb_false_r|by rewrite E].
    - destruct (event_raw (cell st src) =? raw e) eqn:E; [|done]. simpl. rewrite andb_false_r.
      apply Z.eqb_eq in E. rewrite E. destruct (Z.eqb_spec (raw e) (raw e')) as [Hr|]; [|done].
      exfalso. apply He. destruct e, e'. simpl in *. congruence. }
  unfold hardware_event_is_pending, sources. cbn [existsb]. rewrite !Hp. by case_decide.
Qed.

(** Clearing unbinds every cell of the event. *)
Lemma clear_sources_cell st e src :
  cell (clear_sources st e) src =
  if event_raw (cell st src) =? raw e then cell_new else cell st src.
Proof.
  destruct st as [[n1 n2 n3] [k1 k2 k3] [p1 p2 p3]]. unfold clear_sources. simpl.
  destruct (n1 =? raw e) eqn:E1, (k1 =? raw e) eqn:E2, (p1 =? raw e) eqn:E3; simpl;
    rewrite ?E1, ?E2, ?E3; simpl; rewrite ?E1, ?E2, ?E3; simpl; destruct src; simpl;
    by rewrite ?E1, ?E2, ?E3.
Qed.

(** Binding and unbinding change the cells of the event only. *)
Lemma bind_all_cell st e s src :
  cell (bind_all_hardware_wait_sets st e s) src =
  let c := cell st src in
  if event_raw c =? raw e then mk_cell (event_raw c) (raw s) (pending c) else c.
Proof.
  destruct st as [[n1 n2 n3] [k1 k2 k3] [p1 p2 p3]].
  unfold bind_all_hardware_wait_sets, bind_hardware_wait_set. simpl.
  destruct (n1 =? raw e) eqn:E1, (k1 =? raw e) eqn:E2, (p1 =? raw e) eqn:E3; simpl;
    rewrite ?E1, ?E2, ?E3; simpl; rewrite ?E1, ?E2, ?E3; simpl; destruct src; simpl;
    by rewrite ?E1, ?E2, ?E3.
Qed.

Lemma unbind_all_cell st e s src :
  cell (unbind_all_hardware_wait_sets st e s) src =
  let c := cell st src in
  if (event_raw c =? raw e) && (set_raw c =? raw s) then mk_cell (event_raw c) 0 (pending c) else c.
Proof.
  assert (H : forall st src', cell (unbind_hardware_wait_set st src' e s) src =
    if decide (src = src') then
      let c := cell st src in
      if (event_raw c =? raw e) && (set_raw c =? raw s) then mk_cell (event_raw c) 0 (pending c) else c
    else cell st src).
  { intros st' src'. unfold unbind_hardware_wait_set. case_decide as Es.
    - subst. destruct (event_raw (cell st' src') =? raw e), (set_raw (cell st' src') =? raw s); by destruct src'.
    - destruct (event_raw (cell st' src') =? raw e), (set_raw (cell st' src') =? raw s); by destruct src, src'. }
  unfold unbind_all_hardware_wait_sets, sources. cbn [foldl]. rewrite !H. by destruct src.
Qed.

Lemma live_handle_raw w (e : EventHandle) er :
  wf w -> slot_get (events (registry w)) e = Some er -> raw e ≠ 0.
Proof.
  intros Hwf (sl & Hsl & Hg & _)%slot_get_Some Hr.
  pose proof (Forall_lookup_1 _ _ _ _ (proj1 (wf_events w Hwf)) Hsl) as Hok. simpl in Hok.
  rewrite Hg in Hok. unfold generation, gen_ok in Hok. rewrite Hr in Hok. vm_compute in Hok.
  by destruct Hok.
Qed.

Lemma destroy_event_ok w o e er :
  slot_get (events (registry w)) e = Some er -> ev_owner er = o ->
  (destroy_event w o e).2 = Ok tt ∧
  woken (destroy_event w o e).1 = woken w ++ waiters (registry w) e ∧
  exists st, statics (destroy_event w o e).1 = clear_sources st e.
Proof.
  intros Her Ho. unfold destroy_event, event_index. rewrite slot_index_get, Her. simpl.
  rewrite (proj2 (event_Ok _ _ _) Her), bool_decide_eq_true_2 by done. simpl.
  rewrite wake_waiters_eq. simpl. destruct (drop_event_from _ _ _ _). simpl. eauto.
Qed.

(** What tearing down service [o] keeps: everything other services own. *)
Definition keeps_others (o : ServiceHandle) (w w' : World) : Prop :=
  (forall (e : EventHandle) er, handle_ok e -> ev_owner er ≠ o ->
     slot_get (events (registry w')) e = Some er <-> slot_get (events (registry w)) e = Some er) ∧
  (forall (s : EventSetHandle) sr, handle_ok s -> es_owner sr ≠ o ->
     slot_get (sets (registry w')) s = Some sr <-> slot_get (sets (registry w)) s = Some sr).

Lemma drop_member_other evs o e er sr :
  slot_get evs e = Some er -> ev_owner er = o -> es_owner sr ≠ o -> set_ok evs sr ->
  drop_member e sr = sr.
Proof.
  intros Her Ho Hne (_ & Hm & _). unfold drop_member.
  assert (Hni : e ∉ es_members sr).
  { intros (_ & er' & Her' & Ho')%Hm. congruence. }
  rewrite !bool_decide_eq_false_2 by done. destruct sr as [so ms wt iv]. simpl in *. f_equal.
  clear -Hni. induction ms as [|m ms IH]; [done|]. rewrite filter_cons_True by set_solver.
  f_equal. apply IH. set_solver.
Qed.

Lemma destroy_event_keeps w0 w o e :
  wf w -> handle_ok e -> keeps_others o w0 w -> keeps_others o w0 (destroy_event w o e).1.
Proof.
  intros Hwf He [HE HS]. unfold keeps_others. rewrite (destroy_event_registry w o e Hwf He).
  destruct (slot_get _ e) as [er0|] eqn:Her0; [case_decide as Ho|]; [|by split..]. simpl. split.
  - intros e' er He' Hne. rewrite <- HE by done. rewrite (slot_get_vacate _ e er0) by done.
    case_decide; [|done]. subst. split; [done|]. intros. by simplify_eq.
  - intros s sr Hs Hne. rewrite <- HS by done. rewrite slot_get_map, fmap_Some. split.
    + intros (sr0 & Hsr0 & ->). rewrite Hsr0. f_equal. symmetry.
      eapply drop_member_other; [done..|by eapply wf_set_ok].
    + intros Hsr. exists sr. split; [done|]. symmetry.
      eapply drop_member_other; [done..|by eapply wf_set_ok].
Qed.

Lemma destroy_set_keeps w0 w o s :
  handle_ok s -> keeps_others o w0 w -> keeps_others o w0 (destroy_set w o s).1.
Proof.
  intros Hs [HE HS]. unfold keeps_others. rewrite (destroy_set_registry w o s).
  destruct (slot_get _ s) as [sr0|] eqn:Hsr0; [case_decide as Ho|]; [|by split..]. simpl.
  split; [done|]. intros s' sr Hs' Hne. rewrite <- HS by done.
  rewrite (slot_get_vacate _ s sr0) by done. case_decide; [|done]. subst.
  split; [done|]. intros. by simplify_eq.
Qed.

(** Teardown only removes events, and a set it keeps has the same owner. *)
Lemma destroy_event_only w o e (e' : EventHandle) er :
  wf w -> handle_ok e -> handle_ok e' ->
  slot_get (events (registry (destroy_event w o e).1)) e' = Some er ->
  slot_get (events (registry w)) e' = Some er.
Proof.
  intros Hwf He He'. rewrite destroy_event_registry by done.
  destruct (slot_get _ e) as [er0|] eqn:Her0; [case_decide as Ho|]; [|done..]. simpl.
  rewrite (slot_get_vacate _ e er0) by done. by case_decide.
Qed.

Lemma destroy_set_only w o s (s' : EventSetHandle) sr :
  handle_ok s -> handle_ok s' ->
  slot_get (sets (registry (destroy_set w o s).1)) s' = Some sr ->
  slot_get (sets (registry w)) s' = Some sr.
Proof.
  intros Hs Hs'. rewrite destroy_set_registry.
  destruct (slot_get _ s) as [er0|] eqn:Her0; [case_decide as Ho|]; [|done..]. simpl.
  rewrite (slot_get_vacate _ s er0) by done. by case_decide.
Qed.

Lemma destroy_event_gone w o e :
  wf w -> handle_ok e ->
  (forall er, slot_get (events (registry w)) e = Some er -> ev_owner er = o) ->
  slot_get (events (registry (destroy_event w o e).1)) e = None.
Proof.
  intros Hwf He Ho. rewrite destroy_event_registry by done.
  destruct (slot_get _ e) as [er|] eqn:Her; [|done]. rewrite decide_True by auto. simpl.
  by rewrite (slot_get_vacate _ e er), decide_True.
Qed.

Lemma destroy_set_gone w o s :
  handle_ok s -> (forall sr, slot_get (sets (registry w)) s = Some sr -> es_owner sr = o) ->
  slot_get (sets (registry (destroy_set w o s).1)) s = None.
Proof.
  intros Hs Ho. rewrite destroy_set_registry.
  destruct (slot_get _ s) as [sr|] eqn:Hsr; [|done]. rewrite decide_True by auto. simpl.
  by rewrite (slot_get_vacate _ s sr), decide_True.
Qed.

Lemma destroy_set_events w o s :
  events (registry (destroy_set w o s).1) = events (registry w).
Proof. rewrite destroy_set_registry. by repeat case_match. Qed.

(** The event loop of [destroy_service] leaves no event of the service. *)
Lemma destroy_events_loop w o :
  wf w ->
  let l : list EventHandle :=
    handles_from 0 (events (registry w)) (fun e => bool_decide (ev_owner e = o)) in
  let w' := foldl (fun w e => (destroy_event (wake_waiters w e) o e).1) w l in
  wf w' ∧ forall (e : EventHandle) er, handle_ok e ->
    slot_get (events (registry w')) e = Some er -> ev_owner er ≠ o.
Proof.
  intros Hwf l w'.
  destruct (foldl_settles
    (fun w1 => wf w1 ∧ forall (e : EventHandle) er, handle_ok e ->
       slot_get (events (registry w1)) e = Some er -> slot_get (events (registry w)) e = Some er)
    (fun w1 e => handle_ok e -> slot_get (events (registry w1)) e = None)
    (fun w e => (destroy_event (wake_waiters w e) o e).1) l w) as ([Hwf' Hsub] & Hgone & _).
  - intros w1 e Hin [Hwf1 Hsub]. apply handles_from_spec in Hin as (He & er0 & Her0 & Ho); [|apply Hwf].
    apply bool_decide_eq_true_1 in Ho. rewrite wake_waiters_eq.
    assert (Hwf1' : wf (mk_world (registry w1) (statics w1) (woken w1 ++ waiters (registry w1) e)))
      by (by apply (wf_eq w1)).
    split; [|split].
    + split; [by apply wf_destroy_event|]. intros e' er He' H%destroy_event_only; [|done..]. by apply Hsub.
    + intros _. apply destroy_event_gone; [done..|]. intros er Her%Hsub; [|done]. congruence.
    + intros e' Hn He'. destruct (slot_get (events (registry (destroy_event _ _ _).1)) e') eqn:E; [|done].
      apply destroy_event_only in E; [|done..]. simpl in E. rewrite Hn in E; done.
  - done.
  - split; [done|]. intros e er He Her Ho.
    enough (Hn : slot_get (events (registry w')) e = None) by (rewrite Hn in Her; done).
    apply Hgone; [|done]. apply handles_from_spec; [apply Hwf|].
    split; [done|]. exists er. split; [by apply Hsub|by apply bool_decide_eq_true_2].
Qed.

(** The set loop of [destroy_service] leaves no set of the service. *)
Lemma destroy_sets_loop w o :
  wf w ->
  let l : list EventSetHandle :=
    handles_from 0 (sets (registry w)) (fun s => bool_decide (es_owner s = o)) in
  let w' := foldl (fun w s =>
    let w := match set (registry w) s with
             | Ok sr => if es_waiting sr then wake_event_set w s else w
             | Err _ => w
             end in
    (destroy_set w o s).1) w l in
  wf w' ∧ events (registry w') = events (registry w) ∧
  forall (s : EventSetHandle) sr, handle_ok s ->
    slot_get (sets (registry w')) s = Some sr -> es_owner sr ≠ o.
Proof.
  intros Hwf l w'.
  assert (Hwake : forall w s, registry (match set (registry w) s with
             | Ok sr => if es_waiting sr then wake_event_set w s else w
             | Err _ => w end) = registry w) by (intros; by repeat case_match).
  destruct (foldl_settles
    (fun w1 => wf w1 ∧ events (registry w1) = events (registry w) ∧
       forall (s : EventSetHandle) sr, handle_ok s ->
       slot_get (sets (registry w1)) s = Some sr -> slot_get (sets (registry w)) s = Some sr)
    (fun w1 s => handle_ok s -> slot_get (sets (registry w1)) s = None)
    (fun w s => let w := match set (registry w) s with
             | Ok sr => if es_waiting sr then wake_event_set w s else w
             | Err _ => w
             end in
      (destroy_set w o s).1) l w) as ((Hwf' & Hev & Hsub) & Hgone & _).
  - intros w1 s Hin (Hwf1 & Hev & Hsub).
    apply handles_from_spec in Hin as (Hs & sr0 & Hsr0 & Ho); [|apply Hwf].
    apply bool_decide_eq_true_1 in Ho. cbn zeta. pose proof (Hwake w1 s) as Hw.
    revert Hw. generalize (match set (registry w1) s with
             | Ok sr => if es_waiting sr then wake_event_set w1 s else w1
             | Err _ => w1 end) as w2. intros w2 Hw2.
    assert (Hwf2 : wf w2) by (by apply (wf_eq w1)). rewrite <- Hw2 in Hev, Hsub |- *.
    split; [|split].
    + split; [by apply wf_destroy_set|]. split; [by rewrite destroy_set_events|].
      intros s' sr Hs' H%destroy_set_only; [|done..]. by apply Hsub.
    + intros _. apply destroy_set_gone; [done..|]. intros sr Hsr%Hsub; [|done]. congruence.
    + intros s' Hn Hs'. destruct (slot_get (sets (registry (destroy_set _ _ _).1)) s') eqn:E; [|done].
      apply destroy_set_only in E; [|done..]. rewrite Hn in E; done.
  - done.
  - split; [done|]. split; [done|]. intros s sr Hs Hsr Ho.
    enough (Hn : slot_get (sets (registry w')) s = None) by (rewrite Hn in Hsr; done).
    apply Hgone; [|done]. apply handles_from_spec; [apply Hwf|].
    split; [done|]. exists sr. split; [by apply Hsub|by apply bool_decide_eq_true_2].
Qed.

(** The directory's items are all records, one per event of the subject. *)
Definition event_record (o : ServiceHandle) (fl : Z) (h : EventHandle) : DirectoryRecord :=
  mk_record KindEvent 0 fl (raw h) o 0 0 0 EMPTY 0 [0] (replicate MAX_SERVICE_NAME_BYTES 0).

Lemma event_items_records evs o : forall i,
  Forall (fun s => gen_ok 32 (slot_generation s)) evs ->
  Z.of_nat i + Z.of_nat (length evs) <= 2 ^ 32 -> is_valid o = true ->
  exists recs, event_items_from i evs o = ItemRecord <$> recs ∧
    Forall (fun r => record_is_valid r = true) recs ∧
    rec_handle <$> recs =
    raw <$> (handles_from i evs (fun e => bool_decide (ev_owner e = o)) : list EventHandle).
Proof.
  induction evs as [|[g v] evs IH]; intros i Hf Hl Ho; [by exists []|].
  apply Forall_cons in Hf as [Hg Hf]. cbn [length] in Hl.
  destruct (IH (S i) Hf ltac:(lia) Ho) as (recs & Hrecs & Hv & Hh).
  destruct v as [er|]; simpl; [|by exists recs].
  case_bool_decide as Hso; [|by exists recs].
  assert (Hfit : fits 32 (Z.of_nat i)) by (unfold fits; lia).
  destruct (handle_new_spec KEvent _ g Hfit Hg) as (h & Hnew & Hix & Hgen & Hval).
  unfold event_item. simpl. rewrite wrap_small by done. rewrite Hnew.
  exists (event_record o (ev_directory_flags er) h :: recs). rewrite Hrecs, Hso.
  split; [done|]. split; [|simpl; f_equal; exact Hh]. constructor; [|done].
  unfold handle_new in Hnew. destruct (g =? 0) eqn:Eg; [done|]. injection Hnew as Hnew.
  unfold record_is_valid, event_record. cbn.
  assert (Hr : raw h = g * 2 ^ 32 + Z.of_nat i)
    by (rewrite <- Hnew; simpl; rewrite lor_shiftl_add by (unfold fits in *; lia); done).
  unfold gen_ok, fits in *. destruct (Z.eqb_spec (raw h) 0); [lia|].
  rewrite Ho. unfold from_raw. rewrite Hr, Z.shiftr_div_pow2, Z.div_add_l, Z.div_small by lia.
  by destruct (Z.eqb_spec (g + 0) 0); [lia|].
Qed.

(** ** Properties *)

(** C12: from boot, every sequence of registry operations keeps the tables
    well formed: generations are nonzero, every member of a live set resolves
    to a live event of the set's owner, no set lists an event twice (two sets
    may share one), and no invalidated set is waiting. *)
Theorem events_reachable_wf g w :
  0 <= g < 2 ^ 32 -> rtc event_step (boot g) w -> wf w.
Proof. intros Hg. by apply reachable_wf, boot_wf. Qed.

(** C5: no lost wakeup.  Once [wait_any] has answered [Pending], whatever the
    services, the interrupt handlers and the teardown paths do next, a set that
    is still waiting while one of its members is signalled has been handed to
    the scheduler since the wait began. *)
Theorem wait_any_no_lost_wakeup w0 w1 w2 o s now d sr e er :
  wf w0 -> handle_ok s -> wait_any w0 o s now d = (w1, Ok Pending) ->
  rtc event_step w1 w2 ->
  slot_get (sets (registry w2)) s = Some sr -> es_waiting sr = true -> e ∈ es_members sr ->
  slot_get (events (registry w2)) e = Some er -> ev_signaled er = true ->
  s ∈ drop (length (woken w1)) (woken w2).
Proof.
  intros Hwf Hs Hw Hsteps Hsr Hwait Hin Her Hsig.
  pose proof (wf_wait_any w0 o s now d Hwf Hs) as Hwf1. rewrite Hw in Hwf1. simpl in Hwf1.
  assert (HN : notified (length (woken w1)) s w1).
  { split; [done|]. intros (sr1 & e1 & er1 & Hsr1 & _ & Hin1 & _ & Her1 & Hsig1). exfalso.
    destruct (wait_any_cases w0 o s now d Hwf Hs) as [[err E]|(sr0 & Hsr0 & _ & _ & Hc)]; [congruence|].
    destruct Hc as [(? & ? & ? & ? & ? & ? & ? & ? & ?)|[Hnr [(_ & _ & ?)|[_ E]]]]; [congruence..|].
    rewrite Hw in E. simplify_eq. simpl in *.
    rewrite (slot_get_modify _ _ s sr0), decide_True in Hsr1 by done. simplify_eq/=.
    apply (Hnr e1 Hin1). left. eauto. }
  assert (wf w2 ∧ notified (length (woken w1)) s w2) as [Hwf2 [_ HN2]].
  { clear -Hs Hsteps Hwf1 HN. revert HN. generalize (length (woken w1)) as n. intros n HN.
    induction Hsteps; [done|]. apply IHHsteps; eauto using event_step_wf, event_step_notified. }
  apply HN2. exists sr, e, er. split; [done|]. split; [done|]. split; [done|]. split; [|done].
  by eapply member_resolves.
Qed.

(** [wait_any] on a live set of the caller with a deadline that has not
    passed never fails.  It takes the first ready member in insertion order,
    consumes that event only and ends the wait; with no ready member it
    answers [Timeout] exactly when the deadline is [now], and registers the
    wait otherwise. *)
Theorem wait_any_spec w o s now d sr :
  wf w -> handle_ok s -> slot_get (sets (registry w)) s = Some sr ->
  es_owner sr = o -> es_invalidated sr = false ->
  (default NO_DEADLINE d = NO_DEADLINE ∨ now <= default NO_DEADLINE d) ->
  exists r, (wait_any w o s now d).2 = Ok r ∧
  let w' := (wait_any w o s now d).1 in
  slot_get (sets (registry w')) s = Some (set_waiting (bool_decide (r = Pending)) sr) ∧
  match r with
  | Ready e =>
      (exists i, es_members sr !! i = Some e ∧ ready w e ∧
         forall j e', (j < i)%nat -> es_members sr !! j = Some e' -> ~ ready w e') ∧
      ~ ready w' e ∧
      (forall e', handle_ok e' -> e' ≠ e -> ready w' e' <-> ready w e')
  | Timeout =>
      (forall e, e ∈ es_members sr -> ~ ready w e) ∧ d = Some now ∧ now ≠ NO_DEADLINE
  | Pending =>
      (forall e, e ∈ es_members sr -> ~ ready w e) ∧
      (default NO_DEADLINE d = NO_DEADLINE ∨ now < default NO_DEADLINE d)
  end.
Proof.
  intros Hwf Hs Hsr Ho Hi Hd.
  destruct (wait_any_cases w o s now d Hwf Hs) as [[err E]|(sr0 & Hsr0 & _ & _ & Hc)].
  { exfalso. eapply wait_any_no_error; eauto. }
  rewrite Hsr in Hsr0. injection Hsr0 as <-.
  destruct Hc as [(e & er & i & Her & He & Hi' & Hr & Hlt & ->)|[Hnr Hc]].
  - exists (Ready e). split; [done|]. simpl.
    rewrite (slot_get_modify _ _ s sr), decide_True by done. split; [done|].
    split; [by eauto|]. unfold ready. simpl. split.
    + rewrite (slot_get_modify _ _ e er), decide_True, consume_pending, decide_True by done.
      intros [(? & ? & ?)|?]; by simplify_eq/=.
    + intros e' He' Hne. rewrite (slot_get_modify _ _ e er), decide_False by done.
      by rewrite consume_pending, decide_False.
  - destruct Hc as [(Hdl & Hnow & ->)|[Hdl ->]]; [exists Timeout|exists Pending]; (split; [done|]);
      simpl; rewrite (slot_get_modify _ _ s sr), decide_True by done; (split; [done|]).
    + split; [done|]. destruct d as [d|]; simpl in *; [|done]. by subst.
    + done.
Qed.

(** [destroy_event] by the owner makes the handle stale, leaves every other
    event as it was, drops the event from every set, invalidates and stops the
    sets that held it, wakes exactly the sets that were waiting on it, and
    leaves no hardware cell bound to it. *)
Theorem destroy_event_spec w o e er :
  wf w -> handle_ok e -> slot_get (events (registry w)) e = Some er -> ev_owner er = o ->
  let w' := (destroy_event w o e).1 in
  (destroy_event w o e).2 = Ok tt ∧
  slot_get (events (registry w')) e = None ∧
  (forall e', handle_ok e' -> e' ≠ e ->
     slot_get (events (registry w')) e' = slot_get (events (registry w)) e') ∧
  (forall s : EventSetHandle,
     slot_get (sets (registry w')) s = drop_member e <$> slot_get (sets (registry w)) s) ∧
  (exists l, woken w' = woken w ++ l ∧ forall s, s ∈ l <-> handle_ok s ∧
     exists sr, slot_get (sets (registry w)) s = Some sr ∧ es_waiting sr = true ∧ e ∈ es_members sr) ∧
  forall src, event_raw (cell (statics w') src) ≠ raw e.
Proof.
  intros Hwf He Her Ho w'. pose proof (destroy_event_registry w o e Hwf He) as Hreg.
  rewrite Her, decide_True in Hreg by done. unfold w'.
  destruct (destroy_event_ok w o e er Her Ho) as (Hok & Hwk & st & Hst). rewrite Hreg. simpl.
  split; [done|]. split; [by rewrite (slot_get_vacate _ e er), decide_True|]. split.
  { intros e' He' Hne. by rewrite (slot_get_vacate _ e er), decide_False. }
  split; [intros s; apply slot_get_map|]. split.
  { exists (waiters (registry w) e). split; [done|]. intros s. apply waiters_spec, Hwf. }
  intros src. rewrite Hst, clear_sources_cell.
  destruct (Z.eqb_spec (event_raw (cell st src)) (raw e)); [|done].
  pose proof (live_handle_raw w e er Hwf Her). done.
Qed.

(** [destroy_service] leaves the service no event and no event set, and
    touches no event or set of any other service. *)
Theorem destroy_service_spec w o :
  wf w ->
  let w' := destroy_service w o in
  wf w' ∧ ownership_count (registry w') o = 0%nat ∧ event_set_count (registry w') o = 0%nat ∧
  (forall (e : EventHandle) er, handle_ok e -> ev_owner er ≠ o ->
     slot_get (events (registry w')) e = Some er <-> slot_get (events (registry w)) e = Some er) ∧
  (forall (s : EventSetHandle) sr, handle_ok s -> es_owner sr ≠ o ->
     slot_get (sets (registry w')) s = Some sr <-> slot_get (sets (registry w)) s = Some sr).
Proof.
  intros Hwf w'.
  destruct (destroy_service_inv (keeps_others o w) w o) as [Hwf' [HE HS]];
    [done|eauto using destroy_event_keeps|eauto using destroy_set_keeps|done|done|].
  destruct (destroy_events_loop w o Hwf) as [Hwf1 He].
  destruct (destroy_sets_loop _ o Hwf1) as (Hwf2 & Hev & Hs).
  split; [done|]. split; [|split; [|by split]].
  - apply (live_filter_nil KEvent); [apply Hwf'|]. intros e er Hok Her. apply (He e er Hok).
    rewrite <- Hev. exact Her.
  - by apply (live_filter_nil KEventSet); [apply Hwf'|].
Qed.

(** The event directory is complete.  For a valid request about a
    service, every page is accepted by the receiver's validation, and a client
    that follows the cursor reads exactly the handles of the service's live
    events, in table order. *)
Theorem events_directory_complete w rq rs fuel :
  wf w -> request_is_valid rq = true -> rq_operation rq = OpEvents ->
  is_valid (rq_subject rq) = true ->
  (length (events (registry w)) < fuel * DIRECTORY_RECORDS_PER_PAGE)%nat ->
  (forall c, 0 <= c ->
     (directory w (at_cursor rq c) rs).2 = DirOk ∧
     is_valid_for (directory w (at_cursor rq c) rs).1 (at_cursor rq c) = true) ∧
  rec_handle <$> read_all (fun c => (directory w (at_cursor rq c) rs).1) fuel 0 =
  raw <$> (handles_from 0 (events (registry w))
    (fun e => bool_decide (ev_owner e = rq_subject rq)) : list EventHandle).
Proof.
  intros Hwf Hrq Hop Hsub Hfuel. destruct (wf_events w Hwf) as [Hf Hl].
  destruct (event_items_records (events (registry w)) (rq_subject rq) 0 Hf Hl Hsub)
    as (recs & Hrecs & Hv & Hh).
  assert (Hlen : (length recs <= length (events (registry w)))%nat).
  { rewrite <- (length_fmap rec_handle), Hh, length_fmap. apply length_handles_from. }
  assert (Hd : forall c, directory w (at_cursor rq c) rs =
    page (rq_operation rq) (at_cursor rq c) (ItemRecord <$> recs)).
  { intros c. unfold directory. change (request_is_valid (at_cursor rq c)) with (request_is_valid rq).
    change (rq_operation (at_cursor rq c)) with (rq_operation rq).
    change (rq_subject (at_cursor rq c)) with (rq_subject rq).
    rewrite Hrq, Hsub, bool_decide_eq_true_2 by done. cbn [negb orb]. by rewrite Hrecs. }
  split.
  - intros c Hc. rewrite Hd. split; [by rewrite page_spec|]. by apply (page_valid (at_cursor rq c)).
  - rewrite <- Hh. f_equal.
    pose proof (read_all_pages (rq_operation rq) rq recs fuel 0) as Hall. rewrite drop_0 in Hall.
    rewrite <- Hall by lia.
    clear -Hd. generalize 0. induction fuel as [|fuel IH]; intros c; cbn [read_all]; [done|].
    by rewrite Hd, IH.
Qed.

(** ** Example worlds *)

Module Example.

Definition owner : ServiceHandle := mk_handle 4294967296.
Definition ev : EventHandle := mk_handle 4294967296.
Definition set1 : EventSetHandle := mk_handle 4294967296.
Definition set2 : EventSetHandle := mk_handle 4294967297.

(** One keyboard event in one set. *)
Definition one_set : World :=
  let w := (create_hardware_event true (boot 1) owner Keyboard).1 in
  let w := (create_set true w owner).1 in
  (add true w owner set1 ev).1.

Definition waiting : World := (wait_any one_set owner set1 5 None).1.
Definition signalled : World := (signal waiting owner ev).1.

(** A second, empty set, while the first waits on the keyboard event. *)
Definition two_sets : World := (create_set true waiting owner).1.

End Example.

Lemma handle_ok_small k z : (0 <=? z) && (z <? 2 ^ 64) = true -> handle_ok (k := k) (mk_handle z).
Proof. intros H. unfold handle_ok, fits. simpl. boolprop. lia. Qed.

Lemma example_steps : rtc event_step (boot 1) Example.one_set.
Proof.
  eapply rtc_l; [apply (step_create_hardware_event true _ Example.owner Keyboard); by split|].
  eapply rtc_l; [apply (step_create_set true _ Example.owner); by split|].
  eapply rtc_l; [apply (step_add true _ Example.owner Example.set1 Example.ev); by apply handle_ok_small|].
  apply rtc_refl.
Qed.

Lemma example_wf : wf Example.one_set.
Proof. eapply reachable_wf; [by apply (boot_wf 1)|apply example_steps]. Qed.

(** ** Witnesses *)

Lemma events_reachable_wf_witness : 0 <= 1 < 2 ^ 32 ∧ wf Example.one_set.
Proof. split; [done|]. apply (events_reachable_wf 1); [done|apply example_steps]. Defined.

Lemma wait_any_no_lost_wakeup_witness :
  woken Example.waiting = [] ∧
  Example.set1 ∈ drop (length (woken Example.waiting)) (woken Example.signalled).
Proof.
  split; [by vm_compute|].
  apply (wait_any_no_lost_wakeup Example.one_set Example.waiting Example.signalled
    Example.owner Example.set1 5 None (mk_set Example.owner [Example.ev] true false) Example.ev
    (mk_event Example.owner 1 true)); try by vm_compute.
  - apply example_wf.
  - eapply rtc_l; [apply (step_signal _ Example.owner Example.ev)|apply rtc_refl].
    by apply handle_ok_small.
  - by left.
Defined.

Lemma wait_any_spec_witness :
  (wait_any Example.signalled Example.owner Example.set1 5 None).2 = Ok (Ready Example.ev) ∧
  exists r, (wait_any Example.one_set Example.owner Example.set1 5 None).2 = Ok r.
Proof.
  split; [by vm_compute|].
  destruct (wait_any_spec Example.one_set Example.owner Example.set1 5 None
    (mk_set Example.owner [Example.ev] false false)) as (r & Hr & _).
  - apply example_wf.
  - by apply handle_ok_small.
  - by vm_compute.
  - done.
  - done.
  - by left.
  - by exists r.
Defined.

Lemma destroy_event_spec_witness :
  slot_get (events (registry (destroy_event Example.one_set Example.owner Example.ev).1)) Example.ev
  = None.
Proof.
  apply (destroy_event_spec Example.one_set Example.owner Example.ev (mk_event Example.owner 1 false)).
  - apply example_wf.
  - by apply handle_ok_small.
  - by vm_compute.
  - done.
Defined.

Lemma destroy_service_spec_witness :
  ownership_count (registry Example.one_set) Example.owner = 1%nat ∧
  ownership_count (registry (destroy_service Example.one_set Example.owner)) Example.owner = 0%nat.
Proof.
  split; [by vm_compute|]. apply (destroy_service_spec Example.one_set Example.owner), example_wf.
Defined.

Lemma events_directory_complete_witness :
  let rq := mk_request 14 OpEvents 0 7 0 Example.owner in
  let rs := response_empty OpEvents DirOk 7 in
  rec_handle <$> read_all (fun c => (directory Example.one_set (at_cursor rq c) rs).1) 1 0 =
  [raw Example.ev].
Proof.
  intros rq rs.
  rewrite (proj2 (events_directory_complete Example.one_set rq rs 1 example_wf eq_refl eq_refl eq_refl
    ltac:(vm_compute; lia))).
  by vm_compute.
Defined.

(** ** The hardware cells know one set *)

(** [add] on a set that can take the event. *)
Lemma add_ok w o s e er sr :
  slot_get (events (registry w)) e = Some er -> ev_owner er = o ->
  slot_get (sets (registry w)) s = Some sr -> es_owner sr = o -> es_invalidated sr = false ->
  es_waiting sr = false -> e ∉ es_members sr ->
  add true w o s e =
  (with_statics (with_sets w (modify (set_members (es_members sr ++ [e])) (sets (registry w)) (Z.to_nat (index s))))
     (bind_all_hardware_wait_sets (statics w) e s), Ok tt).
Proof.
  intros He Ho Hs Hos Hi Hw Hin. unfold add. rewrite (proj2 (event_Ok _ _ _) He), bool_decide_true by done.
  rewrite (proj2 (set_Ok _ _ _) Hs). cbn [negb]. by rewrite bool_decide_true, Hi, Hw, bool_decide_false by done.
Qed.

(** [remove] of a member of an idle set. *)
Lemma remove_ok w o s e sr :
  slot_get (sets (registry w)) s = Some sr -> es_owner sr = o -> es_invalidated sr = false ->
  es_waiting sr = false -> e ∈ es_members sr ->
  exists ms, remove w o s e =
  (with_statics (with_sets w (modify (set_members ms) (sets (registry w)) (Z.to_nat (index s))))
     (unbind_all_hardware_wait_sets (statics w) e s), Ok tt).
Proof.
  intros Hs Hos Hi Hw Hin. unfold remove. rewrite (proj2 (set_Ok _ _ _) Hs), bool_decide_true, Hi, Hw by done.
  cbn [negb]. destruct (list_find_elem_of (fun m => m = e) _ e Hin eq_refl) as [[i m] Ei].
  rewrite Ei. by eexists.
Qed.

(** A set with a ready member has a ready event. *)
Lemma has_ready_member w o s sr e :
  slot_get (sets (registry w)) s = Some sr -> es_owner sr = o -> e ∈ es_members sr -> ready w e ->
  (forall e', e' ∈ es_members sr -> exists er, slot_get (events (registry w)) e' = Some er) ->
  has_ready_event w o s = Ok true.
Proof.
  intros Hs Ho Hin Hr Hm. unfold has_ready_event. rewrite (proj2 (set_Ok _ s sr)), bool_decide_true by done.
  cbn [negb]. pose proof (first_ready_spec w (es_members sr) Hm) as Hf.
  destruct (first_ready _ _) as [[e'|]|]; [done| |done]. by destruct (Hf e Hin).
Qed.

(** C13: the interrupt of a hardware event is lost to a set that waits on it,
    once the event was added to a second set of the owner and removed there.
    In every well-formed world where the set [s1] waits on the event bound to
    [src] and [s2] is another idle set of the same owner without it, both
    calls succeed; the interrupt then marks the event pending, so [s1] has a
    ready event while it still waits, and hands no set to the scheduler.
    Without the two calls the interrupt wakes [s1], if [s1] is the set the
    cell is bound to. *)
Theorem hardware_event_second_set_loses_wakeup w src o s1 s2 e sr1 sr2 :
  wf w -> handle_ok s1 -> handle_ok s2 -> s1 ≠ s2 ->
  slot_get (sets (registry w)) s1 = Some sr1 -> es_owner sr1 = o -> es_waiting sr1 = true -> e ∈ es_members sr1 ->
  slot_get (sets (registry w)) s2 = Some sr2 -> es_owner sr2 = o -> es_waiting sr2 = false ->
  es_invalidated sr2 = false -> e ∉ es_members sr2 ->
  event_raw (cell (statics w) src) = raw e ->
  exists w1 w2, add true w o s2 e = (w1, Ok tt) ∧ remove w1 o s2 e = (w2, Ok tt) ∧
    let w3 := signal_hardware_event w2 src in
    has_ready_event w3 o s1 = Ok true ∧ is_waiting w3 o s1 = Ok true ∧ woken w3 = woken w ∧
    (set_raw (cell (statics w) src) = raw s1 -> woken (signal_hardware_event w src) = woken w ++ [s1]).
Proof.
  intros Hwf Hs1 Hs2 Hne Hg1 Ho1 Hw1 Hin1 Hg2 Ho2 Hw2 Hi2 Hin2 Hraw.
  destruct (member_resolves _ _ _ _ Hwf Hs1 Hg1 Hin1) as (_ & er & Her & Hoe).
  pose proof (live_handle_raw _ _ _ Hwf Her) as Hr0.
  eexists _. rewrite (add_ok w o s2 e er sr2) by (done || congruence).
  set (w1 := with_statics _ _).
  assert (Hg2' : slot_get (sets (registry w1)) s2 = Some (set_members (es_members sr2 ++ [e]) sr2))
    by (cbn; by rewrite (slot_get_modify _ _ s2 sr2), decide_True).
  assert (Hg1' : slot_get (sets (registry w1)) s1 = Some sr1)
    by (cbn; by rewrite (slot_get_modify _ _ s2 sr2), decide_False).
  destruct (remove_ok w1 o s2 e _ Hg2' Ho2 Hi2 Hw2) as [ms Er]; [cbn; set_solver|].
  eexists _. split; [done|]. split; [exact Er|]. clear Er. set (w2 := with_statics _ _).
  assert (Hc : cell (statics w2) src = mk_cell (raw e) 0 (pending (cell (statics w) src))).
  { unfold w2, w1. cbn [with_statics with_sets statics]. rewrite unbind_all_cell, bind_all_cell. cbn zeta.
    rewrite Hraw, Z.eqb_refl. cbn. by rewrite !Z.eqb_refl. }
  assert (Hg1'' : slot_get (sets (registry w2)) s1 = Some sr1)
    by (cbn; by rewrite (slot_get_modify _ _ s2 _ s1 Hs2 Hs1 Hg2'), decide_False).
  assert (Hst : signal_hardware_event w2 src =
    with_statics w2 (set_cell (statics w2) src (mk_cell (raw e) 0 true))).
  { unfold signal_hardware_event. rewrite Hc. cbn [event_raw set_raw]. by destruct (Z.eqb_spec (raw e) 0). }
  cbv zeta. rewrite Hst. split; [|split; [|split; [done|]]].
  - apply (has_ready_member _ o s1 sr1 e); [done|done|done| |].
    + right. apply existsb_exists. exists src. split; [destruct src; cbn; tauto|].
      destruct src; cbn; by rewrite Z.eqb_refl.
    + intros e' He'. destruct (member_resolves _ _ _ _ Hwf Hs1 Hg1 He') as (_ & er' & ? & _). by exists er'.
  - unfold is_waiting. by rewrite (proj2 (set_Ok _ s1 sr1)), bool_decide_true, Hw1 by done.
  - intros Hb. unfold signal_hardware_event. rewrite Hraw, Hb. destruct (Z.eqb_spec (raw e) 0); [done|].
    by rewrite (live_from_raw _ _ _ (wf_sets w Hwf) Hg1).
Qed.

Lemma two_sets_wf : wf Example.two_sets.
Proof.
  apply wf_create_set; [|by split]. apply wf_wait_any; [apply example_wf|by apply handle_ok_small].
Qed.

Lemma hardware_event_second_set_loses_wakeup_witness :
  exists w2, is_waiting (signal_hardware_event w2 Keyboard) Example.owner Example.set1 = Ok true ∧
    woken (signal_hardware_event w2 Keyboard) = [] ∧
    woken (signal_hardware_event Example.two_sets Keyboard) = [Example.set1].
Proof.
  destruct (hardware_event_second_set_loses_wakeup Example.two_sets Keyboard Example.owner Example.set1 Example.set2
    Example.ev (mk_set Example.owner [Example.ev] true false) (mk_set Example.owner [] false false))
    as (w1 & w2 & _ & _ & _ & Hw & Hn & Hb).
  - apply two_sets_wf.
  - by apply handle_ok_small.
  - by apply handle_ok_small.
  - done.
  - by vm_compute.
  - done.
  - done.
  - by left.
  - by vm_compute.
  - done.
  - done.
  - done.
  - by intros ?%not_elem_of_nil.
  - by vm_compute.
  - exists w2. split; [exact Hw|]. split; [by rewrite Hn; vm_compute|]. rewrite Hb; by vm_compute.
Defined.
