(* ===== verification/Ipc.v ===== *)
(** * Runtime-owned IPC ([src/src/runtime_ipc.rs])

    Core-owned endpoints with bounded ring queues, the capabilities that grant
    access to them, and their teardown.  A queue lives on the heap or in
    physical frames; [phys] is the byte-addressed physical memory the frame
    queues are copied through.  The event registry the operations take is the
    [World] of [Events.v].  The answers of [try_reserve] are the boolean (or
    [nat -> bool], indexed by the call's reservations in order) argument
    [alloc] of each operation.  [send] and [receive] return [None] where the
    source's indexing would panic; the theorems show that it does not. *)

From Stdlib Require Import ZArith Lia.
From stdpp Require Import base list option numbers relations.
From S2P Require Import Prelude Slots Directory Events.

#[local] Open Scope Z_scope.

#[local] Arguments create_event : simpl never.
#[local] Arguments destroy_event : simpl never.
#[local] Arguments signal_irq : simpl never.
#[local] Arguments Events.destroy_service : simpl never.

(** ** Data *)

Inductive IpcStatus : Type :=
| IpcOk
| IpcFull
| IpcEmpty
| IpcStale
| IpcDisconnected
| IpcUnauthorized
| IpcMalformed.

#[export] Instance IpcStatus_eq_dec : EqDecision IpcStatus.
Proof. solve_decision. Defined.

Inductive IpcRights : Type :=
| Send
| Receive.

#[export] Instance IpcRights_eq_dec : EqDecision IpcRights.
Proof. solve_decision. Defined.

(** A [FrameAddress] is the physical address of a 4096-byte frame. *)
Abbreviation FrameAddress := Z (only parsing).

Inductive QueueStorage : Type :=
| Heap (messages : list (list Z))
| Frames (frames : list FrameAddress).

Definition QueueMessage_empty : list Z := replicate (Z.to_nat IPC_PAGE_BYTES) 0.

Record EndpointRecord : Type := mk_endpoint {
  ep_handle : EndpointHandle;
  producer : ServiceHandle;
  consumer : ServiceHandle;
  contract_id : Z;
  message_bytes : nat;
  queue_capacity : nat;
  ep_service_epoch : Z;
  read_event : EventHandle;
  write_event : EventHandle;
  queue : QueueStorage;
  queue_head : nat;
  queue_tail : nat;
  queue_len : nat
}.

Record CapabilityRecord : Type := mk_capability {
  cap_handle : CapabilityHandle;
  cap_owner : ServiceHandle;
  cap_endpoint : EndpointHandle;
  cap_rights : IpcRights;
  cap_service_epoch : Z
}.

Record RuntimeIpcRegistry : Type := mk_ipc {
  endpoints : list (slot EndpointRecord);
  capabilities : list (slot CapabilityRecord);
  generation_seed : Z;
  capability_generation : Z;
  queue_budget_messages : Z;
  queue_committed_messages : Z
}.

Record IpcWorld : Type := mk_iworld {
  ipc : RuntimeIpcRegistry;
  evw : World;
  phys : Z -> Z
}.

Definition new_with_generation_and_budget (g budget : Z) : RuntimeIpcRegistry :=
  let seed := Z.max g 1 in
  mk_ipc [] [] seed (next_generation seed) budget 0.

Definition new_with_generation (g : Z) : RuntimeIpcRegistry :=
  new_with_generation_and_budget g USIZE_MAX.

Definition new : RuntimeIpcRegistry := new_with_generation 1.

(** ** Field updates *)

Definition with_ipc (w : IpcWorld) (r : RuntimeIpcRegistry) : IpcWorld := mk_iworld r (evw w) (phys w).
Definition with_evw (w : IpcWorld) (e : World) : IpcWorld := mk_iworld (ipc w) e (phys w).
Definition with_phys (w : IpcWorld) (m : Z -> Z) : IpcWorld := mk_iworld (ipc w) (evw w) m.
Definition with_endpoints (r : RuntimeIpcRegistry) (l : list (slot EndpointRecord)) : RuntimeIpcRegistry :=
  mk_ipc l (capabilities r) (generation_seed r) (capability_generation r)
    (queue_budget_messages r) (queue_committed_messages r).
Definition with_capabilities (r : RuntimeIpcRegistry) (l : list (slot CapabilityRecord)) :
    RuntimeIpcRegistry :=
  mk_ipc (endpoints r) l (generation_seed r) (capability_generation r)
    (queue_budget_messages r) (queue_committed_messages r).
Definition with_committed (r : RuntimeIpcRegistry) (n : Z) : RuntimeIpcRegistry :=
  mk_ipc (endpoints r) (capabilities r) (generation_seed r) (capability_generation r)
    (queue_budget_messages r) n.

(** ** Physical memory *)

(** [copy_nonoverlapping] into and out of a frame. *)
Definition write_bytes (m : Z -> Z) (addr : Z) (bytes : list Z) : Z -> Z :=
  fun a => if (addr <=? a) && (a <? addr + Z.of_nat (length bytes))
           then nth (Z.to_nat (a - addr)) bytes 0 else m a.

Definition read_bytes (m : Z -> Z) (addr : Z) (n : nat) : list Z :=
  (fun i => m (addr + Z.of_nat i)) <$> seq 0 n.

(** ** Lookups *)

Definition endpoint_slot (r : RuntimeIpcRegistry) (h : EndpointHandle) : result nat IpcStatus :=
  ok_or (slot_index (endpoints r) h) IpcStale.

Definition endpoint (r : RuntimeIpcRegistry) (h : EndpointHandle) : result EndpointRecord IpcStatus :=
  ok_or (slot_get (endpoints r) h) IpcStale.

Definition capability (r : RuntimeIpcRegistry) (h : CapabilityHandle) : result CapabilityRecord IpcStatus :=
  ok_or (slot_get (capabilities r) h) IpcStale.

(** ** Endpoint creation *)

Definition create_malformed (p c : ServiceHandle) (bytes cap : nat) (epoch : Z) : bool :=
  negb (is_valid p) || negb (is_valid c) || bool_decide (p = c)
  || (bytes =? 0)%nat || (IPC_PAGE_BYTES <? Z.of_nat bytes)
  || (cap =? 0)%nat || (U16_MAX <? Z.of_nat cap) || (epoch =? 0).

Definition over_budget (r : RuntimeIpcRegistry) (cap : nat) : bool :=
  saturating_sub (queue_budget_messages r) (queue_committed_messages r) <? Z.of_nat cap.

Definition create_endpoint_with_queue (alloc : nat -> bool) (w : IpcWorld)
    (p c : ServiceHandle) (contract : Z) (bytes cap : nat) (epoch : Z) (q : QueueStorage) :
    IpcWorld * result EndpointHandle IpcStatus :=
  if create_malformed p c bytes cap epoch then (w, Err IpcMalformed)
  else if over_budget (ipc w) cap then (w, Err IpcFull)
  else match allocate (alloc 0%nat) (endpoints (ipc w)) (generation_seed (ipc w)) with
  | None => (w, Err IpcDisconnected)
  | Some (slots, i) =>
      let w := with_ipc w (with_endpoints (ipc w) slots) in
      match handle_new (wrap 32 (Z.of_nat i)) (generation_at slots i) with
      | None => (w, Err IpcMalformed)
      | Some h =>
          match create_event (alloc 1%nat) (evw w) c with
          | (ew, Err _) => (with_evw w ew, Err IpcDisconnected)
          | (ew, Ok re) =>
              match create_event (alloc 2%nat) ew p with
              | (ew, Err error) =>
                  let ew := (destroy_event ew c re).1 in
                  (with_evw w ew,
                   Err (match error with Unauthorized => IpcUnauthorized | _ => IpcDisconnected end))
              | (ew, Ok we) =>
                  let r := mk_endpoint h p c contract bytes cap epoch re we q 0 0 0 in
                  let ipc' := with_endpoints (ipc w) (fill slots i r) in
                  let ipc' := with_committed ipc'
                    (saturating_add 64 (queue_committed_messages ipc') (Z.of_nat cap)) in
                  (mk_iworld ipc' ew (phys w), Ok h)
              end
          end
      end
  end.

Definition create_endpoint (alloc : nat -> bool) (w : IpcWorld)
    (p c : ServiceHandle) (contract : Z) (bytes cap : nat) (epoch : Z) :
    IpcWorld * result EndpointHandle IpcStatus :=
  if create_malformed p c bytes cap epoch then (w, Err IpcMalformed)
  else if over_budget (ipc w) cap then (w, Err IpcFull)
  else if negb (alloc 0%nat) then (w, Err IpcDisconnected)
  else create_endpoint_with_queue (fun k => alloc (S k)) w p c contract bytes cap epoch
         (Heap (replicate cap QueueMessage_empty)).

Definition create_endpoint_with_frames (alloc : nat -> bool) (w : IpcWorld)
    (p c : ServiceHandle) (contract : Z) (bytes cap : nat) (epoch : Z) (frames : list FrameAddress) :
    IpcWorld * result EndpointHandle IpcStatus :=
  if negb (length frames =? cap)%nat then (w, Err IpcMalformed)
  else if negb (alloc 0%nat) then (w, Err IpcDisconnected)
  else create_endpoint_with_queue (fun k => alloc (S k)) w p c contract bytes cap epoch (Frames frames).

(** ** Capabilities *)

Definition grant (alloc : bool) (w : IpcWorld) (owner : ServiceHandle) (h : EndpointHandle)
    (rights : IpcRights) : IpcWorld * result CapabilityHandle IpcStatus :=
  match endpoint (ipc w) h with
  | Err e => (w, Err e)
  | Ok er =>
      let owns := match rights with
                  | Send => bool_decide (producer er = owner)
                  | Receive => bool_decide (consumer er = owner)
                  end in
      if negb owns then (w, Err IpcUnauthorized)
      else match allocate alloc (capabilities (ipc w)) (capability_generation (ipc w)) with
      | None => (w, Err IpcDisconnected)
      | Some (slots, i) =>
          match handle_new (wrap 32 (Z.of_nat i)) (generation_at slots i) with
          | None => (with_ipc w (with_capabilities (ipc w) slots), Err IpcMalformed)
          | Some ch =>
              (with_ipc w (with_capabilities (ipc w)
                 (fill slots i (mk_capability ch owner h rights (ep_service_epoch er)))), Ok ch)
          end
      end
  end.

Definition capability_for (r : RuntimeIpcRegistry) (owner : ServiceHandle) (h : EndpointHandle)
    (rights : IpcRights) : result CapabilityHandle IpcStatus :=
  match list_find (fun g => cap_owner g = owner ∧ cap_endpoint g = h ∧ cap_rights g = rights)
          (live (capabilities r)) with
  | Some (_, g) => Ok (cap_handle g)
  | None => Err IpcUnauthorized
  end.

Definition uses (s : ServiceHandle) (e : EndpointRecord) : Prop := producer e = s ∨ consumer e = s.

#[export] Instance uses_dec s e : Decision (uses s e).
Proof. unfold uses. apply _. Defined.

Definition ownership_counts (r : RuntimeIpcRegistry) (owner : ServiceHandle) : nat * nat :=
  (length (filter (uses owner) (live (endpoints r))),
   length (filter (fun c => cap_owner c = owner) (live (capabilities r)))).

Definition capability_endpoint (r : RuntimeIpcRegistry) (caller : ServiceHandle) (h : CapabilityHandle)
    (rights : IpcRights) : result (EndpointHandle * nat) IpcStatus :=
  match capability r h with
  | Err e => Err e
  | Ok g =>
      if negb (bool_decide (cap_owner g = caller)) || negb (bool_decide (cap_rights g = rights))
      then Err IpcUnauthorized
      else match endpoint r (cap_endpoint g) with
      | Err e => Err e
      | Ok er =>
          if negb (cap_service_epoch g =? ep_service_epoch er) then Err IpcStale
          else Ok (ep_handle er, message_bytes er)
      end
  end.

Definition validate_capability (r : RuntimeIpcRegistry) (caller : ServiceHandle) (h : CapabilityHandle)
    (rights : IpcRights) (bytes : nat) : result EndpointHandle IpcStatus :=
  match capability_endpoint r caller h rights with
  | Err e => Err e
  | Ok (ep, expected) => if negb (bytes =? expected)%nat then Err IpcMalformed else Ok ep
  end.

(** ** Endpoint queries *)

Definition endpoint_contract_id (r : RuntimeIpcRegistry) (h : EndpointHandle) : result Z IpcStatus :=
  match endpoint r h with Err e => Err e | Ok er => Ok (contract_id er) end.

Definition endpoint_matches (r : RuntimeIpcRegistry) (h : EndpointHandle) (p c : ServiceHandle)
    (contract : Z) : result bool IpcStatus :=
  match endpoint r h with
  | Err e => Err e
  | Ok er => Ok (bool_decide (producer er = p) && bool_decide (consumer er = c)
                 && (contract_id er =? contract))
  end.

Definition all_endpoint_generations_differ (r : RuntimeIpcRegistry) (g : Z) : bool :=
  forallb (fun er => negb (generation (ep_handle er) =? g)) (live (endpoints r)).

Definition find_endpoint (r : RuntimeIpcRegistry) (p c : ServiceHandle) (contract : Z) :
    result EndpointHandle IpcStatus :=
  if negb (is_valid p) || negb (is_valid c) || (contract =? 0) then Err IpcMalformed
  else match list_find (fun er => producer er = p ∧ consumer er = c ∧ contract_id er = contract)
               (live (endpoints r)) with
  | Some (_, er) => Ok (ep_handle er)
  | None => Err IpcDisconnected
  end.

Definition endpoint_events (r : RuntimeIpcRegistry) (h : EndpointHandle) :
    result (EventHandle * EventHandle) IpcStatus :=
  match endpoint r h with Err e => Err e | Ok er => Ok (read_event er, write_event er) end.

(** ** Destruction *)

(** Drop every capability the predicate selects and advance its generation. *)
Definition revoke (p : CapabilityRecord -> bool) (slots : list (slot CapabilityRecord)) :
    list (slot CapabilityRecord) :=
  (fun s => match slot_value s with
            | Some g => if p g then mk_slot (next_generation (slot_generation s)) None else s
            | None => s
            end) <$> slots.

Definition destroy_endpoint_inner (alloc : bool) (w : IpcWorld) (h : EndpointHandle) :
    IpcWorld * result (list FrameAddress) IpcStatus :=
  match endpoint_slot (ipc w) h with
  | Err e => (w, Err e)
  | Ok i =>
      match endpoint (ipc w) h with
      | Err e => (w, Err e)
      | Ok er =>
          let ipc' := with_committed (ipc w)
            (saturating_sub (queue_committed_messages (ipc w)) (Z.of_nat (queue_capacity er))) in
          let ew := (destroy_event (evw w) (consumer er) (read_event er)).1 in
          let ew := (destroy_event ew (producer er) (write_event er)).1 in
          let w := mk_iworld ipc' ew (phys w) in
          let frames := match queue er with
                        | Heap _ => Some []
                        | Frames frames => if alloc then Some frames else None
                        end in
          match frames with
          | None => (w, Err IpcDisconnected)
          | Some frames =>
              let ipc' := with_endpoints (ipc w) (vacate (endpoints (ipc w)) i) in
              let ipc' := with_capabilities ipc'
                (revoke (fun g => bool_decide (cap_endpoint g = h)) (capabilities ipc')) in
              (with_ipc w ipc', Ok frames)
          end
      end
  end.

Definition destroy_endpoint (alloc : bool) (w : IpcWorld) (h : EndpointHandle) :
    IpcWorld * result unit IpcStatus :=
  match destroy_endpoint_inner alloc w h with
  | (w, Ok _) => (w, Ok tt)
  | (w, Err e) => (w, Err e)
  end.

(** What the frame pool offers to IPC: [FramePool::release], with the answer
    whether it succeeded. *)
Class FrameRelease (Pool : Type) : Type := release : Pool -> FrameAddress -> Pool * bool.

Section with_pool.
Context {Pool : Type} `{FrameRelease Pool}.

Fixpoint release_all (pool : Pool) (frames : list FrameAddress) : Pool * result unit IpcStatus :=
  match frames with
  | [] => (pool, Ok tt)
  | f :: frames =>
      match release pool f with
      | (pool, true) => release_all pool frames
      | (pool, false) => (pool, Err IpcDisconnected)
      end
  end.

Definition destroy_endpoint_with_pool (alloc : bool) (w : IpcWorld) (pool : Pool)
    (h : EndpointHandle) : IpcWorld * Pool * result unit IpcStatus :=
  match destroy_endpoint_inner alloc w h with
  | (w, Err e) => (w, pool, Err e)
  | (w, Ok frames) => let '(pool, r) := release_all pool frames in (w, pool, r)
  end.

(** [destroy_service_inner]; [alloc k] answers the reservation of the [k]-th
    endpoint destroyed. *)
Definition destroy_service_inner (alloc : nat -> bool) (w : IpcWorld) (s : ServiceHandle)
    (pool : option Pool) : IpcWorld * option Pool :=
  let eps := ep_handle <$> filter (uses s) (live (endpoints (ipc w))) in
  let '(w, pool) :=
    foldl (fun '(w, pool) '(k, h) =>
      match pool with
      | Some p =>
          let '(w, p, _) := destroy_endpoint_with_pool (alloc k) w p h in (w, Some p)
      | None => ((destroy_endpoint (alloc k) w h).1, None)
      end) (w, pool) (imap pair eps) in
  let w := with_ipc w (with_capabilities (ipc w)
             (revoke (fun g => bool_decide (cap_owner g = s)) (capabilities (ipc w)))) in
  (with_evw w (Events.destroy_service (evw w) s), pool).

Definition destroy_service_with_pool (alloc : nat -> bool) (w : IpcWorld) (s : ServiceHandle)
    (pool : Pool) : IpcWorld * option Pool :=
  destroy_service_inner alloc w s (Some pool).

End with_pool.

#[export] Instance no_pool_release : FrameRelease Empty_set := fun p _ => match p with end.

Definition destroy_service (alloc : nat -> bool) (w : IpcWorld) (s : ServiceHandle) : IpcWorld :=
  (destroy_service_inner (Pool := Empty_set) alloc w s None).1.

Definition drain_queue_frames (alloc : nat -> bool) (w : IpcWorld) : IpcWorld * list FrameAddress :=
  let eps := ep_handle <$> live (endpoints (ipc w)) in
  foldl (fun '(w, frames) '(k, h) =>
    match destroy_endpoint_inner (alloc k) w h with
    | (w, Ok qf) => (w, frames ++ qf)
    | (w, Err _) => (w, frames)
    end) (w, []) (imap pair eps).

(** ** Messages *)

Definition set_queue (q : QueueStorage) (head tail len : nat) (e : EndpointRecord) : EndpointRecord :=
  mk_endpoint (ep_handle e) (producer e) (consumer e) (contract_id e) (message_bytes e)
    (queue_capacity e) (ep_service_epoch e) (read_event e) (write_event e) q head tail len.

Definition store_endpoint (w : IpcWorld) (h : EndpointHandle) (e : EndpointRecord) : IpcWorld :=
  with_ipc w (with_endpoints (ipc w) (modify (fun _ => e) (endpoints (ipc w)) (Z.to_nat (index h)))).

(** Copy a message into entry [i] of the queue; [None] where indexing panics. *)
Definition write_entry (m : Z -> Z) (q : QueueStorage) (i : nat) (bytes : list Z) :
    option (QueueStorage * (Z -> Z)) :=
  match q with
  | Heap msgs =>
      match msgs !! i with
      | None => None
      | Some old =>
          if (length bytes <=? length old)%nat
          then Some (Heap (<[i := bytes ++ drop (length bytes) old]> msgs), m) else None
      end
  | Frames frames =>
      match frames !! i with
      | None => None
      | Some addr => Some (Frames frames, write_bytes m addr bytes)
      end
  end.

Definition read_entry (m : Z -> Z) (q : QueueStorage) (i n : nat) : option (list Z) :=
  match q with
  | Heap msgs =>
      match msgs !! i with
      | None => None
      | Some old => if (n <=? length old)%nat then Some (take n old) else None
      end
  | Frames frames =>
      match frames !! i with
      | None => None
      | Some addr => Some (read_bytes m addr n)
      end
  end.

Definition send (w : IpcWorld) (caller : ServiceHandle) (ch : CapabilityHandle) (bytes : list Z) :
    option (IpcWorld * IpcStatus) :=
  match capability (ipc w) ch with
  | Err e => Some (w, e)
  | Ok g =>
      if negb (bool_decide (cap_owner g = caller)) || negb (bool_decide (cap_rights g = Send))
      then Some (w, IpcUnauthorized)
      else match endpoint (ipc w) (cap_endpoint g) with
      | Err e => Some (w, e)
      | Ok e =>
          if negb (cap_service_epoch g =? ep_service_epoch e) then Some (w, IpcStale)
          else if negb (length bytes =? message_bytes e)%nat then Some (w, IpcMalformed)
          else if (queue_capacity e <=? queue_len e)%nat then Some (w, IpcFull)
          else match write_entry (phys w) (queue e) (queue_tail e) bytes with
          | None => None
          | Some (q, m) =>
              let e' := set_queue q (queue_head e) ((queue_tail e + 1) mod queue_capacity e)%nat
                          (queue_len e + 1) e in
              let w := with_phys (store_endpoint w (cap_endpoint g) e') m in
              Some (with_evw w (signal_irq (evw w) (read_event e)).1, IpcOk)
          end
      end
  end.

(** [receive] into a buffer of [n] bytes; the received message on success. *)
Definition receive (w : IpcWorld) (caller : ServiceHandle) (ch : CapabilityHandle) (n : nat) :
    option (IpcWorld * IpcStatus * list Z) :=
  match capability (ipc w) ch with
  | Err e => Some (w, e, [])
  | Ok g =>
      if negb (bool_decide (cap_owner g = caller)) || negb (bool_decide (cap_rights g = Receive))
      then Some (w, IpcUnauthorized, [])
      else match endpoint (ipc w) (cap_endpoint g) with
      | Err e => Some (w, e, [])
      | Ok e =>
          if negb (cap_service_epoch g =? ep_service_epoch e) then Some (w, IpcStale, [])
          else if negb (n =? message_bytes e)%nat then Some (w, IpcMalformed, [])
          else if (queue_len e =? 0)%nat then Some (w, IpcEmpty, [])
          else match read_entry (phys w) (queue e) (queue_head e) (message_bytes e) with
          | None => None
          | Some bytes =>
              let e' := set_queue (queue e) ((queue_head e + 1) mod queue_capacity e)%nat
                          (queue_tail e) (queue_len e - 1) e in
              let w := store_endpoint w (cap_endpoint g) e' in
              Some (with_evw w (signal_irq (evw w) (write_event e)).1, IpcOk, bytes)
          end
      end
  end.

(** ** Directory *)

Definition rights_code (r : IpcRights) : Z := match r with Send => 1 | Receive => 2 end.

Definition capability_record (g : CapabilityRecord) (e : EndpointRecord) : DirectoryRecord :=
  mk_record KindCapability (rights_code (cap_rights g)) 0 (raw (cap_handle g))
    (if bool_decide (producer e = cap_owner g) then consumer e else producer e)
    (contract_id e) (wrap 16 (Z.of_nat (message_bytes e))) (wrap 16 (Z.of_nat (queue_capacity e)))
    (if bool_decide (cap_rights g = Send) then write_event e else read_event e)
    0 [0] (replicate MAX_SERVICE_NAME_BYTES 0).

Definition endpoint_record (e : EndpointRecord) : DirectoryRecord :=
  mk_record KindEndpoint 0 0 (raw (ep_handle e)) (consumer e) (contract_id e)
    (wrap 16 (Z.of_nat (message_bytes e))) (wrap 16 (Z.of_nat (queue_capacity e)))
    EMPTY 0 [0] (replicate MAX_SERVICE_NAME_BYTES 0).

Definition directory (r : RuntimeIpcRegistry) (rq : DirectoryRequest) (rs : DirectoryResponse) :
    DirectoryResponse * DirectoryStatus :=
  if negb (request_is_valid rq) || negb (bool_decide (rq_operation rq = OpCapabilities))
  then (rs, DirMalformed)
  else page (rq_operation rq) rq
    ((fun g => match endpoint r (cap_endpoint g) with
               | Ok e => ItemRecord (capability_record g e)
               | Err _ => ItemSkip
               end) <$> filter (fun g => cap_owner g = rq_subject rq) (live (capabilities r))).

Definition directory_endpoints (r : RuntimeIpcRegistry) (rq : DirectoryRequest) (rs : DirectoryResponse) :
    DirectoryResponse * DirectoryStatus :=
  if negb (request_is_valid rq) || negb (bool_decide (rq_operation rq = OpEndpoints))
  then (rs, DirMalformed)
  else page (rq_operation rq) rq ((fun e => ItemRecord (endpoint_record e)) <$> live (endpoints r)).

(** ** Invariant *)

Definition PAGE : nat := 4096.

Definition aligned (f : FrameAddress) : Prop := 0 <= f ∧ f mod IPC_PAGE_BYTES = 0.

Definition frames_of (e : EndpointRecord) : list FrameAddress :=
  match queue e with Heap _ => [] | Frames fs => fs end.

Definition storage_ok (q : QueueStorage) (cap : nat) : Prop :=
  match q with
  | Heap msgs => length msgs = cap ∧ Forall (fun m => Z.of_nat (length m) = IPC_PAGE_BYTES) msgs
  | Frames fs => length fs = cap ∧ NoDup fs ∧ Forall aligned fs
  end.

Record ep_ok (h : EndpointHandle) (e : EndpointRecord) : Prop := {
  ok_handle : ep_handle e = h;
  ok_producer : is_valid (producer e) = true;
  ok_consumer : is_valid (consumer e) = true;
  ok_distinct : producer e ≠ consumer e;
  ok_bytes : (0 < message_bytes e)%nat ∧ Z.of_nat (message_bytes e) <= IPC_PAGE_BYTES;
  ok_capacity : (0 < queue_capacity e)%nat ∧ Z.of_nat (queue_capacity e) <= U16_MAX;
  ok_head : (queue_head e < queue_capacity e)%nat;
  ok_len : (queue_len e <= queue_capacity e)%nat;
  ok_tail : queue_tail e = ((queue_head e + queue_len e) mod queue_capacity e)%nat;
  ok_storage : storage_ok (queue e) (queue_capacity e);
  ok_events : handle_ok (read_event e) ∧ handle_ok (write_event e);
  ok_events_valid : is_valid (read_event e) = true ∧ is_valid (write_event e) = true
}.

Definition holder (e : EndpointRecord) (r : IpcRights) : ServiceHandle :=
  match r with Send => producer e | Receive => consumer e end.

Definition cap_ok (eps : list (slot EndpointRecord)) (ch : CapabilityHandle) (g : CapabilityRecord) :
    Prop :=
  cap_handle g = ch ∧ handle_ok (cap_endpoint g) ∧
  exists e, slot_get eps (cap_endpoint g) = Some e ∧ cap_service_epoch g = ep_service_epoch e ∧
    cap_owner g = holder e (cap_rights g).

Definition capacity_of (e : EndpointRecord) : Z := Z.of_nat (queue_capacity e).

(** The invariant comes in two strengths.  A failed reservation in
    [destroy_endpoint] returns the capacity of an endpoint that stays alive, so
    the committed count is in general only bounded by the live capacities; with
    [exact] it is equal to them. *)
Section invariant.
Context {exact : bool}.

Record reg_wf (r : RuntimeIpcRegistry) : Prop := {
  rw_eps : slots_wf (endpoints r);
  rw_caps : slots_wf (capabilities r);
  rw_seed : gen_ok 32 (generation_seed r);
  rw_cap_seed : gen_ok 32 (capability_generation r);
  rw_ep : forall h e, handle_ok h -> slot_get (endpoints r) h = Some e -> ep_ok h e;
  rw_cap : forall ch g, handle_ok ch -> slot_get (capabilities r) ch = Some g ->
    cap_ok (endpoints r) ch g;
  rw_frames : forall (h1 h2 : EndpointHandle) e1 e2 f, handle_ok h1 -> handle_ok h2 -> h1 ≠ h2 ->
    slot_get (endpoints r) h1 = Some e1 -> slot_get (endpoints r) h2 = Some e2 ->
    f ∈ frames_of e1 -> f ∉ frames_of e2;
  rw_committed : 0 <= queue_committed_messages r <= total capacity_of (endpoints r);
  rw_exact : exact = true -> queue_committed_messages r = total capacity_of (endpoints r);
  rw_budget : queue_committed_messages r <= queue_budget_messages r <= USIZE_MAX
}.

Definition iwf (w : IpcWorld) : Prop := reg_wf (ipc w) ∧ Events.wf (evw w).

(** Frames handed to a new queue: page aligned, distinct and in no other queue,
    as the frame allocator returns them. *)
Definition fresh_frames (r : RuntimeIpcRegistry) (fs : list FrameAddress) : Prop :=
  NoDup fs ∧ Forall aligned fs ∧
  forall (h : EndpointHandle) e f, handle_ok h -> slot_get (endpoints r) h = Some e ->
    f ∈ fs -> f ∉ frames_of e.

(** Tables and event tables stay below the 2^32 records a handle can name. *)
Definition iroom (w : IpcWorld) : Prop :=
  Z.of_nat (length (endpoints (ipc w))) < 2 ^ 32 ∧
  Z.of_nat (length (capabilities (ipc w))) < 2 ^ 32 ∧
  Z.of_nat (length (events (registry (evw w)))) + 1 < 2 ^ 32 ∧
  Z.of_nat (length (sets (registry (evw w)))) < 2 ^ 32.

(** The operations; the flag of a step says that no reservation of a frame list
    failed in it. *)
Inductive ipc_step : bool -> IpcWorld -> IpcWorld -> Prop :=
| istep_create alloc w p c ct b n ep :
    iroom w -> ipc_step true w (create_endpoint alloc w p c ct b n ep).1
| istep_create_frames alloc w p c ct b n ep fs :
    iroom w -> fresh_frames (ipc w) fs ->
    ipc_step true w (create_endpoint_with_frames alloc w p c ct b n ep fs).1
| istep_grant alloc w o h r : iroom w -> handle_ok h -> ipc_step true w (grant alloc w o h r).1
| istep_destroy alloc w h : handle_ok h -> ipc_step alloc w (destroy_endpoint alloc w h).1
| istep_destroy_pool (Pool : Type) (R : FrameRelease Pool) alloc w pool h :
    handle_ok h -> ipc_step alloc w (destroy_endpoint_with_pool alloc w pool h).1.1
| istep_destroy_service x alloc w s :
    (x = true -> forall k, alloc k = true) -> ipc_step x w (destroy_service alloc w s)
| istep_destroy_service_pool (Pool : Type) (R : FrameRelease Pool) x alloc w s pool :
    (x = true -> forall k, alloc k = true) -> ipc_step x w (destroy_service_with_pool alloc w s pool).1
| istep_drain x alloc w :
    (x = true -> forall k, alloc k = true) -> ipc_step x w (drain_queue_frames alloc w).1
| istep_send w caller ch bytes w' st :
    handle_ok ch -> send w caller ch bytes = Some (w', st) -> ipc_step true w w'
| istep_receive w caller ch n w' st out :
    handle_ok ch -> receive w caller ch n = Some (w', st, out) -> ipc_step true w w'
| istep_event w ew : event_step (evw w) ew -> ipc_step true w (with_evw w ew).

(** ** Lemmas *)

Lemma endpoint_Ok r h e : endpoint r h = Ok e <-> slot_get (endpoints r) h = Some e.
Proof. unfold endpoint, ok_or. case_match; split; congruence. Qed.

Lemma capability_Ok r h g : capability r h = Ok g <-> slot_get (capabilities r) h = Some g.
Proof. unfold capability, ok_or. case_match; split; congruence. Qed.

Lemma cap_ok_impl eps eps' ch g :
  (forall e, slot_get eps (cap_endpoint g) = Some e -> exists e', slot_get eps' (cap_endpoint g) = Some e' ∧
     ep_service_epoch e' = ep_service_epoch e ∧ producer e' = producer e ∧ consumer e' = consumer e) ->
  cap_ok eps ch g -> cap_ok eps' ch g.
Proof.
  intros Hi (Hh & Hok & e & He & Hep & Ho). split; [done|]. split; [done|].
  destruct (Hi e He) as (e' & He' & Hep' & Hp & Hc). exists e'. split; [done|]. split; [congruence|].
  rewrite Ho. destruct (cap_rights g); simpl; congruence.
Qed.

Lemma slot_get_revoke p slots (h : CapabilityHandle) :
  slot_get (revoke p slots) h =
  match slot_get slots h with Some g => if p g then None else Some g | None => None end.
Proof.
  rewrite !slot_get_at. unfold at_slot, revoke. rewrite list_lookup_fmap.
  destruct (slots !! _) as [[gn [v|]]|]; simpl; [|by case_match|done].
  destruct (p v) eqn:Ep; simpl; repeat case_match; congruence.
Qed.

Lemma slots_wf_revoke p slots : slots_wf slots -> slots_wf (revoke p slots).
Proof.
  intros [Hf Hl]. unfold revoke. split; [|by rewrite length_fmap]. apply Forall_fmap.
  eapply Forall_impl; [exact Hf|]. intros [g [v|]] Hg; simpl in *; [|done]. case_match; [|done].
  simpl. rewrite slot_next_generation. apply next_gen_ok; [lia|done].
Qed.

Lemma reg_wf_grow r slots i alloc :
  reg_wf r -> Z.of_nat (length (endpoints r)) < 2 ^ 32 ->
  allocate alloc (endpoints r) (generation_seed r) = Some (slots, i) ->
  reg_wf (with_endpoints r slots).
Proof.
  intros Hwf Hl Ha. pose proof (allocate_spec _ _ _ _ _ Ha) as (_ & _ & Hat).
  assert (Hget : forall h : EndpointHandle, slot_get slots h = slot_get (endpoints r) h)
    by (intros; rewrite !slot_get_at; apply Hat).
  destruct (allocate_wf _ _ _ _ _ (rw_eps r Hwf) (rw_seed r Hwf) Hl Ha) as [Hs _].
  destruct (total_allocate capacity_of _ _ _ _ _ (mk_endpoint EMPTY EMPTY EMPTY 0 0 0 0 EMPTY EMPTY
    (Heap []) 0 0 0) Ha) as [Ht _].
  destruct Hwf. split; simpl; try done.
  - intros h e. rewrite Hget. auto.
  - intros ch g Hch Hg. eapply cap_ok_impl; [|by eapply rw_cap0]. intros e. rewrite Hget. eauto 10.
  - intros h1 h2 e1 e2 f. rewrite !Hget. eauto.
  - by rewrite Ht.
  - by rewrite Ht.
Qed.

Lemma reg_wf_add r slots i alloc h e :
  reg_wf r -> Z.of_nat (length (endpoints r)) < 2 ^ 32 ->
  allocate alloc (endpoints r) (generation_seed r) = Some (slots, i) ->
  handle_new (wrap 32 (Z.of_nat i)) (generation_at slots i) = Some h ->
  ep_ok h e -> over_budget r (queue_capacity e) = false -> fresh_frames r (frames_of e) ->
  reg_wf (with_committed (with_endpoints r (fill slots i e))
    (saturating_add 64 (queue_committed_messages r) (Z.of_nat (queue_capacity e)))).
Proof.
  intros Hwf Hl Ha Hh He Hb (_ & _ & Hff).
  destruct (create_spec (k := KEndpoint) _ _ _ slots i e (rw_eps r Hwf) (rw_seed r Hwf) Hl Ha)
    as (h' & Hh' & Hok & _ & Hs & Hnone & Hget). simplify_eq.
  destruct (total_allocate capacity_of _ _ _ _ _ e Ha) as [_ Ht].
  pose proof (ok_capacity h e He) as [Hc0 _]. destruct Hwf.
  assert (Hcb : queue_committed_messages r + Z.of_nat (queue_capacity e) <= queue_budget_messages r).
  { unfold over_budget, saturating_sub in Hb. apply Z.ltb_ge in Hb. lia. }
  assert (Hsat : saturating_add 64 (queue_committed_messages r) (Z.of_nat (queue_capacity e)) =
    queue_committed_messages r + Z.of_nat (queue_capacity e)).
  { unfold saturating_add. unfold USIZE_MAX, U64_MAX in *. lia. }
  rewrite Hsat. split; simpl; try done.
  - intros h' e' Hh'. rewrite Hget by done. case_decide; [|by auto]. intros. by simplify_eq.
  - intros ch g Hch Hg. pose proof (rw_cap0 ch g Hch Hg) as Hco.
    eapply cap_ok_impl; [|exact Hco]. destruct Hco as (_ & Heo & _). intros e0 He0.
    rewrite Hget, decide_False by (try done; congruence). eauto 10.
  - intros h1 h2 e1 e2 f Hh1 Hh2 Hne. rewrite !Hget by done.
    repeat case_decide; intros H1 H2 Hf1 Hf2; simplify_eq.
    1: by apply (Hff h2 e2 f).
    1: by apply (Hff h1 e1 f).
    by eapply (rw_frames0 h1 h2 e1 e2 f).
  - unfold capacity_of in Ht at 3. lia.
  - intros Hx. specialize (rw_exact0 Hx). unfold capacity_of in Ht at 3. lia.
  - lia.
Qed.

Lemma reg_wf_modify r (h : EndpointHandle) e q head tail len :
  reg_wf r -> handle_ok h -> slot_get (endpoints r) h = Some e ->
  ep_ok h (set_queue q head tail len e) -> frames_of (set_queue q head tail len e) = frames_of e ->
  reg_wf (with_endpoints r
    (modify (fun _ => set_queue q head tail len e) (endpoints r) (Z.to_nat (index h)))).
Proof.
  intros Hwf Hh He Hok Hf. pose proof (total_modify capacity_of
    (fun _ => set_queue q head tail len e) (endpoints r) h e He) as Ht.
  assert (Hget : forall h' : EndpointHandle, handle_ok h' ->
    slot_get (modify (fun _ => set_queue q head tail len e) (endpoints r) (Z.to_nat (index h))) h' =
    if decide (h' = h) then Some (set_queue q head tail len e) else slot_get (endpoints r) h')
    by (intros; by apply (slot_get_modify (fun _ => set_queue q head tail len e) _ h e)).
  destruct Hwf. split; simpl; try done.
  - by apply slots_wf_modify.
  - intros h' e' Hh'. rewrite Hget by done. case_decide; [|by auto]. intros. by simplify_eq.
  - intros ch g Hch Hg. pose proof (rw_cap0 ch g Hch Hg) as Hco.
    eapply cap_ok_impl; [|exact Hco]. destruct Hco as (_ & Heo & _). intros e0 He0.
    rewrite Hget by done. case_decide as E; [|by eauto 10]. rewrite E in He0. simplify_eq. eauto 10.
  - intros h1 h2 e1 e2 f Hh1 Hh2 Hne. rewrite !Hget by done.
    repeat case_decide; intros H1 H2 Hf1; simplify_eq; rewrite ?Hf in *.
    + by apply (rw_frames0 h h2 e e2 f).
    + by apply (rw_frames0 h1 h e1 e f).
    + by apply (rw_frames0 h1 h2 e1 e2 f).
  - rewrite Ht. unfold capacity_of at 2 3. simpl. lia.
  - intros Hx. rewrite Ht, (rw_exact0 Hx). unfold capacity_of at 3 4. simpl. lia.
Qed.

(** *** Queue entries *)

Lemma read_write_same m addr bytes : read_bytes (write_bytes m addr bytes) addr (length bytes) = bytes.
Proof.
  unfold read_bytes, write_bytes. apply list_eq. intros i. rewrite list_lookup_fmap.
  destruct (decide (i < length bytes)%nat) as [Hi|Hi].
  - rewrite lookup_seq_lt by done. simpl.
    destruct (Z.leb_spec addr (addr + Z.of_nat i)); [|lia].
    destruct (Z.ltb_spec (addr + Z.of_nat i) (addr + Z.of_nat (length bytes))); [|lia]. simpl.
    replace (Z.to_nat (addr + Z.of_nat i - addr)) with i by lia.
    destruct (lookup_lt_is_Some_2 bytes i Hi) as [b Hb]. rewrite Hb. f_equal.
    by apply nth_lookup_Some.
  - rewrite lookup_seq_ge by lia. by rewrite lookup_ge_None_2 by lia.
Qed.

Lemma read_write_other m addr addr' bytes n :
  aligned addr -> aligned addr' -> addr ≠ addr' ->
  Z.of_nat (length bytes) <= IPC_PAGE_BYTES -> Z.of_nat n <= IPC_PAGE_BYTES ->
  read_bytes (write_bytes m addr bytes) addr' n = read_bytes m addr' n.
Proof.
  unfold aligned, IPC_PAGE_BYTES. intros [H0 Ha] [H0' Ha'] Hne Hb Hn.
  apply list_fmap_ext. intros i x Hx%lookup_seq. unfold write_bytes.
  apply Z_div_exact_full_2 in Ha; [|lia]. apply Z_div_exact_full_2 in Ha'; [|lia].
  destruct (Z.leb_spec addr (addr' + Z.of_nat x)); [|done].
  destruct (Z.ltb_spec (addr' + Z.of_nat x) (addr + Z.of_nat (length bytes))); [|done].
  exfalso. apply Hne. lia.
Qed.

(** Writing entry [i] of a well-formed queue succeeds, changes what entry [i]
    reads as, and nothing else. *)
Lemma write_entry_spec m q cap i bytes :
  storage_ok q cap -> (i < cap)%nat -> Z.of_nat (length bytes) <= IPC_PAGE_BYTES ->
  exists q' m', write_entry m q i bytes = Some (q', m') ∧ storage_ok q' cap ∧
    (forall e, frames_of (set_queue q' 0 0 0 e) = frames_of (set_queue q 0 0 0 e)) ∧
    (forall j, (j < cap)%nat -> read_entry m' q' j (length bytes) =
       if decide (j = i) then Some bytes else read_entry m q j (length bytes)) ∧
    (forall addr n, aligned addr -> Z.of_nat n <= IPC_PAGE_BYTES ->
       (forall e, addr ∉ frames_of (set_queue q 0 0 0 e)) -> read_bytes m' addr n = read_bytes m addr n).
Proof.
  intros Hs Hi Hb. destruct q as [msgs|fs]; simpl in *.
  - destruct Hs as [Hl Hf]. destruct (lookup_lt_is_Some_2 msgs i ltac:(lia)) as [old Hold].
    pose proof (Forall_lookup_1 _ _ _ _ Hf Hold) as Hlen. simpl in Hlen. rewrite Hold.
    destruct (Nat.leb_spec (length bytes) (length old)) as [Hle|]; [|lia].
    eexists _, _. split; [done|]. split; [|split; [done|split; [|done]]].
    + simpl. rewrite length_insert. split; [done|]. apply Forall_insert; [done|].
      rewrite length_app, length_drop. lia.
    + intros j Hj. simpl. case_decide as Hji.
      * subst. rewrite list_lookup_insert_eq by lia. rewrite length_app, length_drop.
        destruct (Nat.leb_spec (length bytes) (length bytes + (length old - length bytes))); [|lia].
        by rewrite take_app_length.
      * by rewrite list_lookup_insert_ne by done.
  - destruct Hs as (Hl & Hn & Hf). destruct (lookup_lt_is_Some_2 fs i ltac:(lia)) as [a Ha].
    rewrite Ha. eexists _, _. split; [done|]. split; [done|]. split; [done|].
    pose proof (Forall_lookup_1 _ _ _ _ Hf Ha) as Hal. split.
    + intros j Hj. destruct (lookup_lt_is_Some_2 fs j ltac:(lia)) as [b Hjb]. simpl. rewrite Hjb.
      case_decide as Hji; [subst; simplify_eq; by rewrite read_write_same|].
      rewrite read_write_other; try done; [by apply (Forall_lookup_1 _ _ _ _ Hf Hjb)|].
      intros ->. apply Hji. by eapply NoDup_lookup.
    + intros addr n Hadr Hnn Hnot. apply read_write_other; try done. intros ->.
      eapply (Hnot (mk_endpoint EMPTY EMPTY EMPTY 0 0 0 0 EMPTY EMPTY (Heap []) 0 0 0)).
      unfold frames_of. simpl. by eapply list_elem_of_lookup_2.
Qed.

Lemma read_entry_Some m q cap i n :
  storage_ok q cap -> (i < cap)%nat -> Z.of_nat n <= IPC_PAGE_BYTES ->
  is_Some (read_entry m q i n).
Proof.
  intros Hs Hi Hn. destruct q as [msgs|fs]; simpl in *.
  - destruct Hs as [Hl Hf]. destruct (lookup_lt_is_Some_2 msgs i ltac:(lia)) as [old Hold].
    pose proof (Forall_lookup_1 _ _ _ _ Hf Hold) as Hlen. simpl in Hlen. rewrite Hold.
    destruct (Nat.leb_spec n (length old)); [eauto|lia].
  - destruct Hs as (Hl & _ & _). destruct (lookup_lt_is_Some_2 fs i ltac:(lia)) as [a ->]. eauto.
Qed.

(** *** The queue an endpoint represents *)

Definition queue_view (m : Z -> Z) (e : EndpointRecord) : list (list Z) :=
  (fun k => default [] (read_entry m (queue e) ((queue_head e + k) mod queue_capacity e)
                          (message_bytes e))) <$> seq 0 (queue_len e).

Definition messages (w : IpcWorld) (h : EndpointHandle) : option (list (list Z)) :=
  queue_view (phys w) <$> slot_get (endpoints (ipc w)) h.

Lemma ring_distinct head a b cap :
  (a < cap)%nat -> (b < cap)%nat -> ((head + a) mod cap = (head + b) mod cap)%nat -> a = b.
Proof.
  intros Ha Hb E. destruct (decide (cap = 0)%nat); [lia|].
  pose proof (Nat.div_mod (head + a) cap ltac:(lia)) as H1.
  pose proof (Nat.div_mod (head + b) cap ltac:(lia)) as H2. rewrite E in H1.
  revert H1 H2. generalize ((head + a) / cap)%nat, ((head + b) / cap)%nat. intros x y H1 H2.
  destruct (Nat.lt_trichotomy x y) as [|[->|]]; nia.
Qed.

Lemma queue_view_push m q' m' e bytes h :
  ep_ok h e -> (queue_len e < queue_capacity e)%nat -> length bytes = message_bytes e ->
  (forall j, (j < queue_capacity e)%nat -> read_entry m' q' j (length bytes) =
     if decide (j = queue_tail e) then Some bytes else read_entry m (queue e) j (length bytes)) ->
  queue_view m' (set_queue q' (queue_head e) ((queue_tail e + 1) mod queue_capacity e)
    (queue_len e + 1) e) = queue_view m e ++ [bytes].
Proof.
  intros He Hlen Hb Hr. unfold queue_view. simpl.
  rewrite seq_app, fmap_app. simpl. pose proof (ok_tail h e He) as Ht.
  pose proof (ok_capacity h e He) as [Hc _]. f_equal.
  - apply list_fmap_ext. intros i k Hk%lookup_seq. rewrite <- Hb.
    rewrite Hr by (apply Nat.mod_upper_bound; lia). rewrite decide_False; [done|].
    rewrite Ht. intros E%ring_distinct; lia.
  - rewrite <- Hb, Hr by (apply Nat.mod_upper_bound; lia). by rewrite decide_True.
Qed.

Lemma queue_view_pop m e h :
  ep_ok h e -> (0 < queue_len e)%nat ->
  queue_view m e =
  default [] (read_entry m (queue e) (queue_head e) (message_bytes e)) ::
  queue_view m (set_queue (queue e) ((queue_head e + 1) mod queue_capacity e) (queue_tail e)
    (queue_len e - 1) e).
Proof.
  intros He Hl. pose proof (ok_capacity h e He) as [Hc _]. pose proof (ok_head h e He).
  unfold queue_view. simpl. destruct (queue_len e) as [|n]; [lia|]. simpl.
  rewrite Nat.add_0_r, Nat.mod_small by lia. f_equal. rewrite Nat.sub_0_r, <- fmap_S_seq, <- list_fmap_compose.
  apply list_fmap_ext. intros i k _. simpl. do 2 f_equal.
  rewrite Nat.Div0.add_mod_idemp_l. f_equal. lia.
Qed.

(** Writing to one endpoint's storage leaves the other queues as they read. *)
Lemma queue_view_other m m' e h :
  ep_ok h e ->
  (forall addr, addr ∈ frames_of e -> read_bytes m' addr (message_bytes e) = read_bytes m addr (message_bytes e)) ->
  queue_view m' e = queue_view m e.
Proof.
  intros He Hm. unfold queue_view. apply list_fmap_ext. intros i k _. f_equal.
  unfold frames_of in Hm. destruct (queue e) as [msgs|fs]; [done|]. simpl.
  destruct (fs !! _) as [a|] eqn:Ha; [|done]. f_equal. apply Hm. by eapply list_elem_of_lookup_2.
Qed.

Lemma ep_ok_send h e q' :
  ep_ok h e -> (queue_len e < queue_capacity e)%nat -> storage_ok q' (queue_capacity e) ->
  ep_ok h (set_queue q' (queue_head e) ((queue_tail e + 1) mod queue_capacity e) (queue_len e + 1) e).
Proof.
  intros [] Hl Hs. split; simpl; try done; [lia|].
  rewrite ok_tail0, Nat.Div0.add_mod_idemp_l. f_equal. lia.
Qed.

Lemma ep_ok_receive h e :
  ep_ok h e -> (0 < queue_len e)%nat ->
  ep_ok h (set_queue (queue e) ((queue_head e + 1) mod queue_capacity e) (queue_tail e)
    (queue_len e - 1) e).
Proof.
  intros [] Hl. split; simpl; try done; [apply Nat.mod_upper_bound; lia|lia|].
  rewrite ok_tail0, Nat.Div0.add_mod_idemp_l. f_equal. lia.
Qed.

(** *** Sending and receiving *)

Lemma iwf_grant_endpoint w (ch : CapabilityHandle) g :
  iwf w -> handle_ok ch -> slot_get (capabilities (ipc w)) ch = Some g ->
  handle_ok (cap_endpoint g) ∧
  exists e, slot_get (endpoints (ipc w)) (cap_endpoint g) = Some e ∧ ep_ok (cap_endpoint g) e ∧
    cap_service_epoch g = ep_service_epoch e ∧ cap_owner g = holder e (cap_rights g).
Proof.
  intros [Hr _] Hch Hg. destruct (rw_cap _ Hr ch g Hch Hg) as (_ & Hok & e & He & Hep & Ho).
  split; [done|]. exists e. split; [done|]. split; [|done]. by apply (rw_ep _ Hr).
Qed.

(** The state after an accepted message. *)
Lemma send_accept w (ch : CapabilityHandle) g e bytes :
  iwf w -> handle_ok ch -> slot_get (capabilities (ipc w)) ch = Some g -> cap_rights g = Send ->
  slot_get (endpoints (ipc w)) (cap_endpoint g) = Some e ->
  length bytes = message_bytes e -> (queue_len e < queue_capacity e)%nat ->
  exists w', send w (cap_owner g) ch bytes = Some (w', IpcOk) ∧ iwf w' ∧
    evw w' = (signal_irq (evw w) (read_event e)).1 ∧ capabilities (ipc w') = capabilities (ipc w) ∧
    forall h, handle_ok h -> messages w' h =
      if decide (h = cap_endpoint g) then Some (queue_view (phys w) e ++ [bytes]) else messages w h.
Proof.
  intros Hw Hch Hg Hrt He Hb Hl. destruct (iwf_grant_endpoint w ch g Hw Hch Hg)
    as (Hok & e0 & He0 & Heok & Hep & Ho). rewrite He in He0. injection He0 as <-.
  pose proof (ok_bytes _ _ Heok) as [_ Hbytes]. pose proof (ok_capacity _ _ Heok) as [Hc _].
  assert (Htl : (queue_tail e < queue_capacity e)%nat)
    by (rewrite (ok_tail _ _ Heok); apply Nat.mod_upper_bound; lia).
  destruct (write_entry_spec (phys w) (queue e) (queue_capacity e) (queue_tail e) bytes
    (ok_storage _ _ Heok) Htl ltac:(lia)) as (q' & m' & Hwr & Hs & Hf & Hrd & Hoth).
  unfold send. rewrite (proj2 (capability_Ok _ _ _) Hg), !bool_decide_eq_true_2 by done. simpl.
  rewrite (proj2 (endpoint_Ok _ _ _) He), Hep, Z.eqb_refl. simpl.
  rewrite Hb, Nat.eqb_refl. simpl. destruct (Nat.leb_spec (queue_capacity e) (queue_len e)); [lia|].
  rewrite Hwr. eexists. split; [done|]. simpl.
  assert (Hfr : frames_of (set_queue q' (queue_head e) ((queue_tail e + 1) mod queue_capacity e)
    (queue_len e + 1) e) = frames_of e) by apply (Hf e).
  destruct Hw as [Hr Hev]. split; [|split; [done|split; [done|]]].
  - split; [|by apply wf_signal_irq; [|apply Heok]]. apply reg_wf_modify; try done.
    by apply ep_ok_send.
  - intros h Hh. unfold messages. simpl.
    rewrite (slot_get_modify (fun _ => set_queue q' _ _ _ e) _ _ e) by done. case_decide as E; simpl.
    + f_equal. by eapply queue_view_push.
    + destruct (slot_get (endpoints (ipc w)) h) as [e2|] eqn:He2; [|done]. simpl. f_equal.
      pose proof (rw_ep _ Hr h e2 Hh He2) as Hok2. eapply queue_view_other; [done|].
      intros addr Hin. apply Hoth.
      * pose proof (ok_storage _ _ Hok2) as Hs2. unfold frames_of in Hin.
        destruct (queue e2); [by apply not_elem_of_nil in Hin|]. destruct Hs2 as (_ & _ & Hal).
        rewrite Forall_forall in Hal. by apply Hal.
      * apply (ok_bytes _ _ Hok2).
      * intros e3 Hin3. by apply (rw_frames _ Hr h (cap_endpoint g) e2 e addr).
Qed.

Lemma receive_accept w (ch : CapabilityHandle) g e :
  iwf w -> handle_ok ch -> slot_get (capabilities (ipc w)) ch = Some g -> cap_rights g = Receive ->
  slot_get (endpoints (ipc w)) (cap_endpoint g) = Some e -> (0 < queue_len e)%nat ->
  exists w' bytes q, receive w (cap_owner g) ch (message_bytes e) = Some (w', IpcOk, bytes) ∧ iwf w' ∧
    evw w' = (signal_irq (evw w) (write_event e)).1 ∧ capabilities (ipc w') = capabilities (ipc w) ∧
    queue_view (phys w) e = bytes :: q ∧
    forall h, handle_ok h -> messages w' h =
      if decide (h = cap_endpoint g) then Some q else messages w h.
Proof.
  intros Hw Hch Hg Hrt He Hl. destruct (iwf_grant_endpoint w ch g Hw Hch Hg)
    as (Hok & e0 & He0 & Heok & Hep & Ho). rewrite He in He0. injection He0 as <-.
  destruct (read_entry_Some (phys w) (queue e) (queue_capacity e) (queue_head e) (message_bytes e)
    (ok_storage _ _ Heok) (ok_head _ _ Heok) (proj2 (ok_bytes _ _ Heok))) as [bytes Hrd].
  unfold receive. rewrite (proj2 (capability_Ok _ _ _) Hg), !bool_decide_eq_true_2 by done. simpl.
  rewrite (proj2 (endpoint_Ok _ _ _) He), Hep, Z.eqb_refl. simpl. rewrite Nat.eqb_refl. simpl.
  destruct (Nat.eqb_spec (queue_len e) 0); [lia|]. rewrite Hrd.
  eexists _, bytes, _. split; [done|]. simpl. destruct Hw as [Hr Hev].
  split; [|split; [done|split; [done|split]]].
  - split; [|by apply wf_signal_irq; [|apply Heok]]. apply reg_wf_modify; try done.
    by apply ep_ok_receive.
  - rewrite (queue_view_pop _ _ _ Heok Hl), Hrd. done.
  - intros h Hh. unfold messages. simpl.
    rewrite (slot_get_modify (fun _ => set_queue (queue e) _ _ _ e) _ _ e) by done.
    by case_decide.
Qed.

(** Why a message was refused; a refusal changes nothing. *)
Definition send_refused (w : IpcWorld) (caller : ServiceHandle) (ch : CapabilityHandle)
    (n : nat) (st : IpcStatus) : Prop :=
  match slot_get (capabilities (ipc w)) ch with
  | None => st = IpcStale
  | Some g =>
      if decide (cap_owner g = caller ∧ cap_rights g = Send) then
        exists e, slot_get (endpoints (ipc w)) (cap_endpoint g) = Some e ∧
          ((n ≠ message_bytes e ∧ st = IpcMalformed) ∨
           (n = message_bytes e ∧ queue_len e = queue_capacity e ∧ st = IpcFull))
      else st = IpcUnauthorized
  end.

Definition receive_refused (w : IpcWorld) (caller : ServiceHandle) (ch : CapabilityHandle)
    (n : nat) (st : IpcStatus) : Prop :=
  match slot_get (capabilities (ipc w)) ch with
  | None => st = IpcStale
  | Some g =>
      if decide (cap_owner g = caller ∧ cap_rights g = Receive) then
        exists e, slot_get (endpoints (ipc w)) (cap_endpoint g) = Some e ∧
          ((n ≠ message_bytes e ∧ st = IpcMalformed) ∨
           (n = message_bytes e ∧ queue_len e = 0%nat ∧ st = IpcEmpty))
      else st = IpcUnauthorized
  end.

Lemma send_refused_ne w caller ch n st : send_refused w caller ch n st -> st ≠ IpcOk.
Proof.
  unfold send_refused. intros H ->. repeat case_match; [|done..].
  by destruct H as (? & ? & [[_ ?]|(_ & _ & ?)]).
Qed.

Lemma receive_refused_ne w caller ch n st : receive_refused w caller ch n st -> st ≠ IpcOk.
Proof.
  unfold receive_refused. intros H ->. repeat case_match; [|done..].
  by destruct H as (? & ? & [[_ ?]|(_ & _ & ?)]).
Qed.

Lemma send_cases w caller ch bytes :
  iwf w -> handle_ok ch ->
  (exists st, send w caller ch bytes = Some (w, st) ∧ send_refused w caller ch (length bytes) st) ∨
  exists g e, slot_get (capabilities (ipc w)) ch = Some g ∧ cap_owner g = caller ∧ cap_rights g = Send ∧
    slot_get (endpoints (ipc w)) (cap_endpoint g) = Some e ∧
    length bytes = message_bytes e ∧ (queue_len e < queue_capacity e)%nat.
Proof.
  intros Hw Hch. unfold send_refused, send.
  destruct (slot_get (capabilities (ipc w)) ch) as [g|] eqn:Hg.
  2: { left. exists IpcStale. unfold capability. by rewrite Hg. }
  rewrite (proj2 (capability_Ok _ _ _) Hg).
  destruct (decide (cap_owner g = caller ∧ cap_rights g = Send)) as [[<- Hrt]|Hn].
  2: { left. exists IpcUnauthorized. split; [|done].
       destruct (decide (cap_owner g = caller)), (decide (cap_rights g = Send));
         rewrite ?bool_decide_eq_true_2, ?bool_decide_eq_false_2 by done; simpl; try done. tauto. }
  rewrite !bool_decide_eq_true_2 by done. simpl.
  destruct (iwf_grant_endpoint w ch g Hw Hch Hg) as (Hok & e & He & Heok & Hep & Ho).
  rewrite (proj2 (endpoint_Ok _ _ _) He), Hep, Z.eqb_refl. simpl.
  pose proof (ok_len _ _ Heok).
  destruct (Nat.eqb_spec (length bytes) (message_bytes e)) as [Hb|Hb]; simpl.
  2: { left. exists IpcMalformed. split; [done|]. exists e. auto. }
  destruct (Nat.leb_spec (queue_capacity e) (queue_len e)).
  - left. exists IpcFull. split; [done|]. exists e. split; [done|]. right. split; [done|]. split; [lia|done].
  - right. by exists g, e.
Qed.

Lemma receive_cases w caller ch n :
  iwf w -> handle_ok ch ->
  (exists st, receive w caller ch n = Some (w, st, []) ∧ receive_refused w caller ch n st) ∨
  exists g e, slot_get (capabilities (ipc w)) ch = Some g ∧ cap_owner g = caller ∧
    cap_rights g = Receive ∧ slot_get (endpoints (ipc w)) (cap_endpoint g) = Some e ∧
    n = message_bytes e ∧ (0 < queue_len e)%nat.
Proof.
  intros Hw Hch. unfold receive_refused, receive.
  destruct (slot_get (capabilities (ipc w)) ch) as [g|] eqn:Hg.
  2: { left. exists IpcStale. unfold capability. by rewrite Hg. }
  rewrite (proj2 (capability_Ok _ _ _) Hg).
  destruct (decide (cap_owner g = caller ∧ cap_rights g = Receive)) as [[<- Hrt]|Hn].
  2: { left. exists IpcUnauthorized. split; [|done].
       destruct (decide (cap_owner g = caller)), (decide (cap_rights g = Receive));
         rewrite ?bool_decide_eq_true_2, ?bool_decide_eq_false_2 by done; simpl; try done. tauto. }
  rewrite !bool_decide_eq_true_2 by done. simpl.
  destruct (iwf_grant_endpoint w ch g Hw Hch Hg) as (Hok & e & He & Heok & Hep & Ho).
  rewrite (proj2 (endpoint_Ok _ _ _) He), Hep, Z.eqb_refl. simpl.
  destruct (Nat.eqb_spec n (message_bytes e)) as [Hb|Hb]; simpl.
  2: { left. exists IpcMalformed. split; [done|]. exists e. auto. }
  destruct (Nat.eqb_spec (queue_len e) 0).
  - left. exists IpcEmpty. split; [done|]. exists e. auto.
  - right. exists g, e. conj. lia.
Qed.

Lemma send_iwf w caller ch bytes w' st :
  iwf w -> handle_ok ch -> send w caller ch bytes = Some (w', st) -> iwf w'.
Proof.
  intros Hw Hch E. destruct (send_cases w caller ch bytes Hw Hch)
    as [(st' & E' & _)|(g & e & Hg & <- & Hr & He & Hb & Hl)]; [congruence|].
  destruct (send_accept w ch g e bytes) as (w2 & E2 & ? & _); [done..|]. congruence.
Qed.

Lemma receive_iwf w caller ch n w' st out :
  iwf w -> handle_ok ch -> receive w caller ch n = Some (w', st, out) -> iwf w'.
Proof.
  intros Hw Hch E. destruct (receive_cases w caller ch n Hw Hch)
    as [(st' & E' & _)|(g & e & Hg & <- & Hr & He & -> & Hl)]; [congruence|].
  destruct (receive_accept w ch g e) as (w2 & b & q & E2 & ? & _); [done..|]. congruence.
Qed.

(** *** Preservation by the remaining operations *)

Definition queue_frames (q : QueueStorage) : list FrameAddress :=
  match q with Heap _ => [] | Frames fs => fs end.

Lemma wf_create_event_plain b w o : Events.wf w -> Events.room w -> Events.wf (create_event b w o).1.
Proof. apply wf_create_event. Qed.

Lemma create_malformed_false p c bytes cap epoch :
  create_malformed p c bytes cap epoch = false ->
  is_valid p = true ∧ is_valid c = true ∧ p ≠ c ∧
  ((0 < bytes)%nat ∧ Z.of_nat bytes <= IPC_PAGE_BYTES) ∧
  ((0 < cap)%nat ∧ Z.of_nat cap <= U16_MAX) ∧ epoch ≠ 0.
Proof.
  unfold create_malformed. intros H. boolprop.
  repeat match goal with H : (_ =? _)%nat = false |- _ => apply Nat.eqb_neq in H end.
  split; [done|]. split; [done|]. split; [done|]. split; [lia|]. split; [lia|done].
Qed.

Lemma create_endpoint_with_queue_iwf alloc w p c ct b n ep q :
  iwf w -> iroom w -> (create_malformed p c b n ep = false -> storage_ok q n) ->
  fresh_frames (ipc w) (queue_frames q) ->
  iwf (create_endpoint_with_queue alloc w p c ct b n ep q).1.
Proof.
  intros Hw (Hle & Hlc & Hlv & Hls) Hst Hfr. unfold create_endpoint_with_queue.
  destruct (create_malformed p c b n ep) eqn:Hm; [done|]. specialize (Hst eq_refl).
  destruct (over_budget (ipc w) n) eqn:Hb; [done|].
  destruct (allocate _ _ _) as [[slots i]|] eqn:Ha; [|done]. cbn [with_ipc evw ipc phys].
  destruct Hw as [Hr Hev]. pose proof (reg_wf_grow _ _ _ _ Hr Hle Ha) as Hr'.
  destruct (handle_new _ _) as [h|] eqn:Hh; [|done].
  assert (Hroom : Events.room (evw w)) by (split; lia).
  pose proof (wf_create_event_plain (alloc 1%nat) (evw w) c Hev Hroom) as Hev1.
  destruct (create_event (alloc 1%nat) (evw w) c) as [ew1 [re|err1]] eqn:E1; [|by split].
  destruct (create_event_ok _ _ _ _ _ Hev Hroom E1) as (Hre & Hrev & _ & _ & _ & Hsets & Hlen1).
  assert (Hroom1 : Events.room ew1) by (split; [|rewrite Hsets]; lia).
  pose proof (wf_create_event_plain (alloc 2%nat) ew1 p Hev1 Hroom1) as Hev2.
  destruct (create_event (alloc 2%nat) ew1 p) as [ew2 [we|err2]] eqn:E2; simpl in *.
  2: { split; [done|]. by apply wf_destroy_event. }
  destruct (create_event_ok _ _ _ _ _ Hev1 Hroom1 E2) as (Hwe & Hwev & _).
  split; [|done]. simpl. destruct (create_malformed_false _ _ _ _ _ Hm) as (Hp & Hc & Hne & Hbt & Hcp & _).
  set (e := mk_endpoint h p c ct b n ep re we q 0 0 0).
  assert (ep_ok h e).
  { split; simpl; try done; try lia. by rewrite Nat.Div0.mod_0_l. }
  change (queue_committed_messages _) with (queue_committed_messages (ipc w)).
  change n with (queue_capacity e). eapply (reg_wf_add (ipc w)); try done.
Qed.

Lemma fresh_frames_nil r : fresh_frames r [].
Proof. split; [constructor|]. split; [done|]. by intros h e f _ _ ?%not_elem_of_nil. Qed.

Lemma create_endpoint_iwf alloc w p c ct b n ep :
  iwf w -> iroom w -> iwf (create_endpoint alloc w p c ct b n ep).1.
Proof.
  intros Hw Hroom. unfold create_endpoint. case_match; [done|]. case_match; [done|].
  case_match; [done|]. apply create_endpoint_with_queue_iwf; [done..| |apply fresh_frames_nil].
  intros _. split; [apply length_replicate|]. apply Forall_replicate.
  unfold QueueMessage_empty. rewrite length_replicate. done.
Qed.

Lemma create_endpoint_with_frames_iwf alloc w p c ct b n ep fs :
  iwf w -> iroom w -> fresh_frames (ipc w) fs ->
  iwf (create_endpoint_with_frames alloc w p c ct b n ep fs).1.
Proof.
  intros Hw Hroom Hfr. unfold create_endpoint_with_frames.
  destruct (Nat.eqb_spec (length fs) n); simpl; [|done]. destruct (negb _); [done|].
  apply create_endpoint_with_queue_iwf; [done..| |done]. intros _. split; [done|].
  split; apply Hfr.
Qed.

(** What a successful grant returns and stores. *)
Lemma grant_ok alloc w o h r w' ch :
  iwf w -> iroom w -> grant alloc w o h r = (w', Ok ch) ->
  exists e, slot_get (endpoints (ipc w)) h = Some e ∧ o = holder e r ∧
    handle_ok ch ∧ slot_get (capabilities (ipc w)) ch = None ∧
    evw w' = evw w ∧ phys w' = phys w ∧ slots_wf (capabilities (ipc w')) ∧
    ipc w' = with_capabilities (ipc w) (capabilities (ipc w')) ∧
    forall ch', handle_ok ch' -> slot_get (capabilities (ipc w')) ch' =
      if decide (ch' = ch) then Some (mk_capability ch o h r (ep_service_epoch e))
      else slot_get (capabilities (ipc w)) ch'.
Proof.
  intros [Hr Hev] (_ & Hlc & _). unfold grant. destruct (endpoint _ h) as [e|] eqn:He; [|done].
  apply endpoint_Ok in He. destruct (negb _) eqn:Ho; [done|].
  destruct (allocate _ _ _) as [[slots i]|] eqn:Ha; [|done].
  destruct (handle_new _ _) as [ch0|] eqn:Hch0; [|done]. intros E. simplify_eq.
  destruct (create_spec (k := KCapability) _ _ _ slots i
    (mk_capability ch o h r (ep_service_epoch e)) (rw_caps _ Hr) (rw_cap_seed _ Hr) Hlc Ha)
    as (ch' & Hch' & Hok & _ & Hs & Hnone & Hget). simplify_eq.
  exists e. split; [done|]. split.
  { destruct r; simpl; apply negb_false_iff, bool_decide_eq_true_1 in Ho; done. }
  conj.
Qed.

Lemma grant_err alloc w o h r w' err :
  iwf w -> iroom w -> grant alloc w o h r = (w', Err err) -> w' = w.
Proof.
  intros [Hr Hev] (_ & Hlc & _). unfold grant. destruct (endpoint _ h) as [e|] eqn:He; [|congruence].
  destruct (negb _) eqn:Ho; [congruence|].
  destruct (allocate _ _ _) as [[slots i]|] eqn:Ha; [|congruence].
  destruct (create_spec (k := KCapability) _ _ _ slots i
    (mk_capability EMPTY o h r (ep_service_epoch e)) (rw_caps _ Hr) (rw_cap_seed _ Hr) Hlc Ha)
    as (ch' & -> & _). congruence.
Qed.

Lemma grant_iwf alloc w o h r : iwf w -> iroom w -> handle_ok h -> iwf (grant alloc w o h r).1.
Proof.
  intros Hw Hroom Hh. destruct (grant alloc w o h r) as [w' [ch|err]] eqn:E.
  2: { apply grant_err in E; [|done..]. by subst. }
  destruct (grant_ok _ _ _ _ _ _ _ Hw Hroom E)
    as (e & He & Ho & Hok & _ & Hew & _ & Hs & Hipc & Hget).
  destruct Hw as [Hr Hev]. split; simpl; [|by rewrite Hew]. rewrite Hipc. destruct Hr.
  split; simpl; try done. intros ch' g Hch'. rewrite Hget by done. case_decide; [|by auto].
  intros. simplify_eq. split; [done|]. split; [done|]. by exists e.
Qed.

Lemma reg_wf_destroy r (h : EndpointHandle) e :
  reg_wf r -> handle_ok h -> slot_get (endpoints r) h = Some e ->
  reg_wf (with_capabilities (with_endpoints (with_committed r
      (saturating_sub (queue_committed_messages r) (Z.of_nat (queue_capacity e))))
      (vacate (endpoints r) (Z.to_nat (index h))))
    (revoke (fun g => bool_decide (cap_endpoint g = h)) (capabilities r))).
Proof.
  intros Hwf Hh He. pose proof (total_vacate capacity_of (endpoints r) h e He) as Ht.
  assert (Hget : forall h' : EndpointHandle, handle_ok h' ->
    slot_get (vacate (endpoints r) (Z.to_nat (index h))) h' =
    if decide (h' = h) then None else slot_get (endpoints r) h')
    by (intros; by apply (slot_get_vacate _ h e)).
  assert (Hnn : 0 <= total capacity_of (vacate (endpoints r) (Z.to_nat (index h))))
    by (apply total_nonneg; intros; unfold capacity_of; lia).
  destruct Hwf. unfold capacity_of in Ht at 3. unfold saturating_sub. split; simpl; try done.
  - by apply slots_wf_vacate.
  - by apply slots_wf_revoke.
  - intros h' e' Hh'. rewrite Hget by done. case_decide; [done|]. by auto.
  - intros ch g Hch. rewrite slot_get_revoke.
    destruct (slot_get (capabilities r) ch) as [g0|] eqn:Hg; [|done].
    case_bool_decide as Hd; [done|]. intros. simplify_eq.
    pose proof (rw_cap0 ch g Hch Hg) as Hco. eapply cap_ok_impl; [|exact Hco].
    destruct Hco as (_ & Heo & _). intros e0 He0. rewrite Hget, decide_False by done. eauto 10.
  - intros h1 h2 e1 e2 f Hh1 Hh2 Hne. rewrite !Hget by done. repeat case_decide; [done..|].
    by apply rw_frames0.
  - lia.
  - intros Hx. specialize (rw_exact0 Hx). lia.
  - lia.
Qed.

(** What [destroy_endpoint_inner] does to a live endpoint when the frame list
    can be reserved. *)
Lemma destroy_inner_ok w (h : EndpointHandle) e :
  slot_get (endpoints (ipc w)) h = Some e ->
  destroy_endpoint_inner true w h =
  (mk_iworld
    (with_capabilities (with_endpoints (with_committed (ipc w)
      (saturating_sub (queue_committed_messages (ipc w)) (Z.of_nat (queue_capacity e))))
      (vacate (endpoints (ipc w)) (Z.to_nat (index h))))
     (revoke (fun g => bool_decide (cap_endpoint g = h)) (capabilities (ipc w))))
    (destroy_event (destroy_event (evw w) (consumer e) (read_event e)).1 (producer e) (write_event e)).1
    (phys w), Ok (frames_of e)).
Proof.
  intros He. unfold destroy_endpoint_inner, endpoint_slot. rewrite slot_index_get, He.
  cbn [ok_or]. rewrite (proj2 (endpoint_Ok _ _ _) He). unfold frames_of. by destruct (queue e).
Qed.

Lemma destroy_inner_stale alloc w (h : EndpointHandle) :
  slot_get (endpoints (ipc w)) h = None -> destroy_endpoint_inner alloc w h = (w, Err IpcStale).
Proof.
  intros He. unfold destroy_endpoint_inner, endpoint_slot. by rewrite slot_index_get, He.
Qed.

(** What it does when the list cannot be reserved. *)
Lemma destroy_inner_oom w (h : EndpointHandle) e fs :
  slot_get (endpoints (ipc w)) h = Some e -> queue e = Frames fs ->
  destroy_endpoint_inner false w h =
  (mk_iworld (with_committed (ipc w)
      (saturating_sub (queue_committed_messages (ipc w)) (Z.of_nat (queue_capacity e))))
    (destroy_event (destroy_event (evw w) (consumer e) (read_event e)).1 (producer e) (write_event e)).1
    (phys w), Err IpcDisconnected).
Proof.
  intros He Hq. unfold destroy_endpoint_inner, endpoint_slot. rewrite slot_index_get, He.
  cbn [ok_or]. by rewrite (proj2 (endpoint_Ok _ _ _) He), Hq.
Qed.

(** A heap queue needs no reservation. *)
Lemma destroy_inner_heap alloc w (h : EndpointHandle) e ms :
  slot_get (endpoints (ipc w)) h = Some e -> queue e = Heap ms ->
  destroy_endpoint_inner alloc w h = destroy_endpoint_inner true w h.
Proof.
  intros He Hq. unfold destroy_endpoint_inner. destruct (endpoint_slot _ _); [|done].
  by rewrite (proj2 (endpoint_Ok _ _ _) He), Hq.
Qed.

Lemma reg_wf_uncommit r n :
  exact = false -> 0 <= n -> reg_wf r ->
  reg_wf (with_committed r (saturating_sub (queue_committed_messages r) n)).
Proof. intros Hx Hn []. unfold saturating_sub. split; simpl; try done; [lia|by rewrite Hx|lia]. Qed.

Lemma destroy_inner_iwf alloc w h :
  (exact = true -> alloc = true) -> iwf w -> handle_ok h -> iwf (destroy_endpoint_inner alloc w h).1.
Proof.
  intros Hx [Hr Hev] Hh. destruct (slot_get (endpoints (ipc w)) h) as [e|] eqn:He.
  2: { by rewrite destroy_inner_stale. }
  destruct (ok_events _ _ (rw_ep _ Hr h e Hh He)).
  assert (Hevs : Events.wf (destroy_event (destroy_event (evw w) (consumer e) (read_event e)).1
    (producer e) (write_event e)).1) by (apply wf_destroy_event; [by apply wf_destroy_event|done]).
  assert (Hok : iwf (destroy_endpoint_inner true w h).1).
  { rewrite (destroy_inner_ok w h e He). split; [by apply reg_wf_destroy|done]. }
  destruct alloc; [done|]. destruct (queue e) as [ms|fs] eqn:Hq.
  - by rewrite (destroy_inner_heap _ w h e ms).
  - rewrite (destroy_inner_oom w h e fs He Hq). split; [|done]. apply reg_wf_uncommit; [|lia|done].
    destruct exact; [by specialize (Hx eq_refl)|done].
Qed.

Lemma destroy_endpoint_inner_world alloc w h :
  (destroy_endpoint alloc w h).1 = (destroy_endpoint_inner alloc w h).1.
Proof. unfold destroy_endpoint. by destruct (destroy_endpoint_inner alloc w h) as [w' [fs|err]]. Qed.

(** The worlds of the teardown loop, whoever takes the frames back. *)
Lemma destroy_service_world {Pool} `{FrameRelease Pool} w s (pool : option Pool) :
  let w1 := foldl (fun w h => (destroy_endpoint_inner true w h).1) w
              (ep_handle <$> filter (uses s) (live (endpoints (ipc w)))) in
  (destroy_service_inner (fun _ => true) w s pool).1 =
  mk_iworld (with_capabilities (ipc w1)
      (revoke (fun g => bool_decide (cap_owner g = s)) (capabilities (ipc w1))))
    (Events.destroy_service (evw w1) s) (phys w1).
Proof.
  intros w1. unfold destroy_service_inner.
  match goal with |- context [foldl ?f (w, pool) (imap pair ?eps)] =>
    assert (Hl : forall (k0 : nat -> nat) l w pool,
      (foldl f (w, pool) (imap (fun i h => (k0 i, h)) l)).1 =
      foldl (fun w h => (destroy_endpoint_inner true w h).1) w l) end.
  { intros k0 l. revert k0. induction l as [|h l IH]; intros k0 w0 pool0; [done|]. cbn [imap foldl].
    match goal with |- (foldl ?f ?x (imap ?g l)).1 = _ => change g with (fun (i : nat) (h0 : EndpointHandle) => ((k0 ∘ S) i, h0)) end.
    destruct pool0 as [p|].
    - unfold destroy_endpoint_with_pool.
      destruct (destroy_endpoint_inner true w0 h) as [w2 [fs|err]]; [|apply IH].
      destruct (release_all p fs) as [p' r]. apply IH.
    - rewrite <- destroy_endpoint_inner_world. apply IH. }
  specialize (Hl (fun i => i) (ep_handle <$> filter (uses s) (live (endpoints (ipc w)))) w pool).
  change (imap (fun (i : nat) (h : EndpointHandle) => ((fun i => i) i, h))
    (ep_handle <$> filter (uses s) (live (endpoints (ipc w))))) with
    (imap pair (ep_handle <$> filter (uses s) (live (endpoints (ipc w))))) in Hl.
  destruct (foldl _ (w, pool) _) as [w2 p2]. cbn [fst] in Hl. subst w2. done.
Qed.

Lemma destroy_inner_only w h (h' : EndpointHandle) e :
  handle_ok h -> handle_ok h' ->
  slot_get (endpoints (ipc (destroy_endpoint_inner true w h).1)) h' = Some e ->
  slot_get (endpoints (ipc w)) h' = Some e ∧ h' ≠ h.
Proof.
  intros Hh Hh'. destruct (slot_get (endpoints (ipc w)) h) as [e0|] eqn:He.
  - rewrite (destroy_inner_ok w h e0 He). simpl. rewrite (slot_get_vacate _ h e0) by done.
    by case_decide.
  - rewrite destroy_inner_stale by done. simpl. intros. split; [done|]. congruence.
Qed.

(** What the loop keeps: other endpoints, and the capabilities on them. *)
Definition torn (w w1 : IpcWorld) : Prop :=
  iwf w1 ∧ phys w1 = phys w ∧
  (forall (h : EndpointHandle) e, handle_ok h -> slot_get (endpoints (ipc w1)) h = Some e ->
     slot_get (endpoints (ipc w)) h = Some e) ∧
  (forall (ch : CapabilityHandle) g, handle_ok ch ->
     slot_get (capabilities (ipc w1)) ch = Some g <->
     slot_get (capabilities (ipc w)) ch = Some g ∧
     is_Some (slot_get (endpoints (ipc w1)) (cap_endpoint g))).

Lemma torn_refl w : iwf w -> torn w w.
Proof.
  intros Hw. split; [done|]. split; [done|]. split; [done|]. intros ch g Hch. split; [|by intros [? _]].
  intros Hg. split; [done|]. destruct (iwf_grant_endpoint w ch g Hw Hch Hg) as (_ & e & -> & _). eauto.
Qed.

Lemma torn_destroy w w1 h :
  iwf w -> handle_ok h -> torn w w1 -> torn w (destroy_endpoint_inner true w1 h).1.
Proof.
  intros Hw Hh (Hw1 & Hp & He & Hc). destruct (slot_get (endpoints (ipc w1)) h) as [e0|] eqn:He0.
  2: { by rewrite destroy_inner_stale. }
  pose proof (destroy_inner_iwf true w1 h (fun _ => eq_refl) Hw1 Hh) as Hw2. revert Hw2.
  rewrite (destroy_inner_ok w1 h e0 He0). cbn [fst]. intros Hw2.
  split; [done|]. split; [done|]. simpl. split.
  - intros h' e' Hh'. rewrite (slot_get_vacate _ h e0) by done. case_decide; [done|]. by apply He.
  - intros ch g Hch. rewrite slot_get_revoke. split.
    + destruct (slot_get (capabilities (ipc w1)) ch) as [g1|] eqn:Hg1; [|done].
      case_bool_decide as Hd; [done|]. intros. simplify_eq. pose proof (proj1 (Hc ch g Hch) Hg1) as [Hg [e He1]].
      split; [done|]. destruct (iwf_grant_endpoint w ch g Hw Hch Hg) as (Hok & _).
      rewrite (slot_get_vacate _ h e0), decide_False by done. eauto.
    + intros [Hg [e He1]]. destruct (iwf_grant_endpoint w ch g Hw Hch Hg) as (Hok & _).
      rewrite (slot_get_vacate _ h e0) in He1 by done. case_decide as Hd; [done|].
      rewrite (proj2 (Hc ch g Hch)) by eauto. by rewrite bool_decide_eq_false_2.
Qed.

Lemma endpoints_of_service w s h :
  iwf w ->
  h ∈ ep_handle <$> filter (uses s) (live (endpoints (ipc w))) <->
  handle_ok h ∧ exists e, slot_get (endpoints (ipc w)) h = Some e ∧ uses s e.
Proof.
  intros [Hr _]. rewrite list_elem_of_fmap. split.
  - intros (e & -> & [Hu Hl]%list_elem_of_filter).
    apply (elem_of_live KEndpoint) in Hl as (h' & Hok & He); [|apply Hr].
    rewrite (ok_handle _ _ (rw_ep _ Hr h' e Hok He)). eauto.
  - intros (Hok & e & He & Hu). exists e. split; [by rewrite (ok_handle _ _ (rw_ep _ Hr h e Hok He))|].
    apply list_elem_of_filter. split; [done|]. apply (elem_of_live KEndpoint); [apply Hr|]. eauto.
Qed.

(** The endpoint loop removes exactly the endpoints of the service. *)
Lemma destroy_endpoints_loop w s :
  iwf w ->
  let w1 := foldl (fun w h => (destroy_endpoint_inner true w h).1) w
              (ep_handle <$> filter (uses s) (live (endpoints (ipc w)))) in
  torn w w1 ∧
  forall (h : EndpointHandle) e, handle_ok h ->
    slot_get (endpoints (ipc w1)) h = Some e <->
    slot_get (endpoints (ipc w)) h = Some e ∧ ~ uses s e.
Proof.
  intros Hw w1. set (l := ep_handle <$> _) in w1.
  assert (Hl : forall h, h ∈ l -> handle_ok h) by (intros h Hin; by apply endpoints_of_service in Hin as [? _]).
  destruct (foldl_settles (torn w)
    (fun w1 h => handle_ok h -> slot_get (endpoints (ipc w1)) h = None)
    (fun w h => (destroy_endpoint_inner true w h).1) l w) as (Ht & Hgone & _); [|by apply torn_refl|].
  { intros w2 h Hin Ht. split; [by apply torn_destroy; [|apply Hl|]|]. split.
    - intros Hok. destruct (slot_get _ h) eqn:E; [|done]. by apply destroy_inner_only in E as [_ ?].
    - intros h' Hn Hok'. specialize (Hn Hok'). apply eq_None_not_Some. intros [e E].
      apply destroy_inner_only in E as [E _]; [|by apply Hl|done]. congruence. }
  split; [done|]. intros h e Hok.
  assert (Hkeep : forall (h : EndpointHandle) e, handle_ok h ->
    slot_get (endpoints (ipc w)) h = Some e -> ~ uses s e ->
    slot_get (endpoints (ipc w1)) h = Some e).
  { intros h' e' Hok' He' Hu. unfold w1.
    apply (foldl_inv (fun w2 => slot_get (endpoints (ipc w2)) h' = Some e')); [|done].
    intros w2 h2 Hin He2. destruct (slot_get (endpoints (ipc w2)) h2) as [e2|] eqn:E2.
    - rewrite (destroy_inner_ok w2 h2 e2 E2). simpl.
      rewrite (slot_get_vacate _ h2 e2), decide_False; auto. intros ->.
      apply endpoints_of_service in Hin as (_ & e3 & ? & ?); [|done]. naive_solver.
    - by rewrite destroy_inner_stale. }
  split; [|intros []; by apply Hkeep]. intros He. pose proof Ht as (_ & _ & Hsub & _).
  split; [by apply Hsub|]. intros Hu. assert (Hin : h ∈ l) by (apply endpoints_of_service; eauto).
  specialize (Hgone h Hin Hok). change (slot_get (endpoints (ipc w1)) h = None) in Hgone. congruence.
Qed.

Lemma events_destroy_service_wf w s : Events.wf w -> Events.wf (Events.destroy_service w s).
Proof. intros Hwf. by apply (destroy_service_inv (fun _ => True)). Qed.

Lemma reg_wf_revoke r p :
  reg_wf r -> reg_wf (with_capabilities r (revoke p (capabilities r))).
Proof.
  intros []. split; simpl; try done; [by apply slots_wf_revoke|].
  intros ch g Hch. rewrite slot_get_revoke.
  destruct (slot_get (capabilities r) ch) as [g0|] eqn:Hg; [|done]. case_match; [done|].
  intros. simplify_eq. by apply rw_cap0.
Qed.

(** Every teardown destroys endpoints one at a time. *)
Lemma destroy_all_iwf {X} (step : IpcWorld * X -> nat * EndpointHandle -> IpcWorld * X) alloc acc l :
  (exact = true -> forall k, alloc k = true) ->
  (forall acc k h, (step acc (k, h)).1 = (destroy_endpoint_inner (alloc k) acc.1 h).1) ->
  (forall h, h ∈ l -> handle_ok h) -> iwf acc.1 -> iwf (foldl step acc (imap pair l)).1.
Proof.
  intros Hx Hstep Hl Hw. apply (foldl_inv (fun acc => iwf acc.1)); [|done]. intros acc' [k h] Hin Hw'.
  rewrite Hstep. apply destroy_inner_iwf; [auto|done|]. apply Hl.
  apply elem_of_lookup_imap_1 in Hin as (i & h' & [= _ ->] & Hh). by eapply list_elem_of_lookup_2.
Qed.

Lemma with_pool_world {Pool} `{FrameRelease Pool} alloc w pool h :
  (destroy_endpoint_with_pool alloc w pool h).1.1 = (destroy_endpoint_inner alloc w h).1.
Proof.
  unfold destroy_endpoint_with_pool. destruct (destroy_endpoint_inner alloc w h) as [w' [fs|err]]; [|done].
  by destruct (release_all pool fs).
Qed.

Lemma destroy_service_inner_iwf {Pool} `{FrameRelease Pool} alloc w s (pool : option Pool) :
  (exact = true -> forall k, alloc k = true) -> iwf w -> iwf (destroy_service_inner alloc w s pool).1.
Proof.
  intros Hx Hw. unfold destroy_service_inner.
  match goal with |- context [foldl ?f (w, pool) (imap pair ?eps)] =>
    assert (Hl : iwf (foldl f (w, pool) (imap pair eps)).1); [|destruct (foldl f _ _) as [w1 p1]] end.
  - apply (destroy_all_iwf _ alloc); [done| | |done].
    + intros [w0 [p|]] k h; [|apply destroy_endpoint_inner_world]. cbn [fst].
      rewrite <- (with_pool_world (alloc k) w0 p h). by destruct (destroy_endpoint_with_pool _ _ _ _) as [[??]?].
    + intros h Hin. by apply endpoints_of_service in Hin as [? _].
  - destruct Hl as [Hr Hev]. split; [by apply reg_wf_revoke|by apply events_destroy_service_wf].
Qed.

Lemma destroy_service_iwf alloc w s :
  (exact = true -> forall k, alloc k = true) -> iwf w -> iwf (destroy_service alloc w s).
Proof. apply destroy_service_inner_iwf. Qed.

Lemma drain_iwf alloc w :
  (exact = true -> forall k, alloc k = true) -> iwf w -> iwf (drain_queue_frames alloc w).1.
Proof.
  intros Hx Hw. apply (destroy_all_iwf _ alloc); [done| | |done].
  - intros [w0 fs] k h. by destruct (destroy_endpoint_inner (alloc k) w0 h) as [? [?|?]] eqn:E; cbn; rewrite E.
  - intros h (e & -> & He)%list_elem_of_fmap. destruct Hw as [Hr _].
    apply (elem_of_live KEndpoint) in He as (h & Hok & He); [|apply Hr].
    by rewrite (ok_handle _ _ (rw_ep _ Hr h e Hok He)).
Qed.

Lemma ipc_step_iwf x w w' : (exact = true -> x = true) -> ipc_step x w w' -> iwf w -> iwf w'.
Proof.
  intros Hx Hstep Hw. destruct Hstep;
    eauto using create_endpoint_iwf, create_endpoint_with_frames_iwf, grant_iwf, send_iwf, receive_iwf,
      destroy_service_iwf, drain_iwf.
  - rewrite destroy_endpoint_inner_world. by apply destroy_inner_iwf.
  - rewrite with_pool_world. by apply destroy_inner_iwf.
  - apply destroy_service_inner_iwf; eauto.
  - destruct Hw as [Hr Hev]. split; [done|]. by eapply event_step_wf.
Qed.

Definition ipc_boot (g budget : Z) (m : Z -> Z) : IpcWorld :=
  mk_iworld (new_with_generation_and_budget g budget) (boot g) m.

Lemma ipc_boot_iwf g budget m :
  0 <= g < 2 ^ 32 -> 0 <= budget <= USIZE_MAX -> iwf (ipc_boot g budget m).
Proof.
  intros Hg Hb. split; [|by apply boot_wf].
  assert (gen_ok 32 (Z.max g 1)) by (unfold gen_ok; lia).
  split; simpl; try done.
  rewrite slot_next_generation. by apply next_gen_ok.
Qed.

(** ** Message traffic

    A run of sends and receives by any callers, with the messages accepted and
    delivered, each tagged with its endpoint. *)

Inductive msg_op : Type :=
| OpSend (caller : ServiceHandle) (ch : CapabilityHandle) (bytes : list Z)
| OpReceive (caller : ServiceHandle) (ch : CapabilityHandle) (n : nat).

Definition op_cap (o : msg_op) : CapabilityHandle :=
  match o with OpSend _ ch _ => ch | OpReceive _ ch _ => ch end.

Definition target (w : IpcWorld) (ch : CapabilityHandle) : option EndpointHandle :=
  cap_endpoint <$> slot_get (capabilities (ipc w)) ch.

Record traffic : Type := mk_traffic {
  accepted : list (EndpointHandle * list Z);
  delivered : list (EndpointHandle * list Z)
}.

Definition tag (o : option EndpointHandle) (b : list Z) : list (EndpointHandle * list Z) :=
  match o with Some h => [(h, b)] | None => [] end.

Fixpoint run (w : IpcWorld) (ops : list msg_op) : option (IpcWorld * traffic) :=
  match ops with
  | [] => Some (w, mk_traffic [] [])
  | OpSend caller ch bytes :: ops =>
      match send w caller ch bytes with
      | None => None
      | Some (w', st) =>
          match run w' ops with
          | None => None
          | Some (w'', t) =>
              Some (w'', mk_traffic
                ((if bool_decide (st = IpcOk) then tag (target w ch) bytes else []) ++ accepted t)
                (delivered t))
          end
      end
  | OpReceive caller ch n :: ops =>
      match receive w caller ch n with
      | None => None
      | Some (w', st, bytes) =>
          match run w' ops with
          | None => None
          | Some (w'', t) =>
              Some (w'', mk_traffic (accepted t)
                ((if bool_decide (st = IpcOk) then tag (target w ch) bytes else []) ++ delivered t))
          end
      end
  end.

(** The messages of one endpoint, in order. *)
Definition on (h : EndpointHandle) (l : list (EndpointHandle * list Z)) : list (list Z) :=
  snd <$> filter (fun p => p.1 = h) l.

Lemma on_app h l1 l2 : on h (l1 ++ l2) = on h l1 ++ on h l2.
Proof. unfold on. by rewrite filter_app, fmap_app. Qed.

Lemma on_tag h h' b : on h (tag (Some h') b) = if decide (h = h') then [b] else [].
Proof.
  unfold on, tag. case_decide; subst.
  - by rewrite filter_cons_True.
  - by rewrite filter_cons_False by (simpl; congruence).
Qed.

Lemma run_fifo ops : forall w,
  iwf w -> Forall (fun o => handle_ok (op_cap o)) ops ->
  exists w' t, run w ops = Some (w', t) ∧ iwf w' ∧
    forall h q, handle_ok h -> messages w h = Some q ->
      exists q', messages w' h = Some q' ∧ q ++ on h (accepted t) = on h (delivered t) ++ q'.
Proof.
  induction ops as [|o ops IH]; intros w Hw Hops.
  { exists w, (mk_traffic [] []). split; [done|]. split; [done|]. intros h q _ Hq. exists q.
    split; [done|]. by rewrite app_nil_r. }
  apply Forall_cons in Hops as [Hch Hops]. destruct o as [caller ch bytes|caller ch n]; simpl in Hch |- *.
  - destruct (send_cases w caller ch bytes Hw Hch)
      as [(st & -> & Href)|(g & e & Hg & <- & Hr & He & Hb & Hl)].
    + destruct (IH w Hw Hops) as (w' & t & -> & Hw' & Hq). exists w'. eexists. split; [done|].
      split; [done|]. pose proof (send_refused_ne _ _ _ _ _ Href).
      rewrite bool_decide_eq_false_2 by done. by destruct t.
    + destruct (send_accept w ch g e bytes) as (w1 & -> & Hw1 & _ & _ & Hm); [done..|].
      destruct (IH w1 Hw1 Hops) as (w' & t & -> & Hw' & Hq). exists w'. eexists. split; [done|].
      split; [done|]. intros h q Hh Hmq. unfold target. rewrite Hg. cbn [accepted delivered].
      change (cap_endpoint <$> Some g) with (Some (cap_endpoint g)).
      rewrite bool_decide_eq_true_2 by done. rewrite on_app, on_tag. specialize (Hm h Hh). case_decide as Hd.
      * subst. unfold messages in Hmq. rewrite He in Hmq. simpl in Hmq. simplify_eq.
        destruct (Hq _ _ Hh Hm) as (q' & ? & Hq'). exists q'. split; [done|].
        by rewrite decide_True, <- Hq', <- app_assoc.
      * rewrite decide_False by done. rewrite Hmq in Hm. apply (Hq h q Hh Hm).
  - destruct (receive_cases w caller ch n Hw Hch)
      as [(st & -> & Href)|(g & e & Hg & <- & Hr & He & -> & Hl)].
    + destruct (IH w Hw Hops) as (w' & t & -> & Hw' & Hq). exists w'. eexists. split; [done|].
      split; [done|]. pose proof (receive_refused_ne _ _ _ _ _ Href).
      rewrite bool_decide_eq_false_2 by done. by destruct t.
    + destruct (receive_accept w ch g e) as (w1 & b & q1 & -> & Hw1 & _ & _ & Hv & Hm); [done..|].
      destruct (IH w1 Hw1 Hops) as (w' & t & -> & Hw' & Hq). exists w'. eexists. split; [done|].
      split; [done|]. intros h q Hh Hmq. unfold target. rewrite Hg. cbn [accepted delivered].
      change (cap_endpoint <$> Some g) with (Some (cap_endpoint g)).
      rewrite bool_decide_eq_true_2 by done. rewrite on_app, on_tag. specialize (Hm h Hh). case_decide as Hd.
      * subst. unfold messages in Hmq. rewrite He in Hmq. simpl in Hmq. rewrite Hv in Hmq. simplify_eq.
        destruct (Hq _ _ Hh Hm) as (q' & ? & Hq'). exists q'. split; [done|]. rewrite decide_True by done.
        simpl. by rewrite Hq'.
      * rewrite decide_False by done. rewrite Hmq in Hm. apply (Hq h q Hh Hm).
Qed.

(** ** Directory items *)

Lemma valid_handle_raw {k} (h : handle k) :
  is_valid h = true -> handle_ok h -> raw h ≠ 0 ∧ is_Some (from_raw (k := k) (raw h)).
Proof.
  unfold is_valid, generation, handle_ok, fits, from_raw, wrap. intros Hv Hok. boolprop.
  rewrite Z.shiftr_div_pow2 in * by lia.
  rewrite Z.mod_small in Hv by (split; [apply Z.div_pos|apply Z.div_lt_upper_bound]; lia). split.
  - intros E. rewrite E in Hv. by rewrite Z.div_0_l in Hv.
  - destruct (Z.eqb_spec (raw h / 2 ^ 32) 0); [lia|eauto].
Qed.

Lemma live_handle_valid {T k} (slots : list (slot T)) (h : handle k) v :
  slots_wf slots -> slot_get slots h = Some v -> is_valid h = true.
Proof.
  intros [Hf _] (s & Hs & Hg & _)%slot_get_Some. pose proof (Forall_lookup_1 _ _ _ _ Hf Hs) as Hok.
  simpl in Hok. unfold is_valid. rewrite <- Hg. unfold gen_ok in Hok.
  by destruct (Z.eqb_spec (slot_generation s) 0); [lia|].
Qed.

Lemma capability_record_valid w (ch : CapabilityHandle) g e :
  iwf w -> handle_ok ch -> slot_get (capabilities (ipc w)) ch = Some g ->
  slot_get (endpoints (ipc w)) (cap_endpoint g) = Some e -> contract_id e ≠ 0 ->
  record_is_valid (capability_record g e) = true.
Proof.
  intros Hw Hch Hg He Hct. destruct (iwf_grant_endpoint w ch g Hw Hch Hg) as (_ & e0 & He0 & Hok & _).
  rewrite He in He0. injection He0 as <-. destruct Hw as [Hr _].
  destruct (rw_cap _ Hr ch g Hch Hg) as (Hh & _).
  pose proof (live_handle_valid _ _ _ (rw_caps _ Hr) Hg) as Hval.
  destruct (valid_handle_raw ch Hval Hch) as [Hraw Hsome].
  destruct Hok as [_ Hp Hc _ [Hb0 Hb] [Hc0 Hcap] _ _ _ _ _ [Hrv Hwv]].
  unfold IPC_PAGE_BYTES, U16_MAX in *.
  unfold record_is_valid, capability_record, record_is_empty.
  cbn [rec_kind rec_reserved rec_handle rec_rights rec_contract_id rec_peer rec_message_bytes
       rec_queue_capacity rec_event rec_name_len rec_name]. rewrite Hh.
  rewrite !wrap_small by (unfold fits; lia).
  rewrite (bool_decide_eq_false_2 (KindCapability = KindEmpty)) by done.
  rewrite (bool_decide_eq_true_2 ([0] = [0])) by done. rewrite (bool_decide_eq_true_2 (is_Some _)) by done.
  destruct (Z.eqb_spec (raw ch) 0); [done|]. destruct (Z.eqb_spec (contract_id e) 0); [done|].
  destruct (Z.eqb_spec (Z.of_nat (message_bytes e)) 0); [lia|].
  destruct (Z.leb_spec (Z.of_nat (message_bytes e)) IPC_PAGE_BYTES) as [_|Hx];
    [|unfold IPC_PAGE_BYTES in Hx; lia].
  destruct (Z.eqb_spec (Z.of_nat (queue_capacity e)) 0); [lia|].
  destruct (bool_decide (producer e = cap_owner g)), (cap_rights g); cbn -[is_valid];
    rewrite ?(bool_decide_eq_true_2 (Send = Send)), ?(bool_decide_eq_false_2 (Receive = Send)) by done;
    rewrite ?Hp, ?Hc, ?Hrv, ?Hwv; done.
Qed.

Lemma directory_items w s :
  iwf w -> (forall (h : EndpointHandle) e, handle_ok h ->
    slot_get (endpoints (ipc w)) h = Some e -> contract_id e ≠ 0) ->
  exists recs,
    (fun g => match endpoint (ipc w) (cap_endpoint g) with
              | Ok e => ItemRecord (capability_record g e)
              | Err _ => ItemSkip
              end) <$> filter (fun g => cap_owner g = s) (live (capabilities (ipc w)))
    = ItemRecord <$> recs ∧
    Forall (fun r => record_is_valid r = true) recs ∧
    rec_handle <$> recs =
      (fun g => raw (cap_handle g)) <$> filter (fun g => cap_owner g = s) (live (capabilities (ipc w))).
Proof.
  intros Hw Hct.
  assert (Hall : Forall (fun g => exists ch : CapabilityHandle, handle_ok ch ∧
    slot_get (capabilities (ipc w)) ch = Some g)
    (filter (fun g => cap_owner g = s) (live (capabilities (ipc w))))).
  { apply Forall_forall. intros g [_ Hg]%list_elem_of_filter.
    by apply (elem_of_live KCapability) in Hg; [|apply Hw]. }
  revert Hall. generalize (filter (fun g => cap_owner g = s) (live (capabilities (ipc w)))) as l.
  induction l as [|g l IH]; intros Hall; [by exists []|].
  apply Forall_cons in Hall as [(ch & Hch & Hg) Hall].
  destruct (IH Hall) as (recs & Hrecs & Hv & Hh).
  destruct (iwf_grant_endpoint w ch g Hw Hch Hg) as (Hok & e & He & _).
  exists (capability_record g e :: recs). rewrite !fmap_cons, Hrecs, Hh.
  rewrite (proj2 (endpoint_Ok _ _ _) He). split; [done|]. split; [|done].
  constructor; [|done]. eapply capability_record_valid; eauto.
Qed.

End invariant.
#[global] Arguments reg_wf exact r : clear implicits.
#[global] Arguments iwf exact w : clear implicits.

Lemma ipc_reachable w w' :
  (rtc (fun w w' => exists x, ipc_step x w w') w w' -> iwf false w -> iwf false w') ∧
  (rtc (ipc_step true) w w' -> iwf true w -> iwf true w').
Proof.
  split; intros H; induction H as [|w1 w2 w3 Hs H IH]; intros Hw; try done; apply IH.
  - destruct Hs as [x Hs]. by apply (ipc_step_iwf (exact := false) x w1 w2).
  - by apply (ipc_step_iwf (exact := true) true w1 w2).
Qed.

(** ** Properties *)

(** A filled slot does not resolve the handles of its earlier occupants. *)
Lemma fill_bumped {T k} (slots : list (slot T)) (h : handle k) v v' s :
  slots_wf slots -> slot_get slots h = Some v -> slots !! Z.to_nat (index h) = Some s ->
  forall slots' : list (slot T), slots' !! Z.to_nat (index h) = Some (mk_slot (next_generation (slot_generation s)) None) ->
  slot_get (fill slots' (Z.to_nat (index h)) v') h = None.
Proof.
  intros [Hwf _] (s0 & Hs0 & Hg & _)%slot_get_Some Hs slots' Hs'. simplify_eq.
  pose proof (Forall_lookup_1 _ _ _ _ Hwf Hs0) as Hok. cbn beta in Hok.
  rewrite slot_get_at, (at_slot_fill _ _ _ _ _ _ Hs'), decide_True by done. cbn [slot_generation].
  rewrite <- Hg, slot_next_generation. destruct (Z.eqb_spec (next_gen 32 (slot_generation s0)) (slot_generation s0)); [|done].
  by destruct (iter_next_gen_fresh 32 (slot_generation s0) 1 ltac:(lia) Hok ltac:(done)).
Qed.

(** A destruction that needs no reservation or gets it. *)
Lemma destroy_true_spec exact w (h : EndpointHandle) e :
  iwf exact w -> handle_ok h -> slot_get (endpoints (ipc w)) h = Some e ->
  let w' := (destroy_endpoint_inner true w h).1 in
  queue_committed_messages (ipc w') =
    saturating_sub (queue_committed_messages (ipc w)) (Z.of_nat (queue_capacity e)) ∧
  (destroy_endpoint_inner true w h).2 = Ok (frames_of e) ∧ iwf exact w' ∧
  (forall h', handle_ok h' -> slot_get (endpoints (ipc w')) h' =
     if decide (h' = h) then None else slot_get (endpoints (ipc w)) h') ∧
  (forall ch : CapabilityHandle, slot_get (capabilities (ipc w')) ch =
     match slot_get (capabilities (ipc w)) ch with
     | Some g => if decide (cap_endpoint g = h) then None else Some g
     | None => None
     end) ∧
  (forall e', slot_get (fill (endpoints (ipc w')) (Z.to_nat (index h)) e') h = None) ∧
  (forall (ch : CapabilityHandle) g g', slot_get (capabilities (ipc w)) ch = Some g -> cap_endpoint g = h ->
     slot_get (fill (capabilities (ipc w')) (Z.to_nat (index ch)) g') ch = None).
Proof.
  intros Hw Hh He w'. pose proof (destroy_inner_iwf true w h (fun _ => eq_refl) Hw Hh) as Hw'. fold w' in Hw'.
  destruct Hw as [Hr _]. unfold w' in *. rewrite (destroy_inner_ok w h e He) in *. cbn [fst snd] in *.
  split; [done|]. split; [done|]. split; [done|]. cbn [ipc endpoints capabilities with_capabilities with_endpoints].
  split; [intros h' Hh'; by apply (slot_get_vacate _ h e)|]. split; [|split].
  - intros ch. rewrite slot_get_revoke. destruct (slot_get (capabilities (ipc w)) ch) as [g|]; [|done].
    case_bool_decide; [by rewrite decide_True|by rewrite decide_False].
  - intros e'. pose proof He as (s & Hs & _)%slot_get_Some.
    eapply fill_bumped; [apply Hr|exact He|exact Hs|]. unfold vacate. by rewrite list_lookup_alter_eq, Hs.
  - intros ch g g' Hg Hd. pose proof Hg as (s & Hs & _ & Hv)%slot_get_Some.
    eapply fill_bumped; [apply Hr|exact Hg|exact Hs|]. unfold revoke. rewrite list_lookup_fmap, Hs. cbn.
    by rewrite Hv, bool_decide_eq_true_2.
Qed.

Lemma iwf_weaken exact w : iwf exact w -> iwf false w.
Proof. intros [[] Hev]. by split. Qed.

(** C14: from boot, every sequence of IPC and event operations keeps the
    topology sound, whatever the allocator answers to each reservation: ring
    indices are in range, every capability names a live endpoint of which its
    owner holds that side in the same epoch, no frame backs two queues, and
    the committed messages are at most the capacities of the live endpoints
    and within the budget.  If no reservation of a frame list failed during a
    destruction they are exactly those capacities.  The callers' part: the
    frames given to a new queue are distinct, page aligned and in no other
    queue, and the tables have fewer than 2^32 slots. *)
Theorem ipc_reachable_wf g budget m w :
  0 <= g < 2 ^ 32 -> 0 <= budget <= USIZE_MAX ->
  (rtc (fun w w' => exists x, ipc_step x w w') (ipc_boot g budget m) w -> iwf false w) ∧
  (rtc (ipc_step true) (ipc_boot g budget m) w -> iwf true w).
Proof.
  intros Hg Hb. destruct (ipc_reachable (ipc_boot g budget m) w) as [H1 H2].
  split; intros Hs; [apply H1|apply H2]; try done; by apply ipc_boot_iwf.
Qed.

(** [send] never indexes out of the queue.  It accepts a message exactly
    when the caller owns a live [Send] capability, the length is the
    endpoint's and the queue has room; then the message is appended to that
    endpoint's queue, every other queue reads as before and the consumer's
    event is signalled.  Otherwise nothing changes and the status names the
    reason. *)
Theorem ipc_send_spec w caller ch bytes :
  iwf false w -> handle_ok ch ->
  exists w' st, send w caller ch bytes = Some (w', st) ∧
  (if decide (st = IpcOk) then
     exists g e, slot_get (capabilities (ipc w)) ch = Some g ∧
       cap_owner g = caller ∧ cap_rights g = Send ∧ producer e = caller ∧
       slot_get (endpoints (ipc w)) (cap_endpoint g) = Some e ∧
       length bytes = message_bytes e ∧ (queue_len e < queue_capacity e)%nat ∧
       evw w' = (signal_irq (evw w) (read_event e)).1 ∧
       forall h, handle_ok h -> messages w' h =
         if decide (h = cap_endpoint g) then (fun q => q ++ [bytes]) <$> messages w h else messages w h
   else w' = w ∧ send_refused w caller ch (length bytes) st).
Proof.
  intros Hw Hch. destruct (send_cases w caller ch bytes Hw Hch)
    as [(st & E & Href)|(g & e & Hg & <- & Hr & He & Hb & Hl)].
  - exists w, st. split; [done|]. rewrite decide_False; [done|]. by eapply send_refused_ne.
  - destruct (send_accept (exact := false) w ch g e bytes) as (w1 & E & Hw1 & Hev & _ & Hm); [done..|].
    exists w1, IpcOk. split; [done|]. rewrite decide_True by done. exists g, e. conj. split.
    { destruct (iwf_grant_endpoint w ch g Hw Hch Hg) as (_ & e0 & He0 & _ & _ & Ho).
      rewrite He in He0. injection He0 as <-. by rewrite Ho, Hr. }
    conj. intros h Hh. rewrite Hm by done. case_decide; [|done]. subst.
    unfold messages. by rewrite He.
Qed.

(** [receive] takes the oldest message of the endpoint's queue exactly when
    the caller owns a live [Receive] capability, the buffer has the endpoint's
    size and the queue is not empty; otherwise nothing changes and the status
    names the reason. *)
Theorem ipc_receive_spec w caller ch n :
  iwf false w -> handle_ok ch ->
  exists w' st out, receive w caller ch n = Some (w', st, out) ∧
  (if decide (st = IpcOk) then
     exists g e q, slot_get (capabilities (ipc w)) ch = Some g ∧
       cap_owner g = caller ∧ cap_rights g = Receive ∧ consumer e = caller ∧
       slot_get (endpoints (ipc w)) (cap_endpoint g) = Some e ∧ n = message_bytes e ∧
       messages w (cap_endpoint g) = Some (out :: q) ∧
       evw w' = (signal_irq (evw w) (write_event e)).1 ∧
       forall h, handle_ok h -> messages w' h =
         if decide (h = cap_endpoint g) then Some q else messages w h
   else w' = w ∧ receive_refused w caller ch n st).
Proof.
  intros Hw Hch. destruct (receive_cases w caller ch n Hw Hch)
    as [(st & E & Href)|(g & e & Hg & <- & Hr & He & -> & Hl)].
  - exists w, st, []. split; [done|]. rewrite decide_False; [done|]. by eapply receive_refused_ne.
  - destruct (receive_accept (exact := false) w ch g e) as (w1 & b & q & E & Hw1 & Hev & _ & Hv & Hm); [done..|].
    exists w1, IpcOk, b. split; [done|]. rewrite decide_True by done. exists g, e, q. conj. split.
    { destruct (iwf_grant_endpoint w ch g Hw Hch Hg) as (_ & e0 & He0 & _ & _ & Ho).
      rewrite He in He0. injection He0 as <-. by rewrite Ho, Hr. }
    conj. split; [|done]. unfold messages. rewrite He. simpl. by rewrite Hv.
Qed.

(** C6: every endpoint is a first-in first-out channel.  Whatever callers send
    and receive on whatever capabilities, no operation panics, and for each
    endpoint the messages queued before followed by those accepted are those
    delivered followed by those still queued. *)
Theorem ipc_fifo w ops :
  iwf false w -> Forall (fun o => handle_ok (op_cap o)) ops ->
  exists w' t, run w ops = Some (w', t) ∧
    forall h q, handle_ok h -> messages w h = Some q ->
      exists q', messages w' h = Some q' ∧ q ++ on h (accepted t) = on h (delivered t) ++ q'.
Proof.
  intros Hw Hops. destruct (run_fifo ops w Hw Hops) as (w' & t & E & _ & H). by exists w', t.
Qed.

(** C15: destroying an endpoint revokes exactly the capabilities on it, or
    nothing.  When the queue is on the heap or the list of its frames can be
    reserved, the frames are handed back, and the endpoint's handle and those
    capabilities become stale and stay stale when their slots are filled
    again; every other endpoint and capability resolves as before.  When the
    reservation fails, the call answers [Disconnected] and every endpoint and
    capability resolves as before.  The capacity leaves the committed count in
    both cases, and in the first the count stays exact if it was. *)
Theorem ipc_destroy_revokes exact alloc w (h : EndpointHandle) e :
  iwf exact w -> handle_ok h -> slot_get (endpoints (ipc w)) h = Some e ->
  let w' := (destroy_endpoint_inner alloc w h).1 in
  let res := (destroy_endpoint_inner alloc w h).2 in
  queue_committed_messages (ipc w') =
    saturating_sub (queue_committed_messages (ipc w)) (Z.of_nat (queue_capacity e)) ∧
  match queue e, alloc with
  | Frames _, false =>
      res = Err IpcDisconnected ∧ iwf false w' ∧
      endpoints (ipc w') = endpoints (ipc w) ∧ capabilities (ipc w') = capabilities (ipc w)
  | _, _ =>
      res = Ok (frames_of e) ∧ iwf exact w' ∧
      (forall h', handle_ok h' -> slot_get (endpoints (ipc w')) h' =
         if decide (h' = h) then None else slot_get (endpoints (ipc w)) h') ∧
      (forall ch : CapabilityHandle, slot_get (capabilities (ipc w')) ch =
         match slot_get (capabilities (ipc w)) ch with
         | Some g => if decide (cap_endpoint g = h) then None else Some g
         | None => None
         end) ∧
      (forall e', slot_get (fill (endpoints (ipc w')) (Z.to_nat (index h)) e') h = None) ∧
      (forall (ch : CapabilityHandle) g g', slot_get (capabilities (ipc w)) ch = Some g -> cap_endpoint g = h ->
         slot_get (fill (capabilities (ipc w')) (Z.to_nat (index ch)) g') ch = None)
  end.
Proof.
  intros Hw Hh He w' res. destruct (queue e) as [ms|fs] eqn:Hq.
  - unfold w', res. rewrite (destroy_inner_heap alloc w h e ms He Hq). by apply destroy_true_spec.
  - destruct alloc; [by apply destroy_true_spec|]. unfold w', res.
    assert (Hw0 : iwf false w) by (by eapply iwf_weaken).
    pose proof (destroy_inner_iwf false w h (fun H => H) Hw0 Hh) as Hw'. revert Hw'.
    by rewrite (destroy_inner_oom w h e fs He Hq).
Qed.

(** Tearing a service down leaves it no endpoint, no capability, no event
    and no event set, and removes nothing else: endpoints it takes no part in
    survive with the capabilities others hold on them. *)
Theorem ipc_destroy_service_spec w s :
  iwf false w ->
  let w' := destroy_service (fun _ => true) w s in
  iwf false w' ∧ ownership_counts (ipc w') s = (0%nat, 0%nat) ∧
  ownership_count (registry (evw w')) s = 0%nat ∧ event_set_count (registry (evw w')) s = 0%nat ∧
  (forall (h : EndpointHandle) e, handle_ok h ->
     slot_get (endpoints (ipc w')) h = Some e <->
     slot_get (endpoints (ipc w)) h = Some e ∧ ~ uses s e) ∧
  (forall (ch : CapabilityHandle) g, handle_ok ch ->
     slot_get (capabilities (ipc w')) ch = Some g <->
     slot_get (capabilities (ipc w)) ch = Some g ∧ cap_owner g ≠ s ∧
     is_Some (slot_get (endpoints (ipc w')) (cap_endpoint g))).
Proof.
  intros Hw w'. pose proof (destroy_service_iwf (fun _ => true) w s (fun _ _ => eq_refl) Hw) as Hw'. fold w' in Hw'. split; [done|].
  destruct (destroy_endpoints_loop w s Hw) as [Ht He].
  revert Hw'. unfold w', destroy_service. rewrite destroy_service_world.
  set (w1 := foldl _ w _) in *. intros Hw'. cbn [ipc evw endpoints capabilities with_capabilities].
  destruct Ht as ([Hr1 Hev1] & _ & _ & Hcap). destruct Hw' as [Hr' Hev'].
  destruct (destroy_events_loop (evw w1) s Hev1) as [Hwf2 Hevs].
  destruct (destroy_sets_loop _ s Hwf2) as (_ & Hsame & Hsets).
  assert (Hc : forall (ch : CapabilityHandle) g, handle_ok ch ->
    slot_get (revoke (fun g => bool_decide (cap_owner g = s)) (capabilities (ipc w1))) ch = Some g <->
    slot_get (capabilities (ipc w)) ch = Some g ∧ cap_owner g ≠ s ∧
    is_Some (slot_get (endpoints (ipc w1)) (cap_endpoint g))).
  { intros ch g Hch. rewrite slot_get_revoke. split.
    - destruct (slot_get (capabilities (ipc w1)) ch) as [g1|] eqn:Hg1; [|done].
      case_bool_decide; [done|]. intros. simplify_eq. apply Hcap in Hg1 as [? ?]; done.
    - intros (Hg & Ho & Hs). rewrite (proj2 (Hcap ch g Hch)) by done.
      by rewrite bool_decide_eq_false_2. }
  split; [|split; [|split; [|done]]].
  - unfold ownership_counts. cbn [endpoints capabilities with_capabilities]. f_equal.
    + apply (live_filter_nil KEndpoint); [apply Hr1|]. intros h e Hok Hge Hu.
      by apply (He h e Hok) in Hge as [_ ?].
    + apply (live_filter_nil KCapability); [apply (rw_caps _ Hr')|].
      intros ch g Hok Hg Ho. by apply (Hc ch g Hok) in Hg as (_ & ? & _).
  - apply (live_filter_nil KEvent); [apply Hev'|]. intros e er Hok Her. apply (Hevs e er Hok).
    rewrite <- Hsame. exact Her.
  - by apply (live_filter_nil KEventSet); [apply Hev'|].
Qed.

(** The capability directory is complete.  When every contract id is
    nonzero, every page passes the receiver's validation and a client that
    follows the cursor reads each live capability of the subject once, in
    table order. *)
Theorem ipc_directory_complete w rq rs fuel :
  iwf false w ->
  (forall (h : EndpointHandle) e, handle_ok h -> slot_get (endpoints (ipc w)) h = Some e ->
     contract_id e ≠ 0) ->
  request_is_valid rq = true -> rq_operation rq = OpCapabilities ->
  (length (live (capabilities (ipc w))) < fuel * DIRECTORY_RECORDS_PER_PAGE)%nat ->
  (forall c, 0 <= c ->
     (directory (ipc w) (at_cursor rq c) rs).2 = DirOk ∧
     is_valid_for (directory (ipc w) (at_cursor rq c) rs).1 (at_cursor rq c) = true) ∧
  rec_handle <$> read_all (fun c => (directory (ipc w) (at_cursor rq c) rs).1) fuel 0 =
  (fun g => raw (cap_handle g)) <$>
    filter (fun g => cap_owner g = rq_subject rq) (live (capabilities (ipc w))).
Proof.
  intros Hw Hct Hrq Hop Hfuel. destruct (directory_items w (rq_subject rq) Hw Hct) as (recs & Hrecs & Hv & Hh).
  assert (Hlen : (length recs <= length (live (capabilities (ipc w))))%nat).
  { rewrite <- (length_fmap rec_handle), Hh, length_fmap. apply length_filter. }
  assert (Hl32 : Z.of_nat (length (live (capabilities (ipc w)))) <= 2 ^ 32).
  { destruct Hw as [Hr _]. destruct (rw_caps _ Hr) as [_ Hl]. unfold live.
    pose proof (length_live (capabilities (ipc w))). unfold live in *. lia. }
  assert (Hd : forall c, directory (ipc w) (at_cursor rq c) rs =
    page (rq_operation rq) (at_cursor rq c) (ItemRecord <$> recs)).
  { intros c. unfold directory. change (request_is_valid (at_cursor rq c)) with (request_is_valid rq).
    change (rq_operation (at_cursor rq c)) with (rq_operation rq).
    change (rq_subject (at_cursor rq c)) with (rq_subject rq).
    rewrite Hrq, bool_decide_eq_true_2 by done. cbn [negb orb]. by rewrite Hrecs. }
  split.
  - intros c Hc. rewrite Hd. split; [by rewrite page_spec|]. by apply (page_valid (at_cursor rq c)).
  - rewrite <- Hh. f_equal.
    pose proof (read_all_pages (rq_operation rq) rq recs fuel 0) as Hall. rewrite drop_0 in Hall.
    rewrite <- Hall by lia.
    clear -Hd. generalize 0. induction fuel as [|fuel IH]; intros c; cbn [read_all]; [done|].
    by rewrite Hd, IH.
Qed.

(** C17: when the frame list of a frame-backed queue cannot be reserved,
    [destroy_endpoint] reports [Disconnected] and keeps the endpoint alive, but
    has already returned its capacity to the budget: the committed count no
    longer covers the live queues. *)
Theorem ipc_destroy_oom_unaccounted w (h : EndpointHandle) e fs :
  iwf false w -> handle_ok h -> slot_get (endpoints (ipc w)) h = Some e -> queue e = Frames fs ->
  let w' := (destroy_endpoint false w h).1 in
  (destroy_endpoint false w h).2 = Err IpcDisconnected ∧
  slot_get (endpoints (ipc w')) h = Some e ∧
  queue_committed_messages (ipc w') < total capacity_of (endpoints (ipc w')).
Proof.
  intros Hw Hh He Hq. unfold destroy_endpoint, destroy_endpoint_inner, endpoint_slot.
  rewrite slot_index_get, He. cbn [ok_or]. rewrite (proj2 (endpoint_Ok _ _ _) He), Hq.
  cbn [fst snd ipc endpoints queue_committed_messages with_committed]. split; [done|]. split; [done|].
  destruct Hw as [Hr _]. pose proof (rw_committed _ Hr) as Hcm. unfold saturating_sub.
  pose proof (ok_capacity _ _ (rw_ep _ Hr h e Hh He)) as [Hc _].
  pose proof (total_vacate capacity_of (endpoints (ipc w)) h e He) as Ht. unfold capacity_of in Ht at 3.
  assert (0 <= total capacity_of (vacate (endpoints (ipc w)) (Z.to_nat (index h))))
    by (apply total_nonneg; intros; unfold capacity_of; lia). lia.
Qed.

(** ** Example worlds *)

Module IpcExample.

Definition sender : ServiceHandle := mk_handle 4294967297.
Definition receiver : ServiceHandle := mk_handle 4294967298.
Definition ep : EndpointHandle := mk_handle 4294967296.
Definition send_cap : CapabilityHandle := mk_handle 8589934592.
Definition receive_cap : CapabilityHandle := mk_handle 8589934593.

Definition start : IpcWorld := ipc_boot 1 4 (fun _ => 0).

(** A frame-backed endpoint of two three-byte messages with both grants. *)
Definition w1 : IpcWorld :=
  (create_endpoint_with_frames (fun _ => true) start sender receiver 7 3 2 9 [8192; 4096]).1.
Definition w2 : IpcWorld := (grant true w1 sender ep Send).1.
Definition w3 : IpcWorld := (grant true w2 receiver ep Receive).1.

End IpcExample.

Lemma ipc_example_steps : rtc (ipc_step true) IpcExample.start IpcExample.w3.
Proof.
  eapply rtc_l; [apply (istep_create_frames (fun _ => true) _ IpcExample.sender IpcExample.receiver
    7 3 2 9 [8192; 4096])| ].
  - by vm_compute.
  - split; [|split].
    + apply NoDup_cons. split; [by intros ?%list_elem_of_singleton|apply NoDup_singleton].
    + repeat constructor; done.
    + intros h e f _ H. by rewrite slot_get_at in H.
  - eapply rtc_l; [apply (istep_grant true _ IpcExample.sender IpcExample.ep Send)|];
      [by vm_compute|by apply handle_ok_small|].
    eapply rtc_l; [apply (istep_grant true _ IpcExample.receiver IpcExample.ep Receive)|];
      [by vm_compute|by apply handle_ok_small|].
    apply rtc_refl.
Qed.

Lemma ipc_example_exact : iwf true IpcExample.w3.
Proof. eapply ipc_reachable; [apply ipc_example_steps|by apply (ipc_boot_iwf 1 4)]. Qed.

Lemma ipc_example_iwf : iwf false IpcExample.w3.
Proof. apply (iwf_weaken true), ipc_example_exact. Qed.

Lemma ipc_example_contracts (h : EndpointHandle) e :
  slot_get (endpoints (ipc IpcExample.w3)) h = Some e -> contract_id e ≠ 0.
Proof.
  intros (s & Hs & _ & Hv)%slot_get_Some. apply list_elem_of_lookup_2 in Hs.
  assert (Hall : Forall (fun s => match slot_value s with Some e => contract_id e ≠ 0 | None => True end)
    (endpoints (ipc IpcExample.w3))) by (vm_compute; repeat constructor; done).
  rewrite Forall_forall in Hall. specialize (Hall s Hs). by rewrite Hv in Hall.
Qed.

(** ** Witnesses *)

Lemma ipc_reachable_wf_witness :
  iwf true IpcExample.w3 ∧ queue_committed_messages (ipc IpcExample.w3) = 2.
Proof.
  split; [|by vm_compute].
  apply (ipc_reachable_wf 1 4 (fun _ => 0)); [done|done|apply ipc_example_steps].
Defined.

Lemma ipc_send_spec_witness :
  (exists w' st, send IpcExample.w3 IpcExample.sender IpcExample.send_cap [1; 2; 3] = Some (w', st)) ∧
  snd <$> send IpcExample.w3 IpcExample.sender IpcExample.send_cap [1; 2; 3] = Some IpcOk.
Proof.
  split; [|by vm_compute].
  destruct (ipc_send_spec IpcExample.w3 IpcExample.sender IpcExample.send_cap [1; 2; 3])
    as (w' & st & E & _).
  - apply ipc_example_iwf.
  - by apply handle_ok_small.
  - eauto.
Defined.

Lemma ipc_receive_spec_witness :
  exists w' out, receive IpcExample.w3 IpcExample.receiver IpcExample.receive_cap 3
    = Some (w', IpcEmpty, out).
Proof.
  destruct (ipc_receive_spec IpcExample.w3 IpcExample.receiver IpcExample.receive_cap 3)
    as (w' & st & out & E & _).
  - apply ipc_example_iwf.
  - by apply handle_ok_small.
  - exists w', out. rewrite E. f_equal.
    assert (Hst : (fun r => r.1.2) <$> receive IpcExample.w3 IpcExample.receiver IpcExample.receive_cap 3
      = Some IpcEmpty) by (by vm_compute).
    rewrite E in Hst. by injection Hst as ->.
Defined.

Lemma ipc_fifo_witness :
  let ops := [OpSend IpcExample.sender IpcExample.send_cap [1; 2; 3];
              OpSend IpcExample.sender IpcExample.send_cap [4; 5; 6];
              OpSend IpcExample.sender IpcExample.send_cap [7; 8; 9];
              OpReceive IpcExample.receiver IpcExample.receive_cap 3] in
  delivered ∘ snd <$> run IpcExample.w3 ops = Some [(IpcExample.ep, [1; 2; 3])] ∧
  exists w' t, run IpcExample.w3 ops = Some (w', t).
Proof.
  intros ops. split; [by vm_compute|].
  destruct (ipc_fifo IpcExample.w3 ops) as (w' & t & E & _).
  - apply ipc_example_iwf.
  - repeat constructor; by apply handle_ok_small.
  - eauto.
Defined.

(** The example's endpoint. *)
Definition ipc_example_endpoint : EndpointRecord :=
  mk_endpoint IpcExample.ep IpcExample.sender IpcExample.receiver 7 3 2 9
    (mk_handle 4294967296) (mk_handle 4294967297) (Frames [8192; 4096]) 0 0 0.

Lemma ipc_destroy_revokes_witness :
  (destroy_endpoint_inner true IpcExample.w3 IpcExample.ep).2 = Ok [8192; 4096] ∧
  endpoints (ipc (destroy_endpoint_inner false IpcExample.w3 IpcExample.ep).1) = endpoints (ipc IpcExample.w3).
Proof.
  split.
  - apply (ipc_destroy_revokes true true IpcExample.w3 IpcExample.ep ipc_example_endpoint).
    + apply ipc_example_exact.
    + by apply handle_ok_small.
    + by vm_compute.
  - apply (ipc_destroy_revokes true false IpcExample.w3 IpcExample.ep ipc_example_endpoint).
    + apply ipc_example_exact.
    + by apply handle_ok_small.
    + by vm_compute.
Defined.

Lemma ipc_destroy_service_spec_witness :
  ownership_counts (ipc IpcExample.w3) IpcExample.sender = (1%nat, 1%nat) ∧
  ownership_counts (ipc (destroy_service (fun _ => true) IpcExample.w3 IpcExample.sender))
    IpcExample.sender = (0%nat, 0%nat).
Proof.
  split; [by vm_compute|].
  apply (ipc_destroy_service_spec IpcExample.w3 IpcExample.sender), ipc_example_iwf.
Defined.

Lemma ipc_directory_complete_witness :
  let rq := mk_request 14 OpCapabilities 0 7 0 IpcExample.sender in
  let rs := response_empty OpCapabilities DirOk 7 in
  rec_handle <$> read_all (fun c => (directory (ipc IpcExample.w3) (at_cursor rq c) rs).1) 1 0 =
  [raw IpcExample.send_cap].
Proof.
  intros rq rs. rewrite (proj2 (ipc_directory_complete IpcExample.w3 rq rs 1 ipc_example_iwf
    (fun h e _ => ipc_example_contracts h e)
    eq_refl eq_refl ltac:(vm_compute; lia))).
  by vm_compute.
Defined.

Lemma ipc_destroy_oom_unaccounted_witness :
  (destroy_endpoint false IpcExample.w3 IpcExample.ep).2 = Err IpcDisconnected.
Proof.
  apply (ipc_destroy_oom_unaccounted IpcExample.w3 IpcExample.ep ipc_example_endpoint [8192; 4096]).
  - apply ipc_example_iwf.
  - by apply handle_ok_small.
  - by vm_compute.
  - done.
Defined.
