(* ===== verification/Bytes.v ===== *)
(** * Bytes, little-endian fields and the CRC-32C

    The byte-level helpers of [src/storage/src/cow.rs]: [put_u16], [put_u32],
    [put_u64] and the matching [get_*] on a fixed-size buffer, and the bitwise
    CRC-32C.  A byte is a [Z] in [0, 256); a buffer is a list of bytes.  Writing
    past the end of a buffer panics in the source; every offset below is within
    the 4096-byte block, which the lemmas require. *)

From Stdlib Require Import ZArith Lia.
From stdpp Require Import base list option numbers.
From S2P Require Import Prelude.

#[local] Open Scope Z_scope.

(** ** Little-endian words *)

(** [to_le_bytes] of an integer of [n] bytes. *)
Fixpoint to_le_bytes (n : nat) (v : Z) : list Z :=
  match n with
  | O => []
  | S n => wrap 8 v :: to_le_bytes n (Z.shiftr v 8)
  end.

Fixpoint from_le_bytes (l : list Z) : Z :=
  match l with
  | [] => 0
  | b :: l => b + 256 * from_le_bytes l
  end.

(** ** Buffers *)

(** [bytes[off..off + len].copy_from_slice(v)]. *)
Definition put (bytes : list Z) (off : nat) (v : list Z) : list Z :=
  take off bytes ++ v ++ drop (off + length v) bytes.

(** [bytes[off..off + n]]. *)
Definition get (bytes : list Z) (off n : nat) : list Z := take n (drop off bytes).

Definition put_u16 (bytes : list Z) (off : nat) (v : Z) : list Z := put bytes off (to_le_bytes 2 v).
Definition put_u32 (bytes : list Z) (off : nat) (v : Z) : list Z := put bytes off (to_le_bytes 4 v).
Definition put_u64 (bytes : list Z) (off : nat) (v : Z) : list Z := put bytes off (to_le_bytes 8 v).
Definition get_u16 (bytes : list Z) (off : nat) : Z := from_le_bytes (get bytes off 2).
Definition get_u32 (bytes : list Z) (off : nat) : Z := from_le_bytes (get bytes off 4).
Definition get_u64 (bytes : list Z) (off : nat) : Z := from_le_bytes (get bytes off 8).

(** [bytes[off] = v] and [bytes[off]]. *)
Definition put_u8 (bytes : list Z) (off : nat) (v : Z) : list Z := put bytes off [v].
Definition get_u8 (bytes : list Z) (off : nat) : Z := nth off bytes 0.

(** ** CRC-32C *)

Definition crc_bit (crc : Z) : Z :=
  let mask := wrap 32 (0 - Z.land crc 1) in
  Z.lxor (Z.shiftr crc 1) (Z.land 2197175160 mask).

Definition crc_byte (crc byte : Z) : Z := Nat.iter 8 crc_bit (Z.lxor crc byte).

Definition crc32c (bytes : list Z) : Z := Z.lxor (foldl crc_byte U32_MAX bytes) U32_MAX.

#[global] Arguments put : simpl never.
#[global] Arguments get : simpl never.
#[global] Arguments crc32c : simpl never.

(** ** Lemmas *)

Lemma length_to_le_bytes n v : length (to_le_bytes n v) = n.
Proof. revert v. induction n; intros v; simpl; [done|]. by rewrite IHn. Qed.

Definition byte_ok (b : Z) : Prop := fits 8 b.

Lemma to_le_bytes_ok n v : Forall byte_ok (to_le_bytes n v).
Proof. revert v. induction n; intros v; simpl; constructor; [|done]. by apply wrap_fits. Qed.

Lemma from_to_le n v : 0 <= v -> from_le_bytes (to_le_bytes n v) = v mod 2 ^ (8 * Z.of_nat n).
Proof.
  revert v. induction n as [|n IH]; intros v Hv; cbn [to_le_bytes from_le_bytes].
  - by rewrite Z.mod_1_r.
  - rewrite Z.shiftr_div_pow2 by lia. rewrite IH by (apply Z.div_pos; lia).
    replace (8 * Z.of_nat (S n)) with (8 + 8 * Z.of_nat n) by lia.
    rewrite Z.pow_add_r by lia. unfold wrap. change (2 ^ 8) with 256.
    rewrite (Z.rem_mul_r v 256) by lia. lia.
Qed.

Lemma from_to_le_fits n v :
  fits (8 * Z.of_nat n) v -> from_le_bytes (to_le_bytes n v) = v.
Proof. intros [H0 H1]. rewrite from_to_le by done. by apply Z.mod_small. Qed.

Lemma length_put bytes off v :
  (off + length v <= length bytes)%nat -> length (put bytes off v) = length bytes.
Proof. intros H. unfold put. rewrite !length_app, length_take, length_drop. lia. Qed.

Lemma get_put_same bytes off v n :
  (off + length v <= length bytes)%nat -> n = length v -> get (put bytes off v) off n = v.
Proof.
  intros H ->. unfold get, put. rewrite drop_app_length' by (rewrite length_take; lia).
  by rewrite take_app_length.
Qed.

Lemma lookup_put bytes off v i :
  (off + length v <= length bytes)%nat ->
  put bytes off v !! i =
  if decide (off <= i < off + length v)%nat then v !! (i - off)%nat else bytes !! i.
Proof.
  intros H. unfold put. case_decide as Hd.
  - rewrite lookup_app_r by (rewrite length_take; lia).
    rewrite lookup_app_l by (rewrite length_take; lia). f_equal. rewrite length_take. lia.
  - destruct (decide (i < off)%nat).
    + rewrite lookup_app_l by (rewrite length_take; lia). by rewrite lookup_take_lt by lia.
    + rewrite lookup_app_r by (rewrite length_take; lia).
      rewrite lookup_app_r by (rewrite length_take; lia). rewrite lookup_drop, length_take. f_equal. lia.
Qed.

Lemma lookup_get bytes off n i :
  get bytes off n !! i = if decide (i < n)%nat then bytes !! (off + i)%nat else None.
Proof.
  unfold get. case_decide.
  - by rewrite lookup_take_lt, lookup_drop.
  - by rewrite lookup_take_ge by lia.
Qed.

(** A field read elsewhere is not affected. *)
Lemma get_put_other bytes off v off' n :
  (off + length v <= length bytes)%nat -> (off' + n <= off ∨ off + length v <= off')%nat ->
  get (put bytes off v) off' n = get bytes off' n.
Proof.
  intros H Hd. apply list_eq. intros i. rewrite !lookup_get. case_decide; [|done].
  rewrite lookup_put by done. rewrite decide_False; [done|lia].
Qed.

Lemma get_u8_put_same bytes off v :
  (off < length bytes)%nat -> get_u8 (put_u8 bytes off v) off = v.
Proof.
  intros H. unfold get_u8, put_u8. apply nth_lookup_Some. rewrite lookup_put by (simpl; lia).
  rewrite decide_True by (simpl; lia). by rewrite Nat.sub_diag.
Qed.

Lemma get_u8_put_other bytes off v off' :
  (off + length v <= length bytes)%nat -> (off' < off ∨ off + length v <= off')%nat ->
  get_u8 (put bytes off v) off' = get_u8 bytes off'.
Proof.
  intros H Hd. unfold get_u8. rewrite !nth_lookup. rewrite lookup_put by done.
  rewrite decide_False; [done|lia].
Qed.

(** ** CRC range *)

Lemma lxor_fits w a b : 0 <= w -> fits w a -> fits w b -> fits w (Z.lxor a b).
Proof.
  intros Hw [Ha Ha'] [Hb Hb']. unfold fits.
  assert (0 <= Z.lxor a b) by (by apply Z.lxor_nonneg). split; [done|].
  destruct (Z.eq_dec (Z.lxor a b) 0) as [->|Hne]; [by apply Z.pow_pos_nonneg|].
  apply Z.log2_lt_pow2; [lia|].
  pose proof (Z.log2_lxor a b Ha Hb).
  assert (Hl : forall x, 0 <= x < 2 ^ w -> x = 0 ∨ Z.log2 x < w).
  { intros x Hx. destruct (decide (x = 0)); [by left|right]. apply Z.log2_lt_pow2; lia. }
  assert (0 < w).
  { destruct (decide (w = 0)) as [->|]; [|lia]. simpl in *. exfalso. apply Hne.
    assert (a = 0) as -> by lia. assert (b = 0) as -> by lia. done. }
  destruct (Hl a ltac:(lia)) as [->|], (Hl b ltac:(lia)) as [->|]; change (Z.log2 0) with 0 in *; lia.
Qed.

Lemma land_fits w a b : 0 <= w -> 0 <= a -> fits w b -> fits w (Z.land a b).
Proof.
  intros Hw Ha [Hb Hb']. unfold fits. split; [apply Z.land_nonneg; by left|].
  destruct (decide (b = 0)) as [->|]; [rewrite Z.land_0_r; lia|].
  destruct (decide (Z.land a b = 0)) as [->|]; [lia|].
  assert (0 <= Z.land a b) by (apply Z.land_nonneg; by left).
  apply Z.log2_lt_pow2; [lia|]. pose proof (Z.log2_land a b Ha Hb).
  assert (Z.log2 b < w) by (apply Z.log2_lt_pow2; lia). lia.
Qed.

Lemma crc_bit_fits crc : fits 32 crc -> fits 32 (crc_bit crc).
Proof.
  intros [H0 H1]. unfold crc_bit. apply lxor_fits; [lia|..].
  - rewrite Z.shiftr_div_pow2 by lia. change (2 ^ 1) with 2. split; [apply Z.div_pos; lia|].
    apply Z.div_lt_upper_bound; lia.
  - apply land_fits; [lia..|]. apply wrap_fits. lia.
Qed.

Lemma crc_byte_fits crc b : fits 32 crc -> byte_ok b -> fits 32 (crc_byte crc b).
Proof.
  intros Hc Hb. unfold crc_byte.
  assert (fits 32 (Z.lxor crc b)).
  { apply lxor_fits; [lia|done|]. unfold byte_ok, fits in *. lia. }
  simpl. by repeat apply crc_bit_fits.
Qed.

Lemma crc32c_fits bytes : Forall byte_ok bytes -> fits 32 (crc32c bytes).
Proof.
  intros Hb. unfold crc32c. apply lxor_fits; [lia| |by vm_compute].
  assert (H : forall l c, Forall byte_ok l -> fits 32 c -> fits 32 (foldl crc_byte c l)).
  { induction l as [|b l IH]; intros c Hl Hc; simpl; [done|]. apply Forall_cons_1 in Hl as [Hb' Hl].
    apply IH; [done|]. by apply crc_byte_fits. }
  apply H; [done|by vm_compute].
Qed.

Lemma put_ok bytes off v :
  Forall byte_ok bytes -> Forall byte_ok v -> Forall byte_ok (put bytes off v).
Proof.
  intros Hb Hv. unfold put. apply Forall_app. split; [by apply Forall_take|].
  apply Forall_app. split; [done|by apply Forall_drop].
Qed.

(** ** Field round trips *)

Lemma get_u16_put_same bytes off v :
  (off + 2 <= length bytes)%nat -> fits 16 v -> get_u16 (put_u16 bytes off v) off = v.
Proof.
  intros H Hv. unfold get_u16, put_u16.
  rewrite get_put_same by (rewrite length_to_le_bytes; lia). by apply from_to_le_fits.
Qed.

Lemma get_u32_put_same bytes off v :
  (off + 4 <= length bytes)%nat -> fits 32 v -> get_u32 (put_u32 bytes off v) off = v.
Proof.
  intros H Hv. unfold get_u32, put_u32.
  rewrite get_put_same by (rewrite length_to_le_bytes; lia). by apply from_to_le_fits.
Qed.

Lemma get_u64_put_same bytes off v :
  (off + 8 <= length bytes)%nat -> fits 64 v -> get_u64 (put_u64 bytes off v) off = v.
Proof.
  intros H Hv. unfold get_u64, put_u64.
  rewrite get_put_same by (rewrite length_to_le_bytes; lia). by apply from_to_le_fits.
Qed.

(** ** Records of fields

    A record is encoded by writing its fields at fixed offsets; a field reads
    back when no later field overlaps it. *)

Definition puts (b : list Z) (ws : list (nat * list Z)) : list Z :=
  foldl (fun b '(off, v) => put b off v) b ws.

Definition in_bounds (n : nat) (ws : list (nat * list Z)) : bool :=
  forallb (fun '(off, v) => (off + length v <=? n)%nat) ws.

Definition clear_of (off n : nat) (ws : list (nat * list Z)) : bool :=
  forallb (fun '(o, v) => (off + n <=? o)%nat || (o + length v <=? off)%nat) ws.

Lemma length_puts b ws : in_bounds (length b) ws = true -> length (puts b ws) = length b.
Proof.
  unfold puts. revert b. induction ws as [|[o v] ws IH]; intros b Hb; simpl in *; [done|].
  apply andb_true_iff in Hb as [Ho Hb]. apply Nat.leb_le in Ho.
  rewrite IH; by rewrite length_put.
Qed.

Lemma get_puts_clear b ws off n :
  in_bounds (length b) ws = true -> clear_of off n ws = true -> get (puts b ws) off n = get b off n.
Proof.
  unfold puts. revert b. induction ws as [|[o v] ws IH]; intros b Hb Hc; simpl in *; [done|].
  apply andb_true_iff in Hb as [Ho Hb]. apply andb_true_iff in Hc as [Hd Hc]. apply Nat.leb_le in Ho.
  rewrite IH; [|by rewrite length_put|done]. apply get_put_other; [done|].
  apply orb_true_iff in Hd as [H|H]; apply Nat.leb_le in H; auto.
Qed.

Lemma get_puts b ws1 off v ws2 n :
  in_bounds (length b) (ws1 ++ (off, v) :: ws2) = true -> clear_of off n ws2 = true -> n = length v ->
  get (puts b (ws1 ++ (off, v) :: ws2)) off n = v.
Proof.
  intros Hb Hc ->. unfold in_bounds in Hb. rewrite forallb_app in Hb. simpl in Hb.
  apply andb_true_iff in Hb as [Hb1 Hb2]. apply andb_true_iff in Hb2 as [Ho Hb2]. apply Nat.leb_le in Ho.
  unfold puts. rewrite foldl_app. simpl. fold (puts b ws1).
  assert (Hl : length (puts b ws1) = length b) by (by apply length_puts).
  change (get (puts (put (puts b ws1) off v) ws2) off (length v) = v).
  rewrite get_puts_clear; [|by rewrite length_put; rewrite Hl|done].
  apply get_put_same; [by rewrite Hl|done].
Qed.

Lemma puts_ok b ws :
  Forall byte_ok b -> Forall (fun w => Forall byte_ok w.2) ws -> Forall byte_ok (puts b ws).
Proof.
  unfold puts. revert b. induction ws as [|[o v] ws IH]; intros b Hb Hw; simpl; [done|].
  apply Forall_cons_1 in Hw as [Hv Hw]. apply IH; [by apply put_ok|done].
Qed.

(** A byte is a one-byte field. *)
Lemma get_u8_get b off : (off < length b)%nat -> get b off 1 = [get_u8 b off].
Proof.
  intros H. unfold get_u8. destruct (lookup_lt_is_Some_2 b off H) as [x Hx].
  rewrite (nth_lookup_Some b off 0 x Hx). apply list_eq. intros [|i]; rewrite lookup_get; simpl.
  - by rewrite Nat.add_0_r.
  - done.
Qed.

Lemma get_u8_ok b off : Forall byte_ok b -> byte_ok (get_u8 b off).
Proof.
  intros Hb. unfold get_u8. rewrite nth_lookup. destruct (b !! off) as [x|] eqn:E; simpl.
  - by eapply Forall_lookup_1.
  - unfold byte_ok, fits. lia.
Qed.
