(* ===== verification/BlockStore.v ===== *)
(** * Block stores ([src/storage/src/lib.rs])

    The block seam of the storage format.  The source's format code is generic
    over the trait [BlockStore]; the model writes it once as a program over the
    trait's operations ([io]) and runs it on any instance of the class
    [BlockStore].  Two instances are given: [MemoryBlockStore], the memory
    backend of the source, and [disk], a device with a volatile write cache
    that [flush] empties, on which a crash may keep or lose each write that
    was not flushed.  Block writes are atomic in that model. *)

From Stdlib Require Import ZArith Lia.
From stdpp Require Import base list option numbers.
From S2P Require Import Prelude Bytes.

#[local] Open Scope Z_scope.

Definition BLOCK_BYTES : Z := 4096.

(** A [Block] is the array of its bytes. *)
Definition Block : Type := list Z.

Definition block_zero : Block := replicate (Z.to_nat BLOCK_BYTES) 0.

(** [bytes.iter().all(|byte| *byte == 0)]. *)
Definition all_zero (b : list Z) : bool := forallb (fun x => x =? 0) b.

Definition block_ok (b : Block) : Prop := Z.of_nat (length b) = BLOCK_BYTES ∧ Forall byte_ok b.

Inductive BlockError : Type :=
| OutOfBounds
| Io
| ResponseTimeout
| ReadOnly
| BlockUnauthorized
| BlockStale
| BlockInvalidRequest.

#[export] Instance BlockError_eq_dec : EqDecision BlockError.
Proof. solve_decision. Defined.

(** ** The trait *)

Class BlockStore (S : Type) : Type := {
  block_count : S -> Z;
  read_block : S -> Z -> S * result Block BlockError;
  read_block_uncached : S -> Z -> S * result Block BlockError;
  write_block : S -> Z -> Block -> S * result unit BlockError;
  flush : S -> S * result unit BlockError
}.

(** Programs over the trait. *)
Inductive io (A : Type) : Type :=
| Ret (a : A)
| Count (k : Z -> io A)
| Read (i : Z) (k : result Block BlockError -> io A)
| ReadUncached (i : Z) (k : result Block BlockError -> io A)
| Write (i : Z) (b : Block) (k : result unit BlockError -> io A)
| Flush (k : result unit BlockError -> io A).
Arguments Ret {A} _.
Arguments Count {A} _.
Arguments Read {A} _ _.
Arguments ReadUncached {A} _ _.
Arguments Write {A} _ _ _.
Arguments Flush {A} _.

Fixpoint io_bind {A B} (p : io A) (f : A -> io B) : io B :=
  match p with
  | Ret a => f a
  | Count k => Count (fun n => io_bind (k n) f)
  | Read i k => Read i (fun r => io_bind (k r) f)
  | ReadUncached i k => ReadUncached i (fun r => io_bind (k r) f)
  | Write i b k => Write i b (fun r => io_bind (k r) f)
  | Flush k => Flush (fun r => io_bind (k r) f)
  end.

(** Fallible programs and the [?] operator. *)
Definition try_bind {A B E} (p : io (result A E)) (f : A -> io (result B E)) : io (result B E) :=
  io_bind p (fun r => match r with Ok a => f a | Err e => Ret (Err e) end).

Declare Scope io_scope.
Delimit Scope io_scope with io.
Notation "'bind!' x ':=' p 'in' q" := (io_bind p (fun x => q))
  (at level 10, x binder, p at level 200, q at level 200) : io_scope.
Notation "'try!' x ':=' p 'in' q" := (try_bind p (fun x => q))
  (at level 10, x binder, p at level 200, q at level 200) : io_scope.
Notation "'do!' p 'in' q" := (try_bind p (fun _ => q))
  (at level 10, p at level 200, q at level 200) : io_scope.

(** ** Running a program *)

Section exec.
Context {S : Type} `{BlockStore S}.

Fixpoint exec {A} (p : io A) (s : S) : S * A :=
  match p with
  | Ret a => (s, a)
  | Count k => exec (k (block_count s)) s
  | Read i k => let '(s, r) := read_block s i in exec (k r) s
  | ReadUncached i k => let '(s, r) := read_block_uncached s i in exec (k r) s
  | Write i b k => let '(s, r) := write_block s i b in exec (k r) s
  | Flush k => let '(s, r) := flush s in exec (k r) s
  end.

Lemma exec_bind {A B} (p : io A) (f : A -> io B) s :
  exec (io_bind p f) s = let '(s', a) := exec p s in exec (f a) s'.
Proof.
  revert s. induction p as [a|k IH|i k IH|i k IH|i b k IH|k IH]; intros s; simpl; [done|auto|..].
  - destruct (read_block s i). auto.
  - destruct (read_block_uncached s i). auto.
  - destruct (write_block s i b). auto.
  - destruct (flush s). auto.
Qed.

Lemma exec_try {A B E} (p : io (result A E)) (f : A -> io (result B E)) s :
  exec (try_bind p f) s =
  let '(s', r) := exec p s in match r with Ok a => exec (f a) s' | Err e => (s', Err e) end.
Proof. unfold try_bind. rewrite exec_bind. destruct (exec p s) as [s' [a|e]]; done. Qed.

End exec.

(** ** The memory backend *)

Record MemoryBlockStore : Type := mk_memory {
  blocks : list Block;
  read_only : bool
}.

Definition memory_new (n : nat) : MemoryBlockStore := mk_memory (replicate n block_zero) false.

Definition set_read_only (s : MemoryBlockStore) (ro : bool) : MemoryBlockStore := mk_memory (blocks s) ro.

Definition memory_block (s : MemoryBlockStore) (i : Z) : option Block := blocks s !! Z.to_nat i.

Definition memory_read (s : MemoryBlockStore) (i : Z) : MemoryBlockStore * result Block BlockError :=
  match blocks s !! Z.to_nat i with
  | None => (s, Err OutOfBounds)
  | Some b => (s, Ok b)
  end.

Definition memory_write (s : MemoryBlockStore) (i : Z) (b : Block) :
    MemoryBlockStore * result unit BlockError :=
  if read_only s then (s, Err ReadOnly)
  else match blocks s !! Z.to_nat i with
  | None => (s, Err OutOfBounds)
  | Some _ => (mk_memory (<[Z.to_nat i := b]> (blocks s)) (read_only s), Ok tt)
  end.

#[export] Instance memory_store : BlockStore MemoryBlockStore := {|
  block_count s := Z.of_nat (length (blocks s));
  read_block := memory_read;
  read_block_uncached := memory_read;
  write_block := memory_write;
  flush s := (s, Ok tt)
|}.

(** ** A device with a volatile cache *)

Record disk : Type := mk_disk {
  durable : list Block;
  pending : list (nat * Block)
}.

Definition apply_writes (l : list Block) (ws : list (nat * Block)) : list Block :=
  foldl (fun l '(i, b) => <[i := b]> l) l ws.

(** What reads see. *)
Definition current (d : disk) : list Block := apply_writes (durable d) (pending d).

Definition disk_read (d : disk) (i : Z) : disk * result Block BlockError :=
  match current d !! Z.to_nat i with
  | None => (d, Err OutOfBounds)
  | Some b => (d, Ok b)
  end.

Definition disk_write (d : disk) (i : Z) (b : Block) : disk * result unit BlockError :=
  if bool_decide (Z.to_nat i < length (durable d))%nat
  then (mk_disk (durable d) (pending d ++ [(Z.to_nat i, b)]), Ok tt)
  else (d, Err OutOfBounds).

Definition disk_flush (d : disk) : disk * result unit BlockError := (mk_disk (current d) [], Ok tt).

#[export] Instance disk_store : BlockStore disk := {|
  block_count d := Z.of_nat (length (durable d));
  read_block := disk_read;
  read_block_uncached := disk_read;
  write_block := disk_write;
  flush := disk_flush
|}.

(** After a power loss each block holds what was durable or one of the
    writes to it that were still in the cache. *)
Definition crash (d : disk) (l : list Block) : Prop :=
  length l = length (durable d) ∧
  forall i b, l !! i = Some b -> durable d !! i = Some b ∨ (i, b) ∈ pending d.

(** The contents a power loss can leave at any moment of a program's run. *)
Fixpoint crash_during {A} (p : io A) (d : disk) (l : list Block) : Prop :=
  crash d l ∨
  match p with
  | Ret _ => False
  | Count k => crash_during (k (block_count d)) d l
  | Read i k => let '(d, r) := disk_read d i in crash_during (k r) d l
  | ReadUncached i k => let '(d, r) := disk_read d i in crash_during (k r) d l
  | Write i b k => let '(d, r) := disk_write d i b in crash_during (k r) d l
  | Flush k => let '(d, r) := disk_flush d in crash_during (k r) d l
  end.

(** The device after a restart. *)
Definition reboot (l : list Block) : disk := mk_disk l [].

(** ** Lemmas *)

Lemma length_apply_writes l ws : length (apply_writes l ws) = length l.
Proof.
  unfold apply_writes. revert l. induction ws as [|[i b] ws IH]; intros l; simpl; [done|].
  by rewrite IH, length_insert.
Qed.

Lemma apply_writes_app l ws ws' :
  apply_writes l (ws ++ ws') = apply_writes (apply_writes l ws) ws'.
Proof. unfold apply_writes. by rewrite foldl_app. Qed.

Lemma apply_writes_other l ws i :
  (forall b, (i, b) ∉ ws) -> apply_writes l ws !! i = l !! i.
Proof.
  revert l. induction ws as [|[j b] ws IH]; intros l Hi; [done|].
  change (apply_writes l ((j, b) :: ws)) with (apply_writes (<[j:=b]> l) ws).
  rewrite IH.
  - apply list_lookup_insert_ne. intros ->. apply (Hi b). by left.
  - intros b' H'. apply (Hi b'). by right.
Qed.

Lemma length_current d : length (current d) = length (durable d).
Proof. apply length_apply_writes. Qed.

Lemma current_reboot l : current (reboot l) = l.
Proof. done. Qed.

Lemma disk_read_Some d i b :
  current d !! Z.to_nat i = Some b -> disk_read d i = (d, Ok b).
Proof. intros E. unfold disk_read. by rewrite E. Qed.

Lemma disk_write_ok d i b :
  (Z.to_nat i < length (durable d))%nat ->
  disk_write d i b = (mk_disk (durable d) (pending d ++ [(Z.to_nat i, b)]), Ok tt) ∧
  current (disk_write d i b).1 = <[Z.to_nat i := b]> (current d).
Proof.
  intros H. unfold disk_write. rewrite bool_decide_eq_true_2 by done. split; [done|].
  unfold current. simpl. by rewrite apply_writes_app.
Qed.

Lemma disk_flush_current d : current (disk_flush d).1 = current d.
Proof. done. Qed.

(** A crash only keeps durable blocks and cached writes. *)
Lemma crash_current d l : pending d = [] -> crash d l -> l = durable d.
Proof.
  intros Hp [Hl Hc]. apply list_eq. intros i. destruct (l !! i) as [b|] eqn:E.
  - destruct (Hc i b E) as [H|H]; [by rewrite H|]. rewrite Hp in H. by apply not_elem_of_nil in H.
  - apply lookup_ge_None in E. symmetry. apply lookup_ge_None. lia.
Qed.

Lemma crash_during_bind {A B} (p : io A) (f : A -> io B) d l :
  crash_during (io_bind p f) d l ->
  crash_during p d l ∨ crash_during (f (exec p d).2) (exec p d).1 l.
Proof.
  revert d. induction p as [a|k IH|i k IH|i k IH|i b k IH|k IH]; intros d; simpl; [tauto|..].
  - intros [H|H]; [tauto|]. destruct (IH _ _ H); tauto.
  - change (read_block d i) with (disk_read d i). destruct (disk_read d i) as [d' r].
    intros [H|H]; [tauto|]. destruct (IH _ _ H); tauto.
  - change (read_block_uncached d i) with (disk_read d i). destruct (disk_read d i) as [d' r].
    intros [H|H]; [tauto|]. destruct (IH _ _ H); tauto.
  - change (write_block d i b) with (disk_write d i b). destruct (disk_write d i b) as [d' r].
    intros [H|H]; [tauto|]. destruct (IH _ _ H); tauto.
  - change (flush d) with (disk_flush d). destruct (disk_flush d) as [d' r].
    intros [H|H]; [tauto|]. destruct (IH _ _ H); tauto.
Qed.

(** A crash inside [p;;? f] is inside [p] or, when [p] succeeds, inside [f]. *)
Lemma crash_during_try {A B E} (p : io (result A E)) (f : A -> io (result B E)) d l :
  crash_during (try_bind p f) d l ->
  crash_during p d l ∨
  match (exec p d).2 with
  | Ok a => crash_during (f a) (exec p d).1 l
  | Err _ => crash (exec p d).1 l
  end.
Proof.
  unfold try_bind. intros H%crash_during_bind. destruct H as [H|H]; [by left|right].
  destruct (exec p d) as [d' [a|e]]; simpl in *; [done|tauto].
Qed.

(** ** Fields of a block built on the zero block *)

Lemma length_block_zero : length block_zero = Z.to_nat 4096.
Proof. apply length_replicate. Qed.

Lemma block_zero_ok : Forall byte_ok block_zero.
Proof. apply Forall_replicate. by vm_compute. Qed.

Lemma all_zero_head b x n l : get b 0 n = x :: l -> x ≠ 0 -> all_zero b = false.
Proof.
  intros Hg Hx. apply not_true_iff_false. intros Hz. unfold all_zero in Hz.
  destruct b as [|y b]; [by destruct n|]. destruct n; [done|]. unfold get in Hg. simpl in Hg.
  injection Hg as -> _. simpl in Hz. by destruct (Z.eqb_spec x 0).
Qed.

(** The [k]-th field of a record built on the zero block reads as written when
    no later field overlaps it. *)
Lemma field_at ws k off v n :
  in_bounds (Z.to_nat 4096) ws = true -> ws !! k = Some (off, v) ->
  clear_of off n (drop (S k) ws) = true -> n = length v ->
  get (puts block_zero ws) off n = v.
Proof.
  intros Hb Hk Hc Hn. rewrite <- (take_drop_middle ws k (off, v) Hk) in Hb |- *.
  apply get_puts; by rewrite ?length_block_zero.
Qed.

Lemma length_le n v : length (to_le_bytes n v) = n.
Proof. apply length_to_le_bytes. Qed.

Lemma singleton_inj (a b : Z) : [a] = [b] -> a = b.
Proof. congruence. Qed.

Lemma put_put_same (b : list Z) off v w :
  (off + length v <= length b)%nat -> length w = length v -> put (put b off v) off w = put b off w.
Proof.
  intros H Hw. apply list_eq. intros i. rewrite !lookup_put; rewrite ?length_put; try lia.
  rewrite Hw. by case_decide.
Qed.

Lemma put_get (b : list Z) off n : (off + n <= length b)%nat -> put b off (get b off n) = b.
Proof.
  intros H. assert (Hl : length (get b off n) = n).
  { unfold get. rewrite length_take, length_drop. lia. }
  apply list_eq. intros i. rewrite lookup_put by (rewrite Hl; lia). rewrite Hl. case_decide; [|done].
  rewrite lookup_get, decide_True by lia. f_equal. lia.
Qed.

(** A checksum written over a zero field and zeroed again. *)
Lemma put_u32_undo (b : list Z) off x :
  (off + 4 <= length b)%nat -> get b off 4 = to_le_bytes 4 0 -> put_u32 (put_u32 b off x) off 0 = b.
Proof.
  intros H Hz. unfold put_u32. rewrite put_put_same by (rewrite !length_le; lia || done).
  rewrite <- Hz. by apply put_get.
Qed.
