(* ===== verification/Cow.v ===== *)
(** * The copy-on-write volume ([src/storage/src/cow.rs])

    Two superblocks, two commit records, a data arena and two copies of the
    allocation bitmap.  A commit writes new data to free blocks, the other
    bitmap copy, a commit record and then the other superblock, flushing in
    between; [open] takes the newest valid superblock and rolls a newer commit
    record forward.  This file holds the definitions; the operations are
    programs over the block seam of [BlockStore.v].  The fixed arrays of a
    transaction with their counts are lists; their capacity checks compare the
    length.  Bitmap indices are within the single bitmap block for every
    volume [validate_capacity] accepts. *)

From Stdlib Require Import ZArith Lia.
From stdpp Require Import base list option numbers.
From S2P Require Import Prelude Bytes BlockStore.

#[local] Open Scope Z_scope.
#[local] Open Scope io_scope.

Definition COW_FORMAT_VERSION : Z := 4.
Definition COW_SUPERBLOCK_MAGIC : list Z := [76; 79; 71; 79; 83; 67; 79; 87].
Definition COW_PROVISIONED_BLANK_MAGIC : list Z := [76; 79; 71; 79; 83; 66; 76; 75].
Definition COW_MAX_BITMAP_BLOCKS : Z := 1.
Definition COW_MAX_RETIRED_EXTENTS : Z := 128.
Definition COW_MAX_TRANSACTION_EXTENTS : Z := 256.
Definition COW_COMMIT_SLOTS : Z := 2.
Definition SUPERBLOCK_A : Z := 0.
Definition SUPERBLOCK_B : Z := 1.
Definition COMMIT_START : Z := 2.
Definition DATA_START : Z := COMMIT_START + COW_COMMIT_SLOTS.
Definition CHECKSUM_OFFSET : nat := 92.
Definition RETIRED_MAGIC : list Z := [76; 79; 83; 82].
Definition COMMIT_MAGIC : list Z := [76; 79; 83; 67].
Definition LEGACY_MAGIC : list Z := [76; 79; 71; 79; 83; 70; 83; 0].
Definition MAX_BLOCK_COUNT : Z := COW_MAX_BITMAP_BLOCKS * BLOCK_BYTES * 8.
Definition WRITE_VERIFY_ATTEMPTS : nat := 3.

Inductive CowError : Type :=
| CBlock (e : BlockError)
| NotBlank
| Unformatted
| ProvisionedBlank
| UnsupportedVersion
| Corrupt
| TooSmall
| TooLarge
| OutOfSpace
| InvalidRequest
| GenerationExhausted
| RetiredExtentCapacity.

#[export] Instance CowError_eq_dec : EqDecision CowError.
Proof. solve_decision. Defined.

Record CowExtent : Type := mk_extent { start : Z; extent_blocks : Z }.

#[export] Instance CowExtent_eq_dec : EqDecision CowExtent.
Proof. solve_decision. Defined.

Definition extent_new (s b : Z) : option CowExtent := if b =? 0 then None else Some (mk_extent s b).

Record CowRoot : Type := mk_root {
  generation : Z;
  metadata_root : Z;
  metadata_blocks : Z;
  bitmap_slot : Z;
  bitmap_start : Z;
  bitmap_blocks : Z;
  data_start : Z;
  data_end : Z;
  retired_root : Z
}.

#[export] Instance CowRoot_eq_dec : EqDecision CowRoot.
Proof. solve_decision. Defined.

Record CommitRecord : Type := mk_commit {
  c_generation : Z;
  c_metadata_root : Z;
  c_metadata_blocks : Z;
  c_bitmap_slot : Z;
  c_retired_root : Z;
  c_checksum : Z
}.

Record CowVolume : Type := mk_volume { root : CowRoot; active_superblock : Z }.

Record CowTransaction : Type := mk_transaction {
  t_root : CowRoot;
  t_bitmap_slot : Z;
  retired : list CowExtent;
  allocated : list CowExtent;
  released : list CowExtent
}.

(** ** Blocks *)

(** [?] on a block operation: [From<BlockError> for CowError]. *)
Definition lift {A} (r : result A BlockError) : result A CowError :=
  match r with Ok a => Ok a | Err e => Err (CBlock e) end.

Definition load (i : Z) : io (result Block CowError) := Read i (fun r => Ret (lift r)).
Definition load_uncached (i : Z) : io (result Block CowError) := ReadUncached i (fun r => Ret (lift r)).
Definition store (i : Z) (b : Block) : io (result unit CowError) := Write i b (fun r => Ret (lift r)).
Definition sync : io (result unit CowError) := Flush (fun r => Ret (lift r)).
Definition fail {A} (e : CowError) : io (result A CowError) := Ret (Err e).
Definition pure {A} (a : A) : io (result A CowError) := Ret (Ok a).
Definition liftr {A} (r : result A CowError) : io (result A CowError) := Ret r.

(** ** Encodings *)

Definition encode_root (b : Block) (r : CowRoot) : Block :=
  let b := put b 0 COW_SUPERBLOCK_MAGIC in
  let b := put b 8 (to_le_bytes 2 COW_FORMAT_VERSION) in
  let b := put_u64 b 16 (generation r) in
  let b := put_u64 b 24 (metadata_root r) in
  let b := put_u8 b 32 (bitmap_slot r) in
  let b := put_u64 b 40 (bitmap_start r) in
  let b := put_u16 b 48 (bitmap_blocks r) in
  let b := put_u64 b 56 (data_start r) in
  let b := put_u64 b 64 (data_end r) in
  let b := put_u64 b 72 (retired_root r) in
  let b := put_u32 b 80 (metadata_blocks r) in
  let b := put_u32 b CHECKSUM_OFFSET 0 in
  put_u32 b CHECKSUM_OFFSET (crc32c (get b 0 CHECKSUM_OFFSET)).

Definition decode_root (b : Block) : result (option CowRoot) CowError :=
  if all_zero b then Ok None
  else if negb (bool_decide (get b 0 8 = COW_SUPERBLOCK_MAGIC)) then
    Err (if bool_decide (get b 0 8 = COW_PROVISIONED_BLANK_MAGIC) && all_zero (drop 8 b)
         then ProvisionedBlank
         else if bool_decide (get b 0 8 = LEGACY_MAGIC) then UnsupportedVersion else Corrupt)
  else if negb (from_le_bytes (get b 8 2) =? COW_FORMAT_VERSION) then Err UnsupportedVersion
  else
    let expected := get_u32 b CHECKSUM_OFFSET in
    let copy := put_u32 b CHECKSUM_OFFSET 0 in
    if negb (crc32c (get copy 0 CHECKSUM_OFFSET) =? expected) then Err Corrupt
    else Ok (Some (mk_root (get_u64 b 16) (get_u64 b 24) (get_u32 b 80) (get_u8 b 32)
           (get_u64 b 40) (get_u16 b 48) (get_u64 b 56) (get_u64 b 64) (get_u64 b 72))).

Definition encode_commit (c : CommitRecord) : Block :=
  let b := put block_zero 0 COMMIT_MAGIC in
  let b := put_u64 b 8 (c_generation c) in
  let b := put_u64 b 16 (c_metadata_root c) in
  let b := put_u32 b 24 (c_metadata_blocks c) in
  let b := put_u8 b 28 (c_bitmap_slot c) in
  let b := put_u64 b 32 (c_retired_root c) in
  let b := put_u32 b 40 0 in
  put_u32 b 40 (crc32c (get b 0 40)).

(** The decoding half of [read_commit]. *)
Definition decode_commit (b : Block) : option CommitRecord :=
  if all_zero b then None
  else if negb (bool_decide (get b 0 4 = COMMIT_MAGIC)) then None
  else
    let expected := get_u32 b 40 in
    if negb (crc32c (get b 0 40) =? expected) then None
    else Some (mk_commit (get_u64 b 8) (get_u64 b 16) (get_u32 b 24) (get_u8 b 28) (get_u64 b 32) expected).

Definition write_superblock (i : Z) (r : CowRoot) : io (result unit CowError) :=
  store i (encode_root block_zero r).

Definition read_superblock (i : Z) : io (result (option CowRoot) CowError) :=
  try! b := load i in liftr (decode_root b).

Definition write_commit (slot : Z) (c : CommitRecord) : io (result unit CowError) :=
  store (COMMIT_START + slot) (encode_commit c).

Definition read_commit (slot : Z) : io (result (option CommitRecord) CowError) :=
  try! b := load (COMMIT_START + slot) in pure (decode_commit b).

(** ** Layout *)

Definition validate_capacity (blocks : Z) : result unit CowError :=
  if (blocks <=? DATA_START + 2) || (MAX_BLOCK_COUNT <? blocks)
  then Err (if blocks <=? DATA_START + 2 then TooSmall else TooLarge)
  else Ok tt.

Definition div_ceil (a b : Z) : Z := (a + b - 1) / b.

Definition layout (blocks : Z) : result (Z * Z) CowError :=
  let bm := div_ceil blocks (BLOCK_BYTES * 8) in
  if (bm =? 0) || (COW_MAX_BITMAP_BLOCKS <? bm) then Err TooLarge
  else
    let reserved := bm * 2 in
    if blocks <? reserved then Err TooSmall
    else
      let data_end := blocks - reserved in
      if data_end <=? DATA_START + 1 then Err TooSmall else Ok (bm, data_end).

Definition validate_root (r : CowRoot) (blocks : Z) : result unit CowError :=
  if (generation r =? 0) || (2 <=? bitmap_slot r) || (bitmap_blocks r =? 0)
     || (COW_MAX_BITMAP_BLOCKS <? bitmap_blocks r)
     || negb (data_start r =? DATA_START) || (blocks <=? data_end r)
     || negb (bitmap_start r =? data_end r)
     || (metadata_root r <? data_start r) || (data_end r <=? metadata_root r)
     || (metadata_blocks r =? 0)
     || bool_decide (checked_add 64 (metadata_root r) (metadata_blocks r) = None)
     || (data_end r <? metadata_root r + metadata_blocks r)
  then Err Corrupt else Ok tt.

(** ** Bitmaps *)

Definition bitmap_position (index : Z) : nat * nat * Z :=
  (Z.to_nat (index / (BLOCK_BYTES * 8)), Z.to_nat ((index / 8) mod BLOCK_BYTES), index mod 8).

Definition bitmap_is_set (bitmap : list Block) (index : Z) : bool :=
  let '(block, byte, bit) := bitmap_position index in
  negb (Z.land (get_u8 (nth block bitmap []) byte) (Z.shiftl 1 bit) =? 0).

Definition bitmap_set (bitmap : list Block) (index : Z) (value : bool) : list Block :=
  let '(block, byte, bit) := bitmap_position index in
  let mask := Z.shiftl 1 bit in
  alter (fun b =>
    let old := get_u8 b byte in
    <[byte := if value then Z.lor old mask else Z.land old (U8_MAX - mask)]> b) block bitmap.

(** [for index in a..b { bitmap_set(bitmap, index, value) }]. *)
Definition bitmap_set_range (bitmap : list Block) (a b : Z) (value : bool) : list Block :=
  foldl (fun bm i => bitmap_set bm i value) bitmap (seqZ a (b - a)).

Definition extent_end (e : CowExtent) : Z := start e + extent_blocks e.

(** The loops over the released and the allocated extents in [commit]. *)
Definition bitmap_set_extents (bitmap : list Block) (es : list CowExtent) (value : bool) : list Block :=
  foldl (fun bm e => bitmap_set_range bm (start e) (extent_end e) value) bitmap es.

Definition initialize_bitmap (bitmap : list Block) (r : CowRoot) (total : Z) : list Block :=
  let bm := bitmap_set_range bitmap 0 DATA_START true in
  let bm := bitmap_set_range bm (data_end r) total true in
  bitmap_set bm (metadata_root r) true.

Definition bitmap_zero : list Block := replicate (Z.to_nat COW_MAX_BITMAP_BLOCKS) block_zero.

(** Read [n] consecutive blocks into the head of [output]. *)
Fixpoint read_into (i : Z) (n : nat) (output : list Block) : io (result (list Block) CowError) :=
  match n, output with
  | O, _ => pure output
  | S n, o :: output =>
      try! b := load i in
      try! rest := read_into (i + 1) n output in pure (b :: rest)
  | S _, [] => pure []
  end.

Definition read_bitmap (r : CowRoot) (output : list Block) : io (result (list Block) CowError) :=
  read_into (bitmap_start r + bitmap_blocks r * bitmap_slot r) (Z.to_nat (bitmap_blocks r)) output.

Fixpoint write_from (i : Z) (n : nat) (bs : list Block) : io (result unit CowError) :=
  match n, bs with
  | S n, b :: bs => do! store i b in write_from (i + 1) n bs
  | _, _ => pure tt
  end.

Definition write_bitmap (r : CowRoot) (bitmap : list Block) : io (result unit CowError) :=
  write_from (data_end r + bitmap_blocks r * bitmap_slot r) (Z.to_nat (bitmap_blocks r)) bitmap.

(** ** Verification *)

Fixpoint verify_attempts (n : nat) (i : Z) (expected : Block) : io (result unit CowError) :=
  match n with
  | O => fail (CBlock Io)
  | S n =>
      try! actual := load_uncached i in
      if bool_decide (actual = expected) then pure tt
      else match n with
      | O => fail (CBlock Io)
      | S _ => do! store i expected in do! sync in verify_attempts n i expected
      end
  end.

Definition verify_block (i : Z) (expected : Block) : io (result unit CowError) :=
  verify_attempts WRITE_VERIFY_ATTEMPTS i expected.

Definition verify_cached_block (i : Z) : io (result unit CowError) :=
  try! expected := load i in verify_block i expected.

Fixpoint verify_each (l : list Z) : io (result unit CowError) :=
  match l with
  | [] => pure tt
  | i :: l => do! verify_cached_block i in verify_each l
  end.

Definition verify_extent (e : CowExtent) : io (result unit CowError) :=
  verify_each ((fun off => start e + off) <$> seqZ 0 (extent_blocks e)).

Fixpoint verify_from (i : Z) (n : nat) (bs : list Block) : io (result unit CowError) :=
  match n, bs with
  | S n, b :: bs => do! verify_block i b in verify_from (i + 1) n bs
  | _, _ => pure tt
  end.

Definition verify_bitmap (r : CowRoot) (expected : list Block) : io (result unit CowError) :=
  verify_from (bitmap_start r + bitmap_blocks r * bitmap_slot r) (Z.to_nat (bitmap_blocks r)) expected.

(** ** Transactions *)

Definition with_allocated (t : CowTransaction) (l : list CowExtent) : CowTransaction :=
  mk_transaction (t_root t) (t_bitmap_slot t) (retired t) l (released t).
Definition with_retired (t : CowTransaction) (l : list CowExtent) : CowTransaction :=
  mk_transaction (t_root t) (t_bitmap_slot t) l (allocated t) (released t).
Definition with_released (t : CowTransaction) (l : list CowExtent) : CowTransaction :=
  mk_transaction (t_root t) (t_bitmap_slot t) (retired t) (allocated t) l.

Definition covers (e : CowExtent) (i : Z) : bool := (start e <=? i) && (i <? extent_end e).

(** The scan of [allocate_blocks_in_arena]: the start of the first run of
    [blocks] usable indices. *)
Fixpoint scan (bitmap : list Block) (t : CowTransaction) (blocks : Z) (indices : list Z)
    (run_start : option Z) (run_length : Z) : option Z :=
  match indices with
  | [] => None
  | i :: indices =>
      if existsb (fun e => covers e i) (released t) then scan bitmap t blocks indices None 0
      else if negb (bitmap_is_set bitmap i) then
        if existsb (fun e => covers e i) (allocated t) then scan bitmap t blocks indices None 0
        else
          let s := default i run_start in
          if run_length + 1 =? blocks then Some s
          else scan bitmap t blocks indices (Some s) (run_length + 1)
      else scan bitmap t blocks indices None 0
  end.

Definition allocate_blocks_in_arena (t : CowTransaction) (blocks : Z) (arena : Z * Z) :
    io (result (CowTransaction * CowExtent) CowError) :=
  if blocks =? 0 then fail InvalidRequest
  else
    let '(arena_start, arena_end) := arena in
    if (arena_start <? data_start (t_root t)) || (arena_end <=? arena_start)
       || (data_end (t_root t) <? arena_end)
    then fail InvalidRequest
    else
      try! bitmap := read_bitmap (t_root t) bitmap_zero in
      match scan bitmap t blocks (seqZ arena_start (arena_end - arena_start)) None 0 with
      | None => fail OutOfSpace
      | Some s =>
          match extent_new s blocks with
          | None => fail InvalidRequest
          | Some e =>
              if Z.of_nat (length (allocated t)) =? COW_MAX_TRANSACTION_EXTENTS
              then fail RetiredExtentCapacity
              else pure (with_allocated t (allocated t ++ [e]), e)
          end
      end.

Definition allocate_blocks (t : CowTransaction) (blocks : Z) :
    io (result (CowTransaction * CowExtent) CowError) :=
  allocate_blocks_in_arena t blocks (data_start (t_root t), data_end (t_root t)).

Definition write_block (t : CowTransaction) (i : Z) (b : Block) : io (result unit CowError) :=
  if (i <? data_start (t_root t)) || (data_end (t_root t) <=? i) then fail InvalidRequest
  else if negb (existsb (fun e => covers e i) (allocated t)) then fail InvalidRequest
  else store i b.

Definition reserve_extent_in_arena (t : CowTransaction) (e : CowExtent) (arena : Z * Z) :
    result CowTransaction CowError :=
  let '(arena_start, arena_end) := arena in
  if (start e <? data_start (t_root t))
     || bool_decide (checked_add 64 (start e) (extent_blocks e) = None)
     || (data_end (t_root t) <? extent_end e)
     || (arena_start <? data_start (t_root t)) || (arena_end <=? arena_start)
     || (data_end (t_root t) <? arena_end)
     || (start e <? arena_start) || (arena_end <? extent_end e)
     || (Z.of_nat (length (allocated t)) =? COW_MAX_TRANSACTION_EXTENTS)
  then Err InvalidRequest
  else Ok (with_allocated t (allocated t ++ [e])).

Definition reserve_extent (t : CowTransaction) (e : CowExtent) : result CowTransaction CowError :=
  reserve_extent_in_arena t e (data_start (t_root t), data_end (t_root t)).

Fixpoint write_extent_from (t : CowTransaction) (i : Z) (bs : list Block) : io (result unit CowError) :=
  match bs with
  | [] => pure tt
  | b :: bs => do! write_block t i b in write_extent_from t (i + 1) bs
  end.

Definition write_extent (t : CowTransaction) (e : CowExtent) (bs : list Block) :
    io (result unit CowError) :=
  if negb (Z.of_nat (length bs) =? extent_blocks e) then fail InvalidRequest
  else write_extent_from t (start e) bs.

Definition retire_extent (t : CowTransaction) (e : CowExtent) : result CowTransaction CowError :=
  if (start e <? data_start (t_root t))
     || match checked_add 64 (start e) (extent_blocks e) with
        | None => true
        | Some e_end => data_end (t_root t) <? e_end
        end
  then Err InvalidRequest
  else if Z.of_nat (length (retired t)) =? COW_MAX_RETIRED_EXTENTS then Err RetiredExtentCapacity
  else Ok (with_retired t (retired t ++ [e])).

Definition release_extent (t : CowTransaction) (e : CowExtent) : result CowTransaction CowError :=
  if Z.of_nat (length (released t)) =? COW_MAX_RETIRED_EXTENTS then Err RetiredExtentCapacity
  else Ok (with_released t (released t ++ [e])).

(** The loop of [reclaim_retired] over entries [index ..] of a retired block. *)
Fixpoint reclaim_entries (t : CowTransaction) (b : Block) (index n : nat) : result CowTransaction CowError :=
  match n with
  | O => Ok t
  | S n =>
      let offset := (8 + index * 12)%nat in
      let s := get_u64 b offset in
      let bl := get_u32 b (offset + 8) in
      match extent_new s bl with
      | None => Err Corrupt
      | Some e =>
          match checked_add 64 s bl with
          | None => Err Corrupt
          | Some e_end =>
              if (s <? data_start (t_root t)) || (data_end (t_root t) <? e_end) then Err Corrupt
              else match release_extent t e with
              | Err err => Err err
              | Ok t => reclaim_entries t b (S index) n
              end
          end
      end
  end.

Definition reclaim_block (t : CowTransaction) (b : Block) : result CowTransaction CowError :=
  if negb (bool_decide (get b 0 4 = RETIRED_MAGIC)) then Err Corrupt
  else
    let count := from_le_bytes (get b 4 2) in
    if COW_MAX_RETIRED_EXTENTS <? count then Err Corrupt
    else reclaim_entries t b 0 (Z.to_nat count).

Definition reclaim_retired (t : CowTransaction) : io (result CowTransaction CowError) :=
  if retired_root (t_root t) =? 0 then pure t
  else try! b := load (retired_root (t_root t)) in liftr (reclaim_block t b).

Fixpoint put_retired (b : Block) (index : nat) (es : list CowExtent) : Block :=
  match es with
  | [] => b
  | e :: es =>
      let offset := (8 + index * 12)%nat in
      let b := put_u64 b offset (start e) in
      let b := put_u32 b (offset + 8) (extent_blocks e) in
      put_retired b (S index) es
  end.

(** The block [write_retired] builds. *)
Definition encode_retired (es : list CowExtent) : Block :=
  let b := put block_zero 0 RETIRED_MAGIC in
  let b := put b 4 (to_le_bytes 2 (wrap 16 (Z.of_nat (length es)))) in
  put_retired b 0 es.

Definition write_retired (t : CowTransaction) : io (result (CowTransaction * Z) CowError) :=
  match retired t with
  | [] => pure (t, 0)
  | _ =>
      try! p := allocate_blocks t 1 in
      let '(t, e) := p in
      do! store (start e) (encode_retired (retired t)) in pure (t, start e)
  end.

(** ** Volumes *)

Fixpoint check_blank (l : list Z) : io (result unit CowError) :=
  match l with
  | [] => pure tt
  | i :: l => try! b := load i in if negb (all_zero b) then fail NotBlank else check_blank l
  end.

Definition format_inner (provisioned : bool) : io (result CowVolume CowError) :=
  Count (fun n =>
  try! _ := liftr (validate_capacity n) in
  try! first := load SUPERBLOCK_A in
  do! (if provisioned
       then if negb (bool_decide (get first 0 8 = COW_PROVISIONED_BLANK_MAGIC))
               || negb (all_zero (drop 8 first))
            then fail NotBlank else pure tt
       else check_blank (seqZ 0 n)) in
  try! l := liftr (layout n) in
  let '(bm, dend) := l in
  let r := mk_root 1 DATA_START 1 0 dend (wrap 16 bm) DATA_START dend 0 in
  let bitmap := initialize_bitmap bitmap_zero r n in
  do! store (metadata_root r) block_zero in
  do! write_bitmap r bitmap in
  do! sync in
  do! verify_block (metadata_root r) block_zero in
  do! verify_bitmap r bitmap in
  do! write_superblock SUPERBLOCK_A r in
  do! sync in
  do! verify_block SUPERBLOCK_A (encode_root block_zero r) in
  do! write_superblock SUPERBLOCK_B r in
  do! sync in
  do! verify_block SUPERBLOCK_B (encode_root block_zero r) in
  pure (mk_volume r 1)).

Definition format : io (result CowVolume CowError) := format_inner false.
Definition format_provisioned : io (result CowVolume CowError) := format_inner true.

(** The choice of [open] between the two superblocks. *)
Definition choose_root (a b : result (option CowRoot) CowError) : result (CowRoot * Z) CowError :=
  match a, b with
  | Ok (Some ra), Ok (Some rb) => if generation ra <? generation rb then Ok (rb, 1) else Ok (ra, 0)
  | Ok (Some ra), _ => Ok (ra, 0)
  | _, Ok (Some rb) => Ok (rb, 1)
  | Ok None, Ok None => Err Unformatted
  | Err e, Ok None => Err e
  | Ok None, Err e => Err e
  | Err e, Err _ => Err e
  end.

Definition newer (r : CowRoot) (candidate : option CommitRecord) (c : option CommitRecord) :
    option CommitRecord :=
  match c with
  | Some c => if generation r <? c_generation c then Some c else candidate
  | None => candidate
  end.

Definition roll_forward (r : CowRoot) (c : CommitRecord) : CowRoot :=
  mk_root (c_generation c) (c_metadata_root c) (c_metadata_blocks c) (c_bitmap_slot c)
    (bitmap_start r) (bitmap_blocks r) (data_start r) (data_end r) (c_retired_root c).

Definition other_superblock (active : Z) : Z := if active =? 0 then SUPERBLOCK_B else SUPERBLOCK_A.

Definition open : io (result CowVolume CowError) :=
  Count (fun n =>
  try! _ := liftr (validate_capacity n) in
  bind! a := read_superblock SUPERBLOCK_A in
  bind! b := read_superblock SUPERBLOCK_B in
  try! chosen := liftr (choose_root a b) in
  let '(r, active) := chosen in
  try! c0 := read_commit 0 in
  try! c1 := read_commit 1 in
  try! final :=
    match newer r (newer r None c0) c1 with
    | None => pure (r, active)
    | Some c =>
        let r := roll_forward r c in
        let target := other_superblock active in
        do! write_superblock target r in
        do! sync in
        do! verify_block target (encode_root block_zero r) in
        pure (r, Z.lxor active 1)
    end in
  let '(r, active) := final in
  try! _ := liftr (validate_root r n) in
  pure (mk_volume r active)).

Definition data_arena (v : CowVolume) : Z * Z := (data_start (root v), data_end (root v)).

Definition package_arena (v : CowVolume) : option (Z * Z) :=
  let s := data_start (root v) + 16 in
  if s <? data_end (root v) then Some (s, data_end (root v)) else None.

Definition read_metadata_root (v : CowVolume) : io (result Block CowError) := load (metadata_root (root v)).

Fixpoint read_each (l : list Z) : io (result (list Block) CowError) :=
  match l with
  | [] => pure []
  | i :: l => try! b := load i in try! bs := read_each l in pure (b :: bs)
  end.

(** [read_metadata] into an output of [n] blocks. *)
Definition read_metadata (v : CowVolume) (n : Z) : io (result (list Block) CowError) :=
  if negb (n =? metadata_blocks (root v)) then fail InvalidRequest
  else read_each ((fun off => metadata_root (root v) + off) <$> seqZ 0 n).

Definition read_metadata_block (v : CowVolume) (offset : Z) : io (result Block CowError) :=
  if metadata_blocks (root v) <=? offset then fail InvalidRequest
  else load (metadata_root (root v) + offset).

Definition begin (v : CowVolume) : io (result CowTransaction CowError) :=
  reclaim_retired (mk_transaction (root v) (saturating_sub 1 (bitmap_slot (root v))) [] [] []).

Definition metadata_invalid (v : CowVolume) (t : CowTransaction) (bitmap : list Block) (m : CowExtent) :
    bool :=
  negb (bool_decide (t_root t = root v))
  || (extent_blocks m =? 0)
  || (start m <? data_start (root v))
  || bool_decide (checked_add 64 (start m) (extent_blocks m) = None)
  || (data_end (root v) <? extent_end m)
  || existsb (fun i => negb (bitmap_is_set bitmap i)) (seqZ (start m) (extent_blocks m)).

Definition next_root (v : CowVolume) (t : CowTransaction) (m : CowExtent) (g rr : Z) : CowRoot :=
  mk_root g (start m) (extent_blocks m) (t_bitmap_slot t) (bitmap_start (root v))
    (bitmap_blocks (root v)) (data_start (root v)) (data_end (root v)) rr.

Definition commit_of (r : CowRoot) : CommitRecord :=
  mk_commit (generation r) (metadata_root r) (metadata_blocks r) (bitmap_slot r) (retired_root r) 0.

(** The writes of [commit] once the request has been validated. *)
Definition commit_writes (v : CowVolume) (r : CowRoot) (bitmap : list Block) (m : CowExtent) :
    io (result (CowVolume * Z) CowError) :=
  do! write_bitmap r bitmap in
  do! sync in
  do! verify_extent m in
  do! verify_bitmap r bitmap in
  let slot := generation r mod COW_COMMIT_SLOTS in
  do! write_commit slot (commit_of r) in
  do! sync in
  do! verify_block (COMMIT_START + slot) (encode_commit (commit_of r)) in
  let target := other_superblock (active_superblock v) in
  do! write_superblock target r in
  do! sync in
  do! verify_block target (encode_root block_zero r) in
  pure (mk_volume r (Z.lxor (active_superblock v) 1), generation r).

Definition commit (v : CowVolume) (t : CowTransaction) (m : CowExtent) :
    io (result (CowVolume * Z) CowError) :=
  try! t := (if negb (retired_root (root v) =? 0)
             then match extent_new (retired_root (root v)) 1 with
                  | None => fail InvalidRequest
                  | Some e => liftr (retire_extent t e)
                  end
             else pure t) in
  try! p := write_retired t in
  let '(t, rr) := p in
  try! bitmap := read_bitmap (root v) bitmap_zero in
  let bitmap := bitmap_set_extents bitmap (released t) false in
  let bitmap := bitmap_set_extents bitmap (allocated t) true in
  if metadata_invalid v t bitmap m then fail InvalidRequest
  else match checked_add 64 (generation (root v)) 1 with
  | None => fail GenerationExhausted
  | Some g => commit_writes v (next_root v t m g rr) bitmap m
  end.
