(* ===== verification/DiskLogic.v ===== *)
(** * Reasoning about crashes

    Lemmas on [exec] and [crash_during] for programs over block stores
    ([BlockStore.v]): programs that never flush ([noflush]) only widen what a
    crash may leave, programs that leave the device alone ([quiet]) can be
    skipped, and a flush separates two crash windows. *)

From Stdlib Require Import ZArith Lia.
From stdpp Require Import base list option numbers.
From S2P Require Import Prelude Bytes BlockStore.

#[local] Open Scope Z_scope.

(** ** Programs without a flush *)

Fixpoint noflush {A} (p : io A) : Prop :=
  match p with
  | Ret _ => True
  | Count k => forall n, noflush (k n)
  | Read _ k => forall r, noflush (k r)
  | ReadUncached _ k => forall r, noflush (k r)
  | Write _ _ k => forall r, noflush (k r)
  | Flush _ => False
  end.

Lemma noflush_bind {A B} (p : io A) (f : A -> io B) :
  noflush p -> (forall a, noflush (f a)) -> noflush (io_bind p f).
Proof. intros Hp Hf. induction p; simpl in *; auto. Qed.

Lemma noflush_try {A B E} (p : io (result A E)) (f : A -> io (result B E)) :
  noflush p -> (forall a, noflush (f a)) -> noflush (try_bind p f).
Proof. intros Hp Hf. apply noflush_bind; [done|]. by intros [a|e]. Qed.

(** More cached writes leave more to a crash. *)
Lemma crash_mono l ws ws' m :
  (forall w, w ∈ ws -> w ∈ ws') -> crash (mk_disk l ws) m -> crash (mk_disk l ws') m.
Proof. intros Hs [Hl Hc]. split; [done|]. intros i b E. destruct (Hc i b E); simpl in *; auto. Qed.

Lemma crash_write d i b l : crash d l -> crash (disk_write d i b).1 l.
Proof.
  intros Hc. unfold disk_write. case_bool_decide; [|done]. destruct d as [du pe].
  eapply crash_mono; [|done]. intros w Hw. apply elem_of_app. by left.
Qed.

Lemma exec_crash_mono {A} (p : io A) : noflush p -> forall d l, crash d l -> crash (exec p d).1 l.
Proof.
  induction p as [a|k IH|i k IH|i k IH|i b k IH|k IH]; intros Hp d l Hc; simpl in *; try done.
  - apply IH; auto.
  - change (read_block d i) with (disk_read d i).
    unfold disk_read. destruct (current d !! Z.to_nat i); apply IH; auto.
  - change (read_block_uncached d i) with (disk_read d i).
    unfold disk_read. destruct (current d !! Z.to_nat i); apply IH; auto.
  - change (write_block d i b) with (disk_write d i b). pose proof (crash_write d i b l Hc).
    destruct (disk_write d i b) as [d' r]. apply IH; auto.
Qed.

(** A crash inside a program that does not flush is one after it. *)
Lemma crash_noflush {A} (p : io A) :
  noflush p -> forall d l, crash_during p d l -> crash (exec p d).1 l.
Proof.
  intros Hp d l. revert d. induction p as [a|k IH|i k IH|i k IH|i b k IH|k IH]; intros d Hc.
  - destruct Hc as [Hc|[]]. done.
  - destruct Hc as [Hc|Hc]; [by apply (exec_crash_mono (Count k))|]. apply IH; [apply Hp|done].
  - destruct Hc as [Hc|Hc]; [by apply (exec_crash_mono (Read i k))|]. simpl.
    change (read_block d i) with (disk_read d i). destruct (disk_read d i) as [d' r]. apply IH; [apply Hp|done].
  - destruct Hc as [Hc|Hc]; [by apply (exec_crash_mono (ReadUncached i k))|]. simpl.
    change (read_block_uncached d i) with (disk_read d i). destruct (disk_read d i) as [d' r].
    apply IH; [apply Hp|done].
  - destruct Hc as [Hc|Hc]; [by apply (exec_crash_mono (Write i b k))|]. simpl.
    change (write_block d i b) with (disk_write d i b). destruct (disk_write d i b) as [d' r].
    apply IH; [apply Hp|done].
  - destruct Hp.
Qed.

Lemma crash_now {A} (p : io A) d l : crash d l -> crash_during p d l.
Proof. destruct p; by left. Qed.

(** ** Composition *)

Section compose.
Context {A B E : Type}.
Implicit Types (p : io (result A E)) (f : A -> io (result B E)).

Lemma exec_try_ok p f d d' a : exec p d = (d', Ok a) -> exec (try_bind p f) d = exec (f a) d'.
Proof. intros E1. by rewrite exec_try, E1. Qed.

Lemma exec_try_err p f d d' e : exec p d = (d', Err e) -> exec (try_bind p f) d = (d', Err e).
Proof. intros E1. by rewrite exec_try, E1. Qed.

Lemma crash_try_ok p f d d' a l :
  noflush p -> exec p d = (d', Ok a) -> crash_during (try_bind p f) d l -> crash_during (f a) d' l.
Proof.
  intros Hp E1 [H|H]%crash_during_try.
  - apply crash_now. apply crash_noflush in H; [|done]. by rewrite E1 in H.
  - by rewrite E1 in H.
Qed.

Lemma crash_try_err p f d d' e l :
  noflush p -> exec p d = (d', Err e) -> crash_during (try_bind p f) d l -> crash d' l.
Proof.
  intros Hp E1 [H|H]%crash_during_try.
  - apply crash_noflush in H; [|done]. by rewrite E1 in H.
  - by rewrite E1 in H.
Qed.

End compose.

(** ** Programs that leave the device as it is *)

Definition quiet {A E} (p : io (result A E)) (d : disk) (a : A) : Prop :=
  exec p d = (d, Ok a) ∧ forall l, crash_during p d l -> crash d l.

Lemma quiet_try {A B E} (p : io (result A E)) (f : A -> io (result B E)) d a b :
  quiet p d a -> quiet (f a) d b -> quiet (try_bind p f) d b.
Proof.
  intros [E1 C1] [E2 C2]. split; [by rewrite (exec_try_ok _ _ _ _ _ E1)|].
  intros l [H|H]%crash_during_try; [auto|]. rewrite E1 in H. auto.
Qed.

Lemma quiet_ret {A E} (a : A) (d : disk) : quiet (E := E) (Ret (Ok a)) d a.
Proof. split; [done|]. by intros l [H|[]]. Qed.

Lemma quiet_exec {A B E} (p : io (result A E)) (f : A -> io (result B E)) d a :
  quiet p d a -> exec (try_bind p f) d = exec (f a) d.
Proof. intros [E1 _]. by apply exec_try_ok. Qed.

Lemma quiet_crash {A B E} (p : io (result A E)) (f : A -> io (result B E)) d a l :
  quiet p d a -> crash_during (try_bind p f) d l -> crash_during (f a) d l.
Proof.
  intros [E1 C1] [H|H]%crash_during_try; [by apply crash_now, C1|]. by rewrite E1 in H.
Qed.

(** ** Crashes of a device with few cached writes *)

Lemma crash_one L i b l :
  crash (mk_disk L [(i, b)]) l -> l = L ∨ l = <[i := b]> L.
Proof.
  intros [Hl Hc]. simpl in *. assert (Ho : forall j, j ≠ i -> l !! j = L !! j).
  { intros j Hj. destruct (l !! j) as [x|] eqn:E.
    - destruct (Hc j x E) as [->|[= ? _]%list_elem_of_singleton]; done.
    - apply lookup_ge_None in E. symmetry. apply lookup_ge_None. lia. }
  destruct (l !! i) as [x|] eqn:E.
  - assert (i < length L)%nat by (apply lookup_lt_Some in E; lia).
    destruct (Hc i x E) as [Hx|[= ->]%list_elem_of_singleton].
    + left. apply list_eq. intros j. destruct (decide (j = i)) as [->|]; [by rewrite Hx|auto].
    + right. apply list_eq. intros j. destruct (decide (j = i)) as [->|].
      * by rewrite list_lookup_insert_eq.
      * rewrite list_lookup_insert_ne by done. auto.
  - left. apply list_eq. intros j. destruct (decide (j = i)) as [->|]; [|auto].
    rewrite E. apply lookup_ge_None in E. symmetry. apply lookup_ge_None. lia.
Qed.

(** Blocks without a cached write survive. *)
Lemma crash_untouched d l i :
  crash d l -> (forall b, (i, b) ∉ pending d) -> l !! i = durable d !! i.
Proof.
  intros [Hl Hc] Hi. destruct (l !! i) as [x|] eqn:E.
  - destruct (Hc i x E) as [H|H]; [done|]. by destruct (Hi x).
  - apply lookup_ge_None in E. symmetry. apply lookup_ge_None. lia.
Qed.

Lemma current_untouched d i : (forall b, (i, b) ∉ pending d) -> current d !! i = durable d !! i.
Proof. apply apply_writes_other. Qed.

(** ** Triples

    [safe P p d d' a]: [p] runs from [d] to [d'] with result [a], and whatever
    a crash during the run leaves satisfies [P]. *)

Definition crashes_in (P : list Block -> Prop) (d : disk) : Prop := forall l, crash d l -> P l.

Definition safe {A E} (P : list Block -> Prop) (p : io (result A E)) (d d' : disk) (a : A) : Prop :=
  exec p d = (d', Ok a) ∧ forall l, crash_during p d l -> P l.

Lemma safe_try {A B E} P (p : io (result A E)) (f : A -> io (result B E)) d d1 d2 a b :
  safe P p d d1 a -> safe P (f a) d1 d2 b -> safe P (try_bind p f) d d2 b.
Proof.
  intros [E1 C1] [E2 C2]. split; [by rewrite (exec_try_ok _ _ _ _ _ E1)|].
  intros l [H|H]%crash_during_try; [auto|]. rewrite E1 in H. auto.
Qed.

Lemma safe_ret {A E} P d (a : A) : crashes_in P d -> safe (E := E) P (Ret (Ok a)) d d a.
Proof. intros H. split; [done|]. intros l [Hc|[]]. auto. Qed.

Lemma safe_quiet {A E} P (p : io (result A E)) d a : quiet p d a -> crashes_in P d -> safe P p d d a.
Proof. intros [E1 C1] H. split; [done|]. auto. Qed.

Lemma safe_noflush {A E} P (p : io (result A E)) d d' a :
  noflush p -> exec p d = (d', Ok a) -> crashes_in P d' -> safe P p d d' a.
Proof. intros Hp E1 H. split; [done|]. intros l Hc%crash_noflush; [|done]. rewrite E1 in Hc. auto. Qed.

Lemma safe_mono {A E} (P Q : list Block -> Prop) (p : io (result A E)) d d' a :
  (forall l, P l -> Q l) -> safe P p d d' a -> safe Q p d d' a.
Proof. intros H [E1 C1]. split; auto. Qed.

Lemma crashes_in_reboot P L : P L -> crashes_in P (reboot L).
Proof. intros H l Hc. apply (crash_current (reboot L)) in Hc; [|done]. by rewrite Hc. Qed.

Lemma crashes_in_one (P : list Block -> Prop) L i b :
  P L -> P (<[i := b]> L) -> crashes_in P (mk_disk L [(i, b)]).
Proof. intros H1 H2 l [->| ->]%crash_one; done. Qed.

Lemma safe_count {A E} P (k : Z -> io (result A E)) d d' a :
  crashes_in P d -> safe P (k (Z.of_nat (length (durable d)))) d d' a -> safe P (Count k) d d' a.
Proof. intros Hd [E1 C1]. split; [done|]. intros l [H|H]; [by apply Hd|by apply C1]. Qed.

(** [wp P p d Q]: the run of [p] from [d], failing or not, ends in [Q], and
    whatever a crash during the run leaves satisfies [P]. *)
Definition wp {A} (P : list Block -> Prop) (p : io A) (d : disk) (Q : disk -> A -> Prop) : Prop :=
  Q (exec p d).1 (exec p d).2 ∧ forall l, crash_during p d l -> P l.

Lemma crash_final {A} (p : io A) : forall d l, crash (exec p d).1 l -> crash_during p d l.
Proof.
  induction p as [a|k IH|i k IH|i k IH|i b k IH|k IH]; intros d l Hc.
  - by left.
  - right. by apply IH.
  - right. simpl in Hc. change (read_block d i) with (disk_read d i) in Hc.
    destruct (disk_read d i) as [d' x]. by apply IH.
  - right. simpl in Hc. change (read_block_uncached d i) with (disk_read d i) in Hc.
    destruct (disk_read d i) as [d' x]. by apply IH.
  - right. simpl in Hc. change (write_block d i b) with (disk_write d i b) in Hc.
    destruct (disk_write d i b) as [d' x]. by apply IH.
  - right. simpl in Hc. by apply IH.
Qed.

Lemma crash_during_bind_r {A B} (p : io A) (f : A -> io B) : forall d l,
  crash_during (f (exec p d).2) (exec p d).1 l -> crash_during (io_bind p f) d l.
Proof.
  induction p as [a|k IH|i k IH|i k IH|i b k IH|k IH]; intros d l Hc; [done|right..].
  - by apply IH.
  - simpl in Hc. change (read_block d i) with (disk_read d i) in Hc. destruct (disk_read d i). by apply IH.
  - simpl in Hc. change (read_block_uncached d i) with (disk_read d i) in Hc. destruct (disk_read d i). by apply IH.
  - simpl in Hc. change (write_block d i b) with (disk_write d i b) in Hc. destruct (disk_write d i b). by apply IH.
  - simpl in Hc. by apply IH.
Qed.

(** A crash in what follows a successful step is a crash of the whole. *)
Lemma crash_during_try_ok {A B E} (p : io (result A E)) (f : A -> io (result B E)) d d' a l :
  exec p d = (d', Ok a) -> crash_during (f a) d' l -> crash_during (try_bind p f) d l.
Proof. intros E1 Hc. apply crash_during_bind_r. by rewrite E1. Qed.

Lemma wp_try {A B E} P (p : io (result A E)) (f : A -> io (result B E)) d Q :
  wp P p d (fun d1 res => match res with Ok a => wp P (f a) d1 Q | Err e => Q d1 (Err e) end) ->
  wp P (try_bind p f) d Q.
Proof.
  intros [HQ HP]. split.
  - rewrite exec_try. destruct (exec p d) as [d1 [a|e]]; [apply HQ|done].
  - intros l [H|H]%crash_during_try; [auto|]. specialize (HP l). pose proof (crash_final p d l) as Hf.
    destruct (exec p d) as [d1 [a|e]]; [by apply HQ|auto].
Qed.

Lemma wp_noflush {A} P (p : io A) d (Q : disk -> A -> Prop) :
  noflush p -> crashes_in P (exec p d).1 -> Q (exec p d).1 (exec p d).2 -> wp P p d Q.
Proof. intros Hp Hc HQ. split; [done|]. intros l Hl%crash_noflush; auto. Qed.

Lemma wp_ret {A} P (a : A) d (Q : disk -> A -> Prop) : crashes_in P d -> Q d a -> wp P (Ret a) d Q.
Proof. intros Hc HQ. by apply wp_noflush. Qed.

Lemma wp_safe {A E} P (p : io (result A E)) d d' a (Q : disk -> result A E -> Prop) :
  safe P p d d' a -> Q d' (Ok a) -> wp P p d Q.
Proof. intros [E1 C1] HQ. split; [by rewrite E1|done]. Qed.

Lemma wp_quiet {A E} P (p : io (result A E)) d a (Q : disk -> result A E -> Prop) :
  quiet p d a -> crashes_in P d -> Q d (Ok a) -> wp P p d Q.
Proof. intros Hq Hc. apply wp_safe. by apply safe_quiet. Qed.

Lemma apply_writes_lookup L ws i b :
  apply_writes L ws !! i = Some b -> L !! i = Some b ∨ (i, b) ∈ ws.
Proof.
  revert L. induction ws as [|[j x] ws IH]; intros L E; [by left|].
  destruct (IH (<[j := x]> L) E) as [H|H]; [|right; by right].
  apply list_lookup_insert_Some in H as [(-> & -> & _)|[_ H]]; [right; by left|by left].
Qed.

(** Losing nothing is one of the outcomes of a crash. *)
Lemma crash_keeps d : crash d (current d).
Proof. split; [apply length_current|]. intros i b. apply apply_writes_lookup. Qed.

(** ** Single accesses

    A format wraps the answer of an access in its own error type; [g] below is
    that wrapper. *)

Definition written (d : disk) (i : Z) (b : Block) : disk :=
  mk_disk (durable d) (pending d ++ [(Z.to_nat i, b)]).

Lemma current_written d i b : current (written d i b) = <[Z.to_nat i := b]> (current d).
Proof. unfold current, written. simpl. by rewrite apply_writes_app. Qed.

Lemma crash_reboot L l : crash (reboot L) l -> l = L.
Proof. by apply (crash_current (reboot L)). Qed.

Lemma quiet_read {A E} (g : result Block BlockError -> result A E) d i b a :
  current d !! Z.to_nat i = Some b -> g (Ok b) = Ok a -> quiet (Read i (fun r => Ret (g r))) d a.
Proof.
  intros E1 E2. split; [simpl; rewrite (disk_read_Some d i b E1); simpl; by rewrite E2|].
  intros l [H|H]; [done|]. rewrite (disk_read_Some d i b E1) in H. by destruct H.
Qed.

Lemma exec_write {A} (g : result unit BlockError -> A) d i b :
  (Z.to_nat i < length (durable d))%nat -> exec (Write i b (fun r => Ret (g r))) d = (written d i b, g (Ok tt)).
Proof. intros Hi. simpl. by rewrite (proj1 (disk_write_ok d i b Hi)). Qed.

Lemma safe_write {E} P (g : result unit BlockError -> result unit E) d i b :
  g (Ok tt) = Ok tt -> (Z.to_nat i < length (durable d))%nat -> crashes_in P (written d i b) ->
  safe P (Write i b (fun r => Ret (g r))) d (written d i b) tt.
Proof. intros Hg Hi Hc. apply safe_noflush; [done|by rewrite exec_write, Hg|done]. Qed.

Lemma safe_flush {E} P (g : result unit BlockError -> result unit E) d :
  g (Ok tt) = Ok tt -> crashes_in P d -> P (current d) ->
  safe P (Flush (fun r => Ret (g r))) d (reboot (current d)) tt.
Proof.
  intros Hg Hc HP. split; [simpl; by rewrite Hg|]. intros l [H|[H|[]]]; [by apply Hc|].
  by apply crash_reboot in H as ->.
Qed.

(** ** Runs of writes to consecutive blocks *)

Definition run_writes (a : nat) (bs : list Block) : list (nat * Block) :=
  imap (fun k b => ((a + k)%nat, b)) bs.

Lemma elem_of_run_writes a bs i b :
  (i, b) ∈ run_writes a bs <-> (a <= i)%nat ∧ bs !! (i - a)%nat = Some b.
Proof.
  unfold run_writes. rewrite elem_of_lookup_imap. split.
  - intros (k & x & [= -> ->] & E). split; [lia|]. by replace (a + k - a)%nat with k by lia.
  - intros [Ha E]. exists (i - a)%nat, b. split; [f_equal; lia|done].
Qed.

Lemma run_writes_snoc a bs b : run_writes a (bs ++ [b]) = run_writes a bs ++ [((a + length bs)%nat, b)].
Proof. unfold run_writes. rewrite imap_app. simpl. by rewrite Nat.add_0_r. Qed.

Lemma lookup_run_writes L a bs i :
  (a + length bs <= length L)%nat ->
  apply_writes L (run_writes a bs) !! i =
  if decide (a <= i < a + length bs)%nat then bs !! (i - a)%nat else L !! i.
Proof.
  induction bs as [|b bs IH] using rev_ind; intros Hl.
  - simpl. case_decide; [lia|done].
  - rewrite length_app in *. simpl in *. rewrite run_writes_snoc, apply_writes_app.
    change (apply_writes (apply_writes L (run_writes a bs)) [((a + length bs)%nat, b)])
      with (<[(a + length bs)%nat := b]> (apply_writes L (run_writes a bs))).
    destruct (decide (i = a + length bs)%nat) as [->|Hi].
    + rewrite list_lookup_insert_eq by (rewrite length_apply_writes; lia). rewrite decide_True by lia.
      rewrite lookup_app_r by lia. by replace (a + length bs - a - length bs)%nat with 0%nat by lia.
    + rewrite list_lookup_insert_ne by done. rewrite IH by lia.
      destruct (decide (a <= i < a + length bs)%nat).
      * rewrite decide_True by lia. by rewrite lookup_app_l by lia.
      * by rewrite decide_False by lia.
Qed.
