(* ===== verification/CowCodec.v ===== *)
(** * Encodings of the copy-on-write volume

    Round trips of the on-disk records of [src/storage/src/cow.rs]: the
    superblock root, the commit record and the list of retired extents. *)

From Stdlib Require Import ZArith Lia.
From stdpp Require Import base list option numbers.
From S2P Require Import Prelude Bytes BlockStore Cow.

#[local] Open Scope Z_scope.

(** Fields within their machine widths. *)
Record root_fits (r : CowRoot) : Prop := {
  rf_generation : fits 64 (generation r);
  rf_metadata_root : fits 64 (metadata_root r);
  rf_metadata_blocks : fits 32 (metadata_blocks r);
  rf_bitmap_slot : fits 8 (bitmap_slot r);
  rf_bitmap_start : fits 64 (bitmap_start r);
  rf_bitmap_blocks : fits 16 (bitmap_blocks r);
  rf_data_start : fits 64 (data_start r);
  rf_data_end : fits 64 (data_end r);
  rf_retired_root : fits 64 (retired_root r)
}.

Definition root_fields (r : CowRoot) : list (nat * list Z) :=
  [(0, COW_SUPERBLOCK_MAGIC); (8, to_le_bytes 2 COW_FORMAT_VERSION);
   (16, to_le_bytes 8 (generation r)); (24, to_le_bytes 8 (metadata_root r)); (32, [bitmap_slot r]);
   (40, to_le_bytes 8 (bitmap_start r)); (48, to_le_bytes 2 (bitmap_blocks r));
   (56, to_le_bytes 8 (data_start r)); (64, to_le_bytes 8 (data_end r));
   (72, to_le_bytes 8 (retired_root r)); (80, to_le_bytes 4 (metadata_blocks r));
   (92, to_le_bytes 4 0)]%nat.

(** The checksum field lies outside the bytes it covers. *)
Lemma put_checksum b n x :
  length b = Z.to_nat 4096 -> (n <= 92)%nat -> get (put_u32 b n x) 0 n = get b 0 n.
Proof. intros Hl Hn. unfold put_u32. by rewrite get_put_other by (rewrite length_le; lia). Qed.

Lemma put_checksum_twice b n x y :
  length b = Z.to_nat 4096 -> (n <= 92)%nat -> get (put_u32 (put_u32 b n x) n y) 0 n = get b 0 n.
Proof.
  intros Hl Hn. rewrite put_checksum; [by apply put_checksum| |done].
  unfold put_u32. by rewrite length_put by (rewrite length_le; lia).
Qed.

Section root_codec.
Variable r : CowRoot.
Hypothesis Hr : root_fits r.

Let pre : Block := puts block_zero (root_fields r).
Let crc : Z := crc32c (get pre 0 CHECKSUM_OFFSET).

Let fields : list (nat * list Z) := root_fields r ++ [(92%nat, to_le_bytes 4 crc)].

Lemma encode_root_puts : encode_root block_zero r = puts block_zero fields.
Proof. reflexivity. Qed.

Lemma root_in_bounds : in_bounds (Z.to_nat 4096) fields = true.
Proof. by vm_compute. Qed.

Lemma pre_ok : Forall byte_ok pre.
Proof.
  apply puts_ok; [apply block_zero_ok|]. unfold root_fields.
  repeat match goal with
  | |- Forall (fun w => Forall byte_ok w.2) [] => apply Forall_nil_2
  | |- Forall (fun w => Forall byte_ok w.2) (_ :: _) => apply Forall_cons_2
  end; cbn [snd]; try apply to_le_bytes_ok.
  - by repeat constructor.
  - apply Forall_cons_2; [apply Hr|done].
Qed.

Lemma crc_fits : fits 32 crc.
Proof. apply crc32c_fits, Forall_take, Forall_drop, pre_ok. Qed.

Lemma root_field k off v n :
  fields !! k = Some (off, v) -> clear_of off n (drop (S k) fields) = true -> n = length v ->
  get (encode_root block_zero r) off n = v.
Proof. intros. rewrite encode_root_puts. apply (field_at fields k); auto using root_in_bounds. Qed.

Lemma root_u64 k off v :
  fields !! k = Some (off, to_le_bytes 8 v) -> clear_of off 8 (drop (S k) fields) = true -> fits 64 v ->
  get_u64 (encode_root block_zero r) off = v.
Proof.
  intros E Hc Hv. unfold get_u64. rewrite (root_field k off _ 8 E Hc) by done. by apply from_to_le_fits.
Qed.

Lemma checksum_covers :
  crc32c (get (put_u32 (encode_root block_zero r) CHECKSUM_OFFSET 0) 0 CHECKSUM_OFFSET) = crc.
Proof.
  assert (Hl : length pre = Z.to_nat 4096).
  { unfold pre. rewrite length_puts; rewrite length_block_zero; by vm_compute. }
  change (encode_root block_zero r) with (put_u32 pre CHECKSUM_OFFSET crc).
  by rewrite put_checksum_twice.
Qed.

Lemma decode_encode_root : decode_root (encode_root block_zero r) = Ok (Some r).
Proof.
  unfold decode_root. change CHECKSUM_OFFSET with 92%nat. destruct Hr.
  assert (Hm : get (encode_root block_zero r) 0 8 = COW_SUPERBLOCK_MAGIC) by (by apply (root_field 0)).
  rewrite (all_zero_head _ _ _ _ Hm) by done. rewrite bool_decide_eq_true_2 by done. cbn [negb].
  assert (Hv : get (encode_root block_zero r) 8 2 = to_le_bytes 2 COW_FORMAT_VERSION)
    by (by apply (root_field 1)).
  rewrite Hv. change (from_le_bytes (to_le_bytes 2 COW_FORMAT_VERSION) =? COW_FORMAT_VERSION) with true.
  cbn [negb]. cbv zeta. pose proof checksum_covers as Hcov. change CHECKSUM_OFFSET with 92%nat in Hcov.
  rewrite Hcov.
  assert (Hc : get_u32 (encode_root block_zero r) 92 = crc).
  { unfold get_u32. rewrite (root_field 12 92 (to_le_bytes 4 crc) 4) by done.
    apply from_to_le_fits, crc_fits. }
  rewrite Hc, Z.eqb_refl. cbn [negb]. do 2 f_equal.
  assert (H32 : get_u32 (encode_root block_zero r) 80 = metadata_blocks r).
  { unfold get_u32. rewrite (root_field 10 80 (to_le_bytes 4 (metadata_blocks r)) 4) by done.
    by apply from_to_le_fits. }
  assert (H16 : get_u16 (encode_root block_zero r) 48 = bitmap_blocks r).
  { unfold get_u16. rewrite (root_field 6 48 (to_le_bytes 2 (bitmap_blocks r)) 2) by done.
    by apply from_to_le_fits. }
  assert (H8 : get_u8 (encode_root block_zero r) 32 = bitmap_slot r).
  { assert (Hg : get (encode_root block_zero r) 32 1 = [bitmap_slot r]) by (by apply (root_field 4)).
    rewrite get_u8_get in Hg; [by apply singleton_inj|].
    rewrite encode_root_puts, length_puts; rewrite length_block_zero; [lia|apply root_in_bounds]. }
  rewrite H32, H16, H8, (root_u64 2 16 (generation r)), (root_u64 3 24 (metadata_root r)),
    (root_u64 5 40 (bitmap_start r)), (root_u64 7 56 (data_start r)), (root_u64 8 64 (data_end r)),
    (root_u64 9 72 (retired_root r)) by done.
  by destruct r.
Qed.
End root_codec.

Lemma decode_root_zero b : all_zero b = true -> decode_root b = Ok None.
Proof. intros E. unfold decode_root. by rewrite E. Qed.

Lemma decode_commit_zero b : all_zero b = true -> decode_commit b = None.
Proof. intros E. unfold decode_commit. by rewrite E. Qed.

(** ** Commit records *)

Record commit_fits (c : CommitRecord) : Prop := {
  cf_generation : fits 64 (c_generation c);
  cf_metadata_root : fits 64 (c_metadata_root c);
  cf_metadata_blocks : fits 32 (c_metadata_blocks c);
  cf_bitmap_slot : fits 8 (c_bitmap_slot c);
  cf_retired_root : fits 64 (c_retired_root c)
}.

Definition commit_fields (c : CommitRecord) : list (nat * list Z) :=
  [(0, COMMIT_MAGIC); (8, to_le_bytes 8 (c_generation c)); (16, to_le_bytes 8 (c_metadata_root c));
   (24, to_le_bytes 4 (c_metadata_blocks c)); (28, [c_bitmap_slot c]);
   (32, to_le_bytes 8 (c_retired_root c)); (40, to_le_bytes 4 0)]%nat.

Section commit_codec.
Variable c : CommitRecord.
Hypothesis Hc : commit_fits c.

Let pre : Block := puts block_zero (commit_fields c).
Let crc : Z := crc32c (get pre 0 40).
Let fields : list (nat * list Z) := commit_fields c ++ [(40%nat, to_le_bytes 4 crc)].

Lemma encode_commit_puts : encode_commit c = puts block_zero fields.
Proof. reflexivity. Qed.

Lemma commit_in_bounds : in_bounds (Z.to_nat 4096) fields = true.
Proof. by vm_compute. Qed.

Lemma commit_field k off v n :
  fields !! k = Some (off, v) -> clear_of off n (drop (S k) fields) = true -> n = length v ->
  get (encode_commit c) off n = v.
Proof. intros. rewrite encode_commit_puts. apply (field_at fields k); auto using commit_in_bounds. Qed.

Lemma commit_crc_fits : fits 32 crc.
Proof.
  apply crc32c_fits, Forall_take, Forall_drop, puts_ok; [apply block_zero_ok|]. unfold commit_fields.
  repeat match goal with
  | |- Forall (fun w => Forall byte_ok w.2) [] => apply Forall_nil_2
  | |- Forall (fun w => Forall byte_ok w.2) (_ :: _) => apply Forall_cons_2
  end; cbn [snd]; try apply to_le_bytes_ok.
  - by repeat constructor.
  - apply Forall_cons_2; [apply Hc|done].
Qed.

Lemma commit_u64 k off v :
  fields !! k = Some (off, to_le_bytes 8 v) -> clear_of off 8 (drop (S k) fields) = true -> fits 64 v ->
  get_u64 (encode_commit c) off = v.
Proof.
  intros E Hd Hv. unfold get_u64. rewrite (commit_field k off _ 8 E Hd) by done. by apply from_to_le_fits.
Qed.

Lemma commit_checksum_covers : crc32c (get (encode_commit c) 0 40) = crc.
Proof.
  assert (Hl : length pre = Z.to_nat 4096).
  { unfold pre. rewrite length_puts; rewrite length_block_zero; by vm_compute. }
  change (encode_commit c) with (put_u32 pre 40 crc).
  rewrite put_checksum; [done|done|lia].
Qed.

Lemma decode_encode_commit :
  decode_commit (encode_commit c) =
  Some (mk_commit (c_generation c) (c_metadata_root c) (c_metadata_blocks c) (c_bitmap_slot c)
          (c_retired_root c) crc).
Proof.
  unfold decode_commit. destruct Hc.
  assert (Hm : get (encode_commit c) 0 4 = COMMIT_MAGIC) by (by apply (commit_field 0)).
  rewrite (all_zero_head _ _ _ _ Hm) by done. rewrite bool_decide_eq_true_2 by done. cbn [negb].
  cbv zeta. rewrite commit_checksum_covers.
  assert (Hk : get_u32 (encode_commit c) 40 = crc).
  { unfold get_u32. rewrite (commit_field 7 40 (to_le_bytes 4 crc) 4) by done.
    apply from_to_le_fits, commit_crc_fits. }
  rewrite Hk, Z.eqb_refl. cbn [negb]. f_equal.
  assert (H32 : get_u32 (encode_commit c) 24 = c_metadata_blocks c).
  { unfold get_u32. rewrite (commit_field 3 24 (to_le_bytes 4 (c_metadata_blocks c)) 4) by done.
    by apply from_to_le_fits. }
  assert (H8 : get_u8 (encode_commit c) 28 = c_bitmap_slot c).
  { assert (Hg : get (encode_commit c) 28 1 = [c_bitmap_slot c]) by (by apply (commit_field 4)).
    rewrite get_u8_get in Hg; [by apply singleton_inj|].
    rewrite encode_commit_puts, length_puts; rewrite length_block_zero; [lia|apply commit_in_bounds]. }
  by rewrite H32, H8, (commit_u64 1 8 (c_generation c)), (commit_u64 2 16 (c_metadata_root c)),
    (commit_u64 5 32 (c_retired_root c)) by done.
Qed.
End commit_codec.

(** ** Retired extents *)

Definition extent_fits (r : CowRoot) (e : CowExtent) : Prop :=
  fits 64 (start e) ∧ 0 < extent_blocks e < 2 ^ 32 ∧
  data_start r <= start e ∧ extent_end e <= data_end r.

Lemma length_put_retired es : forall b i,
  (8 + (i + length es) * 12 <= length b)%nat -> length (put_retired b i es) = length b.
Proof.
  induction es as [|e es IH]; intros b i Hb; [done|]. cbn [put_retired length] in *.
  rewrite IH; unfold put_u32, put_u64; rewrite !length_put; rewrite ?length_put; rewrite ?length_le; lia.
Qed.

(** Later entries do not touch what comes before them. *)
Lemma put_retired_before es : forall b i off n,
  (8 + (i + length es) * 12 <= length b)%nat -> (off + n <= 8 + i * 12)%nat ->
  get (put_retired b i es) off n = get b off n.
Proof.
  induction es as [|e es IH]; intros b i off n Hb Hn; [done|]. cbn [put_retired length] in *.
  unfold put_u32, put_u64. rewrite IH by (rewrite ?length_put; rewrite ?length_put; rewrite ?length_le; lia).
  by rewrite !get_put_other by (rewrite ?length_put; rewrite ?length_le; lia).
Qed.

Lemma put_retired_entry es : forall b i k e,
  (8 + (i + length es) * 12 <= length b)%nat -> es !! k = Some e ->
  fits 64 (start e) -> fits 32 (extent_blocks e) ->
  get_u64 (put_retired b i es) (8 + (i + k) * 12) = start e ∧
  get_u32 (put_retired b i es) (8 + (i + k) * 12 + 8) = extent_blocks e.
Proof.
  induction es as [|e0 es IH]; intros b i k e Hb Hk Hs He; [done|]. cbn [put_retired length] in *.
  set (b' := put_u32 (put_u64 b _ _) _ _).
  assert (Hl : length b' = length b)
    by (unfold b', put_u32, put_u64; rewrite !length_put; rewrite ?length_put; rewrite ?length_le; lia).
  destruct k as [|k]; simpl in Hk.
  - injection Hk as ->. rewrite Nat.add_0_r. unfold get_u64, get_u32.
    rewrite !put_retired_before by lia. unfold b', put_u32, put_u64. split.
    + rewrite get_put_other by (rewrite ?length_put; rewrite ?length_le; lia).
      rewrite get_put_same by (rewrite ?length_le; lia). by apply from_to_le_fits.
    + rewrite get_put_same by (rewrite ?length_put; rewrite ?length_le; lia). by apply from_to_le_fits.
  - replace (i + S k)%nat with (S i + k)%nat by lia. apply IH; [lia|done..].
Qed.

Lemma reclaim_entries_spec es : forall t b i,
  Forall (extent_fits (t_root t)) es -> fits 64 (data_end (t_root t)) ->
  Z.of_nat (length (released t)) + Z.of_nat (length es) <= COW_MAX_RETIRED_EXTENTS ->
  (forall k e, es !! k = Some e -> get_u64 b (8 + (i + k) * 12) = start e ∧
     get_u32 b (8 + (i + k) * 12 + 8) = extent_blocks e) ->
  reclaim_entries t b i (length es) = Ok (with_released t (released t ++ es)).
Proof.
  induction es as [|e es IH]; intros t b i Hf Hd Hl Hb.
  { rewrite app_nil_r. by destruct t. }
  apply Forall_cons_1 in Hf as [(Hs & Hbl & Ha & He) Hf]. cbn [reclaim_entries length] in *.
  destruct (Hb 0%nat e eq_refl) as [H1 H2]. rewrite Nat.add_0_r in H1, H2. rewrite H1, H2.
  unfold extent_new. destruct (Z.eqb_spec (extent_blocks e) 0); [lia|].
  unfold extent_end, fits in *. unfold checked_add.
  destruct (Z.ltb_spec (start e + extent_blocks e) (2 ^ 64)); [|lia].
  destruct (Z.ltb_spec (start e) (data_start (t_root t))); [lia|].
  destruct (Z.ltb_spec (data_end (t_root t)) (start e + extent_blocks e)); [lia|]. cbn [orb].
  unfold release_extent.
  destruct (Z.eqb_spec (Z.of_nat (length (released t))) COW_MAX_RETIRED_EXTENTS); [lia|].
  destruct e as [s bl]. cbn [start extent_blocks] in *. rewrite IH; cbn [released with_released t_root].
  - by rewrite <- app_assoc.
  - done.
  - done.
  - rewrite length_app. cbn [length]. lia.
  - intros k e' Hk. replace (S i + k)%nat with (i + S k)%nat by lia. by apply Hb.
Qed.

(** The header of a retired block, and where its entries are. *)
Lemma encode_retired_layout t es :
  Z.of_nat (length es) <= COW_MAX_RETIRED_EXTENTS ->
  reclaim_block t (encode_retired es) = reclaim_entries t (encode_retired es) 0 (length es) ∧
  forall k e, es !! k = Some e -> fits 64 (start e) -> fits 32 (extent_blocks e) ->
    get_u64 (encode_retired es) (8 + (0 + k) * 12) = start e ∧
    get_u32 (encode_retired es) (8 + (0 + k) * 12 + 8) = extent_blocks e.
Proof.
  unfold COW_MAX_RETIRED_EXTENTS. intros Hl. unfold reclaim_block, encode_retired.
  set (b0 := put block_zero 0 RETIRED_MAGIC).
  set (b1 := put b0 4 (to_le_bytes 2 (wrap 16 (Z.of_nat (length es))))).
  assert (Hl0 : length b0 = Z.to_nat 4096)
    by (unfold b0; rewrite length_put; rewrite length_block_zero; cbn [length RETIRED_MAGIC]; lia).
  assert (Hl1 : length b1 = Z.to_nat 4096)
    by (unfold b1; rewrite length_put; rewrite ?length_le; lia).
  assert (Hm : get (put_retired b1 0 es) 0 4 = RETIRED_MAGIC).
  { rewrite put_retired_before by lia. unfold b1. rewrite get_put_other by (rewrite ?length_le; lia).
    unfold b0. apply get_put_same; [rewrite length_block_zero; cbn [length RETIRED_MAGIC]; lia|done]. }
  assert (Hn : get (put_retired b1 0 es) 4 2 = to_le_bytes 2 (wrap 16 (Z.of_nat (length es)))).
  { rewrite put_retired_before by lia. unfold b1. apply get_put_same; rewrite length_le; [lia|done]. }
  split; [|intros; apply put_retired_entry; [lia|done|done|done]].
  rewrite bool_decide_eq_true_2 by done. cbn [negb]. cbv zeta. rewrite Hn.
  rewrite from_to_le_fits by (apply wrap_fits; lia). rewrite wrap_small by (unfold fits; lia).
  unfold COW_MAX_RETIRED_EXTENTS. destruct (Z.ltb_spec 128 (Z.of_nat (length es))); [lia|]. by rewrite Nat2Z.id.
Qed.

Lemma reclaim_encode_retired t es :
  Forall (extent_fits (t_root t)) es -> fits 64 (data_end (t_root t)) ->
  Z.of_nat (length (released t)) + Z.of_nat (length es) <= COW_MAX_RETIRED_EXTENTS ->
  reclaim_block t (encode_retired es) = Ok (with_released t (released t ++ es)).
Proof.
  intros Hf Hd Hl. destruct (encode_retired_layout t es) as [-> He]; [lia|].
  apply reclaim_entries_spec; [done..|]. intros k e Hk.
  pose proof (Forall_lookup_1 _ _ _ _ Hf Hk) as (Hs & Hbl & _). apply He; [done|done|unfold fits; lia].
Qed.

(** An entry without blocks makes the whole list unreadable. *)
Lemma reclaim_empty_extent t s es :
  Z.of_nat (length es) < COW_MAX_RETIRED_EXTENTS -> fits 64 s ->
  reclaim_block t (encode_retired (mk_extent s 0 :: es)) = Err Corrupt.
Proof.
  intros Hl Hs. destruct (encode_retired_layout t (mk_extent s 0 :: es)) as [-> He]; [simpl; lia|].
  destruct (He 0%nat (mk_extent s 0) eq_refl Hs ltac:(done)) as [_ E]. cbn [length reclaim_entries].
  cbn [Nat.add Nat.mul extent_blocks] in E. cbn [Nat.add Nat.mul]. by rewrite E.
Qed.

(** Round trip of the superblock.  A root whose fields are within their
    machine widths is decoded from its encoding exactly; the checksum is
    accepted. *)
Theorem cow_root_roundtrip r : root_fits r -> decode_root (encode_root block_zero r) = Ok (Some r).
Proof. intros Hr. by apply decode_encode_root. Qed.

Definition root_example : CowRoot := mk_root 7 40 3 1 1000 1 4 1000 17.

Lemma cow_root_roundtrip_witness : decode_root (encode_root block_zero root_example) = Ok (Some root_example).
Proof. apply (cow_root_roundtrip root_example). by constructor. Defined.

(** Round trip of the commit record.  A record written by [write_commit]
    is read back with the same fields and a checksum that matches the bytes
    it covers. *)
Theorem cow_commit_roundtrip c :
  commit_fits c ->
  exists c', decode_commit (encode_commit c) = Some c' ∧ c_generation c' = c_generation c ∧
    c_metadata_root c' = c_metadata_root c ∧ c_metadata_blocks c' = c_metadata_blocks c ∧
    c_bitmap_slot c' = c_bitmap_slot c ∧ c_retired_root c' = c_retired_root c ∧
    c_checksum c' = crc32c (get (encode_commit c) 0 40).
Proof.
  intros Hc. eexists. split; [by apply decode_encode_commit|]. cbn [c_generation c_metadata_root
    c_metadata_blocks c_bitmap_slot c_retired_root c_checksum]. conj.
Qed.

Lemma cow_commit_roundtrip_witness :
  exists c', decode_commit (encode_commit (mk_commit 8 41 2 0 18 0)) = Some c' ∧ c_generation c' = 8.
Proof.
  destruct (cow_commit_roundtrip (mk_commit 8 41 2 0 18 0)) as (c' & E & Hg & _); [by constructor|].
  exists c'. split; [exact E|exact Hg].
Defined.
