(* ===== verification/CowAlloc.v ===== *)
(** * The allocation bitmap and the first-fit allocator

    The bitmap of [src/storage/src/cow.rs] behaves as a set of block numbers,
    and [allocate_blocks_in_arena] returns the first run of free blocks of the
    arena that this transaction has neither allocated nor just released. *)

From Stdlib Require Import ZArith Lia.
From stdpp Require Import base list option numbers.
From S2P Require Import Prelude Bytes BlockStore Cow CowCodec.

#[local] Open Scope Z_scope.

(** ** The bitmap as a set *)

(** One bitmap block of bytes. *)
Definition bitmap_ok (bm : list Block) : Prop := exists b, bm = [b] ∧ block_ok b.

Definition in_bitmap (i : Z) : Prop := 0 <= i < MAX_BLOCK_COUNT.

Lemma bitmap_position_spec i :
  in_bitmap i -> bitmap_position i = (0%nat, Z.to_nat (i / 8), i mod 8) ∧ 0 <= i / 8 < 4096.
Proof.
  unfold in_bitmap, MAX_BLOCK_COUNT, COW_MAX_BITMAP_BLOCKS, BLOCK_BYTES, bitmap_position. intros Hi.
  assert (0 <= i / 8 < 4096) by (split; [apply Z.div_pos|apply Z.div_lt_upper_bound]; lia).
  split; [|done]. unfold BLOCK_BYTES. rewrite Z.div_small by lia. by rewrite (Z.mod_small (i / 8)).
Qed.

Lemma land_bit x k : 0 <= k -> negb (Z.land x (Z.shiftl 1 k) =? 0) = Z.testbit x k.
Proof.
  intros Hk. rewrite Z.shiftl_1_l. destruct (Z.testbit x k) eqn:E.
  - apply negb_true_iff, Z.eqb_neq. intros H0.
    assert (Z.testbit (Z.land x (2 ^ k)) k = true) as H1
      by (rewrite Z.land_spec, E, Z.pow2_bits_true; done).
    rewrite H0, Z.bits_0 in H1. done.
  - apply negb_false_iff, Z.eqb_eq, Z.bits_inj'. intros n Hn. rewrite Z.land_spec, Z.bits_0.
    destruct (decide (n = k)) as [->|]; [by rewrite E|].
    rewrite Z.pow2_bits_false by lia. apply andb_false_r.
Qed.

Lemma is_set_testbit b i :
  in_bitmap i -> bitmap_is_set [b] i = Z.testbit (get_u8 b (Z.to_nat (i / 8))) (i mod 8).
Proof.
  intros Hi. unfold bitmap_is_set. destruct (bitmap_position_spec i Hi) as [-> _]. cbn [nth].
  apply land_bit. apply Z.mod_pos_bound. lia.
Qed.

Lemma eight_cases k : 0 <= k < 8 -> k = 0 ∨ k = 1 ∨ k = 2 ∨ k = 3 ∨ k = 4 ∨ k = 5 ∨ k = 6 ∨ k = 7.
Proof. lia. Qed.

Lemma not_mask_testbit k j :
  0 <= k < 8 -> 0 <= j < 8 -> Z.testbit (U8_MAX - Z.shiftl 1 k) j = negb (j =? k).
Proof.
  intros Hk%eight_cases Hj%eight_cases.
  repeat match goal with H : _ ∨ _ |- _ => destruct H end; subst; reflexivity.
Qed.

(** Setting a bit of a byte. *)
Lemma set_bit_byte x k (v : bool) j :
  0 <= k < 8 -> 0 <= j < 8 ->
  Z.testbit (if v then Z.lor x (Z.shiftl 1 k) else Z.land x (U8_MAX - Z.shiftl 1 k)) j =
  if decide (j = k) then v else Z.testbit x j.
Proof.
  intros Hk Hj. destruct v.
  - rewrite Z.lor_spec, Z.shiftl_1_l. case_decide as E.
    + subst. rewrite Z.pow2_bits_true by lia. apply orb_true_r.
    + rewrite Z.pow2_bits_false by lia. apply orb_false_r.
  - rewrite Z.land_spec, not_mask_testbit by done. case_decide as E.
    + subst. by rewrite Z.eqb_refl, andb_false_r.
    + destruct (Z.eqb_spec j k); [done|]. apply andb_true_r.
Qed.

Lemma get_u8_insert b i x j :
  (i < length b)%nat -> get_u8 (<[i := x]> b) j = if decide (j = i) then x else get_u8 b j.
Proof.
  intros Hi. unfold get_u8. rewrite !nth_lookup. case_decide as E.
  - subst. by rewrite list_lookup_insert_eq.
  - by rewrite list_lookup_insert_ne.
Qed.

Lemma byte_set_ok x k (v : bool) :
  0 <= k < 8 -> byte_ok x -> byte_ok (if v then Z.lor x (Z.shiftl 1 k) else Z.land x (U8_MAX - Z.shiftl 1 k)).
Proof.
  intros Hk Hx. assert (Hm : byte_ok (Z.shiftl 1 k)).
  { apply eight_cases in Hk. unfold byte_ok.
    repeat match goal with H : _ ∨ _ |- _ => destruct H end; subst; by vm_compute. }
  destruct v.
  - unfold byte_ok, fits in *. split; [apply Z.lor_nonneg; lia|].
    destruct (decide (Z.lor x (Z.shiftl 1 k) = 0)) as [->|]; [lia|].
    assert (0 <= Z.lor x (Z.shiftl 1 k)) by (apply Z.lor_nonneg; lia).
    apply Z.log2_lt_pow2; [lia|]. rewrite Z.log2_lor by lia.
    assert (Hl : forall y, 0 <= y < 2 ^ 8 -> Z.log2 y < 8).
    { intros y Hy. destruct (decide (y = 0)) as [->|]; [done|]. apply Z.log2_lt_pow2; lia. }
    pose proof (Hl x Hx). pose proof (Hl _ Hm). lia.
  - rewrite Z.land_comm. apply land_fits; [lia| |done].
    unfold byte_ok, fits, U8_MAX in *. lia.
Qed.

Lemma bitmap_set_spec bm i v :
  bitmap_ok bm -> in_bitmap i ->
  bitmap_ok (bitmap_set bm i v) ∧
  forall j, in_bitmap j ->
    bitmap_is_set (bitmap_set bm i v) j = if decide (j = i) then v else bitmap_is_set bm j.
Proof.
  intros (b & -> & Hb & Hbytes) Hi. unfold bitmap_set.
  destruct (bitmap_position_spec i Hi) as [-> Hp]. cbn [alter list_alter].
  pose proof (Z.mod_pos_bound i 8 ltac:(lia)) as Hbit. unfold BLOCK_BYTES in Hb. split.
  - eexists. split; [done|]. split; [by rewrite length_insert|]. apply Forall_insert; [done|].
    apply byte_set_ok; [done|]. by apply get_u8_ok.
  - intros j Hj. cbn [alter list_alter]. rewrite !is_set_testbit by done.
    pose proof (Z.mod_pos_bound j 8 ltac:(lia)) as Hjb.
    destruct (bitmap_position_spec j Hj) as [_ Hpj].
    rewrite get_u8_insert by lia. destruct (decide (Z.to_nat (j / 8) = Z.to_nat (i / 8))) as [E|E].
    + rewrite set_bit_byte by done. rewrite E.
      assert (Hd : j mod 8 = i mod 8 <-> j = i).
      { pose proof (Z.div_mod i 8 ltac:(lia)). pose proof (Z.div_mod j 8 ltac:(lia)). lia. }
      destruct (decide (j = i)) as [H|H].
      * by rewrite decide_True by (by apply Hd).
      * by rewrite decide_False by (by rewrite Hd).
    + rewrite decide_False; [done|]. intros ->. done.
Qed.

Lemma bitmap_set_range_spec bm a b v :
  bitmap_ok bm -> 0 <= a -> b <= MAX_BLOCK_COUNT ->
  bitmap_ok (bitmap_set_range bm a b v) ∧
  forall j, in_bitmap j ->
    bitmap_is_set (bitmap_set_range bm a b v) j =
    if decide (a <= j < b) then v else bitmap_is_set bm j.
Proof.
  intros Hbm Ha Hb. unfold bitmap_set_range.
  assert (H : forall l bm, bitmap_ok bm -> (forall x, x ∈ l -> in_bitmap x) ->
    bitmap_ok (foldl (fun bm i => bitmap_set bm i v) bm l) ∧
    forall j, in_bitmap j -> bitmap_is_set (foldl (fun bm i => bitmap_set bm i v) bm l) j =
      if decide (j ∈ l) then v else bitmap_is_set bm j).
  { induction l as [|x l IH]; intros bm0 Hbm0 Hl; cbn [foldl].
    { split; [done|]. intros j _. rewrite decide_False; [done|]. apply not_elem_of_nil. }
    destruct (bitmap_set_spec bm0 x v Hbm0 (Hl x ltac:(by left))) as [Hok Hset].
    destruct (IH _ Hok (fun y Hy => Hl y (list_elem_of_further _ _ _ Hy))) as [Hok' Hset'].
    split; [done|]. intros j Hj. rewrite Hset' by done. destruct (decide (j ∈ l)) as [Hin|Hin].
    - rewrite decide_True; [done|]. by right.
    - rewrite Hset by done. destruct (decide (j = x)) as [->|Hne].
      + rewrite decide_True; [done|]. by left.
      + rewrite decide_False; [done|]. by rewrite elem_of_cons; intros [|]. }
  destruct (H (seqZ a (b - a)) bm Hbm) as [Hok Hset].
  { intros x Hx%elem_of_seqZ. unfold in_bitmap. lia. }
  split; [done|]. intros j Hj. rewrite Hset by done.
  destruct (decide (a <= j < b)) as [Hr|Hr].
  - rewrite decide_True; [done|]. apply elem_of_seqZ. lia.
  - rewrite decide_False; [done|]. rewrite elem_of_seqZ. lia.
Qed.

Lemma bitmap_zero_one : bitmap_zero = [block_zero].
Proof. reflexivity. Qed.

Lemma bitmap_zero_ok : bitmap_ok bitmap_zero.
Proof.
  exists block_zero. split; [apply bitmap_zero_one|]. split; [by rewrite length_block_zero|apply block_zero_ok].
Qed.

Lemma nth_replicate_zero k (j : nat) : nth j (replicate k 0) 0 = 0.
Proof. revert j. induction k as [|k IH]; intros [|j]; simpl; auto. Qed.

Lemma bitmap_zero_clear i : in_bitmap i -> bitmap_is_set bitmap_zero i = false.
Proof.
  intros Hi. rewrite bitmap_zero_one, is_set_testbit by done.
  assert (get_u8 block_zero (Z.to_nat (i / 8)) = 0) as ->; [apply nth_replicate_zero|apply Z.bits_0].
Qed.

Lemma covers_spec e i : covers e i = true <-> start e <= i < extent_end e.
Proof. unfold covers. rewrite andb_true_iff, Z.leb_le, Z.ltb_lt. done. Qed.

Definition covered (es : list CowExtent) (i : Z) : Prop := existsb (fun e => covers e i) es = true.

Lemma covered_spec es i : covered es i <-> exists e, e ∈ es ∧ start e <= i < extent_end e.
Proof.
  unfold covered. rewrite existsb_exists. setoid_rewrite covers_spec.
  by setoid_rewrite <- list_elem_of_In.
Qed.

Definition extents_in (es : list CowExtent) : Prop :=
  Forall (fun e => 0 <= start e ∧ extent_end e <= MAX_BLOCK_COUNT) es.

Lemma bitmap_set_extents_spec bm es v :
  bitmap_ok bm -> extents_in es ->
  bitmap_ok (bitmap_set_extents bm es v) ∧
  forall j, in_bitmap j ->
    bitmap_is_set (bitmap_set_extents bm es v) j =
    if existsb (fun e => covers e j) es then v else bitmap_is_set bm j.
Proof.
  unfold bitmap_set_extents. revert bm. induction es as [|e es IH]; intros bm Hbm Hes; simpl; [done|].
  apply Forall_cons_1 in Hes as [[H0 H1] Hes].
  destruct (bitmap_set_range_spec bm (start e) (extent_end e) v Hbm H0 H1) as [Hok Hset].
  destruct (IH _ Hok Hes) as [Hok' Hset']. split; [done|]. intros j Hj. rewrite Hset' by done.
  destruct (existsb (fun e => covers e j) es); [by rewrite orb_true_r|]. rewrite orb_false_r, Hset by done.
  destruct (covers e j) eqn:E.
  - by rewrite decide_True by (by apply covers_spec).
  - rewrite decide_False; [done|]. intros H. apply covers_spec in H. congruence.
Qed.

(** ** First fit *)

(** Block [i] may be handed out: free on disk and not touched by the transaction. *)
Definition usable (bm : list Block) (t : CowTransaction) (i : Z) : Prop :=
  bitmap_is_set bm i = false ∧ ~ covered (released t) i ∧ ~ covered (allocated t) i.

#[export] Instance usable_dec bm t i : Decision (usable bm t i).
Proof. unfold usable, covered. apply _. Defined.

Definition run (bm : list Block) (t : CowTransaction) (s n : Z) : Prop :=
  forall j, s <= j < s + n -> usable bm t j.

Lemma scan_step bm t n i l rs rl :
  scan bm t n (i :: l) rs rl =
  if decide (usable bm t i) then
    (if rl + 1 =? n then Some (default i rs) else scan bm t n l (Some (default i rs)) (rl + 1))
  else scan bm t n l None 0.
Proof.
  cbn [scan]. destruct (decide (usable bm t i)) as [(Hs & Hr & Ha)|Hu].
  - apply not_true_is_false in Hr, Ha. by rewrite Hr, Hs, Ha.
  - destruct (existsb _ (released t)) eqn:Er; [done|].
    destruct (bitmap_is_set bm i) eqn:Es; [done|].
    destruct (existsb _ (allocated t)) eqn:Ea; [done|].
    exfalso. apply Hu. split; [done|]. unfold covered. rewrite Er, Ea. done.
Qed.

Lemma run_before bm t n i rl s :
  ~ usable bm t i -> rl < n -> i - rl <= s <= i -> ~ run bm t s n.
Proof. intros Hu Hrl Hs Hr. apply Hu, Hr. lia. Qed.

(** The scan from index [i] with a run of [rl] usable blocks behind it. *)
Lemma scan_spec bm t n : 0 < n -> forall k i rl,
  0 <= rl < n -> run bm t (i - rl) rl ->
  match scan bm t n (seqZ i (Z.of_nat k)) (if decide (rl = 0) then None else Some (i - rl)) rl with
  | Some s => i - rl <= s ∧ s + n <= i + Z.of_nat k ∧ run bm t s n ∧
      forall s', i - rl <= s' < s -> ~ run bm t s' n
  | None => forall s', i - rl <= s' -> s' + n <= i + Z.of_nat k -> ~ run bm t s' n
  end.
Proof.
  intros Hn. induction k as [|k IH]; intros i rl Hrl Hrun.
  { intros s' H1 H2 Hr. lia. }
  rewrite seqZ_cons by lia. rewrite scan_step.
  replace (Z.pred (Z.of_nat (S k))) with (Z.of_nat k) by lia.
  destruct (decide (usable bm t i)) as [Hu|Hu].
  - set (rs := if decide (rl = 0) then None else Some (i - rl)).
    assert (Hd : default i rs = i - rl) by (unfold rs; case_decide; simpl; lia). rewrite Hd.
    assert (Hrun' : run bm t (i - rl) (rl + 1)).
    { intros j Hj. destruct (decide (j = i)) as [->|]; [done|]. apply Hrun. lia. }
    destruct (Z.eqb_spec (rl + 1) n) as [E|E].
    + split; [lia|]. split; [lia|]. split; [by rewrite <- E|]. intros s' Hs'. lia.
    + specialize (IH (Z.succ i) (rl + 1) ltac:(lia)).
      rewrite decide_False in IH by lia. replace (Z.succ i - (rl + 1)) with (i - rl) in IH by lia.
      specialize (IH Hrun'). destruct (scan _ _ _ _ _ _) as [s|].
      * destruct IH as (H1 & H2 & H3 & H4). split; [done|]. split; [lia|done].
      * intros s' H1 H2. apply IH; lia.
  - specialize (IH (Z.succ i) 0 ltac:(lia)). rewrite decide_True, Z.sub_0_r in IH by done.
    specialize (IH ltac:(intros j Hj; lia)). destruct (scan _ _ _ _ _ _) as [s|].
    + destruct IH as (H1 & H2 & H3 & H4). split; [lia|]. split; [lia|]. split; [done|].
      intros s' Hs'. destruct (decide (s' <= i)); [by eapply run_before; [|apply Hrl|]; [done|lia]|].
      apply H4. lia.
    + intros s' H1 H2. destruct (decide (s' <= i)); [by eapply run_before; [|apply Hrl|]; [done|lia]|].
      apply IH; lia.
Qed.

Lemma scan_arena bm t n a b :
  0 < n -> a <= b ->
  match scan bm t n (seqZ a (b - a)) None 0 with
  | Some s => a <= s ∧ s + n <= b ∧ run bm t s n ∧ forall s', a <= s' < s -> ~ run bm t s' n
  | None => forall s', a <= s' -> s' + n <= b -> ~ run bm t s' n
  end.
Proof.
  intros Hn Hab. pose proof (scan_spec bm t n Hn (Z.to_nat (b - a)) a 0 ltac:(lia)) as H.
  rewrite decide_True, Z.sub_0_r, Z2Nat.id in H by lia. specialize (H ltac:(intros j Hj; lia)).
  destruct (scan _ _ _ _ _ _) as [s|].
  - destruct H as (H1 & H2 & H3 & H4). conj. split; [lia|done].
  - intros s' H1 H2. apply H; lia.
Qed.

(** C21: [allocate_blocks_in_arena] is exact first fit.  On a valid request,
    with fewer than 256 extents allocated so far, it returns the lowest run of the requested size whose blocks are free in the
    volume's bitmap and neither allocated nor released by the transaction, and
    records it; [OutOfSpace] is returned exactly when the arena has no such
    run.  Nothing is written. *)
Theorem cow_allocate_first_fit {S} `{BlockStore S} (s s' : S) t n a b bm :
  exec (read_bitmap (t_root t) bitmap_zero) s = (s', Ok bm) ->
  0 < n -> data_start (t_root t) <= a -> a < b -> b <= data_end (t_root t) ->
  Z.of_nat (length (allocated t)) < COW_MAX_TRANSACTION_EXTENTS ->
  match exec (allocate_blocks_in_arena t n (a, b)) s with
  | (s1, Ok (t', e)) =>
      s1 = s' ∧ extent_blocks e = n ∧ a <= start e ∧ extent_end e <= b ∧
      run bm t (start e) n ∧ (forall p, a <= p < start e -> ~ run bm t p n) ∧
      t' = with_allocated t (allocated t ++ [e]) ∧ covered (allocated t') (start e)
  | (s1, Err err) => s1 = s' ∧ err = OutOfSpace ∧ forall p, a <= p -> p + n <= b -> ~ run bm t p n
  end.
Proof.
  intros Hr Hn Ha Hab Hb Hl. unfold allocate_blocks_in_arena.
  destruct (Z.eqb_spec n 0); [lia|]. destruct (Z.ltb_spec a (data_start (t_root t))); [lia|].
  destruct (Z.leb_spec b a); [lia|]. destruct (Z.ltb_spec (data_end (t_root t)) b); [lia|]. cbn [orb].
  rewrite exec_try, Hr. pose proof (scan_arena bm t n a b Hn ltac:(lia)) as Hs.
  destruct (scan _ _ _ _ _ _) as [st|]; [|done]. destruct Hs as (L1 & L2 & L3 & L4).
  unfold extent_new. destruct (Z.eqb_spec n 0); [lia|].
  destruct (Z.eqb_spec (Z.of_nat (length (allocated t))) COW_MAX_TRANSACTION_EXTENTS); [lia|].
  cbn [exec pure start extent_blocks]. conj. apply covered_spec. exists (mk_extent st n).
  split; [|unfold extent_end; simpl; lia]. apply elem_of_app. right. by left.
Qed.

Lemma cow_allocate_first_fit_witness :
  match exec (allocate_blocks_in_arena
    (mk_transaction (mk_root 1 4 1 0 10 1 4 10 0) 1 [] [mk_extent 4 2] []) 2 (4, 10)) (memory_new 12) with
  | (_, Ok (_, e)) => start e = 6 ∧ extent_blocks e = 2
  | (_, Err _) => False
  end.
Proof.
  set (t := mk_transaction (mk_root 1 4 1 0 10 1 4 10 0) 1 [] [mk_extent 4 2] []).
  pose proof (cow_allocate_first_fit (memory_new 12) (memory_new 12) t 2 4 10 [block_zero]) as H.
  specialize (H ltac:(vm_compute; reflexivity) ltac:(done) ltac:(done) ltac:(done) ltac:(done) ltac:(done)).
  assert (Hs : match exec (allocate_blocks_in_arena t 2 (4, 10)) (memory_new 12) with
    | (_, Ok (_, e)) => start e = 6 | (_, Err _) => False end) by (by vm_compute).
  destruct (exec (allocate_blocks_in_arena t 2 (4, 10)) (memory_new 12)) as [s1 [[t' e]|err]]; [|done].
  split; [done|]. apply H.
Defined.
