(* ===== verification/CowCrash.v ===== *)
(** * Crash atomicity of the copy-on-write volume ([src/storage/src/cow.rs])

    What a restart finds after a power loss at any moment of [commit], of a
    transaction before it, or of [open] itself.  [committed L r a] says that
    the device contents [L] hold the root [r], last written to superblock [a];
    [rolling L r a r'] that a commit record for [r'] is durable and its
    superblock is not; [recovers L r] that [open] finds [r]. *)

From Stdlib Require Import ZArith Lia.
From stdpp Require Import base list option numbers.
From S2P Require Import Prelude Bytes BlockStore Cow DiskLogic CowCodec CowAlloc.

#[local] Open Scope Z_scope.
#[local] Open Scope io_scope.
#[local] Opaque encode_root encode_commit block_zero bitmap_zero encode_retired decode_root decode_commit.

Implicit Types (L l : list Block) (r : CowRoot) (d : disk).

(** ** Block operations on the device *)

Lemma exec_load d i b : current d !! Z.to_nat i = Some b -> exec (load i) d = (d, Ok b).
Proof. intros E. simpl. rewrite (disk_read_Some d i b E). done. Qed.

Lemma quiet_load d i b : current d !! Z.to_nat i = Some b -> quiet (load i) d b.
Proof.
  intros E. split; [by apply exec_load|]. intros l [H|H]; [done|].
  rewrite (disk_read_Some d i b E) in H. by destruct H.
Qed.

Lemma quiet_load_uncached d i b : current d !! Z.to_nat i = Some b -> quiet (load_uncached i) d b.
Proof.
  intros E. split; [simpl; by rewrite (disk_read_Some d i b E)|]. intros l [H|H]; [done|].
  rewrite (disk_read_Some d i b E) in H. by destruct H.
Qed.

Lemma exec_store d i b :
  (Z.to_nat i < length (durable d))%nat -> exec (store i b) d = (written d i b, Ok tt).
Proof. intros Hi. simpl. by rewrite (proj1 (disk_write_ok d i b Hi)). Qed.

Lemma noflush_store i b : noflush (store i b).
Proof. simpl. done. Qed.

Lemma noflush_load i : noflush (load i).
Proof. simpl. done. Qed.

Lemma exec_sync d : exec sync d = (reboot (current d), Ok tt).
Proof. done. Qed.

Lemma crash_sync {A} (q : unit -> io (result A CowError)) d l :
  crash_during (try_bind sync q) d l -> crash d l ∨ crash_during (q tt) (reboot (current d)) l.
Proof.
  intros [H|H]%crash_during_try; [|by right]. destruct H as [H|[H|[]]]; [by left|right].
  by apply crash_now.
Qed.

Lemma quiet_verify_block d i b : current d !! Z.to_nat i = Some b -> quiet (verify_block i b) d tt.
Proof.
  intros E. unfold verify_block, WRITE_VERIFY_ATTEMPTS. cbn [verify_attempts].
  eapply quiet_try; [by apply quiet_load_uncached|]. rewrite bool_decide_eq_true_2 by done. apply quiet_ret.
Qed.

Lemma quiet_verify_each d (ids : list Z) :
  Forall (fun i => is_Some (current d !! Z.to_nat i)) ids -> quiet (verify_each ids) d tt.
Proof.
  induction 1 as [|i l [b Hb] Hl IH]; [apply quiet_ret|]. cbn [verify_each].
  apply (quiet_try _ _ _ tt); [|done]. eapply quiet_try; [by apply quiet_load|]. by apply quiet_verify_block.
Qed.

(** ** Bitmaps of one block *)

Definition bitmap_index r : Z := data_end r + bitmap_blocks r * bitmap_slot r.

Lemma quiet_read_bitmap d r b :
  bitmap_blocks r = 1 -> bitmap_start r = data_end r -> current d !! Z.to_nat (bitmap_index r) = Some b ->
  quiet (read_bitmap r bitmap_zero) d [b].
Proof.
  unfold bitmap_index, read_bitmap. intros E1 E2. rewrite E1, E2, bitmap_zero_one. intros E.
  change (Z.to_nat 1) with 1%nat. cbn [read_into]. eapply quiet_try; [by apply quiet_load|].
  eapply quiet_try; [apply quiet_ret|]. apply quiet_ret.
Qed.

Lemma write_bitmap_one r b :
  bitmap_blocks r = 1 ->
  write_bitmap r [b] = do! store (bitmap_index r) b in pure tt.
Proof. unfold write_bitmap, bitmap_index. by intros ->. Qed.

Lemma quiet_verify_bitmap d r b :
  bitmap_blocks r = 1 -> bitmap_start r = data_end r -> current d !! Z.to_nat (bitmap_index r) = Some b ->
  quiet (verify_bitmap r [b]) d tt.
Proof.
  unfold verify_bitmap, bitmap_index. intros -> -> E. change (Z.to_nat 1) with 1%nat. cbn [verify_from].
  apply (quiet_try _ _ _ tt); [by apply quiet_verify_block|apply quiet_ret].
Qed.

(** ** Volumes on the device *)

Record valid L r : Prop := {
  v_capacity : validate_capacity (Z.of_nat (length L)) = Ok tt;
  v_root : validate_root r (Z.of_nat (length L)) = Ok tt;
  v_room : data_end r + 2 <= Z.of_nat (length L);
  v_slot : bitmap_slot r = 0 ∨ bitmap_slot r = 1;
  v_fits : root_fits r
}.

(** Superblock [i] holds [r]. *)
Definition holds L (i : Z) r : Prop :=
  exists b, L !! Z.to_nat i = Some b ∧ decode_root b = Ok (Some r).

(** Superblock [i] is blank, damaged, older than [r] or a copy of [r]. *)
Definition yields L (i : Z) r : Prop :=
  exists b, L !! Z.to_nat i = Some b ∧
    forall r', decode_root b = Ok (Some r') -> r' = r ∨ generation r' < generation r.

(** Commit slot [slot] has no record newer than generation [g]. *)
Definition commit_at_most L (slot g : Z) : Prop :=
  exists b, L !! Z.to_nat (COMMIT_START + slot) = Some b ∧
    forall c, decode_commit b = Some c -> c_generation c <= g.

Record committed L r (a : Z) : Prop := {
  cm_valid : valid L r;
  cm_active : a = 0 ∨ a = 1;
  cm_holds : holds L a r;
  cm_yields : yields L (1 - a) r;
  cm_slot0 : commit_at_most L 0 (generation r);
  cm_slot1 : commit_at_most L 1 (generation r)
}.

Definition commit_slot r : Z := generation r mod COW_COMMIT_SLOTS.

Record rolling L r (a : Z) (r' : CowRoot) : Prop := {
  ro_valid : valid L r;
  ro_valid' : valid L r';
  ro_active : a = 0 ∨ a = 1;
  ro_holds : holds L a r;
  ro_yields : yields L (1 - a) r;
  ro_newer : generation r < generation r';
  ro_record : exists b c, L !! Z.to_nat (COMMIT_START + commit_slot r') = Some b ∧
    decode_commit b = Some c ∧ roll_forward r c = r';
  ro_other : commit_at_most L (1 - commit_slot r') (generation r)
}.

Definition recovers L r : Prop :=
  (exists a, committed L r a) ∨ (exists r0 a, rolling L r0 a r).

(** ** Recovery *)

Lemma exec_read_superblock d i b :
  current d !! Z.to_nat i = Some b -> exec (read_superblock i) d = (d, decode_root b).
Proof. intros E. unfold read_superblock. by rewrite (exec_try_ok _ _ _ _ _ (exec_load d i b E)). Qed.

Lemma quiet_read_commit d slot b :
  current d !! Z.to_nat (COMMIT_START + slot) = Some b -> quiet (read_commit slot) d (decode_commit b).
Proof. intros E. eapply quiet_try; [by apply quiet_load|apply quiet_ret]. Qed.

Lemma choose_holds L r a b0 b1 :
  a = 0 ∨ a = 1 -> holds L a r -> yields L (1 - a) r ->
  L !! 0%nat = Some b0 -> L !! 1%nat = Some b1 ->
  exists a', choose_root (decode_root b0) (decode_root b1) = Ok (r, a') ∧ (a' = 0 ∨ a' = 1) ∧
    holds L a' r ∧ yields L (1 - a') r.
Proof.
  intros Ha Hh Hy E0 E1.
  destruct Ha as [->| ->]; destruct Hh as (h & Eh & Dh); destruct Hy as (y & Ey & Dy).
  1: assert (h = b0) as -> by (change (Z.to_nat 0) with O in Eh; congruence);
    assert (y = b1) as -> by (change (Z.to_nat (1 - 0)) with 1%nat in Ey; congruence).
  2: assert (h = b1) as -> by (change (Z.to_nat 1) with 1%nat in Eh; congruence);
    assert (y = b0) as -> by (change (Z.to_nat (1 - 1)) with O in Ey; congruence).
  - exists 0. rewrite Dh. split; [|split; [by left|split; [by exists b0|by exists b1]]].
    destruct (decode_root b1) as [[r'|]|e] eqn:D1; simpl; try done.
    destruct (Z.ltb_spec (generation r) (generation r')); [|done].
    destruct (Dy r' eq_refl) as [->|]; lia.
  - rewrite Dh. destruct (decode_root b0) as [[r'|]|e] eqn:D0; simpl.
    2-3: exists 1; split; [done|]; split; [by right|]; split; [by exists b1|];
      exists b0; split; [done|]; intros r'; rewrite D0; done.
    destruct (Dy r' eq_refl) as [->|Hlt].
    + exists 0. rewrite Z.ltb_irrefl. split; [done|]. split; [by left|]. split; [by exists b0|].
      exists b1. split; [done|]. intros r'. rewrite Dh. intros [= ->]. by left.
    + exists 1. rewrite (proj2 (Z.ltb_lt _ _) Hlt). split; [done|]. split; [by right|].
      split; [by exists b1|]. exists b0. split; [done|]. intros r''. rewrite D0. intros [= ->]. by right.
Qed.

(** [open] after the superblocks have been read. *)
Definition open_tail (n : Z) r (active : Z) : io (result CowVolume CowError) :=
  try! c0 := read_commit 0 in
  try! c1 := read_commit 1 in
  try! final :=
    match newer r (newer r None c0) c1 with
    | None => pure (r, active)
    | Some c =>
        let r := roll_forward r c in
        let target := other_superblock active in
        do! write_superblock target r in
        do! sync in
        do! verify_block target (encode_root block_zero r) in
        pure (r, Z.lxor active 1)
    end in
  let '(r, active) := final in
  try! _ := liftr (validate_root r n) in
  pure (mk_volume r active).

Lemma open_reads L r a :
  valid L r -> a = 0 ∨ a = 1 -> holds L a r -> yields L (1 - a) r ->
  exists a', (a' = 0 ∨ a' = 1) ∧ holds L a' r ∧ yields L (1 - a') r ∧
    exec open (reboot L) = exec (open_tail (Z.of_nat (length L)) r a') (reboot L) ∧
    forall l, crash_during open (reboot L) l ->
      crash_during (open_tail (Z.of_nat (length L)) r a') (reboot L) l.
Proof.
  intros Hv Ha Hh Hy.
  assert (exists b0 b1, L !! 0%nat = Some b0 ∧ L !! 1%nat = Some b1) as (b0 & b1 & E0 & E1).
  { destruct Hh as (h & Eh & _), Hy as (y & Ey & _). destruct Ha as [->| ->]; simpl in *; eauto. }
  destruct (choose_holds L r a b0 b1 Ha Hh Hy E0 E1) as (a' & Ec & Ha' & Hh' & Hy').
  assert (R0 : exec (read_superblock SUPERBLOCK_A) (reboot L) = (reboot L, decode_root b0))
    by (by apply exec_read_superblock).
  assert (R1 : exec (read_superblock SUPERBLOCK_B) (reboot L) = (reboot L, decode_root b1))
    by (by apply exec_read_superblock).
  exists a'. split; [done|]. split; [done|]. split; [done|]. split.
  - unfold open. cbn [exec]. change (block_count (reboot L)) with (Z.of_nat (length L)).
    rewrite (v_capacity _ _ Hv). rewrite (exec_try_ok _ _ _ (reboot L) tt) by done.
    rewrite exec_bind, R0, exec_bind, R1, Ec. rewrite exec_try. reflexivity.
  - intros l Hc. unfold open in Hc. destruct Hc as [Hc|Hc]; [by apply crash_now|].
    change (block_count (reboot L)) with (Z.of_nat (length L)) in Hc. rewrite (v_capacity _ _ Hv) in Hc.
    apply (crash_try_ok _ _ _ (reboot L) tt) in Hc; [|done|done].
    apply crash_during_bind in Hc as [Hc|Hc].
    { apply crash_now. apply crash_noflush in Hc; [by rewrite R0 in Hc|by apply noflush_try]. }
    rewrite R0 in Hc. cbn [fst snd] in Hc. apply crash_during_bind in Hc as [Hc|Hc].
    { apply crash_now. apply crash_noflush in Hc; [by rewrite R1 in Hc|by apply noflush_try]. }
    rewrite R1 in Hc. cbn [fst snd] in Hc. rewrite Ec in Hc.
    by apply (crash_try_ok _ _ _ (reboot L) (r, a')) in Hc.
Qed.

Lemma other_superblock_flip a : a = 0 ∨ a = 1 -> other_superblock a = 1 - a ∧ Z.lxor a 1 = 1 - a.
Proof. intros [->| ->]; done. Qed.

Lemma valid_length L L' r : length L = length L' -> valid L r -> valid L' r.
Proof. intros E [H1 H2 H3 H4 H5]. rewrite E in *. by constructor. Qed.

Lemma capacity_spec n : validate_capacity n = Ok tt -> 7 <= n <= MAX_BLOCK_COUNT.
Proof.
  unfold validate_capacity, DATA_START, COMMIT_START, COW_COMMIT_SLOTS.
  destruct (Z.leb_spec n (2 + 2 + 2)); [done|]. destruct (Z.ltb_spec MAX_BLOCK_COUNT n); [done|]. lia.
Qed.

Lemma valid_size L r : valid L r -> 7 <= Z.of_nat (length L).
Proof. intros Hv. apply (capacity_spec _ (v_capacity _ _ Hv)). Qed.

(** The root is in range: the checks of [validate_root]. *)
Lemma valid_root_spec L r :
  valid L r ->
  0 < generation r ∧ bitmap_blocks r = 1 ∧ data_start r = DATA_START ∧ bitmap_start r = data_end r ∧
  DATA_START <= metadata_root r ∧ 0 < metadata_blocks r ∧ metadata_root r + metadata_blocks r <= data_end r.
Proof.
  intros [_ Hr _ _ Hf]. unfold validate_root in Hr.
  match type of Hr with (if ?c then _ else _) = _ => destruct c eqn:E; [done|] end.
  repeat rewrite orb_false_iff in E. unfold COW_MAX_BITMAP_BLOCKS in E.
  destruct Hf as [F1 F2 F3 _ _ F4 _ _ _]. unfold fits in *.
  repeat match goal with H : _ ∧ _ |- _ => destruct H end.
  repeat match goal with
  | H : negb _ = false |- _ => apply negb_false_iff, Z.eqb_eq in H
  | H : (_ =? _) = false |- _ => apply Z.eqb_neq in H
  | H : (_ <? _) = false |- _ => apply Z.ltb_ge in H
  | H : (_ <=? _) = false |- _ => apply Z.leb_gt in H
  end. lia.
Qed.

Lemma commit_at_most_mono L slot g g' : g <= g' -> commit_at_most L slot g -> commit_at_most L slot g'.
Proof. intros Hg (b & E & H). exists b. split; [done|]. intros c Hc. specialize (H c Hc). lia. Qed.

Lemma commit_at_most_agree L L' slot g :
  L !! Z.to_nat (COMMIT_START + slot) = L' !! Z.to_nat (COMMIT_START + slot) ->
  commit_at_most L slot g -> commit_at_most L' slot g.
Proof. intros E (b & Eb & H). exists b. by rewrite <- E. Qed.

(** Writing the superblock of a newer root over the other superblock. *)
Lemma superblock_committed L r r' a :
  valid L r' -> a = 0 ∨ a = 1 -> holds L a r -> generation r < generation r' ->
  commit_at_most L 0 (generation r') -> commit_at_most L 1 (generation r') ->
  committed (<[Z.to_nat (1 - a) := encode_root block_zero r']> L) r' (1 - a).
Proof.
  intros Hv Ha (h & Eh & Dh) Hg H0 H1. pose proof (valid_size _ _ Hv) as Hs. constructor.
  - eapply valid_length; [|done]. by rewrite length_insert.
  - lia.
  - exists (encode_root block_zero r'). rewrite list_lookup_insert_eq by lia. split; [done|].
    apply decode_encode_root, (v_fits _ _ Hv).
  - replace (1 - (1 - a)) with a by lia. exists h. rewrite list_lookup_insert_ne by lia. split; [done|].
    intros r''. rewrite Dh. intros [= ->]. by right.
  - eapply commit_at_most_agree; [|done]. unfold COMMIT_START. rewrite list_lookup_insert_ne by lia. done.
  - eapply commit_at_most_agree; [|done]. unfold COMMIT_START. rewrite list_lookup_insert_ne by lia. done.
Qed.

(** The record [open] rolls forward. *)
Lemma newer_old L slot r cand :
  commit_at_most L slot (generation r) -> forall b, L !! Z.to_nat (COMMIT_START + slot) = Some b ->
  newer r cand (decode_commit b) = cand.
Proof.
  intros (b' & E' & H) b E. assert (b' = b) as -> by congruence. unfold newer.
  destruct (decode_commit b) as [c|]; [|done]. specialize (H c eq_refl).
  destruct (Z.ltb_spec (generation r) (c_generation c)); [lia|done].
Qed.

Lemma newer_new r r' cand c : roll_forward r c = r' -> generation r < generation r' -> newer r cand (Some c) = Some c.
Proof. intros <- Hg. unfold newer. simpl in Hg. by rewrite (proj2 (Z.ltb_lt _ _) Hg). Qed.

Lemma commit_slot_cases r : commit_slot r = 0 ∨ commit_slot r = 1.
Proof. unfold commit_slot, COW_COMMIT_SLOTS. pose proof (Z.mod_pos_bound (generation r) 2). lia. Qed.

(** What [open] reads from the commit slots of a rolling volume. *)
Lemma rolling_newer L r a r' :
  rolling L r a r' ->
  exists b0 b1 c, L !! Z.to_nat (COMMIT_START + 0) = Some b0 ∧ L !! Z.to_nat (COMMIT_START + 1) = Some b1 ∧
    newer r (newer r None (decode_commit b0)) (decode_commit b1) = Some c ∧ roll_forward r c = r'.
Proof.
  intros [_ _ _ _ _ Hg (b & c & E & D & Hr) Ho]. destruct Ho as (b' & E' & H').
  assert (commit_at_most L (1 - commit_slot r') (generation r)) as Ho by (by exists b').
  destruct (commit_slot_cases r') as [Es|Es]; rewrite Es in *.
  - exists b, b', c. split; [done|]. split; [done|]. split; [|done].
    rewrite D, (newer_new r r') by done. by apply (newer_old L 1).
  - exists b', b, c. split; [done|]. split; [done|]. split; [|done].
    rewrite (newer_old L 0 r None Ho b') by done. rewrite D. by apply (newer_new r r').
Qed.

Lemma rolling_finish L r a r' a' :
  rolling L r a r' -> a' = 0 ∨ a' = 1 -> holds L a' r ->
  committed (<[Z.to_nat (1 - a') := encode_root block_zero r']> L) r' (1 - a').
Proof.
  intros [Hv Hv' _ _ _ Hg (b & c & E & D & Hr) Ho] Ha Hh. 
  assert (Hn : commit_at_most L (commit_slot r') (generation r')).
  { exists b. split; [done|]. intros c'. rewrite D. intros [= <-]. rewrite <- Hr. simpl. lia. }
  apply (commit_at_most_mono _ _ _ (generation r')) in Ho; [|lia].
  apply (superblock_committed L r); try done; destruct (commit_slot_cases r') as [Es|Es];
    rewrite Es in *; done.
Qed.

Lemma open_committed L r a :
  committed L r a ->
  exists a', exec open (reboot L) = (reboot L, Ok (mk_volume r a')) ∧ committed L r a' ∧
    forall l, crash_during open (reboot L) l -> l = L.
Proof.
  intros [Hv Ha Hh Hy H0 H1]. destruct (open_reads L r a Hv Ha Hh Hy) as (a' & Ha' & Hh' & Hy' & Ex & Cr).
  exists a'. destruct H0 as (b0 & E0 & L0), H1 as (b1 & E1 & L1).
  assert (Hn : newer r (newer r None (decode_commit b0)) (decode_commit b1) = None).
  { rewrite (newer_old L 0 r None ltac:(by exists b0) b0 E0).
    apply (newer_old L 1 r None ltac:(by exists b1) b1 E1). }
  assert (Q : quiet (open_tail (Z.of_nat (length L)) r a') (reboot L) (mk_volume r a')).
  { eapply quiet_try; [by apply quiet_read_commit|]. eapply quiet_try; [by apply quiet_read_commit|].
    rewrite Hn. eapply quiet_try; [apply quiet_ret|]. cbv beta iota. rewrite (v_root _ _ Hv).
    eapply quiet_try; [apply quiet_ret|]. apply quiet_ret. }
  destruct Q as [Q1 Q2]. split; [by rewrite Ex|]. split.
  - constructor; try done; [by exists b0|by exists b1].
  - intros l Hc. by apply crash_reboot, Q2, Cr.
Qed.

Lemma open_rolling L r a r' :
  rolling L r a r' ->
  exists a', (a' = 0 ∨ a' = 1) ∧
    let L' := <[Z.to_nat a' := encode_root block_zero r']> L in
    exec open (reboot L) = (reboot L', Ok (mk_volume r' a')) ∧ committed L' r' a' ∧
    forall l, crash_during open (reboot L) l -> l = L ∨ l = L'.
Proof.
  intros HR. destruct (rolling_newer L r a r' HR) as (b0 & b1 & c & E0 & E1 & Hn & Hr).
  destruct (open_reads L r a (ro_valid _ _ _ _ HR) (ro_active _ _ _ _ HR) (ro_holds _ _ _ _ HR)
    (ro_yields _ _ _ _ HR)) as (a' & Ha' & Hh' & Hy' & Ex & Cr).
  destruct (other_superblock_flip a' Ha') as [F1 F2].
  pose proof (rolling_finish L r a r' a' HR Ha' Hh') as HC.
  exists (1 - a'). split; [lia|]. set (L' := <[Z.to_nat (1 - a') := encode_root block_zero r']> L).
  pose proof (valid_size _ _ (ro_valid _ _ _ _ HR)) as Hs.
  assert (Es : exec (write_superblock (1 - a') r') (reboot L) =
    (mk_disk L [(Z.to_nat (1 - a'), encode_root block_zero r')], Ok tt)).
  { unfold write_superblock. rewrite exec_store by (simpl; lia). done. }
  assert (Ec : current (mk_disk L [(Z.to_nat (1 - a'), encode_root block_zero r')]) = L') by done.
  assert (Q : quiet (verify_block (1 - a') (encode_root block_zero r')) (reboot L') tt).
  { apply quiet_verify_block. unfold current, L'. simpl. rewrite list_lookup_insert_eq by lia. done. }
  assert (Hvr : validate_root r' (Z.of_nat (length L)) = Ok tt) by apply (v_root _ _ (ro_valid' _ _ _ _ HR)).
  split; [|split; [done|]].
  - rewrite Ex. unfold open_tail. erewrite quiet_exec by (by apply quiet_read_commit).
    erewrite quiet_exec by (by apply quiet_read_commit). rewrite Hn. cbv zeta. rewrite Hr, F1, F2.
    rewrite exec_try, (exec_try_ok _ _ _ _ _ Es), (exec_try_ok _ _ _ _ _ (exec_sync _)), Ec.
    rewrite (quiet_exec _ _ _ _ Q). cbn [pure exec]. rewrite Hvr. done.
  - intros l Hc%Cr. unfold open_tail in Hc.
    eapply quiet_crash in Hc; [|by apply quiet_read_commit].
    eapply quiet_crash in Hc; [|by apply quiet_read_commit].
    rewrite Hn in Hc. cbv zeta in Hc. rewrite Hr, F1, F2 in Hc.
    apply crash_during_try in Hc as [Hc|Hc].
    + eapply crash_try_ok in Hc; [|done|exact Es]. apply crash_sync in Hc as [Hc|Hc].
      * apply crash_one in Hc as [->| ->]; auto.
      * rewrite Ec in Hc. eapply quiet_crash in Hc; [|done].
        destruct Hc as [Hc|[]]. apply crash_reboot in Hc. auto.
    + rewrite (exec_try_ok _ _ _ _ _ Es), (exec_try_ok _ _ _ _ _ (exec_sync _)), Ec,
        (quiet_exec _ _ _ _ Q) in Hc. cbn [pure exec fst snd] in Hc. rewrite Hvr in Hc.
      apply (crash_try_ok _ _ _ (reboot L') tt) in Hc; [|done|done].
      destruct Hc as [Hc|[]]. apply crash_reboot in Hc. auto.
Qed.

(** ** Triples for the block operations *)

Lemma safe_store P L i b :
  (Z.to_nat i < length L)%nat -> P L -> P (<[Z.to_nat i := b]> L) ->
  safe P (store i b) (reboot L) (mk_disk L [(Z.to_nat i, b)]) tt.
Proof.
  intros Hi H1 H2. apply safe_noflush; [done|by apply exec_store|]. by apply crashes_in_one.
Qed.

Lemma safe_sync P d : crashes_in P d -> P (current d) -> safe P sync d (reboot (current d)) tt.
Proof.
  intros H1 H2. split; [done|]. intros l [H|[H|[]]]; [auto|]. by apply crash_reboot in H as ->.
Qed.

(** A block written, flushed and verified. *)
Lemma safe_write_through {A} P L i b (q : io (result A CowError)) d' x :
  (Z.to_nat i < length L)%nat -> P L -> P (<[Z.to_nat i := b]> L) ->
  safe P q (reboot (<[Z.to_nat i := b]> L)) d' x ->
  safe P (do! store i b in do! sync in do! verify_block i b in q) (reboot L) d' x.
Proof.
  intros Hi H1 H2 Hq. eapply safe_try; [by apply safe_store|].
  eapply safe_try; [apply safe_sync; [by apply crashes_in_one|done]|].
  change (current (mk_disk L [(Z.to_nat i, b)])) with (<[Z.to_nat i := b]> L).
  eapply safe_try; [|exact Hq]. apply safe_quiet; [|by apply crashes_in_reboot].
  apply quiet_verify_block. rewrite current_reboot. by apply list_lookup_insert_eq.
Qed.

(** ** Formatting *)

Definition format_root (n : Z) : CowRoot := mk_root 1 DATA_START 1 0 (n - 2) 1 DATA_START (n - 2) 0.

(** A device [format] accepts. *)
Definition blank L : Prop :=
  8 <= Z.of_nat (length L) <= MAX_BLOCK_COUNT ∧ Forall (fun b => all_zero b = true) L.

Lemma capacity_layout n :
  8 <= n <= MAX_BLOCK_COUNT -> validate_capacity n = Ok tt ∧ layout n = Ok (1, n - 2).
Proof.
  intros Hn. split.
  { unfold validate_capacity, DATA_START, COMMIT_START, COW_COMMIT_SLOTS.
    destruct (Z.leb_spec n (2 + 2 + 2)); [lia|]. by destruct (Z.ltb_spec MAX_BLOCK_COUNT n); [lia|]. }
  unfold MAX_BLOCK_COUNT, COW_MAX_BITMAP_BLOCKS, BLOCK_BYTES in Hn.
  unfold layout, div_ceil, BLOCK_BYTES, COW_MAX_BITMAP_BLOCKS, DATA_START, COMMIT_START, COW_COMMIT_SLOTS.
  assert ((n + 4096 * 8 - 1) / (4096 * 8) = 1) as ->.
  { symmetry. apply (Z.div_unique _ _ _ (n - 1)); lia. }
  change (1 * 2) with 2. change ((1 =? 0) || (1 <? 1)) with false. cbv zeta iota.
  destruct (Z.ltb_spec n 2); [lia|]. by destruct (Z.leb_spec (n - 2) (2 + 2 + 1)); [lia|].
Qed.

Lemma format_root_fits n : 8 <= n <= MAX_BLOCK_COUNT -> root_fits (format_root n).
Proof.
  unfold MAX_BLOCK_COUNT, COW_MAX_BITMAP_BLOCKS, BLOCK_BYTES. intros Hn.
  constructor; unfold fits; simpl; unfold DATA_START, COMMIT_START, COW_COMMIT_SLOTS; lia.
Qed.

Lemma format_root_valid L : 8 <= Z.of_nat (length L) <= MAX_BLOCK_COUNT -> valid L (format_root (Z.of_nat (length L))).
Proof.
  intros Hn. constructor; [by apply capacity_layout| |simpl; lia|by left|by apply format_root_fits].
  unfold MAX_BLOCK_COUNT, COW_MAX_BITMAP_BLOCKS, BLOCK_BYTES in Hn. set (n := Z.of_nat (length L)) in *.
  unfold validate_root, format_root, DATA_START, COMMIT_START, COW_COMMIT_SLOTS, COW_MAX_BITMAP_BLOCKS. simpl.
  destruct (Z.leb_spec n (n - 2)); [lia|]. rewrite Z.eqb_refl. change (2 + 2) with 4.
  destruct (Z.leb_spec (n - 2) 4); [lia|]. by destruct (Z.ltb_spec (n - 2) (4 + 1)); [lia|].
Qed.

Lemma quiet_check_blank d (ids : list Z) :
  Forall (fun i => exists b, current d !! Z.to_nat i = Some b ∧ all_zero b = true) ids ->
  quiet (check_blank ids) d tt.
Proof.
  induction 1 as [|i ids (b & Hb & Hz) Hl IH]; [apply quiet_ret|]. cbn [check_blank].
  eapply quiet_try; [by apply quiet_load|]. by rewrite Hz.
Qed.

Lemma blank_block L i :
  blank L -> 0 <= i < Z.of_nat (length L) -> exists b, L !! Z.to_nat i = Some b ∧ all_zero b = true.
Proof.
  intros [_ Hz] Hi. destruct (lookup_lt_is_Some_2 L (Z.to_nat i)) as [b Hb]; [lia|].
  exists b. split; [done|]. by apply (Forall_lookup_1 _ _ _ _ Hz Hb).
Qed.

(** Neither superblock has been written. *)
Definition unformatted L : Prop :=
  8 <= Z.of_nat (length L) <= MAX_BLOCK_COUNT ∧
  exists b0 b1 : Block, L !! 0%nat = Some b0 ∧ L !! 1%nat = Some b1 ∧ all_zero b0 = true ∧ all_zero b1 = true.

Lemma unformatted_open L : unformatted L -> exec open (reboot L) = (reboot L, Err Unformatted).
Proof.
  intros (Hn & b0 & b1 & E0 & E1 & Z0 & Z1). unfold open. cbn [exec].
  change (block_count (reboot L)) with (Z.of_nat (length L)). rewrite (proj1 (capacity_layout _ Hn)).
  rewrite (exec_try_ok _ _ _ (reboot L) tt) by done.
  rewrite exec_bind, (exec_read_superblock (reboot L) SUPERBLOCK_A b0) by done.
  rewrite exec_bind, (exec_read_superblock (reboot L) SUPERBLOCK_B b1) by done.
  by rewrite !decode_root_zero by done.
Qed.

(** The bitmap [format] writes. *)
Definition format_bitmap (n : Z) : list Block := initialize_bitmap bitmap_zero (format_root n) n.

Definition formatted_data L (bm : Block) : list Block :=
  <[Z.to_nat (Z.of_nat (length L) - 2) := bm]> (<[Z.to_nat DATA_START := block_zero]> L).

Definition formatted L (bm : Block) : list Block :=
  let e := encode_root block_zero (format_root (Z.of_nat (length L))) in
  <[1%nat := e]> (<[0%nat := e]> (formatted_data L bm)).

(** The bitmap of a fresh volume: the superblocks, the commit slots, the
    metadata root and the bitmaps are taken. *)
Lemma format_bitmap_one n :
  8 <= n <= MAX_BLOCK_COUNT -> exists bm, format_bitmap n = [bm] ∧ block_ok bm ∧
    forall i, in_bitmap i -> bitmap_is_set [bm] i = bool_decide (i <= DATA_START ∨ n - 2 <= i < n).
Proof.
  intros Hn. unfold format_bitmap, initialize_bitmap. cbn [format_root data_end metadata_root].
  destruct (bitmap_set_range_spec bitmap_zero 0 DATA_START true bitmap_zero_ok) as [K1 S1]; [lia|done|].
  destruct (bitmap_set_range_spec _ (n - 2) n true K1) as [K2 S2]; [lia|lia|].
  destruct (bitmap_set_spec _ DATA_START true K2) as [(bm & E & K3) S3]; [by split|].
  exists bm. split; [done|]. split; [done|]. intros i Hi. rewrite <- E, S3 by done.
  unfold in_bitmap in Hi. case_decide; [by rewrite bool_decide_eq_true_2 by lia|].
  rewrite S2 by done. case_decide; [by rewrite bool_decide_eq_true_2 by lia|].
  rewrite S1 by done. case_decide; [by rewrite bool_decide_eq_true_2 by lia|].
  rewrite bitmap_zero_clear by done. by rewrite bool_decide_eq_false_2 by lia.
Qed.

Lemma length_formatted L bm : length (formatted_data L bm) = length L.
Proof. unfold formatted_data. by rewrite !length_insert. Qed.

Lemma formatted_zero L bm i :
  blank L -> 0 <= i < 4 -> exists b, formatted_data L bm !! Z.to_nat i = Some b ∧ all_zero b = true.
Proof.
  intros HB Hi. destruct HB as [Hn Hz]. unfold formatted_data, DATA_START, COMMIT_START, COW_COMMIT_SLOTS.
  rewrite !list_lookup_insert_ne by lia. apply blank_block; [done|lia].
Qed.

Section format.
Variables (L : list Block) (bm : Block).
Hypothesis HB : blank L.
Let n : Z := Z.of_nat (length L).
Let r : CowRoot := format_root n.
Let F : list Block := formatted_data L bm.
Let e : Block := encode_root block_zero r.

Lemma format_slot s : s = 0 ∨ s = 1 -> forall g, 0 <= g -> commit_at_most F s g.
Proof.
  intros Hs g Hg. destruct (formatted_zero L bm (COMMIT_START + s) HB) as (b & E & Hz).
  { unfold COMMIT_START. lia. }
  exists b. split; [done|]. intros c. rewrite decode_commit_zero by done. done.
Qed.

Lemma format_first : committed (<[0%nat := e]> F) r 0.
Proof.
  destruct HB as [Hn _]. destruct (formatted_zero L bm 1 HB) as (b & E & Hz); [lia|].
  assert (Hl : length F = length L) by apply length_formatted. constructor.
  - eapply valid_length; [|by apply format_root_valid]. by rewrite length_insert, Hl.
  - by left.
  - exists e. change (Z.to_nat 0) with O. rewrite list_lookup_insert_eq by (unfold n in *; lia).
    split; [done|]. apply decode_encode_root. by apply format_root_fits.
  - exists b. change (Z.to_nat (1 - 0)) with 1%nat. rewrite list_lookup_insert_ne by done.
    split; [done|]. intros r'. rewrite decode_root_zero by done. done.
  - eapply commit_at_most_agree; [|apply format_slot; [by left|simpl; lia]].
    unfold COMMIT_START. by rewrite !list_lookup_insert_ne by lia.
  - eapply commit_at_most_agree; [|apply format_slot; [by right|simpl; lia]].
    unfold COMMIT_START. by rewrite !list_lookup_insert_ne by lia.
Qed.

Lemma format_second : committed (formatted L bm) r 1.
Proof.
  destruct HB as [Hn _]. destruct format_first as [Hv _ (b & E & D) _ H0 H1].
  assert (Hl : length F = length L) by apply length_formatted.
  change (formatted L bm) with (<[1%nat := e]> (<[0%nat := e]> F)). constructor.
  - eapply valid_length; [|done]. by rewrite !length_insert.
  - by right.
  - exists e. change (Z.to_nat 1) with 1%nat.
    rewrite list_lookup_insert_eq by (rewrite length_insert; unfold n in *; lia).
    split; [done|]. apply decode_encode_root. by apply format_root_fits.
  - exists b. change (Z.to_nat (1 - 1)) with (Z.to_nat 0). rewrite list_lookup_insert_ne by done.
    split; [done|]. intros r'. rewrite D. intros [= ->]. by left.
  - eapply commit_at_most_agree; [|done]. unfold COMMIT_START. by rewrite !list_lookup_insert_ne by lia.
  - eapply commit_at_most_agree; [|done]. unfold COMMIT_START. by rewrite !list_lookup_insert_ne by lia.
Qed.

Lemma formatted_high i : (2 <= i)%nat -> formatted L bm !! i = F !! i.
Proof. intros Hi. unfold formatted. by rewrite !list_lookup_insert_ne by lia. Qed.

(** Until the first superblock is written the device reads as unformatted. *)
Lemma unformatted_agree l :
  length l = length L -> l !! 0%nat = L !! 0%nat -> l !! 1%nat = L !! 1%nat -> unformatted l.
Proof.
  intros Hl E0 E1. pose proof (proj1 HB) as Hn. split; [by rewrite Hl|].
  destruct (blank_block L 0 HB) as (b0 & B0 & Z0); [lia|]. destruct (blank_block L 1 HB) as (b1 & B1 & Z1); [lia|].
  exists b0, b1. rewrite E0, E1. done.
Qed.

Lemma unformatted_data : unformatted F.
Proof.
  pose proof (proj1 HB) as Hn.
  apply unformatted_agree; [apply length_formatted|..]; unfold F, formatted_data, DATA_START, COMMIT_START,
    COW_COMMIT_SLOTS; by rewrite !list_lookup_insert_ne by lia.
Qed.

Definition format_outcome l : Prop :=
  unformatted l ∨ (recovers l r ∧ forall i, (2 <= i)%nat -> l !! i = F !! i).

Lemma crashes_unformatted ws :
  Forall (fun w => 2 <= w.1)%nat ws -> crashes_in format_outcome (mk_disk L ws).
Proof.
  intros Hw l Hc. left. apply unformatted_agree; [by apply Hc|..];
    apply (crash_untouched _ _ _ Hc); intros b [k Hk]%list_elem_of_lookup;
    pose proof (Forall_lookup_1 _ _ _ _ Hw Hk); simpl in *; lia.
Qed.

Lemma format_safe :
  format_bitmap n = [bm] -> safe format_outcome format (reboot L) (reboot (formatted L bm)) (mk_volume r 1).
Proof.
  intros Hbm. pose proof HB as [Hn Hz]. destruct (capacity_layout n Hn) as [Hcap Hlay].
  assert (HF : length F = length L) by apply length_formatted.
  assert (P0 : format_outcome F) by (left; apply unformatted_data).
  assert (P1 : format_outcome (<[0%nat := e]> F)).
  { right. split; [left; exists 0; apply format_first|]. intros i Hi. apply list_lookup_insert_ne. lia. }
  assert (P2 : format_outcome (formatted L bm)).
  { right. split; [left; exists 1; apply format_second|]. intros i Hi. by rewrite formatted_high. }
  assert (C0 : crashes_in format_outcome (reboot L)) by (by apply crashes_unformatted).
  apply safe_count; [done|]. change (Z.of_nat (length (durable (reboot L)))) with n. rewrite Hcap, Hlay.
  destruct (blank_block L 0 HB) as (b0 & B0 & _); [lia|].
  eapply safe_try; [by apply safe_ret|]. eapply safe_try; [apply safe_quiet; [by apply quiet_load|done]|].
  eapply safe_try; [apply safe_quiet; [apply quiet_check_blank|done]|].
  { apply Forall_forall. intros i Hi%list_elem_of_In%elem_of_seqZ. rewrite current_reboot. apply blank_block; [done|unfold n in Hi; lia]. }
  eapply safe_try; [by apply safe_ret|]. cbv beta iota zeta. change (wrap 16 1) with 1.
  fold (format_root n). fold (format_bitmap n). rewrite Hbm, write_bitmap_one by done.
  change (metadata_root (format_root n)) with DATA_START. fold r e.
  set (d1 := mk_disk L [(Z.to_nat DATA_START, block_zero)]).
  set (d2 := mk_disk L [(Z.to_nat DATA_START, block_zero); (Z.to_nat (n - 2), bm)]).
  assert (Hd1 : crashes_in format_outcome d1) 
    by (apply crashes_unformatted; repeat (apply Forall_cons_2 || apply Forall_nil_2);
        unfold DATA_START, COMMIT_START, COW_COMMIT_SLOTS; simpl; lia).
  assert (Hd2 : crashes_in format_outcome d2) 
    by (apply crashes_unformatted; repeat (apply Forall_cons_2 || apply Forall_nil_2);
        unfold DATA_START, COMMIT_START, COW_COMMIT_SLOTS; simpl; lia).
  assert (Ei : bitmap_index r = n - 2) by (unfold bitmap_index, r; simpl; lia). rewrite Ei.
  eapply (safe_try _ _ _ _ d1); [apply safe_noflush; [done|apply exec_store; simpl|done]|].
  { change (Z.to_nat DATA_START) with 4%nat. lia. }
  eapply (safe_try _ _ _ _ d2); [eapply (safe_try _ _ _ _ d2); [|by apply safe_ret]|].
  { apply safe_noflush; [done|apply exec_store; simpl; lia|done]. }
  eapply safe_try; [by apply safe_sync|]. change (current d2) with F.
  assert (CF : crashes_in format_outcome (reboot F)) by (by apply crashes_in_reboot).
  eapply safe_try; [apply safe_quiet; [apply quiet_verify_block|done]|].
  { unfold F, formatted_data. rewrite current_reboot, list_lookup_insert_ne, list_lookup_insert_eq; [done|..];
      unfold DATA_START, COMMIT_START, COW_COMMIT_SLOTS; lia. }
  eapply safe_try; [apply safe_quiet; [apply quiet_verify_bitmap|done]|]; [done|done| |].
  { rewrite Ei, current_reboot. unfold F, formatted_data. apply list_lookup_insert_eq. rewrite length_insert. lia. }
  unfold write_superblock. change SUPERBLOCK_A with 0. change SUPERBLOCK_B with 1.
  apply safe_write_through; [lia|done|done|]. apply safe_write_through; [rewrite length_insert; lia|done|done|].
  apply safe_ret. by apply crashes_in_reboot.
Qed.
End format.
