(* ===== verification/CowCommit.v ===== *)
(** * Transactions of the copy-on-write volume ([src/storage/src/cow.rs])

    The invariant [tx_ok] of an open transaction on a device, its preservation
    by the operations of a transaction, and crash atomicity of [commit]: a
    power loss before the commit record is durable leaves the old volume with
    all its blocks, one after it leaves the new volume. *)

From Stdlib Require Import ZArith Lia.
From stdpp Require Import base list option numbers.
From S2P Require Import Prelude Bytes BlockStore Cow DiskLogic CowCodec CowAlloc CowCrash.

#[local] Open Scope Z_scope.
#[local] Open Scope io_scope.
#[local] Opaque encode_root encode_commit block_zero bitmap_zero encode_retired decode_root decode_commit.

Implicit Types (L l : list Block) (r : CowRoot) (d : disk) (t : CowTransaction).

(** An extent inside the data arena. *)
Definition in_data r (e : CowExtent) : Prop :=
  data_start r <= start e ∧ 0 < extent_blocks e ∧ extent_end e <= data_end r.

(** The same, for an extent that may be empty. *)
Definition within r (e : CowExtent) : Prop :=
  data_start r <= start e ∧ 0 <= extent_blocks e ∧ extent_end e <= data_end r.

Lemma in_data_within r e : in_data r e -> within r e.
Proof. unfold in_data, within. lia. Qed.

(** [K] is a set of blocks in use that the transaction must not touch. *)
Record tx_ok d r (a : Z) (bm : Block) (K : Z -> Prop) t : Prop := {
  tx_committed : committed (durable d) r a;
  tx_bitmap : durable d !! Z.to_nat (bitmap_index r) = Some bm;
  tx_bitmap_ok : block_ok bm;
  tx_root : t_root t = r;
  tx_slot : t_bitmap_slot t = 1 - bitmap_slot r;
  tx_pending : forall i b, (i, b) ∈ pending d -> covered (allocated t) (Z.of_nat i);
  tx_allocated : Forall (within r) (allocated t);
  tx_kept : forall i, K i -> bitmap_is_set [bm] i = true;
  tx_free : forall i, covered (allocated t) i -> ~ K i;
  tx_released : Forall (in_data r) (released t)
}.

(** ** What a crash leaves of the old volume *)

(** [l] is the volume [r] with the kept blocks and the bitmap as in [L]. *)
Definition same_volume L r (bm : Block) (K : Z -> Prop) l : Prop :=
  (exists a, committed l r a) ∧ l !! Z.to_nat (bitmap_index r) = Some bm ∧
  forall i, Z.of_nat i < data_end r -> K (Z.of_nat i) -> l !! i = L !! i.

Lemma committed_agree L l r a :
  length l = length L -> (forall i, (i < 4)%nat -> l !! i = L !! i) -> committed L r a -> committed l r a.
Proof.
  intros Hl Ha [Hv Hact Hh Hy H0 H1]. unfold holds, yields, commit_at_most in *.
  assert (Ea : forall i, 0 <= i < 4 -> l !! Z.to_nat i = L !! Z.to_nat i) by (intros; apply Ha; lia).
  constructor; unfold holds, yields, commit_at_most; [by apply (valid_length L)|done|..];
    rewrite Ea by (unfold COMMIT_START; lia); done.
Qed.

Lemma covered_in r es i : Forall (within r) es -> covered es i -> data_start r <= i < data_end r.
Proof.
  intros Hf (e & He & Hi)%covered_spec. apply list_elem_of_lookup in He as [k Hk].
  destruct (Forall_lookup_1 _ _ _ _ Hf Hk) as (? & ? & ?). lia.
Qed.

Lemma bitmap_index_bounds L r :
  valid L r -> data_end r <= bitmap_index r ∧ (Z.to_nat (bitmap_index r) < length L)%nat ∧ 4 < data_end r.
Proof.
  intros Hv. destruct (valid_root_spec _ _ Hv) as (? & Hb & Hs & _ & ? & ? & ?).
  destruct Hv as [_ _ Hroom Hslot _]. unfold bitmap_index. rewrite Hb.
  unfold DATA_START, COMMIT_START, COW_COMMIT_SLOTS in *. lia.
Qed.

(** Whatever a crash keeps of writes that all go to data blocks outside [K],
    or to the spare bitmap, is the old volume. *)
Lemma crash_same_volume d r a bm K ws :
  committed (durable d) r a -> durable d !! Z.to_nat (bitmap_index r) = Some bm ->
  (forall i b, (i, b) ∈ ws -> data_start r <= Z.of_nat i ∧ Z.of_nat i ≠ bitmap_index r ∧
     (Z.of_nat i < data_end r -> ~ K (Z.of_nat i))) ->
  crashes_in (same_volume (durable d) r bm K) (mk_disk (durable d) ws).
Proof.
  intros Hc Hb Hw l Hl. pose proof (cm_valid _ _ _ Hc) as Hv.
  destruct (valid_root_spec _ _ Hv) as (_ & _ & Hs & _). destruct (bitmap_index_bounds _ _ Hv) as (B1 & B2 & B3).
  assert (Hu : forall i, (forall b, (i, b) ∉ ws) -> l !! i = durable d !! i)
    by (intros i; apply (crash_untouched _ _ _ Hl)).
  split; [exists a; apply (committed_agree (durable d)); [apply Hl| |done]|split].
  - intros i Hi. apply Hu. intros b Hin. destruct (Hw i b Hin) as (H1 & _).
    rewrite Hs in H1. unfold DATA_START, COMMIT_START, COW_COMMIT_SLOTS in H1. lia.
  - rewrite Hu; [done|]. intros b Hin. destruct (Hw _ b Hin) as (_ & H2 & _). lia.
  - intros i Hi Hs'. apply Hu. intros b Hin. destruct (Hw i b Hin) as (_ & _ & H3).
    by apply H3.
Qed.

Lemma tx_writes d r a bm K t i b :
  tx_ok d r a bm K t -> (i, b) ∈ pending d ->
  data_start r <= Z.of_nat i < data_end r ∧ Z.of_nat i ≠ bitmap_index r ∧ ~ K (Z.of_nat i).
Proof.
  intros H Hin. pose proof (tx_pending _ _ _ _ _ _ H i b Hin) as Hc.
  pose proof (covered_in _ _ _ (tx_allocated _ _ _ _ _ _ H) Hc).
  destruct (bitmap_index_bounds _ _ (cm_valid _ _ _ (tx_committed _ _ _ _ _ _ H))) as (B1 & _).
  split; [lia|]. split; [lia|]. by apply H.
Qed.

Lemma tx_crash d r a bm K t : tx_ok d r a bm K t -> crashes_in (same_volume (durable d) r bm K) d.
Proof.
  intros H. destruct d as [L ws]. apply (crash_same_volume (mk_disk L ws) r a); try apply H.
  intros i b Hin. destruct (tx_writes _ _ _ _ _ _ i b H Hin) as ([? _] & ? & ?). done.
Qed.

(** ** Transaction operations *)

Lemma noflush_read_bitmap r out : noflush (read_bitmap r out).
Proof.
  unfold read_bitmap. generalize (bitmap_start r + bitmap_blocks r * bitmap_slot r). revert out.
  induction (Z.to_nat (bitmap_blocks r)) as [|n IH]; intros out i; [done|]. destruct out as [|o out]; [done|].
  cbn [read_into]. apply noflush_try; [done|]. intros b. apply noflush_try; [apply IH|done].
Qed.

Lemma noflush_allocate t n arena : noflush (allocate_blocks_in_arena t n arena).
Proof.
  unfold allocate_blocks_in_arena. destruct (n =? 0); [done|]. destruct arena as [x y].
  destruct (_ || _); [done|]. apply noflush_try; [apply noflush_read_bitmap|]. intros b.
  destruct (scan _ _ _ _ _ _); [|done]. destruct (extent_new _ _); [|done]. by destruct (_ =? _).
Qed.

(** The bitmap is read as it was committed. *)
Lemma tx_read_bitmap d r a bm K t :
  tx_ok d r a bm K t -> quiet (read_bitmap r bitmap_zero) d [bm].
Proof.
  intros H. pose proof (cm_valid _ _ _ (tx_committed _ _ _ _ _ _ H)) as Hv.
  destruct (valid_root_spec _ _ Hv) as (_ & ? & _ & ? & _).
  destruct (bitmap_index_bounds _ _ Hv) as (B1 & _ & B3).
  apply quiet_read_bitmap; [done|done|]. rewrite current_untouched; [apply H|]. intros b Hin.
  pose proof (covered_in _ _ _ (tx_allocated _ _ _ _ _ _ H) (tx_pending _ _ _ _ _ _ H _ _ Hin)). lia.
Qed.

Lemma covered_app es e i : covered (es ++ [e]) i <-> covered es i ∨ start e <= i < extent_end e.
Proof.
  unfold covered. rewrite existsb_app, orb_true_iff. simpl. by rewrite orb_false_r, covers_spec.
Qed.

(** An allocation takes free blocks of the data arena only. *)
Lemma tx_allocate d r a bm K t n arena d' res :
  tx_ok d r a bm K t -> 0 <= n -> exec (allocate_blocks_in_arena t n arena) d = (d', res) ->
  d' = d ∧
  match res with
  | Err _ => True
  | Ok (t', e) => t' = with_allocated t (allocated t ++ [e]) ∧ extent_blocks e = n ∧
      in_data r e ∧ run [bm] t (start e) n ∧ tx_ok d r a bm K t'
  end.
Proof.
  intros H Hn E. unfold allocate_blocks_in_arena in E. rewrite (tx_root _ _ _ _ _ _ H) in E.
  destruct (Z.eqb_spec n 0); [by injection E as <- <-|]. destruct arena as [x y].
  destruct ((x <? data_start r) || (y <=? x) || (data_end r <? y)) eqn:Eb; [by injection E as <- <-|].
  rewrite !orb_false_iff, !Z.ltb_ge, Z.leb_gt in Eb. destruct Eb as ((Hx & Hxy) & Hy).
  rewrite (quiet_exec _ _ _ _ (tx_read_bitmap _ _ _ _ _ _ H)) in E.
  pose proof (scan_arena [bm] t n x y ltac:(lia) ltac:(lia)) as Hs.
  destruct (scan _ _ _ _ _ _) as [s|]; [|by injection E as <- <-]. destruct Hs as (S1 & S2 & S3 & _).
  unfold extent_new in E. destruct (Z.eqb_spec n 0); [lia|].
  destruct (_ =? _); [by injection E as <- <-|]. injection E as <- <-. split; [done|].
  assert (Hd : in_data r (mk_extent s n)) by (unfold in_data, extent_end; simpl; lia).
  split; [done|]. split; [done|]. split; [done|]. split; [done|]. destruct H. constructor; try done.
  - intros i b Hin. apply covered_app. left. eauto.
  - apply Forall_app. split; [done|]. by apply Forall_cons_2; [apply in_data_within|apply Forall_nil_2].
  - intros i [Hi|Hi]%covered_app; [auto|]. intros HK. destruct (S3 i) as [U _].
    { unfold extent_end in Hi. simpl in *. lia. }
    by rewrite (tx_kept0 i HK) in U.
Qed.

(** A block may only be written inside the transaction's own extents. *)
Lemma tx_write d r a bm K t i b d' res :
  tx_ok d r a bm K t -> exec (write_block t i b) d = (d', res) ->
  tx_ok d' r a bm K t ∧ durable d' = durable d ∧ (res = Ok tt -> d' = written d i b).
Proof.
  intros H E. unfold write_block in E. rewrite (tx_root _ _ _ _ _ _ H) in E.
  destruct ((i <? data_start r) || (data_end r <=? i)) eqn:Eb; [by injection E as <- <-|].
  rewrite orb_false_iff, Z.ltb_ge, Z.leb_gt in Eb.
  destruct (existsb _ _) eqn:Ec; cbn [negb] in E; [|by injection E as <- <-].
  pose proof (cm_valid _ _ _ (tx_committed _ _ _ _ _ _ H)) as Hv.
  destruct (bitmap_index_bounds _ _ Hv) as (B1 & B2 & B3).
  destruct (valid_root_spec _ _ Hv) as (_ & _ & Hds & _).
  unfold DATA_START, COMMIT_START, COW_COMMIT_SLOTS in Hds.
  rewrite exec_store in E by (pose proof (v_room _ _ Hv); lia).
  injection E as <- <-. split; [|done]. destruct H. constructor; try done.
  intros j b' Hin. apply elem_of_app in Hin as [Hin|[= -> ->]%list_elem_of_singleton]; [eauto|].
  by rewrite Z2Nat.id by lia.
Qed.

(** A reservation that succeeds is inside the data arena. *)
Lemma tx_reserve d r a bm K t e arena t' :
  tx_ok d r a bm K t -> reserve_extent_in_arena t e arena = Ok t' ->
  0 <= extent_blocks e -> (forall i, start e <= i < extent_end e -> ~ K i) ->
  tx_ok d r a bm K t' ∧ t' = with_allocated t (allocated t ++ [e]).
Proof.
  intros H E He Hk. unfold reserve_extent_in_arena in E. destruct arena as [x y].
  rewrite (tx_root _ _ _ _ _ _ H) in E. destruct (_ || _) eqn:Eb; [done|]. injection E as <-. split; [|done].
  rewrite !orb_false_iff, !Z.ltb_ge in Eb. destruct Eb as ((((((((? & _) & ?) & _) & _) & _) & _) & _) & _).
  destruct H. constructor; try done.
  - intros i b Hin. apply covered_app. left. eauto.
  - apply Forall_app. split; [done|]. by apply Forall_cons_2; [split|apply Forall_nil_2].
  - intros i [Hi|Hi]%covered_app; auto.
Qed.

Lemma tx_retire d r a bm K t e t' :
  tx_ok d r a bm K t -> retire_extent t e = Ok t' ->
  tx_ok d r a bm K t' ∧ t' = with_retired t (retired t ++ [e]) ∧
  data_start r <= start e ∧ extent_end e <= data_end r ∧ Z.of_nat (length (retired t)) ≠ COW_MAX_RETIRED_EXTENTS.
Proof.
  intros H E. unfold retire_extent in E. rewrite (tx_root _ _ _ _ _ _ H) in E.
  destruct (Z.ltb_spec (start e) (data_start r)); [done|]. cbn [orb] in E.
  destruct (checked_add 64 (start e) (extent_blocks e)) as [e_end|] eqn:Ea; [|done].
  destruct (Z.ltb_spec (data_end r) e_end); [done|].
  destruct (Z.eqb_spec (Z.of_nat (length (retired t))) COW_MAX_RETIRED_EXTENTS); [done|]. injection E as <-.
  split; [by destruct H; constructor|]. split; [done|]. split; [done|]. split; [|done].
  unfold checked_add in Ea. destruct (_ <? _); [|done]. injection Ea as <-. unfold extent_end. lia.
Qed.

(** The operations a caller applies to an open transaction.  An operation that
    fails leaves the transaction as it was. *)
Inductive tx_op : Type :=
| OpAllocate (blocks : Z) (arena : Z * Z)
| OpWriteBlock (i : Z) (b : Block)
| OpWriteExtent (e : CowExtent) (bs : list Block)
| OpReserve (e : CowExtent) (arena : Z * Z)
| OpRetire (e : CowExtent).

(** [reserve_extent] takes any extent of the arena without a look at the
    bitmap: it is the caller's part to spare the blocks of [K].  The other
    conditions are the range of [u32]. *)
Definition op_ok (K : Z -> Prop) (op : tx_op) : Prop :=
  match op with
  | OpAllocate n _ => 0 <= n
  | OpReserve e _ => 0 <= extent_blocks e ∧ forall i, start e <= i < extent_end e -> ~ K i
  | _ => True
  end.

Definition run_op (t : CowTransaction) (op : tx_op) : io (result CowTransaction CowError) :=
  match op with
  | OpAllocate n arena => try! p := allocate_blocks_in_arena t n arena in pure (fst p)
  | OpWriteBlock i b => do! write_block t i b in pure t
  | OpWriteExtent e bs => do! write_extent t e bs in pure t
  | OpReserve e arena => liftr (reserve_extent_in_arena t e arena)
  | OpRetire e => liftr (retire_extent t e)
  end.

Fixpoint run_ops (t : CowTransaction) (ops : list tx_op) : io CowTransaction :=
  match ops with
  | [] => Ret t
  | op :: ops => bind! res := run_op t op in run_ops (match res with Ok t' => t' | Err _ => t end) ops
  end.

Lemma noflush_write_block t i b : noflush (write_block t i b).
Proof. unfold write_block. destruct (_ || _); [done|]. by destruct (negb _). Qed.

Lemma noflush_write_extent t e bs : noflush (write_extent t e bs).
Proof.
  unfold write_extent. destruct (negb _); [done|]. generalize (start e).
  induction bs as [|b bs IH]; intros i; [done|]. cbn [write_extent_from].
  apply noflush_try; [apply noflush_write_block|auto].
Qed.

Lemma noflush_run_op t op : noflush (run_op t op).
Proof.
  destruct op; simpl; [| | |done|done]; (apply noflush_try; [|done]);
    [apply noflush_allocate|apply noflush_write_block|apply noflush_write_extent].
Qed.

Lemma noflush_run_ops t ops : noflush (run_ops t ops).
Proof.
  revert t. induction ops as [|op ops IH]; intros t; [done|].
  cbn [run_ops]. apply noflush_bind; [apply noflush_run_op|auto].
Qed.

Lemma tx_write_extent d r a bm K t e bs d' res :
  tx_ok d r a bm K t -> exec (write_extent t e bs) d = (d', res) -> tx_ok d' r a bm K t ∧ durable d' = durable d.
Proof.
  intros H E. unfold write_extent in E. destruct (negb _); [by injection E as <- <-|].
  revert d H E. generalize (start e). induction bs as [|b bs IH]; intros i d H E.
  { by injection E as <- <-. }
  cbn [write_extent_from] in E. rewrite exec_try in E.
  destruct (exec (write_block t i b) d) as [d1 res1] eqn:E1.
  destruct (tx_write _ _ _ _ _ _ _ _ _ _ H E1) as (H1 & D1 & _). rewrite <- D1.
  destruct res1 as [[]|err]; [eauto|]. by injection E as <- <-.
Qed.

Lemma tx_run_op d r a bm K t op d' res :
  tx_ok d r a bm K t -> op_ok K op -> exec (run_op t op) d = (d', res) ->
  tx_ok d' r a bm K (match res with Ok t' => t' | Err _ => t end) ∧ durable d' = durable d.
Proof.
  intros H Ho E. destruct op as [n arena|i b|e bs|e arena|e]; cbn [run_op] in E.
  - rewrite exec_try in E. destruct (exec (allocate_blocks_in_arena t n arena) d) as [d1 res1] eqn:E1.
    destruct (tx_allocate _ _ _ _ _ _ _ _ _ _ H Ho E1) as (-> & H1).
    destruct res1 as [[t' e]|err]; injection E as <- <-; [|done]. split; [apply H1|done].
  - rewrite exec_try in E. destruct (exec (write_block t i b) d) as [d1 res1] eqn:E1.
    destruct (tx_write _ _ _ _ _ _ _ _ _ _ H E1) as (H1 & D1 & _).
    by destruct res1 as [[]|err]; injection E as <- <-.
  - rewrite exec_try in E. destruct (exec (write_extent t e bs) d) as [d1 res1] eqn:E1.
    destruct (tx_write_extent _ _ _ _ _ _ _ _ _ _ H E1) as (H1 & D1).
    by destruct res1 as [[]|err]; injection E as <- <-.
  - injection E as <- <-. destruct (reserve_extent_in_arena t e arena) as [t'|err] eqn:Er; [|done].
    split; [|done]. destruct Ho. by apply (tx_reserve _ _ _ _ _ _ _ _ _ H Er).
  - injection E as <- <-. destruct (retire_extent t e) as [t'|err] eqn:Er; [|done].
    split; [|done]. by apply (tx_retire _ _ _ _ _ _ _ _ H Er).
Qed.

Lemma tx_run_ops ops : forall d r a bm K t,
  tx_ok d r a bm K t -> Forall (op_ok K) ops ->
  tx_ok (exec (run_ops t ops) d).1 r a bm K (exec (run_ops t ops) d).2 ∧
  durable (exec (run_ops t ops) d).1 = durable d.
Proof.
  induction ops as [|op ops IH]; intros d r a bm K t H Ho; [done|]. apply Forall_cons_1 in Ho as [Ho Hos].
  cbn [run_ops]. rewrite exec_bind. destruct (exec (run_op t op) d) as [d1 res] eqn:E1.
  destruct (tx_run_op _ _ _ _ _ _ _ _ _ H Ho E1) as [H1 D1].
  destruct (IH _ _ _ _ _ _ H1 Hos) as [H2 D2]. split; [done|]. by rewrite D2.
Qed.

(** ** The retired list *)

Lemma noflush_write_retired t : noflush (write_retired t).
Proof.
  unfold write_retired. destruct (retired t); [done|]. apply noflush_try; [apply noflush_allocate|].
  intros [t' e]. by apply noflush_try.
Qed.

(** What [write_retired] has done when it succeeds. *)
Definition retired_written d (bm : Block) t d2 (t2 : CowTransaction) (rr : Z) : Prop :=
  (retired t = [] ∧ rr = 0 ∧ t2 = t ∧ d2 = d) ∨
  (retired t ≠ [] ∧ t2 = with_allocated t (allocated t ++ [mk_extent rr 1]) ∧
   in_data (t_root t) (mk_extent rr 1) ∧ run [bm] t rr 1 ∧
   d2 = written d rr (encode_retired (retired t))).

Lemma tx_write_retired d r a bm K t d2 res :
  tx_ok d r a bm K t -> exec (write_retired t) d = (d2, res) ->
  durable d2 = durable d ∧ crashes_in (same_volume (durable d) r bm K) d2 ∧
  match res with
  | Err _ => True
  | Ok (t2, rr) => tx_ok d2 r a bm K t2 ∧ retired_written d bm t d2 t2 rr
  end.
Proof.
  intros H E. pose proof (tx_crash _ _ _ _ _ _ H) as Hcr. unfold write_retired in E.
  destruct (retired t) as [|e0 es] eqn:Er.
  { injection E as <- <-. split; [done|]. split; [done|]. split; [done|]. by left. }
  rewrite exec_try in E. unfold allocate_blocks in E.
  destruct (exec (allocate_blocks_in_arena _ _ _) d) as [d1 res1] eqn:E1.
  destruct (tx_allocate _ _ _ _ _ _ 1 _ _ _ H ltac:(lia) E1) as (-> & H1).
  destruct res1 as [[t' e]|err]; [|by injection E as <- <-].
  destruct H1 as (-> & He & Hd & Hr & Ht').
  pose proof (cm_valid _ _ _ (tx_committed _ _ _ _ _ _ H)) as Hv.
  destruct (valid_root_spec _ _ Hv) as (_ & _ & Hds & _).
  unfold DATA_START, COMMIT_START, COW_COMMIT_SLOTS in Hds. destruct Hd as (D1 & D2 & D3).
  assert (Ee : e = mk_extent (start e) 1) by (destruct e; simpl in *; by subst). unfold extent_end in D3.
  rewrite exec_try, exec_store in E by (pose proof (v_room _ _ Hv); lia). injection E as <- <-.
  split; [done|].
  assert (Hok : tx_ok (written d (start e) (encode_retired (retired (with_allocated t (allocated t ++ [e])))))
    r a bm K (with_allocated t (allocated t ++ [e]))).
  { destruct Ht'. constructor; try done. intros i b Hin. cbn [pending written] in Hin.
    apply elem_of_app in Hin as [Hin|[= -> ->]%list_elem_of_singleton]; [eauto|].
    apply covered_app. right. rewrite Z2Nat.id by lia. unfold extent_end. lia. }
  split; [apply (tx_crash _ _ _ _ _ _ Hok)|]. split; [done|]. right. rewrite <- Ee, Er. split; [done|].
  split; [done|]. rewrite (tx_root _ _ _ _ _ _ H). split; [by split|]. split; done.
Qed.

(** ** The new bitmap and the new root *)

Definition new_bitmap (bm : Block) t : list Block :=
  bitmap_set_extents (bitmap_set_extents [bm] (released t) false) (allocated t) true.

Lemma data_in_bitmap L r e : valid L r -> within r e -> 0 <= start e ∧ extent_end e <= MAX_BLOCK_COUNT.
Proof.
  intros Hv (H1 & H2 & H3). destruct (valid_root_spec _ _ Hv) as (_ & _ & Hds & _).
  unfold DATA_START, COMMIT_START, COW_COMMIT_SLOTS in Hds. destruct Hv as [Hc%capacity_spec _ Hroom _ _]. lia.
Qed.

Lemma new_bitmap_spec d r a bm K t :
  tx_ok d r a bm K t ->
  exists nb, new_bitmap bm t = [nb] ∧ block_ok nb ∧ forall i, in_bitmap i ->
    bitmap_is_set [nb] i =
    existsb (fun e => covers e i) (allocated t) ||
    (negb (existsb (fun e => covers e i) (released t)) && bitmap_is_set [bm] i).
Proof.
  intros H. pose proof (cm_valid _ _ _ (tx_committed _ _ _ _ _ _ H)) as Hv. unfold new_bitmap.
  destruct (bitmap_set_extents_spec [bm] (released t) false) as [K1 S1].
  { exists bm. split; [done|apply H]. }
  { eapply Forall_impl; [|apply (tx_released _ _ _ _ _ _ H)]. intros e He%in_data_within. by apply (data_in_bitmap (durable d) r). }
  destruct (bitmap_set_extents_spec _ (allocated t) true K1) as [(nb & E & K2) S2].
  { eapply Forall_impl; [|apply (tx_allocated _ _ _ _ _ _ H)]. intros e. by apply (data_in_bitmap (durable d)). }
  exists nb. split; [done|]. split; [done|]. intros i Hi. rewrite <- E, S2 by done.
  destruct (existsb _ (allocated t)); [done|]. rewrite S1 by done. by destruct (existsb _ (released t)).
Qed.

Lemma metadata_valid v t bitmap m :
  0 <= extent_blocks m -> metadata_invalid v t bitmap m = false -> in_data (root v) m.
Proof.
  unfold metadata_invalid. rewrite !orb_false_iff. intros Hm (((((_ & H1) & H2) & _) & H3) & _).
  apply Z.eqb_neq in H1. apply Z.ltb_ge in H2, H3. unfold in_data. lia.
Qed.

Lemma next_root_valid L r a t m g rr :
  valid L r -> t_bitmap_slot t = 1 - bitmap_slot r -> in_data r m ->
  checked_add 64 (generation r) 1 = Some g -> rr = 0 ∨ data_start r <= rr < data_end r ->
  valid L (next_root (mk_volume r a) t m g rr).
Proof.
  intros Hv Hs (M1 & M2 & M3) Hg Hrr. pose proof (valid_root_spec _ _ Hv) as (R1 & R2 & R3 & R4 & R5 & R6 & R7).
  pose proof Hv as [V1 V2 V3 V4 V5]. pose proof V1 as Hc. apply capacity_spec in Hc.
  unfold MAX_BLOCK_COUNT, COW_MAX_BITMAP_BLOCKS, BLOCK_BYTES in Hc. unfold extent_end in M3.
  assert (Hge : g = generation r + 1 ∧ g < 2 ^ 64).
  { unfold checked_add in Hg. destruct (Z.ltb_spec (generation r + 1) (2 ^ 64)); [|done]. injection Hg as <-. lia. }
  unfold DATA_START, COMMIT_START, COW_COMMIT_SLOTS in *.
  constructor; [done| |done|cbn [bitmap_slot next_root]; lia|].
  - unfold validate_root, next_root. cbn [generation bitmap_slot bitmap_blocks data_start data_end bitmap_start
      metadata_root metadata_blocks root]. rewrite R2, R3, R4, Hs. unfold DATA_START, COMMIT_START, COW_COMMIT_SLOTS, COW_MAX_BITMAP_BLOCKS.
    assert (checked_add 64 (start m) (extent_blocks m) = Some (start m + extent_blocks m)) as ->.
    { unfold checked_add. by destruct (Z.ltb_spec (start m + extent_blocks m) (2 ^ 64)); [|lia]. }
    repeat match goal with
    | |- context[?x =? ?y] => destruct (Z.eqb_spec x y); [try lia|try lia]
    | |- context[?x <=? ?y] => destruct (Z.leb_spec x y); [try lia|try lia]
    | |- context[?x <? ?y] => destruct (Z.ltb_spec x y); [try lia|try lia]
    end; done.
  - destruct V5. unfold fits in *. constructor; unfold fits; cbn; try done; lia.
Qed.

(** ** The writes of a commit *)

(** [l] holds the new root, with everything outside the superblocks and the
    commit slots as in [L]. *)
Definition new_volume L r' l : Prop :=
  recovers l r' ∧ forall i, (4 <= i)%nat -> l !! i = L !! i.

Section commit_writes.
Variables (d : disk) (r : CowRoot) (a : Z) (bm : Block) (K : Z -> Prop) (t : CowTransaction).
Variables (m : CowExtent) (g rr : Z) (nb : Block).
Hypothesis Htx : tx_ok d r a bm K t.
Hypothesis Hm : in_data r m.
Hypothesis Hg : checked_add 64 (generation r) 1 = Some g.
Hypothesis Hrr : rr = 0 ∨ data_start r <= rr < data_end r.

Let v : CowVolume := mk_volume r a.
Let r' : CowRoot := next_root v t m g rr.
Let d1 : disk := written d (bitmap_index r') nb.
Let L1 : list Block := current d1.
Let k : nat := Z.to_nat (COMMIT_START + commit_slot r').
Let L2 : list Block := <[k := encode_commit (commit_of r')]> L1.
Let L3 : list Block := <[Z.to_nat (1 - a) := encode_root block_zero r']> L2.

Definition commit_outcome l : Prop := same_volume (durable d) r bm K l ∨ new_volume L1 r' l.

Lemma cw_valid : valid (durable d) r.
Proof. apply (cm_valid _ _ _ (tx_committed _ _ _ _ _ _ Htx)). Qed.

Lemma cw_valid' : valid (durable d) r'.
Proof. apply next_root_valid; [apply cw_valid|apply Htx|done|done|done]. Qed.

Lemma cw_generation : generation r' = generation r + 1.
Proof.
  unfold r'. simpl. unfold checked_add in Hg. destruct (_ <? _); [|done]. by injection Hg.
Qed.

Lemma cw_bitmap_index :
  bitmap_index r' ≠ bitmap_index r ∧ data_end r <= bitmap_index r' ∧ bitmap_index r' < Z.of_nat (length (durable d)).
Proof.
  pose proof cw_valid as Hv. destruct (valid_root_spec _ _ Hv) as (_ & E & _).
  destruct Hv as [_ _ Hroom Hs _]. unfold bitmap_index, r'. cbn [next_root data_end bitmap_blocks bitmap_slot v root].
  rewrite E, (tx_slot _ _ _ _ _ _ Htx). lia.
Qed.

Lemma cw_length : length L1 = length (durable d).
Proof. exact (length_current d1). Qed.

Lemma cw_crash : crashes_in (same_volume (durable d) r bm K) d1.
Proof.
  destruct cw_bitmap_index as (B1 & B2 & B3). destruct (bitmap_index_bounds _ _ cw_valid) as (_ & _ & B4).
  destruct (valid_root_spec _ _ cw_valid) as (_ & _ & Hds & _).
  apply (crash_same_volume d r a); [apply Htx|apply Htx|]. intros i b Hin.
  apply elem_of_app in Hin as [Hin|[= -> ->]%list_elem_of_singleton].
  - destruct (tx_writes _ _ _ _ _ _ i b Htx Hin) as (? & ? & ?). split; [lia|done].
  - rewrite Z2Nat.id by lia. unfold DATA_START, COMMIT_START, COW_COMMIT_SLOTS in *. lia.
Qed.

Lemma cw_old : same_volume (durable d) r bm K L1.
Proof. apply cw_crash, crash_keeps. Qed.

(** The durable commit record makes the new root the one recovery finds. *)
Lemma cw_rolling : rolling L2 r a r'.
Proof.
  destruct (tx_committed _ _ _ _ _ _ Htx) as [Hv Ha Hh Hy H0 H1].
  assert (HL : length L2 = length (durable d)) by (unfold L2; rewrite length_insert; apply cw_length).
  assert (Hlow : forall i, 0 <= i < 4 -> i ≠ COMMIT_START + commit_slot r' ->
    L2 !! Z.to_nat i = durable d !! Z.to_nat i).
  { intros i Hi Hne. unfold L2, k. rewrite list_lookup_insert_ne by
      (destruct (commit_slot_cases r') as [-> | ->] in Hne |- *; unfold COMMIT_START in *; lia).
    apply (current_untouched d1). intros b Hin. destruct cw_bitmap_index as (_ & B2 & _).
    destruct (bitmap_index_bounds _ _ Hv) as (_ & _ & B4).
    apply elem_of_app in Hin as [Hin|[= E _]%list_elem_of_singleton]; [|lia].
    destruct (tx_writes _ _ _ _ _ _ _ b Htx Hin) as (Hin' & _).
    destruct (valid_root_spec _ _ Hv) as (_ & _ & Hds & _).
    rewrite Hds in Hin'. unfold DATA_START, COMMIT_START, COW_COMMIT_SLOTS in Hin'. lia. }
  assert (Hcs := commit_slot_cases r'). pose proof cw_valid' as Hv'. constructor; try done.
  - by apply (valid_length (durable d)).
  - by apply (valid_length (durable d)).
  - unfold holds in *. rewrite Hlow; [done|lia|unfold COMMIT_START; lia].
  - unfold yields in *. rewrite Hlow; [done|lia|unfold COMMIT_START; lia].
  - rewrite cw_generation. lia.
  - exists (encode_commit (commit_of r')). eexists. split; [|split; [apply decode_encode_commit|]].
    + unfold L2. apply list_lookup_insert_eq. rewrite cw_length. pose proof (valid_size _ _ Hv).
      unfold k, COMMIT_START. lia.
    + destruct (v_fits _ _ Hv'). by constructor.
    + done.
  - unfold commit_at_most in *. rewrite Hlow; [|unfold COMMIT_START; lia|lia].
    destruct Hcs as [-> | ->]; done.
Qed.

Lemma cw_committed : committed L3 r' (1 - a).
Proof.
  pose proof cw_rolling as HR. apply (rolling_finish L2 r a r' a HR); [apply HR|apply HR].
Qed.

Lemma cw_new i : (4 <= i)%nat -> L2 !! i = L1 !! i ∧ L3 !! i = L1 !! i.
Proof.
  intros Hi. pose proof (commit_slot_cases r') as Hcs.
  pose proof (cm_active _ _ _ (tx_committed _ _ _ _ _ _ Htx)) as Ha. unfold L3, L2, k, COMMIT_START.
  split; rewrite !list_lookup_insert_ne by lia; done.
Qed.

Lemma cw_safe :
  safe commit_outcome (commit_writes v r' [nb] m) d (reboot L3) (mk_volume r' (1 - a), generation r').
Proof.
  destruct cw_bitmap_index as (B1 & B2 & B3). destruct (valid_root_spec _ _ cw_valid') as (_ & E1 & _ & E2 & _).
  pose proof (cm_active _ _ _ (tx_committed _ _ _ _ _ _ Htx)) as Ha.
  destruct (other_superblock_flip a Ha) as [F1 F2]. destruct Hm as (M1 & M2 & M3).
  assert (P0 : crashes_in commit_outcome d1) by (intros l Hl; left; by apply cw_crash).
  assert (P1 : commit_outcome L1) by (left; apply cw_old).
  assert (P2 : commit_outcome L2).
  { right. split; [right; exists r, a; apply cw_rolling|]. intros i Hi. by apply cw_new. }
  assert (P3 : commit_outcome L3).
  { right. split; [left; exists (1 - a); apply cw_committed|]. intros i Hi. by apply cw_new. }
  destruct (bitmap_index_bounds _ _ cw_valid) as (_ & _ & B4). pose proof (valid_size _ _ cw_valid) as Hsz.
  pose proof (commit_slot_cases r') as Hcs. pose proof (v_room _ _ cw_valid) as Hroom.
  unfold commit_writes. rewrite write_bitmap_one by done.
  eapply (safe_try _ _ _ _ d1); [apply safe_noflush; [by apply noflush_try| |done]|].
  { rewrite exec_try, exec_store by lia. done. }
  eapply safe_try; [apply safe_sync; [done|exact P1]|]. change (current d1) with L1.
  eapply safe_try; [apply safe_quiet; [|by apply crashes_in_reboot]|].
  { apply quiet_verify_each, Forall_forall. intros i Hi%list_elem_of_In.
    apply list_elem_of_fmap in Hi as (off & -> & Hoff%elem_of_seqZ).
    rewrite current_reboot. apply lookup_lt_is_Some_2. rewrite cw_length. unfold extent_end in M3. lia. }
  eapply safe_try; [apply safe_quiet; [apply quiet_verify_bitmap|by apply crashes_in_reboot]|]; [done|done| |].
  { rewrite current_reboot. unfold L1, d1. rewrite current_written. apply list_lookup_insert_eq.
    rewrite length_current. lia. }
  cbv zeta. fold (commit_slot r'). unfold write_commit, write_superblock. cbn [active_superblock v].
  rewrite F1, F2.
  apply safe_write_through; [rewrite cw_length; unfold COMMIT_START; lia|done|done|].
  apply safe_write_through; [rewrite length_insert, cw_length; lia|done|done|].
  apply safe_ret. by apply crashes_in_reboot.
Qed.

End commit_writes.

(** ** Commit *)

(** The first step of [commit]: the retired list of the old root is itself
    retired. *)
Definition retire_own r t : result CowTransaction CowError :=
  if retired_root r =? 0 then Ok t else retire_extent t (mk_extent (retired_root r) 1).

Lemma commit_retires_own (v : CowVolume) t :
  (if negb (retired_root (root v) =? 0)
   then match extent_new (retired_root (root v)) 1 with
        | None => fail InvalidRequest
        | Some e => liftr (retire_extent t e)
        end
   else pure t) = liftr (retire_own (root v) t).
Proof. unfold retire_own. by destruct (retired_root (root v) =? 0). Qed.

Lemma tx_retire_own d r a bm K t t1 :
  tx_ok d r a bm K t -> retire_own r t = Ok t1 ->
  tx_ok d r a bm K t1 ∧ allocated t1 = allocated t ∧ released t1 = released t.
Proof.
  unfold retire_own. intros H E. destruct (_ =? 0); [by injection E as <-|].
  by destruct (tx_retire _ _ _ _ _ _ _ _ H E) as (? & -> & _).
Qed.

(** What [commit] has decided before its first flush: the transaction [t2]
    with the retired list written to [rr], the new bitmap [nb] and generation
    [g]. *)
Record commit_plan d r (a : Z) (bm : Block) (K : Z -> Prop) t (m : CowExtent) (t1 t2 : CowTransaction) d2 (rr : Z)
    (nb : Block) (g : Z) : Prop := {
  cp_retired : retire_own r t = Ok t1;
  cp_written : retired_written d bm t1 d2 t2 rr;
  cp_tx : tx_ok d2 r a bm K t2;
  cp_bitmap : new_bitmap bm t2 = [nb];
  cp_metadata : metadata_invalid (mk_volume r a) t2 [nb] m = false;
  cp_generation : checked_add 64 (generation r) 1 = Some g
}.

(** The new root, and the device contents it describes. *)
Definition planned_root r (a : Z) t2 (m : CowExtent) (g rr : Z) : CowRoot :=
  next_root (mk_volume r a) t2 m g rr.

Definition planned_data d2 r' (nb : Block) : list Block := current (written d2 (bitmap_index r') nb).

(** What a crash during a commit leaves: the old volume or the new one. *)
Definition commit_crash d r (a : Z) (bm : Block) (K : Z -> Prop) t (m : CowExtent) l : Prop :=
  same_volume (durable d) r bm K l ∨
  exists t1 t2 d2 rr nb g, commit_plan d r a bm K t m t1 t2 d2 rr nb g ∧
    let r' := planned_root r a t2 m g rr in new_volume (planned_data d2 r' nb) r' l.

(** The retired list goes to a block nobody uses. *)
Lemma retired_written_kept d bm t t2 d2 rr i :
  retired_written d bm t d2 t2 rr -> 0 <= data_start (t_root t) ->
  covered (allocated t) (Z.of_nat i) ∨ bitmap_is_set [bm] (Z.of_nat i) = true ->
  current d2 !! i = current d !! i.
Proof.
  intros [(_ & _ & _ & ->)|(_ & _ & Hd & Hr & ->)] H0 Hi; [done|]. rewrite current_written.
  apply list_lookup_insert_ne. intros <-. destruct Hd as (D1 & _). simpl in D1.
  destruct (Hr rr ltac:(lia)) as (U1 & _ & U3).
  rewrite Z2Nat.id in Hi by lia. destruct Hi as [Hi|Hi]; [done|congruence].
Qed.

Lemma retired_written_range d bm t t2 d2 rr :
  retired_written d bm t d2 t2 rr -> rr = 0 ∨ data_start (t_root t) <= rr < data_end (t_root t).
Proof.
  intros [(_ & -> & _)|(_ & _ & (D1 & D2 & D3) & _)]; [by left|right]. unfold extent_end in D3. simpl in *. lia.
Qed.

Lemma retired_written_same d bm t t2 d2 rr :
  retired_written d bm t d2 t2 rr -> durable d2 = durable d ∧ t_bitmap_slot t2 = t_bitmap_slot t.
Proof. by intros [(_ & _ & -> & ->)|(_ & -> & _ & _ & ->)]. Qed.

Lemma tx_data_start d r a bm K t : tx_ok d r a bm K t -> data_start r = 4 ∧ 4 < data_end r <= bitmap_index r.
Proof.
  intros H. pose proof (cm_valid _ _ _ (tx_committed _ _ _ _ _ _ H)) as Hv.
  destruct (valid_root_spec _ _ Hv) as (_ & _ & Hds & _). destruct (bitmap_index_bounds _ _ Hv) as (? & _ & ?).
  done.
Qed.

Lemma commit_wp d r a bm K t m :
  tx_ok d r a bm K t -> 0 <= extent_blocks m ->
  wp (commit_crash d r a bm K t m) (commit (mk_volume r a) t m) d (fun d' res =>
    match res with
    | Err _ => durable d' = durable d ∧ crashes_in (same_volume (durable d) r bm K) d'
    | Ok (v', g) => exists t1 t2 d2 rr nb, commit_plan d r a bm K t m t1 t2 d2 rr nb g ∧
        let r' := planned_root r a t2 m g rr in
        v' = mk_volume r' (1 - a) ∧ pending d' = [] ∧ committed (durable d') r' (1 - a) ∧
        new_volume (planned_data d2 r' nb) r' (durable d')
    end).
Proof.
  intros H Hm0. pose proof (tx_crash _ _ _ _ _ _ H) as Hcr.
  assert (Hold : forall d', crashes_in (same_volume (durable d) r bm K) d' -> crashes_in (commit_crash d r a bm K t m) d')
    by (intros d' Hc l Hl; left; auto).
  unfold commit. rewrite commit_retires_own. cbn [root].
  apply wp_try, wp_ret; [auto|]. destruct (retire_own r t) as [t1|err] eqn:Er; [|done].
  destruct (tx_retire_own _ _ _ _ _ _ _ H Er) as (H1 & Ea1 & _).
  apply wp_try, wp_noflush; [apply noflush_write_retired|..].
  all: destruct (exec (write_retired t1) d) as [d2 res] eqn:Ew; cbn [fst snd];
    destruct (tx_write_retired _ _ _ _ _ _ _ _ H1 Ew) as (D2 & C2 & R2).
  { auto. }
  destruct res as [[t2 rr]|err]; [|done]. destruct R2 as (H2 & R2).
  apply wp_try. eapply wp_quiet; [apply (tx_read_bitmap _ _ _ _ _ _ H2)|auto|]. cbv zeta.
  fold (new_bitmap bm t2). destruct (new_bitmap_spec _ _ _ _ _ _ H2) as (nb & Enb & _). rewrite Enb.
  destruct (metadata_invalid (mk_volume r a) t2 [nb] m) eqn:Em; [apply wp_ret; auto|].
  destruct (checked_add 64 (generation r) 1) as [g|] eqn:Eg; [|apply wp_ret; auto].
  pose proof (metadata_valid _ _ _ _ Hm0 Em) as Hm. cbn [root] in Hm.
  pose proof (retired_written_range _ _ _ _ _ _ R2) as Hrr. rewrite (tx_root _ _ _ _ _ _ H1) in Hrr.
  assert (HP : commit_plan d r a bm K t m t1 t2 d2 rr nb g) by done.
  pose proof (cw_committed d2 r a bm K t2 m g rr nb H2 Hm Eg Hrr) as HC.
  eapply wp_safe; [eapply safe_mono; [|apply (cw_safe d2 r a bm K t2 m g rr nb H2 Hm Eg Hrr)]|].
  - intros l [Hl|Hl]; [left; by rewrite <- D2|right]. by exists t1, t2, d2, rr, nb, g.
  - exists t1, t2, d2, rr, nb. split; [done|]. split; [done|]. split; [done|]. split; [done|].
    split; [left; by eexists|]. intros i Hi. by apply (cw_new d2 r a bm K t2 m g rr nb H2 i Hi).
Qed.
