(* ===== verification/CowVolume.v ===== *)
(** * The copy-on-write volume as a whole ([src/storage/src/cow.rs])

    [volume_ok L r a bm es]: the device contents [L] are a volume with root
    [r], bitmap [bm] and retired extents [es].  Formatting establishes it, a
    transaction with its commit preserves it, and so does a power loss at any
    moment followed by [open]. *)

From Stdlib Require Import ZArith Lia.
From stdpp Require Import relations.
From stdpp Require Import base list option numbers.
From S2P Require Import Prelude Bytes BlockStore Cow DiskLogic CowCodec CowAlloc CowCrash CowCommit.

#[local] Open Scope Z_scope.
#[local] Open Scope io_scope.
#[local] Opaque encode_root encode_commit block_zero bitmap_zero encode_retired decode_root decode_commit.

Implicit Types (L l : list Block) (r : CowRoot) (d : disk) (t : CowTransaction).

Record volume_ok L r (a : Z) (bm : Block) (es : list CowExtent) : Prop := {
  vo_committed : committed L r a;
  vo_bitmap : L !! Z.to_nat (bitmap_index r) = Some bm;
  vo_bitmap_ok : block_ok bm;
  vo_metadata : forall i, metadata_root r <= i < metadata_root r + metadata_blocks r -> bitmap_is_set [bm] i = true;
  vo_retired : (retired_root r = 0 ∧ es = []) ∨
    (data_start r <= retired_root r < data_end r ∧ bitmap_is_set [bm] (retired_root r) = true ∧
     L !! Z.to_nat (retired_root r) = Some (encode_retired es));
  vo_extents : Forall (extent_fits r) es ∧ Z.of_nat (length es) <= COW_MAX_RETIRED_EXTENTS
}.

(** The metadata a root names. *)
Definition metadata L r : list (option Block) :=
  (fun off => L !! Z.to_nat (metadata_root r + off)) <$> seqZ 0 (metadata_blocks r).

Lemma metadata_agree L l r :
  (forall i, metadata_root r <= Z.of_nat i < metadata_root r + metadata_blocks r -> l !! i = L !! i) ->
  0 <= metadata_root r -> metadata l r = metadata L r.
Proof.
  intros Ha H0. apply list_fmap_ext. intros k off Hk. apply list_elem_of_lookup_2, elem_of_seqZ in Hk.
  apply Ha. lia.
Qed.

(** The blocks that a volume needs apart from its reserved ones: the metadata
    and the retired list. *)
Definition vital r (i : Z) : Prop :=
  metadata_root r <= i < metadata_root r + metadata_blocks r ∨ (i = retired_root r ∧ i ≠ 0).

(** Contents that agree on the vital blocks are the same volume. *)
Lemma volume_ok_same L l r a a' bm K es :
  (forall i, vital r i -> K i) ->
  volume_ok L r a bm es -> committed l r a' -> l !! Z.to_nat (bitmap_index r) = Some bm ->
  (forall i, Z.of_nat i < data_end r -> K (Z.of_nat i) -> l !! i = L !! i) ->
  volume_ok l r a' bm es ∧ metadata l r = metadata L r.
Proof.
  intros HK [V1 V2 V3 V4 V5 V6] Hc Hb Hs.
  destruct (valid_root_spec _ _ (cm_valid _ _ _ V1)) as (_ & _ & Hds & _ & M1 & M2 & M3).
  unfold DATA_START, COMMIT_START, COW_COMMIT_SLOTS in *. split.
  - constructor; try done. destruct V5 as [V5|(V5 & V7 & V8)]; [by left|right]. split; [done|]. split; [done|].
    rewrite Hs; [done|lia|]. apply HK. right. lia.
  - apply metadata_agree; [|lia]. intros i Hi. apply Hs; [lia|]. apply HK. left. lia.
Qed.

(** [same_volume] is what [open] returns to. *)
Lemma same_volume_open L l r a bm K es :
  (forall i, vital r i -> K i) -> volume_ok L r a bm es -> same_volume L r bm K l ->
  exists a', exec open (reboot l) = (reboot l, Ok (mk_volume r a')) ∧ volume_ok l r a' bm es ∧
    metadata l r = metadata L r.
Proof.
  intros HK HV ([a0 Hc] & Hb & Hs). destruct (open_committed _ _ _ Hc) as (a' & Ho & Hc' & _).
  exists a'. split; [done|]. by apply (volume_ok_same L l r a a' bm K).
Qed.

(** ** Beginning a transaction *)

Lemma begin_quiet L r a bm es :
  volume_ok L r a bm es ->
  quiet (begin (mk_volume r a)) (reboot L) (mk_transaction r (1 - bitmap_slot r) [] [] es).
Proof.
  intros [V1 V2 V3 V4 V5 [V6 V7]]. pose proof (cm_valid _ _ _ V1) as Hv.
  destruct (valid_root_spec _ _ Hv) as (_ & _ & Hds & _). unfold begin, reclaim_retired. cbn [root t_root].
  assert (saturating_sub 1 (bitmap_slot r) = 1 - bitmap_slot r) as ->.
  { unfold saturating_sub. destruct (v_slot _ _ Hv) as [-> | ->]; done. }
  destruct V5 as [[E ->]|(Hr & _ & E)].
  - rewrite E. apply quiet_ret.
  - unfold DATA_START, COMMIT_START, COW_COMMIT_SLOTS in Hds. destruct (Z.eqb_spec (retired_root r) 0); [lia|].
    eapply quiet_try; [by apply quiet_load|].
    rewrite reclaim_encode_retired; [apply quiet_ret|done|apply (v_fits _ _ Hv)|done].
Qed.

Lemma extent_fits_in_data r e : extent_fits r e -> in_data r e.
Proof. intros (_ & H1 & H2 & H3). unfold in_data. lia. Qed.

Lemma begin_tx L r a bm K es :
  (forall i, K i -> bitmap_is_set [bm] i = true) -> volume_ok L r a bm es ->
  tx_ok (reboot L) r a bm K (mk_transaction r (1 - bitmap_slot r) [] [] es).
Proof.
  intros HK [V1 V2 V3 V4 V5 [V6 V7]]. constructor; try done.
  - intros i b Hin. by apply not_elem_of_nil in Hin.
  - eapply Forall_impl; [|exact V6]. apply extent_fits_in_data.
Qed.

(** ** The retired extents of a transaction *)

Definition retired_ok r t : Prop :=
  Forall (extent_fits r) (retired t) ∧ Z.of_nat (length (retired t)) <= COW_MAX_RETIRED_EXTENTS.

(** The extents a caller retires are nonempty and have a 32-bit length. *)
Definition retires_ok (op : tx_op) : Prop :=
  match op with OpRetire e => 0 < extent_blocks e < 2 ^ 32 | _ => True end.

Lemma retire_extent_ok r t e t' :
  t_root t = r -> fits 64 (data_end r) -> 0 <= data_start r -> 0 < extent_blocks e < 2 ^ 32 ->
  retired_ok r t -> retire_extent t e = Ok t' -> retired_ok r t'.
Proof.
  intros Et Hf H0 He [H1 H2] E. unfold retire_extent in E. rewrite Et in E.
  destruct (Z.ltb_spec (start e) (data_start r)); [done|]. cbn [orb] in E.
  destruct (checked_add 64 (start e) (extent_blocks e)) as [e_end|] eqn:Ea; [|done].
  destruct (Z.ltb_spec (data_end r) e_end); [done|].
  destruct (Z.eqb_spec (Z.of_nat (length (retired t))) COW_MAX_RETIRED_EXTENTS); [done|]. injection E as <-.
  unfold checked_add in Ea. destruct (_ <? _); [|done]. injection Ea as <-. split; cbn [retired with_retired].
  - apply Forall_app. split; [done|]. apply Forall_cons_2; [|apply Forall_nil_2].
    unfold fits in *. unfold extent_fits, extent_end, fits. lia.
  - rewrite length_app. simpl. lia.
Qed.

Lemma run_op_retired d r a bm K t op d' res :
  tx_ok d r a bm K t -> op_ok K op -> retires_ok op -> retired_ok r t -> exec (run_op t op) d = (d', res) ->
  retired_ok r (match res with Ok t' => t' | Err _ => t end).
Proof.
  intros H Ho Hr HR E. destruct op as [n arena|i b|e bs|e arena|e]; cbn [run_op] in E.
  - rewrite exec_try in E. destruct (exec (allocate_blocks_in_arena t n arena) d) as [d1 res1] eqn:E1.
    destruct (tx_allocate _ _ _ _ _ _ _ _ _ _ H Ho E1) as (-> & H1).
    destruct res1 as [[t' e]|err]; injection E as <- <-; [|done]. by destruct H1 as (-> & _).
  - rewrite exec_try in E. destruct (exec (write_block t i b) d) as [d1 [[]|err]]; by injection E as <- <-.
  - rewrite exec_try in E. destruct (exec (write_extent t e bs) d) as [d1 [[]|err]]; by injection E as <- <-.
  - injection E as <- <-. destruct (reserve_extent_in_arena t e arena) as [t'|err] eqn:Er; [|done].
    destruct Ho as [Ho1 Ho2]. by destruct (tx_reserve _ _ _ _ _ _ _ _ _ H Er Ho1 Ho2) as [_ ->].
  - injection E as <- <-. destruct (retire_extent t e) as [t'|err] eqn:Er; [|done].
    destruct (tx_data_start _ _ _ _ _ _ H) as [Hds _].
    eapply (retire_extent_ok r t e); [apply H| |lia|done|done|done].
    apply (v_fits _ _ (cm_valid _ _ _ (tx_committed _ _ _ _ _ _ H))).
Qed.

Lemma run_ops_retired ops : forall d r a bm K t,
  tx_ok d r a bm K t -> Forall (op_ok K) ops -> Forall retires_ok ops -> retired_ok r t ->
  retired_ok r (exec (run_ops t ops) d).2.
Proof.
  induction ops as [|op ops IH]; intros d r a bm K t H Ho Hr HR; [done|].
  apply Forall_cons_1 in Ho as [Ho Hos]. apply Forall_cons_1 in Hr as [Hr Hrs].
  cbn [run_ops]. rewrite exec_bind. destruct (exec (run_op t op) d) as [d1 res] eqn:E1.
  destruct (tx_run_op _ _ _ _ _ _ _ _ _ H Ho E1) as [H1 _].
  apply (IH d1 r a bm K); [done|done|done|]. by eapply run_op_retired.
Qed.

(** ** The volume a commit produces *)

Lemma plan_retired L d r a bm K es t m t1 t2 d2 rr nb g :
  volume_ok L r a bm es -> tx_ok d r a bm K t -> retired_ok r t ->
  commit_plan d r a bm K t m t1 t2 d2 rr nb g -> retired_ok r t1.
Proof.
  intros HV H HR [Er _ _ _ _ _]. unfold retire_own in Er. destruct (tx_data_start _ _ _ _ _ _ H) as [Hds _].
  destruct (_ =? 0); [by injection Er as <-|].
  eapply (retire_extent_ok r t); [apply H| |lia| |done|done]; [|done].
  apply (v_fits _ _ (cm_valid _ _ _ (tx_committed _ _ _ _ _ _ H))).
Qed.



Lemma metadata_set v t bitmap m i :
  metadata_invalid v t bitmap m = false -> start m <= i < extent_end m -> bitmap_is_set bitmap i = true.
Proof.
  unfold metadata_invalid. rewrite !orb_false_iff. intros [_ Hx] Hi.
  destruct (bitmap_is_set bitmap i) eqn:E; [done|]. exfalso. apply not_true_iff_false in Hx. apply Hx.
  apply existsb_exists. exists i. rewrite E. split; [|done].
  apply list_elem_of_In, elem_of_seqZ. unfold extent_end in Hi. lia.
Qed.

Lemma retired_block_written d bm t t2 d2 rr :
  retired_written d bm t d2 t2 rr -> (Z.to_nat rr < length (durable d))%nat ->
  (rr = 0 ∧ retired t = []) ∨
  (in_data (t_root t) (mk_extent rr 1) ∧ covered (allocated t2) rr ∧
   current d2 !! Z.to_nat rr = Some (encode_retired (retired t))).
Proof.
  intros [(E & -> & _)|(_ & -> & Hd & _ & ->)] Hl; [by left|right]. split; [done|]. split.
  - apply covered_app. right. unfold extent_end. simpl. lia.
  - rewrite current_written. apply list_lookup_insert_eq. by rewrite length_current.
Qed.

Lemma plan_volume d r a bm K es t m t1 t2 d2 rr nb g l a' :
  volume_ok (durable d) r a bm es -> tx_ok d r a bm K t -> retired_ok r t ->
  commit_plan d r a bm K t m t1 t2 d2 rr nb g ->
  committed l (planned_root r a t2 m g rr) a' ->
  (forall i, (4 <= i)%nat -> l !! i = planned_data d2 (planned_root r a t2 m g rr) nb !! i) ->
  volume_ok l (planned_root r a t2 m g rr) a' nb (retired t1).
Proof.
  intros HV H HR HP Hc Hl. pose proof (plan_retired _ _ _ _ _ _ _ _ _ _ _ _ _ _ _ HV H HR HP) as HR1.
  destruct HP as [P1 P2 P3 P4 P5 P6]. set (r' := planned_root r a t2 m g rr) in *.
  destruct (tx_retire_own _ _ _ _ _ _ _ H P1) as (H1 & _ & _).
  destruct (new_bitmap_spec _ _ _ _ _ _ P3) as (nb' & E & Knb & S). assert (nb' = nb) as -> by congruence.
  destruct (tx_data_start _ _ _ _ _ _ H) as (Hds & Hde & _).
  destruct (cw_bitmap_index d2 r a bm K t2 m g rr P3) as (_ & B2 & B3). change (next_root _ t2 m g rr) with r' in B2, B3.
  destruct (retired_written_same _ _ _ _ _ _ P2) as [D2 _].
  pose proof (cm_valid _ _ _ (tx_committed _ _ _ _ _ _ H)) as Hv. pose proof (v_room _ _ Hv) as Hroom.
  constructor; [done| |done| | |exact HR1].
  - rewrite Hl by lia. unfold planned_data. rewrite current_written. apply list_lookup_insert_eq.
    rewrite length_current. lia.
  - intros i Hi. eapply metadata_set; [exact P5|]. exact Hi.
  - change (retired_root r') with rr. change (data_start r') with (data_start r).
    change (data_end r') with (data_end r).
    pose proof (retired_written_range _ _ _ _ _ _ P2) as Hrr. rewrite (tx_root _ _ _ _ _ _ H1) in Hrr.
    destruct (retired_block_written _ _ _ _ _ _ P2) as [[-> Hn]|(Hd & Hcov & Hblk)]; [lia|by left|right].
    rewrite (tx_root _ _ _ _ _ _ H1) in Hd. destruct Hd as (D1 & _ & D3). unfold extent_end in D3. simpl in *.
    split; [lia|]. split.
    + rewrite S. { unfold covered in Hcov. by rewrite Hcov. }
      unfold in_bitmap. pose proof (capacity_spec _ (v_capacity _ _ Hv)). lia.
    + rewrite Hl by lia. unfold planned_data. rewrite current_written, list_lookup_insert_ne by lia. done.
Qed.

(** The metadata of the new root is what the transaction wrote. *)
Lemma plan_metadata d r a bm K t m t1 t2 d2 rr nb g l :
  tx_ok d r a bm K t -> commit_plan d r a bm K t m t1 t2 d2 rr nb g -> 0 <= extent_blocks m ->
  (forall i, start m <= i < extent_end m -> covered (allocated t) i) ->
  (forall i, (4 <= i)%nat -> l !! i = planned_data d2 (planned_root r a t2 m g rr) nb !! i) ->
  metadata l (planned_root r a t2 m g rr) = metadata (current d) (planned_root r a t2 m g rr).
Proof.
  intros H [P1 P2 P3 P4 P5 P6] Hm0 Hcov Hl. set (r' := planned_root r a t2 m g rr) in *.
  destruct (tx_retire_own _ _ _ _ _ _ _ H P1) as (H1 & Ea & _).
  destruct (tx_data_start _ _ _ _ _ _ H) as (Hds & Hde & _).
  destruct (cw_bitmap_index d2 r a bm K t2 m g rr P3) as (_ & B2 & _). change (next_root _ t2 m g rr) with r' in B2.
  destruct (metadata_valid _ _ _ _ Hm0 P5) as (M1 & M2 & M3). cbn [root] in *. unfold extent_end in *.
  apply metadata_agree; change (metadata_root r') with (start m); [|lia].
  change (metadata_blocks r') with (extent_blocks m). intros i Hi. rewrite Hl by lia.
  unfold planned_data. rewrite current_written, list_lookup_insert_ne by lia.
  apply (retired_written_kept _ _ _ _ _ _ i P2); [rewrite (tx_root _ _ _ _ _ _ H1); lia|].
  left. rewrite Ea. apply Hcov. lia.
Qed.

(** A commit leaves the kept blocks of the old volume alone. *)
Lemma plan_kept d r a bm K t m t1 t2 d2 rr nb g i :
  tx_ok d r a bm K t -> commit_plan d r a bm K t m t1 t2 d2 rr nb g ->
  Z.of_nat i < data_end r -> K (Z.of_nat i) ->
  planned_data d2 (planned_root r a t2 m g rr) nb !! i = durable d !! i.
Proof.
  intros H [P1 P2 P3 P4 P5 P6] Hi HK. destruct (retired_written_same _ _ _ _ _ _ P2) as [<- _].
  destruct (cw_bitmap_index d2 r a bm K t2 m g rr P3) as (_ & B2 & _).
  unfold planned_data. rewrite current_written, list_lookup_insert_ne by (unfold planned_root; lia).
  apply current_untouched. intros b Hin. destruct (tx_writes _ _ _ _ _ _ i b P3 Hin) as (_ & _ & Hn). done.
Qed.

(** [open] on a volume that [recovers]. *)
Lemma recovers_open L r :
  recovers L r ->
  exists L' a, exec open (reboot L) = (reboot L', Ok (mk_volume r a)) ∧ committed L' r a ∧
    (forall i, (2 <= i)%nat -> L' !! i = L !! i) ∧
    forall l, crash_during open (reboot L) l -> recovers l r ∧ forall i, (2 <= i)%nat -> l !! i = L !! i.
Proof.
  intros [[a H]|(r0 & a & H)].
  - destruct (open_committed _ _ _ H) as (a' & E & H' & C). exists L, a'. split; [done|]. split; [done|].
    split; [done|]. intros l ->%C. split; [|done]. left. by exists a.
  - destruct (open_rolling _ _ _ _ H) as (a' & Ha & E & H' & C). exists (<[Z.to_nat a' := encode_root block_zero r]> L), a'.
    split; [done|]. split; [done|].
    assert (Hi : forall i, (2 <= i)%nat -> <[Z.to_nat a' := encode_root block_zero r]> L !! i = L !! i)
      by (intros i Hi; apply list_lookup_insert_ne; lia).
    split; [done|]. intros l [->| ->]%C; (split; [|done]); [right; by exists r0, a|left; by exists a'].
Qed.

(** ** Fresh volumes *)

Section fresh.
Variables (L : list Block) (bm : Block).
Let n : Z := Z.of_nat (length L).
Hypothesis HB : blank L.
Hypothesis Hbm : block_ok bm.
Hypothesis Hset : forall i, in_bitmap i -> bitmap_is_set [bm] i = bool_decide (i <= DATA_START ∨ n - 2 <= i < n).

Lemma fresh_volume l a :
  committed l (format_root n) a -> (forall i, (2 <= i)%nat -> l !! i = formatted_data L bm !! i) ->
  volume_ok l (format_root n) a bm [].
Proof.
  intros Hc Hl. pose proof (proj1 HB) as Hn. fold n in Hn.
  assert (Ei : bitmap_index (format_root n) = n - 2) by (unfold bitmap_index; simpl; lia).
  constructor; [done| |done| |by left|by split; [apply Forall_nil_2|]].
  - rewrite Ei, Hl by lia. unfold formatted_data. apply list_lookup_insert_eq. rewrite length_insert.
    unfold n in *. lia.
  - cbn [format_root metadata_root metadata_blocks]. intros i Hi. unfold DATA_START, COMMIT_START, COW_COMMIT_SLOTS in *.
    rewrite Hset; [|unfold in_bitmap; lia]. apply bool_decide_eq_true_2. lia.
Qed.
End fresh.

(** C20: formatting is atomic and yields a well-formed empty volume.  On a
    blank device [format] succeeds, flushes everything it wrote and leaves a
    volume whose bitmap marks exactly the reserved blocks, the metadata root
    and the two bitmaps as used.  Whatever a power loss during [format]
    leaves, the next [open] either reports an unformatted device or finds the
    complete fresh volume. *)
Theorem cow_format_atomic L :
  blank L ->
  exists L' bm, let n := Z.of_nat (length L) in
    exec format (reboot L) = (reboot L', Ok (mk_volume (format_root n) 1)) ∧
    volume_ok L' (format_root n) 1 bm [] ∧
    (forall i, in_bitmap i -> bitmap_is_set [bm] i = bool_decide (i <= DATA_START ∨ n - 2 <= i < n)) ∧
    forall l, crash_during format (reboot L) l ->
      exec open (reboot l) = (reboot l, Err Unformatted) ∨
      exists l' a, exec open (reboot l) = (reboot l', Ok (mk_volume (format_root n) a)) ∧
        volume_ok l' (format_root n) a bm [].
Proof.
  intros HB. destruct (format_bitmap_one (Z.of_nat (length L)) (proj1 HB)) as (bm & E & Hbm & Hset).
  destruct (format_safe L bm HB E) as [Ex Hcr]. exists (formatted L bm), bm. cbv zeta.
  split; [done|]. split; [|split; [done|]].
  { apply (fresh_volume L); [done|done|done|by apply format_second|]. intros i Hi. by apply formatted_high. }
  intros l [Hl|[Hl Hi]]%Hcr; [left; by apply unformatted_open|right].
  destruct (recovers_open _ _ Hl) as (l' & a & Eo & Hc & Hi' & _). exists l', a. split; [done|].
  apply (fresh_volume L); [done|done|done|done|]. intros i H2. rewrite Hi' by done. auto.
Qed.

Definition blank12 : list Block := replicate 12 block_zero.

Lemma blank12_ok : blank blank12.
Proof. split; [done|]. apply Forall_replicate. by vm_compute. Qed.

Lemma cow_format_atomic_witness :
  exists L' bm, exec format (reboot blank12) = (reboot L', Ok (mk_volume (format_root 12) 1)) ∧
    volume_ok L' (format_root 12) 1 bm [].
Proof.
  destruct (cow_format_atomic blank12 blank12_ok) as (L' & bm & H1 & H2 & _). exists L', bm. by split.
Defined.

(** A fresh volume of twelve blocks. *)
Definition bitmap12 : Block := hd [] (format_bitmap 12).
Definition volume12 : list Block := formatted blank12 bitmap12.

Lemma volume12_ok : volume_ok volume12 (format_root 12) 1 bitmap12 [].
Proof.
  destruct (format_bitmap_one 12 ltac:(done)) as (bm & E & Hbm & Hset). unfold volume12, bitmap12. rewrite E.
  apply (fresh_volume blank12); [apply blank12_ok|done|done|apply format_second, blank12_ok|].
  intros i Hi. by apply formatted_high.
Qed.

(** C19: recovery survives its own crashes.  If the device holds a committed
    root, or a durable commit record its superblock does not have yet, then
    after any number of power losses during [open] a further [open] succeeds
    with exactly that root, and no block outside the superblocks has changed. *)
Theorem cow_open_recovers L l r :
  recovers L r -> rtc (fun x y => crash_during open (reboot x) y) L l ->
  exists L' a, exec open (reboot l) = (reboot L', Ok (mk_volume r a)) ∧ committed L' r a ∧
    forall i, (2 <= i)%nat -> L' !! i = L !! i.
Proof.
  intros HR Hs. induction Hs as [L|L l l' Hstep Hs IH].
  - destruct (recovers_open L r HR) as (L' & a & E & Hc & Hi & _). by exists L', a.
  - destruct (recovers_open L r HR) as (_ & _ & _ & _ & _ & Hcr). destruct (Hcr _ Hstep) as [HR' Hi].
    destruct (IH HR') as (L' & a & E & Hc & Hi'). exists L', a. split; [done|]. split; [done|].
    intros i H2. rewrite Hi', Hi; done.
Qed.

Lemma cow_open_recovers_witness :
  exists L' a, exec open (reboot volume12) = (reboot L', Ok (mk_volume (format_root 12) a)).
Proof.
  assert (HR : recovers volume12 (format_root 12)) by (left; exists 1; apply volume12_ok).
  destruct (cow_open_recovers volume12 volume12 (format_root 12) HR (rtc_refl _ volume12)) as (L' & a & E & _).
  by exists L', a.
Defined.

(** ** Sessions *)

(** A transaction from [begin] to [commit]. *)
Definition transaction (v : CowVolume) (ops : list tx_op) : io (result CowTransaction CowError) :=
  try! t := begin v in bind! t := run_ops t ops in pure t.

Definition session (v : CowVolume) (ops : list tx_op) (m : CowExtent) : io (result (CowVolume * Z) CowError) :=
  try! t := transaction v ops in commit v t m.

(** The blocks that the reservations of [ops] name. *)
Definition reserved (ops : list tx_op) (i : Z) : Prop :=
  Exists (fun op => match op with OpReserve e _ => start e <= i < extent_end e | _ => False end) ops.

(** The blocks in use that no operation reserves. *)
Definition kept (bm : Block) (ops : list tx_op) (i : Z) : Prop := bitmap_is_set [bm] i = true ∧ ~ reserved ops i.

(** Sizes are unsigned. *)
Definition op_sizes (op : tx_op) : Prop :=
  match op with OpAllocate n _ => 0 <= n | OpReserve e _ => 0 <= extent_blocks e | _ => True end.

(** What the caller of a session owes: no retired extent is empty. *)
Definition ops_ok (ops : list tx_op) : Prop := Forall op_sizes ops ∧ Forall retires_ok ops.

(** What a caller that wants atomicity owes as well: no reservation names a
    block of the current metadata or of the current retired list. *)
Definition spares r (ops : list tx_op) : Prop := forall i, reserved ops i -> ~ vital r i.

Lemma ops_ok_kept bm ops : ops_ok ops -> Forall (op_ok (kept bm ops)) ops.
Proof.
  intros [Hs _]. apply Forall_lookup_2. intros k op Hk. pose proof (Forall_lookup_1 _ _ _ _ Hs Hk) as Ho.
  destruct op as [| | |e arena|]; try done. split; [done|]. intros i Hi [_ Hn]. apply Hn.
  apply list.Exists_exists. eexists. split; [by eapply list_elem_of_lookup_2|]. exact Hi.
Qed.

Lemma vital_kept L r a bm es ops i :
  volume_ok L r a bm es -> spares r ops -> vital r i -> kept bm ops i.
Proof.
  intros HV Ho Hi. split; [|intros Hr; by apply (Ho i)].
  destruct Hi as [Hi|[-> Hi]]; [by apply HV|]. by destruct (vo_retired _ _ _ _ _ HV) as [[? _]|(_ & ? & _)].
Qed.

Lemma run_op_released t op d d' res :
  exec (run_op t op) d = (d', res) -> released (match res with Ok t' => t' | Err _ => t end) = released t.
Proof.
  intros E. destruct op as [n arena|i b|e bs|e arena|e]; cbn [run_op] in E.
  - unfold allocate_blocks_in_arena in E. destruct (n =? 0); [by injection E as <- <-|].
    destruct arena as [x y]. destruct (_ || _); [by injection E as <- <-|].
    rewrite !exec_try in E. destruct (exec (read_bitmap _ _) d) as [d1 [bm|err]]; [|by injection E as <- <-].
    destruct (scan _ _ _ _ _ _); [|by injection E as <- <-].
    destruct (extent_new _ _); [|by injection E as <- <-]. by destruct (_ =? _); injection E as <- <-.
  - rewrite exec_try in E. destruct (exec (write_block t i b) d) as [d1 [[]|err]]; by injection E as <- <-.
  - rewrite exec_try in E. destruct (exec (write_extent t e bs) d) as [d1 [[]|err]]; by injection E as <- <-.
  - injection E as <- <-. unfold reserve_extent_in_arena. destruct arena. by destruct (_ || _).
  - injection E as <- <-. unfold retire_extent. destruct (_ || _); [done|]. by destruct (_ =? _).
Qed.

Lemma run_ops_released ops : forall t d, released (exec (run_ops t ops) d).2 = released t.
Proof.
  induction ops as [|op ops IH]; intros t d; [done|]. cbn [run_ops]. rewrite exec_bind.
  destruct (exec (run_op t op) d) as [d1 res] eqn:E. rewrite IH. by eapply run_op_released.
Qed.

(** The device and the transaction when [commit] is called. *)
Lemma transaction_run L r a bm es ops :
  volume_ok L r a bm es -> ops_ok ops ->
  exists d t, exec (transaction (mk_volume r a) ops) (reboot L) = (d, Ok t) ∧
    noflush (transaction (mk_volume r a) ops) ∧ durable d = L ∧ tx_ok d r a bm (kept bm ops) t ∧
    retired_ok r t ∧ released t = es.
Proof.
  intros HV Hok. set (t0 := mk_transaction r (1 - bitmap_slot r) [] [] es).
  pose proof (ops_ok_kept bm ops Hok) as Ho. destruct Hok as (_ & Hr).
  assert (Ht0 : tx_ok (reboot L) r a bm (kept bm ops) t0) by (by apply begin_tx; [intros i []|]).
  destruct (tx_run_ops ops (reboot L) r a bm (kept bm ops) t0 Ht0 Ho) as [H1 D1].
  exists (exec (run_ops t0 ops) (reboot L)).1, (exec (run_ops t0 ops) (reboot L)).2.
  split; [|split; [|split; [done|split; [done|split]]]].
  - unfold transaction. rewrite (quiet_exec _ _ _ _ (begin_quiet _ _ _ _ _ HV)). fold t0.
    rewrite exec_bind. by destruct (exec (run_ops t0 ops) (reboot L)).
  - unfold transaction. apply noflush_try.
    + unfold begin, reclaim_retired. destruct (_ =? _); [done|]. by apply noflush_try.
    + intros t. apply noflush_bind; [apply noflush_run_ops|done].
  - apply (run_ops_retired ops (reboot L) r a bm (kept bm ops)); [done|done|done|].
    split; [apply Forall_nil_2|done].
  - apply (run_ops_released ops t0).
Qed.

(** C1: a transaction is atomic with respect to power loss.  Starting from a
    well-formed volume, begin a transaction, run any allocations, writes,
    reservations and retirements in it (failed ones included) and commit the
    metadata extent [m], which the transaction allocated or reserved.  The
    caller owes two things that the code does not check: no reservation names
    a block of the current metadata or of the current retired list, and no
    retired extent is empty.  If power is lost at any moment, the next [open]
    succeeds on a well-formed volume: either the old root with its bitmap, its
    retired list and its metadata blocks unchanged, or the next generation
    rooted at [m], with the metadata blocks the transaction had written.  In
    both cases every data block that was in use and that no operation reserved
    has its old content.  No other outcome is possible. *)
Theorem cow_session_atomic L r a bm es ops m l d t :
  volume_ok L r a bm es -> ops_ok ops -> spares r ops -> 0 <= extent_blocks m ->
  exec (transaction (mk_volume r a) ops) (reboot L) = (d, Ok t) ->
  (forall i, start m <= i < extent_end m -> covered (allocated t) i) ->
  crash_during (session (mk_volume r a) ops m) (reboot L) l ->
  exists l' v', exec open (reboot l) = (reboot l', Ok v') ∧
    (forall i, data_start r <= Z.of_nat i < data_end r -> kept bm ops (Z.of_nat i) -> l' !! i = L !! i) ∧
    ((root v' = r ∧ volume_ok l' r (active_superblock v') bm es ∧ metadata l' r = metadata L r) ∨
     (generation (root v') = generation r + 1 ∧ metadata_root (root v') = start m ∧
      metadata_blocks (root v') = extent_blocks m ∧ metadata l' (root v') = metadata (current d) (root v') ∧
      exists nb es', volume_ok l' (root v') (active_superblock v') nb es')).
Proof.
  intros HV Ho Hsp Hm0 Ed Hm Hc. destruct (transaction_run L r a bm es ops HV Ho) as (d' & t' & E & Hn & HD & Htx & HR & _).
  rewrite Ed in E. injection E as <- <-. unfold session in Hc. eapply crash_try_ok in Hc; [|exact Hn|exact Ed].
  pose proof (fun i => vital_kept L r a bm es ops i HV Hsp) as HK.
  destruct (commit_wp _ _ _ _ _ _ m Htx Hm0) as [_ Hcr]. rewrite <- HD in HV.
  destruct (Hcr l Hc) as [Hs|(t1 & t2 & d2 & rr & nb & g & HP & Hnew & Hi)].
  - destruct (same_volume_open _ _ _ _ _ _ _ HK HV Hs) as (a' & Eo & HV' & Hmd). rewrite HD in Hmd.
    exists l, (mk_volume r a'). split; [done|]. split; [|by left].
    intros i [_ Hi]. rewrite <- HD. by apply Hs.
  - destruct (recovers_open _ _ Hnew) as (l' & a' & Eo & Hc' & Hi' & _).
    assert (Hl' : forall i, (4 <= i)%nat -> l' !! i = planned_data d2 (planned_root r a t2 m g rr) nb !! i).
    { intros i H4. rewrite Hi' by lia. by apply Hi. }
    exists l', (mk_volume (planned_root r a t2 m g rr) a'). split; [done|]. split.
    { intros i [H4 H5] Hk. destruct (tx_data_start _ _ _ _ _ _ Htx) as (Hds & _).
      rewrite Hl', <- HD by lia. by apply (plan_kept d r a bm (kept bm ops) t m t1). }
    right. split; [|split; [done|split; [done|split]]].
    + pose proof (cp_generation _ _ _ _ _ _ _ _ _ _ _ _ _ HP) as Hg. cbn. unfold checked_add in Hg.
      destruct (_ <? _); [|done]. by injection Hg.
    + by apply (plan_metadata d r a bm (kept bm ops) t m t1 t2 d2 rr nb g).
    + exists nb, (retired t1). by apply (plan_volume d r a bm (kept bm ops) es t m t1 t2 d2 rr nb g).
Qed.

(** A session on the small volume: one new metadata block. *)
Definition ops12 : list tx_op :=
  [OpReserve (mk_extent 7 2) (4, 10); OpAllocate 1 (4, 10); OpWriteBlock 5 (replicate 4096%nat 7); OpRetire (mk_extent 4 1)].

Lemma ops12_ok : ops_ok ops12.
Proof. split; repeat (apply Forall_cons_2 || apply Forall_nil_2); cbn [op_sizes retires_ok extent_blocks]; done. Qed.

Lemma ops12_spares : spares (format_root 12) ops12.
Proof.
  intros i Hr Hv. apply list.Exists_exists in Hr as (op & Hop & Hi).
  repeat (apply elem_of_cons in Hop as [->|Hop]; [try done|]); [|by apply not_elem_of_nil in Hop].
  unfold extent_end in Hi. cbn in Hi. destruct Hv as [Hv|[Hv _]]; cbn in Hv; unfold DATA_START, COMMIT_START, COW_COMMIT_SLOTS in Hv; lia.
Qed.

Lemma ops12_allocated d t :
  exec (transaction (mk_volume (format_root 12) 1) ops12) (reboot volume12) = (d, Ok t) ->
  allocated t = [mk_extent 7 2; mk_extent 5 1].
Proof.
  intros E.
  assert (match (exec (transaction (mk_volume (format_root 12) 1) ops12) (reboot volume12)).2 with
    | Ok t => allocated t | Err _ => [] end = [mk_extent 7 2; mk_extent 5 1]) as Ha by (by vm_compute).
  by rewrite E in Ha.
Qed.

Lemma ops12_covered d t i :
  exec (transaction (mk_volume (format_root 12) 1) ops12) (reboot volume12) = (d, Ok t) ->
  start (mk_extent 5 1) <= i < extent_end (mk_extent 5 1) -> covered (allocated t) i.
Proof.
  intros E Hi. rewrite (ops12_allocated d t E). unfold extent_end in Hi. simpl in Hi.
  assert (i = 5) as -> by lia. done.
Qed.

Lemma cow_session_atomic_witness :
  exists l' v', exec open (reboot volume12) = (reboot l', Ok v') ∧
    (root v' = format_root 12 ∨ generation (root v') = 2).
Proof.
  destruct (transaction_run _ _ _ _ _ _ volume12_ok ops12_ok) as (d & t & E & _).
  destruct (cow_session_atomic volume12 (format_root 12) 1 bitmap12 [] ops12 (mk_extent 5 1) volume12 d t
    volume12_ok ops12_ok ops12_spares ltac:(done) E (fun i => ops12_covered d t i E)) as (l' & v' & Eo & _ & [(Hr & _)|(Hg & _)]).
  - apply crash_now. apply (crash_keeps (reboot volume12)).
  - exists l', v'. split; [done|]. by left.
  - exists l', v'. split; [done|]. by right.
Defined.



(** ** Commits succeed *)

Lemma retire_own_succeeds L d r a bm K es t :
  volume_ok L r a bm es -> tx_ok d r a bm K t -> Z.of_nat (length (retired t)) < COW_MAX_RETIRED_EXTENTS ->
  exists t1, retire_own r t = Ok t1.
Proof.
  intros HV H Hl. unfold retire_own. destruct (Z.eqb_spec (retired_root r) 0); [by exists t|].
  destruct (vo_retired _ _ _ _ _ HV) as [[? _]|(Hr & _)]; [done|]. unfold retire_extent.
  rewrite (tx_root _ _ _ _ _ _ H). cbn [start extent_blocks].
  pose proof (v_fits _ _ (cm_valid _ _ _ (tx_committed _ _ _ _ _ _ H))) as [_ _ _ _ _ _ _ [_ Hf] _].
  destruct (Z.ltb_spec (retired_root r) (data_start r)); [lia|]. unfold checked_add.
  destruct (Z.ltb_spec (retired_root r + 1) (2 ^ 64)); [|lia].
  destruct (Z.ltb_spec (data_end r) (retired_root r + 1)); [lia|]. cbn [orb].
  destruct (Z.eqb_spec (Z.of_nat (length (retired t))) COW_MAX_RETIRED_EXTENTS); [lia|]. by eexists.
Qed.

Lemma write_retired_succeeds d r a bm K t i :
  tx_ok d r a bm K t -> usable [bm] t i -> data_start r <= i < data_end r ->
  Z.of_nat (length (allocated t)) < COW_MAX_TRANSACTION_EXTENTS ->
  exists d2 t2 rr, exec (write_retired t) d = (d2, Ok (t2, rr)).
Proof.
  intros H Hu Hi Hl. unfold write_retired. destruct (retired t) as [|e es] eqn:Er; [by eexists _, _, _|].
  unfold allocate_blocks, allocate_blocks_in_arena. rewrite (tx_root _ _ _ _ _ _ H). cbn [Z.eqb].
  rewrite Z.ltb_irrefl. destruct (Z.leb_spec (data_end r) (data_start r)); [lia|]. rewrite Z.ltb_irrefl. cbn [orb].
  rewrite !exec_try, (proj1 (tx_read_bitmap _ _ _ _ _ _ H)).
  pose proof (scan_arena [bm] t 1 (data_start r) (data_end r) ltac:(lia) ltac:(lia)) as Hs.
  destruct (scan _ _ _ _ _ _) as [s|].
  - unfold extent_new. cbn [Z.eqb].
    destruct (Z.eqb_spec (Z.of_nat (length (allocated t))) COW_MAX_TRANSACTION_EXTENTS); [lia|]. cbn [exec pure].
    destruct Hs as (S1 & S2 & _). pose proof (v_room _ _ (cm_valid _ _ _ (tx_committed _ _ _ _ _ _ H))).
    destruct (tx_data_start _ _ _ _ _ _ H) as (Hds & _).
    rewrite exec_try, exec_store by (cbn [start]; lia). by eexists _, _, _.
  - exfalso. apply (Hs i); [lia|lia|]. intros j Hj. by assert (j = i) as -> by lia.
Qed.

Lemma metadata_accepted d r a bm K t nb m :
  tx_ok d r a bm K t -> new_bitmap bm t = [nb] -> in_data r m ->
  (forall i, start m <= i < extent_end m -> covered (allocated t) i) ->
  metadata_invalid (mk_volume r a) t [nb] m = false.
Proof.
  intros H E (M1 & M2 & M3) Hc. pose proof (cm_valid _ _ _ (tx_committed _ _ _ _ _ _ H)) as Hv.
  destruct (new_bitmap_spec _ _ _ _ _ _ H) as (nb' & E' & _ & S). rewrite E in E'. injection E' as <-.
  pose proof (capacity_spec _ (v_capacity _ _ Hv)). pose proof (v_room _ _ Hv).
  pose proof (v_fits _ _ Hv) as [_ _ _ _ _ _ _ [_ Hf] _]. destruct (tx_data_start _ _ _ _ _ _ H) as (Hds & _).
  unfold metadata_invalid. cbn [root]. rewrite !orb_false_iff.
  split; [split; [split; [split; [split|]|]|]|].
  - by rewrite bool_decide_eq_true_2 by apply H.
  - apply Z.eqb_neq. lia.
  - apply Z.ltb_ge. lia.
  - unfold checked_add, extent_end in *. destruct (Z.ltb_spec (start m + extent_blocks m) (2 ^ 64)); [done|lia].
  - apply Z.ltb_ge. lia.
  - apply not_true_iff_false. intros (i & Hi & Hn)%existsb_exists.
    apply list_elem_of_In, elem_of_seqZ in Hi. unfold extent_end in *. unfold in_bitmap in S.
    rewrite S in Hn by lia. specialize (Hc i ltac:(lia)). unfold covered in Hc. by rewrite Hc in Hn.
Qed.

(** C16: commits do not fail spuriously.  With room for one more retired
    extent, one usable block for the retired list, a free allocation slot and
    a generation to spare, committing a nonempty metadata extent that the
    transaction allocated succeeds with the next generation. *)
Theorem cow_commit_succeeds L d r a bm K es t m i :
  volume_ok L r a bm es -> tx_ok d r a bm K t ->
  Z.of_nat (length (retired t)) < COW_MAX_RETIRED_EXTENTS ->
  Z.of_nat (length (allocated t)) < COW_MAX_TRANSACTION_EXTENTS ->
  usable [bm] t i -> data_start r <= i < data_end r ->
  in_data r m -> (forall j, start m <= j < extent_end m -> covered (allocated t) j) ->
  generation r + 1 < 2 ^ 64 ->
  exists d' v', exec (commit (mk_volume r a) t m) d = (d', Ok (v', generation r + 1)) ∧
    metadata_root (root v') = start m ∧ metadata_blocks (root v') = extent_blocks m.
Proof.
  intros HV H Hr Ha Hu Hi Hm Hcov Hg. destruct (retire_own_succeeds _ _ _ _ _ _ _ _ HV H Hr) as [t1 E1].
  destruct (tx_retire_own _ _ _ _ _ _ _ H E1) as (H1 & A1 & R1).
  destruct (write_retired_succeeds d r a bm K t1 i H1) as (d2 & t2 & rr & E2); [|done|by rewrite A1|].
  { unfold usable in *. by rewrite A1, R1. }
  destruct (tx_write_retired _ _ _ _ _ _ _ _ H1 E2) as (_ & _ & H2 & W2).
  destruct (new_bitmap_spec _ _ _ _ _ _ H2) as (nb & Enb & _).
  assert (Em : metadata_invalid (mk_volume r a) t2 [nb] m = false).
  { apply (metadata_accepted d2 r a bm K); [done|done|done|]. intros j Hj. specialize (Hcov j Hj).
    destruct W2 as [(_ & _ & -> & _)|(_ & -> & _)]; [by rewrite A1|]. apply covered_app. left. by rewrite A1. }
  assert (Eg : checked_add 64 (generation r) 1 = Some (generation r + 1)).
  { unfold checked_add. by destruct (Z.ltb_spec (generation r + 1) (2 ^ 64)); [|lia]. }
  pose proof (retired_written_range _ _ _ _ _ _ W2) as Hrr. rewrite (tx_root _ _ _ _ _ _ H1) in Hrr.
  destruct (cw_safe d2 r a bm K t2 m (generation r + 1) rr nb H2 Hm Eg Hrr) as [Ec _].
  unfold commit. rewrite commit_retires_own. cbn [root]. rewrite E1.
  rewrite (exec_try_ok _ _ _ d t1) by done. rewrite (exec_try_ok _ _ _ _ _ E2).
  rewrite (quiet_exec _ _ _ _ (tx_read_bitmap _ _ _ _ _ _ H2)). cbv zeta. fold (new_bitmap bm t2).
  rewrite Enb, Em, Eg, Ec. by eexists _, _.
Qed.

Lemma cow_commit_succeeds_witness :
  exists d t d' v',
    exec (transaction (mk_volume (format_root 12) 1) ops12) (reboot volume12) = (d, Ok t) ∧
    exec (commit (mk_volume (format_root 12) 1) t (mk_extent 5 1)) d = (d', Ok (v', 2)) ∧
    metadata_root (root v') = 5.
Proof.
  destruct (transaction_run _ _ _ _ _ _ volume12_ok ops12_ok) as (d & t & E & _ & _ & Htx & _ & Hrel).
  assert (match exec (transaction (mk_volume (format_root 12) 1) ops12) (reboot volume12) with
    | (_, Ok t) => retired t = [mk_extent 4 1] | _ => False end) as Ht by (by vm_compute).
  rewrite E in Ht. pose proof (ops12_allocated d t E) as Ha.
  destruct (cow_commit_succeeds volume12 d (format_root 12) 1 bitmap12 (kept bitmap12 ops12) [] t (mk_extent 5 1) 6 volume12_ok Htx)
    as (d' & v' & Ec & Em & _).
  - by rewrite Ht.
  - by rewrite Ha.
  - unfold usable. rewrite Ha, Hrel. split; [by vm_compute|]. split; by intros [=].
  - done.
  - split; [|split]; by vm_compute.
  - intros j Hj. by apply (ops12_covered d t j E).
  - done.
  - exists d, t, d', v'. done.
Defined.

(** C22: an empty retired extent makes the volume unusable for transactions.
    [retire_extent] accepts an extent of zero blocks anywhere in the data
    arena; [commit] writes it to the retired list; and no later [begin] can
    read that list back, whatever else was retired. *)
Theorem cow_empty_retire_corrupts t s :
  retired t = [] -> fits 64 s -> data_start (t_root t) <= s <= data_end (t_root t) ->
  exists t', retire_extent t (mk_extent s 0) = Ok t' ∧
    forall t0 es, Z.of_nat (length es) < COW_MAX_RETIRED_EXTENTS ->
      reclaim_block t0 (encode_retired (retired t' ++ es)) = Err Corrupt.
Proof.
  intros Hr Hs Hd. unfold retire_extent. cbn [start extent_blocks].
  destruct (Z.ltb_spec s (data_start (t_root t))); [lia|]. unfold checked_add. rewrite Z.add_0_r.
  destruct (Z.ltb_spec s (2 ^ 64)); [|unfold fits in Hs; lia].
  destruct (Z.ltb_spec (data_end (t_root t)) s); [lia|]. cbn [orb]. rewrite Hr. change (Z.of_nat (length [])) with 0.
  destruct (Z.eqb_spec 0 COW_MAX_RETIRED_EXTENTS); [done|]. eexists. split; [done|]. intros t0 es Hl.
  cbn [retired with_retired app]. by apply reclaim_empty_extent.
Qed.

Lemma cow_empty_retire_corrupts_witness :
  exists t', retire_extent (mk_transaction (format_root 12) 1 [] [] []) (mk_extent 4 0) = Ok t' ∧
    reclaim_block (mk_transaction (format_root 12) 1 [] [] []) (encode_retired (retired t' ++ [])) = Err Corrupt.
Proof.
  destruct (cow_empty_retire_corrupts (mk_transaction (format_root 12) 1 [] [] []) 4) as (t' & E & H).
  - done.
  - done.
  - split; by vm_compute.
  - exists t'. split; [done|]. by apply H.
Defined.
