(* ===== verification/Journal.v ===== *)
(** * The journalled volume ([src/storage/src/journal.rs])

    Two superblocks, a journal of checksummed record blocks and two checkpoint
    slots.  A commit appends its records and a commit marker, flushes, and then
    publishes the new head in the other superblock; [recover] replays the
    committed transactions; [checkpoint] stores a snapshot and empties the
    journal in two published steps.  The operations are programs over the
    block seam of [BlockStore.v].  The pending array of [recover] with its
    count is a list; the payload block of a decoded record with its length is
    the list of its payload bytes.  A method on [&mut self] returns the volume
    next to its result where it can change it and fail. *)

From Stdlib Require Import ZArith Lia.
From stdpp Require Import base list option numbers.
From S2P Require Import Prelude Bytes BlockStore.

#[local] Open Scope Z_scope.
#[local] Open Scope io_scope.

Definition LEGACY_FORMAT_VERSION : Z := 1.
Definition V2_FORMAT_VERSION : Z := 2.
Definition FORMAT_VERSION : Z := 3.
Definition PROVISIONED_BLANK_MAGIC : list Z := [76; 79; 71; 79; 83; 66; 76; 75].
Definition CHECKPOINT_BLOCKS : Z := 10.
Definition CHECKPOINT_PAYLOAD_BYTES : Z := (CHECKPOINT_BLOCKS - 1) * BLOCK_BYTES.
Definition JOURNAL_COMMIT_KIND : Z := U16_MAX.
Definition MAX_RECORDS_PER_TRANSACTION : Z := 8.
Definition SUPERBLOCK_A : Z := 0.
Definition SUPERBLOCK_B : Z := 1.
Definition JOURNAL_START : Z := 2.
Definition SUPERBLOCK_MAGIC : list Z := [76; 79; 71; 79; 83; 70; 83; 0].
Definition CHECKPOINT_MAGIC : list Z := [76; 79; 71; 79; 83; 67; 80; 0].
Definition RECORD_MAGIC : list Z := [76; 79; 71; 82].
Definition SUPERBLOCK_CHECKSUM_OFFSET : nat := 64.
Definition RECORD_CHECKSUM_OFFSET : nat := 28.
Definition RECORD_HEADER_BYTES : nat := 32.
Definition MAX_TRANSACTION_ID : Z := U64_MAX.
Definition CHECKPOINT_SLOTS : Z := 2.
Definition CHECKPOINT_TOTAL_BLOCKS : Z := CHECKPOINT_BLOCKS * CHECKPOINT_SLOTS.
Definition CHECKPOINT_VERSION : Z := 1.
Definition COMPACTION_CLEAN : Z := 0.
Definition COMPACTION_PREPARED : Z := 1.
Definition MIN_JOURNAL_BLOCKS : Z := MAX_RECORDS_PER_TRANSACTION + 1.
Definition MAX_REPLAY_BLOCKS : Z := 64.
Definition V3_JOURNAL_BLOCKS : Z := MAX_REPLAY_BLOCKS.
Definition MAX_RECORD_PAYLOAD_BYTES : Z := BLOCK_BYTES - Z.of_nat RECORD_HEADER_BYTES.

Definition checkpoint_start_for (block_count : Z) : Z :=
  if JOURNAL_START + CHECKPOINT_TOTAL_BLOCKS + MIN_JOURNAL_BLOCKS <=? block_count
  then block_count - CHECKPOINT_TOTAL_BLOCKS else 0.

Definition journal_end_for (block_count : Z) : Z :=
  let checkpoint_start := checkpoint_start_for block_count in
  if checkpoint_start =? 0 then block_count
  else if JOURNAL_START + V3_JOURNAL_BLOCKS <? checkpoint_start then JOURNAL_START + V3_JOURNAL_BLOCKS
  else checkpoint_start.

Definition legacy_journal_end_for (block_count : Z) : Z :=
  let checkpoint_start := checkpoint_start_for block_count in
  if checkpoint_start =? 0 then block_count else checkpoint_start.

Inductive FormatError : Type :=
| FBlock (e : BlockError)
| NotBlank
| Unformatted
| Corrupt
| UnsupportedVersion
| TooSmall
| InvalidRequest
| PayloadTooLarge
| TransactionTooLarge
| JournalFull
| GenerationExhausted
| ReplayRejected
| ProvisionedBlank.

#[export] Instance FormatError_eq_dec : EqDecision FormatError.
Proof. solve_decision. Defined.

Record JournalRecord : Type := mk_record { kind : Z; payload : list Z }.

Inductive ReplayError : Type := Rejected.

(** [trait ReplaySink]. *)
Class ReplaySink (S : Type) : Type := {
  sink_record : S -> Z -> Z -> list Z -> S * result unit ReplayError
}.

Record RecoverySummary : Type := mk_summary {
  committed_transactions : Z;
  replayed_records : Z
}.

Record VolumeInfo : Type := mk_info {
  generation : Z;
  journal_start : Z;
  journal_end : Z;
  journal_head : Z;
  journal_tail : Z;
  root_transaction_id : Z;
  checkpoint_start : Z;
  checkpoint_slot : Z;
  compaction_state : Z
}.

Record Volume : Type := mk_volume {
  info : VolumeInfo;
  active_superblock : Z;
  format_version : Z
}.

Record Superblock : Type := mk_superblock { sb_info : VolumeInfo; sb_version : Z }.

Record DecodedRecord : Type := mk_decoded {
  dr_transaction_id : Z;
  dr_sequence : Z;
  dr_kind : Z;
  dr_payload : list Z
}.

(** ** Blocks *)

(** [?] on a block operation: [From<BlockError> for FormatError]. *)
Definition lift {A} (r : result A BlockError) : result A FormatError :=
  match r with Ok a => Ok a | Err e => Err (FBlock e) end.

Definition load (i : Z) : io (result Block FormatError) := Read i (fun r => Ret (lift r)).
Definition store (i : Z) (b : Block) : io (result unit FormatError) := Write i b (fun r => Ret (lift r)).
Definition sync : io (result unit FormatError) := Flush (fun r => Ret (lift r)).
Definition fail {A} (e : FormatError) : io (result A FormatError) := Ret (Err e).
Definition pure {A} (a : A) : io (result A FormatError) := Ret (Ok a).

(** A [for] loop whose body may return early with [?]. *)
Fixpoint for_each {A} (l : list A) (f : A -> io (result unit FormatError)) : io (result unit FormatError) :=
  match l with
  | [] => pure tt
  | x :: l => do! f x in for_each l f
  end.

(** The indices [lo..hi]. *)
Definition range (lo hi : Z) : list Z := seqZ lo (hi - lo).

(** ** Superblocks *)

Definition encode_superblock (i : VolumeInfo) (version : Z) : Block :=
  let b := put block_zero 0 SUPERBLOCK_MAGIC in
  let b := put_u16 b 8 version in
  let b := put_u16 b 10 0 in
  let b := put_u64 b 16 (generation i) in
  let b := put_u64 b 24 (journal_start i) in
  let b := put_u64 b 32 (journal_end i) in
  let b := put_u64 b 40 (journal_head i) in
  let b := put_u64 b 48 (journal_tail i) in
  let b := put_u64 b 56 (root_transaction_id i) in
  let b := put_u64 b 68 (checkpoint_start i) in
  let b := put_u8 b 76 (checkpoint_slot i) in
  let b := put_u8 b 77 (compaction_state i) in
  put_u32 b SUPERBLOCK_CHECKSUM_OFFSET (crc32c b).

Definition write_superblock_version (index : Z) (i : VolumeInfo) (version : Z) :
    io (result unit FormatError) :=
  store index (encode_superblock i version).

(** The fields of a superblock. *)
Definition superblock_info (b : Block) : VolumeInfo :=
  mk_info (get_u64 b 16) (get_u64 b 24) (get_u64 b 32) (get_u64 b 40) (get_u64 b 48)
    (get_u64 b 56) (get_u64 b 68) (get_u8 b 76) (get_u8 b 77).

(** The layout checks at the end of [read_superblock]. *)
Definition superblock_valid (i : VolumeInfo) (version block_count : Z) : bool :=
  let checkpoint_range_invalid :=
    negb (checkpoint_start i =? 0) &&
    match checked_add 64 (checkpoint_start i) CHECKPOINT_TOTAL_BLOCKS with
    | Some e => block_count <? e
    | None => true
    end in
  let checkpoint_layout_invalid :=
    negb (checkpoint_start i =? 0) &&
    (((version =? V2_FORMAT_VERSION) && negb (checkpoint_start i =? journal_end i))
     || ((version =? FORMAT_VERSION) && (checkpoint_start i <? journal_end i))) in
  negb ((version =? LEGACY_FORMAT_VERSION) &&
        (negb (checkpoint_start i =? 0) || negb (checkpoint_slot i =? 0)
         || negb (compaction_state i =? COMPACTION_CLEAN))) &&
  negb ((generation i =? 0)
        || negb (journal_start i =? JOURNAL_START)
        || (block_count <? journal_end i)
        || (journal_end i <=? journal_start i)
        || (journal_tail i <? journal_start i)
        || (journal_head i <? journal_tail i)
        || (journal_end i <? journal_head i)
        || (negb (checkpoint_start i =? 0) &&
            (checkpoint_layout_invalid || (CHECKPOINT_SLOTS <=? checkpoint_slot i)
             || (COMPACTION_PREPARED <? compaction_state i) || checkpoint_range_invalid))
        || ((checkpoint_start i =? 0) &&
            (negb (checkpoint_slot i =? 0) || negb (compaction_state i =? COMPACTION_CLEAN)))).

(** The decoding half of [read_superblock]. *)
Definition decode_superblock (block_count : Z) (b : Block) : result (option Superblock) FormatError :=
  if all_zero b then Ok None
  else if negb (bool_decide (get b 0 8 = SUPERBLOCK_MAGIC)) then
    Err (if bool_decide (get b 0 8 = PROVISIONED_BLANK_MAGIC) then ProvisionedBlank else Corrupt)
  else
    let version := get_u16 b 8 in
    if negb (version =? FORMAT_VERSION) && negb (version =? V2_FORMAT_VERSION)
       && negb (version =? LEGACY_FORMAT_VERSION)
    then Err UnsupportedVersion
    else if negb (crc32c (put_u32 b SUPERBLOCK_CHECKSUM_OFFSET 0)
                  =? get_u32 b SUPERBLOCK_CHECKSUM_OFFSET)
    then Err Corrupt
    else if superblock_valid (superblock_info b) version block_count
    then Ok (Some (mk_superblock (superblock_info b) version))
    else Err Corrupt.

Definition read_superblock (index : Z) : io (result (option Superblock) FormatError) :=
  try! b := load index in Count (fun n => Ret (decode_superblock n b)).

(** ** Records *)

(** The block [encode_record_version] builds. *)
Definition record_block (transaction_id sequence kind : Z) (payload : list Z) (version : Z) : Block :=
  let b := put block_zero 0 RECORD_MAGIC in
  let b := put_u16 b 4 version in
  let b := put_u16 b 6 kind in
  let b := put_u64 b 8 transaction_id in
  let b := put_u32 b 16 sequence in
  let b := put_u16 b 20 (Z.of_nat (length payload)) in
  let b := put b RECORD_HEADER_BYTES payload in
  put_u32 b RECORD_CHECKSUM_OFFSET (crc32c b).

Definition encode_record_version (transaction_id sequence kind : Z) (payload : list Z) (version : Z) :
    result Block FormatError :=
  if MAX_RECORD_PAYLOAD_BYTES <? Z.of_nat (length payload) then Err PayloadTooLarge
  else if (transaction_id =? 0) || (transaction_id =? MAX_TRANSACTION_ID) then Err InvalidRequest
  else Ok (record_block transaction_id sequence kind payload version).

Definition decode_record_version (b : Block) (version : Z) : result (option DecodedRecord) FormatError :=
  if all_zero b then Ok None
  else if negb (bool_decide (get b 0 4 = RECORD_MAGIC)) then Err Corrupt
  else if negb (get_u16 b 4 =? version) then Err UnsupportedVersion
  else if negb (crc32c (put_u32 b RECORD_CHECKSUM_OFFSET 0) =? get_u32 b RECORD_CHECKSUM_OFFSET)
  then Err Corrupt
  else
    let payload_len := get_u16 b 20 in
    if MAX_RECORD_PAYLOAD_BYTES <? payload_len then Err Corrupt
    else Ok (Some (mk_decoded (get_u64 b 8) (get_u32 b 16) (get_u16 b 6)
           (get b RECORD_HEADER_BYTES (Z.to_nat payload_len)))).

(** ** Checkpoints *)

Definition checkpoint_slot_start (checkpoint_start slot : Z) : option Z :=
  checked_add 64 checkpoint_start (slot * CHECKPOINT_BLOCKS + 1).

(** [payload.chunks(BLOCK_BYTES)], with fuel for the number of chunks. *)
Fixpoint chunks (fuel : nat) (l : list Z) : list (list Z) :=
  match fuel, l with
  | O, _ | _, [] => []
  | S fuel, _ => take (Z.to_nat BLOCK_BYTES) l :: chunks fuel (drop (Z.to_nat BLOCK_BYTES) l)
  end.

Definition checkpoint_header (root_transaction_id : Z) (payload : list Z) : Block :=
  let b := put block_zero 0 CHECKPOINT_MAGIC in
  let b := put_u16 b 8 CHECKPOINT_VERSION in
  let b := put_u64 b 16 root_transaction_id in
  let b := put_u32 b 24 (Z.of_nat (length payload)) in
  put_u32 b 28 (crc32c payload).

Definition write_checkpoint (checkpoint_start slot root_transaction_id : Z) (payload : list Z) :
    io (result unit FormatError) :=
  match checkpoint_slot_start checkpoint_start slot with
  | None => fail Corrupt
  | Some data_start =>
      do! for_each (range 0 (CHECKPOINT_BLOCKS - 1)) (fun i => store (data_start + i) block_zero) in
      do! for_each (imap pair (chunks (length payload) payload))
            (fun '(i, chunk) => store (data_start + Z.of_nat i) (put block_zero 0 chunk)) in
      store (data_start - 1) (checkpoint_header root_transaction_id payload)
  end.

(** The decoding half of [read_checkpoint_header]. *)
Definition decode_checkpoint_header (b : Block) : result (option (Z * Z)) FormatError :=
  if all_zero b then Ok None
  else if negb (bool_decide (get b 0 8 = CHECKPOINT_MAGIC)) || negb (get_u16 b 8 =? CHECKPOINT_VERSION)
  then Err Corrupt
  else
    let root_transaction_id := get_u64 b 16 in
    let payload_len := get_u32 b 24 in
    if (root_transaction_id =? 0) || (CHECKPOINT_PAYLOAD_BYTES <? payload_len) then Err Corrupt
    else Ok (Some (root_transaction_id, payload_len)).

Definition read_checkpoint_header (checkpoint_start slot : Z) :
    io (result (option (Z * Z)) FormatError) :=
  match checkpoint_slot_start checkpoint_start slot with
  | None => fail Corrupt
  | Some data_start => try! b := load (data_start - 1) in Ret (decode_checkpoint_header b)
  end.

(** The copy loop of [read_checkpoint_payload]: [remaining] is
    [payload_len - copied] and the result is what is copied to the output. *)
Fixpoint copy_payload (indices : list Z) (remaining : Z) : io (result (list Z) FormatError) :=
  match indices with
  | [] => pure []
  | i :: indices =>
      try! b := load i in
      let length := Z.min remaining BLOCK_BYTES in
      try! rest := copy_payload indices (remaining - length) in
      pure (take (Z.to_nat length) b ++ rest)
  end.

Definition div_ceil (a b : Z) : Z := (a + b - 1) / b.

Definition read_checkpoint_payload (checkpoint_start slot payload_len : Z) :
    io (result (list Z) FormatError) :=
  match checkpoint_slot_start checkpoint_start slot with
  | None => fail Corrupt
  | Some data_start =>
      try! output := copy_payload (range data_start (data_start + div_ceil payload_len BLOCK_BYTES))
                       payload_len in
      try! header := load (data_start - 1) in
      if crc32c output =? get_u32 header 28 then pure output else fail Corrupt
  end.

(** ** The volume *)

Definition next_superblock (v : Volume) : Z :=
  if active_superblock v =? 0 then SUPERBLOCK_B else SUPERBLOCK_A.

Definition format_metadata (version : Z) : io (result Volume FormatError) :=
  Count (fun block_count =>
  if block_count <=? JOURNAL_START then fail TooSmall
  else
    let i := mk_info 1 JOURNAL_START
      (if version =? FORMAT_VERSION then journal_end_for block_count else legacy_journal_end_for block_count)
      JOURNAL_START JOURNAL_START 0
      (if version =? LEGACY_FORMAT_VERSION then 0 else checkpoint_start_for block_count)
      0 COMPACTION_CLEAN in
    do! store JOURNAL_START block_zero in
    do! sync in
    do! write_superblock_version SUPERBLOCK_A i version in
    do! sync in
    do! write_superblock_version SUPERBLOCK_B i version in
    do! sync in
    pure (mk_volume i 1 version)).

Definition format_as (version : Z) : io (result Volume FormatError) :=
  if negb (version =? LEGACY_FORMAT_VERSION) && negb (version =? V2_FORMAT_VERSION)
     && negb (version =? FORMAT_VERSION)
  then fail UnsupportedVersion
  else Count (fun block_count =>
    if block_count <=? JOURNAL_START then fail TooSmall
    else
      do! for_each (range 0 block_count) (fun index =>
            try! b := load index in if all_zero b then pure tt else fail NotBlank) in
      format_metadata version).

Definition format : io (result Volume FormatError) := format_as FORMAT_VERSION.

Definition format_provisioned : io (result Volume FormatError) :=
  Count (fun block_count =>
  if block_count <=? JOURNAL_START then fail TooSmall
  else
    try! marker := load SUPERBLOCK_A in
    if negb (bool_decide (get marker 0 8 = PROVISIONED_BLANK_MAGIC)) || negb (all_zero (drop 8 marker))
    then fail NotBlank
    else format_metadata FORMAT_VERSION).

(** Empties the journal prefix under a prepared checkpoint and publishes the
    clean state; the volume changes only when every step succeeded. *)
Definition complete_compaction (v : Volume) : io (Volume * result unit FormatError) :=
  let i := info v in
  bind! r :=
    (try! header := read_checkpoint_header (checkpoint_start i) (checkpoint_slot i) in
     match header with
     | None => fail Corrupt
     | Some (root, payload_len) =>
         if negb (root =? root_transaction_id i) then fail Corrupt
         else
           do! read_checkpoint_payload (checkpoint_start i) (checkpoint_slot i) payload_len in
           let clear_end := Z.min (journal_start i + MIN_JOURNAL_BLOCKS) (journal_end i) in
           do! for_each (range (journal_start i) clear_end) (fun index => store index block_zero) in
           do! sync in
           match checked_add 64 (generation i) 1 with
           | None => fail GenerationExhausted
           | Some generation =>
               let final_info := mk_info generation (journal_start i) (journal_end i)
                 (journal_start i) (journal_start i) (root_transaction_id i) (checkpoint_start i)
                 (checkpoint_slot i) COMPACTION_CLEAN in
               do! write_superblock_version (next_superblock v) final_info (format_version v) in
               do! sync in
               pure final_info
           end
     end) in
  match r with
  | Err e => Ret (v, Err e)
  | Ok final_info =>
      Ret (mk_volume final_info (Z.lxor (active_superblock v) 1) (format_version v), Ok tt)
  end.

(** The choice between the two superblocks in [open]. *)
Definition select_superblock (first second : result (option Superblock) FormatError) :
    result Volume FormatError :=
  let use s slot := Ok (mk_volume (sb_info s) slot (sb_version s)) in
  match first, second with
  | Err UnsupportedVersion, _ | _, Err UnsupportedVersion => Err UnsupportedVersion
  | Ok (Some a), Ok (Some b) =>
      if generation (sb_info a) <? generation (sb_info b) then use b 1 else use a 0
  | Ok (Some a), _ => use a 0
  | _, Ok (Some b) => use b 1
  | Ok None, Ok None => Err Unformatted
  | Err e, _ | Ok None, Err e => Err e
  end.

Definition open : io (result Volume FormatError) :=
  Count (fun block_count =>
  if block_count <=? JOURNAL_START then fail TooSmall
  else
    bind! first := read_superblock SUPERBLOCK_A in
    bind! second := read_superblock SUPERBLOCK_B in
    try! volume := Ret (select_superblock first second) in
    if compaction_state (info volume) =? COMPACTION_PREPARED then
      bind! done := complete_compaction volume in
      Ret (match done with (v, Ok _) => Ok v | (_, Err e) => Err e end)
    else pure volume).

Definition package_arena (v : Volume) : option (Z * Z) :=
  if (format_version v =? FORMAT_VERSION) && (journal_end (info v) <? checkpoint_start (info v))
  then Some (journal_end (info v), checkpoint_start (info v)) else None.

Definition should_checkpoint (v : Volume) : bool :=
  let i := info v in
  let retained_blocks := saturating_sub (journal_head i) (journal_tail i) in
  negb (root_transaction_id i =? 0) && negb (checkpoint_start i =? 0)
  && (compaction_state i =? COMPACTION_CLEAN)
  && ((MAX_REPLAY_BLOCKS <=? saturating_add 64 retained_blocks MIN_JOURNAL_BLOCKS)
      || (journal_end i <=? saturating_add 64 (journal_head i) MIN_JOURNAL_BLOCKS)).

Definition checkpoint (v : Volume) (payload : list Z) : io (Volume * result unit FormatError) :=
  let i := info v in
  if (checkpoint_start i =? 0) || (CHECKPOINT_PAYLOAD_BYTES <? Z.of_nat (length payload))
  then Ret (v, Err PayloadTooLarge)
  else if negb (compaction_state i =? COMPACTION_CLEAN) || (root_transaction_id i =? 0)
  then Ret (v, Err InvalidRequest)
  else
    let next_slot := saturating_sub 1 (checkpoint_slot i) in
    bind! r :=
      (do! write_checkpoint (checkpoint_start i) next_slot (root_transaction_id i) payload in
       do! sync in
       match checked_add 64 (generation i) 1 with
       | None => fail GenerationExhausted
       | Some generation =>
           let prepared := mk_info generation (journal_start i) (journal_end i) (journal_head i)
             (journal_tail i) (root_transaction_id i) (checkpoint_start i) next_slot
             COMPACTION_PREPARED in
           do! write_superblock_version (next_superblock v) prepared (format_version v) in
           do! sync in
           pure prepared
       end) in
    match r with
    | Err e => Ret (v, Err e)
    | Ok prepared =>
        complete_compaction (mk_volume prepared (Z.lxor (active_superblock v) 1) (format_version v))
    end.

(** The output buffer of [output_len] bytes receives the returned bytes. *)
Definition load_checkpoint (v : Volume) (output_len : Z) :
    io (result (option (Z * list Z)) FormatError) :=
  let i := info v in
  if (checkpoint_start i =? 0) || negb (compaction_state i =? COMPACTION_CLEAN)
     || (root_transaction_id i =? 0) || negb (journal_head i =? journal_start i)
     || negb (journal_tail i =? journal_start i)
  then pure None
  else
    try! header := read_checkpoint_header (checkpoint_start i) (checkpoint_slot i) in
    match header with
    | None => fail Corrupt
    | Some (root, payload_len) =>
        if negb (root =? root_transaction_id i) || (output_len <? payload_len) then fail Corrupt
        else
          try! output := read_checkpoint_payload (checkpoint_start i) (checkpoint_slot i) payload_len in
          pure (Some (root, output))
    end.

(** ** Committing *)

Definition commit (v : Volume) (records : list JournalRecord) : io (result (Volume * Z) FormatError) :=
  let i := info v in
  if negb (compaction_state i =? COMPACTION_CLEAN) then fail InvalidRequest
  else if MAX_RECORDS_PER_TRANSACTION <? Z.of_nat (length records) then fail TransactionTooLarge
  else if existsb (fun r => kind r =? JOURNAL_COMMIT_KIND) records then fail InvalidRequest
  else
    match checked_add 64 (journal_head i) (Z.of_nat (length records) + 1) with
    | None => fail JournalFull
    | Some next_head =>
        if journal_end i <? next_head then fail JournalFull
        else
          match checked_add 64 (root_transaction_id i) 1 with
          | None => fail GenerationExhausted
          | Some transaction_id =>
              do! for_each (imap pair records) (fun '(sequence, record) =>
                    try! b := Ret (encode_record_version transaction_id (Z.of_nat sequence)
                                     (kind record) (payload record) (format_version v)) in
                    store (journal_head i + Z.of_nat sequence) b) in
              try! marker := Ret (encode_record_version transaction_id (Z.of_nat (length records))
                                    JOURNAL_COMMIT_KIND [] (format_version v)) in
              do! store (journal_head i + Z.of_nat (length records)) marker in
              do! sync in
              match checked_add 64 (generation i) 1 with
              | None => fail GenerationExhausted
              | Some generation =>
                  let next_info := mk_info generation (journal_start i) (journal_end i) next_head
                    (journal_tail i) transaction_id (checkpoint_start i) (checkpoint_slot i)
                    (compaction_state i) in
                  do! write_superblock_version (next_superblock v) next_info (format_version v) in
                  do! sync in
                  pure (mk_volume next_info (Z.lxor (active_superblock v) 1) (format_version v),
                        transaction_id)
              end
          end
    end.

(** ** Recovery *)

(** The variables of the loop of [recover]; [sink] is the caller's sink. *)
Record scan (S : Type) : Type := mk_scan {
  pending : list JournalRecord;
  pending_transaction : Z;
  committed : Z;
  replayed : Z;
  last_transaction : Z;
  committed_head : Z;
  truncated : bool;
  sink : S
}.
Arguments mk_scan {S} _ _ _ _ _ _ _ _.
Arguments pending {S} _.
Arguments pending_transaction {S} _.
Arguments committed {S} _.
Arguments replayed {S} _.
Arguments last_transaction {S} _.
Arguments committed_head {S} _.
Arguments truncated {S} _.
Arguments sink {S} _.

Section recover.
Context {S : Type} `{ReplaySink S}.

(** [pending_len = 0; pending_transaction = 0; truncated = true]. *)
Definition abandon (st : scan S) : scan S :=
  mk_scan [] 0 (committed st) (replayed st) (last_transaction st) (committed_head st) true (sink st).

(** Handing the pending records to the sink: the sink, the number of records
    it took and whether it took all of them. *)
Fixpoint replay (transaction_id : Z) (records : list JournalRecord) (s : S) : S * Z * bool :=
  match records with
  | [] => (s, 0, true)
  | r :: records =>
      match sink_record s transaction_id (kind r) (payload r) with
      | (s, Err _) => (s, 0, false)
      | (s, Ok _) => let '(s, n, b) := replay transaction_id records s in (s, n + 1, b)
      end
  end.

(** What the loop body does with a commit marker at [index]. *)
Definition scan_commit (index : Z) (r : DecodedRecord) (st : scan S) : scan S * option FormatError :=
  let valid :=
    bool_decide (dr_payload r = []) &&
    ((bool_decide (pending st = []) && (dr_sequence r =? 0))
     || (negb (bool_decide (pending st = [])) && (pending_transaction st =? dr_transaction_id r)
         && (dr_sequence r =? Z.of_nat (length (pending st))))) in
  if negb valid then (abandon st, None)
  else if dr_transaction_id r <=? last_transaction st then (st, Some Corrupt)
  else
    let '(s, n, b) := replay (dr_transaction_id r) (pending st) (sink st) in
    if b
    then (mk_scan [] 0 (committed st + 1) (replayed st + n) (dr_transaction_id r) (index + 1)
            (truncated st) s, None)
    else (mk_scan (pending st) (pending_transaction st) (committed st) (replayed st + n)
            (last_transaction st) (committed_head st) (truncated st) s, Some ReplayRejected).

(** What the loop body does with any other record. *)
Definition scan_data (r : DecodedRecord) (st : scan S) : scan S :=
  let push (st : scan S) p t :=
    mk_scan (p ++ [mk_record (dr_kind r) (dr_payload r)]) t (committed st) (replayed st)
      (last_transaction st) (committed_head st) (truncated st) (sink st) in
  if bool_decide (pending st = []) && negb (dr_sequence r =? 0)
  then mk_scan (pending st) (pending_transaction st) (committed st) (replayed st)
         (last_transaction st) (committed_head st) true (sink st)
  else
    let transaction :=
      if bool_decide (pending st = []) then dr_transaction_id r else pending_transaction st in
    if negb (transaction =? dr_transaction_id r)
       || negb (dr_sequence r =? Z.of_nat (length (pending st)))
       || (Z.of_nat (length (pending st)) =? MAX_RECORDS_PER_TRANSACTION)
    then
      if negb (dr_sequence r =? 0) then abandon st
      else push (abandon st) [] (dr_transaction_id r)
    else push st (pending st) transaction.

Definition scan_record (index : Z) (r : DecodedRecord) (st : scan S) : scan S * option FormatError :=
  if (dr_transaction_id r =? 0) || (dr_transaction_id r =? MAX_TRANSACTION_ID)
  then (st, Some Corrupt)
  else if dr_transaction_id r <=? last_transaction st then (st, Some Corrupt)
  else if dr_kind r =? JOURNAL_COMMIT_KIND then scan_commit index r st
  else (scan_data r st, None).

(** [remaining_journal_is_blank] over the indices [start..end]. *)
Fixpoint remaining_is_blank (indices : list Z) : io (result bool FormatError) :=
  match indices with
  | [] => pure true
  | i :: indices =>
      try! b := load i in if all_zero b then remaining_is_blank indices else pure false
  end.

Definition remaining_journal_is_blank (start end_ : Z) : io (result bool FormatError) :=
  remaining_is_blank (range start end_).

(** The loop of [recover] over the remaining indices.  It returns the loop
    variables with the error that ended the method, if one did. *)
Fixpoint scan_journal (i : VolumeInfo) (version : Z) (indices : list Z) (st : scan S) :
    io (scan S * option FormatError) :=
  match indices with
  | [] => Ret (st, None)
  | index :: indices =>
      bind! r := load index in
      match r with
      | Err e => Ret (st, Some e)
      | Ok b =>
          match decode_record_version b version with
          | Ok None =>
              if journal_head i <=? index then Ret (st, None)
              else scan_journal i version indices (abandon st)
          | Err e =>
              if bool_decide (e = UnsupportedVersion) then Ret (st, Some e)
              else
                bind! blank := remaining_journal_is_blank (index + 1) (journal_head i) in
                match blank with
                | Err e' => Ret (st, Some e')
                | Ok false => Ret (st, Some e)
                | Ok true =>
                    Ret (mk_scan (pending st) (pending_transaction st) (committed st) (replayed st)
                           (last_transaction st) (committed_head st) true (sink st), None)
                end
          | Ok (Some record) =>
              match scan_record index record st with
              | (st, Some e) => Ret (st, Some e)
              | (st, None) => scan_journal i version indices st
              end
          end
      end
  end.

Definition checkpointed (i : VolumeInfo) : bool :=
  negb (checkpoint_start i =? 0) && (journal_head i =? journal_start i)
  && (journal_tail i =? journal_start i).

Definition scan_start (i : VolumeInfo) (s : S) : scan S :=
  mk_scan [] 0 0 0 (if checkpointed i then root_transaction_id i else 0) (journal_tail i) false s.

Definition recovery_end (i : VolumeInfo) : Z :=
  Z.min (saturating_add 64 (journal_head i) (MAX_RECORDS_PER_TRANSACTION + 1)) (journal_end i).

Definition recover (v : Volume) (s : S) : io (Volume * S * result RecoverySummary FormatError) :=
  let i := info v in
  bind! out := scan_journal i (format_version v) (range (journal_tail i) (recovery_end i))
                 (scan_start i s) in
  let '(st, e) := out in
  let summary := mk_summary (committed st) (replayed st) in
  match e with
  | Some e => Ret (v, sink st, Err e)
  | None =>
      if negb (truncated st) && (last_transaction st <? root_transaction_id i)
         && negb (checkpointed i)
      then Ret (v, sink st, Err Corrupt)
      else if negb (committed_head st =? journal_head i)
              || negb (last_transaction st =? root_transaction_id i)
      then
        match checked_add 64 (generation i) 1 with
        | None => Ret (v, sink st, Err GenerationExhausted)
        | Some generation =>
            let next_info := mk_info generation (journal_start i) (journal_end i)
              (committed_head st) (journal_tail i) (last_transaction st) (checkpoint_start i)
              (checkpoint_slot i) (compaction_state i) in
            bind! r :=
              (do! write_superblock_version (next_superblock v) next_info (format_version v) in sync) in
            match r with
            | Err e => Ret (v, sink st, Err e)
            | Ok _ =>
                Ret (mk_volume next_info (Z.lxor (active_superblock v) 1) (format_version v),
                     sink st, Ok summary)
            end
        end
      else Ret (v, sink st, Ok summary)
  end.

End recover.

(** A sink that keeps every record it is given, oldest first. *)
#[export] Instance log_sink : ReplaySink (list (Z * JournalRecord)) := {|
  sink_record l id k p := (l ++ [(id, mk_record k p)], Ok tt)
|}.
