(* ===== verification/JournalCodec.v ===== *)
(** * Encodings of the journalled volume

    Round trips of the on-disk blocks of [src/storage/src/journal.rs]: the
    superblocks, the journal records and the checkpoint headers. *)

From Stdlib Require Import ZArith Lia.
From stdpp Require Import base list option numbers.
From S2P Require Import Prelude Bytes BlockStore Journal.

#[local] Open Scope Z_scope.

Lemma all_zero_block_zero : all_zero block_zero = true.
Proof. by vm_compute. Qed.

(** ** Superblocks *)

Record info_fits (i : VolumeInfo) : Prop := {
  if_generation : fits 64 (generation i);
  if_journal_start : fits 64 (journal_start i);
  if_journal_end : fits 64 (journal_end i);
  if_journal_head : fits 64 (journal_head i);
  if_journal_tail : fits 64 (journal_tail i);
  if_root_transaction_id : fits 64 (root_transaction_id i);
  if_checkpoint_start : fits 64 (checkpoint_start i);
  if_checkpoint_slot : fits 8 (checkpoint_slot i);
  if_compaction_state : fits 8 (compaction_state i)
}.

Definition known_version (version : Z) : Prop :=
  version = FORMAT_VERSION ∨ version = V2_FORMAT_VERSION ∨ version = LEGACY_FORMAT_VERSION.

Lemma known_version_fits version : known_version version -> fits 16 version.
Proof. by intros [->|[->| ->]]. Qed.

Definition info_fields (i : VolumeInfo) (version : Z) : list (nat * list Z) :=
  [(0, SUPERBLOCK_MAGIC); (8, to_le_bytes 2 version); (10, to_le_bytes 2 0);
   (16, to_le_bytes 8 (generation i)); (24, to_le_bytes 8 (journal_start i));
   (32, to_le_bytes 8 (journal_end i)); (40, to_le_bytes 8 (journal_head i));
   (48, to_le_bytes 8 (journal_tail i)); (56, to_le_bytes 8 (root_transaction_id i));
   (68, to_le_bytes 8 (checkpoint_start i)); (76, [checkpoint_slot i]);
   (77, [compaction_state i])]%nat.

Section superblock_codec.
Variables (i : VolumeInfo) (version : Z).
Hypothesis Hi : info_fits i.
Hypothesis Hversion : known_version version.

Let pre : Block := puts block_zero (info_fields i version).
Let crc : Z := crc32c pre.
Let fields : list (nat * list Z) := info_fields i version ++ [(64%nat, to_le_bytes 4 crc)].

Lemma encode_superblock_puts : encode_superblock i version = puts block_zero fields.
Proof. reflexivity. Qed.

Lemma superblock_in_bounds : in_bounds (Z.to_nat 4096) fields = true.
Proof. unfold fields. generalize crc. intros c. by vm_compute. Qed.

Lemma superblock_pre_length : length pre = Z.to_nat 4096.
Proof. unfold pre. rewrite length_puts; rewrite length_block_zero; by vm_compute. Qed.

Lemma length_superblock : length (encode_superblock i version) = Z.to_nat 4096.
Proof.
  rewrite encode_superblock_puts, length_puts; rewrite length_block_zero; [done|apply superblock_in_bounds].
Qed.

Lemma superblock_pre_ok : Forall byte_ok pre.
Proof.
  apply puts_ok; [apply block_zero_ok|]. unfold info_fields.
  repeat match goal with
  | |- Forall (fun w => Forall byte_ok w.2) [] => apply Forall_nil_2
  | |- Forall (fun w => Forall byte_ok w.2) (_ :: _) => apply Forall_cons_2
  end; cbn [snd]; try apply to_le_bytes_ok.
  - by repeat constructor.
  - apply Forall_cons_2; [apply Hi|done].
  - apply Forall_cons_2; [apply Hi|done].
Qed.

Lemma superblock_field k off v n :
  fields !! k = Some (off, v) -> clear_of off n (drop (S k) fields) = true -> n = length v ->
  get (encode_superblock i version) off n = v.
Proof. intros. rewrite encode_superblock_puts. apply (field_at fields k); auto using superblock_in_bounds. Qed.

Lemma superblock_u64 k off v :
  fields !! k = Some (off, to_le_bytes 8 v) -> clear_of off 8 (drop (S k) fields) = true -> fits 64 v ->
  get_u64 (encode_superblock i version) off = v.
Proof.
  intros E Hc Hv. unfold get_u64. rewrite (superblock_field k off _ 8 E Hc) by done.
  by apply from_to_le_fits.
Qed.

Lemma superblock_u8 k off v :
  fields !! k = Some (off, [v]) -> clear_of off 1 (drop (S k) fields) = true -> (off < 4096)%nat ->
  get_u8 (encode_superblock i version) off = v.
Proof.
  intros E Hc Hoff. apply singleton_inj. rewrite <- get_u8_get; [by apply (superblock_field k)|].
  rewrite length_superblock. lia.
Qed.

Lemma superblock_checksum :
  crc32c (put_u32 (encode_superblock i version) SUPERBLOCK_CHECKSUM_OFFSET 0) =
  get_u32 (encode_superblock i version) SUPERBLOCK_CHECKSUM_OFFSET.
Proof.
  assert (Hc : get_u32 (encode_superblock i version) 64 = crc).
  { unfold get_u32. rewrite (superblock_field 12 64 (to_le_bytes 4 crc) 4) by done.
    apply from_to_le_fits, crc32c_fits, superblock_pre_ok. }
  change SUPERBLOCK_CHECKSUM_OFFSET with 64%nat. rewrite Hc.
  change (encode_superblock i version) with (put_u32 pre 64 crc). rewrite put_u32_undo.
  - reflexivity.
  - rewrite superblock_pre_length. lia.
  - unfold pre. rewrite get_puts_clear; [by vm_compute| |by vm_compute].
    rewrite length_block_zero. by vm_compute.
Qed.

Lemma superblock_info_encode : superblock_info (encode_superblock i version) = i.
Proof.
  destruct Hi. unfold superblock_info.
  rewrite (superblock_u64 3 16 (generation i)), (superblock_u64 4 24 (journal_start i)),
    (superblock_u64 5 32 (journal_end i)), (superblock_u64 6 40 (journal_head i)),
    (superblock_u64 7 48 (journal_tail i)), (superblock_u64 8 56 (root_transaction_id i)),
    (superblock_u64 9 68 (checkpoint_start i)), (superblock_u8 10 76 (checkpoint_slot i)),
    (superblock_u8 11 77 (compaction_state i)) by (done || lia).
  by destruct i.
Qed.

Lemma decode_encode_superblock n :
  superblock_valid i version n = true ->
  decode_superblock n (encode_superblock i version) = Ok (Some (mk_superblock i version)).
Proof.
  intros Hvalid. unfold decode_superblock.
  assert (Hm : get (encode_superblock i version) 0 8 = SUPERBLOCK_MAGIC) by (by apply (superblock_field 0)).
  rewrite (all_zero_head _ _ _ _ Hm) by done. rewrite bool_decide_eq_true_2 by done. cbn [negb].
  assert (Hv : get_u16 (encode_superblock i version) 8 = version).
  { unfold get_u16. rewrite (superblock_field 1 8 (to_le_bytes 2 version) 2) by done.
    by apply from_to_le_fits, known_version_fits. }
  rewrite Hv, superblock_checksum, Z.eqb_refl, superblock_info_encode, Hvalid. cbv zeta.
  by destruct Hversion as [->|[->| ->]].
Qed.
End superblock_codec.

Lemma decode_superblock_zero n b : all_zero b = true -> decode_superblock n b = Ok None.
Proof. intros E. unfold decode_superblock. by rewrite E. Qed.

(** ** Records *)

Record record_fits (r : JournalRecord) : Prop := {
  rf_kind : fits 16 (kind r);
  rf_bytes : Forall byte_ok (payload r);
  rf_length : Z.of_nat (length (payload r)) <= MAX_RECORD_PAYLOAD_BYTES
}.

Definition record_fields (id seq : Z) (r : JournalRecord) (version : Z) : list (nat * list Z) :=
  [(0, RECORD_MAGIC); (4, to_le_bytes 2 version); (6, to_le_bytes 2 (kind r)); (8, to_le_bytes 8 id);
   (16, to_le_bytes 4 seq); (20, to_le_bytes 2 (Z.of_nat (length (payload r))));
   (32, payload r)]%nat.

Section record_codec.
Variables (id seq version : Z) (r : JournalRecord).
Hypothesis Hr : record_fits r.
Hypothesis Hid : fits 64 id.
Hypothesis Hseq : fits 32 seq.
Hypothesis Hversion : known_version version.

Let pre : Block := puts block_zero (record_fields id seq r version).
Let crc : Z := crc32c pre.
Let fields : list (nat * list Z) := record_fields id seq r version ++ [(28%nat, to_le_bytes 4 crc)].

Lemma record_block_puts : record_block id seq (kind r) (payload r) version = puts block_zero fields.
Proof. reflexivity. Qed.

Lemma record_length_nat : (length (payload r) <= 4064)%nat.
Proof.
  pose proof (rf_length r Hr) as H. change MAX_RECORD_PAYLOAD_BYTES with 4064 in H. lia.
Qed.

Lemma record_pre_in_bounds : in_bounds (Z.to_nat 4096) (record_fields id seq r version) = true.
Proof.
  pose proof record_length_nat. unfold in_bounds, record_fields. cbn [forallb]. rewrite !length_le.
  rewrite !andb_true_iff. cbn [length RECORD_MAGIC]. repeat split; apply Nat.leb_le; lia.
Qed.

Lemma record_in_bounds : in_bounds (Z.to_nat 4096) fields = true.
Proof.
  unfold fields, in_bounds. rewrite forallb_app. fold (in_bounds (Z.to_nat 4096) (record_fields id seq r version)).
  rewrite record_pre_in_bounds. cbn [forallb]. rewrite length_le. apply andb_true_iff. split; [done|].
  apply andb_true_iff. split; [|done]. apply Nat.leb_le. lia.
Qed.

Lemma length_record_block : length (record_block id seq (kind r) (payload r) version) = Z.to_nat 4096.
Proof.
  rewrite record_block_puts, length_puts; rewrite length_block_zero; [done|apply record_in_bounds].
Qed.

Lemma record_pre_ok : Forall byte_ok pre.
Proof.
  apply puts_ok; [apply block_zero_ok|]. unfold record_fields.
  repeat match goal with
  | |- Forall (fun w => Forall byte_ok w.2) [] => apply Forall_nil_2
  | |- Forall (fun w => Forall byte_ok w.2) (_ :: _) => apply Forall_cons_2
  end; cbn [snd]; try apply to_le_bytes_ok.
  - by repeat constructor.
  - apply Hr.
Qed.

Lemma record_field k off v n :
  fields !! k = Some (off, v) -> clear_of off n (drop (S k) fields) = true -> n = length v ->
  get (record_block id seq (kind r) (payload r) version) off n = v.
Proof. intros. rewrite record_block_puts. apply (field_at fields k); auto using record_in_bounds. Qed.

Lemma record_checksum :
  let b := record_block id seq (kind r) (payload r) version in
  crc32c (put_u32 b RECORD_CHECKSUM_OFFSET 0) = get_u32 b RECORD_CHECKSUM_OFFSET.
Proof.
  cbv zeta. change RECORD_CHECKSUM_OFFSET with 28%nat.
  assert (Hc : get_u32 (record_block id seq (kind r) (payload r) version) 28 = crc).
  { unfold get_u32. rewrite (record_field 7 28 (to_le_bytes 4 crc) 4) by done.
    apply from_to_le_fits, crc32c_fits, record_pre_ok. }
  rewrite Hc. change (record_block id seq (kind r) (payload r) version) with (put_u32 pre 28 crc).
  assert (Hl : length pre = Z.to_nat 4096).
  { unfold pre. rewrite length_puts; rewrite length_block_zero; [done|apply record_pre_in_bounds]. }
  rewrite put_u32_undo; [done|rewrite Hl; lia|]. unfold pre.
  rewrite get_puts_clear; [by vm_compute| |done]. rewrite length_block_zero. apply record_pre_in_bounds.
Qed.

Lemma decode_encode_record :
  decode_record_version (record_block id seq (kind r) (payload r) version) version =
  Ok (Some (mk_decoded id seq (kind r) (payload r))).
Proof.
  pose proof record_length_nat as Hn. unfold decode_record_version.
  assert (Hm : get (record_block id seq (kind r) (payload r) version) 0 4 = RECORD_MAGIC)
    by (by apply (record_field 0)).
  rewrite (all_zero_head _ _ _ _ Hm) by done. rewrite bool_decide_eq_true_2 by done. cbn [negb].
  rewrite record_checksum, Z.eqb_refl. cbv zeta.
  assert (H16 : forall k off v, fields !! k = Some (off, to_le_bytes 2 v) ->
    clear_of off 2 (drop (S k) fields) = true -> fits 16 v ->
    get_u16 (record_block id seq (kind r) (payload r) version) off = v).
  { intros k off v E Hc Hv. unfold get_u16. rewrite (record_field k off _ 2 E Hc) by done.
    by apply from_to_le_fits. }
  rewrite (H16 1%nat 4%nat version), (H16 2%nat 6%nat (kind r)),
    (H16 5%nat 20%nat (Z.of_nat (length (payload r))))
    by (done || (by apply known_version_fits) || (by apply Hr) || (unfold fits; lia)).
  rewrite Z.eqb_refl. cbn [negb]. change MAX_RECORD_PAYLOAD_BYTES with 4064.
  destruct (Z.ltb_spec 4064 (Z.of_nat (length (payload r)))); [lia|]. rewrite Nat2Z.id.
  change RECORD_HEADER_BYTES with 32%nat.
  rewrite (record_field 6 32 (payload r) (length (payload r))) by done.
  unfold get_u64, get_u32. rewrite (record_field 3 8 (to_le_bytes 8 id) 8) by done.
  rewrite (record_field 4 16 (to_le_bytes 4 seq) 4) by done.
  by rewrite !from_to_le_fits.
Qed.
End record_codec.

Lemma decode_record_zero b version : all_zero b = true -> decode_record_version b version = Ok None.
Proof. intros E. unfold decode_record_version. by rewrite E. Qed.

(** ** Checkpoint headers *)

Section header_codec.
Variables (root : Z) (payload : list Z).
Hypothesis Hroot : fits 64 root.
Hypothesis Hroot0 : root ≠ 0.
Hypothesis Hbytes : Forall byte_ok payload.
Hypothesis Hlength : Z.of_nat (length payload) <= CHECKPOINT_PAYLOAD_BYTES.

Let fields : list (nat * list Z) :=
  [(0, CHECKPOINT_MAGIC); (8, to_le_bytes 2 CHECKPOINT_VERSION); (16, to_le_bytes 8 root);
   (24, to_le_bytes 4 (Z.of_nat (length payload))); (28, to_le_bytes 4 (crc32c payload))]%nat.

Lemma checkpoint_header_puts : checkpoint_header root payload = puts block_zero fields.
Proof. reflexivity. Qed.

Lemma header_field k off v n :
  fields !! k = Some (off, v) -> clear_of off n (drop (S k) fields) = true -> n = length v ->
  get (checkpoint_header root payload) off n = v.
Proof.
  intros. rewrite checkpoint_header_puts. apply (field_at fields k); [|done..].
  unfold fields. generalize (crc32c payload). intros c. by vm_compute.
Qed.

Lemma header_checksum : get_u32 (checkpoint_header root payload) 28 = crc32c payload.
Proof.
  unfold get_u32. rewrite (header_field 4 28 (to_le_bytes 4 (crc32c payload)) 4) by done.
  by apply from_to_le_fits, crc32c_fits.
Qed.

Lemma decode_encode_header :
  decode_checkpoint_header (checkpoint_header root payload) = Ok (Some (root, Z.of_nat (length payload))).
Proof.
  unfold decode_checkpoint_header. change CHECKPOINT_PAYLOAD_BYTES with 36864 in *.
  assert (Hm : get (checkpoint_header root payload) 0 8 = CHECKPOINT_MAGIC) by (by apply (header_field 0)).
  rewrite (all_zero_head _ _ _ _ Hm) by done. rewrite bool_decide_eq_true_2 by done. cbn [negb orb].
  assert (Hv : get_u16 (checkpoint_header root payload) 8 = CHECKPOINT_VERSION).
  { unfold get_u16. by rewrite (header_field 1 8 (to_le_bytes 2 CHECKPOINT_VERSION) 2) by done. }
  assert (H64 : get_u64 (checkpoint_header root payload) 16 = root).
  { unfold get_u64. rewrite (header_field 2 16 (to_le_bytes 8 root) 8) by done. by apply from_to_le_fits. }
  assert (H32 : get_u32 (checkpoint_header root payload) 24 = Z.of_nat (length payload)).
  { unfold get_u32. rewrite (header_field 3 24 (to_le_bytes 4 (Z.of_nat (length payload))) 4) by done.
    apply from_to_le_fits. unfold fits. lia. }
  rewrite Hv, H64, H32. cbn [negb orb Z.eqb CHECKPOINT_VERSION Pos.eqb]. cbv zeta.
  destruct (Z.eqb_spec root 0); [done|]. destruct (Z.ltb_spec 36864 (Z.of_nat (length payload))); [lia|done].
Qed.
End header_codec.
