(* ===== verification/JournalVolume.v ===== *)
(** * Recovery of the journalled volume

    What a device holds ([layout]): two superblocks, the blocks of the
    published transactions, possibly one more transaction that is durable but
    not yet published, and possibly the first blocks of one that is not.
    [recover] replays exactly the complete transactions of a layout. *)

From Stdlib Require Import ZArith Lia.
From stdpp Require Import base list option numbers.
From S2P Require Import Prelude Bytes BlockStore DiskLogic Journal JournalCodec.

#[local] Open Scope Z_scope.
#[local] Open Scope io_scope.
#[local] Opaque encode_superblock record_block block_zero decode_superblock decode_record_version.

Implicit Types (L l : list Block) (d : disk) (i : VolumeInfo) (v : Volume).

(** ** Transactions on the device *)

(** A transaction with its identifier. *)
Notation tx := (Z * list JournalRecord)%type.

Record record_ok (r : JournalRecord) : Prop := {
  ro_fits : record_fits r;
  ro_kind : kind r ≠ JOURNAL_COMMIT_KIND
}.

Definition records_ok (rs : list JournalRecord) : Prop :=
  Forall record_ok rs ∧ (length rs <= 8)%nat.

(** The block of the record number [k] of a transaction, counted from [j]. *)
Definition data_blocks (version id : Z) (j : nat) (rs : list JournalRecord) : list Block :=
  imap (fun k r => record_block id (Z.of_nat (j + k)) (kind r) (payload r) version) rs.

Definition marker_block (version id : Z) (rs : list JournalRecord) : Block :=
  record_block id (Z.of_nat (length rs)) JOURNAL_COMMIT_KIND [] version.

Definition tx_blocks (version : Z) (t : tx) : list Block :=
  data_blocks version t.1 0 t.2 ++ [marker_block version t.1 t.2].

Definition journal_blocks (version : Z) (txs : list tx) : list Block := txs ≫= tx_blocks version.

(** Identifiers increase from [base]. *)
Fixpoint ids_from (base : Z) (txs : list tx) : Prop :=
  match txs with
  | [] => True
  | (id, rs) :: txs => base < id < MAX_TRANSACTION_ID ∧ records_ok rs ∧ ids_from id txs
  end.

Fixpoint last_id (base : Z) (txs : list tx) : Z :=
  match txs with
  | [] => base
  | (id, _) :: txs => last_id id txs
  end.

Definition record_count (txs : list tx) : Z := foldr (fun t n => Z.of_nat (length t.2) + n) 0 txs.

Lemma length_data_blocks version id j rs : length (data_blocks version id j rs) = length rs.
Proof. apply length_imap. Qed.

Lemma data_blocks_cons version id j r rs :
  data_blocks version id j (r :: rs) =
  record_block id (Z.of_nat j) (kind r) (payload r) version :: data_blocks version id (S j) rs.
Proof.
  unfold data_blocks. rewrite imap_cons, Nat.add_0_r. apply (f_equal (cons _)), imap_ext.
  intros k x _. unfold compose. rewrite Nat.add_succ_r. reflexivity.
Qed.

Lemma data_blocks_take version id rs : forall n j,
  take n (data_blocks version id j rs) = data_blocks version id j (take n rs).
Proof.
  induction rs as [|r rs IH]; intros [|n] j; try reflexivity.
  rewrite data_blocks_cons. cbn [take]. rewrite data_blocks_cons, IH. reflexivity.
Qed.

Lemma length_tx_blocks version t : length (tx_blocks version t) = S (length t.2).
Proof. unfold tx_blocks. rewrite length_app, length_data_blocks. simpl. lia. Qed.

Lemma journal_blocks_app version txs txs' :
  journal_blocks version (txs ++ txs') = journal_blocks version txs ++ journal_blocks version txs'.
Proof. apply bind_app. Qed.

Lemma journal_blocks_one version t : journal_blocks version [t] = tx_blocks version t.
Proof. unfold journal_blocks. simpl. apply app_nil_r. Qed.

Lemma ids_from_app base txs txs' :
  ids_from base (txs ++ txs') <-> ids_from base txs ∧ ids_from (last_id base txs) txs'.
Proof.
  revert base. induction txs as [|[id rs] txs IH]; intros base; simpl; [tauto|]. rewrite IH. tauto.
Qed.

Lemma last_id_app base txs txs' : last_id base (txs ++ txs') = last_id (last_id base txs) txs'.
Proof. revert base. induction txs as [|[id rs] txs IH]; intros base; simpl; auto. Qed.

Lemma ids_from_mono base base' txs : base' <= base -> ids_from base txs -> ids_from base' txs.
Proof. destruct txs as [|[id rs] txs]; simpl; [done|]. intros ? (? & ? & ?). split; [lia|done]. Qed.

Lemma last_id_cons base base' txs : txs ≠ [] -> last_id base txs = last_id base' txs.
Proof. by destruct txs as [|[id rs] txs]. Qed.

Lemma last_id_ge base txs : ids_from base txs -> base <= last_id base txs.
Proof.
  revert base. induction txs as [|[id rs] txs IH]; intros base; simpl; [lia|].
  intros (? & _ & H). specialize (IH id H). lia.
Qed.

Lemma record_count_app txs txs' : record_count (txs ++ txs') = record_count txs + record_count txs'.
Proof. induction txs as [|t txs IH]; simpl; [done|]. rewrite IH. lia. Qed.

(** The blocks [bs] lie on the device from block [a]. *)
Definition blocks_at L (a : Z) (bs : list Block) : Prop :=
  forall k b, bs !! k = Some b -> L !! (Z.to_nat a + k)%nat = Some b.

Lemma blocks_at_app L a bs bs' :
  0 <= a -> blocks_at L a (bs ++ bs') <-> blocks_at L a bs ∧ blocks_at L (a + Z.of_nat (length bs)) bs'.
Proof.
  intros Ha. unfold blocks_at. split.
  - intros H. split; intros k b E.
    + apply H. by apply lookup_app_l_Some.
    + replace (Z.to_nat (a + Z.of_nat (length bs)) + k)%nat with (Z.to_nat a + (length bs + k))%nat by lia.
      apply H. rewrite lookup_app_r by lia. by replace (length bs + k - length bs)%nat with k by lia.
  - intros [H1 H2] k b [E|[Hl E]]%lookup_app_Some; [by apply H1|]. apply H2 in E.
    by replace (Z.to_nat a + k)%nat
      with (Z.to_nat (a + Z.of_nat (length bs)) + (k - length bs))%nat by lia.
Qed.

Lemma blocks_at_cons L a b bs :
  0 <= a -> blocks_at L a (b :: bs) <-> L !! Z.to_nat a = Some b ∧ blocks_at L (a + 1) bs.
Proof.
  intros Ha. change (b :: bs) with ([b] ++ bs). rewrite blocks_at_app by done. simpl. split.
  - intros [H1 H2]. split; [|done]. specialize (H1 0%nat b eq_refl). by rewrite Nat.add_0_r in H1.
  - intros [H1 H2]. split; [|done]. intros [|k] x E; simplify_eq/=. by rewrite Nat.add_0_r.
Qed.

Lemma blocks_at_agree L l a bs :
  (forall k, (Z.to_nat a <= k < Z.to_nat a + length bs)%nat -> l !! k = L !! k) ->
  blocks_at L a bs -> blocks_at l a bs.
Proof. intros H HL k b E. rewrite H; [by apply HL|]. apply lookup_lt_Some in E. lia. Qed.

(** ** Replaying *)

Lemma range_nil a b : b <= a -> range a b = [].
Proof. intros H. unfold range. apply seqZ_nil. lia. Qed.

Lemma range_cons a b : a < b -> range a b = a :: range (a + 1) b.
Proof.
  intros H. unfold range. rewrite seqZ_cons by lia. do 2 f_equal; lia.
Qed.

Section replay.
Context {S : Type} `{ReplaySink S}.
Implicit Types (st : scan S) (s : S).

Fixpoint replay_txs (txs : list tx) s : option S :=
  match txs with
  | [] => Some s
  | (id, rs) :: txs => let '(s, _, b) := replay id rs s in if b then replay_txs txs s else None
  end.

Lemma replay_length id rs : forall s s' n, replay id rs s = (s', n, true) -> n = Z.of_nat (length rs).
Proof.
  induction rs as [|r rs IH]; intros s s' n E; simpl in E; [by simplify_eq|].
  destruct (sink_record s id (kind r) (payload r)) as [s1 [[]|e]]; [|done].
  destruct (replay id rs s1) as [[s2 m] b] eqn:E2. simplify_eq. apply IH in E2. simpl. lia.
Qed.

Lemma replay_txs_app txs txs' s : replay_txs (txs ++ txs') s = replay_txs txs s ≫= replay_txs txs'.
Proof.
  revert s. induction txs as [|[id rs] txs IH]; intros s; simpl; [done|].
  destruct (replay id rs s) as [[s' n] []]; [apply IH|done].
Qed.

(** The loop variables with another pending list. *)
Definition with_pending st p t : scan S :=
  mk_scan p t (committed st) (replayed st) (last_transaction st) (committed_head st) (truncated st) (sink st).

(** A data record continues or opens a pending transaction. *)
Definition expects st (id : Z) : Prop :=
  pending st = [] ∨ pending_transaction st = id.

Lemma scan_record_data index id r st :
  0 < id < MAX_TRANSACTION_ID -> last_transaction st < id -> expects st id ->
  (length (pending st) < 8)%nat -> kind r ≠ JOURNAL_COMMIT_KIND ->
  scan_record index (mk_decoded id (Z.of_nat (length (pending st))) (kind r) (payload r)) st =
  (with_pending st (pending st ++ [r]) id, None).
Proof.
  intros Hid Hlast Hexp Hlen Hk. unfold scan_record. simpl.
  destruct (Z.eqb_spec id 0); [lia|]. destruct (Z.eqb_spec id MAX_TRANSACTION_ID); [lia|]. simpl.
  destruct (Z.leb_spec id (last_transaction st)); [lia|].
  destruct (Z.eqb_spec (kind r) JOURNAL_COMMIT_KIND); [done|]. unfold scan_data. simpl.
  rewrite Z.eqb_refl. change MAX_RECORDS_PER_TRANSACTION with 8.
  destruct (Z.eqb_spec (Z.of_nat (length (pending st))) 8); [lia|].
  assert (bool_decide (pending st = []) && negb (Z.of_nat (length (pending st)) =? 0) = false) as ->.
  { case_bool_decide as E; [|done]. by rewrite E. }
  assert ((if bool_decide (pending st = []) then id else pending_transaction st) = id) as ->.
  { destruct Hexp as [->| ->]; [done|]. by case_bool_decide. }
  rewrite Z.eqb_refl. by destruct r.
Qed.

Lemma scan_record_commit index id st s' :
  0 < id < MAX_TRANSACTION_ID -> last_transaction st < id -> expects st id ->
  (length (pending st) <= 8)%nat -> replay id (pending st) (sink st) = (s', Z.of_nat (length (pending st)), true) ->
  scan_record index (mk_decoded id (Z.of_nat (length (pending st))) JOURNAL_COMMIT_KIND []) st =
  (mk_scan [] 0 (committed st + 1) (replayed st + Z.of_nat (length (pending st))) id (index + 1)
     (truncated st) s', None).
Proof.
  intros Hid Hlast Hexp Hlen Hrep. unfold scan_record. cbn [dr_transaction_id dr_kind].
  destruct (Z.eqb_spec id 0); [lia|]. destruct (Z.eqb_spec id MAX_TRANSACTION_ID); [lia|]. cbn [orb].
  destruct (Z.leb_spec id (last_transaction st)) as [|_]; [lia|]. rewrite Z.eqb_refl.
  unfold scan_commit. cbn [dr_transaction_id dr_payload dr_sequence].
  destruct (Z.leb_spec id (last_transaction st)) as [|_]; [lia|]. rewrite Hrep.
  rewrite bool_decide_eq_true_2 by done. case_bool_decide as E.
  - by rewrite E.
  - destruct Hexp as [|Hexp]; [done|]. by rewrite Hexp, !Z.eqb_refl.
Qed.

Section scanning.
Variables (d : disk) (i : VolumeInfo) (version : Z).
Hypothesis Hversion : known_version version.
Let L : list Block := current d.

Lemma exec_bind_load {A} index b (f : result Block FormatError -> io A) :
  L !! Z.to_nat index = Some b -> exec (io_bind (load index) f) d = exec (f (Ok b)) d.
Proof. intros E. rewrite exec_bind. simpl. by rewrite (disk_read_Some d index b E). Qed.

Lemma exec_scan_record index rest st b r st' :
  L !! Z.to_nat index = Some b -> decode_record_version b version = Ok (Some r) ->
  scan_record index r st = (st', None) ->
  exec (scan_journal i version (index :: rest) st) d = exec (scan_journal i version rest st') d.
Proof.
  intros E1 E2 E3. cbn [scan_journal]. rewrite (exec_bind_load _ _ _ E1). by rewrite E2, E3.
Qed.

Lemma exec_scan_blank index rest st b :
  L !! Z.to_nat index = Some b -> all_zero b = true -> journal_head i <= index ->
  exec (scan_journal i version (index :: rest) st) d = (d, (st, None)).
Proof.
  intros E1 E2 H1. cbn [scan_journal]. rewrite (exec_bind_load _ _ _ E1).
  rewrite (decode_record_zero _ _ E2). by destruct (Z.leb_spec (journal_head i) index); [|lia].
Qed.

(** The loop variables after the data records [rs]. *)
Definition pushed st id rs : scan S :=
  match rs with [] => st | _ => with_pending st (pending st ++ rs) id end.

Lemma pushed_app st id rs rs' : pushed (pushed st id rs) id rs' = pushed st id (rs ++ rs').
Proof.
  destruct rs as [|r rs]; [done|]. destruct rs' as [|r' rs']; [by rewrite app_nil_r|].
  unfold pushed, with_pending. simpl. by rewrite <- app_assoc.
Qed.

Lemma scan_data_blocks id rs : forall a e st,
  0 <= a -> a + Z.of_nat (length rs) <= e -> 0 < id < MAX_TRANSACTION_ID -> last_transaction st < id ->
  expects st id -> (length (pending st) + length rs <= 8)%nat -> Forall record_ok rs ->
  blocks_at L a (data_blocks version id (length (pending st)) rs) ->
  exec (scan_journal i version (range a e) st) d =
  exec (scan_journal i version (range (a + Z.of_nat (length rs)) e) (pushed st id rs)) d.
Proof.
  induction rs as [|r rs IH]; intros a e st Ha He Hid Hlast Hexp Hlen Hok Hat.
  - simpl. by rewrite Z.add_0_r.
  - simpl length in *. apply Forall_cons_1 in Hok as [Hr Hok].
    rewrite data_blocks_cons in Hat. apply blocks_at_cons in Hat as [Hb Hat]; [|done].
    rewrite range_cons by lia. erewrite exec_scan_record; [|exact Hb| |].
    2: { apply decode_encode_record; [apply Hr| | |done]; unfold fits; change MAX_TRANSACTION_ID with (2 ^ 64 - 1) in *; lia. }
    2: { apply scan_record_data; try done; [lia|apply Hr]. }
    change (with_pending st (pending st ++ [r]) id) with (pushed st id [r]).
    rewrite (IH (a + 1)); [|lia|lia|lia|exact Hlast|by right| |exact Hok|].
    + rewrite pushed_app. replace (a + 1 + Z.of_nat (length rs)) with (a + Z.of_nat (Datatypes.S (length rs))) by lia.
      reflexivity.
    + simpl. rewrite length_app. simpl. lia.
    + simpl. rewrite length_app. simpl. rewrite Nat.add_1_r. exact Hat.
Qed.

Lemma pushed_pending st id rs : pending (pushed st id rs) = pending st ++ rs.
Proof. destruct rs; simpl; by rewrite ?app_nil_r. Qed.

Lemma pushed_sink st id rs : sink (pushed st id rs) = sink st ∧ committed (pushed st id rs) = committed st ∧
  replayed (pushed st id rs) = replayed st ∧ last_transaction (pushed st id rs) = last_transaction st ∧
  committed_head (pushed st id rs) = committed_head st ∧ truncated (pushed st id rs) = truncated st.
Proof. by destruct rs. Qed.

Lemma pushed_expects st id rs : expects st id -> expects (pushed st id rs) id.
Proof. destruct rs; [done|]. by right. Qed.

Lemma scan_tx id rs a e st s' :
  0 <= a -> a + Z.of_nat (length rs) + 1 <= e -> 0 < id < MAX_TRANSACTION_ID -> last_transaction st < id ->
  pending st = [] -> records_ok rs -> blocks_at L a (tx_blocks version (id, rs)) ->
  replay id rs (sink st) = (s', Z.of_nat (length rs), true) ->
  exec (scan_journal i version (range a e) st) d =
  exec (scan_journal i version (range (a + Z.of_nat (length rs) + 1) e)
    (mk_scan [] 0 (committed st + 1) (replayed st + Z.of_nat (length rs)) id
       (a + Z.of_nat (length rs) + 1) (truncated st) s')) d.
Proof.
  intros Ha He Hid Hlast Hp [Hok Hlen] Hat Hrep. unfold tx_blocks in Hat. cbn [fst snd] in Hat.
  apply blocks_at_app in Hat as [Hdata Hm]; [|done]. rewrite length_data_blocks in Hm.
  rewrite (scan_data_blocks id rs);
    [|lia|lia|lia|lia|by left|rewrite Hp; simpl; lia|exact Hok|rewrite Hp; exact Hdata].
  pose proof (pushed_pending st id rs) as Hpp. rewrite Hp in Hpp. simpl in Hpp.
  destruct (pushed_sink st id rs) as (E1 & E2 & E3 & E4 & _ & E6).
  apply blocks_at_cons in Hm as [Hm _]; [|lia].
  rewrite range_cons by lia. erewrite exec_scan_record; [|exact Hm| |].
  - reflexivity.
  - unfold marker_block. apply (decode_encode_record id (Z.of_nat (length rs)) version (mk_record JOURNAL_COMMIT_KIND []));
      [by split| | |done]; unfold fits; change MAX_TRANSACTION_ID with (2 ^ 64 - 1) in *; lia.
  - pose proof (scan_record_commit (a + Z.of_nat (length rs)) id (pushed st id rs) s') as Hc.
    rewrite E1, E2, E3, E4, E6, Hpp in Hc.
    apply Hc; [lia|lia|apply pushed_expects; by left|lia|exact Hrep].
Qed.

Lemma scan_txs txs : forall a e st s',
  0 <= a -> a + Z.of_nat (length (journal_blocks version txs)) <= e -> 0 <= last_transaction st ->
  ids_from (last_transaction st) txs -> pending st = [] -> pending_transaction st = 0 ->
  blocks_at L a (journal_blocks version txs) -> replay_txs txs (sink st) = Some s' ->
  exec (scan_journal i version (range a e) st) d =
  exec (scan_journal i version (range (a + Z.of_nat (length (journal_blocks version txs))) e)
    (mk_scan [] 0 (committed st + Z.of_nat (length txs)) (replayed st + record_count txs)
       (last_id (last_transaction st) txs)
       (match txs with [] => committed_head st | _ => a + Z.of_nat (length (journal_blocks version txs)) end)
       (truncated st) s')) d.
Proof.
  induction txs as [|[id rs] txs IH]; intros a e st s' Ha He H0 Hids Hp Ht Hat Hrep.
  - simpl in *. simplify_eq. rewrite !Z.add_0_r. destruct st. simpl in *. by subst.
  - destruct Hids as (Hid & Hok & Hids). cbn [replay_txs] in Hrep.
    destruct (replay id rs (sink st)) as [[s1 n] []] eqn:E1; [|done].
    pose proof (replay_length _ _ _ _ _ E1) as ->.
    unfold journal_blocks in Hat, He |- *. cbn [mbind list_bind] in Hat, He |- *.
    fold (journal_blocks version txs) in Hat, He |- *.
    apply blocks_at_app in Hat as [Htx Hat]; [|done]. rewrite length_app, length_tx_blocks in *. cbn [snd] in *.
    rewrite (scan_tx id rs a e st s1); [|lia|lia|lia|lia|exact Hp|exact Hok|exact Htx|exact E1].
    replace (a + Z.of_nat (Datatypes.S (length rs))) with (a + Z.of_nat (length rs) + 1) in Hat by lia.
    rewrite (IH (a + Z.of_nat (length rs) + 1) e _ s'); cbn [last_transaction pending pending_transaction sink];
      [|lia|lia|lia|exact Hids|reflexivity|reflexivity|exact Hat|exact Hrep].
    cbn [committed replayed truncated committed_head record_count foldr snd length last_id].
    fold (record_count txs). f_equal. f_equal; [f_equal; lia|f_equal; [lia|lia|]].
    destruct txs; [cbn [journal_blocks mbind list_bind length]|]; lia.
Qed.

(** The first blocks of an unfinished transaction and then a blank block or
    the end of the scanned range. *)
Lemma scan_unfinished id rs a e st :
  0 <= a -> 0 <= last_transaction st -> (rs ≠ [] -> last_transaction st < id < MAX_TRANSACTION_ID) ->
  pending st = [] -> journal_head i <= a -> records_ok rs -> blocks_at L a (data_blocks version id 0 rs) ->
  (e <= a + Z.of_nat (length rs) ∨
   exists b, L !! Z.to_nat (a + Z.of_nat (length rs)) = Some b ∧ all_zero b = true) ->
  exists p t, exec (scan_journal i version (range a e) st) d = (d, (with_pending st p t, None)).
Proof.
  intros Ha Hlast Hid Hp Hh [Hok Hlen] Hat Hstop.
  assert (Hst : exists p t, st = with_pending st p t)
    by (exists (pending st), (pending_transaction st); by destruct st).
  destruct (decide (e <= a)) as [He|He].
  { rewrite range_nil by lia. destruct Hst as (p & t & Hst). exists p, t. by rewrite <- Hst. }
  destruct (decide (rs = [])) as [->|Hne].
  { destruct Hst as (p & t & Hst). exists p, t. rewrite <- Hst. simpl in Hstop. rewrite Z.add_0_r in Hstop.
    destruct Hstop as [|(b & Hb & Hz)]; [lia|]. rewrite range_cons by lia. by apply (exec_scan_blank _ _ _ b). }
  specialize (Hid Hne).
  set (n := Nat.min (length rs) (Z.to_nat (e - a))). pose proof (take_drop n rs) as Hsplit.
  assert (Hn : length (take n rs) = n) by (rewrite length_take; lia).
  rewrite (scan_data_blocks id (take n rs)); [|lia|lia|lia|lia|by left|rewrite Hp; simpl; lia|by apply Forall_take|].
  - assert (Hpush : exists p t, pushed st id (take n rs) = with_pending st p t).
    { destruct (take n rs); [done|eauto]. }
    destruct Hpush as (p & t & ->). rewrite Hn. exists p, t.
    destruct (decide (e <= a + Z.of_nat n)).
    { by rewrite range_nil by lia. }
    assert (n = length rs) as Hnn by lia. rewrite Hnn. destruct Hstop as [|(b & Hb & Hz)]; [lia|].
    rewrite range_cons by lia. rewrite (exec_scan_blank _ _ _ b); [done..|lia].
  - rewrite Hp. simpl. unfold data_blocks in *. rewrite <- Hsplit, imap_app in Hat.
    by apply blocks_at_app in Hat as [Hat _].
Qed.

End scanning.
End replay.

(** ** Superblocks on the device *)

Record superblocks L i (version a : Z) : Prop := {
  sbs_version : known_version version;
  sbs_fits : info_fits i;
  sbs_valid : superblock_valid i version (Z.of_nat (length L)) = true;
  sbs_active : a = 0 ∨ a = 1;
  sbs_holds : exists b, L !! Z.to_nat a = Some b ∧
    decode_superblock (Z.of_nat (length L)) b = Ok (Some (mk_superblock i version));
  sbs_other : exists b, L !! Z.to_nat (1 - a) = Some b ∧
    decode_superblock (Z.of_nat (length L)) b ≠ Err UnsupportedVersion ∧
    forall s, decode_superblock (Z.of_nat (length L)) b = Ok (Some s) ->
      s = mk_superblock i version ∨ generation (sb_info s) < generation i
}.

Lemma superblock_valid_spec i version n :
  superblock_valid i version n = true ->
  generation i ≠ 0 ∧ journal_start i = 2 ∧ 2 < journal_end i <= n ∧
  journal_start i <= journal_tail i <= journal_head i ∧ journal_head i <= journal_end i ∧
  (checkpoint_start i = 0 -> checkpoint_slot i = 0 ∧ compaction_state i = 0) ∧
  (checkpoint_start i ≠ 0 -> checkpoint_slot i < 2 ∧ compaction_state i <= 1 ∧
    checkpoint_start i + 20 <= n ∧ checkpoint_start i + 20 < 2 ^ 64 ∧
    (known_version version -> version ≠ LEGACY_FORMAT_VERSION ∧ journal_end i <= checkpoint_start i)).
Proof.
  unfold superblock_valid. change CHECKPOINT_TOTAL_BLOCKS with 20. change JOURNAL_START with 2.
  change CHECKPOINT_SLOTS with 2. change COMPACTION_PREPARED with 1. change COMPACTION_CLEAN with 0.
  unfold checked_add. rewrite andb_true_iff, !negb_true_iff, !orb_false_iff, !andb_false_iff,
    !orb_false_iff, !negb_false_iff. intros [Hleg H].
  destruct H as ((((((((H1 & H2) & H3) & H4) & H5) & H6) & H7) & H8) & H9).
  rewrite Z.eqb_neq in H1. rewrite Z.eqb_eq in H2. rewrite !Z.ltb_ge in H3, H5, H6, H7. rewrite Z.leb_gt in H4.
  split; [done|]. split; [done|]. split; [lia|]. split; [lia|]. split; [lia|]. split.
  - intros E0. destruct H9 as [H9|[E1 E2]]; [by rewrite Z.eqb_neq in H9|]. by rewrite !Z.eqb_eq in E1, E2.
  - intros E0. destruct H8 as [H8|H8]; [by rewrite Z.eqb_eq in H8|].
    rewrite (proj2 (Z.eqb_neq _ _) E0) in *. cbn [negb andb] in *.
    destruct H8 as (((Hlay & Hslot) & Hstate) & Hrange).
    destruct (Z.ltb_spec (checkpoint_start i + 20) (2 ^ 64)); [|done]. rewrite Z.ltb_ge in Hrange, Hstate.
    rewrite Z.leb_gt in Hslot. split; [done|]. split; [done|]. split; [done|]. split; [done|].
    intros Hv. apply orb_false_iff in Hlay as [H20 H30]. rewrite andb_false_iff in H20, H30.
    rewrite negb_false_iff, Z.eqb_eq in H20. rewrite Z.ltb_ge in H30.
    destruct Hv as [->|[->| ->]].
    + split; [done|]. by destruct H30.
    + split; [done|]. destruct H20; [done|lia].
    + by destruct Hleg as [|[[? _] _]].
Qed.

Lemma exec_read_sb L k b :
  L !! Z.to_nat k = Some b ->
  exec (read_superblock k) (reboot L) = (reboot L, decode_superblock (Z.of_nat (length L)) b).
Proof.
  intros E. unfold read_superblock. rewrite (exec_try_ok _ _ _ (reboot L) b); [done|].
  simpl. by rewrite (disk_read_Some (reboot L) k b E).
Qed.

(** What [open] does with the superblock it selected. *)
Definition open_tail v : io (result Volume FormatError) :=
  if compaction_state (info v) =? COMPACTION_PREPARED then
    bind! done := complete_compaction v in
    Ret (match done with (v, Ok _) => Ok v | (_, Err e) => Err e end)
  else pure v.

(** The active superblock is selected, or an identical copy of it. *)
Lemma select_finds L i version a :
  superblocks L i version a ->
  exists a', superblocks L i version a' ∧ forall b0 b1, L !! 0%nat = Some b0 -> L !! 1%nat = Some b1 ->
    select_superblock (decode_superblock (Z.of_nat (length L)) b0) (decode_superblock (Z.of_nat (length L)) b1)
    = Ok (mk_volume i a' version).
Proof.
  intros H. destruct (sbs_holds _ _ _ _ H) as (b & Hb & Db). destruct (sbs_other _ _ _ _ H) as (c & Hc & Uc & Dc).
  destruct (sbs_active _ _ _ _ H) as [->| ->]; change (Z.to_nat 0) with 0%nat in *; change (Z.to_nat 1) with 1%nat in *;
    change (Z.to_nat (1 - 0)) with 1%nat in *; change (Z.to_nat (1 - 1)) with 0%nat in *.
  - exists 0. split; [done|]. intros b0 b1 E0 E1. rewrite E0 in Hb. rewrite E1 in Hc. simplify_eq. rewrite Db.
    destruct (decode_superblock (Z.of_nat (length L)) c) as [[s|]|e] eqn:E; simpl.
    + destruct (Dc s eq_refl) as [->|Hg]; [by rewrite Z.ltb_irrefl|].
      destruct (Z.ltb_spec (generation i) (generation (sb_info s))); [lia|done].
    + done.
    + by destruct e.
  - destruct (decode_superblock (Z.of_nat (length L)) c) as [[s|]|e] eqn:E.
    + destruct (Dc s eq_refl) as [->|Hg].
      * exists 0. split.
        { split; [apply H|apply H|apply H|by left|by exists c|]. exists b. split; [done|]. rewrite Db.
          split; [done|]. intros s [= <-]. by left. }
        intros b0 b1 E0 E1. rewrite E0 in Hc. rewrite E1 in Hb. simplify_eq. rewrite Db, E. simpl.
        by rewrite Z.ltb_irrefl.
      * exists 1. split; [done|]. intros b0 b1 E0 E1. rewrite E0 in Hc. rewrite E1 in Hb. simplify_eq.
        rewrite Db, E. simpl. destruct (Z.ltb_spec (generation (sb_info s)) (generation i)); [done|lia].
    + exists 1. split; [done|]. intros b0 b1 E0 E1. rewrite E0 in Hc. rewrite E1 in Hb. simplify_eq.
      by rewrite Db, E.
    + exists 1. split; [done|]. intros b0 b1 E0 E1. rewrite E0 in Hc. rewrite E1 in Hb. simplify_eq.
      rewrite Db, E. by destruct e.
Qed.

Lemma open_selects L i version a :
  superblocks L i version a ->
  exists a', superblocks L i version a' ∧
    exec open (reboot L) = exec (open_tail (mk_volume i a' version)) (reboot L) ∧
    forall l, crash_during open (reboot L) l -> crash_during (open_tail (mk_volume i a' version)) (reboot L) l.
Proof.
  intros H. pose proof (superblock_valid_spec _ _ _ (sbs_valid _ _ _ _ H)) as (_ & _ & Hn & _).
  destruct (select_finds L i version a H) as (a' & Ha' & Hsel). exists a'. split; [done|].
  assert (exists b0 b1, L !! 0%nat = Some b0 ∧ L !! 1%nat = Some b1) as (b0 & b1 & E0 & E1).
  { destruct (sbs_holds _ _ _ _ H) as (b & Hb & _). destruct (sbs_other _ _ _ _ H) as (c & Hc & _).
    destruct (sbs_active _ _ _ _ H) as [->| ->]; eauto. }
  pose proof (exec_read_sb L SUPERBLOCK_A b0 E0) as R0. pose proof (exec_read_sb L SUPERBLOCK_B b1 E1) as R1.
  assert (Hnf : forall k, noflush (read_superblock k)).
  { intros k. unfold read_superblock. apply noflush_try; simpl; auto. }
  assert (Hgt : JOURNAL_START < Z.of_nat (length L)) by (unfold JOURNAL_START; lia). unfold open. split.
  - cbn [exec]. change (block_count (reboot L)) with (Z.of_nat (length L)).
    rewrite (proj2 (Z.leb_gt _ _) Hgt). rewrite exec_bind, R0, exec_bind, R1, (Hsel b0 b1 E0 E1). reflexivity.
  - intros l [Hc|Hc]; [by apply crash_now|]. change (block_count (reboot L)) with (Z.of_nat (length L)) in Hc.
    rewrite (proj2 (Z.leb_gt _ _) Hgt) in Hc.
    apply crash_during_bind in Hc as [Hc|Hc]; [apply crash_noflush in Hc; [|done]; rewrite R0 in Hc; by apply crash_now|].
    rewrite R0 in Hc. cbn [fst snd] in Hc.
    apply crash_during_bind in Hc as [Hc|Hc]; [apply crash_noflush in Hc; [|done]; rewrite R1 in Hc; by apply crash_now|].
    rewrite R1 in Hc. cbn [fst snd] in Hc. rewrite (Hsel b0 b1 E0 E1) in Hc. exact Hc.
Qed.

(** Opening a clean volume writes nothing. *)
Lemma open_finds L i version a :
  superblocks L i version a -> compaction_state i = COMPACTION_CLEAN ->
  exists a', exec open (reboot L) = (reboot L, Ok (mk_volume i a' version)) ∧ superblocks L i version a'.
Proof.
  intros H Hclean. destruct (open_selects L i version a H) as (a' & Ha' & -> & _). exists a'. split; [|done].
  unfold open_tail. cbn [info]. by rewrite Hclean.
Qed.

(** The information of a superblock that follows [i]. *)
Lemma superblocks_publish L i version a i' :
  superblocks L i version a -> info_fits i' -> generation i' = generation i + 1 ->
  superblock_valid i' version (Z.of_nat (length L)) = true ->
  superblocks (<[Z.to_nat (1 - a) := encode_superblock i' version]> L) i' version (1 - a).
Proof.
  intros H Hf Hg Hv. destruct (sbs_holds _ _ _ _ H) as (b & Hb & Db).
  destruct (sbs_other _ _ _ _ H) as (c & Hc & _). pose proof (sbs_active _ _ _ _ H) as Ha.
  split; rewrite ?length_insert; [apply H|done|done|lia| |].
  - exists (encode_superblock i' version). split.
    + apply list_lookup_insert_eq. by apply lookup_lt_Some in Hc.
    + apply decode_encode_superblock; [done|apply H|done].
  - exists b. split.
    + rewrite list_lookup_insert_ne by lia. by replace (1 - (1 - a)) with a by lia.
    + rewrite Db. split; [done|]. intros s [= <-]. right. simpl. lia.
Qed.

Lemma superblocks_agree L l i version a :
  length l = length L -> l !! 0%nat = L !! 0%nat -> l !! 1%nat = L !! 1%nat ->
  superblocks L i version a -> superblocks l i version a.
Proof.
  intros Hlen E0 E1 H.
  assert (Hk : forall k, k = 0 ∨ k = 1 -> l !! Z.to_nat k = L !! Z.to_nat k) by (by intros k [->| ->]).
  pose proof (sbs_active _ _ _ _ H) as Ha. destruct H. split; rewrite ?Hlen; try done; rewrite Hk by lia; done.
Qed.

Lemma next_superblock_flip v :
  active_superblock v = 0 ∨ active_superblock v = 1 ->
  next_superblock v = 1 - active_superblock v ∧ Z.lxor (active_superblock v) 1 = 1 - active_superblock v.
Proof. unfold next_superblock. by intros [->| ->]. Qed.

(** ** The journal on the device *)

(** The identifier [recover] starts from. *)
Definition base_id i : Z := if checkpointed i then root_transaction_id i else 0.

Definition journal_stop i (version : Z) (txs : list tx) : Z :=
  journal_tail i + Z.of_nat (length (journal_blocks version txs)).

(** From block [a] the device holds the first blocks of a transaction without
    its marker, if any, followed by a blank block or the end of the journal. *)
Definition unfinished L i (version a last : Z) : Prop :=
  exists id rs, (rs ≠ [] -> last < id < MAX_TRANSACTION_ID) ∧ records_ok rs ∧
    blocks_at L a (data_blocks version id 0 rs) ∧
    (journal_end i <= a + Z.of_nat (length rs) ∨
     exists b, L !! Z.to_nat (a + Z.of_nat (length rs)) = Some b ∧ all_zero b = true).

(** The blocks of the published transactions and of [extra] are there. *)
Record journal_held L i (version : Z) (pub extra : list tx) : Prop := {
  ja_clean : compaction_state i = COMPACTION_CLEAN;
  ja_ids : ids_from (base_id i) (pub ++ extra);
  ja_root : root_transaction_id i = last_id (base_id i) pub;
  ja_head : journal_head i = journal_stop i version pub;
  ja_blocks : blocks_at L (journal_tail i) (journal_blocks version (pub ++ extra));
  ja_room : journal_stop i version (pub ++ extra) <= recovery_end i
}.

Definition journal_at L i (version : Z) (pub extra : list tx) : Prop :=
  journal_held L i version pub extra ∧
  unfinished L i version (journal_stop i version (pub ++ extra)) (last_id (base_id i) (pub ++ extra)).

(** The superblock contents with another head and root. *)
Definition advance i (head root : Z) : VolumeInfo :=
  mk_info (generation i + 1) (journal_start i) (journal_end i) head (journal_tail i) root
    (checkpoint_start i) (checkpoint_slot i) (compaction_state i).

Lemma journal_stop_app i version txs txs' :
  journal_stop i version (txs ++ txs') =
  journal_stop i version txs + Z.of_nat (length (journal_blocks version txs')).
Proof. unfold journal_stop. rewrite journal_blocks_app, length_app. lia. Qed.

Lemma journal_blocks_length version txs :
  txs ≠ [] -> 0 < Z.of_nat (length (journal_blocks version txs)).
Proof.
  destruct txs as [|t txs]; [done|]. intros _. unfold journal_blocks. cbn [mbind list_bind].
  rewrite length_app, length_tx_blocks. lia.
Qed.

Lemma base_id_nonneg i : info_fits i -> 0 <= base_id i.
Proof. intros H. unfold base_id. destruct (checkpointed i); [apply H|done]. Qed.

Lemma recovery_end_bounds i :
  info_fits i -> recovery_end i <= journal_end i ∧ recovery_end i <= journal_head i + 9.
Proof.
  intros H. unfold recovery_end, saturating_add. change (MAX_RECORDS_PER_TRANSACTION + 1) with 9. lia.
Qed.

Lemma recovery_end_eq i :
  info_fits i -> recovery_end i = Z.min (journal_head i + 9) (journal_end i).
Proof.
  intros H. pose proof (if_journal_end i H) as [_ He]. unfold recovery_end, saturating_add.
  change (MAX_RECORDS_PER_TRANSACTION + 1) with 9. lia.
Qed.

Lemma last_id_bound base txs : base < MAX_TRANSACTION_ID -> ids_from base txs -> last_id base txs < MAX_TRANSACTION_ID.
Proof. revert base. induction txs as [|[id rs] txs IH]; intros base Hb; simpl; [done|]. intros (? & _ & ?). apply IH; [lia|done]. Qed.

Section publish.
Variables (L : list Block) (i : VolumeInfo) (version a : Z) (pub extra : list tx).
Hypothesis Hsb : superblocks L i version a.
Hypothesis Hja : journal_held L i version pub extra.
Let stop : Z := journal_stop i version (pub ++ extra).
Let last : Z := last_id (base_id i) (pub ++ extra).
Let i' : VolumeInfo := advance i stop last.

Lemma pub_bounds :
  0 <= base_id i ∧ 2 <= journal_tail i <= journal_head i ∧ journal_head i <= stop <= journal_end i ∧
  journal_end i <= Z.of_nat (length L) ∧ 0 <= last.
Proof.
  pose proof (superblock_valid_spec _ _ _ (sbs_valid _ _ _ _ Hsb)) as (_ & E & Hn & Ht & _).
  pose proof (base_id_nonneg i (sbs_fits _ _ _ _ Hsb)). pose proof (recovery_end_bounds i (sbs_fits _ _ _ _ Hsb)) as [Hr _].
  pose proof (ja_room _ _ _ _ _ Hja). pose proof (ja_head _ _ _ _ _ Hja) as Hh.
  pose proof (journal_stop_app i version pub extra) as Ha. pose proof (last_id_ge _ _ (ja_ids _ _ _ _ _ Hja)).
  unfold stop, last. lia.
Qed.

Lemma last_fits : base_id i < MAX_TRANSACTION_ID -> fits 64 last.
Proof.
  intros Hb. pose proof pub_bounds. pose proof (last_id_bound _ _ Hb (ja_ids _ _ _ _ _ Hja)) as Hl.
  change MAX_TRANSACTION_ID with (2 ^ 64 - 1) in Hl. unfold fits, last in *. lia.
Qed.

Lemma last_fits' : fits 64 last.
Proof.
  destruct (decide (base_id i < MAX_TRANSACTION_ID)); [by apply last_fits|].
  pose proof (ja_ids _ _ _ _ _ Hja) as Hids. unfold last. destruct (pub ++ extra) as [|[id rs] l]; simpl in *.
  - unfold base_id in *. destruct (checkpointed i); [apply (sbs_fits _ _ _ _ Hsb)|by vm_compute].
  - lia.
Qed.

Lemma advance_fits : generation i + 1 < 2 ^ 64 -> info_fits i'.
Proof.
  intros Hg. destruct (sbs_fits _ _ _ _ Hsb). pose proof pub_bounds.
  split; simpl; try done; [unfold fits in *; lia|unfold fits in *; lia|apply last_fits'].
Qed.

Lemma advance_valid : superblock_valid i' version (Z.of_nat (length L)) = true.
Proof.
  pose proof (sbs_valid _ _ _ _ Hsb) as Hv. pose proof pub_bounds as (_ & Ht & Hs & _).
  pose proof (if_generation _ (sbs_fits _ _ _ _ Hsb)) as [Hg _].
  unfold superblock_valid in *. unfold i', advance.
  cbn [generation journal_start journal_end journal_head journal_tail checkpoint_start checkpoint_slot compaction_state].
  destruct (Z.eqb_spec (generation i + 1) 0); [lia|]. destruct (Z.ltb_spec stop (journal_tail i)); [lia|].
  destruct (Z.ltb_spec (journal_end i) stop); [lia|].
  apply andb_true_iff in Hv as [Hv1 Hv2]. apply andb_true_iff. split; [exact Hv1|].
  apply negb_true_iff. apply negb_true_iff in Hv2. rewrite !orb_false_iff in Hv2 |- *. tauto.
Qed.

Lemma advance_base : (pub ++ extra) ≠ [] -> base_id i' = 0.
Proof.
  intros Hne. unfold base_id, checkpointed, i', advance. cbn [checkpoint_start journal_head journal_start journal_tail].
  pose proof (journal_blocks_length version _ Hne). destruct (Z.eqb_spec (journal_tail i) (journal_start i)) as [E|];
    [|by rewrite !andb_false_r].
  destruct (Z.eqb_spec stop (journal_start i)) as [E'|]; [|by rewrite andb_false_r].
  unfold stop, journal_stop in E'. lia.
Qed.

(** Publishing the end of the durable transactions. *)
Lemma held_publish l :
  (pub ++ extra) ≠ [] -> generation i + 1 < 2 ^ 64 ->
  (forall k, (2 <= k)%nat -> l !! k = L !! k) -> journal_held l i' version (pub ++ extra) [].
Proof.
  intros Hne Hg Hl. pose proof pub_bounds as (Hb & Ht & Hs & _). pose proof (advance_base Hne) as Hbase.
  destruct Hja as [Hclean Hids Hroot Hhead Hat Hroom].
  assert (Hlast : last_id 0 (pub ++ extra) = last) by (by apply last_id_cons).
  split; rewrite ?Hbase, ?app_nil_r.
  - exact Hclean.
  - by apply (ids_from_mono (base_id i)).
  - symmetry. exact Hlast.
  - reflexivity.
  - eapply blocks_at_agree; [|exact Hat]. intros k Hk. apply Hl. simpl in Hk. lia.
  - rewrite recovery_end_eq by (by apply advance_fits). change (journal_stop i' version (pub ++ extra)) with stop.
    simpl. lia.
Qed.

Lemma journal_publish l :
  (pub ++ extra) ≠ [] -> generation i + 1 < 2 ^ 64 -> unfinished L i version stop last ->
  (forall k, (2 <= k)%nat -> l !! k = L !! k) -> journal_at l i' version (pub ++ extra) [].
Proof.
  intros Hne Hg (id & rs & Hid & Hrs & Hrat & Hstop) Hl. split; [by apply held_publish|].
  pose proof pub_bounds as (Hb & Ht & Hs & _). rewrite app_nil_r, (advance_base Hne).
  change (journal_stop i' version (pub ++ extra)) with stop. rewrite (last_id_cons 0 (base_id i) _ Hne).
  exists id, rs. split; [done|]. split; [done|]. split.
  - eapply blocks_at_agree; [|exact Hrat]. intros k Hk. apply Hl. lia.
  - simpl. destruct Hstop as [|(b & Hb' & Hz)]; [by left|right]. exists b. split; [|done].
    rewrite Hl; [done|]. lia.
Qed.
End publish.

(** ** Recovery *)

Lemma noflush_remaining ids : noflush (remaining_is_blank ids).
Proof.
  induction ids as [|k ids IH]; simpl; [done|]. intros [b|e]; simpl; [|done]. by destruct (all_zero b).
Qed.

Lemma noflush_scan {S} `{ReplaySink S} i version ids : forall st : scan S, noflush (scan_journal i version ids st).
Proof.
  induction ids as [|k ids IH]; intros st; simpl; [done|]. intros [b|e]; simpl; [|done].
  destruct (decode_record_version b version) as [[r|]|e].
  - destruct (scan_record k r st) as [st' [e|]]; [done|apply IH].
  - destruct (journal_head i <=? k); [done|apply IH].
  - case_bool_decide; [done|]. apply noflush_bind; [apply noflush_remaining|]. by intros [[]|e'].
Qed.

(** Writing one superblock and flushing. *)
Lemma publish_safe P L k i version :
  (Z.to_nat k < length L)%nat -> P L -> P (<[Z.to_nat k := encode_superblock i version]> L) ->
  safe P (do! write_superblock_version k i version in sync) (reboot L)
    (reboot (<[Z.to_nat k := encode_superblock i version]> L)) tt.
Proof.
  intros Hk HL HL'. eapply safe_try.
  - apply (safe_write P lift); [done|done|]. by apply crashes_in_one.
  - apply (safe_flush P lift); [done| |done]. by apply crashes_in_one.
Qed.

Section recover_spec.
Context {S : Type} `{ReplaySink S}.
Variables (L : list Block) (v : Volume) (pub extra : list tx) (s s' : S).
Let i : VolumeInfo := info v.
Let version : Z := format_version v.
Let a : Z := active_superblock v.
Hypothesis Hsb : superblocks L i version a.
Hypothesis Hja : journal_at L i version pub extra.
Hypothesis Hrep : replay_txs (pub ++ extra) s = Some s'.
Hypothesis Hgen : extra = [] ∨ generation i + 1 < 2 ^ 64.

Lemma held : journal_held L i version pub extra.
Proof. apply Hja. Qed.

Definition recovered_info : VolumeInfo :=
  advance i (journal_stop i version (pub ++ extra)) (last_id (base_id i) (pub ++ extra)).

Definition recovered_volume : Volume :=
  match extra with [] => v | _ => mk_volume recovered_info (1 - a) version end.

Definition recovered_blocks : list Block :=
  match extra with
  | [] => L
  | _ => <[Z.to_nat (1 - a) := encode_superblock recovered_info version]> L
  end.

Lemma recover_scan : exists p t,
  exec (scan_journal i version (range (journal_tail i) (recovery_end i)) (scan_start i s)) (reboot L) =
  (reboot L, (mk_scan p t (Z.of_nat (length (pub ++ extra))) (record_count (pub ++ extra))
    (last_id (base_id i) (pub ++ extra)) (journal_stop i version (pub ++ extra)) false s', None)).
Proof.
  pose proof (pub_bounds L i version a pub extra Hsb held) as (Hb & Ht & Hs & _ & Hl).
  pose proof Hja as [[_ Hids _ _ Hat Hroom] (id & rs & Hid & Hrs & Hrat & Hstop)].
  pose proof (recovery_end_bounds i (sbs_fits _ _ _ _ Hsb)) as [Hre _].
  rewrite (scan_txs (reboot L) i version (sbs_version _ _ _ _ Hsb) (pub ++ extra) _ _ _ s');
    [|lia|exact Hroom|exact Hb|exact Hids|reflexivity|reflexivity|exact Hat|exact Hrep].
  unfold scan_start. cbn [committed replayed truncated committed_head last_transaction sink].
  rewrite !Z.add_0_l. fold (base_id i).
  edestruct (scan_unfinished (reboot L) i version (sbs_version _ _ _ _ Hsb) id rs
    (journal_stop i version (pub ++ extra)) (recovery_end i)) as (p & t & E);
    [| | | | | |exact Hrat| |exists p, t; unfold journal_stop in *; rewrite E; unfold with_pending;
      cbn [committed replayed truncated committed_head last_transaction sink]].
  - lia.
  - cbn [last_transaction]. exact Hl.
  - exact Hid.
  - reflexivity.
  - lia.
  - exact Hrs.
  - destruct Hstop; [left; lia|by right].
  - destruct (pub ++ extra); [simpl; by rewrite Z.add_0_r|reflexivity].
Qed.

Lemma publish_index : (Z.to_nat (1 - a) < length L)%nat.
Proof.
  pose proof (pub_bounds L i version a pub extra Hsb held). pose proof (sbs_active _ _ _ _ Hsb). lia.
Qed.

Let summary : RecoverySummary :=
  mk_summary (Z.of_nat (length (pub ++ extra))) (record_count (pub ++ extra)).

(** What [recover] does after the scan. *)
Definition recover_finish : io (Volume * S * result RecoverySummary FormatError) :=
  match extra with
  | [] => Ret (v, s', Ok summary)
  | _ =>
      bind! r := (do! write_superblock_version (1 - a) recovered_info version in sync) in
      match r with
      | Err e => Ret (v, s', Err e)
      | Ok _ => Ret (mk_volume recovered_info (1 - a) version, s', Ok summary)
      end
  end.

Lemma recover_split p t : exists k,
  recover v s = io_bind (scan_journal i version (range (journal_tail i) (recovery_end i)) (scan_start i s)) k ∧
  k (mk_scan p t (Z.of_nat (length (pub ++ extra))) (record_count (pub ++ extra))
    (last_id (base_id i) (pub ++ extra)) (journal_stop i version (pub ++ extra)) false s', None) = recover_finish.
Proof.
  eexists. split; [reflexivity|].
  pose proof (pub_bounds L i version a pub extra Hsb held) as (Hb & Ht & Hs & Hend & Hl).
  pose proof (next_superblock_flip v (sbs_active _ _ _ _ Hsb)) as [Hn Hx].
  cbn [truncated negb andb committed_head last_transaction committed replayed sink]. fold i.
  pose proof (ja_root _ _ _ _ _ held) as Hroot. pose proof (ja_head _ _ _ _ _ held) as Hhead.
  pose proof (ja_ids _ _ _ _ _ held) as Hids. apply ids_from_app in Hids as [_ Hids].
  pose proof (last_id_ge _ _ Hids) as Hge. rewrite <- last_id_app in Hge.
  destruct (Z.ltb_spec (last_id (base_id i) (pub ++ extra)) (root_transaction_id i)) as [|_]; [lia|].
  cbn [andb]. unfold recover_finish, recovered_info, summary. destruct (decide (extra = [])) as [->|Hne].
  - rewrite app_nil_r in *. rewrite <- Hhead, <- Hroot, !Z.eqb_refl. reflexivity.
  - assert (journal_stop i version (pub ++ extra) ≠ journal_head i) as Hneq.
    { rewrite Hhead, journal_stop_app. pose proof (journal_blocks_length version _ Hne). lia. }
    rewrite (proj2 (Z.eqb_neq _ _) Hneq). cbn [negb orb].
    destruct Hgen as [|Hg]; [done|]. unfold checked_add. rewrite (proj2 (Z.ltb_lt _ _) Hg), Hn, Hx.
    destruct extra; [done|reflexivity].
Qed.

Lemma recover_finish_safe (P : list Block -> Prop) :
  P L -> P recovered_blocks -> wp P recover_finish (reboot L) (fun d r =>
    d = reboot recovered_blocks ∧ r = (recovered_volume, s', Ok summary)).
Proof.
  intros HL HL'. unfold recover_finish, recovered_blocks, recovered_volume in *.
  pose proof publish_index as Hidx. unfold summary. generalize recovered_info HL'. clear HL'. intros info' HL'.
  destruct extra; [by apply wp_ret; [apply crashes_in_reboot|]|].
  pose proof (publish_safe P L _ info' version Hidx HL HL') as [E C]. split.
  - rewrite exec_bind, E. done.
  - intros m [Hc|Hc]%crash_during_bind; [by apply C|]. rewrite E in Hc. destruct Hc as [Hc|[]].
    by apply crash_reboot in Hc as ->.
Qed.

(** [recover] replays the complete transactions; a power loss leaves the
    device as it was or recovered. *)
Lemma recover_wp (P : list Block -> Prop) :
  P L -> P recovered_blocks -> wp P (recover v s) (reboot L) (fun d r =>
    d = reboot recovered_blocks ∧ r = (recovered_volume, s', Ok summary)).
Proof.
  intros HL HL'. destruct recover_scan as (p & t & E). destruct (recover_split p t) as (k & -> & Ek).
  destruct (recover_finish_safe P HL HL') as [HQ HC]. split.
  - rewrite exec_bind, E, Ek. exact HQ.
  - intros l [Hc|Hc]%crash_during_bind.
    + apply crash_noflush in Hc; [|apply noflush_scan]. rewrite E in Hc. by apply crash_reboot in Hc as ->.
    + rewrite E in Hc. cbn [fst snd] in Hc. rewrite Ek in Hc. by apply HC.
Qed.

(** Recovery leaves a published journal. *)
Lemma recovered_ok :
  superblocks recovered_blocks (info recovered_volume) version (active_superblock recovered_volume) ∧
  journal_at recovered_blocks (info recovered_volume) version (pub ++ extra) [].
Proof.
  unfold recovered_blocks, recovered_volume. destruct (decide (extra = [])) as [->|Hne].
  - rewrite app_nil_r. split; [exact Hsb|exact Hja].
  - destruct Hgen as [|Hg]; [done|].
    assert (Hpe : pub ++ extra ≠ []) by (by intros [_ ?]%app_nil).
    destruct extra as [|t extra'] eqn:E; [done|]. rewrite <- E in *. cbn [info active_superblock]. split.
    + apply (superblocks_publish L i); [exact Hsb| |reflexivity|].
      * eapply advance_fits; [exact Hsb|exact (proj1 Hja)|done].
      * eapply advance_valid; [exact Hsb|exact (proj1 Hja)].
    + eapply journal_publish; [exact Hsb|exact (proj1 Hja)|done|done|exact (proj2 Hja)|].
      intros k Hk. apply list_lookup_insert_ne. pose proof (sbs_active _ _ _ _ Hsb). lia.
Qed.

End recover_spec.

(** ** What recovery finds *)

(** The device holds the transactions [txs], all published but possibly the
    last. *)
Definition layout L (txs : list tx) : Prop :=
  exists i version a pub extra, txs = pub ++ extra ∧ superblocks L i version a ∧
    journal_at L i version pub extra ∧ (extra = [] ∨ generation i + 1 < 2 ^ 64).

(** A restart finds the transactions [txs]: [open] succeeds without writing,
    [recover] hands exactly their records to the sink, in order, and whatever
    it leaves, or a power loss during it leaves, holds the same transactions. *)
Definition recovers L (txs : list tx) : Prop :=
  exists v, exec open (reboot L) = (reboot L, Ok v) ∧
    forall (S : Type) (HS : ReplaySink S) (s s' : S), replay_txs txs s = Some s' ->
      exists L' v', exec (recover v s) (reboot L) =
        (reboot L', (v', s', Ok (mk_summary (Z.of_nat (length txs)) (record_count txs)))) ∧
      layout L' txs ∧ forall l, crash_during (recover v s) (reboot L) l -> layout l txs.

Lemma layout_recovers L txs : layout L txs -> recovers L txs.
Proof.
  intros (i & version & a & pub & extra & -> & Hsb & Hja & Hg).
  destruct (open_finds L i version a Hsb (ja_clean _ _ _ _ _ (proj1 Hja))) as (a' & Ho & Hsb').
  exists (mk_volume i a' version). split; [done|]. intros S HS s s' Hrep.
  assert (HL : layout L (pub ++ extra)) by (exists i, version, a', pub, extra; done).
  set (v := mk_volume i a' version) in *.
  pose proof (recovered_ok L v pub extra s s' Hsb' Hja Hrep Hg) as [R1 R2].
  assert (HL' : layout (recovered_blocks L v pub extra) (pub ++ extra)).
  { exists (info (recovered_volume v pub extra)), version, (active_superblock (recovered_volume v pub extra)),
      (pub ++ extra), []. rewrite app_nil_r. split; [done|]. split; [exact R1|]. split; [exact R2|]. by left. }
  destruct (recover_wp L v pub extra s s' Hsb' Hja Hrep Hg (fun l => layout l (pub ++ extra)) HL HL') as [[E1 E2] C].
  exists (recovered_blocks L v pub extra), (recovered_volume v pub extra). split; [|split; [done|exact C]].
  rewrite <- E1, <- E2. by destruct (exec (recover v s) (reboot L)).
Qed.
