(* ===== verification/JournalCommit.v ===== *)
(** * Commits to the journalled volume

    Atomicity of [commit] under power loss ([commit_safe]), formatting, and
    whole sessions: format, any commits that fit, restart and recovery. *)

From Stdlib Require Import ZArith Lia.
From stdpp Require Import base list option numbers.
From S2P Require Import Prelude Bytes BlockStore DiskLogic Journal JournalCodec JournalVolume.

#[local] Open Scope Z_scope.
#[local] Open Scope io_scope.
#[local] Opaque encode_superblock record_block block_zero decode_superblock decode_record_version.

Implicit Types (L l : list Block) (d : disk) (i : VolumeInfo) (v : Volume).

Definition blank_block L (k : Z) : Prop := exists b, L !! Z.to_nat k = Some b ∧ all_zero b = true.

(** A published journal that is blank from its head up to block [free]. *)
Record clean_journal L v (txs : list tx) (free : Z) : Prop := {
  cj_superblocks : superblocks L (info v) (format_version v) (active_superblock v);
  cj_journal : journal_at L (info v) (format_version v) txs [];
  cj_blank : forall k, journal_head (info v) <= k < free -> blank_block L k;
  cj_free : journal_head (info v) <= free <= journal_end (info v)
}.

(** The blocks of a commit fit, and a blank block or the end of the journal
    follows them. *)
Definition commit_fits v (rs : list JournalRecord) (free : Z) : Prop :=
  journal_head (info v) + Z.of_nat (length rs) + 1 < free ∨
  journal_head (info v) + Z.of_nat (length rs) + 1 = journal_end (info v) ∧ free = journal_end (info v).

Lemma commit_fits_spec v rs free :
  commit_fits v rs free ->
  journal_head (info v) + Z.of_nat (length rs) + 1 <= free ∧
  (journal_head (info v) + Z.of_nat (length rs) + 1 < free ∨
   journal_end (info v) = journal_head (info v) + Z.of_nat (length rs) + 1).
Proof. unfold commit_fits. lia. Qed.

Definition committed_volume v (rs : list JournalRecord) : Volume :=
  mk_volume
    (advance (info v) (journal_head (info v) + Z.of_nat (length rs) + 1) (root_transaction_id (info v) + 1))
    (1 - active_superblock v) (format_version v).

(** The body of the loop of [commit]. *)
Definition commit_write (head id version : Z) (p : nat * JournalRecord) : io (result unit FormatError) :=
  let '(sequence, record) := p in
  try! b := Ret (encode_record_version id (Z.of_nat sequence) (kind record) (payload record) version) in
  store (head + Z.of_nat sequence) b.

Lemma encode_record_ok id seq r version :
  record_fits r -> 0 < id < MAX_TRANSACTION_ID ->
  encode_record_version id seq (kind r) (payload r) version = Ok (record_block id seq (kind r) (payload r) version).
Proof.
  intros Hr Hid. unfold encode_record_version. pose proof (rf_length r Hr).
  destruct (Z.ltb_spec MAX_RECORD_PAYLOAD_BYTES (Z.of_nat (length (payload r)))); [lia|].
  destruct (Z.eqb_spec id 0); [lia|]. by destruct (Z.eqb_spec id MAX_TRANSACTION_ID); [lia|].
Qed.

Lemma run_writes_cons k b bs : run_writes k (b :: bs) = (k, b) :: run_writes (S k) bs.
Proof.
  unfold run_writes. rewrite imap_cons, Nat.add_0_r. apply (f_equal (cons _)), imap_ext. intros n x _.
  unfold compose. by rewrite Nat.add_succ_r.
Qed.

Lemma commit_data_exec head id version rs : forall j d,
  0 <= head -> 0 < id < MAX_TRANSACTION_ID -> Forall record_ok rs ->
  (Z.to_nat head + j + length rs <= length (durable d))%nat ->
  exec (for_each (imap (fun k r => ((j + k)%nat, r)) rs) (commit_write head id version)) d =
  (mk_disk (durable d) (BlockStore.pending d ++ run_writes (Z.to_nat head + j) (data_blocks version id j rs)), Ok tt).
Proof.
  induction rs as [|r rs IH]; intros j d Hh Hid Hok Hlen.
  - simpl. rewrite app_nil_r. by destruct d.
  - apply Forall_cons_1 in Hok as [Hr Hok]. simpl in Hlen. rewrite imap_cons, Nat.add_0_r. cbn [for_each].
    rewrite data_blocks_cons, run_writes_cons.
    assert (Hw : exec (commit_write head id version (j, r)) d =
      (written d (head + Z.of_nat j) (record_block id (Z.of_nat j) (kind r) (payload r) version), Ok tt)).
    { unfold commit_write. rewrite encode_record_ok; [|apply Hr|done]. unfold try_bind. cbn [io_bind].
      apply (exec_write lift). lia. }
    rewrite (exec_try_ok _ _ _ _ _ Hw).
    rewrite (imap_ext _ (fun k r => ((S j + k)%nat, r))).
    2: { intros k x _. unfold compose. by rewrite Nat.add_succ_r. }
    rewrite IH; [|done|done|done|simpl; lia]. unfold written. cbn [durable BlockStore.pending].
    rewrite <- app_assoc. replace (Z.to_nat (head + Z.of_nat j)) with (Z.to_nat head + j)%nat by lia.
    rewrite Nat.add_succ_r. reflexivity.
Qed.

Lemma noflush_commit_data head id version ps : noflush (for_each ps (commit_write head id version)).
Proof.
  induction ps as [|[seq r] ps IH]; [done|]. cbn [for_each]. apply noflush_try; [|done].
  unfold commit_write. apply noflush_try; [done|]. intros b. simpl. done.
Qed.

Lemma existsb_false_Forall {A} (f : A -> bool) (xs : list A) :
  existsb f xs = false <-> Forall (fun x => f x = false) xs.
Proof.
  induction xs as [|x xs IH]; simpl; [done|]. rewrite orb_false_iff, IH. split.
  - intros [? ?]. by constructor.
  - intros H%Forall_cons_1. done.
Qed.

(** The first index below [n] at which a decidable property fails. *)
Lemma prefix_cut (P : nat -> Prop) `{forall k, Decision (P k)} (n : nat) :
  exists m, (m <= n)%nat ∧ (forall k, (k < m)%nat -> P k) ∧ (m = n ∨ ~ P m).
Proof.
  induction n as [|n (m & Hm & Hp & Hc)]; [exists 0%nat; repeat split; [lia|lia|by left]|].
  destruct Hc as [->|Hc]; [|exists m; repeat split; [lia|done|by right]].
  destruct (decide (P n)) as [HP|HP]; [|exists n; repeat split; [lia|done|by right]].
  exists (S n). repeat split; [lia| |by left]. intros k Hk. destruct (decide (k = n)) as [->|]; [done|].
  apply Hp. lia.
Qed.

Section commit_spec.
Variables (L : list Block) (v : Volume) (txs : list tx) (rs : list JournalRecord) (free : Z).
Let i : VolumeInfo := info v.
Let version : Z := format_version v.
Let a : Z := active_superblock v.
Let id : Z := root_transaction_id i + 1.
Let head : Z := journal_head i.
Let next : Z := head + Z.of_nat (length rs) + 1.
Hypothesis Hcj : clean_journal L v txs free.
Hypothesis Hrs : records_ok rs.
Hypothesis Hroom : next <= free.
Hypothesis Hid : id < MAX_TRANSACTION_ID.
Hypothesis Hgen : generation i + 1 < 2 ^ 64.
Let txs' : list tx := txs ++ [(id, rs)].

Lemma commit_superblocks : superblocks L i version a.
Proof. apply Hcj. Qed.

Lemma commit_held : journal_held L i version txs [].
Proof. apply Hcj. Qed.

Lemma commit_bounds :
  0 < id ∧ 2 <= journal_tail i <= head ∧ head = journal_stop i version txs ∧
  next <= free ∧ free <= journal_end i ∧ journal_end i <= Z.of_nat (length L) ∧
  last_id (base_id i) txs < id ∧ ids_from (base_id i) txs' ∧ (a = 0 ∨ a = 1) ∧
  journal_stop i version txs' = next.
Proof.
  pose proof commit_superblocks as Hsb. pose proof commit_held as Hja.
  pose proof (pub_bounds L i version a txs [] Hsb Hja) as (Hb & Ht & Hs & He & Hl).
  rewrite app_nil_r in Hs. pose proof (ja_head _ _ _ _ _ Hja) as Hh. pose proof (ja_root _ _ _ _ _ Hja) as Hroot.
  pose proof (ja_ids _ _ _ _ _ Hja) as Hids. rewrite app_nil_r in Hids.
  pose proof (if_root_transaction_id _ (sbs_fits _ _ _ _ Hsb)) as [Hr0 _].
  pose proof (cj_free _ _ _ _ Hcj) as Hf. fold i in Hf.
  assert (Hids' : ids_from (base_id i) (txs ++ [(root_transaction_id i + 1, rs)])).
  { apply ids_from_app. split; [done|]. rewrite <- Hroot. split; [unfold id in Hid; lia|done]. }
  assert (Hstop : journal_stop i version txs' = next).
  { unfold txs', next, head. rewrite journal_stop_app, journal_blocks_one, length_tx_blocks, <- Hh. simpl. lia. }
  unfold id, next, head, txs' in *. repeat split; try lia; [exact Hids'|apply Hsb].
Qed.

Section torn.
Variable l : list Block.
Hypothesis Hlen : length l = length L.
Hypothesis Hagree : forall k, (k < Z.to_nat head)%nat -> l !! k = L !! k.

Lemma torn_superblocks : superblocks l i version a.
Proof.
  pose proof commit_bounds as (_ & Ht & _).
  apply (superblocks_agree L); [done|apply Hagree; lia|apply Hagree; lia|apply commit_superblocks].
Qed.

Lemma torn_old : blocks_at l (journal_tail i) (journal_blocks version txs).
Proof.
  pose proof commit_bounds as (_ & Ht & Hstop & _).
  pose proof (ja_blocks _ _ _ _ _ commit_held) as Hb. rewrite app_nil_r in Hb. eapply blocks_at_agree; [|exact Hb].
  intros k Hk. apply Hagree. unfold journal_stop in Hstop. lia.
Qed.

(** All blocks of the new transaction are there. *)
Lemma complete_held :
  blocks_at l head (tx_blocks version (id, rs)) -> journal_held l i version txs [(id, rs)].
Proof.
  intros Hat. pose proof commit_held as Hja.
  pose proof commit_bounds as (Hid0 & Ht & Hstop & Hfree & Hfe & Hend & Hlt & Hids & Ha & Hstop').
  pose proof (recovery_end_eq i (sbs_fits _ _ _ _ commit_superblocks)) as Hre. fold head in Hre.
  destruct Hrs as [Hok H8].
  split; fold txs'; [apply Hja|exact Hids|apply Hja|apply Hja| |unfold next in *; lia].
  unfold txs'. rewrite journal_blocks_app, journal_blocks_one. apply blocks_at_app; [lia|].
  unfold journal_stop in Hstop. rewrite <- Hstop. split; [apply torn_old|exact Hat].
Qed.

(** A block after the new transaction that ends the scan. *)
Hypothesis Hafter : journal_end i = next ∨ blank_block l next.

Lemma complete_journal :
  blocks_at l head (tx_blocks version (id, rs)) -> journal_at l i version txs [(id, rs)].
Proof.
  intros Hat. pose proof commit_bounds as (_ & _ & _ & _ & _ & _ & _ & _ & _ & Hstop').
  split; fold txs'; [by apply complete_held|].
  rewrite Hstop'. exists 0, []. split; [done|]. split; [by split; [constructor|simpl; lia]|].
  split; [by intros k b|]. simpl length. rewrite Z.add_0_r. destruct Hafter; [left; lia|by right].
Qed.

(** The first [n] blocks of the new transaction are there and, when some are
    missing, a blank block follows them. *)
Lemma torn_layout (n : nat) :
  (n <= S (length rs))%nat -> blocks_at l head (take n (tx_blocks version (id, rs))) ->
  (n = S (length rs) ∨ blank_block l (head + Z.of_nat n)) -> layout l txs ∨ layout l txs'.
Proof.
  intros Hn Hat Hnext. pose proof torn_superblocks as Hsbl. pose proof commit_held as Hja.
  pose proof commit_bounds as (Hid0 & Ht & Hstop & Hfree & Hfe & Hend & Hlt & Hids & _).
  destruct (decide (n = S (length rs))) as [->|Hne].
  - right. exists i, version, a, txs, [(id, rs)]. split; [done|]. split; [done|]. split; [|by right].
    apply complete_journal. rewrite take_ge in Hat by (rewrite length_tx_blocks; simpl; lia). exact Hat.
  - left. destruct Hnext as [|Hnext]; [done|]. exists i, version, a, txs, []. rewrite app_nil_r. split; [done|].
    split; [done|]. split; [|by left].
    pose proof (recovery_end_eq i (sbs_fits _ _ _ _ commit_superblocks)) as Hre. fold head in Hre.
    destruct Hrs as [Hok H8]. unfold journal_at. rewrite app_nil_r. split.
    { split; rewrite ?app_nil_r; [apply Hja|rewrite <- (app_nil_r txs); apply Hja|apply Hja|apply Hja|apply torn_old|unfold next in *; lia]. }
    rewrite <- Hstop. exists id, (take n rs). split; [lia|]. rewrite length_take, Nat.min_l by lia.
    split; [split; [by apply Forall_take|rewrite length_take; lia]|]. split; [|right; exact Hnext].
    unfold tx_blocks in Hat. cbn [fst snd] in Hat. rewrite take_app_le in Hat by (rewrite length_data_blocks; lia).
    rewrite data_blocks_take in Hat. exact Hat.
Qed.
End torn.

Let new_blocks : list Block := tx_blocks version (id, rs).
Let d2 : disk := mk_disk L (run_writes (Z.to_nat head) new_blocks).

Lemma run_outside k b :
  (k, b) ∈ run_writes (Z.to_nat head) new_blocks -> head <= Z.of_nat k < next.
Proof.
  pose proof commit_bounds. intros [Hk E]%elem_of_run_writes. apply lookup_lt_Some in E.
  unfold new_blocks in E. rewrite length_tx_blocks in E. simpl in E. unfold next in *. lia.
Qed.

Let L1 : list Block := current d2.
Let L2 : list Block :=
  <[Z.to_nat (1 - a) := encode_superblock (info (committed_volume v rs)) version]> L1.

Lemma L1_lookup k :
  L1 !! k = if decide (Z.to_nat head <= k < Z.to_nat head + S (length rs))%nat
            then new_blocks !! (k - Z.to_nat head)%nat else L !! k.
Proof.
  pose proof commit_bounds as (Hid0 & Ht & Hstop & Hfree & Hfe & Hend & _).
  unfold L1, current. simpl. rewrite lookup_run_writes; unfold new_blocks; rewrite length_tx_blocks; [done|].
  simpl. unfold next in *. lia.
Qed.

Lemma L1_length : length L1 = length L.
Proof. apply length_current. Qed.

Lemma L1_agree k : (k < Z.to_nat head)%nat -> L1 !! k = L !! k.
Proof. intros Hk. rewrite L1_lookup, decide_False by lia. done. Qed.

Lemma L1_above k : (Z.to_nat next <= k)%nat -> L1 !! k = L !! k.
Proof.
  intros Hk. pose proof commit_bounds as (_ & Ht & _). rewrite L1_lookup, decide_False; [done|].
  unfold next in *. lia.
Qed.

Lemma L1_superblocks : superblocks L1 i version a.
Proof. apply torn_superblocks; [apply L1_length|apply L1_agree]. Qed.

Lemma L1_new : blocks_at L1 head (tx_blocks version (id, rs)).
Proof.
  pose proof commit_bounds as (_ & Ht & _).
  intros k b E. fold new_blocks in E. pose proof (lookup_lt_Some _ _ _ E) as Hk. unfold new_blocks in Hk.
  rewrite length_tx_blocks in Hk. simpl in Hk. rewrite L1_lookup, decide_True by lia.
  by replace (Z.to_nat head + k - Z.to_nat head)%nat with k by lia.
Qed.

Lemma L1_held : journal_held L1 i version txs [(id, rs)].
Proof. apply complete_held; [apply L1_length|apply L1_agree|apply L1_new]. Qed.

Lemma L2_info : info (committed_volume v rs) =
  advance i (journal_stop i version txs') (last_id (base_id i) txs').
Proof.
  pose proof commit_bounds as (_ & _ & _ & _ & _ & _ & _ & _ & _ & Hstop').
  unfold committed_volume. cbn [info]. fold i head id next. rewrite Hstop'. unfold txs'. by rewrite last_id_app.
Qed.

Lemma L2_high k : (2 <= k)%nat -> L2 !! k = L1 !! k.
Proof. intros Hk. apply list_lookup_insert_ne. pose proof (sbs_active _ _ _ _ commit_superblocks). lia. Qed.

Lemma L2_superblocks : superblocks L2 (info (committed_volume v rs)) version (1 - a).
Proof.
  pose proof L1_superblocks as H1. pose proof L1_held as H2. unfold L2. rewrite L2_info.
  apply (superblocks_publish L1 i); [exact H1| |reflexivity|].
  - by apply (advance_fits L1 i version a txs [(id, rs)]).
  - by apply (advance_valid L1 i version a txs [(id, rs)]).
Qed.

Lemma L2_held : journal_held L2 (info (committed_volume v rs)) version txs' [].
Proof.
  rewrite L2_info. apply (held_publish L1 i version a txs [(id, rs)]);
    [apply L1_superblocks|apply L1_held| |done|exact L2_high]. by intros [_ ?]%app_nil.
Qed.

Lemma commit_guards :
  commit v rs =
  do! for_each (imap pair rs) (commit_write head id version) in
  try! marker := Ret (encode_record_version id (Z.of_nat (length rs)) JOURNAL_COMMIT_KIND [] version) in
  do! store (head + Z.of_nat (length rs)) marker in
  do! sync in
  do! write_superblock_version (1 - a) (info (committed_volume v rs)) version in
  do! sync in
  pure (committed_volume v rs, id).
Proof.
  pose proof commit_superblocks as Hsb. pose proof commit_held as Hja.
  pose proof commit_bounds as (Hid0 & Ht & Hstop & Hfree & Hfe & Hend & _). unfold next in *.
  pose proof (next_superblock_flip v (sbs_active _ _ _ _ Hsb)) as [Hn Hx].
  destruct Hrs as [Hok H8]. unfold commit. fold i head version.
  assert (negb (compaction_state i =? COMPACTION_CLEAN) = false) as -> by (by rewrite (ja_clean _ _ _ _ _ Hja)).
  change MAX_RECORDS_PER_TRANSACTION with 8. destruct (Z.ltb_spec 8 (Z.of_nat (length rs))); [lia|].
  rewrite (proj2 (existsb_false_Forall _ rs)).
  2: { revert Hok. apply Forall_impl. intros r Hr. apply Z.eqb_neq, Hr. }
  pose proof (if_journal_end _ (sbs_fits _ _ _ _ Hsb)) as [_ He64]. unfold checked_add.
  destruct (Z.ltb_spec (head + (Z.of_nat (length rs) + 1)) (2 ^ 64)); [|lia].
  destruct (Z.ltb_spec (journal_end i) (head + (Z.of_nat (length rs) + 1))); [lia|].
  fold id. pose proof Hid as Hid'. change MAX_TRANSACTION_ID with (2 ^ 64 - 1) in Hid'.
  destruct (Z.ltb_spec id (2 ^ 64)); [|lia]. rewrite (proj2 (Z.ltb_lt _ _) Hgen), Hn, Hx.
  replace (head + (Z.of_nat (length rs) + 1)) with (head + Z.of_nat (length rs) + 1) by lia. reflexivity.
Qed.

(** The run of [commit] and its three crash windows. *)
Lemma commit_run P :
  crashes_in P d2 -> P L1 -> P L2 ->
  safe P (commit v rs) (reboot L) (reboot L2) (committed_volume v rs, id).
Proof.
  intros Hw HP1 HP2.
  pose proof commit_bounds as (Hid0 & Ht & Hstop & Hfree & Hfe & Hend & _). destruct Hrs as [Hok H8].
  unfold next in *.
  assert (Hd1 : exec (for_each (imap pair rs) (commit_write head id version)) (reboot L) =
    (mk_disk L (run_writes (Z.to_nat head) (data_blocks version id 0 rs)), Ok tt)).
  { pose proof (commit_data_exec head id version rs 0 (reboot L)) as E. rewrite Nat.add_0_r in E.
    apply E; [lia|lia|exact Hok|simpl; lia]. }
  assert (Hd2 : written (mk_disk L (run_writes (Z.to_nat head) (data_blocks version id 0 rs)))
    (head + Z.of_nat (length rs)) (marker_block version id rs) = d2).
  { unfold written, d2, new_blocks, tx_blocks. cbn [durable BlockStore.pending fst snd].
    rewrite run_writes_snoc, length_data_blocks.
    by replace (Z.to_nat (head + Z.of_nat (length rs))) with (Z.to_nat head + length rs)%nat by lia. }
  rewrite commit_guards.
  eapply safe_try; [apply safe_noflush; [apply noflush_commit_data|exact Hd1|]|].
  { intros l Hl. apply Hw. eapply crash_mono; [|exact Hl]. intros w Hin. unfold new_blocks, tx_blocks.
    rewrite run_writes_snoc. apply elem_of_app. by left. }
  rewrite (encode_record_ok id _ (mk_record JOURNAL_COMMIT_KIND [])); [|by split|lia].
  unfold try_bind at 1. cbn [io_bind kind payload]. fold (marker_block version id rs).
  eapply safe_try.
  { apply (safe_write _ lift); [done|simpl; lia|]. rewrite Hd2. apply Hw. }
  rewrite Hd2. eapply safe_try; [apply (safe_flush _ lift); [done|apply Hw|exact HP1]|]. fold L1.
  eapply safe_try.
  { apply (safe_write _ lift); [done| |by apply crashes_in_one]. simpl. rewrite L1_length.
    pose proof (sbs_active _ _ _ _ commit_superblocks). lia. }
  eapply safe_try; [apply (safe_flush _ lift); [done|by apply crashes_in_one|exact HP2]|].
  rewrite current_written. fold L2. apply safe_ret. by apply crashes_in_reboot.
Qed.

Lemma commit_exec : exec (commit v rs) (reboot L) = (reboot L2, Ok (committed_volume v rs, id)).
Proof. by apply (commit_run (fun _ => True)). Qed.

(** Any subset of the journal writes may survive a power loss. *)
Lemma commit_window_crash l : crash d2 l -> crash_during (commit v rs) (reboot L) l.
Proof.
  intros Hl. pose proof commit_bounds as (Hid0 & Ht & Hstop & Hfree & Hfe & Hend & _). destruct Hrs as [Hok H8].
  unfold next in *. rewrite commit_guards.
  pose proof (commit_data_exec head id version rs 0 (reboot L)) as E. rewrite Nat.add_0_r in E.
  eapply crash_during_try_ok; [apply E; [lia|lia|exact Hok|simpl; lia]|].
  rewrite (encode_record_ok id _ (mk_record JOURNAL_COMMIT_KIND [])); [|by split|lia].
  unfold try_bind at 1. cbn [io_bind kind payload]. fold (marker_block version id rs).
  eapply crash_during_try_ok; [apply (exec_write lift); simpl; lia|]. apply crash_now.
  unfold written. cbn [durable BlockStore.pending reboot app].
  eapply crash_mono; [|exact Hl]. intros w. unfold new_blocks, tx_blocks. cbn [fst snd].
  rewrite run_writes_snoc, length_data_blocks.
  by replace (Z.to_nat (head + Z.of_nat (length rs))) with (Z.to_nat head + length rs)%nat by lia.
Qed.

Lemma commit_blank k : next <= k < free -> blank_block L2 k.
Proof.
  pose proof commit_bounds as (Hid0 & Ht & Hstop & Hfree & Hfe & _).
  intros Hk. destruct (cj_blank _ _ _ _ Hcj k) as (b & Hb & Hz); [fold i head; unfold next in *; lia|].
  exists b. split; [|done]. rewrite L2_high by (unfold next in *; lia). rewrite L1_above by lia. exact Hb.
Qed.

(** ** Atomicity *)

Hypothesis Hnext : next < free ∨ journal_end i = next.

Lemma next_stops l :
  (l !! Z.to_nat next = L !! Z.to_nat next) -> journal_end i = next ∨ blank_block l next.
Proof.
  intros Hl. pose proof commit_bounds as (_ & Ht & _). destruct Hnext as [Hlt|]; [right|by left].
  destruct (cj_blank _ _ _ _ Hcj next) as (b & Hb & Hz); [fold i head; unfold next in *; lia|].
  exists b. split; [|done]. etrans; [exact Hl|exact Hb].
Qed.

Lemma commit_window : crashes_in (fun l => layout l txs ∨ layout l txs') d2.
Proof.
  intros l Hc. pose proof Hc as [Hlen Hcr]. simpl in Hlen, Hcr.
  pose proof commit_bounds as (Hid0 & Ht & Hstop & Hfree & Hfe & Hend & _).
  destruct (prefix_cut (fun k => l !! (Z.to_nat head + k)%nat = new_blocks !! k) (S (length rs)))
    as (n & Hn & Hpre & Hcut).
  apply (torn_layout l Hlen) with n; [| |done| |].
  - intros k Hk. apply (crash_untouched d2 l k Hc). intros b Hin%run_outside. lia.
  - apply next_stops, (crash_untouched d2 l _ Hc). intros b Hin%run_outside. unfold next in *. lia.
  - intros k b E. pose proof (lookup_lt_Some _ _ _ E) as Hk. rewrite length_take in Hk.
    rewrite lookup_take_lt in E by lia. rewrite <- E. apply Hpre. lia.
  - destruct Hcut as [->|Hcut]; [by left|].
    destruct (decide (n = S (length rs))) as [->|Hne]; [by left|right].
    assert (Hb : blank_block L (head + Z.of_nat n)).
    { apply (cj_blank _ _ _ _ Hcj). fold i head. unfold next in *. lia. }
    destruct Hb as (b & Hb & Hz). exists b. split; [|done].
    replace (Z.to_nat (head + Z.of_nat n)) with (Z.to_nat head + n)%nat in * by lia.
    destruct (l !! (Z.to_nat head + n)%nat) as [x|] eqn:E.
    + destruct (Hcr _ _ E) as [H1|[_ H1]%elem_of_run_writes]; [by rewrite <- Hb|].
      exfalso. apply Hcut. symmetry. by replace (Z.to_nat head + n - Z.to_nat head)%nat with n in H1 by lia.
    + apply lookup_ge_None in E. apply lookup_lt_Some in Hb. lia.
Qed.

Lemma L1_journal : journal_at L1 i version txs [(id, rs)].
Proof. apply complete_journal; [apply L1_length|apply L1_agree| |apply L1_new]. apply next_stops, L1_above. lia. Qed.

Lemma commit_clean : clean_journal L2 (committed_volume v rs) txs' free.
Proof.
  pose proof commit_bounds as (Hid0 & Ht & Hstop & Hfree & Hfe & _). pose proof L1_journal as [H1 H2].
  assert (Hne : txs' ≠ []) by (unfold txs'; by intros [_ ?]%app_nil).
  split; [exact L2_superblocks| |exact commit_blank|cbn; fold i head; fold next; lia].
  cbn [format_version committed_volume]. fold version. rewrite L2_info.
  apply (journal_publish L1 i version a txs [(id, rs)]);
    [apply L1_superblocks|done|done|done|done|exact L2_high].
Qed.

(** The commit succeeds, and a power loss at any moment of it leaves the old
    transactions or the old ones with the new one. *)
Lemma commit_safe :
  safe (fun l => layout l txs ∨ layout l txs') (commit v rs) (reboot L) (reboot L2) (committed_volume v rs, id).
Proof.
  apply commit_run; [exact commit_window|right..].
  - exists i, version, a, txs, [(id, rs)]. split; [done|]. split; [apply L1_superblocks|].
    split; [apply L1_journal|by right].
  - exists (info (committed_volume v rs)), version, (1 - a), txs', []. rewrite app_nil_r.
    split; [done|]. destruct commit_clean as [C1 C2 _ _]. split; [exact C1|]. split; [exact C2|by left].
Qed.
End commit_spec.

(** ** Formatting *)

Definition blank_device L : Prop :=
  2 < Z.of_nat (length L) < 2 ^ 64 ∧ Forall (fun b => all_zero b = true) L.

Definition format_info (n version : Z) : VolumeInfo :=
  mk_info 1 JOURNAL_START
    (if version =? FORMAT_VERSION then journal_end_for n else legacy_journal_end_for n)
    JOURNAL_START JOURNAL_START 0
    (if version =? LEGACY_FORMAT_VERSION then 0 else checkpoint_start_for n) 0 COMPACTION_CLEAN.

(** Neither superblock is written. *)
Definition unformatted L : Prop := exec open (reboot L) = (reboot L, Err Unformatted).

Lemma fresh_valid e c version n :
  2 < e <= n -> n < 2 ^ 64 ->
  (c = 0 ∨ 0 < c ∧ e <= c ∧ c + 20 <= n ∧ version ≠ LEGACY_FORMAT_VERSION ∧ (version = V2_FORMAT_VERSION -> c = e)) ->
  superblock_valid (mk_info 1 2 e 2 2 0 c 0 0) version n = true.
Proof.
  intros He Hn Hc. unfold superblock_valid, checked_add.
  cbn [generation journal_start journal_end journal_head journal_tail checkpoint_start checkpoint_slot compaction_state].
  change CHECKPOINT_TOTAL_BLOCKS with 20. change JOURNAL_START with 2.
  destruct (Z.ltb_spec n e); [lia|]. destruct (Z.leb_spec e 2); [lia|]. destruct (Z.ltb_spec e 2); [lia|].
  destruct (Z.eqb_spec c 0) as [->|Hc0].
  - by destruct (version =? LEGACY_FORMAT_VERSION).
  - destruct Hc as [|(Hc1 & Hc2 & Hc3 & Hc4 & Hc5)]; [done|].
    destruct (Z.eqb_spec version LEGACY_FORMAT_VERSION); [done|]. destruct (Z.ltb_spec (c + 20) (2 ^ 64)); [|lia].
    destruct (Z.ltb_spec n (c + 20)); [lia|]. destruct (Z.ltb_spec c e); [lia|].
    destruct (Z.eqb_spec version V2_FORMAT_VERSION) as [Hv|].
    + rewrite (Hc5 Hv), (Z.eqb_refl e). by destruct (version =? FORMAT_VERSION).
    + by destruct (version =? FORMAT_VERSION).
Qed.

Lemma format_info_ok n version :
  2 < n < 2 ^ 64 -> known_version version ->
  info_fits (format_info n version) ∧ superblock_valid (format_info n version) version n = true ∧
  2 < journal_end (format_info n version) <= n.
Proof.
  intros Hn Hv. unfold format_info, journal_end_for, legacy_journal_end_for, checkpoint_start_for.
  change (JOURNAL_START + CHECKPOINT_TOTAL_BLOCKS + MIN_JOURNAL_BLOCKS) with 31.
  change CHECKPOINT_TOTAL_BLOCKS with 20. change (JOURNAL_START + V3_JOURNAL_BLOCKS) with 66.
  change JOURNAL_START with 2. change COMPACTION_CLEAN with 0.
  set (c := if 31 <=? n then n - 20 else 0).
  assert (Hc : c = 0 ∨ 31 <= n ∧ c = n - 20) by (unfold c; destruct (Z.leb_spec 31 n); auto).
  set (e := if version =? FORMAT_VERSION then _ else _). set (c' := if version =? LEGACY_FORMAT_VERSION then 0 else c).
  assert (He : 2 < e <= n ∧ (c' = 0 ∨ 0 < c' ∧ e <= c' ∧ c' + 20 <= n ∧ version ≠ LEGACY_FORMAT_VERSION ∧
    (version = V2_FORMAT_VERSION -> c' = e))).
  { unfold e, c'. destruct (Z.eqb_spec c 0), (Z.ltb_spec 66 c); destruct Hv as [->|[->| ->]];
      cbn [FORMAT_VERSION LEGACY_FORMAT_VERSION V2_FORMAT_VERSION Z.eqb Pos.eqb]; (split; [lia|]);
      first [left; lia|right; repeat split; try done; lia]. }
  destruct He as [He Hc']. cbn [journal_end]. split; [|split; [apply fresh_valid; lia|done]].
  split; unfold fits; cbn [generation journal_start journal_end journal_head journal_tail root_transaction_id
    checkpoint_start checkpoint_slot compaction_state]; lia.
Qed.

Lemma blank_device_lookup L (k : Z) :
  blank_device L -> 0 <= k < Z.of_nat (length L) -> blank_block L k.
Proof.
  intros [Hn Hb] Hk. destruct (lookup_lt_is_Some_2 L (Z.to_nat k) ltac:(lia)) as [b E].
  exists b. split; [done|]. exact (Forall_lookup_1 _ _ _ _ Hb E).
Qed.

Lemma unformatted_ok L : 2 < Z.of_nat (length L) -> blank_block L 0 -> blank_block L 1 -> unformatted L.
Proof.
  intros Hn (b0 & E0 & Z0) (b1 & E1 & Z1). unfold unformatted, open. cbn [exec].
  change (block_count (reboot L)) with (Z.of_nat (length L)).
  destruct (Z.leb_spec (Z.of_nat (length L)) JOURNAL_START) as [Hle|_]; [unfold JOURNAL_START in *; lia|].
  rewrite exec_bind, (exec_read_sb L SUPERBLOCK_A b0 E0), exec_bind, (exec_read_sb L SUPERBLOCK_B b1 E1).
  by rewrite !decode_superblock_zero.
Qed.

Lemma quiet_check_blank_range L lo : forall n,
  0 <= lo -> (forall k, lo <= k < lo + Z.of_nat n -> blank_block L k) ->
  quiet (for_each (range lo (lo + Z.of_nat n)) (fun index =>
    try! b := load index in if all_zero b then pure tt else fail NotBlank)) (reboot L) tt.
Proof.
  intros n. revert lo. induction n as [|n IH]; intros lo Hlo Hb.
  - rewrite range_nil by lia. apply quiet_ret.
  - rewrite range_cons by lia. cbn [for_each].
    destruct (Hb lo ltac:(lia)) as (b & E & Hz). apply (quiet_try _ _ _ tt).
    + eapply quiet_try; [by apply (quiet_read lift _ _ b)|]. rewrite Hz. apply quiet_ret.
    + replace (lo + Z.of_nat (S n)) with (lo + 1 + Z.of_nat n) by lia. apply IH; [lia|]. intros k Hk. apply Hb. lia.
Qed.

Section format_spec.
Variables (L : list Block) (version : Z).
Hypothesis Hblank : blank_device L.
Hypothesis Hversion : known_version version.
Let n : Z := Z.of_nat (length L).
Let i : VolumeInfo := format_info n version.
Let e : Block := encode_superblock i version.
Let L0 : list Block := <[2%nat := block_zero]> L.
Let L1 : list Block := <[0%nat := e]> L0.
Let L2 : list Block := <[1%nat := e]> L1.

Lemma L0_blank k : 0 <= k < n -> blank_block L0 k.
Proof.
  intros Hk. destruct (blank_device_lookup L k Hblank ltac:(lia)) as (b & E & Hz). unfold blank_block, L0.
  destruct (decide (Z.to_nat k = 2%nat)) as [E2|E2].
  - rewrite E2 in *. exists block_zero. split; [|apply all_zero_block_zero].
    apply list_lookup_insert_eq. by apply lookup_lt_Some in E.
  - exists b. split; [|done]. by rewrite list_lookup_insert_ne.
Qed.

Lemma format_lengths : length L0 = length L ∧ length L1 = length L ∧ length L2 = length L.
Proof. unfold L2, L1, L0. by rewrite !length_insert. Qed.

Lemma format_decode : decode_superblock n e = Ok (Some (mk_superblock i version)).
Proof.
  destruct (format_info_ok n version ltac:(apply Hblank) Hversion) as (Hf & Hv & _).
  by apply decode_encode_superblock.
Qed.

Lemma format_superblocks a l :
  a = 0 ∨ a = 1 -> length l = length L -> l !! Z.to_nat a = Some e ->
  (blank_block l (1 - a) ∨ l !! Z.to_nat (1 - a) = Some e) -> superblocks l i version a.
Proof.
  intros Ha Hlen Hhold Hother. destruct (format_info_ok n version ltac:(apply Hblank) Hversion) as (Hf & Hv & _).
  split; rewrite ?Hlen; [done|done|exact Hv|done|exists e; split; [done|apply format_decode]|].
  destruct Hother as [(b & E & Hz)|E]; [exists b|exists e]; split; [done| |done|].
  - by rewrite decode_superblock_zero.
  - fold n. rewrite format_decode. split; [done|]. intros s [= <-]. by left.
Qed.

Lemma format_journal l : blank_block l 2 -> journal_at l i version [] [].
Proof.
  intros Hb. destruct (format_info_ok n version ltac:(apply Hblank) Hversion) as (Hf & Hv & He).
  assert (base_id i = 0) as Hbase by (unfold base_id; by destruct (checkpointed i)).
  split; [split|]; rewrite ?Hbase; [done|done|done|done|by intros k b| |].
  - rewrite recovery_end_eq by done. unfold journal_stop. change (journal_tail i) with 2. change (journal_head i) with 2.
    change (length (journal_blocks version ([] ++ []))) with 0%nat. fold i in He. lia.
  - exists 0, []. split; [done|]. split; [by split; [constructor|simpl; lia]|]. split; [by intros k b|]. by right.
Qed.

Lemma format_layout a l :
  a = 0 ∨ a = 1 -> length l = length L -> l !! Z.to_nat a = Some e ->
  (blank_block l (1 - a) ∨ l !! Z.to_nat (1 - a) = Some e) -> blank_block l 2 -> layout l [].
Proof.
  intros Ha Hlen H1 H2 H3. exists i, version, a, [], []. split; [done|]. split; [by apply format_superblocks|].
  split; [by apply format_journal|by left].
Qed.

Lemma L2_lookup k : (k < 2)%nat -> L2 !! k = Some e.
Proof.
  intros Hk. destruct Hblank as [Hn _]. pose proof format_lengths as (E0 & E1 & E2). unfold L2, L1.
  destruct k as [|[|k]]; [| |lia].
  - rewrite list_lookup_insert_ne by done. apply list_lookup_insert_eq. lia.
  - apply list_lookup_insert_eq. rewrite length_insert. lia.
Qed.

Lemma L2_rest k : (2 <= k)%nat -> L2 !! k = L0 !! k ∧ L1 !! k = L0 !! k.
Proof. intros Hk. unfold L2, L1. by rewrite !list_lookup_insert_ne by lia. Qed.

Lemma format_clean : clean_journal L2 (mk_volume i 1 version) [] (journal_end i).
Proof.
  pose proof format_lengths as (_ & _ & E2). destruct (format_info_ok n version ltac:(apply Hblank) Hversion) as (_ & _ & He).
  fold i in He. assert (Hb : forall k, 2 <= k < n -> blank_block L2 k).
  { intros k Hk. destruct (L0_blank k ltac:(lia)) as (b & E & Hz). exists b. split; [|done].
    etrans; [exact (proj1 (L2_rest (Z.to_nat k) ltac:(lia)))|exact E]. }
  split; cbn [info format_version active_superblock].
  - apply format_superblocks; [by right|done|apply (L2_lookup 1); lia|].
    right. apply (L2_lookup 0). lia.
  - apply format_journal, Hb. destruct Hblank. lia.
  - intros k Hk. apply Hb. change (journal_head i) with 2 in Hk. lia.
  - change (journal_head i) with 2. lia.
Qed.

Let P (l : list Block) : Prop := unformatted l ∨ layout l [].

Lemma format_outcomes : P L ∧ P L0 ∧ P L1 ∧ P L2.
Proof.
  destruct Hblank as [Hn _]. pose proof format_lengths as (E0 & E1 & E2).
  assert (H2 : blank_block L1 2).
  { destruct (L0_blank 2 ltac:(lia)) as (b & E & Hz). exists b. split; [|done]. etrans; [exact (proj2 (L2_rest 2 ltac:(lia)))|exact E]. }
  assert (H1 : blank_block L1 1).
  { destruct (L0_blank 1 ltac:(lia)) as (b & E & Hz). exists b. split; [|done]. unfold L1.
    by rewrite list_lookup_insert_ne. }
  repeat split.
  - left. apply unformatted_ok; [lia|apply blank_device_lookup; [done|lia]..].
  - left. apply unformatted_ok; [lia|apply L0_blank; lia..].
  - right. apply (format_layout 0); [by left|done| |by left|done]. apply list_lookup_insert_eq. lia.
  - right. destruct format_clean as [C1 C2 _ _]. exists i, version, 1, [], []. split; [done|]. split; [exact C1|].
    split; [exact C2|by left].
Qed.

(** Formatting a blank device yields an empty journal; a power loss leaves an
    unformatted device or the empty journal. *)
Lemma journal_format_safe : safe P (format_as version) (reboot L) (reboot L2) (mk_volume i 1 version).
Proof.
  pose proof Hblank as [Hn _]. pose proof format_lengths as (E0 & E1 & E2).
  destruct format_outcomes as (HL & HL0 & HL1 & HL2). unfold format_as.
  assert (negb (version =? LEGACY_FORMAT_VERSION) && negb (version =? V2_FORMAT_VERSION)
    && negb (version =? FORMAT_VERSION) = false) as -> by (by destruct Hversion as [->|[->| ->]]).
  apply safe_count; [by apply crashes_in_reboot|]. cbn [reboot durable]. fold n.
  destruct (Z.leb_spec n JOURNAL_START) as [Hle|_]; [unfold JOURNAL_START in *; lia|].
  eapply safe_try; [apply safe_quiet; [|by apply crashes_in_reboot]|].
  { pose proof (quiet_check_blank_range L 0 (length L)) as Hq. rewrite Z.add_0_l in Hq.
    apply Hq; [lia|]. intros k Hk. by apply blank_device_lookup. }
  unfold format_metadata. apply safe_count; [by apply crashes_in_reboot|]. cbn [reboot durable]. fold n.
  destruct (Z.leb_spec n JOURNAL_START) as [Hle|_]; [unfold JOURNAL_START in *; lia|].
  fold (format_info n version). fold i.
  eapply safe_try; [apply (safe_write _ lift); [done|change (2 < length L)%nat; lia|by apply crashes_in_one]|].
  eapply safe_try; [apply (safe_flush _ lift); [done|by apply crashes_in_one|exact HL0]|].
  rewrite current_written. change (<[Z.to_nat JOURNAL_START := block_zero]> (current (reboot L))) with L0.
  eapply safe_try; [apply (safe_write _ lift); [done|change (0 < length L0)%nat; lia|by apply crashes_in_one]|].
  eapply safe_try; [apply (safe_flush _ lift); [done|by apply crashes_in_one|exact HL1]|].
  rewrite current_written. change (<[Z.to_nat SUPERBLOCK_A := _]> (current (reboot L0))) with L1.
  eapply safe_try; [apply (safe_write _ lift); [done|change (1 < length L1)%nat; lia|by apply crashes_in_one]|].
  eapply safe_try; [apply (safe_flush _ lift); [done|by apply crashes_in_one|exact HL2]|].
  rewrite current_written. change (<[Z.to_nat SUPERBLOCK_B := _]> (current (reboot L1))) with L2.
  apply safe_ret. by apply crashes_in_reboot.
Qed.
End format_spec.

(** ** Sessions *)

Fixpoint commit_all v (rss : list (list JournalRecord)) : io (result Volume FormatError) :=
  match rss with
  | [] => pure v
  | rs :: rss => try! r := commit v rs in commit_all r.1 rss
  end.

Definition session (version : Z) (rss : list (list JournalRecord)) : io (result Volume FormatError) :=
  try! v := format_as version in commit_all v rss.

(** Transactions in commit order with the identifiers they get. *)
Fixpoint numbered (k : Z) (rss : list (list JournalRecord)) : list tx :=
  match rss with
  | [] => []
  | rs :: rss => (k + 1, rs) :: numbered (k + 1) rss
  end.

(** The blocks a list of commits takes. *)
Definition block_total (rss : list (list JournalRecord)) : Z :=
  foldr (fun rs n => Z.of_nat (length rs) + 1 + n) 0 rss.

Lemma block_total_nonneg rss : 0 <= block_total rss.
Proof. induction rss as [|rs rss IH]; simpl; lia. Qed.

Lemma clean_layout L v txs free : clean_journal L v txs free -> layout L txs.
Proof.
  intros [H1 H2 _ _]. exists (info v), (format_version v), (active_superblock v), txs, [].
  rewrite app_nil_r. split; [done|]. split; [done|]. split; [done|by left].
Qed.

(** The superblock after the commits [rss]. *)
Fixpoint committed_info i (rss : list (list JournalRecord)) : VolumeInfo :=
  match rss with
  | [] => i
  | rs :: rss =>
      committed_info (advance i (journal_head i + Z.of_nat (length rs) + 1) (root_transaction_id i + 1)) rss
  end.

Lemma commit_all_safe rss : forall L v txs,
  clean_journal L v txs (journal_end (info v)) -> generation (info v) = root_transaction_id (info v) + 1 ->
  root_transaction_id (info v) + 2 <= journal_head (info v) -> Forall records_ok rss ->
  journal_head (info v) + block_total rss <= journal_end (info v) ->
  exists L' v',
    safe (fun l => exists n, layout l (txs ++ take n (numbered (root_transaction_id (info v)) rss)))
      (commit_all v rss) (reboot L) (reboot L') v' ∧
    clean_journal L' v' (txs ++ numbered (root_transaction_id (info v)) rss) (journal_end (info v')) ∧
    format_version v' = format_version v ∧
    exists a, v' = mk_volume (committed_info (info v) rss) a (format_version v).
Proof.
  induction rss as [|rs rss IH]; intros L v txs Hcj Hgen Hroot Hok Hroom; simpl in Hroom; cbn [commit_all numbered].
  - pose proof (clean_layout _ _ _ _ Hcj) as Hl. exists L, v. rewrite app_nil_r.
    split; [|split; [done|split; [done|exists (active_superblock v); by destruct v]]].
    apply safe_ret, crashes_in_reboot. exists 0%nat. by rewrite app_nil_r.
  - apply Forall_cons_1 in Hok as [Hrs Hok]. pose proof (block_total_nonneg rss) as Hnn.
    set (id := root_transaction_id (info v) + 1) in *.
    assert (Hend : journal_end (info v) < 2 ^ 64) by (apply (if_journal_end _ (sbs_fits _ _ _ _ (cj_superblocks _ _ _ _ Hcj)))).
    assert (Hfit : commit_fits v rs (journal_end (info v))) by (unfold commit_fits; lia).
    destruct (commit_fits_spec _ _ _ Hfit) as [Hroom' Hnext].
    assert (Hid : id < MAX_TRANSACTION_ID) by (change MAX_TRANSACTION_ID with (2 ^ 64 - 1); unfold id; lia).
    assert (Hg : generation (info v) + 1 < 2 ^ 64) by lia.
    pose proof (commit_safe L v txs rs _ Hcj Hrs Hroom' Hid Hg Hnext) as Hsafe.
    pose proof (commit_clean L v txs rs _ Hcj Hrs Hroom' Hid Hg Hnext) as Hclean. fold id in Hsafe, Hclean.
    edestruct (IH _ (committed_volume v rs) _ Hclean) as (L' & v' & Hrest & Hfin & Hver & Hinfo);
      [simpl; lia|simpl; lia|exact Hok|simpl; lia|]. simpl root_transaction_id in Hrest, Hfin. fold id in Hrest, Hfin.
    exists L', v'. split; [|split; [|split; [exact Hver|exact Hinfo]]].
    + eapply safe_try; [eapply safe_mono; [|exact Hsafe]|eapply safe_mono; [|exact Hrest]].
      * intros l [Hl|Hl]; [exists 0%nat; by rewrite app_nil_r|by exists 1%nat].
      * intros l [n Hl]. exists (S n). simpl. by rewrite <- app_assoc in Hl.
    + rewrite <- app_assoc in Hfin. exact Hfin.
Qed.

(** C2: A session on a blank device - formatting in any known version and
    then any commits that fit - succeeds, and a restart replays exactly the
    committed transactions in order.  Power lost at any moment of the session
    leaves an unformatted device, or one from which a restart replays a
    prefix of the commits; recovery itself may be cut short and repeated. *)
Theorem journal_session_durable L version rss :
  blank_device L -> known_version version -> Forall records_ok rss ->
  2 + block_total rss <= journal_end (format_info (Z.of_nat (length L)) version) ->
  (exists L' v, exec (session version rss) (reboot L) = (reboot L', Ok v) ∧ recovers L' (numbered 0 rss)) ∧
  forall l, crash_during (session version rss) (reboot L) l ->
    unformatted l ∨ exists n, recovers l (take n (numbered 0 rss)).
Proof.
  intros Hb Hv Hok Hroom. pose proof (journal_format_safe L version Hb Hv) as Hf.
  pose proof (format_clean L version Hb Hv) as Hc.
  edestruct (commit_all_safe rss _ _ _ Hc) as (L' & v' & Hs & Hl%clean_layout & _); [done|done|done|exact Hroom|].
  cbn [info root_transaction_id format_info app] in Hs, Hl.
  assert (Hsafe : safe (fun l => unformatted l ∨ exists n, layout l (take n (numbered 0 rss)))
    (session version rss) (reboot L) (reboot L') v').
  { eapply safe_try; [eapply safe_mono; [|exact Hf]|eapply safe_mono; [|exact Hs]].
    - intros l [Hu|Hu]; [by left|right]. by exists 0%nat.
    - intros l Hx. by right. }
  destruct Hsafe as [He Hcr]. split.
  - exists L', v'. split; [done|]. by apply layout_recovers.
  - intros l [Hu|[n Hn]]%Hcr; [by left|right]. exists n. by apply layout_recovers.
Qed.

(** C23: Committing to a clean journal is atomic: it succeeds with the next
    identifier and appends the transaction, the journal stays clean, and a
    power loss at any moment leaves a device from which a restart replays the
    old transactions or the old ones followed by the new one. *)
Theorem journal_commit_atomic L v txs rs free :
  clean_journal L v txs free -> records_ok rs -> commit_fits v rs free ->
  root_transaction_id (info v) + 1 < MAX_TRANSACTION_ID -> generation (info v) + 1 < 2 ^ 64 ->
  let id := root_transaction_id (info v) + 1 in
  (exists L', exec (commit v rs) (reboot L) = (reboot L', Ok (committed_volume v rs, id)) ∧
    clean_journal L' (committed_volume v rs) (txs ++ [(id, rs)]) free ∧ recovers L' (txs ++ [(id, rs)])) ∧
  forall l, crash_during (commit v rs) (reboot L) l -> recovers l txs ∨ recovers l (txs ++ [(id, rs)]).
Proof.
  intros Hcj Hrs Hfit Hid Hg id. destruct (commit_fits_spec _ _ _ Hfit) as [Hroom Hnext].
  destruct (commit_safe L v txs rs free Hcj Hrs Hroom Hid Hg Hnext) as [He Hc].
  pose proof (commit_clean L v txs rs free Hcj Hrs Hroom Hid Hg Hnext) as Hclean. split.
  - eexists. split; [exact He|]. split; [exact Hclean|]. apply layout_recovers. by apply clean_layout in Hclean.
  - intros l [Hl|Hl]%Hc; [left|right]; by apply layout_recovers.
Qed.

(** ** A concrete session *)

Definition note : JournalRecord := mk_record 7 [104; 105].

Lemma note_ok n : (n <= 8)%nat -> records_ok (replicate n note).
Proof.
  intros Hn. split; [|by rewrite length_replicate]. apply Forall_replicate.
  split; [split; [by vm_compute| |by vm_compute]|done]. by repeat constructor.
Qed.

Lemma blank_device_zero n : (2 < n < 100)%nat -> blank_device (replicate n block_zero).
Proof.
  intros Hn. split; [rewrite length_replicate; lia|]. apply Forall_replicate, all_zero_block_zero.
Qed.

Lemma journal_session_durable_witness :
  exists L v, exec (session FORMAT_VERSION [[note]; []; [note; note]]) (reboot (replicate 12 block_zero)) =
    (reboot L, Ok v) ∧ recovers L [(1, [note]); (2, []); (3, [note; note])].
Proof.
  apply (journal_session_durable (replicate 12 block_zero) FORMAT_VERSION [[note]; []; [note; note]]).
  - apply blank_device_zero. lia.
  - by left.
  - repeat apply Forall_cons_2; [apply (note_ok 1); lia|apply (note_ok 0); lia|apply (note_ok 2); lia|done].
  - by rewrite length_replicate.
Defined.

(** The states the witnesses of the journal start from. *)
Lemma example_journal (n : nat) (rss : list (list JournalRecord)) :
  (2 < n < 100)%nat -> Forall records_ok rss ->
  2 + block_total rss <= journal_end (format_info (Z.of_nat n) FORMAT_VERSION) ->
  exists L a, clean_journal L
    (mk_volume (committed_info (format_info (Z.of_nat n) FORMAT_VERSION) rss) a FORMAT_VERSION)
    (numbered 0 rss) (journal_end (committed_info (format_info (Z.of_nat n) FORMAT_VERSION) rss)).
Proof.
  intros Hn Hok Hroom. assert (Hb : blank_device (replicate n block_zero)) by (by apply blank_device_zero).
  pose proof (format_clean _ FORMAT_VERSION Hb ltac:(by left)) as Hc. rewrite length_replicate in Hc.
  edestruct (commit_all_safe rss _ _ _ Hc) as (L' & v' & _ & Hl & _ & a & ->); [done|done|done|exact Hroom|].
  by exists L', a.
Qed.

Lemma journal_commit_atomic_witness :
  exists L v, clean_journal L v [(1, [note])] 12 ∧
    exists L', exec (commit v [note; note]) (reboot L) = (reboot L', Ok (committed_volume v [note; note], 2)) ∧
      recovers L' [(1, [note]); (2, [note; note])].
Proof.
  destruct (example_journal 12 [[note]]) as (L & a & H); [lia|apply Forall_cons_2; [apply (note_ok 1); lia|done]|done|].
  exists L, (mk_volume (committed_info (format_info 12 FORMAT_VERSION) [[note]]) a FORMAT_VERSION).
  split; [exact H|].
  destruct (proj1 (journal_commit_atomic L _ _ [note; note] 12 H ltac:(apply (note_ok 2); lia)
    ltac:(left; vm_compute; reflexivity) ltac:(vm_compute; reflexivity) ltac:(vm_compute; reflexivity)))
    as (L' & E & _ & R). exists L'. split; [exact E|exact R].
Defined.
