(* ===== verification/JournalCheckpoint.v ===== *)
(** * Checkpoints of the journalled volume

    [checkpoint] stores a snapshot in the free checkpoint slot, publishes it
    as prepared, clears the first blocks of the journal and publishes the
    clean state; [open] completes a prepared checkpoint.  A power loss at any
    moment leaves the journal or the snapshot ([journal_checkpoint_atomic]). *)

From Stdlib Require Import ZArith Lia.
From stdpp Require Import base list option numbers.
From S2P Require Import Prelude Bytes BlockStore DiskLogic Journal JournalCodec JournalVolume JournalCommit.

#[local] Open Scope Z_scope.
#[local] Open Scope io_scope.
#[local] Opaque encode_superblock record_block block_zero decode_superblock decode_record_version
  checkpoint_header decode_checkpoint_header crc32c.

Implicit Types (L l : list Block) (d : disk) (i : VolumeInfo) (v : Volume) (p : list Z).

(** ** Chunks *)

Definition payload_blocks p : list Block := (fun c => put block_zero 0 c) <$> chunks (length p) p.

Lemma block_bytes_nat : Z.of_nat (Z.to_nat BLOCK_BYTES) = 4096.
Proof. reflexivity. Qed.

Lemma div_ceil_step n : 0 < n -> div_ceil n BLOCK_BYTES = 1 + div_ceil (n - Z.min n BLOCK_BYTES) BLOCK_BYTES.
Proof. intros Hn. unfold div_ceil, BLOCK_BYTES. Z.div_mod_to_equations. lia. Qed.

Lemma div_ceil_nonneg n : 0 <= n -> 0 <= div_ceil n BLOCK_BYTES.
Proof. intros Hn. unfold div_ceil, BLOCK_BYTES. apply Z.div_pos; lia. Qed.

Lemma drop_chunk_length p :
  Z.of_nat (length (drop (Z.to_nat BLOCK_BYTES) p)) = Z.of_nat (length p) - Z.min (Z.of_nat (length p)) BLOCK_BYTES.
Proof. rewrite length_drop. pose proof block_bytes_nat. unfold BLOCK_BYTES in *. lia. Qed.

Lemma take_chunk_length p :
  length (take (Z.to_nat BLOCK_BYTES) p) = Z.to_nat (Z.min (Z.of_nat (length p)) BLOCK_BYTES).
Proof. rewrite length_take. pose proof block_bytes_nat. unfold BLOCK_BYTES in *. lia. Qed.

Lemma chunks_step fuel p :
  p ≠ [] -> chunks (S fuel) p = take (Z.to_nat BLOCK_BYTES) p :: chunks fuel (drop (Z.to_nat BLOCK_BYTES) p).
Proof. by destruct p. Qed.

Lemma length_chunks fuel : forall p,
  (length p <= fuel)%nat -> Z.of_nat (length (chunks fuel p)) = div_ceil (Z.of_nat (length p)) BLOCK_BYTES.
Proof.
  induction fuel as [|fuel IH]; intros p Hp.
  - destruct p; [done|simpl in Hp; lia].
  - destruct (decide (p = [])) as [->|Hne]; [done|]. rewrite chunks_step by done.
    assert (0 < length p)%nat by (destruct p; [done|simpl; lia]).
    cbn [length]. rewrite Nat2Z.inj_succ. pose proof (drop_chunk_length p) as Hd.
    rewrite IH, Hd, (div_ceil_step (Z.of_nat (length p))); unfold BLOCK_BYTES in *; lia.
Qed.

Lemma take_put_chunk (b c : list Z) : (length c <= length b)%nat -> take (length c) (put b 0 c) = c.
Proof. intros H. unfold put. simpl. by rewrite take_app_length. Qed.

Lemma copy_payload_quiet d fuel : forall p a,
  (length p <= fuel)%nat -> 0 <= a -> blocks_at (current d) a ((fun c => put block_zero 0 c) <$> chunks fuel p) ->
  quiet (copy_payload (range a (a + div_ceil (Z.of_nat (length p)) BLOCK_BYTES)) (Z.of_nat (length p))) d p.
Proof.
  induction fuel as [|fuel IH]; intros p a Hp Ha Hat.
  - destruct p; [|simpl in Hp; lia]. change (div_ceil (Z.of_nat (length (@nil Z))) BLOCK_BYTES) with 0.
    rewrite range_nil by lia. apply quiet_ret.
  - destruct (decide (p = [])) as [->|Hne].
    { change (div_ceil (Z.of_nat (length (@nil Z))) BLOCK_BYTES) with 0. rewrite range_nil by lia. apply quiet_ret. }
    assert (0 < length p)%nat as Hpos by (destruct p; [done|simpl; lia]).
    rewrite chunks_step in Hat by done. rewrite fmap_cons in Hat. apply blocks_at_cons in Hat as [Hb Hat]; [|done].
    pose proof (div_ceil_step (Z.of_nat (length p)) ltac:(lia)) as Hstep.
    pose proof (div_ceil_nonneg (Z.of_nat (length p) - Z.min (Z.of_nat (length p)) BLOCK_BYTES)
      ltac:(unfold BLOCK_BYTES; lia)) as Hnn.
    rewrite range_cons by lia. cbn [copy_payload].
    eapply quiet_try; [by apply (quiet_read lift _ _ (put block_zero 0 (take (Z.to_nat BLOCK_BYTES) p)))|].
    pose proof (drop_chunk_length p) as Hd. eapply quiet_try.
    + rewrite Hstep, Z.add_assoc, <- Hd. apply IH; [|lia|exact Hat].
      apply Nat2Z.inj_le. rewrite Hd. unfold BLOCK_BYTES. lia.
    + rewrite <- (take_chunk_length p), take_put_chunk, take_drop; [apply quiet_ret|].
      rewrite take_chunk_length, length_block_zero. unfold BLOCK_BYTES. lia.
Qed.

(** ** Reading a checkpoint *)

Record snapshot_ok (root : Z) p : Prop := {
  so_root : fits 64 root;
  so_nonzero : root ≠ 0;
  so_bytes : Forall byte_ok p;
  so_length : Z.of_nat (length p) <= CHECKPOINT_PAYLOAD_BYTES
}.

Definition checkpoint_at L (base root : Z) p : Prop :=
  L !! Z.to_nat base = Some (checkpoint_header root p) ∧ blocks_at L (base + 1) (payload_blocks p).

Lemma slot_start_spec cs slot :
  cs + slot * 10 + 1 < 2 ^ 64 -> checkpoint_slot_start cs slot = Some (cs + slot * 10 + 1).
Proof.
  intros H. unfold checkpoint_slot_start, checked_add. change CHECKPOINT_BLOCKS with 10.
  rewrite Z.add_assoc. by destruct (Z.ltb_spec (cs + slot * 10 + 1) (2 ^ 64)); [|lia].
Qed.

Section reading.
Variables (d : disk) (cs slot root : Z) (p : list Z).
Let base : Z := cs + slot * 10.
Hypothesis Hcs : 0 <= base.
Hypothesis Hfits : base + 1 < 2 ^ 64.
Hypothesis Hok : snapshot_ok root p.
Hypothesis Hat : checkpoint_at (current d) base root p.

Lemma read_header_quiet : quiet (read_checkpoint_header cs slot) d (Some (root, Z.of_nat (length p))).
Proof.
  unfold read_checkpoint_header. rewrite slot_start_spec by done. fold base.
  replace (base + 1 - 1) with base by lia.
  eapply quiet_try; [by apply (quiet_read lift _ _ (checkpoint_header root p)); [apply Hat|]|].
  rewrite decode_encode_header; [apply quiet_ret|apply Hok..].
Qed.

Lemma read_payload_quiet : quiet (read_checkpoint_payload cs slot (Z.of_nat (length p))) d p.
Proof.
  unfold read_checkpoint_payload. rewrite slot_start_spec by done. fold base.
  eapply quiet_try; [apply (copy_payload_quiet d (length p)); [done|lia|apply Hat]|].
  replace (base + 1 - 1) with base by lia.
  eapply quiet_try; [by apply (quiet_read lift _ _ (checkpoint_header root p)); [apply Hat|]|].
  rewrite header_checksum by apply Hok. rewrite Z.eqb_refl. apply quiet_ret.
Qed.
End reading.

(** ** Loops of writes *)

Lemma for_each_stores {A} (body : A -> io (result unit FormatError)) (f : A -> Z) (g : A -> Block) (ks : list A) :
  (forall k, body k = store (f k) (g k)) -> forall d,
  Forall (fun k => (Z.to_nat (f k) < length (durable d))%nat) ks ->
  exec (for_each ks body) d =
  (mk_disk (durable d) (BlockStore.pending d ++ ((fun k => (Z.to_nat (f k), g k)) <$> ks)), Ok tt).
Proof.
  intros Hbody. induction ks as [|k ks IH]; intros d Hk.
  - simpl. rewrite app_nil_r. by destruct d.
  - apply Forall_cons_1 in Hk as [Hk Hks]. cbn [for_each]. rewrite Hbody.
    erewrite exec_try_ok; [|by apply (exec_write lift)]. rewrite IH by done. unfold written.
    cbn [durable BlockStore.pending]. by rewrite <- app_assoc.
Qed.

Lemma noflush_for_each {A} (body : A -> io (result unit FormatError)) ks :
  (forall k, noflush (body k)) -> noflush (for_each ks body).
Proof. intros H. induction ks as [|k ks IH]; [done|]. cbn [for_each]. by apply noflush_try. Qed.

(** Writes to the consecutive blocks [lo..hi]. *)
Lemma range_writes lo n (b : Block) :
  0 <= lo ->
  (fun k => (Z.to_nat k, b)) <$> range lo (lo + Z.of_nat n) = run_writes (Z.to_nat lo) (replicate n b).
Proof.
  revert lo. induction n as [|n IH]; intros lo Hlo.
  - rewrite range_nil by lia. done.
  - rewrite range_cons, fmap_cons by lia. cbn [replicate]. rewrite run_writes_cons.
    replace (lo + Z.of_nat (S n)) with (lo + 1 + Z.of_nat n) by lia. rewrite IH by lia.
    by replace (Z.to_nat (lo + 1)) with (S (Z.to_nat lo)) by lia.
Qed.

Section write_checkpoint.
Variables (L : list Block) (cs slot root : Z) (p : list Z).
Let base : Z := cs + slot * 10.
Hypothesis Hbase : 0 <= base.
Hypothesis Hend : base + 10 <= Z.of_nat (length L).
Hypothesis Hfits : base + 1 < 2 ^ 64.
Hypothesis Hlength : Z.of_nat (length p) <= CHECKPOINT_PAYLOAD_BYTES.
Let ws : list (nat * Block) :=
  run_writes (Z.to_nat (base + 1)) (replicate 9 block_zero) ++
  run_writes (Z.to_nat (base + 1)) (payload_blocks p) ++ [(Z.to_nat base, checkpoint_header root p)].

Lemma payload_blocks_count : (length (payload_blocks p) <= 9)%nat.
Proof.
  unfold payload_blocks. rewrite length_fmap. apply Nat2Z.inj_le. rewrite length_chunks by done.
  change CHECKPOINT_PAYLOAD_BYTES with 36864 in Hlength. unfold div_ceil, BLOCK_BYTES.
  Z.div_mod_to_equations. lia.
Qed.

Lemma write_checkpoint_exec : exec (write_checkpoint cs slot root p) (reboot L) = (mk_disk L ws, Ok tt).
Proof.
  pose proof payload_blocks_count as Hc.
  unfold write_checkpoint. rewrite slot_start_spec by done. fold base.
  change (range 0 (CHECKPOINT_BLOCKS - 1)) with (range 0 (0 + Z.of_nat 9)).
  erewrite exec_try_ok; [|apply (for_each_stores _ (fun k => base + 1 + k) (fun _ => block_zero)); [done|]].
  2: { apply list.Forall_forall. intros k Hk%elem_of_seqZ. simpl. lia. }
  erewrite exec_try_ok; [|apply (for_each_stores _ (fun x => base + 1 + Z.of_nat x.1) (fun x => put block_zero 0 x.2));
    [by intros []|]].
  2: { apply list.Forall_forall. intros [k c] (j & x & [= -> ->] & E)%elem_of_lookup_imap. apply lookup_lt_Some in E.
    unfold payload_blocks in Hc. rewrite length_fmap in Hc. simpl. lia. }
  unfold store. rewrite (exec_write lift) by (cbn [durable reboot]; lia). unfold written, ws.
  cbn [durable BlockStore.pending reboot app lift]. rewrite <- app_assoc. do 3 f_equal.
  - rewrite <- range_writes by lia.
    replace (range (base + 1) (base + 1 + Z.of_nat 9)) with ((fun k => base + 1 + k) <$> range 0 (0 + Z.of_nat 9)).
    + by rewrite <- list_fmap_compose.
    + unfold range. rewrite Z.add_0_l, Z.sub_0_r. replace (base + 1 + Z.of_nat 9 - (base + 1)) with (Z.of_nat 9) by lia.
      rewrite fmap_add_seqZ. f_equal. lia.
  - f_equal; [|do 2 f_equal; f_equal; lia]. unfold run_writes, payload_blocks. rewrite fmap_imap, imap_fmap.
    apply imap_ext. intros k c _. simpl. f_equal. lia.
Qed.

Lemma noflush_write_checkpoint : noflush (write_checkpoint cs slot root p).
Proof.
  unfold write_checkpoint. rewrite slot_start_spec by done.
  apply noflush_try; [by apply noflush_for_each|]. intros _. apply noflush_try; [|done].
  apply noflush_for_each. by intros [].
Qed.

Lemma checkpoint_writes k b : (k, b) ∈ ws -> base <= Z.of_nat k < base + 10.
Proof.
  pose proof payload_blocks_count as Hc. intros [[Hk E]%elem_of_run_writes|[[Hk E]%elem_of_run_writes|H]%elem_of_app]%elem_of_app.
  - apply lookup_lt_Some in E. rewrite length_replicate in E. lia.
  - apply lookup_lt_Some in E. lia.
  - apply list_elem_of_singleton in H. injection H as -> _. lia.
Qed.

Lemma checkpoint_written : checkpoint_at (apply_writes L ws) base root p.
Proof.
  pose proof payload_blocks_count as Hc. unfold ws. rewrite !apply_writes_app. set (L0 := apply_writes L _).
  assert (H0 : length L0 = length L) by apply length_apply_writes.
  change (apply_writes ?x [(?k, ?b)]) with (<[k := b]> x). split.
  - apply list_lookup_insert_eq. rewrite length_apply_writes. lia.
  - intros k b E. pose proof (lookup_lt_Some _ _ _ E) as Hk. rewrite list_lookup_insert_ne by lia.
    rewrite lookup_run_writes by lia. rewrite decide_True by lia.
    by replace (Z.to_nat (base + 1) + k - Z.to_nat (base + 1))%nat with k by lia.
Qed.
End write_checkpoint.

(** ** Prepared and completed checkpoints *)

Definition snapshot_base i : Z := checkpoint_start i + checkpoint_slot i * 10.

Record prepared L i (version a root : Z) p : Prop := {
  pr_superblocks : superblocks L i version a;
  pr_state : compaction_state i = COMPACTION_PREPARED;
  pr_root : root_transaction_id i = root;
  pr_ok : snapshot_ok root p;
  pr_generation : generation i + 1 < 2 ^ 64;
  pr_at : checkpoint_at L (snapshot_base i) root p
}.

Record compact L v (root : Z) p : Prop := {
  co_clean : clean_journal L v [] (Z.min (journal_start (info v) + 9) (journal_end (info v)));
  co_start : checkpoint_start (info v) ≠ 0;
  co_head : journal_head (info v) = journal_start (info v);
  co_tail : journal_tail (info v) = journal_start (info v);
  co_root : root_transaction_id (info v) = root;
  co_ok : snapshot_ok root p;
  co_at : checkpoint_at L (snapshot_base (info v)) root p
}.

(** The device holds the snapshot [p] of the transactions up to [root]. *)
Definition snapshot_held L (root : Z) p : Prop :=
  (exists i version a, prepared L i version a root p) ∨ (exists v, compact L v root p).

(** Where the checkpoint slots of a valid volume lie. *)
Lemma slot_bounds i version n slot :
  superblock_valid i version n = true -> known_version version -> info_fits i -> checkpoint_start i ≠ 0 ->
  0 <= slot < 2 ->
  journal_end i <= checkpoint_start i + slot * 10 ∧ checkpoint_start i + slot * 10 + 10 <= n ∧
  checkpoint_start i + slot * 10 + 1 < 2 ^ 64.
Proof.
  intros Hv Hk Hf Hc Hs. apply superblock_valid_spec in Hv as (_ & _ & _ & _ & _ & _ & Hx).
  destruct (Hx Hc) as (_ & _ & Hn & H64 & Hlay). destruct (Hlay Hk) as [_ Hl]. lia.
Qed.

Lemma prepared_start L i version a root p : prepared L i version a root p -> checkpoint_start i ≠ 0.
Proof.
  intros H E. pose proof (sbs_valid _ _ _ _ (pr_superblocks _ _ _ _ _ _ H)) as Hv.
  apply superblock_valid_spec in Hv as (_ & _ & _ & _ & _ & Hx & _). destruct (Hx E) as [_ Hx'].
  by rewrite (pr_state _ _ _ _ _ _ H) in Hx'.
Qed.

Lemma checkpoint_at_agree L l base root p :
  0 <= base -> (forall k, (Z.to_nat base <= k)%nat -> l !! k = L !! k) ->
  checkpoint_at L base root p -> checkpoint_at l base root p.
Proof.
  intros Hb H [H1 H2]. split; [rewrite H; [done|lia]|]. eapply blocks_at_agree; [|exact H2].
  intros k Hk. apply H. lia.
Qed.

Definition compacted i : VolumeInfo :=
  mk_info (generation i + 1) (journal_start i) (journal_end i) (journal_start i) (journal_start i)
    (root_transaction_id i) (checkpoint_start i) (checkpoint_slot i) COMPACTION_CLEAN.

Section compaction.
Variables (L : list Block) (v : Volume) (root : Z) (p : list Z).
Let i : VolumeInfo := info v.
Let version : Z := format_version v.
Let a : Z := active_superblock v.
Hypothesis Hpr : prepared L i version a root p.
Let clear_end : Z := Z.min (journal_start i + 9) (journal_end i).
Let ws : list (nat * Block) := run_writes 2 (replicate (Z.to_nat (clear_end - 2)) block_zero).
Let L1 : list Block := apply_writes L ws.
Let L2 : list Block := <[Z.to_nat (1 - a) := encode_superblock (compacted i) version]> L1.
Let v' : Volume := mk_volume (compacted i) (1 - a) version.

Lemma compaction_bounds :
  journal_start i = 2 ∧ 2 < clear_end <= journal_end i ∧ journal_end i <= snapshot_base i ∧
  snapshot_base i + 10 <= Z.of_nat (length L) ∧ snapshot_base i + 1 < 2 ^ 64 ∧ (a = 0 ∨ a = 1) ∧
  (0 <= checkpoint_slot i < 2).
Proof.
  pose proof (pr_superblocks _ _ _ _ _ _ Hpr) as Hsb. pose proof (sbs_valid _ _ _ _ Hsb) as Hv.
  pose proof (prepared_start _ _ _ _ _ _ Hpr) as Hcs. pose proof Hv as Hv'.
  apply superblock_valid_spec in Hv' as (_ & Es & He & _ & _ & _ & Hx). destruct (Hx Hcs) as (Hslot & _).
  pose proof (if_checkpoint_slot _ (sbs_fits _ _ _ _ Hsb)) as [Hslot0 _].
  pose proof (slot_bounds i version _ (checkpoint_slot i) Hv (sbs_version _ _ _ _ Hsb) (sbs_fits _ _ _ _ Hsb) Hcs
    ltac:(lia)) as Hb. pose proof (sbs_active _ _ _ _ Hsb). unfold snapshot_base, clear_end. lia.
Qed.

Lemma cleared_write k b : (k, b) ∈ ws -> 2 <= Z.of_nat k < clear_end ∧ b = block_zero.
Proof.
  pose proof compaction_bounds. intros [Hk E]%elem_of_run_writes.
  apply lookup_replicate in E as [-> Hlt]. split; [lia|done].
Qed.

Lemma prepared_agree l :
  length l = length L -> (forall k, (k < 2 ∨ Z.to_nat clear_end <= k)%nat -> l !! k = L !! k) ->
  prepared l i version a root p.
Proof.
  intros Hl Hk. pose proof compaction_bounds as (Es & Hc & He & _). destruct Hpr as [H1 H2 H3 H4 H5 H6].
  split; [|done..|].
  - apply (superblocks_agree L); [done|apply Hk; lia|apply Hk; lia|done].
  - eapply checkpoint_at_agree; [lia| |exact H6]. intros k Hk'. apply Hk. lia.
Qed.

Lemma L1_cleared k :
  L1 !! k = if decide (2 <= k < Z.to_nat clear_end)%nat then Some block_zero else L !! k.
Proof.
  pose proof compaction_bounds as (Es & Hc & He & Hn & _). unfold L1, ws.
  rewrite lookup_run_writes; rewrite length_replicate; [|lia].
  destruct (decide (2 <= k < Z.to_nat clear_end)%nat).
  - rewrite decide_True by lia. apply lookup_replicate_2. lia.
  - by rewrite decide_False by lia.
Qed.

Lemma compacted_fits : info_fits (compacted i).
Proof.
  pose proof (pr_generation _ _ _ _ _ _ Hpr). destruct (sbs_fits _ _ _ _ (pr_superblocks _ _ _ _ _ _ Hpr)).
  split; simpl; try done; unfold fits in *; lia.
Qed.

Lemma compacted_valid : superblock_valid (compacted i) version (Z.of_nat (length L)) = true.
Proof.
  pose proof (sbs_valid _ _ _ _ (pr_superblocks _ _ _ _ _ _ Hpr)) as Hv.
  pose proof (prepared_start _ _ _ _ _ _ Hpr) as Hcs.
  pose proof (if_generation _ (sbs_fits _ _ _ _ (pr_superblocks _ _ _ _ _ _ Hpr))) as [Hg _].
  pose proof compaction_bounds as (Es & Hc & He & Hn & _).
  unfold superblock_valid in *. unfold compacted.
  cbn [generation journal_start journal_end journal_head journal_tail checkpoint_start checkpoint_slot compaction_state].
  destruct (Z.eqb_spec (generation i + 1) 0); [lia|]. rewrite Z.ltb_irrefl.
  destruct (Z.ltb_spec (journal_end i) (journal_start i)); [lia|].
  rewrite (proj2 (Z.eqb_neq _ _) Hcs) in *. cbn [negb andb orb] in *.
  change (COMPACTION_PREPARED <? COMPACTION_CLEAN) with false.
  apply andb_true_iff in Hv as [Hv1 Hv2]. apply andb_true_iff. split; [exact Hv1|].
  apply negb_true_iff. apply negb_true_iff in Hv2. rewrite !orb_false_iff in Hv2 |- *. destruct_and! Hv2.
  repeat match goal with H : _ || _ = false |- _ => apply orb_false_iff in H as [? ?] end. by split_and!.
Qed.

Lemma L1_prepared : prepared L1 i version a root p.
Proof.
  apply prepared_agree; [apply length_apply_writes|]. intros k Hk. rewrite L1_cleared, decide_False by lia. done.
Qed.

Lemma L2_above k : (2 <= k)%nat -> L2 !! k = L1 !! k.
Proof. intros Hk. apply list_lookup_insert_ne. pose proof compaction_bounds. lia. Qed.

Lemma L2_zero k : 2 <= k < clear_end -> blank_block L2 k.
Proof.
  intros Hk. exists block_zero. split; [|apply all_zero_block_zero].
  rewrite L2_above, L1_cleared, decide_True by lia. done.
Qed.

Lemma compact_done : compact L2 v' root p.
Proof.
  pose proof compaction_bounds as (Es & Hc & He & Hn & H64 & Ha & _). pose proof L1_prepared as Hp1.
  pose proof (prepared_start _ _ _ _ _ _ Hpr) as Hcs.
  assert (Hl : length L1 = length L) by apply length_apply_writes.
  assert (Hck : checkpointed (compacted i) = true).
  { unfold checkpointed. cbn. by rewrite (proj2 (Z.eqb_neq _ _) Hcs), Z.eqb_refl. }
  assert (Hb : base_id (compacted i) = root_transaction_id i) by (unfold base_id; by rewrite Hck).
  split; cbn [info v'].
  2-6: done || apply Hpr.
  - split; cbn [info format_version active_superblock v'].
    + apply (superblocks_publish L1 i); [apply Hp1|apply compacted_fits|reflexivity|].
      rewrite Hl. apply compacted_valid.
    + split; [split|]; rewrite ?Hb; [done|done|done| |by intros k b| |].
      * unfold journal_stop. simpl. lia.
      * rewrite recovery_end_eq by apply compacted_fits. unfold journal_stop. simpl. lia.
      * exists 0, []. split; [done|]. split; [by split; [constructor|simpl; lia]|]. split; [by intros k b|].
        right. apply L2_zero. unfold journal_stop. simpl. lia.
    + intros k Hk. apply L2_zero. simpl in Hk. unfold clear_end. lia.
    + simpl. lia.
  - eapply checkpoint_at_agree; [|intros k Hk; apply L2_above|apply Hp1]; unfold snapshot_base in *; simpl in *; lia.
Qed.

Lemma prepared_held l : prepared l i version a root p -> snapshot_held l root p.
Proof. intros H. left. by exists i, version, a. Qed.

Lemma cleared_crash : crashes_in (fun l => snapshot_held l root p) (mk_disk L ws).
Proof.
  intros l Hc. pose proof Hc as [Hl _]. apply prepared_held, prepared_agree; [done|].
  intros k Hk. apply (crash_untouched (mk_disk L ws) l k Hc). intros b [Hw _]%cleared_write. lia.
Qed.

Lemma compaction_exec_clear :
  exec (for_each (range (journal_start i) clear_end) (fun index => store index block_zero)) (reboot L) =
  (mk_disk L ws, Ok tt).
Proof.
  pose proof compaction_bounds as (Es & Hc & He & Hn & _).
  rewrite (for_each_stores _ (fun k => k) (fun _ => block_zero)); [|done|].
  - cbn [durable BlockStore.pending reboot app]. do 2 f_equal. rewrite Es. unfold ws.
    pose proof (range_writes 2 (Z.to_nat (clear_end - 2)) block_zero ltac:(lia)) as Hr.
    change (Z.to_nat 2) with 2%nat in Hr. rewrite <- Hr. do 2 f_equal. lia.
  - apply list.Forall_forall. intros k Hk%elem_of_seqZ. simpl. lia.
Qed.

Lemma complete_wp :
  wp (fun l => snapshot_held l root p) (complete_compaction v) (reboot L)
    (fun d r => d = reboot L2 ∧ r = (v', Ok tt)).
Proof.
  pose proof compaction_bounds as (Es & Hc & He & Hn & H64 & Ha & Hslot).
  pose proof (next_superblock_flip v Ha) as [Hnext Hx].
  assert (HL : snapshot_held L root p) by (by apply prepared_held).
  assert (HL1 : snapshot_held L1 root p) by (apply prepared_held, L1_prepared).
  assert (HL2 : snapshot_held L2 root p) by (right; exists v'; apply compact_done).
  assert (Hat : checkpoint_at (current (reboot L)) (checkpoint_start i + checkpoint_slot i * 10) root p) by apply Hpr.
  unfold complete_compaction. fold i version.
  match goal with |- wp _ (io_bind ?q _) _ _ => assert (Hs : safe (fun l => snapshot_held l root p) q
    (reboot L) (reboot L2) (compacted i)) end.
  - unfold snapshot_base in *.
    eapply safe_try; [apply safe_quiet; [apply (read_header_quiet _ _ _ root p); [lia|apply Hpr|exact Hat]|by apply crashes_in_reboot]|].
    cbv iota beta. rewrite (proj2 (Z.eqb_eq root (root_transaction_id i)) (eq_sym (pr_root _ _ _ _ _ _ Hpr))).
    cbn [negb].
    eapply safe_try; [apply safe_quiet; [apply (read_payload_quiet _ _ _ root p); [lia|lia|apply Hpr|exact Hat]|by apply crashes_in_reboot]|].
    change MIN_JOURNAL_BLOCKS with 9. fold clear_end.
    eapply safe_try; [apply safe_noflush; [by apply noflush_for_each|apply compaction_exec_clear|apply cleared_crash]|].
    eapply safe_try; [apply (safe_flush _ lift); [done|apply cleared_crash|exact HL1]|].
    change (current (mk_disk L ws)) with L1. unfold checked_add.
    rewrite (proj2 (Z.ltb_lt _ _) (pr_generation _ _ _ _ _ _ Hpr)). rewrite Hnext. fold a.
    fold (compacted i).
    assert (Hlen : (Z.to_nat (1 - a) < length L1)%nat) by (unfold L1; rewrite length_apply_writes; lia).
    eapply safe_try; [apply (safe_write _ lift); [done|done|by apply crashes_in_one]|].
    eapply safe_try; [apply (safe_flush _ lift); [done|by apply crashes_in_one|exact HL2]|].
    rewrite current_written. fold L2. apply safe_ret. by apply crashes_in_reboot.
  - destruct Hs as [Hex Hcr]. split.
    + rewrite exec_bind, Hex. cbn [exec fst snd]. rewrite Hx. split; [done|]. reflexivity.
    + intros l [Hl|Hl]%crash_during_bind; [by apply Hcr|]. rewrite Hex in Hl. destruct Hl as [Hl|[]].
      by apply crash_reboot in Hl as ->.
Qed.
End compaction.

(** ** Restarting from a snapshot *)

(** A restart finds the snapshot: [open] succeeds, [load_checkpoint] returns
    it with its transaction identifier, and no transaction follows it.  A
    power loss during [open] keeps it. *)
Definition restores L (root : Z) p : Prop :=
  exists L' v, exec open (reboot L) = (reboot L', Ok v) ∧
    (forall n, Z.of_nat (length p) <= n ->
       exec (load_checkpoint v n) (reboot L') = (reboot L', Ok (Some (root, p)))) ∧
    recovers L' [] ∧ forall l, crash_during open (reboot L) l -> snapshot_held l root p.

Lemma compact_loads L v root p n :
  compact L v root p -> Z.of_nat (length p) <= n ->
  exec (load_checkpoint v n) (reboot L) = (reboot L, Ok (Some (root, p))).
Proof.
  intros H Hn. pose proof (co_clean _ _ _ _ H) as Hcl. pose proof (cj_superblocks _ _ _ _ Hcl) as Hsb.
  pose proof (superblock_valid_spec _ _ _ (sbs_valid _ _ _ _ Hsb)) as (_ & _ & _ & _ & _ & _ & Hx).
  destruct (Hx (co_start _ _ _ _ H)) as (Hslot & _). pose proof (if_checkpoint_slot _ (sbs_fits _ _ _ _ Hsb)) as [Hs0 _].
  pose proof (slot_bounds _ _ _ _ (sbs_valid _ _ _ _ Hsb) (sbs_version _ _ _ _ Hsb) (sbs_fits _ _ _ _ Hsb)
    (co_start _ _ _ _ H) (conj Hs0 Hslot)) as (Hb & _ & H64).
  pose proof (if_journal_end _ (sbs_fits _ _ _ _ Hsb)) as [He0 _].
  assert (Hh : quiet (load_checkpoint v n) (reboot L) (Some (root, p))); [|apply Hh].
  unfold load_checkpoint. rewrite (ja_clean _ _ _ _ _ (proj1 (cj_journal _ _ _ _ Hcl))).
  rewrite (proj2 (Z.eqb_neq _ _) (co_start _ _ _ _ H)), (co_head _ _ _ _ H), (co_tail _ _ _ _ H), Z.eqb_refl.
  rewrite (co_root _ _ _ _ H), (proj2 (Z.eqb_neq _ _) (so_nonzero _ _ (co_ok _ _ _ _ H))), !Z.eqb_refl. cbn [negb orb].
  eapply quiet_try; [apply (read_header_quiet _ _ _ root p); [lia|apply H|apply (co_at _ _ _ _ H)]|].
  cbv iota beta. rewrite Z.eqb_refl. cbn [negb orb]. destruct (Z.ltb_spec n (Z.of_nat (length p))); [lia|].
  eapply quiet_try; [apply (read_payload_quiet _ _ _ root p); [lia|lia|apply H|apply (co_at _ _ _ _ H)]|].
  apply quiet_ret.
Qed.

Lemma held_restores L root p : snapshot_held L root p -> restores L root p.
Proof.
  intros H. pose proof H as [(i & version & a & Hpr)|(v & Hco)].
  - destruct (open_selects L i version a (pr_superblocks _ _ _ _ _ _ Hpr)) as (a' & Hsb & Ho & Hc).
    set (v := mk_volume i a' version) in *.
    assert (Hpr' : prepared L (info v) (format_version v) (active_superblock v) root p).
    { destruct Hpr. by split. }
    pose proof (complete_wp L v root p Hpr') as [[E1 E2] C]. pose proof (compact_done L v root p Hpr') as Hco.
    eexists _, _. split; [|split; [intros n Hn; apply (compact_loads _ _ root p n Hco Hn)|split]].
    + rewrite Ho. unfold open_tail. cbn [info v]. rewrite (pr_state _ _ _ _ _ _ Hpr).
      change (COMPACTION_PREPARED =? COMPACTION_PREPARED) with true. cbv iota.
      rewrite exec_bind. destruct (exec (complete_compaction v) (reboot L)) as [d1 r1]. cbn [fst snd] in E1, E2.
      rewrite E1, E2. reflexivity.
    + apply layout_recovers. by eapply clean_layout, co_clean.
    + intros l Hl%Hc. unfold open_tail in Hl. cbn [info v] in Hl. rewrite (pr_state _ _ _ _ _ _ Hpr) in Hl.
      change (COMPACTION_PREPARED =? COMPACTION_PREPARED) with true in Hl. cbv iota in Hl.
      apply crash_during_bind in Hl as [Hl|Hl]; [by apply C|]. rewrite E1 in Hl. destruct Hl as [Hl|[]].
      apply crash_reboot in Hl as ->. right. eexists. exact Hco.
  - pose proof (co_clean _ _ _ _ Hco) as Hcl. pose proof (ja_clean _ _ _ _ _ (proj1 (cj_journal _ _ _ _ Hcl))) as Hst.
    destruct (open_selects L _ _ _ (cj_superblocks _ _ _ _ Hcl)) as (a' & Hsb & Ho & Hc).
    set (w := mk_volume (info v) a' (format_version v)) in *.
    assert (Hco' : compact L w root p).
    { destruct Hco. split; try done. destruct Hcl. split; try done. }
    exists L, w. unfold open_tail in Ho, Hc. cbn [info w] in Ho, Hc. rewrite Hst in Ho, Hc. split; [exact Ho|].
    split; [intros n Hn; by apply (compact_loads _ _ root p n Hco')|]. split.
    + apply layout_recovers. by eapply clean_layout, co_clean.
    + intros l Hl%Hc. destruct Hl as [Hl|[]]. by apply crash_reboot in Hl as ->.
Qed.

(** ** Taking a checkpoint *)

(** The scan of a clean journal stops at its head. *)
Definition ready v (free : Z) : Prop :=
  journal_head (info v) < free ∨ journal_head (info v) = journal_end (info v).

Lemma clean_agree L l v txs free :
  clean_journal L v txs free -> ready v free -> length l = length L ->
  (forall k, (k < Z.to_nat (journal_end (info v)))%nat -> l !! k = L !! k) -> clean_journal l v txs free.
Proof.
  intros H Hr Hl Hk. pose proof (cj_superblocks _ _ _ _ H) as Hsb. pose proof (proj1 (cj_journal _ _ _ _ H)) as Hja.
  pose proof (superblock_valid_spec _ _ _ (sbs_valid _ _ _ _ Hsb)) as (_ & Es & He & Ht & Hh & _).
  pose proof (ja_head _ _ _ _ _ Hja) as Hhead. pose proof (cj_free _ _ _ _ H) as Hf.
  assert (Hb : forall k, journal_head (info v) <= k < free -> blank_block l k).
  { intros k Hkr. destruct (cj_blank _ _ _ _ H k Hkr) as (b & Hb & Hz). exists b. split; [|done].
    rewrite Hk; [done|lia]. }
  split; [| |exact Hb|done].
  - apply (superblocks_agree L); [done|apply Hk; lia|apply Hk; lia|done].
  - destruct Hja as [J1 J2 J3 J4 J5 J6]. split; [split; try done|].
    + eapply blocks_at_agree; [|exact J5]. intros k Hkr. apply Hk. rewrite app_nil_r in *. unfold journal_stop in *. lia.
    + rewrite app_nil_r, <- Hhead. exists 0, []. split; [done|]. split; [by split; [constructor|simpl; lia]|].
      split; [by intros k b|]. simpl length. rewrite Z.add_0_r. destruct Hr; [right; apply Hb|left]; lia.
Qed.

Section checkpoint.
Variables (L : list Block) (v : Volume) (txs : list tx) (free : Z) (p : list Z).
Let i : VolumeInfo := info v.
Let version : Z := format_version v.
Let a : Z := active_superblock v.
Let root : Z := root_transaction_id i.
Let slot : Z := 1 - checkpoint_slot i.
Hypothesis Hcj : clean_journal L v txs free.
Hypothesis Hready : ready v free.
Hypothesis Hcs : checkpoint_start i ≠ 0.
Hypothesis Hok : snapshot_ok root p.
Hypothesis Hgen : generation i + 2 < 2 ^ 64.
Let base : Z := checkpoint_start i + slot * 10.

Definition prepared_info : VolumeInfo :=
  mk_info (generation i + 1) (journal_start i) (journal_end i) (journal_head i) (journal_tail i) root
    (checkpoint_start i) slot COMPACTION_PREPARED.

Definition prepared_volume : Volume := mk_volume prepared_info (1 - a) version.

Lemma checkpoint_bounds :
  0 <= slot < 2 ∧ 2 < journal_end i <= base ∧ base + 10 <= Z.of_nat (length L) ∧ base + 1 < 2 ^ 64 ∧ (a = 0 ∨ a = 1).
Proof.
  pose proof (cj_superblocks _ _ _ _ Hcj) as Hsb. fold i version a in Hsb. pose proof (sbs_valid _ _ _ _ Hsb) as Hv.
  pose proof Hv as (_ & Es & He & _ & _ & _ & Hx)%superblock_valid_spec. destruct (Hx Hcs) as (Hs & _).
  pose proof (if_checkpoint_slot _ (sbs_fits _ _ _ _ Hsb)) as [Hs0 _].
  pose proof (slot_bounds i version _ slot Hv (sbs_version _ _ _ _ Hsb) (sbs_fits _ _ _ _ Hsb) Hcs
    ltac:(unfold slot; lia)) as Hb. pose proof (sbs_active _ _ _ _ Hsb). unfold base, slot in *. lia.
Qed.

Lemma prepared_fits : info_fits prepared_info.
Proof.
  pose proof checkpoint_bounds as (Hs & _). pose proof (sbs_fits _ _ _ _ (cj_superblocks _ _ _ _ Hcj)) as Hf.
  fold i in Hf. destruct Hf. split; simpl; try done; unfold fits in *; lia.
Qed.

Lemma prepared_valid : superblock_valid prepared_info version (Z.of_nat (length L)) = true.
Proof.
  pose proof (sbs_valid _ _ _ _ (cj_superblocks _ _ _ _ Hcj)) as Hv. fold i version in Hv.
  pose proof (if_generation _ (sbs_fits _ _ _ _ (cj_superblocks _ _ _ _ Hcj))) as [Hg _]. fold i in Hg.
  pose proof checkpoint_bounds as (Hs & _). unfold superblock_valid in *. unfold prepared_info.
  cbn [generation journal_start journal_end journal_head journal_tail checkpoint_start checkpoint_slot compaction_state].
  destruct (Z.eqb_spec (generation i + 1) 0); [lia|].
  rewrite (proj2 (Z.eqb_neq _ _) Hcs) in *. cbn [negb andb orb] in *. change CHECKPOINT_SLOTS with 2 in *.
  destruct (Z.leb_spec 2 slot); [lia|]. change (COMPACTION_PREPARED <? COMPACTION_PREPARED) with false.
  apply andb_true_iff in Hv as [Hv1 Hv2]. apply andb_true_iff. split; [exact Hv1|].
  apply negb_true_iff. apply negb_true_iff in Hv2. rewrite !orb_false_iff in Hv2 |- *. destruct_and! Hv2.
  repeat match goal with H : _ || _ = false |- _ => apply orb_false_iff in H as [? ?] end. by split_and!.
Qed.

Let P (l : list Block) : Prop := layout l txs ∨ snapshot_held l root p.

(** The snapshot is written outside the journal. *)
Lemma checkpoint_wp : exists L' v', compact L' v' root p ∧
  (forall k, Z.min (journal_start i + 9) (journal_end i) <= Z.of_nat k < journal_end i -> L' !! k = L !! k) ∧
  journal_start (info v') = journal_start i ∧ journal_end (info v') = journal_end i ∧
  generation (info v') = generation i + 2 ∧ format_version v' = version ∧
  wp P (checkpoint v p) (reboot L) (fun d r => d = reboot L' ∧ r = (v', Ok tt)).
Proof.
  pose proof checkpoint_bounds as (Hs & He & Hn & H64 & Ha). pose proof (next_superblock_flip v Ha) as [Hnext Hx].
  pose proof (write_checkpoint_exec L (checkpoint_start i) slot root p ltac:(lia) ltac:(lia) ltac:(lia) (so_length _ _ Hok)) as Hex.
  fold base in Hex. set (ws := run_writes _ _ ++ _) in Hex.
  assert (Hws : forall k b, (k, b) ∈ ws -> base <= Z.of_nat k < base + 10).
  { intros k b. apply (checkpoint_writes L); [lia|apply Hok]. }
  assert (Hw : crashes_in P (mk_disk L ws)).
  { intros l Hc. left. pose proof Hc as [Hl _]. eapply clean_layout, (clean_agree L); [done|done|done|].
    intros k Hk. apply (crash_untouched (mk_disk L ws) l k Hc). intros b Hb%Hws. fold i in Hk. lia. }
  set (L1 := apply_writes L ws). assert (HP1 : P L1) by (apply Hw, crash_keeps).
  assert (Hl1 : length L1 = length L) by apply length_apply_writes.
  assert (Hag : forall k, (k < Z.to_nat base)%nat -> L1 !! k = L !! k).
  { intros k Hk. apply apply_writes_other. intros b Hb%Hws. lia. }
  set (L2 := <[Z.to_nat (1 - a) := encode_superblock prepared_info version]> L1).
  assert (Hpr : prepared L2 (info prepared_volume) (format_version prepared_volume) (active_superblock prepared_volume) root p).
  { split; [|done|done|done|simpl; lia|].
    - cbn [info format_version active_superblock prepared_volume].
      apply (superblocks_publish L1 i); [|apply prepared_fits|reflexivity|rewrite Hl1; apply prepared_valid].
      apply (superblocks_agree L); [done|apply Hag; lia|apply Hag; lia|apply Hcj].
    - change (snapshot_base (info prepared_volume)) with base. eapply (checkpoint_at_agree L1); [lia| |].
      + intros k Hk. apply list_lookup_insert_ne. lia.
      + apply checkpoint_written; [lia|lia|apply Hok]. }
  assert (HP2 : P L2) by (right; left; by exists prepared_info, version, (1 - a)).
  pose proof (complete_wp L2 prepared_volume root p Hpr) as [[E1 E2] C].
  pose proof (compact_done L2 prepared_volume root p Hpr) as Hdone.
  eexists _, _. split; [exact Hdone|]. split; [|split; [done|split; [done|split; [simpl; lia|split; [done|]]]]].
  { intros k Hk. pose proof (compaction_bounds L2 prepared_volume root p Hpr) as (_ & Hce & _). simpl in Hce.
    rewrite (L2_above L2 prepared_volume root p Hpr) by lia.
    rewrite (L1_cleared L2 prepared_volume root p Hpr), decide_False by (simpl; lia).
    unfold L2. rewrite list_lookup_insert_ne by lia. apply Hag. lia. }
  unfold checkpoint. fold i version. rewrite (proj2 (Z.eqb_neq _ _) Hcs). cbn [orb].
  destruct (Z.ltb_spec CHECKPOINT_PAYLOAD_BYTES (Z.of_nat (length p))) as [Hlt|_]; [pose proof (so_length _ _ Hok); lia|].
  assert (negb (compaction_state i =? COMPACTION_CLEAN) || (root_transaction_id i =? 0) = false) as ->.
  { unfold i. rewrite (ja_clean _ _ _ _ _ (proj1 (cj_journal _ _ _ _ Hcj))). fold i root.
    by rewrite (proj2 (Z.eqb_neq _ _) (so_nonzero _ _ Hok)). }
  assert (saturating_sub 1 (checkpoint_slot i) = slot) as -> by (unfold saturating_sub, slot in *; lia).
  fold root.
  match goal with |- wp _ (io_bind ?q _) _ _ => assert (Hsafe : safe P q (reboot L) (reboot L2) prepared_info) end.
  { eapply safe_try; [apply safe_noflush; [apply noflush_write_checkpoint; lia|exact Hex|exact Hw]|].
    eapply safe_try; [apply (safe_flush _ lift); [done|exact Hw|exact HP1]|].
    change (current (mk_disk L ws)) with L1. unfold checked_add.
    rewrite (proj2 (Z.ltb_lt (generation i + 1) (2 ^ 64)) ltac:(lia)), Hnext.
    eapply safe_try; [apply (safe_write _ lift); [done|cbn [durable reboot]; lia|by apply crashes_in_one]|].
    eapply safe_try; [apply (safe_flush _ lift); [done|by apply crashes_in_one|exact HP2]|].
    rewrite current_written. apply safe_ret. by apply crashes_in_reboot. }
  destruct Hsafe as [Hexec Hcr]. split.
  - rewrite exec_bind, Hexec, Hx. change (mk_volume prepared_info (1 - active_superblock v) version) with prepared_volume.
    destruct (exec (complete_compaction prepared_volume) (reboot L2)) as [d1 r1]. done.
  - intros l [Hl|Hl]%crash_during_bind; [by apply Hcr|]. rewrite Hexec in Hl. cbn [fst snd] in Hl. rewrite Hx in Hl.
    right. by apply C.
Qed.
End checkpoint.

(** C3: Taking a checkpoint of a clean journal succeeds and empties it; a
    restart then loads exactly the snapshot and replays nothing.  Power lost
    at any moment leaves a device on which a restart either replays the whole
    journal or completes the checkpoint and loads the snapshot; a power loss
    during that completion keeps the snapshot. *)
Theorem journal_checkpoint_atomic L v txs free p :
  clean_journal L v txs free -> ready v free -> checkpoint_start (info v) ≠ 0 ->
  snapshot_ok (root_transaction_id (info v)) p -> generation (info v) + 2 < 2 ^ 64 ->
  let root := root_transaction_id (info v) in
  (exists L' v', exec (checkpoint v p) (reboot L) = (reboot L', (v', Ok tt)) ∧
    clean_journal L' v' [] (Z.min (journal_start (info v') + 9) (journal_end (info v'))) ∧ restores L' root p) ∧
  forall l, crash_during (checkpoint v p) (reboot L) l -> recovers l txs ∨ restores l root p.
Proof.
  intros Hcj Hr Hcs Hok Hg root.
  destruct (checkpoint_wp L v txs free p Hcj Hr Hcs Hok Hg) as (L' & v' & Hco & _ & _ & _ & _ & _ & [E1 E2] & Hc). split.
  - exists L', v'. split; [|split; [apply Hco|apply held_restores; right; by exists v']].
    rewrite <- E1, <- E2. by destruct (exec (checkpoint v p) (reboot L)).
  - intros l [Hl|Hl]%Hc; [left; by apply layout_recovers|right; by apply held_restores].
Qed.

Lemma journal_checkpoint_atomic_witness :
  exists L v L' v', clean_journal L v [(1, [note])] 20 ∧
    exec (checkpoint v [1; 2; 3]) (reboot L) = (reboot L', (v', Ok tt)) ∧ restores L' 1 [1; 2; 3].
Proof.
  destruct (example_journal 40 [[note]]) as (L & a & H);
    [lia|apply Forall_cons_2; [apply (note_ok 1); lia|done]|by vm_compute|].
  exists L, (mk_volume (committed_info (format_info 40 FORMAT_VERSION) [[note]]) a FORMAT_VERSION).
  destruct (journal_checkpoint_atomic L _ _ _ [1; 2; 3] H) as [(L' & v' & E & _ & R) _].
  - by left.
  - done.
  - split; [by vm_compute|done|by repeat constructor|by vm_compute].
  - done.
  - by exists L', v'.
Defined.
