(* ===== verification/JournalFaults.v ===== *)
(** * Executions in which the journalled volume loses data

    [recover] reads up to nine blocks past the published head and rejects the
    volume when it meets a record that is not newer than what it replayed
    ([stale_recover]).  Two ordinary runs leave such a record at the head: a
    checkpoint clears only the first nine blocks of the journal, and the next
    commit does not clear what an interrupted one left behind.  A third run
    hides the snapshot of a checkpoint. *)

From Stdlib Require Import ZArith Lia.
From stdpp Require Import base list option numbers.
From S2P Require Import Prelude Bytes BlockStore DiskLogic Journal JournalCodec JournalVolume.
From S2P Require Import JournalCommit JournalCheckpoint.

#[local] Open Scope Z_scope.
#[local] Open Scope io_scope.
#[local] Opaque encode_superblock record_block block_zero decode_superblock decode_record_version
  checkpoint_header decode_checkpoint_header crc32c.

Implicit Types (L l : list Block) (d : disk) (i : VolumeInfo) (v : Volume).

(** ** Stale records *)

(** Block [k] holds a record with an identifier of at most [id]. *)
Definition stale_block L (version k id : Z) : Prop :=
  exists b r, L !! Z.to_nat k = Some b ∧ decode_record_version b version = Ok (Some r) ∧ dr_transaction_id r <= id.

Lemma data_blocks_decode version id rs j k b :
  known_version version -> fits 64 id -> Forall record_ok rs -> Z.of_nat j + Z.of_nat (length rs) < 2 ^ 32 ->
  data_blocks version id j rs !! k = Some b ->
  exists r, decode_record_version b version = Ok (Some r) ∧ dr_transaction_id r = id.
Proof.
  intros Hv Hid Hok Hj E. unfold data_blocks in E. rewrite list_lookup_imap in E.
  destruct (rs !! k) as [r|] eqn:Er; [|done]. cbn in E. injection E as <-.
  pose proof (lookup_lt_Some _ _ _ Er) as Hk. eexists. split.
  - apply decode_encode_record; [apply (Forall_lookup_1 _ _ _ _ Hok Er)|done|unfold fits; lia|done].
  - reflexivity.
Qed.

Lemma tx_blocks_decode version id rs k b :
  known_version version -> fits 64 id -> records_ok rs -> tx_blocks version (id, rs) !! k = Some b ->
  exists r, decode_record_version b version = Ok (Some r) ∧ dr_transaction_id r = id.
Proof.
  intros Hv Hid [Hok Hl] [E|[_ E]]%lookup_app_Some.
  - eapply data_blocks_decode; [done|done|exact Hok| |exact E]. simpl. lia.
  - cbn [fst snd] in E. destruct (k - _)%nat; [|done]. simpl in E. injection E as <-. eexists. split.
    + apply (decode_encode_record id (Z.of_nat (length rs)) version (mk_record JOURNAL_COMMIT_KIND []));
        [by split|done|unfold fits; lia|done].
    + reflexivity.
Qed.

Lemma journal_blocks_decode version txs : forall base k b,
  known_version version -> 0 <= base -> ids_from base txs -> journal_blocks version txs !! k = Some b ->
  exists r, decode_record_version b version = Ok (Some r) ∧ dr_transaction_id r <= last_id base txs.
Proof.
  induction txs as [|[id rs] txs IH]; intros base k b Hv Hb Hids E; [done|].
  destruct Hids as (Hid & Hok & Hids). unfold journal_blocks in E. cbn [mbind list_bind] in E.
  apply lookup_app_Some in E as [E|[_ E]].
  - destruct (tx_blocks_decode version id rs k b Hv) as (r & Hd & Hr); [|done|done|].
    + change MAX_TRANSACTION_ID with (2 ^ 64 - 1) in Hid. unfold fits. lia.
    + exists r. split; [done|]. simpl. pose proof (last_id_ge _ _ Hids). lia.
  - eapply (IH id); [done|lia|done|exact E].
Qed.

Section stale.
Context {S : Type} `{ReplaySink S}.
Variables (L : list Block) (v : Volume) (txs : list tx) (s s' : S).
Let i : VolumeInfo := info v.
Let version : Z := format_version v.
Hypothesis Hsb : superblocks L i version (active_superblock v).
Hypothesis Hheld : journal_held L i version txs [].
Hypothesis Hstale : stale_block L version (journal_head i) (root_transaction_id i).
Hypothesis Hend : journal_head i < journal_end i.
Hypothesis Hrep : replay_txs txs s = Some s'.

(** All transactions are replayed and then the volume is rejected. *)
Lemma stale_recover : exec (recover v s) (reboot L) = (reboot L, (v, s', Err Corrupt)).
Proof.
  pose proof (pub_bounds L i version _ txs [] Hsb Hheld) as (Hb & Ht & Hs & _ & Hl).
  pose proof (ja_head _ _ _ _ _ Hheld) as Hh. pose proof (ja_root _ _ _ _ _ Hheld) as Hroot.
  destruct Hheld as [_ Hids _ _ Hat _]. rewrite app_nil_r in *.
  pose proof (recovery_end_eq i (sbs_fits _ _ _ _ Hsb)) as Hre.
  destruct Hstale as (b & r & Hblk & Hdec & Hid).
  unfold recover. rewrite exec_bind. fold i version.
  rewrite (scan_txs (reboot L) i version (sbs_version _ _ _ _ Hsb) txs _ _ _ s');
    [|lia|unfold journal_stop in *; lia|exact Hb|exact Hids|reflexivity|reflexivity|exact Hat|exact Hrep].
  unfold journal_stop in Hh. rewrite <- Hh, range_cons by lia.
  set (st := mk_scan _ _ _ _ _ _ _ _).
  assert (Hrec : scan_record (journal_head i) r st = (st, Some Corrupt)).
  { unfold scan_record. destruct (_ || _); [done|]. unfold st. cbn [last_transaction].
    unfold scan_start. cbn [last_transaction]. fold (base_id i). rewrite <- Hroot.
    by destruct (Z.leb_spec (dr_transaction_id r) (root_transaction_id i)); [|lia]. }
  cbn [scan_journal]. rewrite (exec_bind_load (reboot L) _ _ _ Hblk), Hdec, Hrec. reflexivity.
Qed.
End stale.

(** A restart of [L] replays [txs] and then fails with [Corrupt]. *)
Definition unrecoverable L (txs : list tx) : Prop :=
  exists v, exec open (reboot L) = (reboot L, Ok v) ∧
    forall (S : Type) (HS : ReplaySink S) (s s' : S), replay_txs txs s = Some s' ->
      exec (recover v s) (reboot L) = (reboot L, (v, s', Err Corrupt)).

Lemma stale_unrecoverable L i version a txs :
  superblocks L i version a -> journal_held L i version txs [] ->
  stale_block L version (journal_head i) (root_transaction_id i) -> journal_head i < journal_end i ->
  unrecoverable L txs.
Proof.
  intros Hsb Hheld Hst Hend.
  destruct (open_finds L i version a Hsb (ja_clean _ _ _ _ _ Hheld)) as (a' & Ho & Hsb').
  exists (mk_volume i a' version). split; [done|]. intros S HS s s' Hrep. by apply (stale_recover L _ txs).
Qed.

(** A commit that ends right before a stale record. *)
Lemma commit_before_stale L v txs rs free :
  clean_journal L v txs free -> records_ok rs ->
  journal_head (info v) + Z.of_nat (length rs) + 1 = free -> free < journal_end (info v) ->
  root_transaction_id (info v) + 1 < MAX_TRANSACTION_ID -> generation (info v) + 1 < 2 ^ 64 ->
  stale_block L (format_version v) free (root_transaction_id (info v) + 1) ->
  exists L', exec (commit v rs) (reboot L) =
      (reboot L', Ok (committed_volume v rs, root_transaction_id (info v) + 1)) ∧
    unrecoverable L' (txs ++ [(root_transaction_id (info v) + 1, rs)]).
Proof.
  intros Hcj Hrs Hfree Hend Hid Hg (b & r & Hb & Hdec & Hr).
  assert (Hroom : journal_head (info v) + Z.of_nat (length rs) + 1 <= free) by lia.
  eexists. split; [by apply (commit_exec L v txs rs free)|].
  eapply stale_unrecoverable; [by apply (L2_superblocks L v txs rs free)|by apply (L2_held L v txs rs free)| |cbn; lia].
  exists b, r. split; [|split; [done|exact Hr]].
  pose proof (commit_bounds L v txs rs free Hcj Hrs Hroom Hid) as (_ & Ht & _). cbn in Ht |- *.
  rewrite (L2_high L v txs rs free) by (done || lia). rewrite (L1_above L v txs rs free) by (done || lia).
  by rewrite Hfree.
Qed.

(** ** After a checkpoint *)

Section after_checkpoint.
Variables (L : list Block) (v : Volume) (txs : list tx) (free : Z) (p : list Z).
Let root : Z := root_transaction_id (info v).
Hypothesis Hcj : clean_journal L v txs free.
Hypothesis Hready : ready v free.
Hypothesis Hcs : checkpoint_start (info v) ≠ 0.
Hypothesis Hok : snapshot_ok root p.
Hypothesis Hgen : generation (info v) + 3 < 2 ^ 64.
Hypothesis Hid : root + 1 < MAX_TRANSACTION_ID.

Lemma checkpoint_run : exists L1 v1,
  exec (checkpoint v p) (reboot L) = (reboot L1, (v1, Ok tt)) ∧ compact L1 v1 root p ∧
  (forall k, Z.min 11 (journal_end (info v)) <= Z.of_nat k < journal_end (info v) -> L1 !! k = L !! k) ∧
  journal_start (info v1) = 2 ∧ journal_head (info v1) = 2 ∧ journal_end (info v1) = journal_end (info v) ∧
  generation (info v1) + 1 < 2 ^ 64 ∧ format_version v1 = format_version v ∧ root_transaction_id (info v1) = root.
Proof.
  destruct (checkpoint_wp L v txs free p Hcj Hready Hcs Hok ltac:(lia))
    as (L1 & v1 & Hco & Hk & Hs & He & Hg & Hf & [E1 E2] & _).
  pose proof (superblock_valid_spec _ _ _ (sbs_valid _ _ _ _ (cj_superblocks _ _ _ _ Hcj))) as (_ & Es & _).
  rewrite Es in Hk, Hs. exists L1, v1. split; [rewrite <- E1, <- E2; by destruct (exec (checkpoint v p) (reboot L))|].
  split; [done|]. split; [exact Hk|]. rewrite (co_head _ _ _ _ Hco), (co_root _ _ _ _ Hco). repeat split; try done. lia.
Qed.
End after_checkpoint.

(** C24: A checkpoint clears only the first nine journal blocks.  When the
    journal held more than nine blocks, a checkpoint followed by one commit of
    eight records - both successful, with no power loss - leaves a volume that
    can never be recovered: every restart replays the commit and then fails
    with [Corrupt] at a record from before the checkpoint. *)
Theorem journal_checkpoint_unrecoverable L v txs free p rs :
  clean_journal L v txs free -> ready v free -> checkpoint_start (info v) ≠ 0 ->
  snapshot_ok (root_transaction_id (info v)) p -> generation (info v) + 3 < 2 ^ 64 ->
  root_transaction_id (info v) + 1 < MAX_TRANSACTION_ID -> journal_tail (info v) = 2 ->
  (9 < length (journal_blocks (format_version v) txs))%nat -> records_ok rs -> length rs = 8%nat ->
  let id := root_transaction_id (info v) + 1 in
  exists L1 v1 L2 v2,
    exec (checkpoint v p) (reboot L) = (reboot L1, (v1, Ok tt)) ∧
    exec (commit v1 rs) (reboot L1) = (reboot L2, Ok (v2, id)) ∧ unrecoverable L2 [(id, rs)].
Proof.
  intros Hcj Hr Hcs Hok Hg Hid Htail Hlong Hrs H8 id.
  destruct (checkpoint_run L v txs free p Hcj Hr Hcs Hok Hg) as (L1 & v1 & E & Hco & Hk & Hs & Hh & He & Hg1 & Hf & Hroot).
  pose proof (cj_superblocks _ _ _ _ Hcj) as Hsb. pose proof (proj1 (cj_journal _ _ _ _ Hcj)) as Hja.
  pose proof (ja_blocks _ _ _ _ _ Hja) as Hat. pose proof (ja_head _ _ _ _ _ Hja) as Hhead.
  pose proof (ja_ids _ _ _ _ _ Hja) as Hids. rewrite app_nil_r in Hat, Hids.
  pose proof (superblock_valid_spec _ _ _ (sbs_valid _ _ _ _ Hsb)) as (_ & _ & _ & _ & Hhe & _).
  destruct (lookup_lt_is_Some_2 _ _ Hlong) as [b Hb]. unfold journal_stop in Hhead. rewrite Htail in Hhead, Hat.
  destruct (journal_blocks_decode _ _ _ _ b (sbs_version _ _ _ _ Hsb) (base_id_nonneg _ (sbs_fits _ _ _ _ Hsb)) Hids Hb)
    as (r & Hdec & Hrid). rewrite <- (ja_root _ _ _ _ _ Hja) in Hrid.
  pose proof (co_clean _ _ _ _ Hco) as Hcl. rewrite Hs, He in Hcl. change (2 + 9) with 11 in Hcl.
  rewrite Z.min_l in Hcl by lia.
  destruct (commit_before_stale L1 v1 [] rs 11 Hcl Hrs) as (L2 & E2 & Hun); [lia|lia|by rewrite Hroot|done| |].
  - exists b, r. rewrite Hf, Hroot. split; [|split; [done|lia]].
    etrans; [apply Hk; lia|]. exact (Hat 9%nat b Hb).
  - rewrite Hroot in E2, Hun. exists L1, v1, L2, (committed_volume v1 rs). done.
Qed.

(** C25: A commit after a checkpoint hides the snapshot.  A checkpoint followed
    by one commit of fewer than eight records leaves a volume on which a
    restart replays that commit alone, while [load_checkpoint] reports that
    there is no checkpoint: the transactions the snapshot stands for are in
    neither. *)
Theorem journal_checkpoint_hidden L v txs free p rs :
  clean_journal L v txs free -> ready v free -> checkpoint_start (info v) ≠ 0 ->
  snapshot_ok (root_transaction_id (info v)) p -> generation (info v) + 3 < 2 ^ 64 ->
  root_transaction_id (info v) + 1 < MAX_TRANSACTION_ID -> records_ok rs ->
  (length rs + 3 < Z.to_nat (Z.min 11 (journal_end (info v))))%nat ->
  let id := root_transaction_id (info v) + 1 in
  exists L1 v1 L2 v2,
    exec (checkpoint v p) (reboot L) = (reboot L1, (v1, Ok tt)) ∧
    exec (commit v1 rs) (reboot L1) = (reboot L2, Ok (v2, id)) ∧ recovers L2 [(id, rs)] ∧
    exists v3, exec open (reboot L2) = (reboot L2, Ok v3) ∧
      forall n, exec (load_checkpoint v3 n) (reboot L2) = (reboot L2, Ok None).
Proof.
  intros Hcj Hr Hcs Hok Hg Hid Hrs Hroom id.
  destruct (checkpoint_run L v txs free p Hcj Hr Hcs Hok Hg) as (L1 & v1 & E & Hco & _ & Hs & Hh & He & Hg1 & Hf & Hroot).
  pose proof (co_clean _ _ _ _ Hco) as Hcl. rewrite Hs, He in Hcl. change (2 + 9) with 11 in Hcl.
  set (fr := Z.min 11 (journal_end (info v))) in *.
  assert (Hid1 : root_transaction_id (info v1) + 1 < MAX_TRANSACTION_ID) by (by rewrite Hroot).
  assert (Hr1 : journal_head (info v1) + Z.of_nat (length rs) + 1 <= fr) by lia.
  assert (Hn1 : journal_head (info v1) + Z.of_nat (length rs) + 1 < fr ∨
    journal_end (info v1) = journal_head (info v1) + Z.of_nat (length rs) + 1) by lia.
  pose proof (commit_exec L1 v1 [] rs fr Hcl Hrs Hr1 Hid1 Hg1) as E2.
  pose proof (commit_clean L1 v1 [] rs fr Hcl Hrs Hr1 Hid1 Hg1 Hn1) as Hcl2. rewrite Hroot in E2, Hcl2.
  eexists L1, v1, _, (committed_volume v1 rs). split; [done|]. split; [exact E2|].
  split; [apply layout_recovers; by eapply clean_layout|].
  destruct (open_finds _ _ _ _ (cj_superblocks _ _ _ _ Hcl2)) as (a' & Ho & _); [apply (cj_journal _ _ _ _ Hcl2)|].
  eexists. split; [exact Ho|]. intros n. unfold load_checkpoint. cbn [info committed_volume advance journal_head journal_start].
  destruct (Z.eqb_spec (journal_head (info v1) + Z.of_nat (length rs) + 1) (journal_start (info v1))); [lia|].
  cbn [negb]. by rewrite !orb_true_r.
Qed.

Lemma journal_checkpoint_unrecoverable_witness :
  exists L v L1 v1 L2 v2, clean_journal L v [(1, replicate 8 note); (2, [])] 20 ∧
    exec (checkpoint v [1; 2; 3]) (reboot L) = (reboot L1, (v1, Ok tt)) ∧
    exec (commit v1 (replicate 8 note)) (reboot L1) = (reboot L2, Ok (v2, 3)) ∧
    unrecoverable L2 [(3, replicate 8 note)].
Proof.
  destruct (example_journal 40 [replicate 8 note; []]) as (L & a & H);
    [lia|repeat apply Forall_cons_2; [apply (note_ok 8); lia|apply (note_ok 0); lia|done]|by vm_compute|].
  exists L, (mk_volume (committed_info (format_info 40 FORMAT_VERSION) [replicate 8 note; []]) a FORMAT_VERSION).
  destruct (journal_checkpoint_unrecoverable L _ _ _ [1; 2; 3] (replicate 8 note) H)
    as (L1 & v1 & L2 & v2 & R); try done.
  - by left.
  - split; [by vm_compute|done|by repeat constructor|by vm_compute].
  - unfold journal_blocks. cbn [numbered mbind list_bind]. rewrite !length_app, !length_tx_blocks. simpl. lia.
  - apply (note_ok 8). lia.
  - by exists L1, v1, L2, v2.
Defined.

Lemma journal_checkpoint_hidden_witness :
  exists L v L1 v1 L2 v2, clean_journal L v [(1, [note])] 20 ∧
    exec (checkpoint v [1; 2; 3]) (reboot L) = (reboot L1, (v1, Ok tt)) ∧
    exec (commit v1 [note]) (reboot L1) = (reboot L2, Ok (v2, 2)) ∧ recovers L2 [(2, [note])] ∧
    exists v3, exec open (reboot L2) = (reboot L2, Ok v3) ∧
      forall n, exec (load_checkpoint v3 n) (reboot L2) = (reboot L2, Ok None).
Proof.
  destruct (example_journal 40 [[note]]) as (L & a & H);
    [lia|apply Forall_cons_2; [apply (note_ok 1); lia|done]|by vm_compute|].
  exists L, (mk_volume (committed_info (format_info 40 FORMAT_VERSION) [[note]]) a FORMAT_VERSION).
  destruct (journal_checkpoint_hidden L _ _ _ [1; 2; 3] [note] H)
    as (L1 & v1 & L2 & v2 & R); try done.
  - by left.
  - split; [by vm_compute|done|by repeat constructor|by vm_compute].
  - apply (note_ok 1). lia.
  - apply Nat.ltb_lt. by vm_compute.
  - by exists L1, v1, L2, v2.
Defined.

(** ** After an interrupted commit *)

Section interrupted.
Variables (L : list Block) (v : Volume) (txs : list tx) (rs : list JournalRecord) (free : Z).
Let i : VolumeInfo := info v.
Let id : Z := root_transaction_id i + 1.
Let k : Z := journal_head i + Z.of_nat (length rs).
Hypothesis Hcj : clean_journal L v txs free.
Hypothesis Hready : ready v free.
Hypothesis Hrs : records_ok rs.
Hypothesis Hne : rs ≠ [].
Hypothesis Hroom : journal_head i + Z.of_nat (length rs) + 1 <= free.
Hypothesis Hid : id < MAX_TRANSACTION_ID.
Hypothesis Hgen : generation i + 1 < 2 ^ 64.

(** Of the blocks of the commit only the marker reached the device. *)
Definition marker_only : list Block := <[Z.to_nat k := marker_block (format_version v) id rs]> L.

Lemma marker_only_crash : crash_during (commit v rs) (reboot L) marker_only.
Proof.
  pose proof (commit_bounds L v txs rs free Hcj Hrs Hroom Hid) as (_ & Ht & _).
  apply (commit_window_crash L v txs rs free); try done. split; [apply length_insert|].
  intros j b E. unfold marker_only in E. apply list_lookup_insert_Some in E as [(<- & <- & _)|[_ E]]; [right|by left].
  cbn [BlockStore.pending]. apply elem_of_run_writes. unfold k. fold i in Ht |- *. split; [lia|].
  unfold tx_blocks. cbn [fst snd]. rewrite lookup_app_r by (rewrite length_data_blocks; lia).
  rewrite length_data_blocks.
  by replace (Z.to_nat (journal_head i + Z.of_nat (length rs)) - Z.to_nat (journal_head i) - length rs)%nat with 0%nat by lia.
Qed.

Lemma marker_only_clean : clean_journal marker_only v txs k.
Proof.
  pose proof (commit_bounds L v txs rs free Hcj Hrs Hroom Hid) as (_ & Ht & Hstop & Hf & Hfe & Hn & _).
  fold i in Ht, Hstop, Hf, Hfe, Hn. assert (0 < length rs)%nat as Hlen by (destruct rs; [done|simpl; lia]).
  assert (Hlow : forall j, (j < Z.to_nat k)%nat -> marker_only !! j = L !! j).
  { intros j Hj. apply list_lookup_insert_ne. lia. }
  assert (Hb : forall j, journal_head i <= j < k -> blank_block marker_only j).
  { intros j Hj. destruct (cj_blank _ _ _ _ Hcj j) as (b & E & Hz); [fold i; unfold k in *; lia|].
    exists b. split; [|done]. rewrite Hlow; [done|lia]. }
  split; fold i.
  - apply (superblocks_agree L); [apply length_insert|apply Hlow; unfold k; lia|apply Hlow; unfold k; lia|apply Hcj].
  - destruct (cj_journal _ _ _ _ Hcj) as [[J1 J2 J3 J4 J5 J6] _]. fold i in J1, J2, J3, J4, J5, J6. split; [split; try done|].
    + eapply blocks_at_agree; [|exact J5]. intros j Hj. apply Hlow. rewrite app_nil_r in *. unfold journal_stop, k in *. lia.
    + rewrite app_nil_r, <- Hstop. exists 0, []. split; [done|]. split; [by split; [constructor|simpl; lia]|].
      split; [by intros j b|]. right. simpl length. rewrite Z.add_0_r. apply Hb. unfold k. lia.
  - exact Hb.
  - unfold k. lia.
Qed.

Lemma marker_only_stale : stale_block marker_only (format_version v) k id.
Proof.
  pose proof (commit_bounds L v txs rs free Hcj Hrs Hroom Hid) as (Hid0 & Ht & Hstop & Hf & Hfe & Hn & _).
  fold i in Ht, Hf, Hfe, Hn, Hid0. fold id in Hid0.
  exists (marker_block (format_version v) id rs), (mk_decoded id (Z.of_nat (length rs)) JOURNAL_COMMIT_KIND []).
  split; [apply list_lookup_insert_eq; unfold k; lia|]. split; [|apply Z.le_refl].
  unfold marker_block.
  apply (decode_encode_record id (Z.of_nat (length rs)) (format_version v) (mk_record JOURNAL_COMMIT_KIND [])).
  - by split.
  - change MAX_TRANSACTION_ID with (2 ^ 64 - 1) in Hid. unfold fits. lia.
  - destruct Hrs. unfold fits. lia.
  - apply (cj_superblocks _ _ _ _ Hcj).
Qed.
End interrupted.

(** C26: The leftovers of an interrupted commit make a later one unreadable.
    When power is lost during a commit and only its marker block reached the
    device, a restart recovers the old transactions; but a following commit of
    one record less succeeds and reuses the identifier, its last block ends
    right before the old marker, and from then on every restart replays it and
    then fails with [Corrupt]. *)
Theorem journal_interrupted_unrecoverable L v txs free rs rs' :
  clean_journal L v txs free -> ready v free -> records_ok rs -> records_ok rs' ->
  length rs = S (length rs') -> journal_head (info v) + Z.of_nat (length rs) + 1 <= free ->
  root_transaction_id (info v) + 1 < MAX_TRANSACTION_ID -> generation (info v) + 1 < 2 ^ 64 ->
  let id := root_transaction_id (info v) + 1 in
  exists l w, crash_during (commit v rs) (reboot L) l ∧ exec open (reboot l) = (reboot l, Ok w) ∧
    (forall (S : Type) (HS : ReplaySink S) (s s' : S), replay_txs txs s = Some s' ->
       exec (recover w s) (reboot l) =
       (reboot l, (w, s', Ok (mk_summary (Z.of_nat (length txs)) (record_count txs))))) ∧
    exists L' v', exec (commit w rs') (reboot l) = (reboot L', Ok (v', id)) ∧
      unrecoverable L' (txs ++ [(id, rs')]).
Proof.
  intros Hcj Hr Hrs Hrs' Hlen Hroom Hid Hg id. assert (Hne : rs ≠ []) by (by intros ->).
  set (l := marker_only L v rs). pose proof (marker_only_clean L v txs rs free Hcj Hrs Hne Hroom Hid) as Hclean.
  fold l in Hclean. destruct (open_finds l (info v) (format_version v) (active_superblock v)) as (a' & Ho & Hsb);
    [apply Hclean|apply (cj_journal _ _ _ _ Hcj)|].
  set (w := mk_volume (info v) a' (format_version v)) in *.
  assert (Hw : clean_journal l w txs (journal_head (info v) + Z.of_nat (length rs)))
    by (destruct Hclean; by split).
  exists l, w. split; [by apply (marker_only_crash L v txs rs free)|]. split; [done|]. split.
  - intros S HS s s' Hrep. pose proof (cj_journal _ _ _ _ Hw) as Hja.
    destruct (recover_wp l w txs [] s s' Hsb Hja) with (P := fun _ : list Block => True) as [[E1 E2] _];
      [by rewrite app_nil_r|by left|done|done|]. rewrite app_nil_r in E2. cbn in E1, E2. rewrite <- E1 at 2. rewrite <- E2.
    by destruct (exec (recover w s) (reboot l)).
  - pose proof (cj_free _ _ _ _ Hcj) as Hf.
    destruct (commit_before_stale l w txs rs' _ Hw Hrs') as (L' & E & Hun); [cbn; lia|cbn; lia|done|done| |].
    + apply (marker_only_stale L v txs rs free); try done.
    + by exists L', (committed_volume w rs').
Qed.

Lemma journal_interrupted_unrecoverable_witness :
  exists L v, clean_journal L v [(1, [note])] 12 ∧
    exists l w, crash_during (commit v [note; note]) (reboot L) l ∧ exec open (reboot l) = (reboot l, Ok w) ∧
      exists L' v', exec (commit w [note]) (reboot l) = (reboot L', Ok (v', 2)) ∧
        unrecoverable L' [(1, [note]); (2, [note])].
Proof.
  destruct (example_journal 12 [[note]]) as (L & a & H);
    [lia|apply Forall_cons_2; [apply (note_ok 1); lia|done]|by vm_compute|].
  exists L, (mk_volume (committed_info (format_info 12 FORMAT_VERSION) [[note]]) a FORMAT_VERSION).
  split; [exact H|].
  destruct (journal_interrupted_unrecoverable L _ _ _ [note; note] [note] H) as (l & w & C & O & _ & R);
    [by left|apply (note_ok 2); lia|apply (note_ok 1); lia|done|by vm_compute|done|done|].
  by exists l, w.
Defined.
