(* ===== verification/MemoryMap.v ===== *)
(** * Normalisation of the firmware memory map

    [src/src/memory.rs], from [PhysicalRun] to [subtract], with the
    [MemoryMap] of [src/src/boot_resources.rs] it reads.  The firmware hands
    over descriptors in any order, overlapping at will; [normalize_memory_map]
    turns them into the runs of pages the frame allocator may use.  The theorem
    of this file says which runs: sorted, separated, and covering exactly the
    addresses that an available descriptor covers and nothing excludes does.

    A fixed array [[Option<T>; N]] with a count is the list of its first
    [count] entries, all of which are [Some]; a push past [N] is [Capacity]. *)

From Stdlib Require Import ZArith Lia Sorted Permutation.
From stdpp Require Import base list option numbers sorting.
From S2P Require Import Prelude.

#[local] Open Scope Z_scope.
#[local] Open Scope logos_scope.

Definition PAGE_SIZE : Z := 4096.
Definition MAX_MEMORY_DESCRIPTORS : nat := 256.
Definition MAX_MEMORY_RUNS : nat := MAX_MEMORY_DESCRIPTORS.

Definition checked_mul (w a b : Z) : option Z := if a * b <? 2 ^ w then Some (a * b) else None.
#[global] Arguments checked_mul : simpl never.

(** ** Descriptors *)

Record MemoryDescriptor : Type := mk_descriptor {
  physical_start : Z;
  descriptor_pages : Z;
  available : bool
}.

Inductive ResourceError : Type := MapCapacity | InvalidMemoryDescriptor.

Definition descriptor_end (d : MemoryDescriptor) : option Z :=
  bytes ← checked_mul 64 (descriptor_pages d) PAGE_SIZE; checked_add 64 (physical_start d) bytes.

(** [MemoryMap::push]. *)
Definition map_push (map : list MemoryDescriptor) (d : MemoryDescriptor) :
    result (list MemoryDescriptor) ResourceError :=
  match descriptor_end d with
  | None => Err InvalidMemoryDescriptor
  | Some _ =>
      if (length map <? MAX_MEMORY_DESCRIPTORS)%nat then Ok (map ++ [d]) else Err MapCapacity
  end.

(** ** Runs *)

Record PhysicalRun : Type := mk_run { run_start : Z; run_pages : Z }.

#[export] Instance PhysicalRun_eq_dec : EqDecision PhysicalRun.
Proof. solve_decision. Defined.

Definition run_new (start pages : Z) : option PhysicalRun :=
  if negb (start mod PAGE_SIZE =? 0) || (pages =? 0) then None
  else
    bytes ← checked_mul 64 pages PAGE_SIZE;
    _ ← checked_add 64 start bytes;
    Some (mk_run start pages).

Definition run_end (r : PhysicalRun) : option Z :=
  bytes ← checked_mul 64 (run_pages r) PAGE_SIZE; checked_add 64 (run_start r) bytes.

Definition from_descriptor (d : MemoryDescriptor) : option PhysicalRun :=
  run_new (physical_start d) (descriptor_pages d).

Inductive ExclusionKind : Type := Reserved | Firmware | Kernel | Framebuffer.

Record MemoryExclusion : Type := mk_exclusion {
  exclusion_range : PhysicalRun;
  exclusion_kind : ExclusionKind
}.

Definition exclusion_new (start pages : Z) (k : ExclusionKind) : option MemoryExclusion :=
  range ← run_new start pages; Some (mk_exclusion range k).

Inductive NormalizationError : Type := InvalidDescriptor | Capacity.

Record NormalizedMemoryMap : Type := mk_normalized {
  runs : list PhysicalRun;
  total_pages : Z
}.

(** ** The passes over the arrays *)

Definition push_range (ranges : list PhysicalRun) (r : PhysicalRun) :
    result (list PhysicalRun) NormalizationError :=
  if (length ranges <? MAX_MEMORY_RUNS)%nat then Ok (ranges ++ [r]) else Err Capacity.

(** The loop over the descriptors: available runs and exclusions. *)
Fixpoint collect (map : list MemoryDescriptor) (available_ exclusions : list PhysicalRun) :
    result (list PhysicalRun * list PhysicalRun) NormalizationError :=
  match map with
  | [] => Ok (available_, exclusions)
  | d :: map =>
      let? range := ok_or (from_descriptor d) InvalidDescriptor in
      if available d then
        let? available_ := push_range available_ range in collect map available_ exclusions
      else
        let? exclusions := push_range exclusions range in collect map available_ exclusions
  end.

Fixpoint push_exclusions (es : list MemoryExclusion) (exclusions : list PhysicalRun) :
    result (list PhysicalRun) NormalizationError :=
  match es with
  | [] => Ok exclusions
  | e :: es =>
      let? exclusions := push_range exclusions (exclusion_range e) in push_exclusions es exclusions
  end.

(** The inner loop of [sort_ranges], on the sorted prefix read from its end. *)
Fixpoint shift_in (sorted : list PhysicalRun) (value : PhysicalRun) : list PhysicalRun :=
  match sorted with
  | candidate :: rest =>
      if run_start value <? run_start candidate then candidate :: shift_in rest value
      else value :: sorted
  | [] => [value]
  end.

Definition sort_ranges (ranges : list PhysicalRun) : list PhysicalRun :=
  rev (foldl shift_in [] ranges).

(** The loop of [merge_ranges]; [output] is the written prefix, last run first. *)
Fixpoint merge_loop (output ranges : list PhysicalRun) : result (list PhysicalRun) NormalizationError :=
  match ranges with
  | [] => Ok (rev output)
  | range :: ranges =>
      match output with
      | [] => merge_loop [range] ranges
      | previous :: output' =>
          let? previous_end := ok_or (run_end previous) InvalidDescriptor in
          if run_start range <=? previous_end then
            let? range_end := ok_or (run_end range) InvalidDescriptor in
            let end_ := Z.max previous_end range_end in
            let? merged := ok_or (run_new (run_start previous) ((end_ - run_start previous) / PAGE_SIZE))
                             InvalidDescriptor in
            merge_loop (merged :: output') ranges
          else if (length output =? MAX_MEMORY_RUNS)%nat then Err Capacity
          else merge_loop (range :: output) ranges
      end
  end.

Definition merge_ranges (ranges : list PhysicalRun) : result (list PhysicalRun) NormalizationError :=
  merge_loop [] ranges.

Definition subtract (candidate exclusion : PhysicalRun) (output : list PhysicalRun) :
    result (list PhysicalRun) NormalizationError :=
  let? candidate_end := ok_or (run_end candidate) InvalidDescriptor in
  let? exclusion_end := ok_or (run_end exclusion) InvalidDescriptor in
  if (exclusion_end <=? run_start candidate) || (candidate_end <=? run_start exclusion) then
    push_range output candidate
  else
    let? output :=
      if run_start candidate <? run_start exclusion then
        let? low := ok_or (run_new (run_start candidate)
                              ((run_start exclusion - run_start candidate) / PAGE_SIZE)) InvalidDescriptor in
        push_range output low
      else Ok output in
    if exclusion_end <? candidate_end then
      let? high := ok_or (run_new exclusion_end ((candidate_end - exclusion_end) / PAGE_SIZE))
                      InvalidDescriptor in
      push_range output high
    else Ok output.

Fixpoint subtract_each (current : list PhysicalRun) (exclusion : PhysicalRun) (scratch : list PhysicalRun) :
    result (list PhysicalRun) NormalizationError :=
  match current with
  | [] => Ok scratch
  | candidate :: current =>
      let? scratch := subtract candidate exclusion scratch in subtract_each current exclusion scratch
  end.

Fixpoint subtract_all (exclusions current : list PhysicalRun) :
    result (list PhysicalRun) NormalizationError :=
  match exclusions with
  | [] => Ok current
  | exclusion :: exclusions =>
      let? current := subtract_each current exclusion [] in
      if (length current =? 0)%nat then Ok current else subtract_all exclusions current
  end.

(** The loop that fills the [NormalizedMemoryMap]. *)
Fixpoint publish (current : list PhysicalRun) (normalized : NormalizedMemoryMap) :
    result NormalizedMemoryMap NormalizationError :=
  match current with
  | [] => Ok normalized
  | range :: current =>
      if (length (runs normalized) =? MAX_MEMORY_RUNS)%nat then Err Capacity
      else
        let? total := ok_or (checked_add 64 (total_pages normalized) (run_pages range)) InvalidDescriptor in
        publish current (mk_normalized (runs normalized ++ [range]) total)
  end.

Definition normalize_memory_map (memory_map : list MemoryDescriptor)
    (explicit_exclusions : list MemoryExclusion) : result NormalizedMemoryMap NormalizationError :=
  if (MAX_MEMORY_RUNS <? length explicit_exclusions)%nat then Err Capacity
  else
    let? (available_, exclusions) := collect memory_map [] [] in
    let? exclusions := push_exclusions explicit_exclusions exclusions in
    let? available_ := merge_ranges (sort_ranges available_) in
    let? exclusions := merge_ranges (sort_ranges exclusions) in
    let? current := subtract_all exclusions available_ in
    let? current := merge_ranges (sort_ranges current) in
    publish current (mk_normalized [] 0).

(** ** Runs as sets of addresses *)

Definition rend (r : PhysicalRun) : Z := run_start r + run_pages r * PAGE_SIZE.

(** What [PhysicalRun::new] admits. *)
Record run_ok (r : PhysicalRun) : Prop := {
  ok_start : 0 <= run_start r;
  ok_aligned : run_start r mod PAGE_SIZE = 0;
  ok_pages : 0 < run_pages r;
  ok_end : rend r < 2 ^ 64
}.

Definition covers (l : list PhysicalRun) (a : Z) : Prop :=
  exists r, r ∈ l ∧ run_start r <= a < rend r.

(** Sorted with a gap between neighbours. *)
Definition separated (l : list PhysicalRun) : Prop :=
  StronglySorted (fun r s => rend r < run_start s) l.

Lemma run_new_Some start pages r :
  0 <= start -> 0 <= pages -> run_new start pages = Some r -> r = mk_run start pages ∧ run_ok r.
Proof.
  intros Hs Hp E. unfold run_new in E. destruct (_ || _) eqn:Hb; [done|]. boolprop.
  unfold checked_mul, checked_add in E.
  destruct (Z.ltb_spec (pages * PAGE_SIZE) (2 ^ 64)); [|done]. simpl in E.
  destruct (Z.ltb_spec (start + pages * PAGE_SIZE) (2 ^ 64)); [|done]. simpl in E.
  injection E as <-. split; [done|]. split; unfold rend; simpl; lia.
Qed.

Lemma run_new_ok start pages :
  0 <= start -> start mod PAGE_SIZE = 0 -> 0 < pages -> start + pages * PAGE_SIZE < 2 ^ 64 ->
  run_new start pages = Some (mk_run start pages).
Proof.
  intros Hs Ha Hp He. unfold run_new, checked_mul, checked_add. rewrite Ha.
  destruct (Z.eqb_spec pages 0); [lia|]. change (0 =? 0) with true. cbn [negb orb].
  assert (0 < PAGE_SIZE) by done.
  destruct (Z.ltb_spec (pages * PAGE_SIZE) (2 ^ 64)); [|lia]. simpl.
  by destruct (Z.ltb_spec (start + pages * PAGE_SIZE) (2 ^ 64)); [|lia].
Qed.

Lemma run_end_ok r : run_ok r -> run_end r = Some (rend r).
Proof.
  intros [H1 H2 H3 H4]. unfold run_end, checked_mul, checked_add, rend in *.
  destruct (Z.ltb_spec (run_pages r * PAGE_SIZE) (2 ^ 64)); [|lia]. simpl.
  by destruct (Z.ltb_spec (run_start r + run_pages r * PAGE_SIZE) (2 ^ 64)); [|lia].
Qed.

Lemma rend_aligned r : run_ok r -> rend r mod PAGE_SIZE = 0.
Proof. intros H. unfold rend. rewrite Z.mod_add by done. apply H. Qed.

(** The run between two aligned addresses. *)
Lemma run_between s e :
  0 <= s -> s mod PAGE_SIZE = 0 -> e mod PAGE_SIZE = 0 -> s < e < 2 ^ 64 ->
  run_new s ((e - s) / PAGE_SIZE) = Some (mk_run s ((e - s) / PAGE_SIZE)) ∧
  run_ok (mk_run s ((e - s) / PAGE_SIZE)) ∧ rend (mk_run s ((e - s) / PAGE_SIZE)) = e.
Proof.
  intros Hs Has Hae Hse.
  assert (Hd : (e - s) / PAGE_SIZE * PAGE_SIZE = e - s).
  { rewrite Z.mul_comm. symmetry. apply Z_div_exact_full_2; [done|].
    by rewrite Zminus_mod, Has, Hae. }
  assert (0 < PAGE_SIZE) by done. assert (0 < (e - s) / PAGE_SIZE) by nia.
  split; [apply run_new_ok; lia|]. split; [split|]; unfold rend; simpl; lia.
Qed.

Lemma covers_nil a : covers [] a <-> False.
Proof. split; [|done]. intros (r & Hr & _). by apply not_elem_of_nil in Hr. Qed.

Lemma covers_cons r l a : covers (r :: l) a <-> (run_start r <= a < rend r) ∨ covers l a.
Proof.
  split.
  - intros (s & [->|Hs]%elem_of_cons & Ha); [by left|right]. by exists s.
  - intros [Ha|(s & Hs & Ha)]; [exists r|exists s]; (split; [|done]); [left|by right].
Qed.

Lemma covers_app l k a : covers (l ++ k) a <-> covers l a ∨ covers k a.
Proof.
  induction l as [|r l IH]; simpl; [rewrite covers_nil; tauto|]. rewrite !covers_cons, IH. tauto.
Qed.

Lemma covers_Permutation l k a : Permutation l k -> covers l a <-> covers k a.
Proof. intros H. unfold covers. by setoid_rewrite H. Qed.

Lemma covers_rev l a : covers (rev l) a <-> covers l a.
Proof. apply covers_Permutation. symmetry. apply Permutation_rev. Qed.

(** ** Sorting *)

Lemma shift_in_perm l v : Permutation (shift_in l v) (v :: l).
Proof.
  induction l as [|c l IH]; simpl; [done|]. destruct (_ <? _); [|done].
  rewrite IH. constructor.
Qed.

Definition descending : list PhysicalRun -> Prop :=
  StronglySorted (fun r s => run_start s <= run_start r).

Lemma shift_in_sorted l v : descending l -> descending (shift_in l v).
Proof.
  induction 1 as [|c l Hl IH Hc]; simpl; [repeat constructor|].
  destruct (Z.ltb_spec (run_start v) (run_start c)).
  - constructor; [done|]. apply (Forall_impl (fun s => run_start s <= run_start c)); [|done].
    rewrite shift_in_perm. constructor; [lia|done].
  - constructor; [by constructor|]. constructor; [done|].
    eapply Forall_impl; [exact Hc|]. intros s Hs. simpl in Hs |- *. lia.
Qed.

Lemma sort_fold l acc : descending acc ->
  Permutation (foldl shift_in acc l) (l ++ acc) ∧ descending (foldl shift_in acc l).
Proof.
  revert acc. induction l as [|r l IH]; intros acc Ha; simpl; [done|].
  destruct (IH (shift_in acc r)) as [Hp Hd]; [by apply shift_in_sorted|].
  split; [|done]. rewrite Hp, shift_in_perm. symmetry. apply Permutation_middle.
Qed.

Definition ascending : list PhysicalRun -> Prop :=
  StronglySorted (fun r s => run_start r <= run_start s).

Lemma StronglySorted_app_snoc {A} (R : A -> A -> Prop) l x :
  StronglySorted R l -> Forall (fun y => R y x) l -> StronglySorted R (l ++ [x]).
Proof.
  induction 1 as [|y l Hl IH Hy]; intros Hf; simpl; [repeat constructor|].
  apply Forall_cons in Hf as [Hyx Hf]. constructor; [by apply IH|]. apply Forall_app. by split; [|repeat constructor].
Qed.

Lemma StronglySorted_rev {A} (R : A -> A -> Prop) l :
  StronglySorted (flip R) l -> StronglySorted R (rev l).
Proof.
  induction 1 as [|y l Hl IH Hy]; simpl; [constructor|].
  apply StronglySorted_app_snoc; [done|]. by apply Forall_rev.
Qed.

Lemma sort_ranges_spec l : Permutation (sort_ranges l) l ∧ ascending (sort_ranges l).
Proof.
  destruct (sort_fold l [] ltac:(constructor)) as [Hp Hd]. unfold sort_ranges. split.
  - rewrite <- Permutation_rev, Hp. by rewrite app_nil_r.
  - by apply StronglySorted_rev.
Qed.

(** ** Merging *)

#[local] Ltac all_ok := repeat (apply Forall_cons_2; [done|]); first [apply Forall_nil_2|done].

Lemma merge_loop_spec ranges : forall output,
  StronglySorted (fun r s => rend s < run_start r) output ->
  Forall run_ok output -> Forall run_ok ranges -> ascending ranges ->
  (forall p, hd_error output = Some p -> Forall (fun r => run_start p <= run_start r) ranges) ->
  (length output + length ranges <= MAX_MEMORY_RUNS)%nat ->
  exists l, merge_loop output ranges = Ok l ∧ separated l ∧ Forall run_ok l ∧
    (forall a, covers l a <-> covers output a ∨ covers ranges a) ∧
    (length l <= length output + length ranges)%nat.
Proof.
  induction ranges as [|r ranges IH]; intros out Hsep Hout Hok Hasc Hhd Hlen; simpl.
  { exists (rev out). split; [done|]. split; [by apply StronglySorted_rev|]. split; [by apply Forall_rev|].
    split; [|rewrite length_rev; lia]. intros a. rewrite covers_rev, covers_nil. tauto. }
  apply Forall_cons in Hok as [Hr Hok]. inversion_clear Hasc as [|? ? Hasc' Hmin].
  destruct out as [|p out].
  { destruct (IH [r]) as (l & E & H1 & H2 & H3 & H4); [repeat constructor|all_ok|done|done| |simpl in *; lia|].
    - intros p [= <-]. done.
    - exists l. split; [done|]. split; [done|]. split; [done|]. split; [|simpl in *; lia].
      intros a. rewrite H3, !covers_cons, !covers_nil. tauto. }
  specialize (Hhd p eq_refl). apply Forall_cons in Hhd as [Hpr Hp].
  inversion_clear Hsep as [|? ? Hsep' Hlow]. apply Forall_cons in Hout as [Hpok Hout].
  rewrite (run_end_ok p Hpok), (run_end_ok r Hr). cbn [ok_or].
  destruct (Z.leb_spec (run_start r) (rend p)).
  - destruct (run_between (run_start p) (Z.max (rend p) (rend r))) as (-> & Hm & He);
      [apply Hpok|apply Hpok|destruct (Z.max_spec (rend p) (rend r)) as [[_ ->]|[_ ->]]; by apply rend_aligned| |].
    { pose proof (ok_pages _ Hpok). pose proof (ok_end _ Hpok). pose proof (ok_end _ Hr). unfold rend, PAGE_SIZE in *. lia. }
    cbn [ok_or]. set (m := mk_run _ _) in *.
    destruct (IH (m :: out)) as (l & E & H1 & H2 & H3 & H4);
      [by constructor|all_ok|done|done|by intros ? [= <-]|simpl in *; lia|].
    exists l. split; [done|]. split; [done|]. split; [done|]. split; [|simpl in *; lia].
    intros a. rewrite H3, !covers_cons, He. subst m. simpl. pose proof (ok_pages _ Hr).
    unfold rend, PAGE_SIZE in *. split; [intros [[Ha|Ha]|Ha]|intros [[Ha|Ha]|[Ha|Ha]]]; try tauto; [|left; left; lia..].
    destruct (decide (a < run_start p + run_pages p * 4096)); [left; left; lia|right; left; lia].
  - destruct (Nat.eqb_spec (length (p :: out)) MAX_MEMORY_RUNS); [simpl in *; lia|].
    destruct (IH (r :: p :: out)) as (l & E & H1 & H2 & H3 & H4);
      [|all_ok|done|done|by intros ? [= <-]|simpl in *; lia|].
    + constructor; [by constructor|]. constructor; [done|].
      eapply Forall_impl; [exact Hlow|]. intros s Hs. simpl in Hs |- *. pose proof (ok_pages _ Hpok).
      unfold rend, PAGE_SIZE in *. lia.
    + exists l. split; [done|]. split; [done|]. split; [done|]. split; [|simpl in *; lia].
      intros a. rewrite H3, !covers_cons. tauto.
Qed.

Lemma sort_merge l :
  Forall run_ok l -> (length l <= MAX_MEMORY_RUNS)%nat ->
  exists k, merge_ranges (sort_ranges l) = Ok k ∧ separated k ∧ Forall run_ok k ∧
    (forall a, covers k a <-> covers l a) ∧ (length k <= length l)%nat.
Proof.
  intros Hok Hlen. destruct (sort_ranges_spec l) as [Hp Ha].
  destruct (merge_loop_spec (sort_ranges l) []) as (k & E & H1 & H2 & H3 & H4);
    [constructor|constructor|by rewrite Hp|done|done|rewrite Hp; simpl; lia|].
  exists k. split; [done|]. split; [done|]. split; [done|]. split.
  - intros a. rewrite H3, covers_nil, (covers_Permutation _ _ _ Hp). tauto.
  - rewrite Hp in H4. simpl in H4. lia.
Qed.

(** ** Subtracting *)

(** What is left of a run. *)
Definition pieces (e c : PhysicalRun) : list PhysicalRun :=
  if (rend e <=? run_start c) || (rend c <=? run_start e) then [c]
  else
    (if run_start c <? run_start e
     then [mk_run (run_start c) ((run_start e - run_start c) / PAGE_SIZE)] else []) ++
    (if rend e <? rend c then [mk_run (rend e) ((rend c - rend e) / PAGE_SIZE)] else []).

Lemma pieces_spec e c : run_ok e -> run_ok c ->
  Forall run_ok (pieces e c) ∧ separated (pieces e c) ∧
  Forall (fun p => run_start c <= run_start p ∧ rend p <= rend c) (pieces e c) ∧
  forall a, covers (pieces e c) a <-> run_start c <= a < rend c ∧ ¬ (run_start e <= a < rend e).
Proof.
  intros He Hc. unfold pieces.
  pose proof (ok_pages _ He). pose proof (ok_pages _ Hc). pose proof (ok_end _ He). pose proof (ok_end _ Hc).
  pose proof (ok_start _ He). pose proof (ok_start _ Hc).
  assert (run_start e < rend e) by (unfold rend, PAGE_SIZE; lia).
  assert (run_start c < rend c) by (unfold rend, PAGE_SIZE; lia).
  destruct (_ || _) eqn:Hb; boolprop.
  { split; [all_ok|]. split; [repeat constructor|]. split; [repeat constructor; lia|].
    intros a. rewrite covers_cons, covers_nil. destruct Hb; boolprop; lia. }
  destruct (Z.ltb_spec (run_start c) (run_start e)) as [Hl|Hl].
  - destruct (run_between (run_start c) (run_start e)) as (_ & Ok1 & E1); [lia|apply Hc|apply He|lia|].
    destruct (Z.ltb_spec (rend e) (rend c)) as [Hh|Hh].
    + destruct (run_between (rend e) (rend c)) as (_ & Ok2 & E2); [lia|by apply rend_aligned|by apply rend_aligned|lia|].
      split; [all_ok|]. split; [repeat constructor; rewrite E1; simpl; lia|].
      split; [repeat constructor; rewrite ?E1, ?E2; simpl; lia|].
      intros a. simpl app. rewrite !covers_cons, covers_nil, E1, E2. simpl. lia.
    + split; [all_ok|]. split; [repeat constructor|].
      split; [repeat constructor; rewrite ?E1; simpl; lia|].
      intros a. simpl app. rewrite !covers_cons, covers_nil, E1. simpl. lia.
  - destruct (Z.ltb_spec (rend e) (rend c)) as [Hh|Hh].
    + destruct (run_between (rend e) (rend c)) as (_ & Ok2 & E2); [lia|by apply rend_aligned|by apply rend_aligned|lia|].
      split; [all_ok|]. split; [repeat constructor|].
      split; [repeat constructor; rewrite ?E2; simpl; lia|].
      intros a. simpl app. rewrite !covers_cons, covers_nil, E2. simpl. lia.
    + split; [all_ok|]. split; [repeat constructor|]. split; [repeat constructor|].
      intros a. simpl app. rewrite covers_nil. lia.
Qed.

Definition remainder (e : PhysicalRun) (l : list PhysicalRun) : list PhysicalRun := l ≫= pieces e.

Lemma remainder_cons e c l : remainder e (c :: l) = pieces e c ++ remainder e l.
Proof. done. Qed.

Lemma subtract_spec e c out : run_ok e -> run_ok c -> (length out <= MAX_MEMORY_RUNS)%nat ->
  subtract c e out =
  if (length (out ++ pieces e c) <=? MAX_MEMORY_RUNS)%nat then Ok (out ++ pieces e c) else Err Capacity.
Proof.
  intros He Hc Hlen. unfold subtract. rewrite (run_end_ok c Hc), (run_end_ok e He). cbn [ok_or]. unfold pieces.
  pose proof (ok_end _ He). pose proof (ok_end _ Hc). pose proof (ok_start _ He). pose proof (ok_start _ Hc).
  pose proof (ok_pages _ He). assert (0 <= rend e) by (unfold rend, PAGE_SIZE; lia).
  destruct (_ || _) eqn:Hb; boolprop.
  { unfold push_range. rewrite length_app. simpl length.
    destruct (Nat.ltb_spec (length out) MAX_MEMORY_RUNS), (Nat.leb_spec (length out + 1) MAX_MEMORY_RUNS); done || lia. }
  assert (Hlow : run_start c < run_start e ->
    run_new (run_start c) ((run_start e - run_start c) / PAGE_SIZE) =
    Some (mk_run (run_start c) ((run_start e - run_start c) / PAGE_SIZE))).
  { intros ?. apply run_between; [lia|apply Hc|apply He|unfold rend, PAGE_SIZE in *; lia]. }
  assert (Hhigh : rend e < rend c ->
    run_new (rend e) ((rend c - rend e) / PAGE_SIZE) = Some (mk_run (rend e) ((rend c - rend e) / PAGE_SIZE))).
  { intros ?. apply run_between; [lia|by apply rend_aligned|by apply rend_aligned|lia]. }
  unfold push_range. rewrite !length_app.
  destruct (Z.ltb_spec (run_start c) (run_start e)); [rewrite Hlow by done|];
    (destruct (Z.ltb_spec (rend e) (rend c)); [rewrite Hhigh by done|]); cbn [ok_or length Nat.add];
    repeat match goal with
    | |- context [(?x <? ?y)%nat] => destruct (Nat.ltb_spec x y)
    | |- context [(?x <=? ?y)%nat] => destruct (Nat.leb_spec x y)
    end; rewrite ?length_app in *; simpl length in *; try lia; rewrite ?app_nil_r, <- ?app_assoc; done.
Qed.

Lemma subtract_each_spec e cur : forall out, run_ok e -> Forall run_ok cur -> (length out <= MAX_MEMORY_RUNS)%nat ->
  subtract_each cur e out =
  if (length (out ++ remainder e cur) <=? MAX_MEMORY_RUNS)%nat then Ok (out ++ remainder e cur) else Err Capacity.
Proof.
  induction cur as [|c cur IH]; intros out He Hok Hlen; cbn [subtract_each].
  { change (remainder e []) with (@nil PhysicalRun). rewrite app_nil_r. by destruct (Nat.leb_spec (length out) MAX_MEMORY_RUNS); [|lia]. }
  apply Forall_cons in Hok as [Hc Hok]. rewrite remainder_cons, subtract_spec by done.
  destruct (Nat.leb_spec (length (out ++ pieces e c)) MAX_MEMORY_RUNS).
  - rewrite IH by done. by rewrite <- !app_assoc.
  - by destruct (Nat.leb_spec (length (out ++ pieces e c ++ remainder e cur)) MAX_MEMORY_RUNS);
      [rewrite !length_app in *; lia|].
Qed.

Lemma remainder_spec e cur : run_ok e -> Forall run_ok cur ->
  Forall run_ok (remainder e cur) ∧
  forall a, covers (remainder e cur) a <-> covers cur a ∧ ¬ (run_start e <= a < rend e).
Proof.
  intros He. induction 1 as [|c cur Hc Hok [IH1 IH2]]; [|rewrite remainder_cons].
  { split; [constructor|]. intros a. change (remainder e []) with (@nil PhysicalRun). rewrite covers_nil. tauto. }
  destruct (pieces_spec e c He Hc) as (H1 & _ & _ & H2). split; [by apply Forall_app|].
  intros a. rewrite covers_app, covers_cons, H2, IH2. tauto.
Qed.

Lemma remainder_beyond e cur :
  Forall (fun c => rend e <= run_start c) cur -> remainder e cur = cur.
Proof.
  induction 1 as [|c cur Hc Hok IH]; [done|]. rewrite remainder_cons, IH. unfold pieces. by destruct (Z.leb_spec (rend e) (run_start c)); [|lia].
Qed.

(** An exclusion splits at most one of several separate runs. *)
Lemma remainder_separated e cur : run_ok e -> Forall run_ok cur -> separated cur ->
  separated (remainder e cur) ∧ (length (remainder e cur) <= S (length cur))%nat ∧
  forall x, Forall (fun c => x < run_start c) cur -> Forall (fun c => x < run_start c) (remainder e cur).
Proof.
  intros He Hok. induction 1 as [|c cur Hs IH Hc]; [|rewrite remainder_cons].
  { split; [constructor|]. split; [simpl; lia|done]. }
  apply Forall_cons in Hok as [Hcok Hok]. destruct (IH Hok) as (IH1 & IH2 & IH3).
  destruct (pieces_spec e c He Hcok) as (_ & P1 & P2 & _). split; [|split].
  - apply StronglySorted_app. split; [|split; [done|done]]. intros p q Hp Hq.
    pose proof (proj1 (list.Forall_forall _ _) P2 p Hp) as [_ ?].
    pose proof (proj1 (list.Forall_forall _ _) (IH3 _ Hc) q Hq). simpl in *. lia.
  - rewrite length_app. unfold pieces.
    destruct (_ || _) eqn:Hb; [simpl; lia|]. boolprop.
    destruct (Z.ltb_spec (rend e) (rend c)); [|destruct (_ <? _); simpl; lia].
    rewrite remainder_beyond; [destruct (_ <? _); simpl; lia|].
    eapply Forall_impl; [exact Hc|]. intros s Hsx. simpl in Hsx |- *. lia.
  - intros x [Hx Hxs]%Forall_cons. apply Forall_app. split; [|by apply IH3].
    eapply Forall_impl; [exact P2|]. intros p [? _]. lia.
Qed.

Lemma subtract_all_spec es : forall cur, Forall run_ok es -> Forall run_ok cur -> separated cur ->
  (length cur <= MAX_MEMORY_RUNS)%nat ->
  match subtract_all es cur with
  | Ok l => Forall run_ok l ∧ separated l ∧ (length l <= MAX_MEMORY_RUNS)%nat ∧
      forall a, covers l a <-> covers cur a ∧ ¬ covers es a
  | Err err => err = Capacity ∧ (MAX_MEMORY_RUNS < length cur + length es)%nat
  end.
Proof.
  induction es as [|e es IH]; intros cur Hes Hcur Hsep Hlen; cbn [subtract_all].
  { split; [done|]. split; [done|]. split; [done|]. intros a. rewrite covers_nil. tauto. }
  apply Forall_cons in Hes as [He Hes]. rewrite subtract_each_spec by (done || simpl; lia).
  destruct (remainder_spec e cur He Hcur) as [R1 R2].
  destruct (remainder_separated e cur He Hcur Hsep) as (R3 & R4 & _). rewrite app_nil_l.
  destruct (Nat.leb_spec (length (remainder e cur)) MAX_MEMORY_RUNS) as [Hl|Hl]; [|simpl; split; [done|lia]].
  destruct (Nat.eqb_spec (length (remainder e cur)) 0) as [H0|H0].
  - split; [done|]. split; [done|]. split; [done|]. intros a. specialize (R2 a).
    rewrite (nil_length_inv _ H0), covers_nil in *. rewrite covers_cons. tauto.
  - specialize (IH _ Hes R1 R3 Hl). destruct (subtract_all es (remainder e cur)) as [l|err].
    + destruct IH as (? & ? & ? & Hcov). split; [done|]. split; [done|]. split; [done|].
      intros a. rewrite Hcov, R2, covers_cons. tauto.
    + simpl. destruct IH. split; [done|lia].
Qed.

(** ** The whole pass *)

(** The fields of a descriptor are 64-bit words. *)
Definition descriptor_typed (d : MemoryDescriptor) : Prop :=
  fits 64 (physical_start d) ∧ fits 64 (descriptor_pages d).

Definition in_descriptor (d : MemoryDescriptor) (a : Z) : Prop :=
  physical_start d <= a < physical_start d + descriptor_pages d * PAGE_SIZE.

Definition runs_of (b : bool) (map : list MemoryDescriptor) : list PhysicalRun :=
  omap (fun d => if Bool.eqb (available d) b then from_descriptor d else None) map.

Lemma push_range_spec l r :
  push_range l r = Ok (l ++ [r]) ∧ (length l < MAX_MEMORY_RUNS)%nat ∨
  push_range l r = Err Capacity ∧ (MAX_MEMORY_RUNS <= length l)%nat.
Proof. unfold push_range. destruct (Nat.ltb_spec (length l) MAX_MEMORY_RUNS); [by left|by right]. Qed.

Lemma collect_descriptors_spec map : forall av ex,
  (length av <= MAX_MEMORY_RUNS)%nat -> (length ex <= MAX_MEMORY_RUNS)%nat ->
  match collect map av ex with
  | Ok (av', ex') => av' = av ++ runs_of true map ∧ ex' = ex ++ runs_of false map ∧
      (length av' <= MAX_MEMORY_RUNS)%nat ∧ (length ex' <= MAX_MEMORY_RUNS)%nat ∧
      Forall (fun d => from_descriptor d ≠ None) map ∧
      (length av' + length ex' = length av + length ex + length map)%nat
  | Err InvalidDescriptor => Exists (fun d => from_descriptor d = None) map
  | Err Capacity => (MAX_MEMORY_RUNS < length av + length ex + length map)%nat
  end.
Proof.
  induction map as [|d map IH]; intros av ex Ha He; simpl.
  { rewrite !app_nil_r. split; [done|]. split; [done|]. split; [done|]. split; [done|]. split; [constructor|lia]. }
  destruct (from_descriptor d) as [r|] eqn:Er; cbn [ok_or]; [|by left].
  destruct (available d) eqn:Eav; simpl; rewrite ?Er.
  - destruct (push_range_spec av r) as [[-> Hl]|[-> Hl]]; [|lia].
    assert (Hl' : (length (av ++ [r]) <= MAX_MEMORY_RUNS)%nat) by (rewrite length_app; simpl; lia).
    specialize (IH _ ex Hl' He). destruct (collect map (av ++ [r]) ex) as [[av' ex']|[]]; [|by right|].
    + destruct IH as (-> & -> & ? & ? & ? & Hs). rewrite !length_app in *. simpl in *. rewrite <- !app_assoc.
      split; [done|]. split; [done|]. split; [lia|]. split; [lia|]. split; [|lia]. constructor; [by rewrite Er|done].
    + rewrite length_app in IH. simpl in IH. lia.
  - destruct (push_range_spec ex r) as [[-> Hl]|[-> Hl]]; [|lia].
    assert (Hl' : (length (ex ++ [r]) <= MAX_MEMORY_RUNS)%nat) by (rewrite length_app; simpl; lia).
    specialize (IH av _ Ha Hl'). destruct (collect map av (ex ++ [r])) as [[av' ex']|[]]; [|by right|].
    + destruct IH as (-> & -> & ? & ? & ? & Hs). rewrite !length_app in *. simpl in *. rewrite <- !app_assoc.
      split; [done|]. split; [done|]. split; [lia|]. split; [lia|]. split; [|lia]. constructor; [by rewrite Er|done].
    + rewrite length_app in IH. simpl in IH. lia.
Qed.

Lemma push_exclusions_spec es : forall ex, (length ex <= MAX_MEMORY_RUNS)%nat ->
  match push_exclusions es ex with
  | Ok ex' => ex' = ex ++ (exclusion_range <$> es) ∧ (length ex' <= MAX_MEMORY_RUNS)%nat
  | Err err => err = Capacity ∧ (MAX_MEMORY_RUNS < length ex + length es)%nat
  end.
Proof.
  induction es as [|e es IH]; intros ex Hl; simpl; [by rewrite app_nil_r|].
  destruct (push_range_spec ex (exclusion_range e)) as [[-> Hl']|[-> Hl']]; [|split; [done|lia]].
  specialize (IH (ex ++ [exclusion_range e])). rewrite length_app, <- app_assoc in IH. simpl in IH.
  specialize (IH ltac:(lia)). destruct (push_exclusions es _); [done|]. destruct IH. split; [done|lia].
Qed.

Definition sum_pages (l : list PhysicalRun) : Z := foldr (fun r n => run_pages r + n) 0 l.

Lemma separated_fit l x : Forall run_ok l -> separated l -> Forall (fun r => x <= run_start r) l -> 0 <= x < 2 ^ 64 ->
  0 <= sum_pages l ∧ x + sum_pages l * PAGE_SIZE < 2 ^ 64.
Proof.
  intros Hok. revert x. induction Hok as [|r l Hr Hok IH]; intros x Hsep Hx H0; [simpl; lia|].
  inversion_clear Hsep as [|? ? Hsep' Hlow]. apply Forall_cons in Hx as [Hx _].
  pose proof (ok_end _ Hr). pose proof (ok_pages _ Hr). destruct (IH (rend r) Hsep') as [? ?].
  - eapply Forall_impl; [exact Hlow|]. intros s Hs. simpl in Hs |- *. lia.
  - unfold rend, PAGE_SIZE in *. lia.
  - unfold rend, PAGE_SIZE in *. simpl. lia.
Qed.

Lemma publish_spec cur : forall l n,
  (length l + length cur <= MAX_MEMORY_RUNS)%nat -> Forall run_ok cur -> n + sum_pages cur < 2 ^ 64 ->
  publish cur (mk_normalized l n) = Ok (mk_normalized (l ++ cur) (n + sum_pages cur)).
Proof.
  induction cur as [|r cur IH]; intros l n Hl Hok Hn; simpl in *; [by rewrite app_nil_r, Z.add_0_r|].
  destruct (Nat.eqb_spec (length l) MAX_MEMORY_RUNS); [lia|]. apply Forall_cons in Hok as [Hr Hok].
  assert (0 <= sum_pages cur) by (clear -Hok; induction Hok as [|s l Hs]; simpl; [|pose proof (ok_pages _ Hs)]; lia).
  unfold checked_add. destruct (Z.ltb_spec (n + run_pages r) (2 ^ 64)); [|lia]. cbn [ok_or].
  rewrite IH; [|rewrite length_app; simpl; lia|done|lia]. by rewrite <- app_assoc, Z.add_assoc.
Qed.

Lemma runs_of_ok b map : Forall descriptor_typed map -> Forall run_ok (runs_of b map).
Proof.
  induction 1 as [|d map [[? _] [? _]] Hm IH]; simpl; [constructor|]. destruct (Bool.eqb _ _); [|done].
  destruct (from_descriptor d) as [r|] eqn:E; [|done]. apply run_new_Some in E as [_ Hr]; [|done..]. by constructor.
Qed.

Lemma covers_runs_of b map a :
  Forall descriptor_typed map -> Forall (fun d => from_descriptor d ≠ None) map ->
  covers (runs_of b map) a <-> exists d, d ∈ map ∧ available d = b ∧ in_descriptor d a.
Proof.
  induction 1 as [|d map [[? _] [? _]] Hm IH]; intros Hv; simpl.
  { rewrite covers_nil. split; [done|]. by intros (d & ?%not_elem_of_nil & _). }
  apply Forall_cons in Hv as [Hd Hv]. destruct (from_descriptor d) as [r|] eqn:E; [|done].
  apply run_new_Some in E as [-> _]; [|done..].
  assert (Hc : covers (if Bool.eqb (available d) b
      then mk_run (physical_start d) (descriptor_pages d) :: runs_of b map else runs_of b map) a <->
    (available d = b ∧ in_descriptor d a) ∨ covers (runs_of b map) a).
  { destruct (Bool.eqb_spec (available d) b); [rewrite covers_cons; unfold rend, in_descriptor; simpl|]; tauto. }
  transitivity ((available d = b ∧ in_descriptor d a) ∨ covers (runs_of b map) a); [|rewrite (IH Hv); split].
  - rewrite <- Hc. by destruct (Bool.eqb _ _).
  - intros [Ha|(d' & Hd' & Ha)]; [exists d|exists d']; (split; [|done]); [left|by right].
  - intros (d' & [->|Hd']%elem_of_cons & Ha); [by left|right]. by exists d'.
Qed.

(** What [normalize_memory_map] answers. *)
Definition normalised (map : list MemoryDescriptor) (es : list MemoryExclusion)
    (o : result NormalizedMemoryMap NormalizationError) : Prop :=
  match o with
  | Ok m => Forall run_ok (runs m) ∧ separated (runs m) ∧ (length (runs m) <= MAX_MEMORY_RUNS)%nat ∧
      total_pages m = sum_pages (runs m) ∧
      forall a, covers (runs m) a <->
        (exists d, d ∈ map ∧ available d = true ∧ in_descriptor d a) ∧
        (forall d, d ∈ map -> in_descriptor d a -> available d = true) ∧
        (forall e, e ∈ es -> ¬ run_start (exclusion_range e) <= a < rend (exclusion_range e))
  | Err InvalidDescriptor => exists d, d ∈ map ∧ from_descriptor d = None
  | Err Capacity => (MAX_MEMORY_RUNS < length map + length es)%nat
  end.

Lemma normalize_outcome map es :
  Forall descriptor_typed map -> Forall (fun e => run_ok (exclusion_range e)) es ->
  normalised map es (normalize_memory_map map es).
Proof.
  intros Hmap Hes. unfold normalised, normalize_memory_map.
  destruct (Nat.ltb_spec MAX_MEMORY_RUNS (length es)); [lia|].
  pose proof (collect_descriptors_spec map [] [] ltac:(simpl; lia) ltac:(simpl; lia)) as Hc.
  destruct (collect map [] []) as [[av ex]|[]]; [|by apply list.Exists_exists|simpl in Hc; lia].
  destruct Hc as (-> & -> & Hla & Hle & Hval & Hsum). simpl app in *. simpl Nat.add in Hsum.
  pose proof (push_exclusions_spec es _ Hle) as Hp.
  destruct (push_exclusions es (runs_of false map)) as [ex|err]; [|destruct Hp as [-> ?]; lia].
  destruct Hp as [-> Hlx].
  assert (Hex : Forall run_ok (runs_of false map ++ (exclusion_range <$> es))).
  { apply Forall_app. split; [by apply runs_of_ok|]. by apply Forall_fmap. }
  destruct (sort_merge (runs_of true map)) as (A & -> & SA & OA & CA & LA); [by apply runs_of_ok|done|].
  destruct (sort_merge _ Hex Hlx) as (X & -> & SX & OX & CX & LX).
  pose proof (subtract_all_spec X A OX OA SA ltac:(lia)) as Hs.
  destruct (subtract_all X A) as [C|err]; [|destruct Hs as [-> ?]; rewrite length_app, length_fmap in LX; lia].
  destruct Hs as (OC & SC & LC & CC). destruct (sort_merge C OC LC) as (R & -> & SR & OR & CR & LR).
  destruct (separated_fit R 0 OR SR) as [H0 Hfit]; [|done|].
  { eapply Forall_impl; [exact OR|]. intros r Hr. apply Hr. }
  rewrite publish_spec; [|simpl; lia|done|unfold PAGE_SIZE in Hfit; lia]. cbn [runs total_pages app].
  split; [done|]. split; [done|]. split; [lia|]. split; [lia|]. intros a.
  rewrite CR, CC, CA, CX, covers_app, !covers_runs_of by done.
  assert (Hf : covers (exclusion_range <$> es) a <->
    exists e, e ∈ es ∧ run_start (exclusion_range e) <= a < rend (exclusion_range e)).
  { split; [intros (r & (e & -> & He)%list_elem_of_fmap & Ha); by exists e|].
    intros (e & He & Ha). exists (exclusion_range e). split; [|done]. apply list_elem_of_fmap. by exists e. }
  rewrite Hf. split.
  - intros [Hav Hno]. split; [done|]. split.
    + intros d Hd Ha. destruct (available d) eqn:E; [done|]. destruct Hno. left. by exists d.
    + intros e He Ha. apply Hno. right. by exists e.
  - intros (Hav & Hd & He). split; [done|]. intros [(d & Hin & E & Ha)|(e & Hin & Ha)].
    + by rewrite (Hd d Hin Ha) in E.
    + by apply (He e Hin).
Qed.

Lemma normalize_spec map es m :
  Forall descriptor_typed map -> Forall (fun e => run_ok (exclusion_range e)) es -> normalize_memory_map map es = Ok m ->
  normalised map es (Ok m).
Proof. intros Hmap Hes <-. by apply normalize_outcome. Qed.

(** C36: [normalize_memory_map] keeps exactly the usable memory.  On success the
    runs are page aligned, sorted and separated, an address is in one of them
    exactly when an available descriptor covers it and no other descriptor and
    no explicit exclusion does, and [total_pages] counts their pages.  It fails
    only on a malformed descriptor, or with [Capacity] when descriptors and
    exclusions together exceed the arrays. *)
Theorem memory_map_normalized map es :
  Forall descriptor_typed map -> Forall (fun e => run_ok (exclusion_range e)) es ->
  match normalize_memory_map map es with
  | Ok m => Forall run_ok (runs m) ∧ separated (runs m) ∧ (length (runs m) <= MAX_MEMORY_RUNS)%nat ∧
      total_pages m = sum_pages (runs m) ∧
      forall a, covers (runs m) a <->
        (exists d, d ∈ map ∧ available d = true ∧ in_descriptor d a) ∧
        (forall d, d ∈ map -> in_descriptor d a -> available d = true) ∧
        (forall e, e ∈ es -> ¬ run_start (exclusion_range e) <= a < rend (exclusion_range e))
  | Err InvalidDescriptor => exists d, d ∈ map ∧ from_descriptor d = None
  | Err Capacity => (MAX_MEMORY_RUNS < length map + length es)%nat
  end.
Proof. intros Hmap Hes. by apply normalize_outcome. Qed.

Lemma memory_map_normalized_witness :
  exists m, normalize_memory_map
    [mk_descriptor 0x100000 0x100 true; mk_descriptor 0 0xA0 true; mk_descriptor 0x180000 0x40 false]
    [mk_exclusion (mk_run 0x1000 1) Kernel] = Ok m ∧ separated (runs m) ∧ total_pages m = 0x15F.
Proof.
  pose proof (memory_map_normalized
    [mk_descriptor 0x100000 0x100 true; mk_descriptor 0 0xA0 true; mk_descriptor 0x180000 0x40 false]
    [mk_exclusion (mk_run 0x1000 1) Kernel]) as H.
  destruct (normalize_memory_map _ _) as [m|err] eqn:E; [|by vm_compute in E].
  exists m. split; [done|]. destruct H as (_ & Hs & _).
  - by repeat constructor.
  - by repeat constructor.
  - split; [done|]. vm_compute in E. injection E as <-. reflexivity.
Defined.
