(* ===== verification/FrameLayout.v ===== *)
(** * Where the frame allocator keeps its metadata

    [FrameMetadataLayout] and [FrameMetadataRegion] of [src/src/memory.rs]: six
    arrays laid out one after the other in a region reserved at boot, and the
    binary search for the number of frames a region can describe.  The sizes
    and alignments of the array elements are chosen by the compiler and are
    parameters here; the theorems say that the arrays are aligned, inside the
    region and apart from each other, and that [capacity] is the largest count
    that fits. *)

From Stdlib Require Import ZArith Lia.
From stdpp Require Import base list option numbers.
From S2P Require Import Prelude MemoryMap.

#[local] Open Scope Z_scope.

(** [size_of] and [align_of] of the element types. *)
Class ElementSizes : Type := {
  record_size : Z;
  record_align : Z;
  word_size : Z;
  word_align : Z;
  heap_slot_size : Z;
  heap_slot_align : Z;
  heap_record_size : Z;
  heap_record_align : Z;
  heap_lease_size : Z;
  heap_lease_align : Z
}.

(** What is assumed of them: they are positive, as for every nonempty type,
    and none of these small structs reaches a kilobyte. *)
Definition element_ok (size align : Z) : Prop := 0 < align < 2 ^ 10 ∧ 0 < size < 2 ^ 10.

Class ElementSizesOk `{ElementSizes} : Prop := {
  record_ok : element_ok record_size record_align;
  word_ok : element_ok word_size word_align;
  heap_slot_ok : element_ok heap_slot_size heap_slot_align;
  heap_record_ok : element_ok heap_record_size heap_record_align;
  heap_lease_ok : element_ok heap_lease_size heap_lease_align
}.

Section layout.
Context `{Sizes : ElementSizes}.

Definition align_up (value alignment : Z) : option Z :=
  value ← checked_add 64 value (alignment - 1); Some (value / alignment * alignment).

Definition div_ceil (a b : Z) : Z := (a + b - 1) / b.

Record FrameMetadataLayout : Type := mk_layout {
  records_offset : Z;
  records_len : Z;
  free_offset : Z;
  free_len : Z;
  summary_offset : Z;
  summary_len : Z;
  heap_slots_offset : Z;
  heap_slots_len : Z;
  heap_records_offset : Z;
  heap_records_len : Z;
  heap_leases_offset : Z;
  heap_leases_len : Z;
  layout_bytes : Z
}.

Definition for_frames (frame_count : Z) : option FrameMetadataLayout :=
  records_offset ← align_up 0 record_align;
  records_bytes ← checked_mul 64 frame_count record_size;
  let free_len := div_ceil frame_count 64 in
  records_end ← checked_add 64 records_offset records_bytes;
  free_offset ← align_up records_end word_align;
  free_bytes ← checked_mul 64 free_len word_size;
  let summary_len := div_ceil free_len 64 in
  free_end ← checked_add 64 free_offset free_bytes;
  summary_offset ← align_up free_end word_align;
  summary_bytes ← checked_mul 64 summary_len word_size;
  summary_end ← checked_add 64 summary_offset summary_bytes;
  heap_slots_offset ← align_up summary_end heap_slot_align;
  heap_slots_bytes ← checked_mul 64 frame_count heap_slot_size;
  heap_slots_end ← checked_add 64 heap_slots_offset heap_slots_bytes;
  heap_records_offset ← align_up heap_slots_end heap_record_align;
  heap_records_bytes ← checked_mul 64 frame_count heap_record_size;
  heap_records_end ← checked_add 64 heap_records_offset heap_records_bytes;
  heap_leases_offset ← align_up heap_records_end heap_lease_align;
  heap_leases_bytes ← checked_mul 64 frame_count heap_lease_size;
  bytes ← checked_add 64 heap_leases_offset heap_leases_bytes;
  Some (mk_layout records_offset frame_count free_offset free_len summary_offset summary_len
          heap_slots_offset frame_count heap_records_offset frame_count heap_leases_offset frame_count bytes).

Record FrameMetadataRegion : Type := mk_region { region_base : Z; region_bytes : Z }.

Definition region_new (base bytes : Z) : option FrameMetadataRegion :=
  if (base =? 0) || negb (base mod PAGE_SIZE =? 0) || (bytes <? PAGE_SIZE) || negb (bytes mod PAGE_SIZE =? 0)
  then None
  else _ ← checked_add 64 base bytes; Some (mk_region base bytes).

(** The binary search of [capacity]; [None] ends it early when a layout does
    not fit the address space. *)
Fixpoint capacity_loop (fuel : nat) (bytes low high : Z) : option Z :=
  match fuel with
  | O => None
  | S fuel =>
      if low <? high then
        let middle := low + div_ceil (high - low) 2 in
        layout ← for_frames middle;
        if layout_bytes layout <=? bytes then capacity_loop fuel bytes middle high
        else capacity_loop fuel bytes low (middle - 1)
      else Some low
  end.

(** 65 rounds: the interval, below [2^64] at first, at least halves each time. *)
Definition capacity (r : FrameMetadataRegion) : option Z :=
  capacity_loop 65 (region_bytes r) 0 (region_bytes r / record_size).

Definition region_layout (r : FrameMetadataRegion) (frame_count : Z) : option FrameMetadataLayout :=
  layout ← for_frames frame_count;
  if layout_bytes layout <=? region_bytes r then Some layout else None.

Definition frame_metadata_pages_for_frames (frame_count : Z) : option Z :=
  layout ← for_frames frame_count;
  bytes ← checked_add 64 (layout_bytes layout) (PAGE_SIZE - 1);
  Some (bytes / PAGE_SIZE).
End layout.

(** ** The layout *)

Section layout_spec.
Context `{Sizes : ElementSizes} {Hok : ElementSizesOk}.

Lemma align_up_Some v a u : 0 < a -> align_up v a = Some u -> v <= u < v + a ∧ u mod a = 0.
Proof.
  intros Ha E. unfold align_up, checked_add in E. destruct (_ <? _); [|done]. simpl in E. injection E as <-.
  split; [|by apply Z_mod_mult]. pose proof (Z.div_mod (v + (a - 1)) a ltac:(lia)).
  pose proof (Z.mod_pos_bound (v + (a - 1)) a Ha). lia.
Qed.

Lemma align_up_mono a v v' u u' : 0 < a -> v <= v' -> align_up v a = Some u -> align_up v' a = Some u' -> u <= u'.
Proof.
  intros Ha Hv E E'. unfold align_up, checked_add in E, E'. destruct (_ <? _) in E; [|done].
  destruct (_ <? _) in E'; [|done]. simpl in E, E'. injection E as <-. injection E' as <-.
  apply Z.mul_le_mono_nonneg_r; [lia|]. apply Z.div_le_mono; lia.
Qed.

Lemma align_up_ok v a : 0 < a -> v + a <= 2 ^ 64 -> exists u, align_up v a = Some u.
Proof.
  intros Ha Hv. unfold align_up, checked_add. destruct (Z.ltb_spec (v + (a - 1)) (2 ^ 64)); [|lia]. eauto.
Qed.

Lemma checked_add_Some v w u : checked_add 64 v w = Some u -> u = v + w.
Proof. unfold checked_add. destruct (_ <? _); [by intros [= <-]|done]. Qed.

Lemma checked_mul_Some v w u : checked_mul 64 v w = Some u -> u = v * w.
Proof. unfold checked_mul. destruct (_ <? _); [by intros [= <-]|done]. Qed.

(** Each array ends where the next one may start. *)
Inductive lays_out (n : Z) : FrameMetadataLayout -> Prop :=
| lays_out_intro r f s hs hr hl bytes :
    align_up 0 record_align = Some r ->
    align_up (r + n * record_size) word_align = Some f ->
    align_up (f + div_ceil n 64 * word_size) word_align = Some s ->
    align_up (s + div_ceil (div_ceil n 64) 64 * word_size) heap_slot_align = Some hs ->
    align_up (hs + n * heap_slot_size) heap_record_align = Some hr ->
    align_up (hr + n * heap_record_size) heap_lease_align = Some hl ->
    bytes = hl + n * heap_lease_size ->
    lays_out n (mk_layout r n f (div_ceil n 64) s (div_ceil (div_ceil n 64) 64) hs n hr n hl n bytes).

Lemma for_frames_Some n l : for_frames n = Some l -> lays_out n l.
Proof.
  intros E. unfold for_frames in E.
  repeat match type of E with
  | (_ ≫= _) = Some _ => apply bind_Some in E as (? & ? & E)
  | Some _ = Some _ => injection E as <-
  end.
  repeat match goal with
  | H : checked_mul 64 _ _ = Some _ |- _ => apply checked_mul_Some in H
  | H : checked_add 64 _ _ = Some _ |- _ => apply checked_add_Some in H
  end. subst. by constructor.
Qed.

Lemma div_ceil_bounds n : 0 <= n -> 0 <= div_ceil n 64 <= n.
Proof.
  intros Hn. unfold div_ceil. split; [apply Z.div_pos; lia|].
  destruct (decide (n = 0)) as [->|]; [done|]. apply Z.div_le_upper_bound; lia.
Qed.

Lemma div_ceil_covers n : n <= 64 * div_ceil n 64.
Proof.
  unfold div_ceil. pose proof (Z.div_mod (n + 64 - 1) 64 ltac:(lia)).
  pose proof (Z.mod_pos_bound (n + 64 - 1) 64 ltac:(lia)). lia.
Qed.

Lemma div_ceil_mono n m : n <= m -> div_ceil n 64 <= div_ceil m 64.
Proof. intros H. unfold div_ceil. apply Z.div_le_mono; lia. Qed.

Lemma for_frames_ok n : 0 <= n <= 2 ^ 50 -> exists l, for_frames n = Some l.
Proof.
  intros Hn. destruct record_ok, word_ok, heap_slot_ok, heap_record_ok, heap_lease_ok.
  pose proof (div_ceil_bounds n ltac:(lia)). pose proof (div_ceil_bounds (div_ceil n 64) ltac:(lia)).
  assert (Hm : forall k s, 0 <= k <= n -> 0 < s < 2 ^ 10 -> 0 <= k * s <= 2 ^ 60 ∧ checked_mul 64 k s = Some (k * s)).
  { intros k s Hk Hs. assert (0 <= k * s <= 2 ^ 60) by nia. split; [done|]. unfold checked_mul.
    destruct (Z.ltb_spec (k * s) (2 ^ 64)); [done|lia]. }
  assert (Ha : forall v w, v + w < 2 ^ 64 -> checked_add 64 v w = Some (v + w)).
  { intros v w Hv. unfold checked_add. by destruct (Z.ltb_spec (v + w) (2 ^ 64)); [|lia]. }
  assert (Hu : forall v a, 0 < a < 2 ^ 10 -> 0 <= v < 2 ^ 63 -> exists u, align_up v a = Some u ∧ 0 <= u < v + 2 ^ 10).
  { intros v a Ha' Hv. destruct (align_up_ok v a) as [u E]; [lia|lia|]. exists u. split; [done|].
    apply align_up_Some in E; lia. }
  unfold for_frames.
  destruct (Hu 0 record_align) as (u1 & -> & ?); [done|lia|]. cbn [mbind option_bind].
  destruct (Hm n record_size) as [? ->]; [lia|done|]. cbn [mbind option_bind]. rewrite Ha by lia. cbn [mbind option_bind].
  destruct (Hu (u1 + n * record_size) word_align) as (u2 & -> & ?); [done|lia|]. cbn [mbind option_bind].
  destruct (Hm (div_ceil n 64) word_size) as [? ->]; [lia|done|]. cbn [mbind option_bind]. rewrite Ha by lia. cbn [mbind option_bind].
  destruct (Hu (u2 + div_ceil n 64 * word_size) word_align) as (u3 & -> & ?); [done|lia|]. cbn [mbind option_bind].
  destruct (Hm (div_ceil (div_ceil n 64) 64) word_size) as [? ->]; [lia|done|]. cbn [mbind option_bind].
  rewrite Ha by lia. cbn [mbind option_bind].
  destruct (Hu (u3 + div_ceil (div_ceil n 64) 64 * word_size) heap_slot_align) as (u4 & -> & ?); [done|lia|]. cbn [mbind option_bind].
  destruct (Hm n heap_slot_size) as [? ->]; [lia|done|]. cbn [mbind option_bind]. rewrite Ha by lia. cbn [mbind option_bind].
  destruct (Hu (u4 + n * heap_slot_size) heap_record_align) as (u5 & -> & ?); [done|lia|]. cbn [mbind option_bind].
  destruct (Hm n heap_record_size) as [? ->]; [lia|done|]. cbn [mbind option_bind]. rewrite Ha by lia. cbn [mbind option_bind].
  destruct (Hu (u5 + n * heap_record_size) heap_lease_align) as (u6 & -> & ?); [done|lia|]. cbn [mbind option_bind].
  destruct (Hm n heap_lease_size) as [? ->]; [lia|done|]. cbn [mbind option_bind]. rewrite Ha by lia. cbn [mbind option_bind].
  by eexists.
Qed.

(** Sums of products with the positive element sizes grow with the count. *)
Lemma for_frames_mono n m l l' : 0 <= n <= m -> for_frames n = Some l -> for_frames m = Some l' ->
  layout_bytes l <= layout_bytes l'.
Proof.
  intros Hnm E%for_frames_Some E'%for_frames_Some. destruct record_ok, word_ok, heap_slot_ok, heap_record_ok, heap_lease_ok.
  pose proof (div_ceil_mono n m ltac:(lia)). pose proof (div_ceil_mono (div_ceil n 64) (div_ceil m 64) ltac:(lia)).
  destruct E as [r f s hs hr hl b E1 E2 E3 E4 E5 E6 ->], E' as [r' f' s' hs' hr' hl' b' F1 F2 F3 F4 F5 F6 ->]. simpl.
  rewrite E1 in F1. injection F1 as <-.
  assert (f <= f') by (eapply align_up_mono; [| |exact E2|exact F2]; [lia|nia]).
  assert (s <= s') by (eapply align_up_mono; [| |exact E3|exact F3]; [lia|nia]).
  assert (hs <= hs') by (eapply align_up_mono; [| |exact E4|exact F4]; [lia|nia]).
  assert (hr <= hr') by (eapply align_up_mono; [| |exact E5|exact F5]; [lia|nia]).
  assert (hl <= hl') by (eapply align_up_mono; [| |exact E6|exact F6]; [lia|nia]). nia.
Qed.

Lemma for_frames_records n l : 0 <= n -> for_frames n = Some l -> n * record_size <= layout_bytes l.
Proof.
  intros Hn E%for_frames_Some. destruct record_ok, word_ok, heap_slot_ok, heap_record_ok, heap_lease_ok.
  pose proof (div_ceil_bounds n Hn). pose proof (div_ceil_bounds (div_ceil n 64) ltac:(lia)).
  destruct E as [r f s hs hr hl b E1 E2 E3 E4 E5 E6 ->]. simpl.
  apply align_up_Some in E1, E2, E3, E4, E5, E6; nia.
Qed.

Definition region_holds (bytes n : Z) : Prop := exists l, for_frames n = Some l ∧ layout_bytes l <= bytes.

Lemma capacity_loop_spec bytes fuel : forall low high,
  0 <= low <= high -> high <= 2 ^ 50 -> high - low < 2 ^ Z.of_nat fuel -> region_holds bytes low ->
  (forall n, high < n -> ¬ region_holds bytes n) ->
  exists n, capacity_loop (S fuel) bytes low high = Some n ∧ region_holds bytes n ∧
    forall k, n < k -> ¬ region_holds bytes k.
Proof.
  induction fuel as [|fuel IH]; intros low high Hl Hh Hf Hlow Hhigh; cbn [capacity_loop].
  { destruct (Z.ltb_spec low high); [simpl in Hf; lia|]. assert (low = high) as -> by (simpl in Hf; lia).
    exists high. done. }
  destruct (Z.ltb_spec low high); [|assert (low = high) as -> by lia; by exists high].
  set (mid := low + div_ceil (high - low) 2).
  assert (Hd : div_ceil (high - low) 2 = (high - low + 1) / 2) by (unfold div_ceil; f_equal; lia).
  pose proof (Z.div_mod (high - low + 1) 2 ltac:(lia)). pose proof (Z.mod_pos_bound (high - low + 1) 2 ltac:(lia)).
  rewrite Nat2Z.inj_succ, Z.pow_succ_r in Hf by lia.
  destruct (for_frames_ok mid) as [l El]; [unfold mid; lia|]. rewrite El. cbn [mbind option_bind].
  destruct (Z.leb_spec (layout_bytes l) bytes).
  - apply IH; [unfold mid; lia|lia|unfold mid; lia|by exists l|done].
  - apply IH; [unfold mid; lia|lia|unfold mid; lia|done|].
    intros n Hn (l' & El' & Hb). pose proof (for_frames_mono mid n l l' ltac:(unfold mid; lia) El El'). lia.
Qed.
End layout_spec.

(** The metadata arrays do not collide.  Whatever the element sizes, every
    array of a layout starts aligned, after the end of the one before it, and
    the last one ends at the layout's byte count; [capacity] of a region below
    a pebibyte answers the largest number of frames whose layout fits it. *)
Theorem frame_layout_sound `{Sizes : ElementSizes} {Hok : ElementSizesOk} r n l :
  0 <= n -> region_bytes r < 2 ^ 50 -> 0 <= region_bytes r -> region_layout r n = Some l ->
  (records_offset l mod record_align = 0 ∧ free_offset l mod word_align = 0 ∧
   summary_offset l mod word_align = 0 ∧ heap_slots_offset l mod heap_slot_align = 0 ∧
   heap_records_offset l mod heap_record_align = 0 ∧ heap_leases_offset l mod heap_lease_align = 0) ∧
  (0 <= records_offset l ∧ records_offset l + records_len l * record_size <= free_offset l ∧
   free_offset l + free_len l * word_size <= summary_offset l ∧
   summary_offset l + summary_len l * word_size <= heap_slots_offset l ∧
   heap_slots_offset l + heap_slots_len l * heap_slot_size <= heap_records_offset l ∧
   heap_records_offset l + heap_records_len l * heap_record_size <= heap_leases_offset l ∧
   heap_leases_offset l + heap_leases_len l * heap_lease_size <= region_bytes r) ∧
  n <= 64 * free_len l ∧ free_len l <= 64 * summary_len l ∧
  exists c, capacity r = Some c ∧ n <= c ∧ region_layout r c ≠ None ∧
    forall k, c < k -> region_layout r k = None.
Proof.
  intros Hn Hb Hb0 E. unfold region_layout in E. apply bind_Some in E as (l' & El & E).
  destruct (Z.leb_spec (layout_bytes l') (region_bytes r)) as [Hle|]; [|done]. injection E as ->.
  pose proof (for_frames_Some n l El) as HL. destruct record_ok, word_ok, heap_slot_ok, heap_record_ok, heap_lease_ok.
  split; [|split; [|split; [|split]]].
  - destruct HL as [r' f s hs hr hl b E1 E2 E3 E4 E5 E6 ->].
    apply align_up_Some in E1, E2, E3, E4, E5, E6; try lia. simpl. by destruct_and!.
  - destruct HL as [r' f s hs hr hl b E1 E2 E3 E4 E5 E6 ->].
    apply align_up_Some in E1, E2, E3, E4, E5, E6; try lia. simpl in *. lia.
  - destruct HL. simpl. apply div_ceil_covers.
  - destruct HL. simpl. apply div_ceil_covers.
  - assert (Hhi : region_bytes r / record_size <= 2 ^ 50).
    { apply Z.div_le_upper_bound; nia. }
    destruct (capacity_loop_spec (region_bytes r) 64 0 (region_bytes r / record_size))
      as (c & Ec & (lc & Elc & Hlc) & Hmax).
    + split; [lia|]. apply Z.div_pos; lia.
    + done.
    + simpl Z.of_nat. lia.
    + destruct (for_frames_ok 0 ltac:(lia)) as [l0 E0]. exists l0. split; [done|].
      etrans; [|exact Hle]. eapply for_frames_mono; [|exact E0|exact El]. lia.
    + intros k Hk (lk & Ek & Hlk). pose proof (Z.div_mod (region_bytes r) (@record_size Sizes) ltac:(lia)).
      pose proof (Z.mod_pos_bound (region_bytes r) (@record_size Sizes) ltac:(lia)).
      assert (0 <= region_bytes r / record_size) by (apply Z.div_pos; lia).
      pose proof (for_frames_records k lk ltac:(lia) Ek). nia.
    + exists c. split; [exact Ec|]. split.
      { destruct (decide (c < n)) as [Hcn|]; [|lia]. destruct (Hmax n Hcn). by exists l. }
      unfold region_layout. rewrite Elc. cbn [mbind option_bind]. split.
      { by destruct (Z.leb_spec (layout_bytes lc) (region_bytes r)); [|lia]. }
      intros k Hk. destruct (for_frames k) as [lk|] eqn:Ek; [|done]. cbn [mbind option_bind].
      destruct (Z.leb_spec (layout_bytes lk) (region_bytes r)); [|done]. destruct (Hmax k Hk). by exists lk.
Qed.

(** The sizes a 64-bit build has. *)
#[local] Instance example_sizes : ElementSizes :=
  Build_ElementSizes 6 2 8 8 112 8 40 8 56 8.

Lemma frame_layout_sound_witness :
  exists l c, region_layout (mk_region 0x200000 0x10000) 250 = Some l ∧
    free_offset l + free_len l * word_size <= summary_offset l ∧
    capacity (mk_region 0x200000 0x10000) = Some c ∧ 250 <= c.
Proof.
  assert (Hok : ElementSizesOk) by (split; split; simpl; lia).
  destruct (region_layout (mk_region 0x200000 0x10000) 250) as [l|] eqn:E; [|by vm_compute in E].
  destruct (frame_layout_sound (mk_region 0x200000 0x10000) 250 l) as (_ & Hd & _ & _ & c & Hc & Hn & _);
    [lia|simpl; lia|simpl; lia|done|].
  exists l, c. split; [done|]. split; [apply Hd|]. by split.
Defined.

