(* ===== verification/Frames.v ===== *)
(** * The physical frame manager

    [PhysicalFrameManager] of [src/src/memory.rs]: one record per frame, a
    bitmap of free frames and a second bitmap of the words of the first that
    are not zero.  Frames are handed out as leases stamped with the generation
    of their record.

    An operation is a function on the manager with [None] where the source
    would panic on an index out of range; the theorems show that it never
    does.  The metadata arrays are lists as long as the layout makes them
    ([FrameLayout]).  A [usize] that counts frames, slots or runs is a [nat]. *)

From Stdlib Require Import ZArith Lia.
From stdpp Require Import base list option numbers.
From S2P Require Import Prelude MemoryMap FrameLayout.

#[local] Open Scope Z_scope.

Definition INITIAL_FRAME_GENERATION : Z := 1.
Definition FREE : Z := 0.
Definition ACTIVE : Z := 1.
Definition ZEROED : Z := 3.
Definition MAX_BATCH_FRAMES : nat := 64.

(** ** Data *)

Record FrameId : Type := mk_id { id_run : nat; id_offset : nat }.

Definition id_new (run offset : nat) : option FrameId :=
  if (U16_MAX <? Z.of_nat run) || (U32_MAX <? Z.of_nat offset) then None else Some (mk_id run offset).

(** [OwnerId]: a 16-bit word, zero for no owner. *)
Abbreviation OwnerId := Z (only parsing).
Definition KERNEL : OwnerId := 1.
Definition owner_new (raw : Z) : option OwnerId := if raw =? 0 then None else Some raw.

Inductive FrameState : Type := Zeroed | Dirty | Reserved.

Record FrameAddress : Type := mk_address {
  address_raw : Z;
  address_id : option FrameId;
  address_generation : Z
}.

Definition address_from_raw (raw : Z) : FrameAddress := mk_address raw None 0.

(** The derived equality of a lease compares the addresses by [raw] alone. *)
Record FrameLease : Type := mk_lease {
  lease_address : FrameAddress;
  lease_id : FrameId;
  lease_generation : Z;
  lease_owner : OwnerId;
  lease_state : FrameState;
  home_cpu : nat;
  lease_slot : nat
}.

Inductive FrameError : Type :=
| InvalidMap
| Capacity
| Exhausted
| InvalidFrame
| StaleHandle
| WrongOwner
| AlreadyUsed
| NotReservation
| BatchCapacity.

Record FrameRecord : Type := mk_record {
  record_generation : Z;
  record_owner : OwnerId;
  record_state : Z
}.

#[export] Instance FrameId_eq_dec : EqDecision FrameId.
Proof. solve_decision. Defined.
#[export] Instance FrameState_eq_dec : EqDecision FrameState.
Proof. solve_decision. Defined.
#[export] Instance FrameError_eq_dec : EqDecision FrameError.
Proof. solve_decision. Defined.

Definition EMPTY_RECORD : FrameRecord := mk_record INITIAL_FRAME_GENERATION 0 FREE.

Record RunMetadata : Type := mk_meta {
  meta_run : PhysicalRun;
  first_slot : nat;
  meta_pages : nat
}.

Definition EMPTY_META : RunMetadata := mk_meta (mk_run 0 0) 0 0.

Record PhysicalFrameManager : Type := mk_manager {
  metas : list RunMetadata;
  run_count : nat;
  frame_count : nat;
  records : list FrameRecord;
  free_words : list Z;
  summary_words : list Z
}.

Definition empty : PhysicalFrameManager := mk_manager (replicate MAX_MEMORY_RUNS EMPTY_META) 0 0 [] [] [].

Definition with_records (m : PhysicalFrameManager) (rs : list FrameRecord) : PhysicalFrameManager :=
  mk_manager (metas m) (run_count m) (frame_count m) rs (free_words m) (summary_words m).
Definition with_words (m : PhysicalFrameManager) (free summary : list Z) : PhysicalFrameManager :=
  mk_manager (metas m) (run_count m) (frame_count m) (records m) free summary.

(** [frames[..len]] of a [FrameBatch]. *)
Definition batch_push (batch : list FrameLease) (l : FrameLease) : result (list FrameLease) FrameError :=
  if (length batch <? MAX_BATCH_FRAMES)%nat then Ok (batch ++ [l]) else Err BatchCapacity.

(** ** Words *)

Definition bit_of (k : nat) : Z := Z.shiftl 1 (Z.of_nat k).

(** [u64::trailing_zeros]. *)
Definition trailing_zeros (w : Z) : nat :=
  default 64%nat (list_find (fun k => Z.testbit w (Z.of_nat k) = true) (seq 0 64) ≫= (fun p => Some p.2)).

(** [u64::count_ones]. *)
Definition count_ones (w : Z) : nat :=
  length (filter (fun k => Z.testbit w (Z.of_nat k) = true) (seq 0 64)).

Definition next_frame_generation (current : Z) : Z :=
  let next := wrapping_add 16 current 1 in
  if next =? 0 then INITIAL_FRAME_GENERATION else next.

Section manager.
Implicit Types (m : PhysicalFrameManager) (slot : nat) (l : FrameLease).

Definition is_free m slot : option bool :=
  w ← free_words m !! (slot / 64)%nat;
  Some (negb (Z.land w (bit_of (slot mod 64)) =? 0)).

Definition set_free m slot : option PhysicalFrameManager :=
  let word := (slot / 64)%nat in
  w ← free_words m !! word;
  let free := <[word := Z.lor w (bit_of (slot mod 64))]> (free_words m) in
  s ← summary_words m !! (word / 64)%nat;
  Some (with_words m free (<[(word / 64)%nat := Z.lor s (bit_of (word mod 64))]> (summary_words m))).

(** [x & !y] on words is [Z.ldiff]. *)
Definition clear_free m slot : option PhysicalFrameManager :=
  let word := (slot / 64)%nat in
  w ← free_words m !! word;
  let w' := Z.ldiff w (bit_of (slot mod 64)) in
  let free := <[word := w']> (free_words m) in
  if w' =? 0 then
    s ← summary_words m !! (word / 64)%nat;
    Some (with_words m free (<[(word / 64)%nat := Z.ldiff s (bit_of (word mod 64))]> (summary_words m)))
  else Some (with_words m free (summary_words m)).

(** The inner loop of [find_free_slot]; each round clears a bit of [words], so
    64 rounds are enough. *)
Fixpoint find_in_words (fuel : nat) m (first last si : nat) (words : Z) : option (option nat) :=
  match fuel with
  | O => None
  | S fuel =>
      if words =? 0 then Some None
      else
        let word_index := (si * 64 + trailing_zeros words)%nat in
        bits ← free_words m !! word_index;
        let bits := if (word_index =? first / 64)%nat
                    then Z.land bits (wrap 64 (Z.shiftl U64_MAX (Z.of_nat (first mod 64)))) else bits in
        let bits := if (word_index =? (last - 1) / 64)%nat && negb (last mod 64 =? 0)%nat
                    then Z.land bits (bit_of (last mod 64) - 1) else bits in
        if negb (bits =? 0) then Some (Some (word_index * 64 + trailing_zeros bits)%nat)
        else find_in_words fuel m first last si (Z.land words (words - 1))
  end.

Definition WORD_ROUNDS : nat := 65.

(** The loop over [first_summary..=last_summary]. *)
Fixpoint find_in_summary (indices : list nat) m (first last : nat) : option (option nat) :=
  match indices with
  | [] => Some None
  | si :: indices =>
      words ← summary_words m !! si;
      let words := if (si =? first / 64 / 64)%nat
                   then Z.land words (wrap 64 (Z.shiftl U64_MAX (Z.of_nat ((first / 64) mod 64)))) else words in
      let words := if (si =? (last - 1) / 64 / 64)%nat && negb (((last - 1) / 64) mod 64 =? 63)%nat
                   then Z.land words (bit_of (((last - 1) / 64) mod 64 + 1) - 1) else words in
      found ← find_in_words WORD_ROUNDS m first last si words;
      match found with
      | Some slot => Some (Some slot)
      | None => find_in_summary indices m first last
      end
  end.

Definition find_free_slot m (first last : nat) : option (option nat) :=
  if (first =? last)%nat then Some None
  else
    let first_summary := (first / 64 / 64)%nat in
    let last_summary := ((last - 1) / 64 / 64)%nat in
    find_in_summary (seq first_summary (S last_summary - first_summary)) m first last.

(** ** Identities and addresses *)

(** The binary search over the runs; [fuel] bounds [high - low]. *)
Fixpoint search_slot (fuel : nat) m slot (low high : nat) : option (option FrameId) :=
  match fuel with
  | O => None
  | S fuel =>
      if (low <? high)%nat then
        let middle := ((low + high) / 2)%nat in
        r ← metas m !! middle;
        if (slot <? first_slot r)%nat then search_slot fuel m slot low middle
        else if (first_slot r + meta_pages r <=? slot)%nat then search_slot fuel m slot (middle + 1) high
        else Some (id_new middle (slot - first_slot r))
      else Some None
  end.

Definition id_for_slot m slot : option (option FrameId) := search_slot (S (run_count m)) m slot 0 (run_count m).

Definition slot_for_id m (id : FrameId) : option nat :=
  r ← metas m !! id_run id;
  if (id_offset id <? meta_pages r)%nat then Some (first_slot r + id_offset id)%nat else None.

(** The outer [option] is the panic of [records()[slot]]. *)
Definition address m (id : FrameId) : option (option FrameAddress) :=
  match slot_for_id m id with
  | None => Some None
  | Some slot =>
      match metas m !! id_run id with
      | None => Some None
      | Some r =>
          match (bytes ← checked_mul 64 (Z.of_nat (id_offset id)) PAGE_SIZE;
                 checked_add 64 (run_start (meta_run r)) bytes) with
          | None => Some None
          | Some raw =>
              rec ← records m !! slot;
              Some (Some (mk_address raw (Some id) (record_generation rec)))
          end
      end
  end.

Fixpoint search_address (fuel : nat) m (raw : Z) (low high : nat) : option (option FrameId) :=
  match fuel with
  | O => None
  | S fuel =>
      if (low <? high)%nat then
        let middle := ((low + high) / 2)%nat in
        r ← metas m !! middle;
        if raw <? run_start (meta_run r) then search_address fuel m raw low middle
        else
          match run_end (meta_run r) with
          | None => Some None
          | Some e =>
              if e <=? raw then search_address fuel m raw (middle + 1) high
              else Some (id_new middle (Z.to_nat ((raw - run_start (meta_run r)) / PAGE_SIZE)))
          end
      else Some None
  end.

Definition id_for_address m (raw : Z) : option (option FrameId) :=
  if negb (raw mod PAGE_SIZE =? 0) then Some None
  else search_address (S (run_count m)) m raw 0 (run_count m).

(** ** Claiming and releasing one frame *)

(** A fallible operation: the new manager and the answer. *)
Abbreviation outcome A := (option (PhysicalFrameManager * result A FrameError)) (only parsing).

Definition state_code (s : FrameState) : Z :=
  match s with Reserved => 2 | Zeroed => ZEROED | Dirty => ACTIVE end.

(** The end of [claim_used] and [refresh]: the lease on a record just stamped. *)
Definition lease_on m slot (generation : Z) (owner : OwnerId) (state : FrameState) (cpu slot32 : nat) :
    option (result FrameLease FrameError) :=
  found ← id_for_slot m slot;
  match found with
  | None => Some (Err InvalidFrame)
  | Some id =>
      a ← address m id;
      match a with
      | None => Some (Err InvalidFrame)
      | Some a => Some (Ok (mk_lease a id generation owner state cpu slot32))
      end
  end.

Definition claim_used m slot (owner : OwnerId) (state : FrameState) : outcome FrameLease :=
  rec ← records m !! slot;
  let generation := next_frame_generation (record_generation rec) in
  let m := with_records m (<[slot := mk_record generation owner (state_code state)]> (records m)) in
  r ← lease_on m slot generation owner state 0 (Z.to_nat (wrap 32 (Z.of_nat slot)));
  Some (m, r).

Definition claim m slot (owner : OwnerId) (state : FrameState) : outcome FrameLease :=
  m ← clear_free m slot; claim_used m slot owner state.

Definition release_slot m slot : option PhysicalFrameManager :=
  rec ← records m !! slot;
  set_free (with_records m (<[slot := mk_record (record_generation rec) 0 FREE]> (records m))) slot.

Definition validate_lease m l : result nat FrameError :=
  match records m !! lease_slot l with
  | None => Err InvalidFrame
  | Some rec =>
      if record_state rec =? FREE then Err StaleHandle
      else if negb (record_generation rec =? lease_generation l) then Err StaleHandle
      else if negb (record_owner rec =? lease_owner l) then Err WrongOwner
      else
        let state := if record_state rec =? ACTIVE then Some Dirty
                     else if record_state rec =? ZEROED then Some Zeroed
                     else if record_state rec =? 2 then Some Reserved else None in
        match state with
        | None => Err StaleHandle
        | Some state => if decide (state = lease_state l) then Ok (lease_slot l) else Err StaleHandle
        end
  end.

Definition validate m l : result unit FrameError :=
  match validate_lease m l with Ok _ => Ok tt | Err e => Err e end.

Definition try_alloc_in_range m (owner : OwnerId) (state : FrameState) (first last : nat) : outcome FrameLease :=
  if (owner =? 0) || (last <? first)%nat || (frame_count m <? last)%nat then Some (m, Err InvalidFrame)
  else
    found ← find_free_slot m first last;
    match found with
    | None => Some (m, Err Exhausted)
    | Some slot => claim m slot owner state
    end.

Definition try_alloc m (owner : OwnerId) (state : FrameState) : outcome FrameLease :=
  try_alloc_in_range m owner state 0 (frame_count m).

Definition free m l : outcome unit :=
  match validate_lease m l with
  | Err e => Some (m, Err e)
  | Ok slot => m ← release_slot m slot; Some (m, Ok tt)
  end.

Definition refresh m l : outcome FrameLease :=
  match validate_lease m l with
  | Err e => Some (m, Err e)
  | Ok slot =>
      rec ← records m !! slot;
      let generation := next_frame_generation (record_generation rec) in
      let m := with_records m
                 (<[slot := mk_record generation (record_owner rec) (record_state rec)]> (records m)) in
      r ← lease_on m slot generation (lease_owner l) (lease_state l) (home_cpu l) (lease_slot l);
      Some (m, r)
  end.

Definition release_address m (a : FrameAddress) : outcome unit :=
  found ← match address_id a with Some id => Some (Some id) | None => id_for_address m (address_raw a) end;
  match found with
  | None => Some (m, Err InvalidFrame)
  | Some id =>
      match slot_for_id m id with
      | None => Some (m, Err InvalidFrame)
      | Some slot =>
          rec ← records m !! slot;
          if record_state rec =? FREE then Some (m, Err StaleHandle)
          else if negb (address_generation a =? 0) && negb (address_generation a =? record_generation rec)
          then Some (m, Err StaleHandle)
          else
            let state := if record_state rec =? ZEROED then Zeroed
                         else if record_state rec =? 2 then Reserved else Dirty in
            full ← address m id;
            match full with
            | None => Some (m, Err InvalidFrame)
            | Some full =>
                free m (mk_lease full id (record_generation rec) (record_owner rec) state 0
                          (Z.to_nat (wrap 32 (Z.of_nat slot))))
            end
      end
  end.

Definition reserve m (a : FrameAddress) (owner : OwnerId) : outcome FrameLease :=
  found ← id_for_address m (address_raw a);
  match found with
  | None => Some (m, Err InvalidFrame)
  | Some id =>
      match slot_for_id m id with
      | None => Some (m, Err InvalidFrame)
      | Some slot =>
          b ← is_free m slot;
          if negb b then Some (m, Err AlreadyUsed)
          else m ← clear_free m slot; claim_used m slot owner Reserved
      end
  end.

Definition release_reservation m l : outcome unit :=
  match validate_lease m l with
  | Err e => Some (m, Err e)
  | Ok slot =>
      if decide (lease_state l = Reserved) then m ← release_slot m slot; Some (m, Ok tt)
      else Some (m, Err NotReservation)
  end.

(** ** Batches *)

Fixpoint validate_all m (batch : list FrameLease) : result unit FrameError :=
  match batch with
  | [] => Ok tt
  | l :: batch => match validate_lease m l with Err e => Err e | Ok _ => validate_all m batch end
  end.

Fixpoint free_all m (batch : list FrameLease) : outcome unit :=
  match batch with
  | [] => Some (m, Ok tt)
  | l :: batch =>
      '(m, r) ← free m l;
      match r with Err e => Some (m, Err e) | Ok _ => free_all m batch end
  end.

Definition free_batch m (batch : list FrameLease) : outcome unit :=
  match validate_all m batch with
  | Err e => Some (m, Err e)
  | Ok _ => free_all m batch
  end.

(** [self.metadata.free()[..self.frame_count.div_ceil(64)]]. *)
Definition available_frames m : option nat :=
  let words := ((frame_count m + 63) / 64)%nat in
  if (words <=? length (free_words m))%nat
  then Some (sum_list (count_ones <$> take words (free_words m))) else None.

(** A loop that collects leases and gives them back when one cannot be had. *)
Fixpoint collect_batch {A} (step : PhysicalFrameManager -> A -> outcome FrameLease) m (items : list A)
    (batch : list FrameLease) : outcome (list FrameLease) :=
  match items with
  | [] => Some (m, Ok batch)
  | x :: items =>
      '(m, r) ← step m x;
      match r with
      | Err e => '(m, freed) ← free_batch m batch; Some (m, Err e)
      | Ok l =>
          match batch_push batch l with
          | Err _ => Some (m, Err BatchCapacity)
          | Ok batch => collect_batch step m items batch
          end
      end
  end.

Definition alloc_batch m (owner : OwnerId) (count : nat) (state : FrameState) : outcome (list FrameLease) :=
  if (count =? 0)%nat || (MAX_BATCH_FRAMES <? count)%nat then Some (m, Err BatchCapacity)
  else
    n ← available_frames m;
    if (n <? count)%nat then Some (m, Err Exhausted)
    else collect_batch (fun m _ => try_alloc m owner state) m (seq 0 count) [].

Definition reserve_batch m (addresses : list FrameAddress) (owner : OwnerId) : outcome (list FrameLease) :=
  if (length addresses =? 0)%nat || (MAX_BATCH_FRAMES <? length addresses)%nat
  then Some (m, Err BatchCapacity)
  else collect_batch (fun m a => reserve m a owner) m addresses [].

(** [(first..first + count).all(|slot| self.is_free(slot))]. *)
Fixpoint all_free m (first count : nat) : option bool :=
  match count with
  | O => Some true
  | S count => b ← is_free m first; if (b : bool) then all_free m (S first) count else Some false
  end.

Fixpoint claim_range m (first count : nat) (owner : OwnerId) (state : FrameState) (batch : list FrameLease) :
    outcome (list FrameLease) :=
  match count with
  | O => Some (m, Ok batch)
  | S count =>
      '(m, r) ← claim m first owner state;
      match r with
      | Err e => Some (m, Err e)
      | Ok l =>
          match batch_push batch l with
          | Err e => Some (m, Err e)
          | Ok batch => claim_range m (S first) count owner state batch
          end
      end
  end.

(** The loop over the offsets of a run; an inner [None] goes on to the next run. *)
Fixpoint try_firsts (firsts : list nat) m (count : nat) (owner : OwnerId) (state : FrameState) :
    option (option (PhysicalFrameManager * result (list FrameLease) FrameError)) :=
  match firsts with
  | [] => Some None
  | first :: firsts =>
      b ← all_free m first count;
      if (b : bool) then r ← claim_range m first count owner state []; Some (Some r)
      else try_firsts firsts m count owner state
  end.

Fixpoint try_runs (rs : list RunMetadata) m (count : nat) (owner : OwnerId) (state : FrameState) :
    outcome (list FrameLease) :=
  match rs with
  | [] => Some (m, Err Exhausted)
  | r :: rs =>
      if (meta_pages r <? count)%nat then try_runs rs m count owner state
      else
        found ← try_firsts (seq (first_slot r) (S (meta_pages r - count))) m count owner state;
        match found with
        | Some res => Some res
        | None => try_runs rs m count owner state
        end
  end.

Definition alloc_contiguous m (owner : OwnerId) (count : nat) (state : FrameState) :
    outcome (list FrameLease) :=
  if owner =? 0 then Some (m, Err InvalidFrame)
  else if (count =? 0)%nat || (MAX_BATCH_FRAMES <? count)%nat then Some (m, Err BatchCapacity)
  else try_runs (take (run_count m) (metas m)) m count owner state.

(** ** Inspection *)

Definition frame_state m (id : FrameId) : option (option FrameState) :=
  match slot_for_id m id with
  | None => Some None
  | Some slot =>
      rec ← records m !! slot;
      Some (if record_state rec =? FREE then None
            else if record_state rec =? ACTIVE then Some Dirty
            else if record_state rec =? ZEROED then Some Zeroed else Some Reserved)
  end.

Definition owner_live m (owner : OwnerId) : nat :=
  length (filter (fun rec => record_state rec ≠ FREE ∧ record_owner rec = owner) (records m)).

(** The loop of [fragmentation]: free frames and the longest free run. *)
Fixpoint fragmentation_loop m (slots : list nat) (free_frames largest current : nat) : option (nat * nat) :=
  match slots with
  | [] => Some (free_frames, largest)
  | slot :: slots =>
      b ← is_free m slot;
      if (b : bool) then fragmentation_loop m slots (S free_frames) (largest `max` S current) (S current)
      else fragmentation_loop m slots free_frames largest 0
  end.

Definition fragmentation m : option (nat * nat) := fragmentation_loop m (seq 0 (frame_count m)) 0 0 0.

(** ** Initialisation *)

(** [for slot in frame_count..frame_count + pages]. *)
Fixpoint free_range m (slots : list nat) : option PhysicalFrameManager :=
  match slots with
  | [] => Some m
  | slot :: slots =>
      _ ← records m !! slot;
      m ← set_free (with_records m (<[slot := EMPTY_RECORD]> (records m))) slot;
      free_range m slots
  end.

Fixpoint add_runs m (rs : list PhysicalRun) : outcome unit :=
  match rs with
  | [] => Some (m, Ok tt)
  | run :: rs =>
      let pages := Z.to_nat (run_pages run) in
      let '(start, pages) := if run_start run =? 0 then (PAGE_SIZE, (pages - 1)%nat) else (run_start run, pages) in
      if (pages =? 0)%nat || (run_count m =? MAX_MEMORY_RUNS)%nat then add_runs m rs
      else
        match run_new start (Z.of_nat pages) with
        | None => Some (m, Err InvalidMap)
        | Some bounded =>
            _ ← metas m !! run_count m;
            let meta := mk_meta bounded (frame_count m) pages in
            let m := mk_manager (<[run_count m := meta]> (metas m)) (run_count m) (frame_count m)
                       (records m) (free_words m) (summary_words m) in
            m ← free_range m (seq (frame_count m) pages);
            add_runs (mk_manager (metas m) (S (run_count m)) (frame_count m + pages)%nat (records m)
                        (free_words m) (summary_words m)) rs
        end
  end.
End manager.

(** The arrays as [configure] and [clear] leave them. *)
Definition initialize_with_region `{ElementSizes} (m : PhysicalFrameManager) (map : NormalizedMemoryMap)
    (region : FrameMetadataRegion) : option (PhysicalFrameManager * result unit FrameError) :=
  match region_layout region (total_pages map) with
  | None => Some (m, Err Capacity)
  | Some layout =>
      add_runs (mk_manager (replicate MAX_MEMORY_RUNS EMPTY_META) 0 0
                  (replicate (Z.to_nat (records_len layout)) EMPTY_RECORD)
                  (replicate (Z.to_nat (free_len layout)) 0)
                  (replicate (Z.to_nat (summary_len layout)) 0)) (runs map)
  end.
