(* ===== verification/FrameSearch.v ===== *)
(** * The two-level free bitmap

    What [is_free], [set_free], [clear_free] and [find_free_slot] of
    [Frames] do to the set of free slots, given that the summary has a bit for
    exactly the nonzero words of the bitmap.  The search through the summary
    is the linear scan for the first free slot ([find_free_slot_spec]). *)

From Stdlib Require Import ZArith Lia ZifyNat ZifyBool.
From stdpp Require Import base list option numbers.
From S2P Require Import Prelude MemoryMap FrameLayout Frames.

#[local] Open Scope Z_scope.
#[local] Opaque WORD_ROUNDS.

(** ** Words as sets of bits *)

Lemma bit_of_spec k j : 0 <= j -> Z.testbit (bit_of k) j = (j =? Z.of_nat k).
Proof.
  intros Hj. unfold bit_of. rewrite Z.shiftl_1_l, Z.pow2_bits_eqb by lia. apply Z.eqb_sym.
Qed.

Lemma fits_high w j : fits 64 w -> 64 <= j -> Z.testbit w j = false.
Proof.
  intros Hw Hj. destruct (decide (w = 0)) as [->|]; [apply Z.bits_0|].
  apply Z.bits_above_log2; [apply Hw|]. apply Z.log2_lt_pow2; unfold fits in Hw; [lia|].
  apply (Z.lt_le_trans _ (2 ^ 64)); [lia|]. apply Z.pow_le_mono_r; lia.
Qed.

Lemma fits_bits w : 0 <= w -> (forall j, 64 <= j -> Z.testbit w j = false) -> fits 64 w.
Proof.
  intros Hw H. split; [done|]. destruct (Z.lt_ge_cases w (2 ^ 64)); [done|].
  pose proof (Z.log2_le_mono (2 ^ 64) w ltac:(done)) as Hl. rewrite Z.log2_pow2 in Hl by lia.
  specialize (H (Z.log2 w) Hl). rewrite Z.bit_log2 in H by lia. done.
Qed.

Lemma word_land_fits w v : fits 64 w -> 0 <= v -> fits 64 (Z.land w v).
Proof.
  intros Hw Hv. apply fits_bits; [apply Z.land_nonneg; left; apply Hw|].
  intros j Hj. by rewrite Z.land_spec, (fits_high w j Hw Hj).
Qed.

Lemma word_zero w : fits 64 w -> w = 0 <-> forall j, (j < 64)%nat -> Z.testbit w (Z.of_nat j) = false.
Proof.
  intros Hw. split; [intros -> j _; apply Z.bits_0|]. intros H. apply Z.bits_inj'. intros j Hj.
  rewrite Z.bits_0. destruct (decide (j < 64)); [|apply fits_high; [done|lia]].
  specialize (H (Z.to_nat j)). rewrite Z2Nat.id in H by done. apply H. lia.
Qed.

Lemma word_land_bit w k : negb (Z.land w (bit_of k) =? 0) = Z.testbit w (Z.of_nat k).
Proof.
  destruct (Z.testbit w (Z.of_nat k)) eqn:E.
  - apply negb_true_iff, Z.eqb_neq. intros H. apply (f_equal (fun x => Z.testbit x (Z.of_nat k))) in H.
    rewrite Z.land_spec, E, bit_of_spec, Z.bits_0, Z.eqb_refl in H by lia. done.
  - apply negb_false_iff, Z.eqb_eq. apply Z.bits_inj'. intros j Hj. rewrite Z.land_spec, Z.bits_0, bit_of_spec by done.
    destruct (Z.eqb_spec j (Z.of_nat k)) as [->|]; [by rewrite E|apply andb_false_r].
Qed.

(** ** Trailing zeros *)

Lemma trailing_zeros_spec w : fits 64 w -> w ≠ 0 ->
  (trailing_zeros w < 64)%nat ∧ Z.testbit w (Z.of_nat (trailing_zeros w)) = true ∧
  forall j, (j < trailing_zeros w)%nat -> Z.testbit w (Z.of_nat j) = false.
Proof.
  intros Hw Hne. unfold trailing_zeros.
  destruct (list_find (fun k => Z.testbit w (Z.of_nat k) = true) (seq 0 64)) as [[i k]|] eqn:E; cbn [mbind option_bind default snd from_option id].
  - apply list_find_Some in E as (Hi & Hk & Hlow). apply lookup_seq in Hi as [-> Hi]. change (0 + i)%nat with i in *.
    split; [lia|]. split; [done|]. intros j Hj. apply not_true_is_false. apply (Hlow j j); [|done].
    apply lookup_seq. lia.
  - apply list_find_None in E. exfalso. apply Hne, word_zero; [done|]. intros j Hj.
    apply not_true_is_false. apply (proj1 (list.Forall_forall _ _) E j). apply elem_of_seq. lia.
Qed.

(** Clearing the lowest bit, [x & (x - 1)]. *)
Lemma clear_lowest w j : fits 64 w -> w ≠ 0 -> 0 <= j ->
  Z.testbit (Z.land w (w - 1)) j = Z.testbit w j && negb (j =? Z.of_nat (trailing_zeros w)).
Proof.
  intros Hw Hne Hj. destruct (trailing_zeros_spec w Hw Hne) as (_ & Ht & Hlow).
  set (t := Z.of_nat (trailing_zeros w)) in *. rewrite Z.land_spec.
  destruct (Z.lt_trichotomy j t) as [Hlt|[->|Hgt]].
  - specialize (Hlow (Z.to_nat j) ltac:(lia)). rewrite Z2Nat.id in Hlow by done. by rewrite Hlow.
  - rewrite Ht, Z.eqb_refl. simpl.
    (* [w] is an odd multiple of [2^t] *)
    assert (Hm : w mod 2 ^ t = 0).
    { apply Z.bits_inj'. intros i Hi. rewrite Z.bits_0. destruct (decide (i < t)).
      - rewrite Z.mod_pow2_bits_low by lia. specialize (Hlow (Z.to_nat i) ltac:(lia)). by rewrite Z2Nat.id in Hlow.
      - apply Z.mod_pow2_bits_high. lia. }
    assert (0 < 2 ^ t) by (apply Z.pow_pos_nonneg; lia).
    rewrite Z.testbit_true in Ht by lia. apply Z.testbit_false; [lia|].
    assert (Hd : (w - 1) / 2 ^ t = w / 2 ^ t - 1).
    { pose proof (Z.div_mod w (2 ^ t) ltac:(lia)). symmetry. apply Z.div_unique with (r := 2 ^ t - 1); lia. }
    rewrite Hd. rewrite Zminus_mod, Ht. done.
  - rewrite (proj2 (Z.eqb_neq j t)) by lia. rewrite andb_true_r.
    enough (Z.testbit (w - 1) j = Z.testbit w j) as -> by (by destruct (Z.testbit w j)).
    assert (0 < 2 ^ (t + 1)) by (apply Z.pow_pos_nonneg; lia).
    assert (Hd : (w - 1) / 2 ^ (t + 1) = w / 2 ^ (t + 1)).
    { symmetry. pose proof (Z.div_mod w (2 ^ (t + 1)) ltac:(lia)).
      pose proof (Z.mod_pos_bound w (2 ^ (t + 1)) ltac:(lia)).
      assert (w mod 2 ^ (t + 1) ≠ 0).
      { intros Hz. apply (f_equal (fun x => Z.testbit x t)) in Hz.
        rewrite Z.mod_pow2_bits_low, Ht, Z.bits_0 in Hz by lia. done. }
      apply Z.div_unique with (r := w mod 2 ^ (t + 1) - 1); lia. }
    replace j with ((j - (t + 1)) + (t + 1)) by lia. by rewrite <- !Z.div_pow2_bits, Hd by lia.
Qed.

(** ** Masks *)

Lemma low_mask w k j : (k < 64)%nat -> 0 <= j < 64 ->
  Z.testbit (Z.land w (wrap 64 (Z.shiftl U64_MAX (Z.of_nat k)))) j = Z.testbit w j && (Z.of_nat k <=? j).
Proof.
  intros Hk Hj. rewrite Z.land_spec. f_equal. unfold wrap. rewrite Z.mod_pow2_bits_low by lia.
  change U64_MAX with (Z.ones 64). rewrite Z.shiftl_spec by lia.
  destruct (Z.leb_spec (Z.of_nat k) j); [apply Z.ones_spec_low; lia|apply Z.testbit_neg_r; lia].
Qed.

Lemma high_mask w k j : 0 <= j ->
  Z.testbit (Z.land w (bit_of k - 1)) j = Z.testbit w j && (j <? Z.of_nat k).
Proof.
  intros Hj. rewrite Z.land_spec. f_equal. unfold bit_of.
  replace (Z.shiftl 1 (Z.of_nat k) - 1) with (Z.ones (Z.of_nat k)) by (unfold Z.ones; lia).
  destruct (Z.ltb_spec j (Z.of_nat k)); [apply Z.ones_spec_low; lia|apply Z.ones_spec_high; lia].
Qed.

(** ** The bitmap *)

Definition bit (l : list Z) (k : nat) : bool :=
  Z.testbit (default 0 (l !! (k / 64)%nat)) (Z.of_nat (k mod 64)).

Record words_wf (m : PhysicalFrameManager) : Prop := {
  ww_free : Forall (fits 64) (free_words m);
  ww_summary_fits : Forall (fits 64) (summary_words m);
  ww_length : (length (free_words m) <= 64 * length (summary_words m))%nat;
  ww_summary : forall k, bit (summary_words m) k = true <-> exists w, free_words m !! k = Some w ∧ w ≠ 0
}.

Lemma bit_length l k : bit l k = true -> (k / 64 < length l)%nat.
Proof.
  unfold bit. destruct (l !! (k / 64)%nat) eqn:E; [intros _; by eapply lookup_lt_Some|].
  simpl. by rewrite Z.bits_0.
Qed.

Lemma bit_at l w wi j : l !! wi = Some w -> (j < 64)%nat -> bit l (wi * 64 + j) = Z.testbit w (Z.of_nat j).
Proof.
  intros E Hj. unfold bit. replace ((wi * 64 + j) / 64)%nat with wi by lia.
  replace ((wi * 64 + j) mod 64)%nat with j by lia. by rewrite E.
Qed.

Lemma bit_set l w k j : l !! (k / 64)%nat = Some w ->
  bit (<[(k / 64)%nat := Z.lor w (bit_of (k mod 64))]> l) j = (j =? k)%nat || bit l j.
Proof.
  intros E. unfold bit. destruct (Nat.eqb_spec j k) as [->|Hne].
  - rewrite list_lookup_insert_eq by (by eapply lookup_lt_Some). cbn [default from_option id].
    by rewrite Z.lor_spec, bit_of_spec, Z.eqb_refl, orb_true_r by lia.
  - destruct (decide (j / 64 = k / 64)%nat) as [Heq|Hd]; [|by rewrite list_lookup_insert_ne by lia].
    rewrite Heq, list_lookup_insert_eq by (by eapply lookup_lt_Some). rewrite E. cbn [default from_option id].
    rewrite Z.lor_spec, bit_of_spec by lia.
    destruct (Z.eqb_spec (Z.of_nat (j mod 64)) (Z.of_nat (k mod 64))); [lia|apply orb_false_r].
Qed.

Lemma bit_clear l w k j : l !! (k / 64)%nat = Some w ->
  bit (<[(k / 64)%nat := Z.ldiff w (bit_of (k mod 64))]> l) j = negb (j =? k)%nat && bit l j.
Proof.
  intros E. unfold bit. destruct (Nat.eqb_spec j k) as [->|Hne].
  - rewrite list_lookup_insert_eq by (by eapply lookup_lt_Some). cbn [default from_option id].
    by rewrite Z.ldiff_spec, bit_of_spec, Z.eqb_refl, andb_false_r by lia.
  - destruct (decide (j / 64 = k / 64)%nat) as [Heq|Hd]; [|by rewrite list_lookup_insert_ne by lia].
    rewrite Heq, list_lookup_insert_eq by (by eapply lookup_lt_Some). rewrite E. cbn [default from_option id].
    rewrite Z.ldiff_spec, bit_of_spec by lia.
    destruct (Z.eqb_spec (Z.of_nat (j mod 64)) (Z.of_nat (k mod 64))); [lia|apply andb_true_r].
Qed.

Lemma is_free_bit m slot : (slot / 64 < length (free_words m))%nat -> is_free m slot = Some (bit (free_words m) slot).
Proof.
  intros H. destruct (lookup_lt_is_Some_2 _ _ H) as [w E]. unfold is_free, bit. rewrite E. simpl. by rewrite word_land_bit.
Qed.

Lemma lor_bit_fits w k : fits 64 w -> (k < 64)%nat -> fits 64 (Z.lor w (bit_of k)).
Proof.
  intros Hw Hk. apply fits_bits.
  - apply Z.lor_nonneg. split; [apply Hw|]. unfold bit_of. by apply Z.shiftl_nonneg.
  - intros j Hj. rewrite Z.lor_spec, bit_of_spec, (fits_high w j Hw Hj) by lia.
    destruct (Z.eqb_spec j (Z.of_nat k)); [lia|done].
Qed.

Lemma ldiff_bit_fits w k : fits 64 w -> fits 64 (Z.ldiff w (bit_of k)).
Proof.
  intros Hw. apply fits_bits.
  - apply Z.ldiff_nonneg. left. apply Hw.
  - intros j Hj. by rewrite Z.ldiff_spec, (fits_high w j Hw Hj).
Qed.

Lemma word_index_bound m k : words_wf m -> (k < length (free_words m))%nat -> (k / 64 < length (summary_words m))%nat.
Proof. intros H Hk. pose proof (ww_length _ H). lia. Qed.

(** [set_free] adds a slot. *)
Lemma set_free_spec m slot : words_wf m -> (slot / 64 < length (free_words m))%nat ->
  exists free summary, set_free m slot = Some (with_words m free summary) ∧
    words_wf (with_words m free summary) ∧ length free = length (free_words m) ∧
    length summary = length (summary_words m) ∧
    forall j, bit free j = (j =? slot)%nat || bit (free_words m) j.
Proof.
  intros Hwf Hlt. destruct (lookup_lt_is_Some_2 _ _ Hlt) as [w Ew].
  pose proof (word_index_bound _ _ Hwf Hlt) as Hs. destruct (lookup_lt_is_Some_2 _ _ Hs) as [s Es].
  unfold set_free. rewrite Ew. cbn [mbind option_bind]. rewrite Es. cbn [mbind option_bind].
  eexists _, _. split; [done|]. split; [|split; [apply length_insert|split; [apply length_insert|intros j; by apply bit_set]]].
  destruct Hwf as [H1 H2 H3 H4]. split; cbn [free_words summary_words with_words].
  - apply Forall_insert; [done|]. apply lor_bit_fits; [apply (Forall_lookup_1 _ _ _ _ H1 Ew)|lia].
  - apply Forall_insert; [done|]. apply lor_bit_fits; [apply (Forall_lookup_1 _ _ _ _ H2 Es)|lia].
  - by rewrite !length_insert.
  - intros k. rewrite (bit_set _ s) by done. rewrite orb_true_iff, H4. split.
    + intros [->%Nat.eqb_eq|(w' & E & Hne)].
      * exists (Z.lor w (bit_of (slot mod 64))). split; [by apply list_lookup_insert_eq|].
        intros H. apply (f_equal (fun x => Z.testbit x (Z.of_nat (slot mod 64)))) in H.
        rewrite Z.lor_spec, bit_of_spec, Z.eqb_refl, orb_true_r, Z.bits_0 in H by lia. done.
      * destruct (decide (k = slot / 64)%nat) as [->|]; [|exists w'; by rewrite list_lookup_insert_ne].
        rewrite Ew in E. injection E as <-. exists (Z.lor w (bit_of (slot mod 64))).
        split; [by apply list_lookup_insert_eq|]. intros H%Z.lor_eq_0_iff. tauto.
    + intros (w' & E & Hne). apply list_lookup_insert_Some in E as [(-> & _)|[_ E]]; [left; by apply Nat.eqb_eq|].
      right. by exists w'.
Qed.

(** [clear_free] removes a slot. *)
Lemma clear_free_spec m slot : words_wf m -> (slot / 64 < length (free_words m))%nat ->
  exists free summary, clear_free m slot = Some (with_words m free summary) ∧
    words_wf (with_words m free summary) ∧ length free = length (free_words m) ∧
    length summary = length (summary_words m) ∧
    forall j, bit free j = negb (j =? slot)%nat && bit (free_words m) j.
Proof.
  intros Hwf Hlt. destruct (lookup_lt_is_Some_2 _ _ Hlt) as [w Ew].
  pose proof (word_index_bound _ _ Hwf Hlt) as Hs. destruct (lookup_lt_is_Some_2 _ _ Hs) as [s Es].
  unfold clear_free. rewrite Ew. cbn [mbind option_bind].
  destruct Hwf as [H1 H2 H3 H4]. pose proof (Forall_lookup_1 _ _ _ _ H1 Ew) as Hw.
  assert (Hfree : Forall (fits 64) (<[(slot / 64)%nat := Z.ldiff w (bit_of (slot mod 64))]> (free_words m))).
  { apply Forall_insert; [done|]. by apply ldiff_bit_fits. }
  destruct (Z.eqb_spec (Z.ldiff w (bit_of (slot mod 64))) 0) as [H0|H0].
  - rewrite Es. cbn [mbind option_bind]. eexists _, _. split; [done|].
    split; [|split; [apply length_insert|split; [apply length_insert|intros j; by apply bit_clear]]].
    split; cbn [free_words summary_words with_words]; [done| |by rewrite !length_insert|].
    + apply Forall_insert; [done|]. apply ldiff_bit_fits, (Forall_lookup_1 _ _ _ _ H2 Es).
    + intros k. rewrite (bit_clear _ s) by done. rewrite andb_true_iff, H4, negb_true_iff, Nat.eqb_neq. split.
      * intros [Hne (w' & E & Hw')]. exists w'. by rewrite list_lookup_insert_ne.
      * intros (w' & E & Hne). apply list_lookup_insert_Some in E as [(_ & <- & _)|[Hk E]]; [done|].
        split; [done|]. by exists w'.
  - eexists _, _. split; [done|]. split; [|split; [apply length_insert|split; [done|intros j; by apply bit_clear]]].
    split; cbn [free_words summary_words with_words]; [done|done|by rewrite length_insert|].
    intros k. rewrite H4. destruct (decide (k = slot / 64)%nat) as [->|].
    + rewrite list_lookup_insert_eq by done. split; intros (w' & E & Hw'); [by eauto|].
      exists w. split; [done|]. intros ->. by rewrite Z.ldiff_0_l in H0.
    + by rewrite list_lookup_insert_ne.
Qed.

(** ** The search *)

Section search.
Variables (m : PhysicalFrameManager) (first last : nat).
Hypothesis Hwf : words_wf m.
Hypothesis Hlt : (first < last)%nat.
Hypothesis Hlast : (last <= 64 * length (free_words m))%nat.

(** The slots [find_free_slot] chooses from. *)
Definition candidate (s : nat) : Prop := (first <= s < last)%nat ∧ bit (free_words m) s = true.

Definition least (P : nat -> Prop) (r : option nat) : Prop :=
  match r with
  | Some s => P s ∧ forall s', P s' -> (s <= s')%nat
  | None => forall s, ¬ P s
  end.

Definition masked (wi : nat) (bits : Z) : Z :=
  let bits := if (wi =? first / 64)%nat
              then Z.land bits (wrap 64 (Z.shiftl U64_MAX (Z.of_nat (first mod 64)))) else bits in
  if (wi =? (last - 1) / 64)%nat && negb (last mod 64 =? 0)%nat
  then Z.land bits (bit_of (last mod 64) - 1) else bits.

Lemma mask_nonneg k : 0 <= bit_of k - 1.
Proof. unfold bit_of. rewrite Z.shiftl_1_l. pose proof (Z.pow_pos_nonneg 2 (Z.of_nat k)). lia. Qed.

Lemma masked_fits wi w : fits 64 w -> fits 64 (masked wi w).
Proof.
  intros Hw. unfold masked. pose proof (mask_nonneg (last mod 64)).
  assert (0 <= wrap 64 (Z.shiftl U64_MAX (Z.of_nat (first mod 64)))) by (apply wrap_fits; lia).
  destruct (wi =? first / 64)%nat, (_ && _); repeat apply word_land_fits; done.
Qed.

Lemma masked_spec wi w j : free_words m !! wi = Some w -> (first / 64 <= wi <= (last - 1) / 64)%nat -> (j < 64)%nat ->
  Z.testbit (masked wi w) (Z.of_nat j) = true <-> candidate (wi * 64 + j).
Proof.
  intros E Hwi Hj. unfold candidate. rewrite (bit_at _ w) by done. unfold masked.
  assert (Hlo : Z.testbit (if (wi =? first / 64)%nat
      then Z.land w (wrap 64 (Z.shiftl U64_MAX (Z.of_nat (first mod 64)))) else w) (Z.of_nat j) = true <->
    Z.testbit w (Z.of_nat j) = true ∧ (first <= wi * 64 + j)%nat).
  { destruct (Nat.eqb_spec wi (first / 64)).
    - rewrite low_mask, andb_true_iff by lia. split; intros [? ?]; (split; [done|lia]).
    - split; [intros ?; split; [done|lia]|tauto]. }
  destruct (Nat.eqb_spec wi ((last - 1) / 64)), (Nat.eqb_spec (last mod 64) 0); cbn [andb negb].
  - rewrite Hlo. split; [intros [? ?]|intros [? ?]]; (split; [lia|try done; lia]).
  - rewrite high_mask, andb_true_iff, Hlo by lia. split; [intros [[? ?] ?]|intros [? ?]].
    + split; [lia|done].
    + split; [split; [done|lia]|lia].
  - rewrite Hlo. split; [intros [? ?]|intros [? ?]]; (split; [lia|try done; lia]).
  - rewrite Hlo. split; [intros [? ?]|intros [? ?]]; (split; [lia|try done; lia]).
Qed.

Section words.
Variable si : nat.

(** The candidates in the words that [words] selects. *)
Definition selected (words : Z) (s : nat) : Prop :=
  candidate s ∧ (s / 64 / 64 = si)%nat ∧ Z.testbit words (Z.of_nat ((s / 64) mod 64)) = true.

Lemma find_in_words_spec fuel : forall words c,
  fits 64 words -> (c <= 64)%nat -> (64 - c < fuel)%nat ->
  (forall j, (j < c)%nat -> Z.testbit words (Z.of_nat j) = false) ->
  (forall j, (j < 64)%nat -> Z.testbit words (Z.of_nat j) = true -> (first / 64 <= si * 64 + j <= (last - 1) / 64)%nat) ->
  exists r, find_in_words fuel m first last si words = Some r ∧ least (selected words) r.
Proof.
  induction fuel as [|fuel IH]; intros words c Hw Hc Hf Hlow Hin; [lia|]. cbn [find_in_words].
  destruct (Z.eqb_spec words 0) as [->|Hne].
  { exists None. split; [done|]. intros s (_ & _ & H). by rewrite Z.bits_0 in H. }
  destruct (trailing_zeros_spec words Hw Hne) as (Ht & Htb & Htl). set (t := trailing_zeros words) in *.
  specialize (Hin t Ht Htb) as Hwi. set (wi := (si * 64 + t)%nat) in *.
  assert (Hwl : (wi < length (free_words m))%nat) by lia.
  destruct (lookup_lt_is_Some_2 _ _ Hwl) as [w Ew]. rewrite Ew. cbn [mbind option_bind].
  pose proof (masked_fits wi w (Forall_lookup_1 _ _ _ _ (ww_free _ Hwf) Ew)) as Hb.
  change (exists r, (if negb (masked wi w =? 0) then Some (Some (wi * 64 + trailing_zeros (masked wi w))%nat)
    else find_in_words fuel m first last si (Z.land words (words - 1))) = Some r ∧ least (selected words) r).
  assert (Hmin : forall s, selected words s -> (wi <= s / 64)%nat).
  { intros s (_ & Hs & Hsb). destruct (decide ((s / 64) mod 64 < t)%nat) as [Hst|]; [by rewrite (Htl _ Hst) in Hsb|lia]. }
  destruct (Z.eqb_spec (masked wi w) 0) as [H0|H0]; cbn [negb].
  - destruct (IH (Z.land words (words - 1)) (S t)) as (r & Er & Hr); [|lia| | | |].
    + apply word_land_fits; [done|]. unfold fits in Hw. lia.
    + assert (c <= t)%nat; [|lia]. destruct (decide (t < c)%nat) as [Htc|]; [|lia]. by rewrite (Hlow _ Htc) in Htb.
    + intros j Hj. rewrite clear_lowest by (done || lia). fold t.
      destruct (decide (j = t)) as [->|]; [by rewrite Z.eqb_refl, andb_false_r|]. by rewrite Htl by lia.
    + intros j Hj Hjb. apply Hin; [done|]. rewrite clear_lowest in Hjb by (done || lia). by apply andb_true_iff in Hjb as [? _].
    + exists r. split; [done|].
      assert (Hsel : forall s, selected (Z.land words (words - 1)) s <-> selected words s).
      { intros s. unfold selected. split; intros (Hs & Hsi & Hsb); (split; [done|split; [done|]]).
        - rewrite clear_lowest in Hsb by (done || lia). by apply andb_true_iff in Hsb as [? _].
        - rewrite clear_lowest, Hsb by (done || lia). fold t. apply negb_true_iff, Z.eqb_neq. intros Heq.
          assert (Hsw : s = (wi * 64 + s mod 64)%nat) by lia. rewrite Hsw in Hs.
          apply (masked_spec wi w) in Hs; [|done|lia|lia]. rewrite H0, Z.bits_0 in Hs. done. }
      destruct r as [s|]; simpl in *; [destruct Hr as [Hr1 Hr2]; split; [by apply Hsel|]; intros s' Hs'; by apply Hr2, Hsel|].
      intros s Hs. by apply (Hr s), Hsel.
  - destruct (trailing_zeros_spec _ Hb H0) as (Hj & Hjb & Hjl). set (j := trailing_zeros (masked wi w)) in *.
    exists (Some (wi * 64 + j)%nat). split; [done|]. split.
    + split; [by apply (masked_spec wi w)|]. split; [lia|].
      by replace (((wi * 64 + j) / 64) mod 64)%nat with t by lia.
    + intros s Hs. pose proof (Hmin s Hs). destruct Hs as (Hs & _ & _).
      destruct (decide (s / 64 = wi)%nat) as [Hsw|]; [|lia].
      destruct (decide (s mod 64 < j)%nat) as [Hsj|]; [|lia].
      assert (Heq : s = (wi * 64 + s mod 64)%nat) by lia. rewrite Heq in Hs.
      apply (masked_spec wi w) in Hs; [|done|lia|lia]. by rewrite (Hjl _ Hsj) in Hs.
Qed.
End words.

(** A free slot has a nonzero word, and so a bit in the summary. *)
Lemma candidate_summary s : candidate s -> bit (summary_words m) (s / 64) = true.
Proof.
  intros [_ Hb]. apply (ww_summary _ Hwf). pose proof (bit_length _ _ Hb) as Hl.
  destruct (lookup_lt_is_Some_2 _ _ Hl) as [w E]. exists w. split; [done|]. intros ->.
  unfold bit in Hb. rewrite E in Hb. cbn in Hb. by rewrite Z.bits_0 in Hb.
Qed.

Definition summary_masked (a : nat) (words : Z) : Z :=
  let words := if (a =? first / 64 / 64)%nat
               then Z.land words (wrap 64 (Z.shiftl U64_MAX (Z.of_nat ((first / 64) mod 64)))) else words in
  if (a =? (last - 1) / 64 / 64)%nat && negb (((last - 1) / 64) mod 64 =? 63)%nat
  then Z.land words (bit_of (((last - 1) / 64) mod 64 + 1) - 1) else words.

Lemma summary_masked_fits a w : fits 64 w -> fits 64 (summary_masked a w).
Proof.
  intros Hw. unfold summary_masked. pose proof (mask_nonneg (((last - 1) / 64) mod 64 + 1)).
  assert (0 <= wrap 64 (Z.shiftl U64_MAX (Z.of_nat ((first / 64) mod 64)))) by (apply wrap_fits; lia).
  destruct (a =? first / 64 / 64)%nat, (_ && _); repeat apply word_land_fits; done.
Qed.

Lemma summary_masked_spec a w j :
  (first / 64 / 64 <= a <= (last - 1) / 64 / 64)%nat -> (j < 64)%nat ->
  Z.testbit (summary_masked a w) (Z.of_nat j) = true <->
  Z.testbit w (Z.of_nat j) = true ∧ (first / 64 <= a * 64 + j <= (last - 1) / 64)%nat.
Proof.
  intros Ha Hj. unfold summary_masked. set (lo := if (a =? first / 64 / 64)%nat then _ else w).
  assert (Hlo : Z.testbit lo (Z.of_nat j) = true <-> Z.testbit w (Z.of_nat j) = true ∧ (first / 64 <= a * 64 + j)%nat).
  { subst lo. destruct (Nat.eqb_spec a (first / 64 / 64)).
    - rewrite low_mask, andb_true_iff by lia. split; intros [? ?]; (split; [done|lia]).
    - split; [intros ?; split; [done|lia]|tauto]. }
  destruct (Nat.eqb_spec a ((last - 1) / 64 / 64)), (Nat.eqb_spec (((last - 1) / 64) mod 64) 63); cbn [andb negb].
  - rewrite Hlo. split; [intros [? ?]|intros [? ?]]; (split; [done|lia]).
  - rewrite high_mask, andb_true_iff, Hlo by lia. split; [intros [[? ?] ?]|intros [? ?]].
    + split; [done|lia].
    + split; [split; [done|lia]|lia].
  - rewrite Hlo. split; [intros [? ?]|intros [? ?]]; (split; [done|lia]).
  - rewrite Hlo. split; [intros [? ?]|intros [? ?]]; (split; [done|lia]).
Qed.

Lemma find_in_summary_cons a rest w :
  summary_words m !! a = Some w ->
  find_in_summary (a :: rest) m first last =
  found ← find_in_words WORD_ROUNDS m first last a (summary_masked a w);
  match found with Some s => Some (Some s) | None => find_in_summary rest m first last end.
Proof.
  intros E. unfold find_in_summary; fold find_in_summary. rewrite E.
  cbv [mbind option_bind summary_masked]. reflexivity.
Qed.

(** One round of the summary loop. *)
Lemma find_in_summary_round a : (first / 64 / 64 <= a <= (last - 1) / 64 / 64)%nat ->
  exists w r, summary_words m !! a = Some w ∧
    find_in_words WORD_ROUNDS m first last a (summary_masked a w) = Some r ∧
    least (fun s => candidate s ∧ (s / 64 / 64 = a)%nat) r.
Proof.
  intros Ha. assert (Hal : (a < length (summary_words m))%nat) by (pose proof (ww_length _ Hwf); lia).
  destruct (lookup_lt_is_Some_2 _ _ Hal) as [w Ew].
  pose proof (Forall_lookup_1 _ _ _ _ (ww_summary_fits _ Hwf) Ew) as Hw.
  destruct (find_in_words_spec a WORD_ROUNDS (summary_masked a w) 0) as (r & Er & Hr);
    [by apply summary_masked_fits|lia|by apply Nat.ltb_lt|lia| |].
  { intros j Hj Hjb. by apply summary_masked_spec in Hjb as [_ ?]. }
  exists w, r. split; [done|]. split; [done|].
  assert (Hsel : forall s, selected a (summary_masked a w) s <-> candidate s ∧ (s / 64 / 64 = a)%nat).
  { intros s. unfold selected. split; [tauto|]. intros [Hs Hsa]. split; [done|]. split; [done|].
    apply summary_masked_spec; [done|lia|]. pose proof (candidate_summary s Hs) as Hb. unfold bit in Hb.
    rewrite Hsa, Ew in Hb. split; [done|]. destruct Hs as [? _]. lia. }
  destruct r as [s|]; simpl in *.
  - destruct Hr as [Hr1 Hr2]. split; [by apply Hsel|]. intros s' Hs'. by apply Hr2, Hsel.
  - intros s Hs. by apply (Hr s), Hsel.
Qed.

Lemma find_in_summary_spec n : forall a,
  (first / 64 / 64 <= a)%nat -> (a + n <= S ((last - 1) / 64 / 64))%nat ->
  exists r, find_in_summary (seq a n) m first last = Some r ∧
    least (fun s => candidate s ∧ (a <= s / 64 / 64 < a + n)%nat) r.
Proof.
  induction n as [|n IH]; intros a Ha Hn.
  { exists None. split; [done|]. intros s [_ Hs]. lia. }
  destruct (find_in_summary_round a) as (w & r & Ew & Er & Hr); [lia|].
  cbn [seq]. rewrite (find_in_summary_cons a _ w Ew), Er. cbn [mbind option_bind].
  destruct r as [s|].
  - exists (Some s). split; [done|]. destruct Hr as [[Hs Hsa] Hmin]. split; [split; [done|lia]|].
    intros s' [Hs' Ha']. destruct (decide (s' / 64 / 64 = a)%nat); [by apply Hmin|lia].
  - destruct (IH (S a)) as (r & Er' & Hr'); [lia|lia|]. exists r. split; [done|].
    assert (Hx : forall s, (candidate s ∧ (a <= s / 64 / 64 < a + S n)%nat) <-> (candidate s ∧ (S a <= s / 64 / 64 < S a + n)%nat)).
    { intros s. split; intros [Hs Hb]; (split; [done|]); [|lia].
      destruct (decide (s / 64 / 64 = a)%nat); [|lia]. by destruct (Hr s). }
    destruct r as [s|]; simpl in *.
    + destruct Hr' as [Hr1 Hr2]. split; [by apply Hx|]. intros s' Hs'. by apply Hr2, Hx.
    + intros s Hs. by apply (Hr' s), Hx.
Qed.
End search.

(** The first free slot by a linear scan. *)
Definition first_free (m : PhysicalFrameManager) (first last : nat) : option nat :=
  snd <$> list_find (fun s => bit (free_words m) s = true) (seq first (last - first)).

Lemma least_unique P r r' : least P r -> least P r' -> r = r'.
Proof.
  destruct r as [s|], r' as [s'|]; simpl; [|firstorder..|done].
  intros [H1 H2] [H3 H4]. f_equal. apply Nat.le_antisymm; auto.
Qed.

Lemma first_free_least m first last :
  least (candidate m first last) (first_free m first last).
Proof.
  unfold first_free. destruct (list_find _ _) as [[i s]|] eqn:E; simpl.
  - apply list_find_Some in E as (Hi & Hb & Hlow). apply lookup_seq in Hi as [-> Hi]. split; [split; [lia|done]|].
    intros s' [Hs' Hb']. destruct (decide (s' < first + i)%nat); [|lia].
    destruct (Hlow (s' - first)%nat s'); [|lia|done]. apply lookup_seq. lia.
  - apply list_find_None in E. intros s [Hs Hb]. apply (proj1 (list.Forall_forall _ _) E s); [|done].
    apply elem_of_seq. lia.
Qed.

(** The hierarchical search finds what the linear scan finds. *)
Lemma find_free_slot_spec m first last :
  words_wf m -> (first <= last)%nat -> (last <= 64 * length (free_words m))%nat ->
  find_free_slot m first last = Some (first_free m first last).
Proof.
  intros Hwf Hle Hlast. unfold find_free_slot. destruct (Nat.eqb_spec first last) as [->|Hne].
  { unfold first_free. by rewrite Nat.sub_diag. }
  destruct (find_in_summary_spec m first last Hwf ltac:(lia) Hlast
    (S ((last - 1) / 64 / 64) - first / 64 / 64) (first / 64 / 64)) as (r & -> & Hr); [lia|lia|].
  f_equal. apply (least_unique (candidate m first last)); [|apply first_free_least].
  destruct r as [s|]; cbn [least] in *.
  - destruct Hr as [[Hs _] Hmin]. split; [done|]. intros s' Hs'. apply Hmin. split; [done|]. destruct Hs' as [? _]. lia.
  - intros s Hs. apply (Hr s). split; [done|]. destruct Hs as [? _]. lia.
Qed.
