(* ===== verification/FrameInv.v ===== *)
(** * The invariant of the frame manager

    [frames_wf] ties the three arrays of the manager together: a slot is in
    the free bitmap exactly when its record is free, the runs cut the slots
    into consecutive intervals in address order, and every record is well
    formed.  Each operation of [Frames] preserves it, never panics, and
    changes exactly the record it should. *)

From Stdlib Require Import ZArith Lia ZifyNat.
From stdpp Require Import base list option numbers.
From S2P Require Import Prelude MemoryMap FrameLayout Frames FrameSearch.

#[local] Open Scope Z_scope.
#[local] Opaque WORD_ROUNDS.

Implicit Types (m : PhysicalFrameManager) (slot : nat) (l : FrameLease).

(** ** Runs *)

Definition live_run m (i : nat) (r : RunMetadata) : Prop :=
  metas m !! i = Some r ∧ (i < run_count m)%nat.

Definition in_run (r : RunMetadata) slot : Prop := (first_slot r <= slot < first_slot r + meta_pages r)%nat.

Record runs_wf m : Prop := {
  rw_length : length (metas m) = MAX_MEMORY_RUNS;
  rw_count : (run_count m <= MAX_MEMORY_RUNS)%nat;
  rw_run : forall i r, live_run m i r ->
    run_ok (meta_run r) ∧ run_pages (meta_run r) = Z.of_nat (meta_pages r) ∧ run_start (meta_run r) ≠ 0;
  rw_order : forall i j r s, live_run m i r -> live_run m j s -> (i < j)%nat ->
    (first_slot r + meta_pages r <= first_slot s)%nat ∧ rend (meta_run r) < run_start (meta_run s);
  rw_cover : forall slot, (slot < frame_count m)%nat <-> exists i r, live_run m i r ∧ in_run r slot;
  rw_empty : forall i r, metas m !! i = Some r -> (run_count m <= i)%nat -> meta_pages r = 0%nat
}.

Lemma live_run_lookup m i : runs_wf m -> (i < run_count m)%nat -> exists r, live_run m i r.
Proof.
  intros H Hi. destruct (lookup_lt_is_Some_2 (metas m) i) as [r E]; [|by exists r].
  rewrite (rw_length _ H). pose proof (rw_count _ H). lia.
Qed.

Lemma live_run_eq m i r s : live_run m i r -> live_run m i s -> r = s.
Proof. intros [E _] [F _]. congruence. Qed.

(** The run of a slot, and the run of an address, are unique. *)
Lemma run_of_slot_unique m i j r s slot : runs_wf m ->
  live_run m i r -> live_run m j s -> in_run r slot -> in_run s slot -> i = j ∧ r = s.
Proof.
  intros H Hi Hj Hr Hs. unfold in_run in *. destruct (Nat.lt_trichotomy i j) as [Hlt|[->|Hlt]].
  - pose proof (rw_order _ H _ _ _ _ Hi Hj Hlt). lia.
  - split; [done|]. by eapply live_run_eq.
  - pose proof (rw_order _ H _ _ _ _ Hj Hi Hlt). lia.
Qed.

Lemma search_slot_spec m slot t r : runs_wf m -> live_run m t r -> in_run r slot ->
  forall fuel low high, (low <= t < high)%nat -> (high <= run_count m)%nat -> (high - low < fuel)%nat ->
  search_slot fuel m slot low high = Some (id_new t (slot - first_slot r)).
Proof.
  intros H Ht Hr. induction fuel as [|fuel IH]; intros low high Hl Hh Hf; [lia|]. cbn [search_slot].
  destruct (Nat.ltb_spec low high); [|lia]. set (mid := ((low + high) / 2)%nat).
  assert (low <= mid < high)%nat by (unfold mid; lia).
  destruct (live_run_lookup m mid H) as [s Hs]; [lia|]. rewrite (proj1 Hs). cbn [mbind option_bind].
  unfold in_run in Hr. destruct (Nat.lt_trichotomy t mid) as [Hlt|[->|Hlt]].
  - pose proof (rw_order _ H _ _ _ _ Ht Hs Hlt) as [? _].
    destruct (Nat.ltb_spec slot (first_slot s)); [|lia]. apply IH; lia.
  - rewrite (live_run_eq _ _ _ _ Hs Ht). destruct (Nat.ltb_spec slot (first_slot r)); [lia|].
    by destruct (Nat.leb_spec (first_slot r + meta_pages r) slot); [lia|].
  - pose proof (rw_order _ H _ _ _ _ Hs Ht Hlt) as [? _].
    destruct (Nat.ltb_spec slot (first_slot s)); [lia|].
    destruct (Nat.leb_spec (first_slot s + meta_pages s) slot); [|lia]. apply IH; lia.
Qed.

Definition in_range (r : RunMetadata) (raw : Z) : Prop := run_start (meta_run r) <= raw < rend (meta_run r).

Lemma search_address_spec m raw t r : runs_wf m -> live_run m t r -> in_range r raw ->
  forall fuel low high, (low <= t < high)%nat -> (high <= run_count m)%nat -> (high - low < fuel)%nat ->
  search_address fuel m raw low high = Some (id_new t (Z.to_nat ((raw - run_start (meta_run r)) / PAGE_SIZE))).
Proof.
  intros H Ht Hr. induction fuel as [|fuel IH]; intros low high Hl Hh Hf; [lia|]. cbn [search_address].
  destruct (Nat.ltb_spec low high); [|lia]. set (mid := ((low + high) / 2)%nat).
  assert (low <= mid < high)%nat by (unfold mid; lia).
  destruct (live_run_lookup m mid H) as [s Hs]; [lia|]. rewrite (proj1 Hs). cbn [mbind option_bind].
  destruct (rw_run _ H _ _ Hs) as (Hok & _ & _). rewrite (run_end_ok _ Hok). unfold in_range in Hr.
  assert (run_start (meta_run s) < rend (meta_run s)) by (pose proof (ok_pages _ Hok); unfold rend, PAGE_SIZE; lia).
  destruct (Nat.lt_trichotomy t mid) as [Hlt|[->|Hlt]].
  - pose proof (rw_order _ H _ _ _ _ Ht Hs Hlt) as [_ ?].
    destruct (Z.ltb_spec raw (run_start (meta_run s))); [|lia]. apply IH; lia.
  - rewrite (live_run_eq _ _ _ _ Hs Ht). destruct (Z.ltb_spec raw (run_start (meta_run r))); [lia|].
    by destruct (Z.leb_spec (rend (meta_run r)) raw); [lia|].
  - pose proof (rw_order _ H _ _ _ _ Hs Ht Hlt) as [_ ?].
    destruct (Z.ltb_spec raw (run_start (meta_run s))); [lia|].
    destruct (Z.leb_spec (rend (meta_run s)) raw); [|lia]. apply IH; lia.
Qed.

Lemma search_address_none m raw : runs_wf m -> (forall i r, live_run m i r -> ¬ in_range r raw) ->
  forall fuel low high, (high <= run_count m)%nat -> (high - low < fuel)%nat ->
  search_address fuel m raw low high = Some None.
Proof.
  intros H Hno. induction fuel as [|fuel IH]; intros low high Hh Hf; [lia|]. cbn [search_address].
  destruct (Nat.ltb_spec low high); [|done]. set (mid := ((low + high) / 2)%nat).
  assert (low <= mid < high)%nat by (unfold mid; lia).
  destruct (live_run_lookup m mid H) as [s Hs]; [lia|]. rewrite (proj1 Hs). cbn [mbind option_bind].
  destruct (rw_run _ H _ _ Hs) as (Hok & _ & _). rewrite (run_end_ok _ Hok).
  pose proof (Hno _ _ Hs) as Hn. unfold in_range in Hn.
  destruct (Z.ltb_spec raw (run_start (meta_run s))); [apply IH; lia|].
  destruct (Z.leb_spec (rend (meta_run s)) raw); [apply IH; lia|lia].
Qed.

(** ** The frame of a slot *)

(** Slot [slot] has identity [id] and is the page at [raw]. *)
Definition frame_at m slot (id : FrameId) (raw : Z) : Prop :=
  exists i r, live_run m i r ∧ in_run r slot ∧ id = mk_id i (slot - first_slot r) ∧
    raw = run_start (meta_run r) + Z.of_nat (slot - first_slot r) * PAGE_SIZE.

Lemma frame_at_exists m slot : runs_wf m -> (slot < frame_count m)%nat -> exists id raw, frame_at m slot id raw.
Proof. intros H (i & r & Hi & Hr)%(rw_cover _ H). eexists _, _, i, r. done. Qed.

Lemma frame_at_lt m slot id raw : runs_wf m -> frame_at m slot id raw -> (slot < frame_count m)%nat.
Proof. intros H (i & r & Hi & Hr & _). apply (rw_cover _ H). by exists i, r. Qed.

Lemma frame_at_fun m slot id raw id' raw' : runs_wf m ->
  frame_at m slot id raw -> frame_at m slot id' raw' -> id = id' ∧ raw = raw'.
Proof.
  intros H (i & r & Hi & Hr & -> & ->) (j & s & Hj & Hs & -> & ->).
  by destruct (run_of_slot_unique m i j r s slot H Hi Hj Hr Hs) as [-> ->].
Qed.

(** A frame is an aligned page of its run, away from address zero. *)
Lemma frame_at_page m slot id raw : runs_wf m -> frame_at m slot id raw ->
  raw mod PAGE_SIZE = 0 ∧ 0 < raw ∧ raw + PAGE_SIZE < 2 ^ 64 ∧
  exists i r, live_run m i r ∧ run_start (meta_run r) <= raw ∧ raw + PAGE_SIZE <= rend (meta_run r).
Proof.
  intros H (i & r & Hi & Hr & _ & ->). destruct (rw_run _ H _ _ Hi) as (Hok & Hp & Hz). unfold in_run in Hr.
  pose proof (ok_start _ Hok). pose proof (ok_end _ Hok). unfold rend in *. rewrite Hp in *.
  split; [rewrite Z.mod_add by done; apply Hok|]. unfold PAGE_SIZE in *. split; [lia|]. split; [lia|].
  exists i, r. split; [done|]. unfold rend. rewrite Hp. unfold PAGE_SIZE. lia.
Qed.

Lemma in_range_unique m i j r s raw : runs_wf m -> live_run m i r -> live_run m j s ->
  in_range r raw -> in_range s raw -> i = j ∧ r = s.
Proof.
  intros H Hi Hj Hr Hs. unfold in_range in *. destruct (Nat.lt_trichotomy i j) as [Hlt|[->|Hlt]].
  - pose proof (rw_order _ H _ _ _ _ Hi Hj Hlt). lia.
  - split; [done|]. by eapply live_run_eq.
  - pose proof (rw_order _ H _ _ _ _ Hj Hi Hlt). lia.
Qed.

Lemma frame_in_range m slot r i : runs_wf m -> live_run m i r -> in_run r slot ->
  in_range r (run_start (meta_run r) + Z.of_nat (slot - first_slot r) * PAGE_SIZE).
Proof.
  intros H Hi Hr. destruct (rw_run _ H _ _ Hi) as (Hok & Hp & _). unfold in_run, in_range, rend in *. rewrite Hp.
  unfold PAGE_SIZE. lia.
Qed.

(** Distinct slots are distinct pages. *)
Lemma frame_at_inj m s1 s2 id1 id2 raw1 raw2 : runs_wf m ->
  frame_at m s1 id1 raw1 -> frame_at m s2 id2 raw2 -> s1 ≠ s2 -> raw1 + PAGE_SIZE <= raw2 ∨ raw2 + PAGE_SIZE <= raw1.
Proof.
  intros H (i & r & Hi & Hr & _ & ->) (j & s & Hj & Hs & _ & ->) Hne.
  pose proof (frame_in_range m s1 r i H Hi Hr) as R1. pose proof (frame_in_range m s2 s j H Hj Hs) as R2.
  destruct (rw_run _ H _ _ Hi) as (Ok1 & P1 & _). destruct (rw_run _ H _ _ Hj) as (Ok2 & P2 & _).
  unfold in_run, in_range, rend in *. rewrite P1, P2 in *. unfold PAGE_SIZE in *.
  destruct (Nat.lt_trichotomy i j) as [Hlt|[->|Hlt]].
  - pose proof (rw_order _ H _ _ _ _ Hi Hj Hlt) as [_ Ho]. unfold rend in Ho. rewrite P1 in Ho. unfold PAGE_SIZE in Ho. lia.
  - rewrite (live_run_eq _ _ _ _ Hi Hj) in *. lia.
  - pose proof (rw_order _ H _ _ _ _ Hj Hi Hlt) as [_ Ho]. unfold rend in Ho. rewrite P2 in Ho. unfold PAGE_SIZE in Ho. lia.
Qed.

Section ids.
Variable m : PhysicalFrameManager.
Hypothesis H : runs_wf m.
Hypothesis Hcount : Z.of_nat (frame_count m) <= 2 ^ 32.

Lemma id_new_ok i r slot : live_run m i r -> in_run r slot ->
  id_new i (slot - first_slot r) = Some (mk_id i (slot - first_slot r)).
Proof.
  intros Hi Hr. assert (slot < frame_count m)%nat by (apply (rw_cover _ H); by exists i, r).
  pose proof (rw_count _ H). destruct Hi as [_ Hi]. unfold id_new.
  assert (Z.of_nat MAX_MEMORY_RUNS = 256) by done.
  destruct (Z.ltb_spec U16_MAX (Z.of_nat i)); [unfold U16_MAX in *; lia|].
  destruct (Z.ltb_spec U32_MAX (Z.of_nat (slot - first_slot r))); [unfold U32_MAX in *; lia|done].
Qed.

Lemma id_for_slot_spec slot id raw : frame_at m slot id raw -> id_for_slot m slot = Some (Some id).
Proof.
  intros (i & r & Hi & Hr & -> & _). unfold id_for_slot.
  rewrite (search_slot_spec m slot i r H Hi Hr); [by rewrite id_new_ok|split; [lia|apply Hi]|lia|lia].
Qed.

Lemma slot_for_id_spec slot id raw : frame_at m slot id raw -> slot_for_id m id = Some slot.
Proof.
  intros (i & r & Hi & Hr & -> & _). unfold slot_for_id. cbn [id_run id_offset]. rewrite (proj1 Hi). cbn [mbind option_bind].
  unfold in_run in Hr. destruct (Nat.ltb_spec (slot - first_slot r) (meta_pages r)); [f_equal; lia|lia].
Qed.

Lemma slot_for_id_inv slot id : slot_for_id m id = Some slot -> exists raw, frame_at m slot id raw.
Proof.
  intros E. unfold slot_for_id in E. apply bind_Some in E as (r & Er & E).
  destruct (Nat.ltb_spec (id_offset id) (meta_pages r)); [|done]. injection E as <-.
  assert (Hi : (id_run id < run_count m)%nat).
  { destruct (decide (id_run id < run_count m)%nat); [done|].
    pose proof (rw_empty _ H _ _ Er ltac:(lia)). lia. }
  eexists _, (id_run id), r. split; [done|]. split; [unfold in_run; lia|]. split; [|done].
  destruct id as [i o]. cbn [id_run id_offset] in *. f_equal. lia.
Qed.

Lemma address_spec slot id raw rec : frame_at m slot id raw -> records m !! slot = Some rec ->
  address m id = Some (Some (mk_address raw (Some id) (record_generation rec))).
Proof.
  intros Hf Er. unfold address. rewrite (slot_for_id_spec _ _ _ Hf).
  destruct Hf as (i & r & Hi & Hr & -> & ->). cbn [id_run id_offset]. rewrite (proj1 Hi).
  destruct (rw_run _ H _ _ Hi) as (Hok & Hp & _). pose proof (ok_end _ Hok). pose proof (ok_start _ Hok).
  unfold rend, in_run in *. rewrite Hp in *.
  assert (0 <= Z.of_nat (slot - first_slot r) * PAGE_SIZE < Z.of_nat (meta_pages r) * PAGE_SIZE) by (unfold PAGE_SIZE; lia).
  unfold checked_mul. destruct (Z.ltb_spec (Z.of_nat (slot - first_slot r) * PAGE_SIZE) (2 ^ 64)); [|lia].
  cbn [mbind option_bind]. unfold checked_add.
  destruct (Z.ltb_spec (run_start (meta_run r) + Z.of_nat (slot - first_slot r) * PAGE_SIZE) (2 ^ 64)); [|lia].
  rewrite Er. done.
Qed.

Lemma id_for_address_spec raw :
  (exists slot id, frame_at m slot id raw ∧ id_for_address m raw = Some (Some id)) ∨
  ((forall slot id, ¬ frame_at m slot id raw) ∧ id_for_address m raw = Some None).
Proof.
  unfold id_for_address. destruct (Z.eqb_spec (raw mod PAGE_SIZE) 0) as [Hal|Hal]; cbn [negb].
  2: { right. split; [|done]. intros slot id Hf. by destruct (frame_at_page _ _ _ _ H Hf). }
  destruct (list_find (fun r => in_range r raw) (take (run_count m) (metas m))) as [[i r]|] eqn:E.
  - apply list_find_Some in E as (Hi & Hr & _). apply lookup_take_Some in Hi as [Hi Hlt].
    assert (Hlive : live_run m i r) by done. left.
    destruct (rw_run _ H _ _ Hlive) as (Hok & Hp & _). unfold in_range, rend in Hr. rewrite Hp in Hr.
    set (o := Z.to_nat ((raw - run_start (meta_run r)) / PAGE_SIZE)).
    assert (Hraw : raw = run_start (meta_run r) + Z.of_nat o * PAGE_SIZE).
    { pose proof (ok_aligned _ Hok) as Ha. unfold o, PAGE_SIZE in *. lia. }
    assert (Hin : in_run r (first_slot r + o)) by (unfold in_run, PAGE_SIZE in *; lia).
    exists (first_slot r + o)%nat, (mk_id i o). split.
    { exists i, r. split; [done|]. split; [done|]. by replace (first_slot r + o - first_slot r)%nat with o by lia. }
    rewrite (search_address_spec m raw i r H Hlive); [|unfold in_range, rend; rewrite Hp; lia|lia|lia|lia].
    fold o. pose proof (id_new_ok i r _ Hlive Hin) as En.
    replace (first_slot r + o - first_slot r)%nat with o in En by lia. by rewrite En.
  - apply list_find_None in E.
    assert (Hno : forall i r, live_run m i r -> ¬ in_range r raw).
    { intros i r [Hi Hlt] Hr. apply (proj1 (list.Forall_forall _ _) E r); [|done].
      apply (list_elem_of_lookup_2 _ i). apply lookup_take_Some. done. }
    right. split; [|apply search_address_none; [done|done|lia|lia]].
    intros slot id (i & r & Hi & Hr & _ & ->). apply (Hno i r Hi). by apply frame_in_range with (i := i) (m := m).
Qed.
End ids.

(** ** The invariant *)

Definition record_wf (rec : FrameRecord) : Prop :=
  gen_ok 16 (record_generation rec) ∧ 0 <= record_state rec <= 3.

Record frames_wf m : Prop := {
  fw_words : words_wf m;
  fw_runs : runs_wf m;
  fw_count : Z.of_nat (frame_count m) <= 2 ^ 32;
  fw_bits : (frame_count m <= 64 * length (free_words m))%nat;
  fw_length : (frame_count m <= length (records m))%nat;
  fw_records : Forall record_wf (records m);
  fw_free : forall slot, bit (free_words m) slot = true <->
    (slot < frame_count m)%nat ∧ exists rec, records m !! slot = Some rec ∧ record_state rec = FREE;
  fw_tail : forall slot rec, records m !! slot = Some rec -> (frame_count m <= slot)%nat -> record_state rec = FREE
}.

(** The runs are fixed at initialisation. *)
Definition same m m' : Prop :=
  metas m' = metas m ∧ run_count m' = run_count m ∧ frame_count m' = frame_count m.

Lemma same_refl m : same m m.
Proof. done. Qed.

Lemma same_trans m1 m2 m3 : same m1 m2 -> same m2 m3 -> same m1 m3.
Proof. unfold same. intuition congruence. Qed.

Lemma live_run_same m m' i r : same m m' -> live_run m' i r <-> live_run m i r.
Proof. intros (E1 & E2 & _). unfold live_run. by rewrite E1, E2. Qed.

Lemma runs_wf_same m m' : same m m' -> runs_wf m -> runs_wf m'.
Proof.
  intros Hs [H1 H2 H3 H4 H5 H6]. pose proof Hs as (E1 & E2 & E3).
  split; rewrite ?E1, ?E2, ?E3; try done.
  - intros i r Hi. apply (H3 i). by apply (live_run_same m m').
  - intros i j r s Hi Hj. apply (H4 i j); by apply (live_run_same m m').
  - intros slot. rewrite H5. split; intros (i & r & Hi & Hr); exists i, r; (split; [|done]); by apply (live_run_same m m').
Qed.

Lemma frame_at_same m m' slot id raw : same m m' -> frame_at m' slot id raw <-> frame_at m slot id raw.
Proof. intros Hs. unfold frame_at. by setoid_rewrite (live_run_same _ _ _ _ Hs). Qed.

Lemma words_wf_same m m' : free_words m' = free_words m -> summary_words m' = summary_words m -> words_wf m -> words_wf m'.
Proof. intros E1 E2 [H1 H2 H3 H4]. split; rewrite ?E1, ?E2; done. Qed.

(** Rewriting one record, with the bitmap kept in step. *)
Lemma frames_wf_update m m' slot rec :
  frames_wf m -> same m m' -> (slot < frame_count m)%nat -> record_wf rec ->
  records m' = <[slot := rec]> (records m) -> words_wf m' ->
  length (free_words m') = length (free_words m) ->
  (forall j, bit (free_words m') j = if (j =? slot)%nat then record_state rec =? FREE else bit (free_words m) j) ->
  frames_wf m'.
Proof.
  intros [H1 H2 H3 H4 H5 H6 H7 H8] Hs Hslot Hrec Er Hw Hl Hb. pose proof Hs as (E1 & E2 & E3).
  assert (Hlt : (slot < length (records m))%nat) by lia.
  split; rewrite ?Er, ?E3, ?Hl; try done.
  - by apply (runs_wf_same m).
  - by rewrite length_insert.
  - by apply Forall_insert.
  - intros j. rewrite Hb. destruct (Nat.eqb_spec j slot) as [->|Hne].
    + rewrite list_lookup_insert_eq by done. rewrite Z.eqb_eq. split; [|by intros (_ & ? & [= <-] & ?)].
      intros ?. split; [done|]. by exists rec.
    + rewrite list_lookup_insert_ne by done. apply H7.
  - intros j r Ej Hj. rewrite list_lookup_insert_ne in Ej by lia. by apply (H8 j).
Qed.

(** ** Leases *)

Definition lease_for m slot (g : Z) (owner : OwnerId) (state : FrameState) (cpu : nat) l : Prop :=
  exists id raw, frame_at m slot id raw ∧ l = mk_lease (mk_address raw (Some id) g) id g owner state cpu slot.

(** The lease is the one its frame was last stamped with, and the frame is held. *)
Definition current m l : Prop :=
  records m !! lease_slot l = Some (mk_record (lease_generation l) (lease_owner l) (state_code (lease_state l))).

Lemma state_code_bounds s : 1 <= state_code s <= 3.
Proof. destruct s; unfold state_code, ZEROED, ACTIVE; lia. Qed.

Lemma current_lt m l : frames_wf m -> current m l -> (lease_slot l < frame_count m)%nat.
Proof.
  intros H E. destruct (decide (lease_slot l < frame_count m)%nat); [done|].
  pose proof (fw_tail _ H _ _ E ltac:(lia)) as Hx. pose proof (state_code_bounds (lease_state l)).
  cbn [record_state] in Hx. unfold FREE in Hx. lia.
Qed.

Lemma validate_lease_spec m l : Forall record_wf (records m) ->
  (current m l ∧ validate_lease m l = Ok (lease_slot l)) ∨
  (¬ current m l ∧ exists e, validate_lease m l = Err e).
Proof.
  intros Hwf. unfold validate_lease, current. destruct (records m !! lease_slot l) as [[g o s]|] eqn:E; [|right; by eauto].
  pose proof (Forall_lookup_1 _ _ _ _ Hwf E) as [_ Hs]. cbn [record_state record_generation record_owner] in *.
  destruct (Z.eqb_spec s FREE) as [->|Hne].
  { right. split; [|by eauto]. intros [= _ _ Hx]. pose proof (state_code_bounds (lease_state l)). unfold FREE in Hx. lia. }
  destruct (Z.eqb_spec g (lease_generation l)) as [->|]; cbn [negb]; [|right; split; [congruence|by eauto]].
  destruct (Z.eqb_spec o (lease_owner l)) as [->|]; cbn [negb]; [|right; split; [congruence|by eauto]].
  unfold ACTIVE, ZEROED, FREE in *.
  assert (Hc : exists st, s = state_code st ∧
    (if s =? 1 then Some Dirty else if s =? 3 then Some Zeroed else if s =? 2 then Some Reserved else None) = Some st).
  { destruct (decide (s = 1)) as [->|]; [by exists Dirty|]. destruct (decide (s = 3)) as [->|]; [by exists Zeroed|].
    assert (s = 2) as -> by lia. by exists Reserved. }
  destruct Hc as (st & -> & ->). destruct (decide (st = lease_state l)) as [->|Hst]; [by left|].
  right. split; [|by eauto]. intros [= Hx]. apply Hst. by destruct st, (lease_state l).
Qed.

Lemma validate_ok m l : frames_wf m -> current m l -> validate_lease m l = Ok (lease_slot l).
Proof. intros H Hc. by destruct (validate_lease_spec m l (fw_records _ H)) as [[_ ?]|[? _]]. Qed.

Lemma next_frame_generation_next_gen g : next_frame_generation g = next_gen 16 g.
Proof. done. Qed.

Lemma record_wf_state g owner s : gen_ok 16 g -> record_wf (mk_record g owner (state_code s)).
Proof. intros Hg. split; [done|]. pose proof (state_code_bounds s). simpl. lia. Qed.

(** The lease handed out for a record just stamped. *)
Lemma lease_on_spec m slot g owner state cpu rec : runs_wf m -> Z.of_nat (frame_count m) <= 2 ^ 32 ->
  (slot < frame_count m)%nat -> records m !! slot = Some rec -> record_generation rec = g ->
  exists l, lease_on m slot g owner state cpu slot = Some (Ok l) ∧ lease_for m slot g owner state cpu l.
Proof.
  intros H Hc Hlt Er <-. destruct (frame_at_exists m slot H Hlt) as (id & raw & Hf). unfold lease_on.
  rewrite (id_for_slot_spec m H Hc _ _ _ Hf). cbn [mbind option_bind].
  rewrite (address_spec m H _ _ _ _ Hf Er). cbn [mbind option_bind].
  eexists. split; [done|]. by exists id, raw.
Qed.

Lemma slot_as_u32 m slot : frames_wf m -> (slot < frame_count m)%nat -> Z.to_nat (wrap 32 (Z.of_nat slot)) = slot.
Proof. intros H Hs. pose proof (fw_count _ H). rewrite wrap_small; [lia|]. unfold fits. lia. Qed.

(** What [claim] does to a free slot. *)
Lemma claim_spec m slot rec owner state :
  frames_wf m -> (slot < frame_count m)%nat -> records m !! slot = Some rec -> record_state rec = FREE ->
  let g := next_frame_generation (record_generation rec) in
  exists m' l, claim m slot owner state = Some (m', Ok l) ∧ frames_wf m' ∧ same m m' ∧
    records m' = <[slot := mk_record g owner (state_code state)]> (records m) ∧ lease_for m slot g owner state 0 l.
Proof.
  intros H Hlt Er Hfree g. unfold claim.
  destruct (clear_free_spec m slot (fw_words _ H)) as (free & summary & -> & Hw & Hl & _ & Hb).
  { pose proof (fw_bits _ H). lia. }
  cbn [mbind option_bind]. unfold claim_used. cbn [records with_words]. rewrite Er. cbn [mbind option_bind].
  rewrite (slot_as_u32 m slot H Hlt). fold g.
  set (m' := with_records (with_words m free summary) (<[slot := mk_record g owner (state_code state)]> (records m))).
  pose proof (fw_length _ H) as Hlen.
  destruct (lease_on_spec m' slot g owner state 0 (mk_record g owner (state_code state))) as (l & -> & Hfor).
  - by apply (runs_wf_same m), (fw_runs _ H).
  - apply H.
  - done.
  - apply list_lookup_insert_eq. lia.
  - done.
  - exists m', l. split; [done|]. pose proof (Forall_lookup_1 _ _ _ _ (fw_records _ H) Er) as [Hg _]. split; [|done].
    apply (frames_wf_update m m' slot (mk_record g owner (state_code state))); try done.
    + apply record_wf_state. unfold g. rewrite next_frame_generation_next_gen. by apply next_gen_ok.
    + by apply (words_wf_same (with_words m free summary)).
    + intros j. cbn [free_words m' with_records with_words record_state]. rewrite Hb.
      destruct (Nat.eqb_spec j slot); [|done]. pose proof (state_code_bounds state). unfold FREE. simpl.
      symmetry. apply Z.eqb_neq. lia.
Qed.

Lemma release_slot_spec m slot rec :
  frames_wf m -> (slot < frame_count m)%nat -> records m !! slot = Some rec ->
  exists m', release_slot m slot = Some m' ∧ frames_wf m' ∧ same m m' ∧
    records m' = <[slot := mk_record (record_generation rec) 0 FREE]> (records m).
Proof.
  intros H Hlt Er. unfold release_slot. rewrite Er. cbn [mbind option_bind].
  set (m1 := with_records m _).
  destruct (set_free_spec m1 slot) as (free & summary & -> & Hw & Hl & _ & Hb).
  { by apply (words_wf_same m), H. }
  { pose proof (fw_bits _ H). cbn [m1 free_words with_records]. lia. }
  eexists. split; [done|]. split; [|done].
  pose proof (Forall_lookup_1 _ _ _ _ (fw_records _ H) Er) as [Hg _].
  apply (frames_wf_update m _ slot (mk_record (record_generation rec) 0 FREE)); try done.
Qed.
