(* ===== verification/FrameOps.v ===== *)
(** * What the operations of the frame manager do

    The behaviour of every operation of [Frames] on a well-formed manager, in
    terms of the records alone: which frame it takes, what it stamps, what it
    leaves untouched and when it fails. *)

From Stdlib Require Import ZArith Lia ZifyNat Sorted.
From stdpp Require Import base list option numbers sorting.
From S2P Require Import Prelude MemoryMap FrameLayout Frames FrameSearch FrameInv.

#[local] Open Scope Z_scope.
#[local] Opaque WORD_ROUNDS.

Implicit Types (m : PhysicalFrameManager) (slot : nat) (l : FrameLease).

(** ** Free slots *)

Definition free_slot m slot : Prop :=
  (slot < frame_count m)%nat ∧ exists rec, records m !! slot = Some rec ∧ record_state rec = FREE.

Lemma free_slot_bit m slot : frames_wf m -> bit (free_words m) slot = true <-> free_slot m slot.
Proof. intros H. apply (fw_free _ H). Qed.

#[export] Instance free_slot_dec m slot : Decision (free_slot m slot).
Proof.
  unfold free_slot. destruct (decide (slot < frame_count m)%nat) as [Hl|Hl]; [|right; tauto].
  destruct (records m !! slot) as [rec|]; [|right; intros (_ & rec & E & _); done].
  destruct (decide (record_state rec = FREE)) as [Hs|Hs].
  - left. split; [done|]. by exists rec.
  - right. intros (_ & rec' & [= <-] & E). done.
Defined.

(** All of them, lowest first. *)
Definition free_slots m : list nat := filter (free_slot m) (seq 0 (frame_count m)).

Lemma is_free_spec m slot : frames_wf m -> (slot < frame_count m)%nat ->
  is_free m slot = Some (bool_decide (free_slot m slot)).
Proof.
  intros H Hlt. rewrite is_free_bit by (pose proof (fw_bits _ H); lia). f_equal.
  apply eq_true_iff_eq. by rewrite bool_decide_eq_true, free_slot_bit.
Qed.

(** ** Single frames *)

(** [m'] is [m] with the record of [slot] rewritten. *)
Definition rewrites m slot (rec : FrameRecord) m' : Prop :=
  frames_wf m' ∧ same m m' ∧ records m' = <[slot := rec]> (records m).

Lemma rewrites_free m m' slot rec s : frames_wf m -> (slot < frame_count m)%nat -> rewrites m slot rec m' ->
  free_slot m' s <-> if (s =? slot)%nat then record_state rec = FREE else free_slot m s.
Proof.
  intros H Hlt (_ & (_ & _ & Ec) & Er). unfold free_slot. rewrite Er, Ec. pose proof (fw_length _ H).
  destruct (Nat.eqb_spec s slot) as [->|Hne].
  - rewrite list_lookup_insert_eq by lia. split; [by intros (_ & ? & [= <-] & ?)|].
    intros ?. split; [done|]. by exists rec.
  - by rewrite list_lookup_insert_ne.
Qed.

Definition stamped (rec : FrameRecord) (owner : OwnerId) (state : FrameState) : FrameRecord :=
  mk_record (next_frame_generation (record_generation rec)) owner (state_code state).

(** The lease that goes with [stamped]. *)
Definition leased m slot (rec : FrameRecord) (owner : OwnerId) (state : FrameState) l : Prop :=
  lease_for m slot (next_frame_generation (record_generation rec)) owner state 0 l.

Lemma claim_free m slot rec owner state :
  frames_wf m -> free_slot m slot -> records m !! slot = Some rec ->
  exists m' l, claim m slot owner state = Some (m', Ok l) ∧ rewrites m slot (stamped rec owner state) m' ∧
    leased m slot rec owner state l.
Proof.
  intros H (Hlt & rec' & E & Hs) Er. rewrite Er in E. injection E as <-.
  destruct (claim_spec m slot rec owner state H Hlt Er Hs) as (m' & l & E & Hw & Hsm & Hr & Hl).
  exists m', l. done.
Qed.

Lemma try_alloc_in_range_spec m owner state first last : frames_wf m ->
  if decide (owner ≠ 0 ∧ (first <= last)%nat ∧ (last <= frame_count m)%nat) then
    (exists slot rec m' l, least (fun s => (first <= s < last)%nat ∧ free_slot m s) (Some slot) ∧
       records m !! slot = Some rec ∧ try_alloc_in_range m owner state first last = Some (m', Ok l) ∧
       rewrites m slot (stamped rec owner state) m' ∧ leased m slot rec owner state l) ∨
    ((forall s, (first <= s < last)%nat -> ¬ free_slot m s) ∧
     try_alloc_in_range m owner state first last = Some (m, Err Exhausted))
  else try_alloc_in_range m owner state first last = Some (m, Err InvalidFrame).
Proof.
  intros H. unfold try_alloc_in_range. destruct (decide _) as [(Ho & Hfl & Hl)|Hno].
  - destruct (Z.eqb_spec owner 0); [done|]. destruct (Nat.ltb_spec last first); [lia|].
    destruct (Nat.ltb_spec (frame_count m) last); [lia|]. cbn [orb].
    rewrite find_free_slot_spec; [|apply H|done|pose proof (fw_bits _ H); lia]. cbn [mbind option_bind].
    pose proof (first_free_least m first last) as Hleast. unfold candidate in Hleast.
    destruct (first_free m first last) as [slot|]; cbn [least] in Hleast.
    + destruct Hleast as [[Hs Hb] Hmin]. apply free_slot_bit in Hb as Hf; [|done].
      destruct Hf as (Hlt & rec & Er & Hst). left.
      destruct (claim_free m slot rec owner state) as (m' & l & E & Hrw & Hls); [done|split; [done|by exists rec]|done|].
      exists slot, rec, m', l. split; [|done]. split; [split; [done|split; [done|by exists rec]]|].
      intros s' [Hs' Hf']. apply Hmin. split; [done|]. by apply free_slot_bit.
    + right. split; [|done]. intros s Hs Hf. apply (Hleast s). split; [done|]. by apply free_slot_bit.
  - destruct (Z.eqb_spec owner 0); [done|]. destruct (Nat.ltb_spec last first); [done|].
    destruct (Nat.ltb_spec (frame_count m) last); [done|]. destruct Hno. lia.
Qed.

Definition released (g : Z) : FrameRecord := mk_record g 0 FREE.

Lemma free_spec m l : frames_wf m ->
  (current m l ∧ exists m', free m l = Some (m', Ok tt) ∧ rewrites m (lease_slot l) (released (lease_generation l)) m') ∨
  (¬ current m l ∧ exists e, free m l = Some (m, Err e)).
Proof.
  intros H. unfold free. destruct (validate_lease_spec m l (fw_records _ H)) as [[Hc ->]|[Hc [e ->]]]; [|right; by eauto].
  left. split; [done|]. pose proof (current_lt _ _ H Hc) as Hlt.
  destruct (release_slot_spec m (lease_slot l) _ H Hlt Hc) as (m' & -> & Hw & Hs & Hr).
  exists m'. done.
Qed.

Lemma release_reservation_spec m l : frames_wf m ->
  (current m l ∧ lease_state l = Reserved ∧ exists m', release_reservation m l = Some (m', Ok tt) ∧
     rewrites m (lease_slot l) (released (lease_generation l)) m') ∨
  (¬ (current m l ∧ lease_state l = Reserved) ∧ exists e, release_reservation m l = Some (m, Err e)).
Proof.
  intros H. unfold release_reservation.
  destruct (validate_lease_spec m l (fw_records _ H)) as [[Hc ->]|[Hc [e ->]]]; [|right; split; [tauto|by eauto]].
  destruct (decide (lease_state l = Reserved)) as [Hr|Hr]; [|right; split; [tauto|by eauto]].
  left. split; [done|]. split; [done|]. pose proof (current_lt _ _ H Hc) as Hlt.
  destruct (release_slot_spec m (lease_slot l) _ H Hlt Hc) as (m' & -> & Hw & Hs & Hr').
  exists m'. done.
Qed.

Lemma refresh_spec m l : frames_wf m ->
  (current m l ∧ exists m' l', refresh m l = Some (m', Ok l') ∧
     rewrites m (lease_slot l)
       (mk_record (next_frame_generation (lease_generation l)) (lease_owner l) (state_code (lease_state l))) m' ∧
     lease_for m (lease_slot l) (next_frame_generation (lease_generation l)) (lease_owner l) (lease_state l)
       (home_cpu l) l') ∨
  (¬ current m l ∧ exists e, refresh m l = Some (m, Err e)).
Proof.
  intros H. unfold refresh. destruct (validate_lease_spec m l (fw_records _ H)) as [[Hc ->]|[Hc [e ->]]]; [|right; by eauto].
  left. split; [done|]. pose proof (current_lt _ _ H Hc) as Hlt. unfold current in Hc. rewrite Hc. cbn [mbind option_bind].
  cbn [record_generation record_owner record_state]. set (rec := mk_record (next_frame_generation _) _ _).
  set (m' := with_records m (<[lease_slot l := rec]> (records m))).
  pose proof (Forall_lookup_1 _ _ _ _ (fw_records _ H) Hc) as [Hg _]. cbn [record_generation] in Hg.
  destruct (lease_on_spec m' (lease_slot l) (record_generation rec) (lease_owner l) (lease_state l) (home_cpu l) rec)
    as (l' & E & Hfor); [by apply (runs_wf_same m), H|apply H|done| |done|].
  { apply list_lookup_insert_eq. pose proof (fw_length _ H). lia. }
  cbn [record_generation rec] in E. rewrite E. cbn [mbind option_bind]. exists m', l'. split; [done|]. split; [|done].
  split; [|done]. apply (frames_wf_update m m' (lease_slot l) rec); try done.
  - apply record_wf_state. rewrite next_frame_generation_next_gen. by apply next_gen_ok.
  - by apply (words_wf_same m), H.
  - intros j. cbn [free_words m' with_records record_state rec]. destruct (Nat.eqb_spec j (lease_slot l)) as [->|]; [|done].
    pose proof (state_code_bounds (lease_state l)). destruct (Z.eqb_spec (state_code (lease_state l)) FREE) as [Hx|Hx].
    + unfold FREE in Hx. lia.
    + destruct (bit (free_words m) (lease_slot l)) eqn:Hb; [|done]. apply (fw_free _ H) in Hb as (_ & r & Er & Hs).
      rewrite Hc in Er. injection Er as <-. done.
Qed.

Lemma reserve_spec m a owner : frames_wf m ->
  (exists slot id rec m' l, frame_at m slot id (address_raw a) ∧ free_slot m slot ∧ records m !! slot = Some rec ∧
     reserve m a owner = Some (m', Ok l) ∧ rewrites m slot (stamped rec owner Reserved) m' ∧
     leased m slot rec owner Reserved l) ∨
  (exists slot id, frame_at m slot id (address_raw a) ∧ ¬ free_slot m slot ∧ reserve m a owner = Some (m, Err AlreadyUsed)) ∨
  ((forall slot id, ¬ frame_at m slot id (address_raw a)) ∧ reserve m a owner = Some (m, Err InvalidFrame)).
Proof.
  intros H. unfold reserve. pose proof (fw_runs _ H) as Hr. pose proof (fw_count _ H) as Hc.
  destruct (id_for_address_spec m Hr Hc (address_raw a)) as [(slot & id & Hf & ->)|[Hno ->]]; cbn [mbind option_bind].
  2: { right. right. done. }
  rewrite (slot_for_id_spec _ _ _ _ Hf). pose proof (frame_at_lt _ _ _ _ Hr Hf) as Hlt.
  rewrite is_free_spec by done. cbn [mbind option_bind].
  destruct (bool_decide (free_slot m slot)) eqn:Hb; boolprop; cbn [negb]; [left|right; left; by exists slot, id].
  pose proof Hb as (_ & rec & Er & Hs).
  destruct (claim_free m slot rec owner Reserved H Hb Er) as (m' & l & E & Hrw & Hl).
  exists slot, id, rec, m', l. unfold claim in E. done.
Qed.

(** The slot an address names: by the identity it carries, or by its value. *)
Definition names m (a : FrameAddress) slot : Prop :=
  match address_id a with
  | Some id => slot_for_id m id = Some slot
  | None => exists id, frame_at m slot id (address_raw a)
  end.

Definition releasable (a : FrameAddress) (rec : FrameRecord) : Prop :=
  record_state rec ≠ FREE ∧ (address_generation a = 0 ∨ address_generation a = record_generation rec).

Lemma release_address_spec m a : frames_wf m ->
  (exists slot rec m', names m a slot ∧ records m !! slot = Some rec ∧ releasable a rec ∧
     release_address m a = Some (m', Ok tt) ∧ rewrites m slot (released (record_generation rec)) m') ∨
  ((forall slot rec, names m a slot -> records m !! slot = Some rec -> ¬ releasable a rec) ∧
   exists e, release_address m a = Some (m, Err e)).
Proof.
  intros H. unfold release_address, names. pose proof (fw_runs _ H) as Hr. pose proof (fw_count _ H) as Hc.
  assert (Hid : (exists slot id, slot_for_id m id = Some slot ∧ names m a slot ∧
      match address_id a with Some id => Some (Some id) | None => id_for_address m (address_raw a) end = Some (Some id)) ∨
    ((forall slot, ¬ names m a slot) ∧
     (match address_id a with Some id => Some (Some id) | None => id_for_address m (address_raw a) end = Some None ∨
      exists id, match address_id a with Some id => Some (Some id) | None => id_for_address m (address_raw a) end = Some (Some id) ∧
        slot_for_id m id = None))).
  { unfold names. destruct (address_id a) as [id|].
    - destruct (slot_for_id m id) as [slot|] eqn:E; [left; by exists slot, id|right]. split; [done|]. right. by exists id.
    - destruct (id_for_address_spec m Hr Hc (address_raw a)) as [(slot & id & Hf & ->)|[Hno ->]].
      + left. exists slot, id. split; [by eapply slot_for_id_spec|]. split; [by exists id|done].
      + right. split; [|by left]. intros slot [id Hf]. by apply (Hno slot id). }
  destruct Hid as [(slot & id & Hsl & Hnm & ->)|[Hno Hid]]; cbn [mbind option_bind].
  2: { right. split; [intros slot rec Hn; by destruct (Hno slot)|].
       destruct Hid as [->|(id & -> & Hsl)]; cbn [mbind option_bind]; [by eauto|]. rewrite Hsl. by eauto. }
  rewrite Hsl. destruct (slot_for_id_inv m Hr slot id Hsl) as [raw Hf].
  pose proof (frame_at_lt _ _ _ _ Hr Hf) as Hlt.
  assert (Hsame : forall slot' , names m a slot' -> slot' = slot).
  { intros slot' Hn. unfold names in Hn, Hnm. destruct (address_id a); [congruence|].
    destruct Hn as [id1 F1], Hnm as [id2 F2]. destruct (decide (slot' = slot)); [done|].
    pose proof (frame_at_inj m _ _ _ _ _ _ Hr F1 F2 ltac:(done)). unfold PAGE_SIZE in *. lia. }
  destruct (lookup_lt_is_Some_2 (records m) slot) as [rec Er]; [pose proof (fw_length _ H); lia|].
  rewrite Er. cbn [mbind option_bind].
  assert (Hnot : ¬ releasable a rec ->
    forall slot' rec', names m a slot' -> records m !! slot' = Some rec' -> ¬ releasable a rec').
  { intros Hn slot' rec' Hn' Er'. rewrite (Hsame _ Hn'), Er in Er'. by injection Er' as <-. }
  destruct (Z.eqb_spec (record_state rec) FREE) as [Hs|Hs].
  { right. split; [|by eauto]. apply Hnot. by intros [? _]. }
  destruct (negb (address_generation a =? 0) && negb (address_generation a =? record_generation rec)) eqn:Hg.
  { right. split; [|by eauto]. apply Hnot. boolprop. intros [_ [?|?]]; done. }
  rewrite (address_spec m Hr _ _ _ _ Hf Er). cbn [mbind option_bind]. rewrite (slot_as_u32 m slot H Hlt).
  left. set (lease := mk_lease _ _ _ _ _ _ _).
  destruct (free_spec m lease H) as [(Hcur & m' & E & Hrw)|[Hcur _]].
  - exists slot, rec, m'. split; [done|]. split; [done|]. split; [|done]. split; [done|].
    apply andb_false_iff in Hg as [Hg|Hg]; boolprop; tauto.
  - destruct Hcur. unfold current. cbn [lease lease_slot lease_generation lease_owner lease_state]. rewrite Er. f_equal.
    pose proof (Forall_lookup_1 _ _ _ _ (fw_records _ H) Er) as [_ Hst]. destruct rec as [g o s].
    cbn [record_generation record_owner record_state] in *. f_equal. unfold FREE, ZEROED in *.
    destruct (Z.eqb_spec s 3) as [->|]; [done|]. destruct (Z.eqb_spec s 2) as [->|]; [done|].
    assert (s = 1) as -> by lia. done.
Qed.

(** ** Stamps

    [evolves n m m']: between [m] and [m'] no frame was stamped more than [n]
    times, and a free frame that was not stamped is still free. *)

Definition evolves (n : nat) m m' : Prop :=
  frames_wf m' ∧ same m m' ∧
  forall slot rec, records m !! slot = Some rec -> exists rec' k, records m' !! slot = Some rec' ∧ (k <= n)%nat ∧
    record_generation rec' = Nat.iter k (next_gen 16) (record_generation rec) ∧
    (k = 0%nat -> record_state rec = FREE -> record_state rec' = FREE).

Lemma evolves_refl n m : frames_wf m -> evolves n m m.
Proof. intros H. split; [done|]. split; [done|]. intros slot rec E. exists rec, 0%nat. repeat split; [done|lia|done]. Qed.

Lemma evolves_trans n1 n2 m1 m2 m3 : evolves n1 m1 m2 -> evolves n2 m2 m3 -> evolves (n1 + n2) m1 m3.
Proof.
  intros (H1 & S1 & E1) (H2 & S2 & E2). split; [done|]. split; [by eapply same_trans|]. intros slot rec E.
  destruct (E1 slot rec E) as (r2 & k1 & Er2 & Hk1 & Hg1 & Hf1).
  destruct (E2 slot r2 Er2) as (r3 & k2 & Er3 & Hk2 & Hg2 & Hf2).
  exists r3, (k2 + k1)%nat. split; [done|]. split; [lia|]. split; [by rewrite Nat.iter_add, Hg2, Hg1|].
  intros Hk Hs. apply Hf2; [lia|]. apply Hf1; [lia|done].
Qed.

Lemma evolves_mono n n' m m' : (n <= n')%nat -> evolves n m m' -> evolves n' m m'.
Proof.
  intros Hn (H & S & E). split; [done|]. split; [done|]. intros slot rec Er.
  destruct (E slot rec Er) as (r & k & ? & ? & ?). exists r, k. repeat split; [done|lia|tauto..].
Qed.

Lemma rewrites_evolves m m' slot rec rec' k :
  records m !! slot = Some rec -> rewrites m slot rec' m' ->
  record_generation rec' = Nat.iter k (next_gen 16) (record_generation rec) ->
  (k = 0%nat -> record_state rec = FREE -> record_state rec' = FREE) -> evolves k m m'.
Proof.
  intros E (Hw & Hs & Hr) Hg Hf. split; [done|]. split; [done|]. intros s r Es. rewrite Hr.
  destruct (decide (s = slot)) as [->|Hne].
  - rewrite list_lookup_insert_eq by (by eapply lookup_lt_Some). rewrite E in Es. injection Es as <-.
    exists rec', k. done.
  - rewrite list_lookup_insert_ne by done. exists r, 0%nat. repeat split; [done|lia|done].
Qed.

Lemma stamped_evolves m m' slot rec owner state :
  records m !! slot = Some rec -> rewrites m slot (stamped rec owner state) m' -> evolves 1 m m'.
Proof. intros E H. by eapply rewrites_evolves. Qed.

Lemma released_evolves m m' slot rec :
  records m !! slot = Some rec -> rewrites m slot (released (record_generation rec)) m' -> evolves 0 m m'.
Proof. intros E H. by eapply rewrites_evolves. Qed.

(** ** Batches *)

(** [m'] and [batch] come from claiming the slots [ss] of [m] one after the other. *)
Inductive claimed m (owner : OwnerId) (state : FrameState) :
    list nat -> PhysicalFrameManager -> list FrameLease -> Prop :=
| claimed_nil : claimed m owner state [] m []
| claimed_snoc ss m1 batch slot rec m2 l :
    claimed m owner state ss m1 batch -> free_slot m1 slot -> records m1 !! slot = Some rec ->
    rewrites m1 slot (stamped rec owner state) m2 -> leased m1 slot rec owner state l ->
    claimed m owner state (ss ++ [slot]) m2 (batch ++ [l]).

Section claimed_facts.
Variables (m : PhysicalFrameManager) (owner : OwnerId) (state : FrameState).
Hypothesis H : frames_wf m.

Lemma claimed_wf ss m' batch : claimed m owner state ss m' batch -> frames_wf m' ∧ same m m'.
Proof.
  induction 1 as [|ss m1 batch slot rec m2 l Hc [IHw IHs] Hf Er (Hw & Hs & _) Hl]; [done|].
  split; [done|]. by eapply same_trans.
Qed.

Lemma stamped_not_free rec : record_state (stamped rec owner state) ≠ FREE.
Proof. cbn. pose proof (state_code_bounds state). unfold FREE. lia. Qed.

Lemma claimed_free ss m' batch s : claimed m owner state ss m' batch ->
  free_slot m' s <-> free_slot m s ∧ s ∉ ss.
Proof.
  induction 1 as [|ss m1 batch slot rec m2 l Hc IH Hf Er Hrw Hl].
  { split; [intros ?; split; [done|apply not_elem_of_nil]|tauto]. }
  destruct (claimed_wf _ _ _ Hc) as [Hw1 _].
  rewrite (rewrites_free m1 m2 slot (stamped rec owner state) s Hw1 (proj1 Hf) Hrw).
  rewrite elem_of_app, list_elem_of_singleton. destruct (Nat.eqb_spec s slot) as [->|Hne].
  - split; [intros Hx; by destruct (stamped_not_free rec)|tauto].
  - rewrite IH. tauto.
Qed.

Lemma claimed_slots ss m' batch : claimed m owner state ss m' batch ->
  NoDup ss ∧ Forall (free_slot m) ss ∧ lease_slot <$> batch = ss.
Proof.
  induction 1 as [|ss m1 batch slot rec m2 l Hc (IH1 & IH2 & IH3) Hf Er Hrw Hl]; [repeat split; constructor|].
  apply (claimed_free _ _ _ _ Hc) in Hf as [Hf Hn]. split; [|split].
  - apply list.NoDup_app. split; [done|]. split; [|apply NoDup_singleton]. by intros x Hx ->%list_elem_of_singleton.
  - apply Forall_app. split; [done|]. apply Forall_singleton. done.
  - rewrite fmap_app, IH3. destruct Hl as (id & raw & _ & ->). done.
Qed.

(** The records outside the claimed slots are untouched, those inside stamped once. *)
Lemma claimed_records ss m' batch s rec : claimed m owner state ss m' batch -> records m !! s = Some rec ->
  records m' !! s = Some (if decide (s ∈ ss) then stamped rec owner state else rec).
Proof.
  intros Hc E. induction Hc as [|ss m1 batch slot r m2 l Hc IH Hf Er (_ & _ & Hr) Hl].
  { by rewrite decide_False by apply not_elem_of_nil. }
  rewrite Hr. destruct (decide (s = slot)) as [->|Hne].
  - rewrite list_lookup_insert_eq by (by eapply lookup_lt_Some).
    rewrite decide_True by (apply elem_of_app; right; by apply list_elem_of_singleton).
    apply (claimed_free _ _ _ _ Hc) in Hf as [_ Hn]. rewrite decide_False in IH by done.
    rewrite Er in IH. by injection IH as ->.
  - rewrite list_lookup_insert_ne by done. rewrite IH. f_equal.
    destruct (decide (s ∈ ss)) as [Hi|Hi].
    + rewrite decide_True; [done|]. apply elem_of_app. by left.
    + rewrite decide_False; [done|]. rewrite elem_of_app, list_elem_of_singleton. tauto.
Qed.

Lemma claimed_evolves ss m' batch : claimed m owner state ss m' batch -> evolves 1 m m'.
Proof.
  intros Hc. destruct (claimed_wf _ _ _ Hc) as [Hw Hs]. split; [done|]. split; [done|]. intros s rec E.
  rewrite (claimed_records _ _ _ _ _ Hc E). destruct (decide (s ∈ ss)).
  - exists (stamped rec owner state), 1%nat. repeat split; [lia|done].
  - exists rec, 0%nat. repeat split; [lia|done].
Qed.

(** Each lease of the batch is the current one of its slot. *)
Lemma claimed_leases ss m' batch k l : claimed m owner state ss m' batch -> batch !! k = Some l ->
  current m' l ∧ exists slot rec, ss !! k = Some slot ∧ records m !! slot = Some rec ∧ leased m slot rec owner state l.
Proof.
  intros Hc Ek. destruct (claimed_slots _ _ _ Hc) as (Hnd & Hfr & Hsl).
  assert (Hgo : exists slot rec, ss !! k = Some slot ∧ records m !! slot = Some rec ∧ leased m slot rec owner state l).
  { clear Hnd Hfr Hsl. induction Hc as [|ss m1 batch slot r m2 l' Hc IH Hf Er Hrw Hl]; [done|].
    destruct (claimed_slots _ _ _ Hc) as (_ & _ & Hsl). apply (f_equal length) in Hsl. rewrite length_fmap in Hsl.
    destruct (claimed_wf _ _ _ Hc) as [_ Hs1].
    apply lookup_app_Some in Ek as [Ek|[Hk Ek]].
    - destruct (IH Ek) as (s & rec & E1 & E2). exists s, rec. split; [by apply lookup_app_l_Some|done].
    - apply list_lookup_singleton_Some in Ek as [Hk0 <-].
      pose proof (claimed_free _ _ _ slot Hc) as Hff. apply Hff in Hf as [(Hlt & rec & E & Hst) Hn].
      pose proof (claimed_records _ _ _ _ _ Hc E) as Er'. rewrite decide_False in Er' by done. rewrite Er in Er'. injection Er' as ->.
      exists slot, rec. split; [|split; [done|]].
      + rewrite lookup_app_r by lia. by replace (k - length ss)%nat with 0%nat by lia.
      + destruct Hl as (id & raw & Hat & ->). exists id, raw. split; [|done]. by apply (frame_at_same m m1). }
  split; [|done]. destruct Hgo as (slot & rec & E1 & E2 & (id & raw & Hat & ->)). unfold current. cbn.
  rewrite (claimed_records _ _ _ _ _ Hc E2). rewrite decide_True; [done|]. by eapply list_elem_of_lookup_2.
Qed.
End claimed_facts.

(** ** Giving a batch back *)

Lemma free_all_spec batch : forall m, frames_wf m -> Forall (current m) batch -> NoDup (lease_slot <$> batch) ->
  exists m', free_all m batch = Some (m', Ok tt) ∧ frames_wf m' ∧ same m m' ∧
    forall s rec, records m !! s = Some rec ->
      records m' !! s = Some (if decide (s ∈ lease_slot <$> batch) then released (record_generation rec) else rec).
Proof.
  induction batch as [|l batch IH]; intros m H Hc Hnd; cbn [free_all].
  { exists m. split; [done|]. split; [done|]. split; [done|]. intros s rec E. by rewrite decide_False by apply not_elem_of_nil. }
  apply Forall_cons_1 in Hc as [Hl Hc]. apply list.NoDup_cons in Hnd as [Hn Hnd].
  destruct (free_spec m l H) as [(_ & m1 & -> & Hrw)|[? _]]; [|done]. cbn [mbind option_bind].
  destruct Hrw as (Hw1 & Hs1 & Hr1).
  destruct (IH m1) as (m' & E & Hw & Hs & Hr); [done| |done|].
  { apply list.Forall_forall. intros l' Hl'. unfold current. rewrite Hr1, list_lookup_insert_ne.
    - by apply (proj1 (list.Forall_forall _ _) Hc l').
    - intros Heq. apply Hn. rewrite Heq. apply list_elem_of_fmap. by exists l'. }
  exists m'. split; [done|]. split; [done|]. split; [by eapply same_trans|]. intros s rec Es. rewrite fmap_cons.
  destruct (decide (s = lease_slot l)) as [->|Hne].
  - rewrite decide_True by left. unfold current in Hl. rewrite Hl in Es. injection Es as <-. cbn [record_generation].
    rewrite (Hr (lease_slot l) (released (lease_generation l))).
    + by rewrite decide_False.
    + rewrite Hr1. apply list_lookup_insert_eq. by eapply lookup_lt_Some.
  - rewrite (Hr s rec); [|by rewrite Hr1, list_lookup_insert_ne]. f_equal.
    destruct (decide (s ∈ lease_slot <$> batch)); [rewrite decide_True by (by right)|rewrite decide_False]; [done..|].
    by intros [?|?]%elem_of_cons.
Qed.

Lemma validate_all_ok m batch : frames_wf m -> Forall (current m) batch -> validate_all m batch = Ok tt.
Proof.
  intros H. induction 1 as [|l batch Hl Hc IH]; cbn [validate_all]; [done|]. by rewrite validate_ok.
Qed.

Lemma validate_all_err m batch : frames_wf m -> ¬ Forall (current m) batch -> exists e, validate_all m batch = Err e.
Proof.
  intros H. induction batch as [|l batch IH]; intros Hn; [destruct Hn; constructor|]. cbn [validate_all].
  destruct (validate_lease_spec m l (fw_records _ H)) as [[Hc ->]|[_ [e ->]]]; [|by eauto].
  apply IH. intros Hb. apply Hn. by constructor.
Qed.

Lemma free_batch_ok m batch : frames_wf m -> Forall (current m) batch -> NoDup (lease_slot <$> batch) ->
  exists m', free_batch m batch = Some (m', Ok tt) ∧ frames_wf m' ∧ same m m' ∧
    forall s rec, records m !! s = Some rec ->
      records m' !! s = Some (if decide (s ∈ lease_slot <$> batch) then released (record_generation rec) else rec).
Proof. intros H Hc Hnd. unfold free_batch. rewrite validate_all_ok by done. by apply free_all_spec. Qed.

Lemma free_batch_err m batch : frames_wf m -> ¬ Forall (current m) batch -> exists e, free_batch m batch = Some (m, Err e).
Proof. intros H Hc. unfold free_batch. destruct (validate_all_err m batch H Hc) as [e ->]. by eauto. Qed.

(** Held frames are untouched and free ones still free; their generations may
    have advanced. *)
Definition restored m m' : Prop :=
  frames_wf m' ∧ same m m' ∧
  forall s rec, records m !! s = Some rec ->
    (record_state rec ≠ FREE -> records m' !! s = Some rec) ∧
    (record_state rec = FREE -> exists rec', records m' !! s = Some rec' ∧ record_state rec' = FREE).

Lemma restored_refl m : frames_wf m -> restored m m.
Proof. intros H. split; [done|]. split; [done|]. intros s rec E. split; [done|by exists rec]. Qed.

Lemma claimed_rollback m owner state ss m1 batch : frames_wf m -> claimed m owner state ss m1 batch ->
  exists m2, free_batch m1 batch = Some (m2, Ok tt) ∧ restored m m2 ∧ evolves 1 m m2.
Proof.
  intros H Hc. destruct (claimed_wf m owner state H _ _ _ Hc) as [Hw1 Hs1].
  destruct (claimed_slots m owner state H _ _ _ Hc) as (Hnd & Hfr & Hsl).
  destruct (free_batch_ok m1 batch Hw1) as (m2 & E & Hw2 & Hs2 & Hr2); [|by rewrite Hsl|].
  { apply Forall_lookup_2. intros k l Ek. by apply (claimed_leases m owner state H _ _ _ k l Hc). }
  rewrite Hsl in Hr2.
  assert (Hrec : forall s rec, records m !! s = Some rec -> records m2 !! s =
    Some (if decide (s ∈ ss) then released (next_frame_generation (record_generation rec)) else rec)).
  { intros s rec Es. rewrite (Hr2 s _ (claimed_records m owner state H _ _ _ _ _ Hc Es)). by destruct (decide (s ∈ ss)). }
  exists m2. split; [done|]. assert (same m m2) as Hsame by (by eapply same_trans). split.
  - split; [done|]. split; [done|]. intros s rec Es. rewrite (Hrec s rec Es). split; intros Hst.
    + rewrite decide_False; [done|]. intros Hin. pose proof (proj1 (list.Forall_forall _ _) Hfr s Hin) as (_ & r & Er & Hf).
      rewrite Es in Er. injection Er as <-. done.
    + eexists. split; [done|]. by destruct (decide (s ∈ ss)).
  - split; [done|]. split; [done|]. intros s rec Es. rewrite (Hrec s rec Es). destruct (decide (s ∈ ss)).
    + eexists _, 1%nat. split; [done|]. split; [lia|]. by split.
    + eexists _, 0%nat. split; [done|]. split; [lia|]. by split.
Qed.

(** A loop that claims a frame for each item is all or nothing. *)
Lemma collect_batch_atomic {A} (step : PhysicalFrameManager -> A -> option (PhysicalFrameManager * result FrameLease FrameError))
    owner state :
  (forall m x, frames_wf m ->
    (exists slot rec m' l, step m x = Some (m', Ok l) ∧ free_slot m slot ∧ records m !! slot = Some rec ∧
       rewrites m slot (stamped rec owner state) m' ∧ leased m slot rec owner state l) ∨
    (exists e, step m x = Some (m, Err e))) ->
  forall items m m1 ss batch, frames_wf m -> claimed m owner state ss m1 batch ->
    (length batch + length items <= MAX_BATCH_FRAMES)%nat ->
    (exists ss' m' batch', collect_batch step m1 items batch = Some (m', Ok batch') ∧
       claimed m owner state (ss ++ ss') m' batch' ∧ length ss' = length items) ∨
    (exists e m', collect_batch step m1 items batch = Some (m', Err e) ∧ restored m m' ∧ evolves 1 m m').
Proof.
  intros Hstep items. induction items as [|x items IH]; intros m m1 ss batch H Hc Hlen; cbn [collect_batch].
  { left. exists [], m1, batch. by rewrite app_nil_r. }
  destruct (claimed_wf m owner state H _ _ _ Hc) as [Hw1 _].
  destruct (Hstep m1 x Hw1) as [(slot & rec & m2 & l & -> & Hf & Er & Hrw & Hl)|[e ->]]; cbn [mbind option_bind].
  - unfold batch_push. destruct (Nat.ltb_spec (length batch) MAX_BATCH_FRAMES); [|simpl in Hlen; lia].
    destruct (IH m m2 (ss ++ [slot]) (batch ++ [l]) H) as [(ss' & m' & batch' & E & Hc' & Hl')|Herr].
    + by econstructor.
    + rewrite length_app. simpl in *. lia.
    + left. exists (slot :: ss'), m', batch'. split; [done|]. split; [by rewrite <- app_assoc in Hc'|]. simpl. by rewrite Hl'.
    + by right.
  - right. destruct (claimed_rollback m owner state ss m1 batch H Hc) as (m2 & -> & Hr & He). cbn [mbind option_bind].
    by exists e, m2.
Qed.

Lemma reserve_batch_spec m addresses owner : frames_wf m ->
  (exists ss m' batch, reserve_batch m addresses owner = Some (m', Ok batch) ∧ claimed m owner Reserved ss m' batch ∧
     length ss = length addresses) ∨
  (exists e m', reserve_batch m addresses owner = Some (m', Err e) ∧ restored m m' ∧ evolves 1 m m').
Proof.
  intros H. unfold reserve_batch. destruct (_ || _) eqn:Hb.
  { right. exists BatchCapacity, m. split; [done|]. split; [by apply restored_refl|by apply evolves_refl]. }
  boolprop. destruct (collect_batch_atomic (fun m a => reserve m a owner) owner Reserved) with
    (items := addresses) (m := m) (m1 := m) (ss := @nil nat) (batch := @nil FrameLease) as [Hok|Herr].
  - intros m0 a Hm0. destruct (reserve_spec m0 a owner Hm0) as
      [(slot & id & rec & m' & l & _ & Hf & Er & E & Hrw & Hl)|[(slot & id & _ & _ & E)|[_ E]]].
    + left. by exists slot, rec, m', l.
    + right. by eexists.
    + right. by eexists.
  - done.
  - constructor.
  - simpl. apply Nat.ltb_ge. done.
  - left. done.
  - by right.
Qed.

(** ** Counting *)

Lemma length_filter_fmap {A B} (P : B -> Prop) `{!forall b, Decision (P b)} (f : A -> B) (k : list A) :
  length (filter P (f <$> k)) = length (filter (fun a => P (f a)) k).
Proof.
  induction k as [|a k IH]; [done|]. rewrite fmap_cons, !filter_cons.
  destruct (decide (P (f a))); simpl; by rewrite IH.
Qed.

Lemma filter_ext_in {A} (P Q : A -> Prop) `{!forall a, Decision (P a), !forall a, Decision (Q a)} (k : list A) :
  (forall a, a ∈ k -> P a <-> Q a) -> filter P k = filter Q k.
Proof.
  induction k as [|a k IH]; intros Hpq; [done|]. rewrite !filter_cons.
  assert (Ha : P a <-> Q a) by (apply Hpq; left). rewrite IH by (intros b Hb; apply Hpq; by right).
  destruct (decide (P a)), (decide (Q a)); tauto.
Qed.

Lemma count_words words w : (w <= length words)%nat ->
  sum_list (count_ones <$> take w words) = length (filter (fun k => bit words k = true) (seq 0 (64 * w))).
Proof.
  induction w as [|w IH]; intros Hw; [done|].
  destruct (lookup_lt_is_Some_2 words w ltac:(lia)) as [x Ex].
  rewrite (take_S_r _ _ x Ex), fmap_app, sum_list_with_app, IH by lia.
  replace (64 * S w)%nat with (64 * w + 64)%nat by lia. rewrite seq_app, list.filter_app, length_app. f_equal.
  change (sum_list_with id (count_ones <$> [x])) with (count_ones x + 0)%nat. rewrite Nat.add_0_r. unfold count_ones.
  replace (0 + 64 * w)%nat with (64 * w + 0)%nat by lia. rewrite <- (fmap_add_seq _ 0), length_filter_fmap.
  f_equal. apply filter_ext_in. intros j Hj%elem_of_seq. rewrite (Nat.mul_comm 64), (bit_at _ x) by (done || lia). done.
Qed.

(** [available] counts the free frames. *)
Lemma available_spec m : frames_wf m -> available_frames m = Some (length (free_slots m)).
Proof.
  intros H. unfold available_frames. pose proof (fw_bits _ H) as Hb. set (w := ((frame_count m + 63) / 64)%nat).
  assert (Hw : (w <= length (free_words m))%nat) by (unfold w; lia).
  destruct (Nat.leb_spec w (length (free_words m))); [|lia]. f_equal. rewrite count_words by done.
  replace (64 * w)%nat with (frame_count m + (64 * w - frame_count m))%nat by (unfold w; lia).
  rewrite seq_app, list.filter_app, length_app. unfold free_slots.
  rewrite (filter_ext_in (fun k => bit (free_words m) k = true) (free_slot m)) by (intros k _; by apply free_slot_bit).
  enough (filter (fun k => bit (free_words m) k = true) (seq (0 + frame_count m) (64 * w - frame_count m)) = []) as ->
    by (simpl; lia).
  rewrite (filter_ext_in _ (fun _ => False)); [by induction (seq _ _)|].
  intros k Hk%elem_of_seq. rewrite free_slot_bit by done. split; [|done]. intros [? _]. lia.
Qed.

(** ** Allocating a batch: the lowest free frames *)

Lemma free_slots_elem m s : s ∈ free_slots m <-> free_slot m s.
Proof.
  unfold free_slots. rewrite list_elem_of_filter, elem_of_seq. split; [tauto|]. intros Hs. split; [done|].
  destruct Hs as [? _]. lia.
Qed.

Lemma filter_seq_sorted (P : nat -> Prop) `{!forall k, Decision (P k)} n : forall a, StronglySorted lt (filter P (seq a n)).
Proof.
  induction n as [|n IH]; intros a; [constructor|]. cbn [seq]. rewrite filter_cons. destruct (decide (P a)); [|done].
  constructor; [done|]. apply list.Forall_forall. intros k [_ Hk%elem_of_seq]%list_elem_of_filter. lia.
Qed.

(** The least free slot outside the first [k] is the next one. *)
Lemma free_slots_next m k s : free_slots m !! k = Some s ->
  least (fun x => free_slot m x ∧ x ∉ take k (free_slots m)) (Some s).
Proof.
  intros E. pose proof (filter_seq_sorted (free_slot m) (frame_count m) 0) as Hs. fold (free_slots m) in Hs.
  rewrite <- (take_drop_middle _ _ _ E) in Hs. apply StronglySorted_app in Hs as (Hlow & _ & Hhigh).
  split.
  - split; [apply free_slots_elem; by eapply list_elem_of_lookup_2|]. intros Hin.
    specialize (Hlow s s Hin ltac:(left)). lia.
  - intros x [Hx Hn]. apply free_slots_elem in Hx. rewrite <- (take_drop_middle _ _ _ E) in Hx.
    apply elem_of_app in Hx as [?|[->|Hx]%elem_of_cons]; [done|done|].
    inversion_clear Hhigh as [|? ? _ Hall]. pose proof (proj1 (list.Forall_forall _ _) Hall x Hx). lia.
Qed.

Lemma try_alloc_spec m owner state : frames_wf m -> owner ≠ 0 ->
  (exists slot rec m' l, least (free_slot m) (Some slot) ∧ records m !! slot = Some rec ∧
     try_alloc m owner state = Some (m', Ok l) ∧ rewrites m slot (stamped rec owner state) m' ∧
     leased m slot rec owner state l) ∨
  ((forall s, ¬ free_slot m s) ∧ try_alloc m owner state = Some (m, Err Exhausted)).
Proof.
  intros H Ho. pose proof (try_alloc_in_range_spec m owner state 0 (frame_count m) H) as Hs.
  rewrite decide_True in Hs by (split; [done|lia]).
  assert (Hf : forall s, (0 <= s < frame_count m)%nat ∧ free_slot m s <-> free_slot m s).
  { intros s. split; [tauto|]. intros Hs'. split; [|done]. destruct Hs' as [? _]. lia. }
  destruct Hs as [(slot & rec & m' & l & [H1 H2] & H3)|[Hno E]].
  - left. exists slot, rec, m', l. split; [|done]. split; [apply H1|]. intros s Hs. apply H2, (proj2 (Hf s)), Hs.
  - right. split; [|done]. intros s Hs. apply (Hno s); [|done]. destruct Hs as [? _]. lia.
Qed.

Lemma alloc_loop_spec m owner state : frames_wf m -> owner ≠ 0 ->
  forall n k m1 batch a, claimed m owner state (take k (free_slots m)) m1 batch ->
    (k + n <= length (free_slots m))%nat -> (k + n <= MAX_BATCH_FRAMES)%nat ->
    exists m' batch', collect_batch (fun m _ => try_alloc m owner state) m1 (seq a n) batch = Some (m', Ok batch') ∧
      claimed m owner state (take (k + n) (free_slots m)) m' batch'.
Proof.
  intros H Ho. induction n as [|n IH]; intros k m1 batch a Hc Hk Hmax.
  { exists m1, batch. by rewrite Nat.add_0_r. }
  cbn [seq collect_batch]. destruct (claimed_wf m owner state H _ _ _ Hc) as [Hw1 _].
  destruct (lookup_lt_is_Some_2 (free_slots m) k ltac:(lia)) as [s Es].
  pose proof (free_slots_next m k s Es) as Hnext.
  assert (Hf1 : forall x, free_slot m1 x <-> free_slot m x ∧ x ∉ take k (free_slots m))
    by (intros x; by apply (claimed_free m owner state H _ _ batch)).
  destruct (try_alloc_spec m1 owner state Hw1 Ho) as [(slot & rec & m2 & l & Hl & Er & -> & Hrw & Hle)|[Hno _]].
  2: { destruct (Hno s). by apply Hf1, Hnext. }
  assert (slot = s) as ->.
  { enough (Some slot = Some s) by congruence. apply (least_unique (free_slot m1)); [done|].
    destruct Hnext as [Hn1 Hn2]. split; [by apply Hf1|]. intros x Hx. by apply Hn2, Hf1. }
  cbn [mbind option_bind]. pose proof (claimed_slots m owner state H _ _ _ Hc) as (_ & _ & Hlen).
  apply (f_equal length) in Hlen. rewrite length_fmap, length_take in Hlen.
  unfold batch_push. destruct (Nat.ltb_spec (length batch) MAX_BATCH_FRAMES); [|lia].
  destruct (IH (S k) m2 (batch ++ [l]) (S a)) as (m' & batch' & E & Hc'); [|lia|lia|].
  - rewrite (take_S_r _ _ s Es). econstructor; [done| |done|done|done]. apply Hl.
  - exists m', batch'. split; [done|]. by replace (k + S n)%nat with (S k + n)%nat by lia.
Qed.

Lemma alloc_batch_spec m owner count state : frames_wf m -> owner ≠ 0 -> (0 < count <= MAX_BATCH_FRAMES)%nat ->
  if decide (count <= length (free_slots m))%nat then
    exists m' batch, alloc_batch m owner count state = Some (m', Ok batch) ∧
      claimed m owner state (take count (free_slots m)) m' batch
  else alloc_batch m owner count state = Some (m, Err Exhausted).
Proof.
  intros H Ho Hc. unfold alloc_batch. destruct (Nat.eqb_spec count 0); [lia|].
  destruct (Nat.ltb_spec MAX_BATCH_FRAMES count); [lia|]. cbn [orb].
  rewrite available_spec by done. cbn [mbind option_bind].
  destruct (Nat.ltb_spec (length (free_slots m)) count), (decide (count <= length (free_slots m))%nat); try lia; [done|].
  destruct (alloc_loop_spec m owner state H Ho count 0 m [] 0) as (m' & batch & E & Hcl); [constructor|lia|lia|].
  by exists m', batch.
Qed.

Lemma alloc_batch_inv m owner count state m' batch : frames_wf m ->
  alloc_batch m owner count state = Some (m', Ok batch) ->
  owner ≠ 0 ∧ (0 < count <= MAX_BATCH_FRAMES)%nat ∧ (count <= length (free_slots m))%nat ∧
  claimed m owner state (take count (free_slots m)) m' batch.
Proof.
  intros H E. assert (Hc : (0 < count <= MAX_BATCH_FRAMES)%nat).
  { unfold alloc_batch in E. destruct (Nat.eqb_spec count 0); [done|].
    destruct (Nat.ltb_spec MAX_BATCH_FRAMES count); [done|lia]. }
  assert (Ho : owner ≠ 0).
  { intros ->. unfold alloc_batch in E. destruct (_ || _) in E; [done|]. rewrite available_spec in E by done.
    cbn [mbind option_bind] in E. destruct (length (free_slots m) <? count)%nat; [done|].
    destruct count as [|count]; [lia|]. cbn [seq collect_batch] in E.
    change (try_alloc m 0 state) with (Some (m, @Err FrameLease _ InvalidFrame)) in E. done. }
  pose proof (alloc_batch_spec m owner count state H Ho Hc) as Hs.
  destruct (decide (count <= length (free_slots m))%nat); [|rewrite Hs in E; done].
  destruct Hs as (m1 & b1 & E1 & Hcl). rewrite E1 in E. by injection E as -> ->.
Qed.

(** ** Contiguous frames: first fit within a run *)

Definition free_range_at m (count first : nat) : Prop := forall s, (first <= s < first + count)%nat -> free_slot m s.

Lemma all_free_spec m count : forall first, frames_wf m -> (first + count <= frame_count m)%nat ->
  exists b, all_free m first count = Some b ∧ (b = true <-> free_range_at m count first).
Proof.
  induction count as [|count IH]; intros first H Hlt; cbn [all_free].
  { exists true. split; [done|]. split; [|done]. intros _ s Hs. lia. }
  rewrite is_free_spec by (done || lia). cbn [mbind option_bind]. case_bool_decide as Hf.
  - destruct (IH (S first) H ltac:(lia)) as (b & -> & Hb). exists b. split; [done|]. rewrite Hb. split; intros Hr s Hs.
    + destruct (decide (s = first)) as [->|]; [done|]. apply Hr. lia.
    + apply Hr. lia.
  - exists false. split; [done|]. split; [done|]. intros Hr. destruct Hf. apply Hr. lia.
Qed.

Lemma claim_range_spec m owner state : frames_wf m -> forall count first ss m1 batch,
  claimed m owner state ss m1 batch -> (forall s, s ∈ ss -> (s < first)%nat) -> free_range_at m count first ->
  (length ss + count <= MAX_BATCH_FRAMES)%nat ->
  exists m' batch', claim_range m1 first count owner state batch = Some (m', Ok batch') ∧
    claimed m owner state (ss ++ seq first count) m' batch'.
Proof.
  intros H. induction count as [|count IH]; intros first ss m1 batch Hc Hss Hfr Hmax; cbn [claim_range seq].
  { exists m1, batch. by rewrite app_nil_r. }
  destruct (claimed_wf m owner state H _ _ _ Hc) as [Hw1 _].
  assert (Hf : free_slot m1 first).
  { apply (claimed_free m owner state H _ _ _ _ Hc). split; [apply Hfr; lia|]. intros Hin%Hss. lia. }
  pose proof Hf as (_ & rec & Er & _).
  destruct (claim_free m1 first rec owner state Hw1 Hf Er) as (m2 & l & -> & Hrw & Hl). cbn [mbind option_bind].
  pose proof (claimed_slots m owner state H _ _ _ Hc) as (_ & _ & Hlen).
  apply (f_equal length) in Hlen. rewrite length_fmap in Hlen.
  unfold batch_push. destruct (Nat.ltb_spec (length batch) MAX_BATCH_FRAMES); [|lia].
  destruct (IH (S first) (ss ++ [first]) m2 (batch ++ [l])) as (m' & batch' & E & Hc').
  - by econstructor.
  - intros s [Hs| ->%list_elem_of_singleton]%elem_of_app; [pose proof (Hss s Hs); lia|lia].
  - intros s Hs. apply Hfr. lia.
  - rewrite length_app. simpl. lia.
  - exists m', batch'. split; [done|]. by rewrite <- app_assoc in Hc'.
Qed.

(** [count] free frames from [first] on, inside the run [r]. *)
Definition fits_in m (count : nat) (r : RunMetadata) (first : nat) : Prop :=
  (first_slot r <= first)%nat ∧ (first + count <= first_slot r + meta_pages r)%nat ∧ free_range_at m count first.

Section contiguous.
Variables (m : PhysicalFrameManager) (owner : OwnerId) (state : FrameState) (count : nat).
Hypothesis H : frames_wf m.
Hypothesis Hcount : (0 < count <= MAX_BATCH_FRAMES)%nat.

(** The outcome of claiming from [first] on. *)
Definition claimed_at (first : nat) (res : PhysicalFrameManager * result (list FrameLease) FrameError) : Prop :=
  exists batch, res.2 = Ok batch ∧ claimed m owner state (seq first count) res.1 batch.

Lemma try_firsts_spec n : forall a, (a + n + count <= S (frame_count m))%nat ->
  (exists first res, try_firsts (seq a n) m count owner state = Some (Some res) ∧
     least (fun x => (a <= x < a + n)%nat ∧ free_range_at m count x) (Some first) ∧ claimed_at first res) ∨
  (try_firsts (seq a n) m count owner state = Some None ∧
   forall x, (a <= x < a + n)%nat -> ¬ free_range_at m count x).
Proof.
  induction n as [|n IH]; intros a Ha; cbn [seq try_firsts].
  { right. split; [done|]. intros x Hx. lia. }
  destruct (all_free_spec m count a H ltac:(lia)) as (b & -> & Hb). cbn [mbind option_bind]. destruct b.
  - left. destruct (claim_range_spec m owner state H count a [] m []) as (m' & batch & -> & Hc);
      [constructor|by intros s ?%not_elem_of_nil|by apply Hb|simpl; lia|]. cbn [mbind option_bind].
    exists a, (m', Ok batch). split; [done|]. split; [|by exists batch]. split; [split; [lia|by apply Hb]|].
    intros x [Hx _]. lia.
  - assert (Hn : ¬ free_range_at m count a) by (intros Hx; by apply Hb in Hx).
    destruct (IH (S a) ltac:(lia)) as [(first & res & E & [Hf Hmin] & Hc)|[E Hno]].
    + left. exists first, res. split; [done|]. split; [|done]. split; [split; [lia|apply Hf]|].
      intros x [Hx Hr]. destruct (decide (x = a)) as [->|]; [done|]. apply Hmin. split; [lia|done].
    + right. split; [done|]. intros x Hx. destruct (decide (x = a)) as [->|]; [done|]. apply Hno. lia.
Qed.

(** The outcome of the search over the runs [rs]. *)
Definition runs_outcome (rs : list RunMetadata)
    (o : option (PhysicalFrameManager * result (list FrameLease) FrameError)) : Prop :=
  (exists first res, o = Some res ∧
     least (fun x => exists j r, rs !! j = Some r ∧ fits_in m count r x) (Some first) ∧ claimed_at first res) ∨
  (o = Some (m, Err Exhausted) ∧ forall j r x, rs !! j = Some r -> ¬ fits_in m count r x).

Lemma runs_outcome_skip r rs o : (forall x, ¬ fits_in m count r x) -> runs_outcome rs o -> runs_outcome (r :: rs) o.
Proof.
  intros Hr [(first & res & -> & [(j & s & Es & Hs) Hmin] & Hc)|[-> Hno]].
  - left. exists first, res. split; [done|]. split; [|done]. split; [by exists (S j), s|].
    intros x ([|j'] & s' & Es' & Hs'); [injection Es' as <-; by destruct (Hr x)|]. apply Hmin. by exists j', s'.
  - right. split; [done|]. intros [|j] s x Es; [injection Es as <-; apply Hr|by apply (Hno j)].
Qed.

Lemma try_runs_spec rs : forall k, (forall j r, rs !! j = Some r -> live_run m (k + j) r) ->
  runs_outcome rs (try_runs rs m count owner state).
Proof.
  induction rs as [|r rs IH]; intros k Hlive; cbn [try_runs]; [right; done|].
  assert (Hr : live_run m k r) by (rewrite <- (Nat.add_0_r k); by apply (Hlive 0%nat)).
  pose proof (fw_runs _ H) as Hrw.
  assert (Htail : forall j s, rs !! j = Some s -> live_run m (S k + j) s).
  { intros j s Es. replace (S k + j)%nat with (k + S j)%nat by lia. by apply (Hlive (S j)). }
  specialize (IH (S k) Htail).
  destruct (Nat.ltb_spec (meta_pages r) count) as [Hp|Hp].
  { apply runs_outcome_skip; [|done]. intros x (Hx1 & Hx2 & _). lia. }
  assert (Hend : (first_slot r + meta_pages r <= frame_count m)%nat).
  { assert (Hlast : in_run r (first_slot r + meta_pages r - 1)) by (unfold in_run; lia).
    enough (first_slot r + meta_pages r - 1 < frame_count m)%nat by lia. apply (rw_cover _ Hrw). by exists k, r. }
  destruct (try_firsts_spec (S (meta_pages r - count)) (first_slot r) ltac:(lia))
    as [(first & res & -> & [[Hf1 Hf2] Hmin] & Hc)|[-> Hno]]; cbn [mbind option_bind].
  - left. exists first, res. split; [done|]. split; [|done]. split.
    + exists 0%nat, r. split; [done|]. split; [lia|]. split; [lia|done].
    + intros x ([|j] & s & Es & (Hs1 & Hs2 & Hs3)).
      * injection Es as <-. apply Hmin. split; [lia|done].
      * pose proof (rw_order _ Hrw _ _ _ _ Hr (Htail j s Es) ltac:(lia)) as [? _]. lia.
  - apply runs_outcome_skip; [|done]. intros x (Hx1 & Hx2 & Hx3). apply (Hno x); [lia|done].
Qed.
End contiguous.

Lemma alloc_contiguous_spec m owner count state : frames_wf m -> owner ≠ 0 -> (0 < count <= MAX_BATCH_FRAMES)%nat ->
  (exists first m' batch, alloc_contiguous m owner count state = Some (m', Ok batch) ∧
     least (fun x => exists i r, live_run m i r ∧ fits_in m count r x) (Some first) ∧
     claimed m owner state (seq first count) m' batch) ∨
  (alloc_contiguous m owner count state = Some (m, Err Exhausted) ∧
   forall i r x, live_run m i r -> ¬ fits_in m count r x).
Proof.
  intros H Ho Hc. unfold alloc_contiguous. destruct (Z.eqb_spec owner 0); [done|].
  destruct (Nat.eqb_spec count 0); [lia|]. destruct (Nat.ltb_spec MAX_BATCH_FRAMES count); [lia|]. cbn [orb].
  assert (Hl : forall j r, take (run_count m) (metas m) !! j = Some r <-> live_run m j r) by (intros; apply lookup_take_Some).
  destruct (try_runs_spec m owner state count H Hc (take (run_count m) (metas m)) 0) as
    [(first & [m' res] & -> & [(j & r & Ej & Hr) Hmin] & batch & Hb & Hcl)|[-> Hno]].
  - intros j r Ej. by apply Hl.
  - simpl in Hb, Hcl. subst res. left. exists first, m', batch. split; [done|]. split; [|done].
    split; [exists j, r; split; [by apply Hl|done]|]. intros x (i & s & Hi & Hs). apply Hmin. exists i, s.
    split; [by apply Hl|done].
  - right. split; [done|]. intros i r x Hi. apply (Hno i r x). by apply Hl.
Qed.
