(* ===== verification/FrameMemory.v ===== *)
(** * The frame manager in use

    Initialisation from a normalised memory map makes every usable page but
    page zero a free frame ([initialize_spec]).  From there on, whatever
    operations are applied with whatever arguments, the manager never panics
    and stays well formed; a frame that is held is a usable page nobody else
    holds, and a lease given up stays stale. *)

From Stdlib Require Import ZArith Lia ZifyNat.
From stdpp Require Import base list option numbers.
From S2P Require Import Prelude MemoryMap FrameLayout Frames FrameSearch FrameInv FrameOps.

#[local] Open Scope Z_scope.
#[local] Opaque WORD_ROUNDS.

Implicit Types (m : PhysicalFrameManager) (slot : nat) (l : FrameLease).

(** ** Initialisation *)

Lemma free_range_spec slots : forall m, words_wf m ->
  Forall (fun s => (s < length (records m))%nat ∧ (s / 64 < length (free_words m))%nat) slots ->
  exists m', free_range m slots = Some m' ∧ words_wf m' ∧ same m m' ∧
    length (records m') = length (records m) ∧ length (free_words m') = length (free_words m) ∧
    (forall j, bit (free_words m') j = bool_decide (j ∈ slots) || bit (free_words m) j) ∧
    (forall j, records m' !! j = if decide (j ∈ slots) then Some EMPTY_RECORD else records m !! j).
Proof.
  induction slots as [|s slots IH]; intros m Hw Hin; cbn [free_range].
  { exists m. split; [done|]. split; [done|]. split; [done|]. split; [done|]. split; [done|]. split.
    - intros j. by rewrite bool_decide_eq_false_2 by apply not_elem_of_nil.
    - intros j. by rewrite decide_False by apply not_elem_of_nil. }
  apply Forall_cons_1 in Hin as [[Hs1 Hs2] Hin]. destruct (lookup_lt_is_Some_2 _ _ Hs1) as [rec Er].
  rewrite Er. cbn [mbind option_bind]. set (m1 := with_records m _).
  destruct (set_free_spec m1 s) as (free & summary & -> & Hw2 & Hl & _ & Hb); [by apply (words_wf_same m)|done|].
  cbn [mbind option_bind]. set (m2 := with_words m1 free summary) in *.
  destruct (IH m2 Hw2) as (m' & E & Hw' & Hs' & Hl1 & Hl2 & Hb' & Hr').
  { apply (list.Forall_impl _ _ _ Hin). intros x [Hx1 Hx2]. cbn [m2 m1 with_words with_records records free_words].
    rewrite length_insert, Hl. done. }
  exists m'. split; [done|]. split; [done|]. split; [done|].
  split; [rewrite Hl1; apply length_insert|]. split; [by rewrite Hl2|]. split.
  - intros j. rewrite Hb'. cbn [m2 with_words free_words]. rewrite Hb. cbn [m1 with_records free_words].
    destruct (Nat.eqb_spec j s) as [->|Hne].
    + rewrite (bool_decide_eq_true_2 (s ∈ s :: slots)) by left. apply orb_true_r.
    + f_equal. apply bool_decide_ext. rewrite elem_of_cons. tauto.
  - intros j. rewrite Hr'. cbn [m2 m1 with_words with_records records]. destruct (decide (j = s)) as [->|Hne].
    + rewrite list_lookup_insert_eq by done. rewrite (decide_True _ _ (list_elem_of_here s slots)).
      by destruct (decide (s ∈ slots)).
    + rewrite list_lookup_insert_ne by done.
      destruct (decide (j ∈ slots)); [rewrite decide_True by (by right)|rewrite decide_False]; [done..|].
      by intros [?|?]%elem_of_cons.
Qed.

(** A manager being filled: well formed, with nothing handed out yet and the
    runs so far below [bound]. *)
Record filling m (bound : Z) : Prop := {
  fl_wf : frames_wf m;
  fl_free : forall slot rec, records m !! slot = Some rec -> rec = EMPTY_RECORD;
  fl_below : forall i r, live_run m i r -> rend (meta_run r) < bound
}.

(** The addresses the runs of the manager cover. *)
Definition manages m (raw : Z) : Prop := exists i r, live_run m i r ∧ in_range r raw.

Section add_run.
Variables (m : PhysicalFrameManager) (bound : Z) (bounded : PhysicalRun) (pages : nat).
Hypothesis Hf : filling m bound.
Hypothesis Hok : run_ok bounded.
Hypothesis Hpages : run_pages bounded = Z.of_nat pages.
Hypothesis Hstart : bound <= run_start bounded.
Hypothesis Hzero : run_start bounded ≠ 0.
Hypothesis Hroom : (run_count m < MAX_MEMORY_RUNS)%nat.
Hypothesis Hrecords : (frame_count m + pages <= length (records m))%nat.
Hypothesis Hwords : (frame_count m + pages <= 64 * length (free_words m))%nat.
Hypothesis Hcount : Z.of_nat (frame_count m + pages) <= 2 ^ 32.

Let meta : RunMetadata := mk_meta bounded (frame_count m) pages.
Let m1 : PhysicalFrameManager :=
  mk_manager (<[run_count m := meta]> (metas m)) (run_count m) (frame_count m) (records m) (free_words m) (summary_words m).
Definition added (m2 : PhysicalFrameManager) : PhysicalFrameManager :=
  mk_manager (metas m2) (S (run_count m2)) (frame_count m2 + pages)%nat (records m2) (free_words m2) (summary_words m2).

Lemma added_live m2 i r : same m1 m2 ->
  live_run (added m2) i r <-> live_run m i r ∨ (i = run_count m ∧ r = meta).
Proof.
  intros (E1 & E2 & _). unfold live_run. cbn [added metas run_count]. rewrite E1, E2. cbn [m1 metas run_count].
  pose proof (rw_length _ (fw_runs _ (fl_wf _ _ Hf))) as Hl.
  destruct (decide (i = run_count m)) as [->|Hne].
  - rewrite list_lookup_insert_eq by lia. split; [intros [[= <-] _]; by right|]. intros [[_ ?]|[_ ->]]; [lia|].
    split; [done|lia].
  - rewrite list_lookup_insert_ne by done. split; [intros [? ?]; left; split; [done|lia]|].
    intros [[? ?]|[? _]]; [split; [done|lia]|done].
Qed.

Lemma added_runs_wf m2 : same m1 m2 -> runs_wf (added m2).
Proof.
  intros Hs. pose proof Hs as (E1 & E2 & E3). destruct Hf as [Hwf _ Hbelow]. destruct (fw_runs _ Hwf) as [R1 R2 R3 R4 R5 R6].
  pose proof (ok_pages _ Hok) as Hp. rewrite Hpages in Hp.
  split; cbn [added metas run_count frame_count].
  - rewrite E1. cbn [m1 metas]. by rewrite length_insert.
  - rewrite E2. cbn [m1 run_count]. lia.
  - intros i r [Hi|[-> ->]]%(added_live _ _ _ Hs); [by apply (R3 i)|done].
  - intros i j r s [Hi|[-> ->]]%(added_live _ _ _ Hs) [Hj|[-> ->]]%(added_live _ _ _ Hs) Hij.
    + by apply (R4 i j).
    + cbn [meta first_slot meta_run meta_pages]. destruct (rw_run _ (fw_runs _ Hwf) _ _ Hi) as (Ho & Hpg & _).
      pose proof (ok_pages _ Ho). split.
      * assert (in_run r (first_slot r + meta_pages r - 1)) as Hin by (unfold in_run; lia).
        assert (first_slot r + meta_pages r - 1 < frame_count m)%nat by (apply R5; by exists i, r). lia.
      * pose proof (Hbelow _ _ Hi). lia.
    + destruct Hj as [_ ?]. lia.
    + lia.
  - intros slot. rewrite E3. cbn [m1 frame_count]. split.
    + intros Hlt. destruct (decide (slot < frame_count m)%nat) as [Hl|Hl].
      * apply R5 in Hl as (i & r & Hi & Hr). exists i, r. split; [|done]. apply (added_live _ _ _ Hs). by left.
      * exists (run_count m), meta. split; [apply (added_live _ _ _ Hs); by right|].
        unfold in_run. cbn [meta first_slot meta_pages]. lia.
    + intros (i & r & [Hi|[-> ->]]%(added_live _ _ _ Hs) & Hr).
      * assert (slot < frame_count m)%nat by (apply R5; by exists i, r). lia.
      * unfold in_run in Hr. cbn [meta first_slot meta_pages] in Hr. lia.
  - intros i r Ei Hi. rewrite E1 in Ei. rewrite E2 in Hi. cbn [m1 metas run_count] in *.
    rewrite list_lookup_insert_ne in Ei by lia. apply (R6 i); [done|lia].
Qed.

(** Entering one run: the manager stays in filling state, and covers it too. *)
Lemma add_run_spec : exists m2, free_range m1 (seq (frame_count m) pages) = Some m2 ∧
  filling (added m2) (rend bounded + 1) ∧ run_count m2 = run_count m ∧ frame_count m2 = frame_count m ∧
  length (records m2) = length (records m) ∧ length (free_words m2) = length (free_words m) ∧
  forall raw, manages (added m2) raw <-> manages m raw ∨ run_start bounded <= raw < rend bounded.
Proof.
  destruct Hf as [Hwf Hfree Hbelow].
  destruct (free_range_spec (seq (frame_count m) pages) m1) as (m2 & E & Hw & Hs & Hl1 & Hl2 & Hb & Hr).
  { by apply (words_wf_same m), Hwf. }
  { apply list.Forall_forall. intros s Hs%elem_of_seq. cbn [m1 records free_words]. lia. }
  exists m2. split; [done|]. pose proof Hs as (E1 & E2 & E3). cbn [m1 records free_words run_count frame_count] in *.
  assert (Hempty : forall j rec, records m2 !! j = Some rec -> rec = EMPTY_RECORD).
  { intros j rec Ej. rewrite Hr in Ej. destruct (decide _); [by injection Ej|by apply (Hfree j)]. }
  split; [|repeat split; try done].
  - split.
    + split; cbn [added frame_count records free_words]; rewrite ?E3, ?Hl1, ?Hl2; try done; try lia.
      * by apply (words_wf_same m2).
      * by apply added_runs_wf.
      * apply Forall_lookup_2. intros j rec Ej. rewrite (Hempty _ _ Ej). split; split; done.
      * intros j. rewrite Hb, orb_true_iff, bool_decide_eq_true, elem_of_seq, (fw_free _ Hwf). split.
        -- intros [Hj|[Hj _]].
           ++ split; [lia|]. destruct (lookup_lt_is_Some_2 (records m2) j) as [rec Ej]; [lia|].
              exists rec. split; [done|]. by rewrite (Hempty _ _ Ej).
           ++ split; [lia|]. destruct (lookup_lt_is_Some_2 (records m2) j) as [rec Ej]; [lia|].
              exists rec. split; [done|]. by rewrite (Hempty _ _ Ej).
        -- intros [Hj _]. destruct (decide (j < frame_count m)%nat) as [Hlt|]; [right|left; lia].
           split; [done|]. destruct (lookup_lt_is_Some_2 (records m) j) as [rec Ej]; [lia|].
           exists rec. split; [done|]. by rewrite (Hfree _ _ Ej).
      * intros j rec Ej _. by rewrite (Hempty _ _ Ej).
    + exact Hempty.
    + intros i r [Hi|[-> ->]]%(added_live _ _ _ Hs); [pose proof (Hbelow _ _ Hi)|cbn [meta meta_run]; lia].
      pose proof (ok_pages _ Hok). unfold rend, PAGE_SIZE in *. lia.
  - intros (i & r & [Hi|[-> ->]]%(added_live _ _ _ Hs) & Hin); [left; by exists i, r|by right].
  - intros [(i & r & Hi & Hin)|Hin]; [exists i, r|exists (run_count m), meta]; (split; [|done]);
      apply (added_live _ _ _ Hs); [by left|by right].
Qed.
End add_run.

Lemma sum_pages_nonneg rs : Forall run_ok rs -> 0 <= sum_pages rs.
Proof. induction 1 as [|r rs Hr Hrs IH]; simpl; [lia|]. pose proof (ok_pages _ Hr). lia. Qed.

Lemma aligned_start r : run_ok r -> run_start r = 0 ∨ PAGE_SIZE <= run_start r.
Proof. intros H. pose proof (ok_start _ H). pose proof (ok_aligned _ H). unfold PAGE_SIZE in *. lia. Qed.

Lemma add_runs_spec rs : forall m bound, filling m bound -> Forall run_ok rs -> separated rs ->
  Forall (fun r => bound <= run_start r) rs -> (run_count m + length rs <= MAX_MEMORY_RUNS)%nat ->
  Z.of_nat (frame_count m) + sum_pages rs <= Z.of_nat (length (records m)) ->
  Z.of_nat (frame_count m) + sum_pages rs <= 64 * Z.of_nat (length (free_words m)) ->
  Z.of_nat (frame_count m) + sum_pages rs <= 2 ^ 32 ->
  exists m' bound', add_runs m rs = Some (m', Ok tt) ∧ filling m' bound' ∧
    forall raw, manages m' raw <-> manages m raw ∨ (PAGE_SIZE <= raw ∧ covers rs raw).
Proof.
  induction rs as [|r rs IH]; intros m bound Hf Hok Hsep Hb Hc H1 H2 H3; cbn [add_runs].
  { exists m, bound. split; [done|]. split; [done|]. intros raw. rewrite covers_nil. tauto. }
  apply Forall_cons_1 in Hok as [Hr Hok]. apply Forall_cons_1 in Hb as [Hbr Hb].
  inversion_clear Hsep as [|? ? Hsep' Hlow]. cbn [sum_pages foldr] in H1, H2, H3. fold (sum_pages rs) in H1, H2, H3.
  pose proof (sum_pages_nonneg rs Hok) as Hsum. pose proof (ok_pages _ Hr) as Hp. pose proof (ok_end _ Hr) as He.
  cbn [length] in Hc.
  assert (Hskip : run_start r = 0 -> run_pages r = 1 -> forall raw, (PAGE_SIZE <= raw ∧ covers (r :: rs) raw) <->
    (PAGE_SIZE <= raw ∧ covers rs raw)).
  { intros Hz H1p raw. rewrite covers_cons. unfold rend. rewrite Hz, H1p. unfold PAGE_SIZE. intuition lia. }
  set (start := if run_start r =? 0 then PAGE_SIZE else run_start r).
  set (pages := if run_start r =? 0 then (Z.to_nat (run_pages r) - 1)%nat else Z.to_nat (run_pages r)).
  replace (if run_start r =? 0 then (PAGE_SIZE, (Z.to_nat (run_pages r) - 1)%nat) else (run_start r, Z.to_nat (run_pages r)))
    with (start, pages) by (unfold start, pages; by destruct (run_start r =? 0)).
  assert (Hend : start + Z.of_nat pages * PAGE_SIZE = rend r).
  { unfold start, pages, rend, PAGE_SIZE. destruct (Z.eqb_spec (run_start r) 0); lia. }
  assert (Hle : Z.of_nat pages <= run_pages r) by (unfold pages; destruct (run_start r =? 0); lia).
  assert (Hst : 0 < start ∧ run_start r <= start ∧ start mod PAGE_SIZE = 0).
  { unfold start. pose proof (aligned_start r Hr). destruct (Z.eqb_spec (run_start r) 0); [split_and!; [done|unfold PAGE_SIZE; lia|done]|].
    pose proof (ok_aligned _ Hr). unfold PAGE_SIZE in *. lia. }
  assert (Htail : Forall (fun s => rend r + 1 <= run_start s) rs).
  { apply (list.Forall_impl _ _ _ Hlow). intros s Hs. simpl in Hs |- *. lia. }
  destruct (Nat.eqb_spec pages 0) as [Hp0|Hp0]; cbn [orb].
  - assert (run_start r = 0 ∧ run_pages r = 1) as [Hz H1p].
    { unfold pages in Hp0. destruct (Z.eqb_spec (run_start r) 0); lia. }
    destruct (IH m bound) as (m' & b' & E & Hf' & Hm); [done|done|done|done|lia|lia|lia|lia|].
    exists m', b'. split; [done|]. split; [done|]. intros raw. by rewrite Hm, Hskip.
  - destruct (Nat.eqb_spec (run_count m) MAX_MEMORY_RUNS); [lia|].
    rewrite (run_new_ok start (Z.of_nat pages)) by (rewrite ?Hend; lia).
    assert (Hbok : run_ok (mk_run start (Z.of_nat pages))).
    { split; cbn [run_start run_pages]; [lia|apply Hst|lia|unfold rend; cbn [run_start run_pages]; lia]. }
    destruct (lookup_lt_is_Some_2 (metas m) (run_count m)) as [x ->].
    { rewrite (rw_length _ (fw_runs _ (fl_wf _ _ Hf))). lia. }
    cbn [mbind option_bind].
    destruct (add_run_spec m bound (mk_run start (Z.of_nat pages)) pages) as (m2 & E2 & Hf2 & C1 & C2 & L1 & L2 & Hm2);
      [done|done|done|cbn; lia|cbn; lia|lia|lia|lia|lia|].
    cbn [frame_count]. rewrite E2. cbn [mbind option_bind]. fold (added pages m2).
    assert (Hrb : rend (mk_run start (Z.of_nat pages)) = rend r) by (unfold rend at 1; cbn [run_start run_pages]; lia).
    rewrite Hrb in *.
    destruct (IH (added pages m2) (rend r + 1)) as (m' & b' & E & Hf' & Hm);
      cbn [added run_count frame_count records free_words]; rewrite ?C1, ?C2, ?L1, ?L2; [done|done|done|done|lia|lia|lia|lia|].
    exists m', b'. split; [done|]. split; [done|]. intros raw. rewrite Hm, Hm2, covers_cons. cbn [run_start].
    unfold start, pages, rend, PAGE_SIZE in *. pose proof (aligned_start r Hr).
    destruct (Z.eqb_spec (run_start r) 0); unfold PAGE_SIZE in *; intuition lia.
Qed.

Section initialisation.
Context `{Sizes : ElementSizes}.

Lemma bit_zeros n k : bit (replicate n 0) k = false.
Proof.
  unfold bit. destruct (replicate n 0 !! (k / 64)%nat) as [w|] eqn:E; [|apply Z.bits_0].
  apply lookup_replicate in E as [-> _]. apply Z.bits_0.
Qed.

(** The manager that [configure] and [clear] leave. *)
Lemma cleared_filling r f s : (f <= 64 * s)%nat ->
  filling (mk_manager (replicate MAX_MEMORY_RUNS EMPTY_META) 0 0 (replicate r EMPTY_RECORD) (replicate f 0) (replicate s 0)) 0.
Proof.
  intros Hfs. set (m := mk_manager _ _ _ _ _ _).
  assert (Hno : forall i x, ¬ live_run m i x) by (intros i x [_ Hi]; cbn in Hi; lia).
  assert (Hrec : forall j rec, records m !! j = Some rec -> rec = EMPTY_RECORD) by (by intros j rec [-> _]%lookup_replicate).
  assert (Hwords : words_wf m).
  { split.
    - by apply Forall_replicate.
    - by apply Forall_replicate.
    - cbn [m free_words summary_words]. by rewrite !length_replicate.
    - intros k. cbn [m free_words summary_words]. rewrite bit_zeros. split; [done|].
      by intros (w & [-> _]%lookup_replicate & ?). }
  split; [|done|by intros i x Hi%Hno].
  split; [done| |done|cbn; lia|cbn; lia| | |by intros j rec Ej%Hrec _; subst].
  - split; [apply length_replicate|cbn; lia|by intros i x Hi%Hno|by intros i j x y Hi%Hno| |].
    + intros slot. split; [cbn; lia|]. by intros (i & x & Hi%Hno & _).
    + by intros i x [-> _]%lookup_replicate _.
  - apply Forall_lookup_2. intros j rec Ej%Hrec. subst. split; split; done.
  - intros slot. cbn [m free_words frame_count]. rewrite bit_zeros. split; [done|]. intros [? _]. lia.
Qed.

Lemma initialize_spec m map region layout :
  region_layout region (total_pages map) = Some layout ->
  Forall run_ok (runs map) -> separated (runs map) -> (length (runs map) <= MAX_MEMORY_RUNS)%nat ->
  total_pages map = sum_pages (runs map) -> total_pages map <= 2 ^ 32 ->
  exists m', initialize_with_region m map region = Some (m', Ok tt) ∧ frames_wf m' ∧
    (forall slot, (slot < frame_count m')%nat -> free_slot m' slot) ∧
    forall raw, manages m' raw <-> PAGE_SIZE <= raw ∧ covers (runs map) raw.
Proof.
  intros E Hok Hsep Hlen Htot Hmax. unfold initialize_with_region. rewrite E.
  unfold region_layout in E. apply bind_Some in E as (l' & El & E). destruct (_ <=? _); [|done]. injection E as ->.
  apply for_frames_Some in El. destruct El. cbn [records_len free_len summary_len].
  pose proof (sum_pages_nonneg _ Hok) as Hsum0. pose proof (div_ceil_covers (total_pages map)) as D1.
  pose proof (div_ceil_covers (div_ceil (total_pages map) 64)) as D2.
  assert (0 <= div_ceil (total_pages map) 64) by (apply div_ceil_bounds; lia).
  destruct (add_runs_spec (runs map) _ 0 (cleared_filling (Z.to_nat (total_pages map)) (Z.to_nat (div_ceil (total_pages map) 64))
    (Z.to_nat (div_ceil (div_ceil (total_pages map) 64) 64)) ltac:(lia)) Hok Hsep) as (m' & b & E & Hf & Hm);
    cbn [run_count frame_count records free_words]; rewrite ?length_replicate; try lia.
  { apply (list.Forall_impl _ _ _ Hok). intros x Hx. apply Hx. }
  exists m'. split; [done|]. destruct Hf as [Hwf Hfree _]. split; [done|]. split.
  - intros slot Hs. split; [done|]. destruct (lookup_lt_is_Some_2 (records m') slot) as [rec Er]; [pose proof (fw_length _ Hwf); lia|].
    exists rec. split; [done|]. by rewrite (Hfree _ _ Er).
  - intros raw. rewrite Hm. split; [intros [(i & x & [_ Hi] & _)|?]; [cbn in Hi; lia|done]|by right].
Qed.
End initialisation.

(** ** Any operation *)

Inductive frame_op : Type :=
| OpAlloc (owner : OwnerId) (state : FrameState) (first last : nat)
| OpBatch (owner : OwnerId) (count : nat) (state : FrameState)
| OpContiguous (owner : OwnerId) (count : nat) (state : FrameState)
| OpFree (l : FrameLease)
| OpFreeBatch (batch : list FrameLease)
| OpRefresh (l : FrameLease)
| OpReleaseAddress (a : FrameAddress)
| OpReserve (a : FrameAddress) (owner : OwnerId)
| OpReserveBatch (addresses : list FrameAddress) (owner : OwnerId)
| OpReleaseReservation (l : FrameLease).

Definition apply_op m (op : frame_op) : option PhysicalFrameManager :=
  match op with
  | OpAlloc owner state first last => fst <$> try_alloc_in_range m owner state first last
  | OpBatch owner count state => fst <$> alloc_batch m owner count state
  | OpContiguous owner count state => fst <$> alloc_contiguous m owner count state
  | OpFree l => fst <$> free m l
  | OpFreeBatch batch => fst <$> free_batch m batch
  | OpRefresh l => fst <$> refresh m l
  | OpReleaseAddress a => fst <$> release_address m a
  | OpReserve a owner => fst <$> reserve m a owner
  | OpReserveBatch addresses owner => fst <$> reserve_batch m addresses owner
  | OpReleaseReservation l => fst <$> release_reservation m l
  end.

Fixpoint apply_ops m (ops : list frame_op) : option PhysicalFrameManager :=
  match ops with
  | [] => Some m
  | op :: ops => m ← apply_op m op; apply_ops m ops
  end.

Lemma free_evolves m l : frames_wf m -> exists m' r, free m l = Some (m', r) ∧ evolves 0 m m'.
Proof.
  intros H. destruct (free_spec m l H) as [(Hc & m' & -> & Hrw)|[_ [e ->]]].
  - exists m', (Ok tt). split; [done|]. by eapply released_evolves; [exact Hc|].
  - exists m, (Err e). split; [done|by apply evolves_refl].
Qed.

Lemma free_all_evolves batch : forall m, frames_wf m -> exists m' r, free_all m batch = Some (m', r) ∧ evolves 0 m m'.
Proof.
  induction batch as [|l batch IH]; intros m H; cbn [free_all]; [exists m, (Ok tt); split; [done|by apply evolves_refl]|].
  destruct (free_evolves m l H) as (m1 & r & -> & Hev). cbn [mbind option_bind]. destruct r as [[]|e].
  - destruct (IH m1 (proj1 Hev)) as (m' & r & E & Hev'). exists m', r. split; [done|]. by apply (evolves_trans 0 0 m m1).
  - by exists m1, (Err e).
Qed.

(** No operation panics, breaks the invariant or stamps a frame twice. *)
Lemma op_evolves m op : frames_wf m -> exists m', apply_op m op = Some m' ∧ evolves 1 m m'.
Proof.
  intros H. assert (Hrefl : evolves 1 m m) by (by apply evolves_refl).
  destruct op as [owner state first last|owner count state|owner count state|l|batch|l|a|a owner|addresses owner|l]; cbn [apply_op].
  - pose proof (try_alloc_in_range_spec m owner state first last H) as Hs.
    destruct (decide _); [destruct Hs as [(slot & rec & m' & l & _ & Er & -> & Hrw & _)|[_ ->]]|rewrite Hs].
    + exists m'. split; [done|]. by eapply stamped_evolves.
    + by exists m.
    + by exists m.
  - destruct (decide (owner = 0)) as [->|Ho].
    { unfold alloc_batch. destruct (_ || _) eqn:Hb; [by exists m|]. rewrite available_spec by done. cbn [mbind option_bind].
      destruct (length (free_slots m) <? count)%nat; [by exists m|]. boolprop. destruct count as [|count]; [done|]. cbn [seq collect_batch].
      change (try_alloc m 0 state) with (Some (m, @Err FrameLease _ InvalidFrame)). by exists m. }
    destruct (decide (0 < count <= MAX_BATCH_FRAMES)%nat) as [Hc|Hc].
    + pose proof (alloc_batch_spec m owner count state H Ho Hc) as Hs.
      destruct (decide _); [destruct Hs as (m' & batch & -> & Hcl)|rewrite Hs; by exists m].
      exists m'. split; [done|]. by eapply claimed_evolves.
    + unfold alloc_batch. destruct (Nat.eqb_spec count 0); [by exists m|].
      destruct (Nat.ltb_spec MAX_BATCH_FRAMES count); [by exists m|lia].
  - destruct (decide (owner = 0)) as [->|Ho]; [by exists m|].
    destruct (decide (0 < count <= MAX_BATCH_FRAMES)%nat) as [Hc|Hc].
    + destruct (alloc_contiguous_spec m owner count state H Ho Hc) as [(first & m' & batch & -> & _ & Hcl)|[-> _]]; [|by exists m].
      exists m'. split; [done|]. by eapply claimed_evolves.
    + unfold alloc_contiguous. destruct (owner =? 0); [by exists m|]. destruct (Nat.eqb_spec count 0); [by exists m|].
      destruct (Nat.ltb_spec MAX_BATCH_FRAMES count); [by exists m|lia].
  - destruct (free_evolves m l H) as (m' & r & -> & Hev). exists m'. split; [done|]. eapply evolves_mono; [|done]. lia.
  - unfold free_batch. destruct (validate_all m batch); [|by exists m].
    destruct (free_all_evolves batch m H) as (m' & r & -> & Hev). exists m'. split; [done|]. eapply evolves_mono; [|done]. lia.
  - destruct (refresh_spec m l H) as [(Hc & m' & l' & -> & Hrw & _)|[_ [e ->]]]; [|by exists m].
    exists m'. split; [done|]. by eapply rewrites_evolves; [exact Hc|exact Hrw| |].
  - destruct (release_address_spec m a H) as [(slot & rec & m' & _ & Er & _ & -> & Hrw)|[_ [e ->]]]; [|by exists m].
    exists m'. split; [done|]. eapply evolves_mono; [|by eapply released_evolves]. lia.
  - destruct (reserve_spec m a owner H) as [(slot & id & rec & m' & l & _ & _ & Er & -> & Hrw & _)|[(slot & id & _ & _ & ->)|[_ ->]]];
      [|by exists m|by exists m]. exists m'. split; [done|]. by eapply stamped_evolves.
  - destruct (reserve_batch_spec m addresses owner H) as [(ss & m' & batch & -> & Hcl & _)|(e & m' & -> & _ & Hev)].
    + exists m'. split; [done|]. by eapply claimed_evolves.
    + by exists m'.
  - destruct (release_reservation_spec m l H) as [(Hc & _ & m' & -> & Hrw)|[_ [e ->]]]; [|by exists m].
    exists m'. split; [done|]. eapply evolves_mono; [|eapply released_evolves; [exact Hc|exact Hrw]]. lia.
Qed.

Lemma ops_evolve ops : forall m, frames_wf m -> exists m', apply_ops m ops = Some m' ∧ evolves (length ops) m m'.
Proof.
  induction ops as [|op ops IH]; intros m H; cbn [apply_ops length]; [exists m; split; [done|by apply evolves_refl]|].
  destruct (op_evolves m op H) as (m1 & -> & Hev). cbn [mbind option_bind].
  destruct (IH m1 (proj1 Hev)) as (m' & E & Hev'). exists m'. split; [done|]. by apply (evolves_trans 1 _ m m1).
Qed.

(** ** The theorems *)

(** C37: The search through the two-level bitmap is the linear scan.  In a
    well-formed manager [find_free_slot] never leaves its arrays and answers
    the lowest slot of the range whose record is free, or nothing when there
    is none, for every range within the frames. *)
Theorem frames_search_linear m first last :
  frames_wf m -> (first <= last <= frame_count m)%nat ->
  find_free_slot m first last = Some (first_free m first last) ∧
  least (fun s => (first <= s < last)%nat ∧ free_slot m s) (first_free m first last).
Proof.
  intros H Hl. pose proof (fw_bits _ H). split; [apply find_free_slot_spec; [apply H|lia|lia]|].
  pose proof (first_free_least m first last) as Hf. unfold candidate in Hf.
  destruct (first_free m first last) as [s|]; cbn [least] in *.
  - destruct Hf as [[H1 H2] H3]. split; [split; [done|by apply free_slot_bit]|].
    intros s' [Hs' Hf']. apply H3. split; [done|]. by apply free_slot_bit.
  - intros s [Hs Hf']. apply (Hf s). split; [done|]. by apply free_slot_bit.
Qed.

(** C4: Only usable memory is handed out, and to one holder at a time.  Boot a
    manager from the firmware's memory map, with at most 2^32 usable pages, and
    apply any operations with any arguments: nothing panics, and the frame of every lease that is current is
    an aligned page above page zero of which every byte lies in an available
    descriptor and in no other descriptor or exclusion; two current leases on
    one frame agree, and those on different frames are on disjoint pages. *)
Theorem frames_usable_exclusive `{Sizes : ElementSizes} map es nm region layout ops :
  Forall descriptor_typed map -> Forall (fun e => run_ok (exclusion_range e)) es ->
  normalize_memory_map map es = Ok nm -> region_layout region (total_pages nm) = Some layout ->
  total_pages nm <= 2 ^ 32 ->
  exists m0 m, initialize_with_region empty nm region = Some (m0, Ok tt) ∧ apply_ops m0 ops = Some m ∧ frames_wf m ∧
    (forall l, current m l -> exists id raw, frame_at m (lease_slot l) id raw ∧ raw mod PAGE_SIZE = 0 ∧ PAGE_SIZE <= raw ∧
       forall a, raw <= a < raw + PAGE_SIZE ->
         (exists d, d ∈ map ∧ available d = true ∧ in_descriptor d a) ∧
         (forall d, d ∈ map -> in_descriptor d a -> available d = true) ∧
         (forall e, e ∈ es -> ¬ run_start (exclusion_range e) <= a < rend (exclusion_range e))) ∧
    (forall l1 l2 id1 id2 raw1 raw2, current m l1 -> current m l2 ->
       frame_at m (lease_slot l1) id1 raw1 -> frame_at m (lease_slot l2) id2 raw2 ->
       raw1 + PAGE_SIZE <= raw2 ∨ raw2 + PAGE_SIZE <= raw1 ∨
       (lease_slot l1 = lease_slot l2 ∧ lease_generation l1 = lease_generation l2 ∧
        lease_owner l1 = lease_owner l2 ∧ lease_state l1 = lease_state l2)).
Proof.
  intros Hmap Hes En El Hmax. destruct (normalize_spec map es nm Hmap Hes En) as (Hok & Hsep & Hlen & Htot & Hcov).
  destruct (initialize_spec empty nm region layout El Hok Hsep Hlen Htot Hmax) as (m0 & E0 & Hwf0 & _ & Hman).
  destruct (ops_evolve ops m0 Hwf0) as (m & Em & Hwf & Hsame & _).
  exists m0, m. split; [done|]. split; [done|]. split; [done|]. split.
  - intros l Hc. pose proof (current_lt _ _ Hwf Hc) as Hlt. pose proof (fw_runs _ Hwf) as Hr.
    destruct (frame_at_exists m _ Hr Hlt) as (id & raw & Hf). exists id, raw. split; [done|].
    destruct (frame_at_page _ _ _ _ Hr Hf) as (Hal & Hpos & _ & i & r & Hi & Hlo & Hhi). split; [done|].
    split; [unfold PAGE_SIZE in *; lia|]. intros a Ha. apply Hcov. apply Hman. exists i, r.
    split; [by apply (live_run_same m0 m)|]. unfold in_range. lia.
  - intros l1 l2 id1 id2 raw1 raw2 H1 H2 F1 F2. destruct (decide (lease_slot l1 = lease_slot l2)) as [Heq|Hne].
    + right. right. unfold current in H1, H2. rewrite Heq, H2 in H1. injection H1 as -> -> Hst.
      repeat split; try done. by destruct (lease_state l1), (lease_state l2).
    + destruct (frame_at_inj m _ _ _ _ _ _ (fw_runs _ Hwf) F1 F2 Hne); tauto.
Qed.

(** C38: A lease given up stays given up.  After a frame was freed, any fewer
    than [2^16 - 1] operations later its old lease is still refused, whoever
    holds the frame by then: it neither validates nor frees nor refreshes. *)
Theorem frames_stale_lease_rejected m l m1 ops :
  frames_wf m -> free m l = Some (m1, Ok tt) -> Z.of_nat (length ops) < 2 ^ 16 - 1 ->
  exists m2 e1 e2 e3, apply_ops m1 ops = Some m2 ∧ validate m2 l = Err e1 ∧ free m2 l = Some (m2, Err e2) ∧
    refresh m2 l = Some (m2, Err e3).
Proof.
  intros H Ef Hlen. destruct (free_spec m l H) as [(Hc & m1' & E & (Hwf1 & Hs & Hr))|[_ [e E]]]; rewrite E in Ef; [|done].
  injection Ef as ->. destruct (ops_evolve ops m1 Hwf1) as (m2 & E2 & Hwf2 & _ & Hev).
  assert (Hrec : records m1 !! lease_slot l = Some (released (lease_generation l))).
  { rewrite Hr. apply list_lookup_insert_eq. by eapply lookup_lt_Some. }
  destruct (Hev _ _ Hrec) as (rec & k & Er & Hk & Hg & Hfree).
  assert (Hno : ¬ current m2 l).
  { unfold current. rewrite Er. intros [= ->]. cbn [record_generation record_state released] in *.
    destruct k as [|k]; [by pose proof (state_code_bounds (lease_state l)); specialize (Hfree eq_refl eq_refl); unfold FREE in Hfree; lia|].
    pose proof (Forall_lookup_1 _ _ _ _ (fw_records _ H) Hc) as [Hgen _].
    apply (iter_next_gen_fresh 16 (lease_generation l) (S k)); [lia|done|lia|done]. }
  destruct (free_spec m2 l Hwf2) as [[? _]|[_ [e2 E3]]]; [done|]. destruct (refresh_spec m2 l Hwf2) as [[? _]|[_ [e3 E4]]]; [done|].
  destruct (validate_lease_spec m2 l (fw_records _ Hwf2)) as [[? _]|[_ [e1 E1]]]; [done|].
  exists m2, e1, e2, e3. unfold validate. by rewrite E1.
Qed.

(** C39: A batch takes the lowest free frames and gives them back.  A
    successful [alloc_batch] leases exactly the [count] lowest free frames,
    each lease current, and leaves every held frame alone; [free_batch] of
    the batch then succeeds and frees exactly those again. *)
Theorem frames_batch_roundtrip m owner count state m' batch :
  frames_wf m -> alloc_batch m owner count state = Some (m', Ok batch) ->
  frames_wf m' ∧ lease_slot <$> batch = take count (free_slots m) ∧ length batch = count ∧ Forall (current m') batch ∧
  (forall s rec, records m !! s = Some rec -> record_state rec ≠ FREE -> records m' !! s = Some rec) ∧
  exists m'', free_batch m' batch = Some (m'', Ok tt) ∧ restored m m''.
Proof.
  intros H E. destruct (alloc_batch_inv m owner count state m' batch H E) as (Ho & Hc & Hn & Hcl).
  destruct (claimed_wf m owner state H _ _ _ Hcl) as [Hwf _]. destruct (claimed_slots m owner state H _ _ _ Hcl) as (_ & Hfr & Hsl).
  split; [done|]. split; [done|]. split; [|split; [|split]].
  - apply (f_equal length) in Hsl. rewrite length_fmap, length_take in Hsl. lia.
  - apply Forall_lookup_2. intros k l Ek. by apply (claimed_leases m owner state H _ _ _ k l Hcl).
  - intros s rec Es Hst. rewrite (claimed_records m owner state H _ _ _ _ _ Hcl Es). rewrite decide_False; [done|].
    intros Hin. destruct (proj1 (list.Forall_forall _ _) Hfr s Hin) as (_ & r & Er & Hf). rewrite Es in Er. by injection Er as <-.
  - destruct (claimed_rollback m owner state _ _ _ H Hcl) as (m2 & E2 & Hr & _). by exists m2.
Qed.

(** C40: Contiguous frames are found first fit.  [alloc_contiguous] succeeds
    exactly when some run has [count] consecutive free frames; it then leases
    the lowest such stretch, whose pages follow each other in memory. *)
Theorem frames_contiguous_first_fit m owner count state :
  frames_wf m -> owner ≠ 0 -> (0 < count <= MAX_BATCH_FRAMES)%nat ->
  (exists first m' batch raw, alloc_contiguous m owner count state = Some (m', Ok batch) ∧ frames_wf m' ∧
     least (fun x => exists i r, live_run m i r ∧ fits_in m count r x) (Some first) ∧
     length batch = count ∧ Forall (current m') batch ∧
     forall k l, batch !! k = Some l -> lease_slot l = (first + k)%nat ∧
       address_raw (lease_address l) = raw + Z.of_nat k * PAGE_SIZE) ∨
  (alloc_contiguous m owner count state = Some (m, Err Exhausted) ∧
   forall i r x, live_run m i r -> ¬ fits_in m count r x).
Proof.
  intros H Ho Hc. destruct (alloc_contiguous_spec m owner count state H Ho Hc) as
    [(first & m' & batch & E & Hl & Hcl)|Hno]; [left|by right].
  destruct (claimed_wf m owner state H _ _ _ Hcl) as [Hwf _]. destruct (claimed_slots m owner state H _ _ _ Hcl) as (_ & _ & Hsl).
  pose proof Hl as [(i & r & Hi & (Hf1 & Hf2 & _)) _].
  exists first, m', batch, (run_start (meta_run r) + Z.of_nat (first - first_slot r) * PAGE_SIZE).
  split; [done|]. split; [done|]. split; [done|]. split; [|split].
  - apply (f_equal length) in Hsl. rewrite length_fmap, length_seq in Hsl. done.
  - apply Forall_lookup_2. intros k l Ek. by apply (claimed_leases m owner state H _ _ _ k l Hcl).
  - intros k l Ek. destruct (claimed_leases m owner state H _ _ _ k l Hcl Ek) as (_ & slot & rec & Es & _ & (id & raw & Hat & ->)).
    apply lookup_seq in Es as [-> Hk]. cbn [lease_slot lease_address address_raw]. split; [done|].
    assert (Hin : in_run r (first + k)) by (unfold in_run; lia).
    destruct (frame_at_fun m (first + k) id raw (mk_id i (first + k - first_slot r))
      (run_start (meta_run r) + Z.of_nat (first + k - first_slot r) * PAGE_SIZE) (fw_runs _ H) Hat) as [_ ->]; [by exists i, r|].
    unfold PAGE_SIZE. lia.
Qed.

(** ** A small machine *)

#[local] Instance small_sizes : ElementSizes := Build_ElementSizes 6 2 8 8 112 8 40 8 56 8.

(** Pages 1 to 3 and 16 to 17 become frames. *)
Definition small_map : NormalizedMemoryMap := mk_normalized [mk_run 0 4; mk_run 0x10000 2] 6.

Definition small_region : FrameMetadataRegion := mk_region 0x200000 0x1000.

Lemma small_manager : exists m, initialize_with_region empty small_map small_region = Some (m, Ok tt) ∧ frames_wf m.
Proof.
  destruct (region_layout small_region (total_pages small_map)) as [layout|] eqn:E; [|by vm_compute in E].
  destruct (initialize_spec empty small_map small_region layout E) as (m & Em & Hwf & _).
  - repeat apply Forall_cons_2; [split; done..|constructor].
  - repeat constructor.
  - apply Nat.leb_le. reflexivity.
  - reflexivity.
  - apply Z.leb_le. reflexivity.
  - exists m. split; [exact Em|exact Hwf].
Qed.

Lemma small_manager_eq m : initialize_with_region empty small_map small_region = Some (m, Ok tt) ->
  frame_count m = 5%nat ∧ free_words m = [31].
Proof. intros E. vm_compute in E. by injection E as <-. Qed.

Lemma frames_search_linear_witness :
  exists m, frames_wf m ∧ find_free_slot m 2 5 = Some (Some 2%nat).
Proof.
  destruct small_manager as (m & E & Hwf). destruct (small_manager_eq m E) as [Hc Hw]. exists m. split; [done|].
  destruct (frames_search_linear m 2 5 Hwf) as [-> _]; [lia|]. unfold first_free. by rewrite Hw.
Defined.

Lemma frames_usable_exclusive_witness :
  exists m0 m, initialize_with_region empty (mk_normalized [mk_run 0 1; mk_run 0x2000 2] 3) small_region = Some (m0, Ok tt) ∧
    apply_ops m0 [OpAlloc KERNEL Dirty 0 2] = Some m ∧ frames_wf m.
Proof.
  assert (En : normalize_memory_map [mk_descriptor 0 4 true] [mk_exclusion (mk_run 0x1000 1) Kernel] =
    Ok (mk_normalized [mk_run 0 1; mk_run 0x2000 2] 3)) by reflexivity.
  destruct (region_layout small_region 3) as [layout|] eqn:E; [|by vm_compute in E].
  destruct (frames_usable_exclusive [mk_descriptor 0 4 true] [mk_exclusion (mk_run 0x1000 1) Kernel]
    (mk_normalized [mk_run 0 1; mk_run 0x2000 2] 3) small_region layout [OpAlloc KERNEL Dirty 0 2])
    as (m0 & m & E0 & E1 & Hwf & _).
  - by repeat constructor.
  - by repeat constructor.
  - exact En.
  - exact E.
  - apply Z.leb_le. reflexivity.
  - exists m0, m. split; [exact E0|]. split; [exact E1|exact Hwf].
Defined.

Lemma frames_stale_lease_rejected_witness :
  exists m l m1 m2 e, frames_wf m ∧ free m l = Some (m1, Ok tt) ∧ apply_ops m1 [OpAlloc KERNEL Dirty 0 5] = Some m2 ∧
    validate m2 l = Err e.
Proof.
  destruct small_manager as (m0 & E & H0). destruct (small_manager_eq m0 E) as [Hc _].
  destruct (try_alloc_spec m0 KERNEL Dirty H0 ltac:(done)) as [(slot & rec & m & l & _ & Er & _ & Hrw & Hl)|[Hno _]].
  - pose proof (proj1 Hrw) as Hwf. destruct (free_spec m l Hwf) as [(_ & m1 & Ef & _)|[Hn _]].
    + destruct (frames_stale_lease_rejected m l m1 [OpAlloc KERNEL Dirty 0 5] Hwf Ef) as (m2 & e & _ & _ & E2 & Hv & _);
        [reflexivity|]. exists m, l, m1, m2, e. split; [exact Hwf|]. split; [exact Ef|]. split; [exact E2|exact Hv].
    + exfalso. apply Hn. destruct Hl as (id & raw & _ & ->). unfold current. cbn. destruct Hrw as (_ & _ & ->).
      apply list_lookup_insert_eq. by eapply lookup_lt_Some.
  - exfalso. vm_compute in E. injection E as <-. apply (Hno 0%nat). split; [cbn; lia|]. by eexists.
Defined.

Lemma frames_batch_roundtrip_witness :
  exists m m' batch m'', frames_wf m ∧ alloc_batch m KERNEL 2 Dirty = Some (m', Ok batch) ∧ length batch = 2%nat ∧
    free_batch m' batch = Some (m'', Ok tt).
Proof.
  destruct small_manager as (m & E & Hwf).
  destruct (alloc_batch m KERNEL 2 Dirty) as [[m' [batch|e]]|] eqn:Ea.
  - destruct (frames_batch_roundtrip m KERNEL 2 Dirty m' batch Hwf Ea) as (_ & _ & Hl & _ & _ & m'' & Ef & _).
    exists m, m', batch, m''. split; [exact Hwf|]. split; [exact Ea|]. split; [exact Hl|exact Ef].
  - exfalso. vm_compute in E. injection E as <-. by vm_compute in Ea.
  - exfalso. vm_compute in E. injection E as <-. by vm_compute in Ea.
Defined.

Lemma frames_contiguous_first_fit_witness :
  exists m first m' batch raw, frames_wf m ∧ alloc_contiguous m KERNEL 2 Dirty = Some (m', Ok batch) ∧
    forall k l, batch !! k = Some l -> lease_slot l = (first + k)%nat ∧
      address_raw (lease_address l) = raw + Z.of_nat k * PAGE_SIZE.
Proof.
  destruct small_manager as (m & E & Hwf).
  destruct (frames_contiguous_first_fit m KERNEL 2 Dirty Hwf) as [(first & m' & batch & raw & Ea & _ & _ & _ & _ & Hb)|[Ea _]].
  - done.
  - split; [lia|apply Nat.leb_le; reflexivity].
  - exists m, first, m', batch, raw. split; [exact Hwf|]. split; [exact Ea|exact Hb].
  - exfalso. vm_compute in E. injection E as <-. by vm_compute in Ea.
Defined.
