(* ===== verification/Scheduler.v ===== *)
(** * The task scheduler ([src/src/scheduler.rs])

    A fixed table of task slots and per-CPU state, shared by all CPUs and
    accessed only through atomic cells.  The model keeps every atomic access
    of the source: an operation is a program ([prog]) of loads, stores,
    compare-exchanges and fetch-adds on the cells of a [Scheduler].  [run]
    executes a program alone; [SchedulerConc.v] interleaves the programs of
    many threads access by access.  Accesses are sequentially consistent; the
    memory orderings of the source are not distinguished.

    A compare-exchange loop of the source is unrolled [fuel] times and then
    spins ([Spin], a program that takes no further step), so that every finite
    prefix of an execution is one for large enough fuel.

    The stack and register images of a task are raw memory behind the atomic
    cells; the address an interrupt context is saved at is an argument. *)

From Stdlib Require Import ZArith Lia.
From stdpp Require Import base list option numbers.
From S2P Require Import Prelude.

#[local] Open Scope Z_scope.

Definition MAX_TASKS : nat := 24.
Definition MAX_CPUS : nat := 8.

Definition VACANT : Z := 0.
Definition INITIALIZING : Z := 1.
Definition RUNNABLE : Z := 2.
Definition RUNNING : Z := 3.
Definition BLOCKED : Z := 4.
Definition COMPLETED : Z := 5.
Definition STOPPING : Z := 6.
Definition STATE_MASK : Z := 15.
Definition WAKE_PENDING : Z := Z.shiftl 1 4.
Definition GENERATION_SHIFT : Z := 8.
Definition GENERATION_MASK : Z := Z.shiftl 1 (64 - GENERATION_SHIFT) - 1.
Definition INITIAL_GENERATION : Z := 1.
Definition NO_CPU_TASK : Z := U8_MAX.
Definition NO_DEADLINE : Z := U64_MAX.

(** ** State words *)

Definition pack (generation state : Z) : Z :=
  Z.lor (Z.shiftl (Z.land generation GENERATION_MASK) GENERATION_SHIFT) state.

Definition generation (word : Z) : Z := Z.shiftr word GENERATION_SHIFT.

Definition state (word : Z) : Z := Z.land word STATE_MASK.

Definition next_generation (g : Z) : Z :=
  let next := Z.land (wrapping_add 64 (Z.land g GENERATION_MASK) 1) GENERATION_MASK in
  if next =? 0 then INITIAL_GENERATION else next.

Inductive TaskState : Type := Runnable | Running | Blocked | Stopping | Completed.

Inductive SpawnError : Type := SCapacity | SAddressSpace | SUserLaunch.

Inductive FinishState : Type := FinishRunnable | FinishBlocked | FinishTimedBlocked | FinishCompleted.

#[export] Instance TaskState_eq_dec : EqDecision TaskState.
Proof. solve_decision. Defined.
#[export] Instance SpawnError_eq_dec : EqDecision SpawnError.
Proof. solve_decision. Defined.

Record TaskHandle : Type := mk_handle { h_slot : Z; h_generation : Z }.

#[export] Instance TaskHandle_eq_dec : EqDecision TaskHandle.
Proof. solve_decision. Defined.

Definition handle_raw (h : TaskHandle) : Z :=
  Z.lor (Z.shiftl (Z.land (h_generation h) GENERATION_MASK) GENERATION_SHIFT) (h_slot h).

Definition handle_from_raw (raw : Z) : TaskHandle :=
  mk_handle (wrap 8 raw) (Z.land (Z.shiftr raw GENERATION_SHIFT) GENERATION_MASK).

(** ** Launch metadata ([src/src/process.rs]) *)

Record ProcessHandle : Type := mk_process { p_slot : Z; p_generation : Z }.

Definition process_raw (p : ProcessHandle) : Z := Z.lor (wrap 64 (Z.shiftl (p_generation p) 8)) (p_slot p).
Definition process_from_raw (raw : Z) : ProcessHandle := mk_process (wrap 8 raw) (Z.shiftr raw 8).

(** A page-aligned, nonzero root. *)
Definition root_new (raw : Z) : option Z :=
  if negb (raw =? 0) && (Z.land raw 4095 =? 0) then Some raw else None.

Record UserLaunch : Type := mk_launch { l_entry : Z; l_stack_top : Z; l_root : Z }.

Definition launch_new (entry stack_top root : Z) : option UserLaunch :=
  if (entry =? 0) || (2 ^ 47 <=? entry) || (stack_top =? 0) || negb (Z.land stack_top 4095 =? 0)
     || (2 ^ 47 <? stack_top)
  then None else Some (mk_launch entry stack_top root).

Record ScheduledUserLaunch : Type := mk_scheduled { sl_process : ProcessHandle; sl_launch : UserLaunch }.

(** ** Cells *)

(** An [AtomicBool] holds 0 or 1. *)
Record TaskSlot : Type := mk_slot {
  entry_cell : Z;
  state_cell : Z;
  wake_deadline : Z;
  saved_rsp : Z;
  context_saved : Z;
  wait_object : Z;
  address_space_cell : Z;
  process_cell : Z;
  user_entry : Z;
  user_stack_top : Z;
  address_space_published : Z
}.

Definition slot_new : TaskSlot := mk_slot 0 (pack INITIAL_GENERATION VACANT) NO_DEADLINE 0 0 0 0 0 0 0 0.

Record CpuState : Type := mk_cpu {
  online : Z;
  cursor_cell : Z;
  current_slot : Z;
  current_generation : Z;
  ticks_cell : Z;
  switches_cell : Z
}.

Definition cpu_new : CpuState := mk_cpu 0 0 NO_CPU_TASK 0 0 0.

Record Scheduler : Type := mk_scheduler {
  tasks : list TaskSlot;
  cpus : list CpuState;
  event_wakes_cell : Z
}.

Definition scheduler_new : Scheduler :=
  mk_scheduler (replicate MAX_TASKS slot_new) (replicate MAX_CPUS cpu_new) 0.

Inductive task_field : Type :=
| FEntry | FState | FDeadline | FSavedRsp | FContextSaved | FWaitObject | FAddressSpace | FProcess
| FUserEntry | FUserStackTop | FPublished.

Inductive cpu_field : Type := FOnline | FCursor | FCurrentSlot | FCurrentGeneration | FTicks | FSwitches.

Inductive cell : Type :=
| CTask (i : nat) (f : task_field)
| CCpu (i : nat) (f : cpu_field)
| CEventWakes.

#[export] Instance task_field_eq_dec : EqDecision task_field.
Proof. solve_decision. Defined.
#[export] Instance cpu_field_eq_dec : EqDecision cpu_field.
Proof. solve_decision. Defined.
#[export] Instance cell_eq_dec : EqDecision cell.
Proof. solve_decision. Defined.

Definition slot_read (f : task_field) (s : TaskSlot) : Z :=
  match f with
  | FEntry => entry_cell s | FState => state_cell s | FDeadline => wake_deadline s
  | FSavedRsp => saved_rsp s | FContextSaved => context_saved s | FWaitObject => wait_object s
  | FAddressSpace => address_space_cell s | FProcess => process_cell s | FUserEntry => user_entry s
  | FUserStackTop => user_stack_top s | FPublished => address_space_published s
  end.

Definition slot_write (f : task_field) (v : Z) (s : TaskSlot) : TaskSlot :=
  let '(mk_slot e st d r c w a p ue us pu) := s in
  match f with
  | FEntry => mk_slot v st d r c w a p ue us pu
  | FState => mk_slot e v d r c w a p ue us pu
  | FDeadline => mk_slot e st v r c w a p ue us pu
  | FSavedRsp => mk_slot e st d v c w a p ue us pu
  | FContextSaved => mk_slot e st d r v w a p ue us pu
  | FWaitObject => mk_slot e st d r c v a p ue us pu
  | FAddressSpace => mk_slot e st d r c w v p ue us pu
  | FProcess => mk_slot e st d r c w a v ue us pu
  | FUserEntry => mk_slot e st d r c w a p v us pu
  | FUserStackTop => mk_slot e st d r c w a p ue v pu
  | FPublished => mk_slot e st d r c w a p ue us v
  end.

Definition cpu_read (f : cpu_field) (c : CpuState) : Z :=
  match f with
  | FOnline => online c | FCursor => cursor_cell c | FCurrentSlot => current_slot c
  | FCurrentGeneration => current_generation c | FTicks => ticks_cell c | FSwitches => switches_cell c
  end.

Definition cpu_write (f : cpu_field) (v : Z) (c : CpuState) : CpuState :=
  let '(mk_cpu o cu sl g t sw) := c in
  match f with
  | FOnline => mk_cpu v cu sl g t sw
  | FCursor => mk_cpu o v sl g t sw
  | FCurrentSlot => mk_cpu o cu v g t sw
  | FCurrentGeneration => mk_cpu o cu sl v t sw
  | FTicks => mk_cpu o cu sl g v sw
  | FSwitches => mk_cpu o cu sl g t v
  end.

Definition read (c : cell) (m : Scheduler) : Z :=
  match c with
  | CTask i f => match tasks m !! i with Some s => slot_read f s | None => 0 end
  | CCpu i f => match cpus m !! i with Some s => cpu_read f s | None => 0 end
  | CEventWakes => event_wakes_cell m
  end.

Definition write (c : cell) (v : Z) (m : Scheduler) : Scheduler :=
  match c with
  | CTask i f => mk_scheduler (alter (slot_write f v) i (tasks m)) (cpus m) (event_wakes_cell m)
  | CCpu i f => mk_scheduler (tasks m) (alter (cpu_write f v) i (cpus m)) (event_wakes_cell m)
  | CEventWakes => mk_scheduler (tasks m) (cpus m) v
  end.

(** ** Programs over atomic cells *)

Inductive prog (A : Type) : Type :=
| Ret (a : A)
| Spin
| Load (c : cell) (k : Z -> prog A)
| Store (c : cell) (v : Z) (k : prog A)
| Cas (c : cell) (old new : Z) (k : bool -> prog A)
| FetchAdd (c : cell) (v : Z) (k : Z -> prog A).
Arguments Ret {A} _.
Arguments Spin {A}.
Arguments Load {A} _ _.
Arguments Store {A} _ _ _.
Arguments Cas {A} _ _ _ _.
Arguments FetchAdd {A} _ _ _.

Fixpoint pbind {A B} (p : prog A) (f : A -> prog B) : prog B :=
  match p with
  | Ret a => f a
  | Spin => Spin
  | Load c k => Load c (fun v => pbind (k v) f)
  | Store c v k => Store c v (pbind k f)
  | Cas c old new k => Cas c old new (fun b => pbind (k b) f)
  | FetchAdd c v k => FetchAdd c v (fun x => pbind (k x) f)
  end.

Declare Scope prog_scope.
Delimit Scope prog_scope with prog.
Notation "x ':=!' c ';;' q" := (Load c (fun x => q)) (at level 60, c at level 59, right associativity) : prog_scope.
Notation "c '<-!' v ';;' q" := (Store c v q) (at level 60, v at level 59, right associativity) : prog_scope.
Notation "x <- p ';;' q" := (pbind p (fun x => q)) (at level 60, p at level 59, right associativity) : prog_scope.

(** One atomic access. *)
Definition act {A} (p : prog A) (m : Scheduler) : option (Scheduler * prog A) :=
  match p with
  | Ret _ | Spin => None
  | Load c k => Some (m, k (read c m))
  | Store c v k => Some (write c v m, k)
  | Cas c old new k => if read c m =? old then Some (write c new m, k true) else Some (m, k false)
  | FetchAdd c v k => Some (write c (wrapping_add 64 (read c m) v) m, k (read c m))
  end.

(** A program alone on the machine; [None] when it spins. *)
Fixpoint run {A} (p : prog A) (m : Scheduler) : Scheduler * option A :=
  match p with
  | Ret a => (m, Some a)
  | Spin => (m, None)
  | Load c k => run (k (read c m)) m
  | Store c v k => run k (write c v m)
  | Cas c old new k => if read c m =? old then run (k true) (write c new m) else run (k false) m
  | FetchAdd c v k => run (k (read c m)) (write c (wrapping_add 64 (read c m) v) m)
  end.

#[local] Open Scope prog_scope.

(** ** CPUs *)

Definition online_cpu (cpu : nat) : prog bool :=
  if (cpu <? MAX_CPUS)%nat then CCpu cpu FOnline <-! 1;; Ret true else Ret false.

Definition cpu_online (cpu : nat) : prog bool :=
  if (cpu <? MAX_CPUS)%nat then o :=! CCpu cpu FOnline;; Ret (negb (o =? 0)) else Ret false.

Definition record_tick (cpu : nat) : prog unit :=
  if (cpu <? MAX_CPUS)%nat then FetchAdd (CCpu cpu FTicks) 1 (fun _ => Ret tt) else Ret tt.

Definition cpu_load (f : cpu_field) (cpu : nat) : prog (option Z) :=
  if (cpu <? MAX_CPUS)%nat then v :=! CCpu cpu f;; Ret (Some v) else Ret None.

Definition ticks : nat -> prog (option Z) := cpu_load FTicks.
Definition switches : nat -> prog (option Z) := cpu_load FSwitches.
Definition cursor : nat -> prog (option Z) := cpu_load FCursor.

Definition current_task (cpu : nat) : prog (option TaskHandle) :=
  if (cpu <? MAX_CPUS)%nat then
    s :=! CCpu cpu FCurrentSlot;;
    g :=! CCpu cpu FCurrentGeneration;;
    Ret (if s =? NO_CPU_TASK then None else Some (mk_handle s g))
  else Ret None.

Definition clear_current (cpu : nat) : prog unit :=
  if (cpu <? MAX_CPUS)%nat then
    CCpu cpu FCurrentSlot <-! NO_CPU_TASK;; CCpu cpu FCurrentGeneration <-! 0;; Ret tt
  else Ret tt.

(** ** Spawning *)

Definition spawn_fill (i : nat) (g entry address_space : Z) (ul : option ScheduledUserLaunch) :
    prog (result TaskHandle SpawnError) :=
  CTask i FEntry <-! entry;;
  CTask i FDeadline <-! NO_DEADLINE;;
  CTask i FSavedRsp <-! 0;;
  CTask i FContextSaved <-! 0;;
  CTask i FWaitObject <-! 0;;
  CTask i FAddressSpace <-! address_space;;
  CTask i FPublished <-! Z.b2z (negb (address_space =? 0));;
  CTask i FProcess <-! match ul with Some l => process_raw (sl_process l) | None => 0 end;;
  CTask i FUserEntry <-! match ul with Some l => l_entry (sl_launch l) | None => 0 end;;
  CTask i FUserStackTop <-! match ul with Some l => l_stack_top (sl_launch l) | None => 0 end;;
  CTask i FState <-! pack g RUNNABLE;;
  Ret (Ok (mk_handle (Z.of_nat i) g)).

Fixpoint spawn_scan (entry address_space : Z) (ul : option ScheduledUserLaunch) (indices : list nat) :
    prog (result TaskHandle SpawnError) :=
  match indices with
  | [] => Ret (Err SCapacity)
  | i :: indices =>
      old :=! CTask i FState;;
      if negb (state old =? VACANT) then spawn_scan entry address_space ul indices
      else Cas (CTask i FState) old (pack (generation old) INITIALIZING) (fun ok =>
        if ok then spawn_fill i (generation old) entry address_space ul
        else spawn_scan entry address_space ul indices)
  end.

Definition spawn_internal (entry address_space : Z) (ul : option ScheduledUserLaunch) :
    prog (result TaskHandle SpawnError) :=
  if negb (address_space =? 0) && negb (Z.land address_space 4095 =? 0) then Ret (Err SAddressSpace)
  else if match ul with Some l => process_raw (sl_process l) =? 0 | None => false end
  then Ret (Err SUserLaunch)
  else spawn_scan entry address_space ul (seq 0 MAX_TASKS).

Definition spawn_with_address_space (entry address_space : Z) := spawn_internal entry address_space None.
Definition spawn (entry : Z) := spawn_with_address_space entry 0.
Definition spawn_user (entry : Z) (process : ProcessHandle) (launch : UserLaunch) :=
  spawn_internal entry (l_root launch) (Some (mk_scheduled process launch)).

(** ** Slots by handle *)

(** [self.tasks.get(handle.slot as usize)]. *)
Definition with_slot {A} (h : TaskHandle) (none : A) (k : nat -> prog A) : prog A :=
  if (Z.to_nat (h_slot h) <? MAX_TASKS)%nat then k (Z.to_nat (h_slot h)) else Ret none.

Definition arm_deadline (h : TaskHandle) (deadline : Z) : prog bool :=
  with_slot h false (fun i =>
    word :=! CTask i FState;;
    if negb (generation word =? h_generation h) || negb (state word =? RUNNING) then Ret false
    else CTask i FDeadline <-! deadline;; Ret true).

Definition wait_for_event_object (h : TaskHandle) (object deadline : Z) : prog (option bool) :=
  if object =? 0 then Ret None
  else with_slot h None (fun i =>
    word :=! CTask i FState;;
    if negb (generation word =? h_generation h) || negb (state word =? RUNNING) then Ret None
    else
      CTask i FWaitObject <-! 0;;
      CTask i FDeadline <-! deadline;;
      CTask i FWaitObject <-! object;;
      Ret (Some true)).

Definition task_state (h : TaskHandle) : prog (option TaskState) :=
  with_slot h None (fun i =>
    word :=! CTask i FState;;
    if negb (generation word =? h_generation h) then Ret None
    else Ret (
      let s := state word in
      if s =? RUNNABLE then Some Runnable else if s =? RUNNING then Some Running
      else if s =? BLOCKED then Some Blocked else if s =? STOPPING then Some Stopping
      else if s =? COMPLETED then Some Completed else None)).

(** ** Waking *)

Fixpoint wake_loop (fuel : nat) (i : nat) (h : TaskHandle) : prog bool :=
  match fuel with
  | O => Spin
  | S fuel =>
      old :=! CTask i FState;;
      if negb (generation old =? h_generation h) then Ret false
      else
        let attempt next :=
          if next =? old then Ret true
          else Cas (CTask i FState) old next (fun ok => if ok then Ret true else wake_loop fuel i h) in
        if state old =? BLOCKED then
          CTask i FDeadline <-! NO_DEADLINE;;
          CTask i FWaitObject <-! 0;;
          attempt (pack (h_generation h) RUNNABLE)
        else if state old =? RUNNING then
          CTask i FWaitObject <-! 0;; attempt (Z.lor old WAKE_PENDING)
        else if state old =? RUNNABLE then
          CTask i FWaitObject <-! 0;; attempt old
        else Ret false
  end.

Definition wake (fuel : nat) (h : TaskHandle) : prog bool := with_slot h false (fun i => wake_loop fuel i h).

Fixpoint signal_scan (fuel : nat) (object : Z) (indices : list nat) (woken : Z) : prog Z :=
  match indices with
  | [] => Ret woken
  | i :: indices =>
      w :=! CTask i FWaitObject;;
      if negb (w =? object) then signal_scan fuel object indices woken
      else
        word :=! CTask i FState;;
        if negb ((state word =? BLOCKED) || (state word =? RUNNING)) then signal_scan fuel object indices woken
        else
          ok <- wake fuel (mk_handle (Z.of_nat i) (generation word));;
          if ok : bool then FetchAdd CEventWakes 1 (fun _ => signal_scan fuel object indices (woken + 1))
          else signal_scan fuel object indices woken
  end.

Definition signal_event_object (fuel : nat) (object : Z) : prog Z :=
  if object =? 0 then Ret 0 else signal_scan fuel object (seq 0 MAX_TASKS) 0.

Fixpoint reset_scan (fuel : nat) (indices : list nat) : prog unit :=
  match indices with
  | [] => Ret tt
  | i :: indices =>
      word :=! CTask i FState;;
      _ <- (if state word =? BLOCKED then wake fuel (mk_handle (Z.of_nat i) (generation word)) else Ret false);;
      CTask i FWaitObject <-! 0;;
      CTask i FDeadline <-! NO_DEADLINE;;
      reset_scan fuel indices
  end.

Definition reset_events (fuel : nat) : prog unit := reset_scan fuel (seq 0 MAX_TASKS).

Definition event_wakes : prog Z := v :=! CEventWakes;; Ret v.

Fixpoint due_scan (now : Z) (indices : list nat) (woken : Z) : prog Z :=
  match indices with
  | [] => Ret woken
  | i :: indices =>
      word :=! CTask i FState;;
      if negb (state word =? BLOCKED) then due_scan now indices woken
      else
        deadline :=! CTask i FDeadline;;
        if (deadline =? NO_DEADLINE) || (now <? deadline) then due_scan now indices woken
        else Cas (CTask i FDeadline) deadline NO_DEADLINE (fun ok =>
          if ok then
            CTask i FWaitObject <-! 0;;
            Cas (CTask i FState) word (pack (generation word) RUNNABLE) (fun ok =>
              due_scan now indices (if ok then woken + 1 else woken))
          else due_scan now indices woken)
  end.

Definition wake_due (now : Z) : prog Z := due_scan now (seq 0 MAX_TASKS) 0.

(** ** Stopping, claiming and finishing *)

Fixpoint stop_loop (fuel : nat) (i : nat) (h : TaskHandle) : prog bool :=
  match fuel with
  | O => Spin
  | S fuel =>
      old :=! CTask i FState;;
      if negb (generation old =? h_generation h) then Ret false
      else
        let attempt next :=
          CTask i FDeadline <-! NO_DEADLINE;;
          CTask i FWaitObject <-! 0;;
          Cas (CTask i FState) old next (fun ok => if ok then Ret true else stop_loop fuel i h) in
        if state old =? RUNNING then attempt (pack (h_generation h) STOPPING)
        else if (state old =? RUNNABLE) || (state old =? BLOCKED) then attempt (pack (h_generation h) COMPLETED)
        else if (state old =? STOPPING) || (state old =? COMPLETED) then Ret true
        else Ret false
  end.

Definition request_stop (fuel : nat) (h : TaskHandle) : prog bool :=
  with_slot h false (fun i => stop_loop fuel i h).

Fixpoint claim_scan (cpu : nat) (indices : list nat) : prog (option TaskHandle) :=
  match indices with
  | [] => Ret None
  | i :: indices =>
      old :=! CTask i FState;;
      if negb (state old =? RUNNABLE) then claim_scan cpu indices
      else Cas (CTask i FState) old (pack (generation old) RUNNING) (fun ok =>
        if ok then
          CCpu cpu FCurrentSlot <-! Z.of_nat i;;
          CCpu cpu FCurrentGeneration <-! generation old;;
          FetchAdd (CCpu cpu FSwitches) 1 (fun _ => Ret (Some (mk_handle (Z.of_nat i) (generation old))))
        else claim_scan cpu indices)
  end.

(** The order in which [claim_next] visits the slots from [start]. *)
Definition claim_order (start : nat) : list nat :=
  (fun offset => (start + offset) mod MAX_TASKS)%nat <$> seq 0 MAX_TASKS.

Definition claim_next (cpu : nat) : prog (option TaskHandle) :=
  if (cpu <? MAX_CPUS)%nat then
    o :=! CCpu cpu FOnline;;
    if o =? 0 then Ret None
    else FetchAdd (CCpu cpu FCursor) 1 (fun c => claim_scan cpu (claim_order (Z.to_nat (c mod Z.of_nat MAX_TASKS))))
  else Ret None.

Definition is_active (word : Z) : bool := (state word =? RUNNING) || (state word =? STOPPING).

Definition save_context (h : TaskHandle) (rsp : Z) : prog bool :=
  with_slot h false (fun i =>
    word :=! CTask i FState;;
    if negb (generation word =? h_generation h) || negb (is_active word) then Ret false
    else CTask i FSavedRsp <-! rsp;; CTask i FContextSaved <-! 1;; Ret true).

(** The cells [save_context_from_interrupt] publishes once the registers are
    copied to the slot's own save area, whose address is [context]. *)
Definition save_context_from_interrupt (context : nat -> Z) (h : TaskHandle) : prog bool :=
  with_slot h false (fun i =>
    word :=! CTask i FState;;
    if negb (generation word =? h_generation h) || negb (is_active word) then Ret false
    else CTask i FSavedRsp <-! context i;; CTask i FContextSaved <-! 1;; Ret true).

Definition saved_context (h : TaskHandle) : prog (option Z) :=
  with_slot h None (fun i =>
    word :=! CTask i FState;;
    if negb (generation word =? h_generation h) then Ret None
    else
      s :=! CTask i FContextSaved;;
      if s =? 0 then Ret None else rsp :=! CTask i FSavedRsp;; Ret (Some rsp)).

Definition set_initial_context (h : TaskHandle) (rsp : Z) : prog bool :=
  with_slot h false (fun i =>
    word :=! CTask i FState;;
    if negb (generation word =? h_generation h) || negb (state word =? RUNNING) then Ret false
    else
      s :=! CTask i FContextSaved;;
      if negb (s =? 0) then Ret true
      else CTask i FSavedRsp <-! rsp;; CTask i FContextSaved <-! 1;; Ret true).

(** The state [finish] moves to. *)
Definition finish_state (outcome : FinishState) (old : Z) : Z :=
  let next :=
    match outcome with
    | FinishRunnable => RUNNABLE
    | FinishBlocked | FinishTimedBlocked => if Z.land old WAKE_PENDING =? 0 then BLOCKED else RUNNABLE
    | FinishCompleted => COMPLETED
    end in
  if state old =? STOPPING then COMPLETED else next.

Definition is_blocked_outcome (outcome : FinishState) : bool :=
  match outcome with FinishBlocked => true | _ => false end.

Fixpoint finish_loop (fuel : nat) (i : nat) (h : TaskHandle) (outcome : FinishState) : prog bool :=
  match fuel with
  | O => Spin
  | S fuel =>
      old :=! CTask i FState;;
      if negb (generation old =? h_generation h) || negb (is_active old) then Ret false
      else
        let next := finish_state outcome old in
        let swap := Cas (CTask i FState) old (pack (h_generation h) next) (fun ok =>
          if ok then Ret true else finish_loop fuel i h outcome) in
        let deadline :=
          if negb (next =? BLOCKED) || is_blocked_outcome outcome
          then CTask i FDeadline <-! NO_DEADLINE;; swap else swap in
        if negb (next =? BLOCKED) then CTask i FWaitObject <-! 0;; deadline else deadline
  end.

Definition finish (fuel : nat) (h : TaskHandle) (outcome : FinishState) : prog bool :=
  with_slot h false (fun i =>
    s :=! CTask i FContextSaved;;
    if s =? 0 then Ret false else finish_loop fuel i h outcome).

Definition reclaim_completed (h : TaskHandle) : prog bool :=
  with_slot h false (fun i =>
    Cas (CTask i FState) (pack (h_generation h) COMPLETED) (pack (h_generation h) INITIALIZING) (fun ok =>
      if ok then
        CTask i FEntry <-! 0;;
        CTask i FAddressSpace <-! 0;;
        CTask i FProcess <-! 0;;
        CTask i FUserEntry <-! 0;;
        CTask i FUserStackTop <-! 0;;
        CTask i FPublished <-! 0;;
        CTask i FDeadline <-! NO_DEADLINE;;
        CTask i FWaitObject <-! 0;;
        CTask i FSavedRsp <-! 0;;
        CTask i FContextSaved <-! 0;;
        CTask i FState <-! pack (next_generation (h_generation h)) VACANT;;
        Ret true
      else Ret false)).

(** ** Task metadata *)

Definition entry (h : TaskHandle) : prog (option Z) :=
  with_slot h None (fun i =>
    word :=! CTask i FState;;
    if negb (generation word =? h_generation h) then Ret None
    else p :=! CTask i FEntry;; Ret (if p =? 0 then None else Some p)).

Definition address_space (h : TaskHandle) : prog (option Z) :=
  with_slot h None (fun i =>
    word :=! CTask i FState;;
    if negb (generation word =? h_generation h) then Ret None
    else
      p :=! CTask i FPublished;;
      if p =? 0 then Ret (Some 0) else a :=! CTask i FAddressSpace;; Ret (Some a)).

Definition normalize_kernel_task (h : TaskHandle) : prog unit :=
  with_slot h tt (fun i =>
    word :=! CTask i FState;;
    if negb (generation word =? h_generation h) then Ret tt
    else
      p :=! CTask i FPublished;;
      if negb (p =? 0) then Ret tt
      else
        CTask i FAddressSpace <-! 0;;
        CTask i FUserEntry <-! 0;;
        CTask i FUserStackTop <-! 0;;
        Ret tt).

Definition user_launch (h : TaskHandle) : prog (option ScheduledUserLaunch) :=
  with_slot h None (fun i =>
    word :=! CTask i FState;;
    if negb (generation word =? h_generation h) then Ret None
    else
      p :=! CTask i FProcess;;
      if process_raw (process_from_raw p) =? 0 then Ret None
      else
        a :=! CTask i FAddressSpace;;
        match root_new a with
        | None => Ret None
        | Some root =>
            e :=! CTask i FUserEntry;;
            s :=! CTask i FUserStackTop;;
            Ret (match launch_new e s root with
                 | None => None
                 | Some l => Some (mk_scheduled (process_from_raw p) l)
                 end)
        end).

(** ** Words *)

Lemma mask_small g : fits 56 g -> Z.land g GENERATION_MASK = g.
Proof.
  intros Hg. change GENERATION_MASK with (Z.ones 56). rewrite Z.land_ones by lia. by apply Z.mod_small.
Qed.

Lemma mask_fits g : fits 56 (Z.land g GENERATION_MASK).
Proof. change GENERATION_MASK with (Z.ones 56). rewrite Z.land_ones by lia. apply Z.mod_pos_bound. lia. Qed.

Lemma generation_fits w : fits 64 w -> fits 56 (generation w).
Proof.
  unfold fits, generation, GENERATION_SHIFT. intros Hw. rewrite Z.shiftr_div_pow2 by lia.
  split; [apply Z.div_pos; lia|]. apply Z.div_lt_upper_bound; lia.
Qed.

Lemma pack_add g s : fits 56 g -> 0 <= s < 256 -> pack g s = g * 256 + s.
Proof.
  intros Hg Hs. unfold pack. rewrite mask_small by done. unfold GENERATION_SHIFT.
  by rewrite lor_shiftl_add by lia.
Qed.

Lemma pack_fits g s : 0 <= s < 256 -> fits 64 (pack g s).
Proof.
  intros Hs. pose proof (mask_fits g) as Hg. unfold fits in *.
  assert (pack g s = pack (Z.land g GENERATION_MASK) s) as ->.
  { unfold pack. by rewrite (mask_small (Z.land g GENERATION_MASK)). }
  rewrite pack_add by done. lia.
Qed.

Lemma generation_pack g s : fits 56 g -> 0 <= s < 256 -> generation (pack g s) = g.
Proof.
  intros Hg Hs. rewrite pack_add by done. unfold generation, GENERATION_SHIFT.
  rewrite Z.shiftr_div_pow2 by lia. symmetry. apply (Z.div_unique _ _ _ s); lia.
Qed.

Lemma state_mod w : state w = w mod 16.
Proof. unfold state, STATE_MASK. change 15 with (Z.ones 4). by rewrite Z.land_ones by lia. Qed.

Lemma state_pack g s : fits 56 g -> 0 <= s < 16 -> state (pack g s) = s.
Proof.
  intros Hg Hs. rewrite pack_add, state_mod by (done || lia).
  replace (g * 256 + s) with (s + (g * 16) * 16) by lia. rewrite Z.mod_add by lia. by apply Z.mod_small.
Qed.

(** Setting the pending bit changes neither the state nor the generation. *)
Lemma pending_testbit w j : 0 <= j -> Z.testbit (Z.lor w WAKE_PENDING) j = Z.testbit w j || (j =? 4).
Proof.
  intros Hj. rewrite Z.lor_spec. f_equal. change WAKE_PENDING with (2 ^ 4).
  by rewrite Z.pow2_bits_eqb, Z.eqb_sym by lia.
Qed.

Lemma state_pending w : state (Z.lor w WAKE_PENDING) = state w.
Proof.
  unfold state, STATE_MASK. change 15 with (Z.ones 4). apply Z.bits_inj'. intros j Hj.
  rewrite !Z.land_spec, pending_testbit by done. destruct (Z.eqb_spec j 4) as [->|]; [|by rewrite orb_false_r].
  rewrite Z.ones_spec_high by lia. by rewrite !andb_false_r.
Qed.

Lemma generation_pending w : generation (Z.lor w WAKE_PENDING) = generation w.
Proof.
  unfold generation, GENERATION_SHIFT. apply Z.bits_inj'. intros j Hj.
  rewrite !Z.shiftr_spec, pending_testbit by lia. destruct (Z.eqb_spec (j + 8) 4); [lia|]. by rewrite orb_false_r.
Qed.

Lemma pending_set w : Z.land (Z.lor w WAKE_PENDING) WAKE_PENDING ≠ 0.
Proof.
  intros H. assert (Hb : Z.testbit (Z.land (Z.lor w WAKE_PENDING) WAKE_PENDING) 4 = false)
    by (rewrite H; apply Z.bits_0).
  rewrite Z.land_spec, pending_testbit in Hb by lia. change (Z.testbit WAKE_PENDING 4) with true in Hb.
  change (4 =? 4) with true in Hb. by rewrite orb_true_r in Hb.
Qed.

Lemma pack_not_pending g s : fits 56 g -> 0 <= s < 16 -> Z.land (pack g s) WAKE_PENDING = 0.
Proof.
  intros Hg Hs. apply Z.bits_inj'. intros j Hj. rewrite Z.land_spec, Z.bits_0. change WAKE_PENDING with (2 ^ 4).
  rewrite Z.pow2_bits_eqb by lia. destruct (Z.eqb_spec 4 j) as [<-|]; [|apply andb_false_r]. rewrite andb_true_r.
  rewrite pack_add by (done || lia). replace (g * 256 + s) with (s + (g * 16) * 2 ^ 4) by lia.
  rewrite Z.testbit_eqb by lia. rewrite Z.div_add by lia. rewrite Z.div_small by lia. 
  replace (0 + g * 16) with ((g * 8) * 2) by lia. by rewrite Z.mod_mul by lia.
Qed.

Lemma next_generation_fits g : fits 56 (next_generation g).
Proof.
  unfold next_generation. destruct (_ =? 0); [unfold fits, INITIAL_GENERATION; lia|apply mask_fits].
Qed.

Lemma next_generation_neq g : fits 56 g -> next_generation g ≠ g.
Proof.
  intros Hg. unfold next_generation, INITIAL_GENERATION. rewrite (mask_small g) by done. unfold fits in Hg.
  unfold wrapping_add. rewrite wrap_small by (unfold fits; lia). change GENERATION_MASK with (Z.ones 56).
  rewrite Z.land_ones by lia. destruct (decide (g = 2 ^ 56 - 1)) as [->|].
  - change ((2 ^ 56 - 1 + 1) mod 2 ^ 56) with 0. simpl. lia.
  - rewrite Z.mod_small by lia. destruct (Z.eqb_spec (g + 1) 0); lia.
Qed.

(** Task handles survive their raw encoding, and distinct handles have
    distinct raw values. *)
Theorem sched_handle_roundtrip h :
  fits 8 (h_slot h) -> fits 56 (h_generation h) ->
  handle_from_raw (handle_raw h) = h ∧ fits 64 (handle_raw h).
Proof.
  destruct h as [s g]. cbn [h_slot h_generation]. intros Hs Hg. unfold handle_raw, handle_from_raw. cbn [h_slot h_generation].
  fold (pack g s). assert (0 <= s < 256) as Hs' by (unfold fits in Hs; lia). split; [|by apply pack_fits].
  fold (generation (pack g s)). rewrite generation_pack, mask_small by done. f_equal.
  rewrite pack_add by done. unfold wrap. replace (g * 256 + s) with (s + g * 2 ^ 8) by lia.
  rewrite Z.mod_add by lia. by apply Z.mod_small.
Qed.

Lemma sched_handle_roundtrip_witness :
  handle_from_raw (handle_raw (mk_handle 23 (2 ^ 56 - 1))) = mk_handle 23 (2 ^ 56 - 1).
Proof. apply (sched_handle_roundtrip (mk_handle 23 (2 ^ 56 - 1))); by vm_compute. Defined.

(** ** Cells *)

Lemma slot_read_write f g v s : slot_read f (slot_write g v s) = if decide (f = g) then v else slot_read f s.
Proof. destruct s. by destruct f, g. Qed.

Lemma cpu_read_write f g v c : cpu_read f (cpu_write g v c) = if decide (f = g) then v else cpu_read f c.
Proof. destruct c. by destruct f, g. Qed.

(** The cells of a scheduler. *)
Definition in_range (m : Scheduler) (c : cell) : Prop :=
  match c with
  | CTask i _ => (i < length (tasks m))%nat
  | CCpu i _ => (i < length (cpus m))%nat
  | CEventWakes => True
  end.

Lemma read_write c c' v m :
  in_range m c' -> read c (write c' v m) = if decide (c = c') then v else read c m.
Proof.
  intros Hr. destruct c as [i f|i f|], c' as [j g|j g|]; cbn [read write tasks cpus event_wakes_cell in_range] in *;
    try done.
  - destruct (decide (i = j)) as [->|Hij].
    + destruct (lookup_lt_is_Some_2 _ _ Hr) as [s Hs]. rewrite list_lookup_alter_eq, Hs. simpl.
      rewrite slot_read_write. destruct (decide (f = g)) as [->|]; [by rewrite decide_True|].
      rewrite decide_False by congruence. done.
    + rewrite list_lookup_alter_ne by done. by rewrite decide_False by congruence.
  - destruct (decide (i = j)) as [->|Hij].
    + destruct (lookup_lt_is_Some_2 _ _ Hr) as [s Hs]. rewrite list_lookup_alter_eq, Hs. simpl.
      rewrite cpu_read_write. destruct (decide (f = g)) as [->|]; [by rewrite decide_True|].
      rewrite decide_False by congruence. done.
    + rewrite list_lookup_alter_ne by done. by rewrite decide_False by congruence.
Qed.
