(* ===== verification/SchedulerConc.v ===== *)
(** * The scheduler under concurrency ([src/src/scheduler.rs])

    Threads call the operations of [Scheduler.v] and take turns access by
    access.  Each task slot is shown to follow an abstract life cycle
    ([task_step]): whatever the interleaving, the state word of a slot only
    changes along a transition of the operation that changes it. *)

From Stdlib Require Import ZArith Lia.
From stdpp Require Import relations.
From stdpp Require Import base list option numbers.
From S2P Require Import Prelude Scheduler.

#[local] Open Scope Z_scope.
#[local] Open Scope prog_scope.

(** ** Calls *)

Inductive call : Type :=
| CallOnline (cpu : nat) | CallTick (cpu : nat) | CallClear (cpu : nat)
| CallCpuRead (f : cpu_field) (cpu : nat) | CallCurrent (cpu : nat) | CallEventWakes
| CallSpawn (entry address_space : Z) (ul : option ScheduledUserLaunch)
| CallArm (h : TaskHandle) (deadline : Z)
| CallWait (h : TaskHandle) (object deadline : Z)
| CallState (h : TaskHandle)
| CallWake (fuel : nat) (h : TaskHandle)
| CallSignal (fuel : nat) (object : Z)
| CallReset (fuel : nat)
| CallDue (now : Z)
| CallStop (fuel : nat) (h : TaskHandle)
| CallClaim (cpu : nat)
| CallSave (h : TaskHandle) (rsp : Z)
| CallSaveInterrupt (context : nat -> Z) (h : TaskHandle)
| CallSaved (h : TaskHandle)
| CallInitial (h : TaskHandle) (rsp : Z)
| CallFinish (fuel : nat) (h : TaskHandle) (outcome : FinishState)
| CallReclaim (h : TaskHandle)
| CallEntry (h : TaskHandle) | CallAddressSpace (h : TaskHandle)
| CallNormalize (h : TaskHandle) | CallUserLaunch (h : TaskHandle).

Inductive value : Type :=
| VUnit | VBool (b : bool) | VInt (z : Z) | VOption (o : option Z) | VWait (o : option bool)
| VHandle (o : option TaskHandle) | VSpawn (r : result TaskHandle SpawnError)
| VState (o : option TaskState) | VLaunch (o : option ScheduledUserLaunch).

Definition returns {A} (p : prog A) (f : A -> value) : prog value := pbind p (fun a => Ret (f a)).

Definition start (c : call) : prog value :=
  match c with
  | CallOnline cpu => returns (online_cpu cpu) VBool
  | CallTick cpu => returns (record_tick cpu) (fun _ => VUnit)
  | CallClear cpu => returns (clear_current cpu) (fun _ => VUnit)
  | CallCpuRead f cpu => returns (cpu_load f cpu) VOption
  | CallCurrent cpu => returns (current_task cpu) VHandle
  | CallEventWakes => returns event_wakes VInt
  | CallSpawn e a ul => returns (spawn_internal e a ul) VSpawn
  | CallArm h d => returns (arm_deadline h d) VBool
  | CallWait h o d => returns (wait_for_event_object h o d) VWait
  | CallState h => returns (task_state h) VState
  | CallWake fuel h => returns (wake fuel h) VBool
  | CallSignal fuel o => returns (signal_event_object fuel o) VInt
  | CallReset fuel => returns (reset_events fuel) (fun _ => VUnit)
  | CallDue now => returns (wake_due now) VInt
  | CallStop fuel h => returns (request_stop fuel h) VBool
  | CallClaim cpu => returns (claim_next cpu) VHandle
  | CallSave h rsp => returns (save_context h rsp) VBool
  | CallSaveInterrupt ctx h => returns (save_context_from_interrupt ctx h) VBool
  | CallSaved h => returns (saved_context h) VOption
  | CallInitial h rsp => returns (set_initial_context h rsp) VBool
  | CallFinish fuel h o => returns (finish fuel h o) VBool
  | CallReclaim h => returns (reclaim_completed h) VBool
  | CallEntry h => returns (entry h) VOption
  | CallAddressSpace h => returns (address_space h) VOption
  | CallNormalize h => returns (normalize_kernel_task h) (fun _ => VUnit)
  | CallUserLaunch h => returns (user_launch h) VLaunch
  end.

(** Arguments within their machine types. *)
Definition call_ok (c : call) : Prop :=
  match c with
  | CallSpawn e a ul => fits 64 e ∧ fits 64 a ∧
      match ul with
      | Some l => fits 8 (p_slot (sl_process l)) ∧ fits 64 (l_entry (sl_launch l)) ∧ fits 64 (l_stack_top (sl_launch l))
      | None => True
      end
  | CallArm _ d => fits 64 d
  | CallWait _ o d => fits 64 o ∧ fits 64 d
  | CallSave _ rsp | CallInitial _ rsp => fits 64 rsp
  | CallSaveInterrupt ctx _ => forall i, fits 64 (ctx i)
  | CallWake _ h | CallStop _ h | CallFinish _ h _ => fits 8 (h_slot h)
  | CallReclaim h => fits 8 (h_slot h) ∧ fits 56 (h_generation h)
  | _ => True
  end.

(** ** Interleaving *)

Record thread : Type := mk_thread { t_call : call; t_prog : prog value }.

Definition config : Type := Scheduler * list thread.

(** A thread takes one atomic access, or starts its next call. *)
Inductive step : nat -> config -> config -> Prop :=
| step_act j c p m ts m' p' :
    ts !! j = Some (mk_thread c p) -> act p m = Some (m', p') ->
    step j (m, ts) (m', <[j := mk_thread c p']> ts)
| step_call j c v c' m ts :
    ts !! j = Some (mk_thread c (Ret v)) -> call_ok c' ->
    step j (m, ts) (m, <[j := mk_thread c' (start c')]> ts).

Definition steps : config -> config -> Prop := rtc (fun x y => exists j, step j x y).


(** [n] idle threads on a fresh scheduler. *)
Definition initial (n : nat) : config :=
  (scheduler_new, replicate n (mk_thread CallEventWakes (Ret VUnit))).

(** ** The abstract life cycle of a task slot *)

Inductive phase : Type :=
| PVacant | PInit | PRunnable | PRunning (pending : bool) | PBlocked | PCompleted | PStopping.

#[export] Instance phase_eq_dec : EqDecision phase.
Proof. solve_decision. Defined.

Definition encode (g : Z) (ph : phase) : Z :=
  match ph with
  | PVacant => pack g VACANT
  | PInit => pack g INITIALIZING
  | PRunnable => pack g RUNNABLE
  | PRunning false => pack g RUNNING
  | PRunning true => Z.lor (pack g RUNNING) WAKE_PENDING
  | PBlocked => pack g BLOCKED
  | PCompleted => pack g COMPLETED
  | PStopping => pack g STOPPING
  end.

(** Where a running task goes when it finishes. *)
Definition finish_phase (o : FinishState) (pending : bool) : phase :=
  match o with
  | FinishRunnable => PRunnable
  | FinishBlocked | FinishTimedBlocked => if pending then PRunnable else PBlocked
  | FinishCompleted => PCompleted
  end.

Definition names (h : TaskHandle) (i : nat) (g : Z) : Prop := h_slot h = Z.of_nat i ∧ h_generation h = g.

Inductive task_step : call -> nat -> Z * phase -> Z * phase -> Prop :=
| ts_reserve e a ul i g : task_step (CallSpawn e a ul) i (g, PVacant) (g, PInit)
| ts_publish e a ul i g : task_step (CallSpawn e a ul) i (g, PInit) (g, PRunnable)
| ts_claim cpu i g : task_step (CallClaim cpu) i (g, PRunnable) (g, PRunning false)
| ts_wake_blocked fuel h i g : names h i g -> task_step (CallWake fuel h) i (g, PBlocked) (g, PRunnable)
| ts_wake_running fuel h i g : names h i g -> task_step (CallWake fuel h) i (g, PRunning false) (g, PRunning true)
| ts_signal_blocked fuel o i g : task_step (CallSignal fuel o) i (g, PBlocked) (g, PRunnable)
| ts_signal_running fuel o i g : task_step (CallSignal fuel o) i (g, PRunning false) (g, PRunning true)
| ts_reset_blocked fuel i g : task_step (CallReset fuel) i (g, PBlocked) (g, PRunnable)
| ts_reset_running fuel i g : task_step (CallReset fuel) i (g, PRunning false) (g, PRunning true)
| ts_due now i g : task_step (CallDue now) i (g, PBlocked) (g, PRunnable)
| ts_stop_running fuel h i g b : names h i g -> task_step (CallStop fuel h) i (g, PRunning b) (g, PStopping)
| ts_stop_runnable fuel h i g : names h i g -> task_step (CallStop fuel h) i (g, PRunnable) (g, PCompleted)
| ts_stop_blocked fuel h i g : names h i g -> task_step (CallStop fuel h) i (g, PBlocked) (g, PCompleted)
| ts_finish fuel h o i g b : names h i g -> task_step (CallFinish fuel h o) i (g, PRunning b) (g, finish_phase o b)
| ts_finish_stop fuel h o i g : names h i g -> task_step (CallFinish fuel h o) i (g, PStopping) (g, PCompleted)
| ts_retire h i g : names h i g -> task_step (CallReclaim h) i (g, PCompleted) (g, PInit)
| ts_vacate h i g : names h i g -> task_step (CallReclaim h) i (g, PInit) (next_generation g, PVacant).

(** The state word of a slot. *)
Definition word (m : Scheduler) (i : nat) : Z := read (CTask i FState) m.

Definition task_gen (g : Z) : Prop := 1 <= g < 2 ^ 56.

Definition word_ok (w : Z) : Prop := exists g ph, task_gen g ∧ w = encode g ph.

(** A change of word along the life cycle. *)
Definition wstep (c : call) (i : nat) (w w' : Z) : Prop :=
  exists g ph g' ph', task_gen g ∧ task_gen g' ∧ w = encode g ph ∧ w' = encode g' ph' ∧
    task_step c i (g, ph) (g', ph').

(** ** Decoding words *)

Definition phase_code (ph : phase) : Z :=
  match ph with
  | PVacant => VACANT | PInit => INITIALIZING | PRunnable => RUNNABLE | PRunning _ => RUNNING
  | PBlocked => BLOCKED | PCompleted => COMPLETED | PStopping => STOPPING
  end.

Lemma task_gen_fits g : task_gen g -> fits 56 g.
Proof. unfold task_gen, fits. lia. Qed.

Lemma encode_state g ph : task_gen g -> state (encode g ph) = phase_code ph.
Proof.
  intros Hg%task_gen_fits. destruct ph as [| | |[]| | |]; cbn [encode phase_code]; rewrite ?state_pending; by apply state_pack.
Qed.

Lemma encode_generation g ph : task_gen g -> generation (encode g ph) = g.
Proof.
  intros Hg%task_gen_fits. destruct ph as [| | |[]| | |]; cbn [encode]; rewrite ?generation_pending; by apply generation_pack.
Qed.

Lemma encode_pending g b : task_gen g -> (Z.land (encode g (PRunning b)) WAKE_PENDING =? 0) = negb b.
Proof.
  intros Hg%task_gen_fits. destruct b; cbn [encode negb].
  - apply Z.eqb_neq, pending_set.
  - apply Z.eqb_eq. by apply pack_not_pending.
Qed.

Lemma encode_fits g ph : task_gen g -> fits 64 (encode g ph).
Proof.
  intros Hg. destruct ph as [| | |[]| | |]; cbn [encode]; try (by apply pack_fits).
  assert (Hp : fits 64 (pack g RUNNING)) by (by apply pack_fits). unfold fits in *. split.
  - apply Z.lor_nonneg. by split; [lia|].
  - apply Z.log2_lt_cancel. rewrite Z.log2_lor by (try done; lia). change (Z.log2 (2 ^ 64)) with 64.
    apply Z.max_lub_lt; [|done]. destruct (decide (pack g RUNNING = 0)) as [->|]; [done|]. apply Z.log2_lt_pow2; lia.
Qed.

Lemma encode_inj g ph g' ph' :
  task_gen g -> task_gen g' -> encode g ph = encode g' ph' -> g = g' ∧ ph = ph'.
Proof.
  intros Hg Hg' E. assert (g = g') as -> by (rewrite <- (encode_generation g ph), E, encode_generation; done).
  split; [done|]. assert (Es : phase_code ph = phase_code ph') by (rewrite <- (encode_state g' ph), E, encode_state; done).
  destruct ph as [| | |b| | |], ph' as [| | |b'| | |]; try done.
  pose proof (encode_pending g' b Hg') as Hb. rewrite E, (encode_pending g' b' Hg') in Hb. by destruct b, b'.
Qed.

Lemma next_generation_gen g : task_gen g -> task_gen (next_generation g).
Proof.
  intros Hg. pose proof (next_generation_fits g) as Hf. unfold task_gen, fits in *. split; [|lia].
  unfold next_generation, INITIAL_GENERATION in *. destruct (Z.eqb_spec (Z.land (wrapping_add 64 (Z.land g GENERATION_MASK) 1) GENERATION_MASK) 0); lia.
Qed.

(** ** Programs that keep to the life cycle *)

Definition valid_cell (c : cell) : Prop :=
  match c with
  | CTask i _ => (i < MAX_TASKS)%nat
  | CCpu i _ => (i < MAX_CPUS)%nat
  | CEventWakes => True
  end.

(** The type of a cell. *)
Definition cell_ok (c : cell) (v : Z) : Prop :=
  match c with
  | CTask _ FState => word_ok v
  | CTask _ FContextSaved | CTask _ FPublished | CCpu _ FOnline => v = 0 ∨ v = 1
  | CCpu _ FCurrentSlot => fits 8 v
  | _ => fits 64 v
  end.

Definition is_state (c : cell) : option nat := match c with CTask i FState => Some i | _ => None end.

Definition owned_by (i : nat) (w : Z) : option (nat * Z) := if state w =? INITIALIZING then Some (i, w) else None.

(** [conforms c own p]: the rest [p] of a call [c] changes state words only
    along the life cycle.  [own] is the slot the thread has reserved, with
    its word; only the owner may store to a reserved slot's word. *)
Fixpoint conforms (c : call) (own : option (nat * Z)) {A} (p : prog A) : Prop :=
  match p with
  | Ret _ | Spin => own = None
  | Load cl k => valid_cell cl ∧ forall v, cell_ok cl v -> conforms c own (k v)
  | Store cl v k => valid_cell cl ∧
      match is_state cl with
      | Some i => exists w, own = Some (i, w) ∧ wstep c i w v ∧ conforms c None k
      | None => cell_ok cl v ∧ conforms c own k
      end
  | Cas cl old new k => valid_cell cl ∧
      match is_state cl with
      | Some i => own = None ∧ conforms c None (k false) ∧
          (word_ok old -> wstep c i old new ∧ state old ≠ INITIALIZING ∧ conforms c (owned_by i new) (k true))
      | None => cell_ok cl new ∧ conforms c own (k true) ∧ conforms c own (k false)
      end
  | FetchAdd cl v k => valid_cell cl ∧ is_state cl = None ∧
      forall x, cell_ok cl x -> cell_ok cl (wrapping_add 64 x v) ∧ conforms c own (k x)
  end.

Lemma conforms_bind c own {A B} (p : prog A) (f : A -> prog B) :
  conforms c own p -> (forall a, conforms c None (f a)) -> conforms c own (pbind p f).
Proof.
  intros Hp Hf. revert own Hp. induction p as [a| |cl k IH|cl v k IH|cl old new k IH|cl v k IH];
    intros own; cbn [conforms pbind].
  - intros ->. apply Hf.
  - done.
  - intros [Hc Hk]. split; [done|]. auto.
  - intros [Hc Hk]. split; [done|]. destruct (is_state cl).
    + destruct Hk as (w & H1 & H2 & H3). exists w. auto.
    + destruct Hk. auto.
  - intros [Hc Hk]. split; [done|]. destruct (is_state cl).
    + destruct Hk as (H1 & H2 & H3). split; [done|]. split; [auto|]. intros Hw. destruct (H3 Hw) as (? & ? & ?). auto.
    + destruct Hk as (? & ? & ?). auto.
  - intros (Hc & Hs & Hk). split; [done|]. split; [done|]. intros x Hx. destruct (Hk x Hx). auto.
Qed.

Lemma conforms_returns c {A} (p : prog A) f : conforms c None p -> conforms c None (returns p f).
Proof. intros H. by apply conforms_bind. Qed.

(** Steps of the proofs below. *)
Lemma conforms_load c own {A} cl (k : Z -> prog A) :
  valid_cell cl -> (forall v, cell_ok cl v -> conforms c own (k v)) -> conforms c own (Load cl k).
Proof. done. Qed.

Lemma conforms_store c own {A} cl v (k : prog A) :
  valid_cell cl -> is_state cl = None -> cell_ok cl v -> conforms c own k -> conforms c own (Store cl v k).
Proof. intros H1 H2 H3 H4. cbn [conforms]. by rewrite H2. Qed.

(** A counter. *)
Lemma conforms_add c own {A} cl (k : Z -> prog A) :
  valid_cell cl -> is_state cl = None -> (forall x, cell_ok cl (wrapping_add 64 x 1)) ->
  (forall x, conforms c own (k x)) -> conforms c own (FetchAdd cl 1 k).
Proof. intros H1 H2 H3 H4. split; [done|]. split; [done|]. auto. Qed.

Lemma conforms_publish c {A} i w v (k : prog A) :
  (i < MAX_TASKS)%nat -> wstep c i w v -> conforms c None k ->
  conforms c (Some (i, w)) (Store (CTask i FState) v k).
Proof. intros. split; [done|]. exists w. done. Qed.

Lemma conforms_cas c {A} i old new (k : bool -> prog A) :
  (i < MAX_TASKS)%nat -> conforms c None (k false) ->
  (word_ok old -> wstep c i old new ∧ state old ≠ INITIALIZING ∧ conforms c (owned_by i new) (k true)) ->
  conforms c None (Cas (CTask i FState) old new k).
Proof. intros. split; [done|]. done. Qed.

Lemma conforms_slot c {A} (h : TaskHandle) (none : A) k :
  (forall i, (i < MAX_TASKS)%nat -> i = Z.to_nat (h_slot h) -> conforms c None (k i)) ->
  conforms c None (with_slot h none k).
Proof. intros H. unfold with_slot. destruct (Nat.ltb_spec (Z.to_nat (h_slot h)) MAX_TASKS); [by apply H|done]. Qed.

Lemma conforms_cpu c own {A} cpu (p q : prog A) :
  ((cpu < MAX_CPUS)%nat -> conforms c own p) -> conforms c own q ->
  conforms c own (if (cpu <? MAX_CPUS)%nat then p else q).
Proof. intros H1 H2. destruct (Nat.ltb_spec cpu MAX_CPUS); auto. Qed.

(** Words of unreserved slots. *)
Lemma word_cases w :
  word_ok w -> exists g ph, task_gen g ∧ w = encode g ph ∧ state w = phase_code ph ∧ generation w = g.
Proof.
  intros (g & ph & Hg & ->). exists g, ph. rewrite encode_state, encode_generation by done. done.
Qed.

Lemma wstep_encode c i g ph g' ph' w w' :
  task_gen g -> task_gen g' -> w = encode g ph -> w' = encode g' ph' -> task_step c i (g, ph) (g', ph') ->
  wstep c i w w'.
Proof. intros. by exists g, ph, g', ph'. Qed.

Lemma owned_none i g ph : task_gen g -> ph ≠ PInit -> owned_by i (encode g ph) = None.
Proof. intros Hg Hp. unfold owned_by. rewrite encode_state by done. by destruct ph. Qed.

Lemma fits_const w z : (0 <=? z) && (z <? 2 ^ w) = true -> fits w z.
Proof. unfold fits. rewrite andb_true_iff, Z.leb_le, Z.ltb_lt. done. Qed.

(** Stores to cells other than the state word. *)
Ltac cells :=
  repeat first
    [ apply conforms_store; [done|done|first [by apply fits_const|by left|by right|done]|]
    | done ].

(** ** Every operation keeps to the life cycle *)

Lemma wrapping_fits x : fits 64 (wrapping_add 64 x 1).
Proof. by apply wrap_fits. Qed.

Lemma generation_word w : word_ok w -> fits 64 (generation w).
Proof.
  intros (g & ph & Hg & _ & _ & ->)%word_cases. unfold task_gen, fits in *. lia.
Qed.

Lemma spawn_fill_conforms e a ul i g :
  call_ok (CallSpawn e a ul) -> (i < MAX_TASKS)%nat -> task_gen g ->
  conforms (CallSpawn e a ul) (Some (i, encode g PInit)) (spawn_fill i g e a ul).
Proof.
  intros (He & Ha & Hl) Hi Hg. unfold spawn_fill.
  assert (Hp : fits 64 match ul with Some l => process_raw (sl_process l) | None => 0 end).
  { destruct ul as [l|]; [|by apply fits_const]. destruct Hl as (Hs & _). unfold process_raw, fits in *.
    assert (Hw : fits 64 (wrap 64 (Z.shiftl (p_generation (sl_process l)) 8))) by (by apply wrap_fits).
    unfold fits in Hw. split; [apply Z.lor_nonneg; lia|]. apply Z.log2_lt_cancel.
    rewrite Z.log2_lor by lia. change (Z.log2 (2 ^ 64)) with 64. apply Z.max_lub_lt.
    - destruct (decide (wrap 64 (Z.shiftl (p_generation (sl_process l)) 8) = 0)) as [->|]; [done|]. apply Z.log2_lt_pow2; lia.
    - destruct (decide (p_slot (sl_process l) = 0)) as [->|]; [done|]. apply Z.log2_lt_pow2; lia. }
  assert (Hb : forall b, Z.b2z b = 0 ∨ Z.b2z b = 1) by (by intros []; [right|left]).
  cells. apply conforms_store; [done|done|apply Hb|]. cells.
  apply conforms_store; [done|done|destruct ul; [apply Hl|by apply fits_const]|].
  apply conforms_store; [done|done|destruct ul; [apply Hl|by apply fits_const]|].
  apply conforms_publish; [done| |done]. apply (wstep_encode _ _ g PInit g PRunnable); try done. constructor.
Qed.

Lemma spawn_conforms e a ul : call_ok (CallSpawn e a ul) -> conforms (CallSpawn e a ul) None (spawn_internal e a ul).
Proof.
  intros Hc. unfold spawn_internal. destruct (_ && _); [done|]. destruct (match ul with Some _ => _ | None => _ end); [done|].
  assert (Hi : Forall (fun i => (i < MAX_TASKS)%nat) (seq 0 MAX_TASKS)) by (apply Forall_seq; lia).
  induction Hi as [|i rest Hi Hrest IH]; [done|]. cbn [spawn_scan]. apply conforms_load; [done|].
  intros old (g & ph & Hg & -> & Es & Eg)%word_cases. rewrite Es, Eg.
  destruct (Z.eqb_spec (phase_code ph) VACANT) as [E|E]; [|done]. destruct ph; try done.
  apply conforms_cas; [done|done|]. intros _. split; [|split].
  - apply (wstep_encode _ _ g PVacant g PInit); try done. constructor.
  - by rewrite Es.
  - unfold owned_by. change (pack g INITIALIZING) with (encode g PInit). rewrite encode_state by done.
    by apply spawn_fill_conforms.
Qed.

Section waking.
Variables (c : call) (i : nat) (h : TaskHandle).
Hypothesis Hi : (i < MAX_TASKS)%nat.
Hypothesis Hblocked : task_step c i (h_generation h, PBlocked) (h_generation h, PRunnable).
Hypothesis Hrunning : task_step c i (h_generation h, PRunning false) (h_generation h, PRunning true).

Lemma wake_loop_conforms fuel : conforms c None (wake_loop fuel i h).
Proof.
  induction fuel as [|fuel IH]; [done|]. cbn [wake_loop]. apply conforms_load; [done|].
  intros old (g & ph & Hg & -> & Es & Eg)%word_cases. rewrite Es, Eg.
  destruct (Z.eqb_spec g (h_generation h)) as [E|E]; [|done]. cbn [negb]. rewrite <- E in *.
  assert (Ha : forall next own', own' = None -> (next = encode g ph ∨ wstep c i (encode g ph) next ∧ owned_by i next = None ∧ ph ≠ PInit) ->
    conforms c own' (if next =? encode g ph then Ret true else
      Cas (CTask i FState) (encode g ph) next (fun ok => if ok then Ret true else wake_loop fuel i h))).
  { intros next own' -> Hn. destruct (Z.eqb_spec next (encode g ph)); [done|]. destruct Hn as [|(Hw & Ho & Hp)]; [done|].
    apply conforms_cas; [done|done|]. intros _. rewrite Ho. split; [done|]. split; [|done].
    rewrite Es. by destruct ph. }
  destruct (Z.eqb_spec (phase_code ph) BLOCKED); [destruct ph; try done|].
  { cells. apply Ha; [done|]. right. split; [by apply (wstep_encode _ _ g PBlocked g PRunnable)|].
    change (pack g RUNNABLE) with (encode g PRunnable). split; [by apply owned_none|done]. }
  destruct (Z.eqb_spec (phase_code ph) RUNNING); [destruct ph as [| | |b| | |]; try done|].
  { cells. apply Ha; [done|]. destruct b.
    - left. cbn [encode]. by rewrite <- Z.lor_assoc, Z.lor_diag.
    - right. change (Z.lor (encode g (PRunning false)) WAKE_PENDING) with (encode g (PRunning true)).
      split; [by apply (wstep_encode _ _ g (PRunning false) g (PRunning true))|]. split; [by apply owned_none|done]. }
  destruct (Z.eqb_spec (phase_code ph) RUNNABLE); [|done]. cells. apply Ha; [done|]. by left.
Qed.
End waking.

Lemma wake_conforms fuel h : call_ok (CallWake fuel h) -> conforms (CallWake fuel h) None (wake fuel h).
Proof.
  intros Hc. apply conforms_slot. intros i Hi Ei.
  assert (Hn : names h i (h_generation h)) by (split; [|done]; cbn in Hc; unfold fits in Hc; lia).
  apply wake_loop_conforms; [done|by constructor|by constructor].
Qed.

Lemma indices_ok : Forall (fun i => (i < MAX_TASKS)%nat) (seq 0 MAX_TASKS).
Proof. apply Forall_seq. lia. Qed.

Lemma signal_conforms fuel o : conforms (CallSignal fuel o) None (signal_event_object fuel o).
Proof.
  unfold signal_event_object. destruct (o =? 0); [done|]. generalize 0 as woken.
  induction indices_ok as [|i rest Hi Hrest IH]; intros woken; [done|]. cbn [signal_scan].
  apply conforms_load; [done|]. intros w _. destruct (negb (w =? o)); [apply IH|].
  apply conforms_load; [done|]. intros old _. destruct (negb _); [apply IH|]. apply conforms_bind.
  - apply conforms_slot. intros j Hj ->. cbn [h_slot]. apply wake_loop_conforms; [done|constructor|constructor].
  - intros [|]; [|apply IH]. apply conforms_add; [done|done|apply wrapping_fits|]. intros x. apply IH.
Qed.

Lemma reset_conforms fuel : conforms (CallReset fuel) None (reset_events fuel).
Proof.
  unfold reset_events. induction indices_ok as [|i rest Hi Hrest IH]; [done|]. cbn [reset_scan].
  apply conforms_load; [done|]. intros old _. apply conforms_bind.
  - destruct (_ =? _); [|done]. apply conforms_slot. intros j Hj ->.
    apply wake_loop_conforms; [done|constructor|constructor].
  - intros _. cells.
Qed.

Lemma due_conforms now : conforms (CallDue now) None (wake_due now).
Proof.
  unfold wake_due. generalize 0 as woken. induction indices_ok as [|i rest Hi Hrest IH]; intros woken; [done|].
  cbn [due_scan]. apply conforms_load; [done|]. intros old (g & ph & Hg & -> & Es & Eg)%word_cases. rewrite Es, Eg.
  destruct (Z.eqb_spec (phase_code ph) BLOCKED); [|apply IH]. destruct ph; try done.
  apply conforms_load; [done|]. intros d _. destruct (_ || _); [apply IH|].
  split; [done|]. split; [by apply fits_const|]. split; [|apply IH]. cells.
  apply conforms_cas; [done|apply IH|]. intros _. split; [|split].
  - apply (wstep_encode _ _ g PBlocked g PRunnable); try done. constructor.
  - by rewrite Es.
  - change (pack g RUNNABLE) with (encode g PRunnable). rewrite owned_none by done. apply IH.
Qed.

Lemma names_slot h i : fits 8 (h_slot h) -> i = Z.to_nat (h_slot h) -> names h i (h_generation h).
Proof. intros Hf ->. split; [|done]. unfold fits in Hf. lia. Qed.

(** A compare-exchange of a word that is not reserved, to one that is not. *)
Lemma conforms_move c {A} i g ph ph' next (k : bool -> prog A) :
  (i < MAX_TASKS)%nat -> task_gen g -> next = encode g ph' -> task_step c i (g, ph) (g, ph') ->
  ph ≠ PInit -> ph' ≠ PInit -> conforms c None (k true) -> conforms c None (k false) ->
  conforms c None (Cas (CTask i FState) (encode g ph) next k).
Proof.
  intros Hi Hg -> Hs Hp Hp' H1 H2. apply conforms_cas; [done|done|]. intros _. rewrite owned_none by done.
  split; [by apply (wstep_encode _ _ g ph g ph')|]. split; [|done]. rewrite encode_state by done. by destruct ph.
Qed.

Lemma stop_conforms fuel h : call_ok (CallStop fuel h) -> conforms (CallStop fuel h) None (request_stop fuel h).
Proof.
  intros Hc. apply conforms_slot. intros i Hi Ei. pose proof (names_slot h i Hc Ei) as Hn.
  assert (Hgen : forall n, conforms (CallStop fuel h) None (stop_loop n i h)); [|apply Hgen].
  induction n as [|n IH]; [done|]. cbn [stop_loop]. apply conforms_load; [done|].
  intros old (g & ph & Hg & -> & Es & Eg)%word_cases. rewrite Es, Eg.
  destruct (Z.eqb_spec g (h_generation h)) as [E|E]; [|done]. cbn [negb]. rewrite <- E in *.
  destruct (Z.eqb_spec (phase_code ph) RUNNING); [destruct ph as [| | |b| | |]; try done|].
  { cells. apply (conforms_move _ _ _ _ PStopping); try done. by constructor. }
  destruct (Z.eqb_spec (phase_code ph) RUNNABLE); [destruct ph; try done|].
  { cells. apply (conforms_move _ _ _ _ PCompleted); try done. by constructor. }
  destruct (Z.eqb_spec (phase_code ph) BLOCKED); [destruct ph; try done|].
  { cells. apply (conforms_move _ _ _ _ PCompleted); try done. by constructor. }
  cbn [orb]. by destruct (_ || _).
Qed.

Lemma claim_order_ok n : Forall (fun i => (i < MAX_TASKS)%nat) (claim_order n).
Proof. apply Forall_fmap, Forall_seq. intros j _. apply Nat.mod_upper_bound. done. Qed.

Lemma claim_scan_conforms cpu indices :
  (cpu < MAX_CPUS)%nat -> Forall (fun i => (i < MAX_TASKS)%nat) indices ->
  conforms (CallClaim cpu) None (claim_scan cpu indices).
Proof.
  intros Hcpu H. induction H as [|i rest Hi Hrest IH]; [done|].
  cbn [claim_scan]. apply conforms_load; [done|]. intros old (g & ph & Hg & -> & Es & Eg)%word_cases. rewrite Es, Eg.
  destruct (Z.eqb_spec (phase_code ph) RUNNABLE); [|done]. destruct ph; try done.
  apply (conforms_move _ _ _ _ (PRunning false)); try done; [constructor|].
  assert (fits 8 (Z.of_nat i)) by (unfold MAX_TASKS, fits in *; lia).
  assert (fits 64 g) by (unfold task_gen, fits in *; lia). cells.
  apply conforms_add; [done|done|apply wrapping_fits|]. intros y. done.
Qed.

Lemma claim_conforms cpu : conforms (CallClaim cpu) None (claim_next cpu).
Proof.
  apply conforms_cpu; [|done]. intros Hcpu. apply conforms_load; [done|]. intros o _. destruct (o =? 0); [done|].
  apply conforms_add; [done|done|apply wrapping_fits|]. intros x. apply claim_scan_conforms; [done|apply claim_order_ok].
Qed.

(** Decide comparisons of state codes. *)
Ltac codes :=
  cbn [phase_code];
  change (RUNNING =? STOPPING) with false; change (STOPPING =? STOPPING) with true;
  change (RUNNING =? RUNNING) with true; change (STOPPING =? RUNNING) with false;
  change (RUNNABLE =? BLOCKED) with false; change (BLOCKED =? BLOCKED) with true;
  change (COMPLETED =? BLOCKED) with false; cbn [negb orb is_blocked_outcome].

Lemma finish_loop_conforms c i h o n :
  (i < MAX_TASKS)%nat ->
  (forall b, task_step c i (h_generation h, PRunning b) (h_generation h, finish_phase o b)) ->
  task_step c i (h_generation h, PStopping) (h_generation h, PCompleted) ->
  conforms c None (finish_loop n i h o).
Proof.
  intros Hi H1 H2. induction n as [|n IH]; [done|]. cbn [finish_loop]. apply conforms_load; [done|].
  intros old (g & ph & Hg & -> & Es & Eg)%word_cases. unfold is_active, finish_state. rewrite Es, Eg.
  destruct (Z.eqb_spec g (h_generation h)) as [E|E]; [|done]. cbn [negb orb]. rewrite <- E in *.
  assert (Hm : forall ph', task_step c i (g, ph) (g, ph') -> ph ≠ PInit -> ph' ≠ PInit -> conforms c None
    (Cas (CTask i FState) (encode g ph) (encode g ph') (fun ok => if ok then Ret true else finish_loop n i h o))).
  { intros ph' Hs ? ?. by apply (conforms_move _ _ _ _ ph'). }
  destruct ph as [| | |b| | |]; try done.
  - codes. rewrite (encode_pending g b Hg). destruct o, b; codes; cells.
    1, 2: by apply (Hm PRunnable); [apply (H1 _)|..].
    1, 3: by apply (Hm PRunnable); [apply (H1 true)|..].
    1, 2: by apply (Hm PBlocked); [apply (H1 false)|..].
    1, 2: by apply (Hm PCompleted); [apply (H1 _)|..].
  - codes. cells. by apply (Hm PCompleted).
Qed.

Lemma finish_conforms fuel h o : call_ok (CallFinish fuel h o) -> conforms (CallFinish fuel h o) None (finish fuel h o).
Proof.
  intros Hc. apply conforms_slot. intros i Hi Ei. pose proof (names_slot h i Hc Ei) as Hn.
  apply conforms_load; [done|]. intros s _. destruct (s =? 0); [done|].
  apply finish_loop_conforms; [done|by constructor|by constructor].
Qed.

Lemma reclaim_conforms h : call_ok (CallReclaim h) -> conforms (CallReclaim h) None (reclaim_completed h).
Proof.
  intros [Hc Hf]. apply conforms_slot. intros i Hi Ei. pose proof (names_slot h i Hc Ei) as Hn.
  apply conforms_cas; [done|done|]. intros Hw.
  assert (Hg : task_gen (h_generation h)).
  { destruct Hw as (g & ph & Hg & E). apply (f_equal generation) in E.
    rewrite encode_generation, generation_pack in E by done. by rewrite E. }
  change (pack (h_generation h) COMPLETED) with (encode (h_generation h) PCompleted).
  change (pack (h_generation h) INITIALIZING) with (encode (h_generation h) PInit).
  split; [|split].
  - apply (wstep_encode _ _ (h_generation h) PCompleted (h_generation h) PInit); try done. by constructor.
  - by rewrite encode_state.
  - unfold owned_by. rewrite encode_state by done. change (phase_code PInit =? INITIALIZING) with true. cbv iota.
    cells. apply conforms_publish; [done| |done].
    apply (wstep_encode _ _ (h_generation h) PInit (next_generation (h_generation h)) PVacant); try done.
    + by apply next_generation_gen.
    + by constructor.
Qed.

Lemma start_conforms c : call_ok c -> conforms c None (start c).
Proof.
  intros Hc. destruct c; cbn [start]; apply conforms_returns.
  - apply conforms_cpu; [|done]. intros Hcpu. cells.
  - apply conforms_cpu; [|done]. intros Hcpu. apply conforms_add; [done|done|apply wrapping_fits|done].
  - apply conforms_cpu; [|done]. intros Hcpu. cells.
  - by apply conforms_cpu.
  - apply conforms_cpu; [|done]. intros Hcpu. by apply conforms_load.
  - done.
  - by apply spawn_conforms.
  - apply conforms_slot. intros i Hi _. apply conforms_load; [done|]. intros w _. destruct (_ || _); [done|]. cells.
  - unfold wait_for_event_object. destruct (_ =? 0); [done|]. destruct Hc. apply conforms_slot. intros i Hi _.
    apply conforms_load; [done|]. intros w _. destruct (_ || _); [done|]. cells.
  - apply conforms_slot. intros i Hi _. apply conforms_load; [done|]. intros w _. by destruct (negb _).
  - by apply wake_conforms.
  - apply signal_conforms.
  - apply reset_conforms.
  - apply due_conforms.
  - by apply stop_conforms.
  - apply claim_conforms.
  - apply conforms_slot. intros i Hi _. apply conforms_load; [done|]. intros w _. destruct (_ || _); [done|]. cells.
  - apply conforms_slot. intros i Hi _. apply conforms_load; [done|]. intros w _. destruct (_ || _); [done|].
    apply conforms_store; [done|done|apply Hc|]. cells.
  - apply conforms_slot. intros i Hi _. apply conforms_load; [done|]. intros w _. destruct (negb _); [done|].
    apply conforms_load; [done|]. intros s _. by destruct (s =? 0).
  - apply conforms_slot. intros i Hi _. apply conforms_load; [done|]. intros w _. destruct (_ || _); [done|].
    apply conforms_load; [done|]. intros s _. destruct (negb _); [done|]. cells.
  - by apply finish_conforms.
  - by apply reclaim_conforms.
  - apply conforms_slot. intros i Hi _. apply conforms_load; [done|]. intros w _. by destruct (negb _).
  - apply conforms_slot. intros i Hi _. apply conforms_load; [done|]. intros w _. destruct (negb _); [done|].
    apply conforms_load; [done|]. intros s _. by destruct (s =? 0).
  - apply conforms_slot. intros i Hi _. apply conforms_load; [done|]. intros w _. destruct (negb _); [done|].
    apply conforms_load; [done|]. intros s _. destruct (negb _); [done|]. cells.
  - apply conforms_slot. intros i Hi _. apply conforms_load; [done|]. intros w _. destruct (negb _); [done|].
    apply conforms_load; [done|]. intros p _. destruct (_ =? 0); [done|].
    apply conforms_load; [done|]. intros a _. destruct (root_new a); [|done].
    apply conforms_load; [done|]. intros e _. apply conforms_load; [done|]. done.
Qed.

(** ** The invariant of a configuration *)

Record mem_ok (m : Scheduler) : Prop := {
  mo_tasks : length (tasks m) = MAX_TASKS;
  mo_cpus : length (cpus m) = MAX_CPUS;
  mo_cells : forall c, valid_cell c -> cell_ok c (read c m)
}.

(** [own j] is the slot thread [j] has reserved. *)
Record inv (own : nat -> option (nat * Z)) (cf : config) : Prop := {
  inv_mem : mem_ok cf.1;
  inv_threads : forall j c p, cf.2 !! j = Some (mk_thread c p) -> conforms c (own j) p;
  inv_owned : forall j i w, own j = Some (i, w) -> word cf.1 i = w ∧ state w = INITIALIZING;
  inv_distinct : forall j k i w w', own j = Some (i, w) -> own k = Some (i, w') -> j = k
}.

Lemma length_write c v m :
  length (tasks (write c v m)) = length (tasks m) ∧ length (cpus (write c v m)) = length (cpus m).
Proof. destruct c; cbn [write tasks cpus]; by rewrite ?length_alter. Qed.

Lemma mem_range m c : mem_ok m -> valid_cell c -> in_range m c.
Proof. intros [H1 H2 _] Hc. destruct c; cbn in *; [by rewrite H1|by rewrite H2|done]. Qed.

Lemma mem_write m c v : mem_ok m -> valid_cell c -> cell_ok c v -> mem_ok (write c v m).
Proof.
  intros Hm Hc Hv. destruct (length_write c v m) as [E1 E2]. constructor.
  - rewrite E1. apply Hm.
  - rewrite E2. apply Hm.
  - intros c' Hc'. rewrite read_write by (by apply mem_range). destruct (decide (c' = c)) as [->|]; [done|by apply Hm].
Qed.

Lemma word_write m c v i : mem_ok m -> valid_cell c -> word (write c v m) i = if decide (c = CTask i FState) then v else word m i.
Proof.
  intros Hm Hc. unfold word. rewrite read_write by (by apply mem_range).
  destruct (decide (c = CTask i FState)) as [->|]; [by rewrite decide_True|by rewrite decide_False by congruence].
Qed.

Lemma is_state_Some c i : is_state c = Some i -> c = CTask i FState.
Proof. destruct c as [j []| |]; simpl; congruence. Qed.

Lemma is_state_None c i : is_state c = None -> c ≠ CTask i FState.
Proof. by intros H ->. Qed.

(** Thread [j] continues with [p'] on memory [m'] and reserves [o]. *)
Definition reown (own : nat -> option (nat * Z)) (j : nat) (o : option (nat * Z)) : nat -> option (nat * Z) :=
  fun k => if decide (k = j) then o else own k.

Lemma inv_update own m m' ts j c p p' o :
  inv own (m, ts) -> ts !! j = Some (mk_thread c p) -> mem_ok m' -> conforms c o p' ->
  (forall k i w, k ≠ j -> own k = Some (i, w) -> word m' i = word m i) ->
  (forall i w, o = Some (i, w) -> word m' i = w ∧ state w = INITIALIZING ∧ forall k w', k ≠ j -> own k ≠ Some (i, w')) ->
  inv (reown own j o) (m', <[j := mk_thread c p']> ts).
Proof.
  intros [I1 I2 I3 I4] Hj Hm Hp Hk Ho. unfold reown. constructor; [done|..]; cbn [fst snd] in *.
  - intros k c' q Hq. destruct (decide (k = j)) as [->|Hkj].
    + rewrite list_lookup_insert_eq in Hq by (by apply lookup_lt_Some in Hj). by injection Hq as <- <-.
    + rewrite list_lookup_insert_ne in Hq by done. eauto.
  - intros k i w. destruct (decide (k = j)) as [->|Hkj]; intros E.
    + destruct (Ho i w E) as (? & ? & _). done.
    + rewrite (Hk k i w) by done. eauto.
  - intros k1 k2 i w w'. destruct (decide (k1 = j)) as [->|H1], (decide (k2 = j)) as [->|H2]; intros E1 E2; [done|..|eauto].
    + destruct (Ho i w E1) as (_ & _ & Hn). by destruct (Hn k2 w' H2).
    + destruct (Ho i w' E2) as (_ & _ & Hn). by destruct (Hn k1 w H1).
Qed.

(** What a step of thread [j] does to the state words. *)
Definition words_step (j : nat) (cf cf' : config) : Prop :=
  forall i, word cf'.1 i = word cf.1 i ∨
    exists c p, cf.2 !! j = Some (mk_thread c p) ∧ wstep c i (word cf.1 i) (word cf'.1 i).

Lemma own_same own cf j i w : inv own cf -> own j = Some (i, w) -> word cf.1 i = w.
Proof. intros H E. by apply (inv_owned _ _ H j i w). Qed.

(** A step that leaves every state word alone. *)
Lemma inv_keep own m m' ts j c p p' :
  inv own (m, ts) -> ts !! j = Some (mk_thread c p) -> mem_ok m' -> (forall i, word m' i = word m i) ->
  conforms c (own j) p' ->
  exists own', inv own' (m', <[j := mk_thread c p']> ts) ∧ words_step j (m, ts) (m', <[j := mk_thread c p']> ts).
Proof.
  intros H Hj Hm Hs Hp. exists (reown own j (own j)). split; [|intros i; left; apply Hs].
  eapply inv_update; [done|done|done|done|auto|]. intros i w Eo. rewrite Hs.
  destruct (inv_owned _ _ H _ _ _ Eo). split; [done|]. split; [done|]. intros k' w' Hk' Eo'.
  by destruct (Hk' (inv_distinct _ _ H _ _ _ _ _ Eo' Eo)).
Qed.

Lemma word_other m cl v : mem_ok m -> valid_cell cl -> is_state cl = None -> forall i, word (write cl v m) i = word m i.
Proof. intros Hm Hc Hs i. rewrite word_write by done. by rewrite decide_False by (by apply is_state_None). Qed.

Lemma inv_store own m ts j c cl v k :
  inv own (m, ts) -> ts !! j = Some (mk_thread c (Store cl v k)) ->
  exists own', inv own' (write cl v m, <[j := mk_thread c k]> ts) ∧
    words_step j (m, ts) (write cl v m, <[j := mk_thread c k]> ts).
Proof.
  intros H Hj. pose proof (inv_mem _ _ H) as Hm. pose proof (inv_threads _ _ H _ _ _ Hj) as [Hc Hp].
  destruct (is_state cl) as [i|] eqn:Es.
  - apply is_state_Some in Es as ->. destruct Hp as (w & Eo & Hw & Hk).
    assert (Hi : word m i = w) by (by apply (own_same _ _ _ _ _ H Eo)). exists (reown own j None). split.
    + eapply inv_update; [done|done|apply mem_write; [done|done|]|done| |done].
      * destruct Hw as (g & ph & g' & ph' & _ & Hg' & _ & -> & _). by exists g', ph'.
      * intros k' i' w' Hk' Eo'. rewrite word_write by done. rewrite decide_False; [done|]. intros [= ->].
        by destruct (Hk' (inv_distinct _ _ H _ _ _ _ _ Eo' Eo)).
    + intros i'. cbn [fst]. rewrite word_write by done. destruct (decide (CTask i FState = CTask i' FState)) as [[= <-]|]; [|by left].
      right. exists c, (Store (CTask i FState) v k). split; [done|]. by rewrite Hi.
  - destruct Hp as [Hv Hk]. eapply inv_keep; [done|done|by apply mem_write|by apply word_other|done].
Qed.

Lemma inv_cas own m ts j c cl old new k :
  inv own (m, ts) -> ts !! j = Some (mk_thread c (Cas cl old new k)) -> read cl m = old ->
  exists own', inv own' (write cl new m, <[j := mk_thread c (k true)]> ts) ∧
    words_step j (m, ts) (write cl new m, <[j := mk_thread c (k true)]> ts).
Proof.
  intros H Hj Er. pose proof (inv_mem _ _ H) as Hm. pose proof (inv_threads _ _ H _ _ _ Hj) as [Hc Hp].
  destruct (is_state cl) as [i|] eqn:Es.
  - apply is_state_Some in Es as ->. destruct Hp as (Eo & _ & Hk).
    assert (Hw : word_ok old) by (rewrite <- Er; by apply (mo_cells _ Hm (CTask i FState))).
    destruct (Hk Hw) as (Hs & Hni & Ht). destruct Hs as (g & ph & g' & ph' & Hg & Hg' & E1 & E2 & Hts).
    assert (Hfree : forall k' w', own k' ≠ Some (i, w')).
    { intros k' w' Eo'. destruct (inv_owned _ _ H _ _ _ Eo') as [Ew Hi]. cbn [fst] in Ew.
      rewrite <- Ew in Hi. unfold word in Hi. by rewrite Er in Hi. }
    exists (reown own j (owned_by i new)). split.
    + eapply inv_update; [done|done|apply mem_write; [done|done|by exists g', ph']|done|..].
      * intros k' i' w' _ Eo'. rewrite word_write by done. rewrite decide_False; [done|]. intros [= ->]. by apply (Hfree k' w').
      * unfold owned_by. destruct (Z.eqb_spec (state new) INITIALIZING) as [En|]; [|done]. intros i' w' [= <- <-].
        rewrite word_write, decide_True by done. split; [done|]. split; [done|]. intros k' w'' _. apply Hfree.
    + intros i'. cbn [fst]. rewrite word_write by done. destruct (decide (CTask i FState = CTask i' FState)) as [[= <-]|]; [|by left].
      right. exists c, (Cas (CTask i FState) old new k). split; [done|]. unfold word. rewrite Er.
      by exists g, ph, g', ph'.
  - destruct Hp as (Hv & Hk & _). eapply inv_keep; [done|done|by apply mem_write|by apply word_other|done].
Qed.

Lemma inv_step own cf j cf' :
  inv own cf -> step j cf cf' -> exists own', inv own' cf' ∧ words_step j cf cf'.
Proof.
  intros H Hs. destruct Hs as [j c p m ts m' p' Hj Ha|j c v c' m ts Hj Hc].
  - pose proof (inv_mem _ _ H) as Hm. cbn [fst] in Hm.
    pose proof (inv_threads _ _ H _ _ _ Hj) as Hp. destruct p as [a| |cl k|cl v k|cl old new k|cl v k]; cbn [act] in Ha; [done|done|..].
    + injection Ha as <- <-. destruct Hp as [Hc Hk]. eapply inv_keep; [done|done|done|done|]. apply Hk. by apply Hm.
    + injection Ha as <- <-. by eapply inv_store.
    + destruct (Z.eqb_spec (read cl m) old) as [E|E]; injection Ha as <- <-; [by eapply inv_cas|].
      destruct Hp as [Hc Hk]. eapply inv_keep; [done|done|done|done|].
      destruct (is_state cl); [|by apply Hk]. destruct Hk as (-> & Hk & _). done.
    + injection Ha as <- <-. destruct Hp as (Hc & Hs & Hk). destruct (Hk _ (mo_cells _ Hm _ Hc)) as [Hv Hk'].
      eapply inv_keep; [done|done|by apply mem_write|by apply word_other|done].
  - pose proof (inv_threads _ _ H _ _ _ Hj) as Hp. cbn [conforms] in Hp. exists own. split; [|intros i; by left].
    destruct H as [I1 I2 I3 I4]. constructor; try done. intros k c0 p0 Hk. cbn [snd] in *.
    destruct (decide (k = j)) as [->|].
    + rewrite list_lookup_insert_eq in Hk by (by apply lookup_lt_Some in Hj). injection Hk as <- <-.
      rewrite Hp. by apply start_conforms.
    + rewrite list_lookup_insert_ne in Hk by done. eauto.
Qed.

Lemma mem_new : mem_ok scheduler_new.
Proof.
  constructor; [done|done|]. intros [i f|i f|] Hc; cbn [read valid_cell] in *; [..|by apply fits_const].
  - cbn [scheduler_new tasks]. rewrite lookup_replicate_2 by done. destruct f; cbn; try by apply fits_const.
    + exists 1, PVacant. split; [unfold task_gen; lia|done].
    + by left.
    + by left.
  - cbn [scheduler_new cpus]. rewrite lookup_replicate_2 by done. destruct f; cbn; try by apply fits_const. by left.
Qed.

Lemma inv_initial n : inv (fun _ => None) (initial n).
Proof.
  constructor; [apply mem_new| |done|done]. intros j c p Hj. cbn [initial snd] in Hj.
  apply lookup_replicate in Hj as [[= -> ->] _]. done.
Qed.

Lemma inv_steps n cf : steps (initial n) cf -> exists own, inv own cf.
Proof.
  intros Hs. pose proof (inv_initial n) as H. revert H. generalize (fun _ : nat => @None (nat * Z)) as own.
  induction Hs as [cf|cf1 cf2 cf3 [j Hstep] _ IH]; intros own H; [by exists own|].
  destruct (inv_step _ _ _ _ H Hstep) as (own' & H' & _). eauto.
Qed.

(** ** Theorems *)

(** C7: the scheduler refines the life cycle of a task slot under every
    interleaving.  In any execution of any number of threads calling the
    operations, every state word encodes a generation and a phase, and every
    atomic access leaves a slot's generation and phase alone or moves them
    along a transition of the operation that the accessing thread is in. *)
Theorem sched_refines_lifecycle n cf j cf' i :
  steps (initial n) cf -> step j cf cf' -> (i < MAX_TASKS)%nat ->
  exists g ph g' ph', task_gen g ∧ task_gen g' ∧
    word cf.1 i = encode g ph ∧ word cf'.1 i = encode g' ph' ∧
    ((g', ph') = (g, ph) ∨
     exists c p, cf.2 !! j = Some (mk_thread c p) ∧ task_step c i (g, ph) (g', ph')).
Proof.
  intros Hs Hstep Hi. destruct (inv_steps n cf Hs) as [own H].
  destruct (inv_step _ _ _ _ H Hstep) as (own' & H' & Hw).
  destruct (Hw i) as [E|(c & p & Hj & g & ph & g' & ph' & Hg & Hg' & E1 & E2 & Ht)].
  - destruct (mo_cells _ (inv_mem _ _ H) (CTask i FState) Hi) as (g & ph & Hg & E').
    exists g, ph, g, ph. rewrite E. conj. by left.
  - exists g, ph, g', ph'. conj. right. by exists c, p.
Qed.

(** Calls that end the run of task [g] in slot [i]. *)
Definition ends (c : call) (i : nat) (g : Z) : Prop :=
  match c with CallFinish _ h _ | CallStop _ h => names h i g | _ => False end.

(** A step by a thread whose call does not end the run. *)
Definition other_step (i : nat) (g : Z) (cf cf' : config) : Prop :=
  exists j, step j cf cf' ∧ forall c p, cf.2 !! j = Some (mk_thread c p) -> ~ ends c i g.

(** C27: a running task is exclusively claimed.  Once a slot is running it
    stays running, in the same generation, through any interleaving of any
    calls on any CPUs, until a thread finishes or stops that very task; in
    particular no other claim can succeed on it.  A wake-up recorded
    meanwhile stays recorded. *)
Theorem sched_running_exclusive n cf cf' i g b :
  steps (initial n) cf -> (i < MAX_TASKS)%nat -> task_gen g ->
  word cf.1 i = encode g (PRunning b) -> rtc (other_step i g) cf cf' ->
  exists b', word cf'.1 i = encode g (PRunning b') ∧ (b = true -> b' = true).
Proof.
  intros Hs Hi Hg Hw Hr. destruct (inv_steps n cf Hs) as [own H]. clear Hs.
  revert own b H Hw. induction Hr as [cf|cf1 cf2 cf3 (j & Hstep & Hne) _ IH]; intros own b H Hw; [by exists b|].
  destruct (inv_step _ _ _ _ H Hstep) as (own' & H' & Hws).
  assert (exists b', word cf2.1 i = encode g (PRunning b') ∧ (b = true -> b' = true)) as (b' & Hw' & Hb).
  { destruct (Hws i) as [E|(c & p & Hj & g1 & ph & g' & ph' & Hg1 & Hg' & E1 & E2 & Ht)]; [exists b; by rewrite E|].
    rewrite Hw in E1. destruct (encode_inj _ _ _ _ Hg Hg1 E1) as [<- <-].
    specialize (Hne c p Hj). inversion Ht; subst; try (by exists true); by destruct Hne. }
  destruct (IH own' b' H' Hw') as (b'' & Hw'' & Hb'). exists b''. auto.
Qed.

(** A wake-up of a running task is not lost.  While a wake-up is recorded
    on a running task no atomic access of any thread blocks the task: it can
    only stay running, become runnable, be completed or be stopped. *)
Theorem sched_wake_not_lost n cf j cf' i g :
  steps (initial n) cf -> step j cf cf' -> task_gen g -> word cf.1 i = encode g (PRunning true) ->
  exists ph, word cf'.1 i = encode g ph ∧
    (ph = PRunning true ∨ ph = PRunnable ∨ ph = PCompleted ∨ ph = PStopping).
Proof.
  intros Hs Hstep Hg Hw. destruct (inv_steps n cf Hs) as [own H].
  destruct (inv_step _ _ _ _ H Hstep) as (own' & H' & Hws).
  destruct (Hws i) as [E|(c & p & Hj & g1 & ph & g' & ph' & Hg1 & Hg' & E1 & E2 & Ht)].
  { exists (PRunning true). rewrite E. auto. }
  rewrite Hw in E1. destruct (encode_inj _ _ _ _ Hg Hg1 E1) as [<- <-]. exists ph'.
  inversion Ht; subst; [auto|]. split; [done|]. destruct o; cbn [finish_phase]; auto.
Qed.

(** ** Schedules *)

Inductive move : Type :=
| MCall (j : nat) (c : call)
| MActs (j : nat) (accesses : nat).

Fixpoint run_acts (n j : nat) (cf : config) : config :=
  match n with
  | O => cf
  | S n =>
      match cf.2 !! j with
      | Some (mk_thread c p) =>
          match act p cf.1 with
          | Some (m', p') => run_acts n j (m', <[j := mk_thread c p']> cf.2)
          | None => cf
          end
      | None => cf
      end
  end.

(** Perform a list of moves; a call of a busy thread is skipped. *)
Fixpoint run_moves (l : list move) (cf : config) : config :=
  match l with
  | [] => cf
  | MCall j c :: l =>
      match cf.2 !! j with
      | Some (mk_thread _ (Ret _)) => run_moves l (cf.1, <[j := mk_thread c (start c)]> cf.2)
      | _ => run_moves l cf
      end
  | MActs j n :: l => run_moves l (run_acts n j cf)
  end.

Definition move_ok (mv : move) : Prop := match mv with MCall _ c => call_ok c | MActs _ _ => True end.

Lemma run_acts_steps n j : forall cf, steps cf (run_acts n j cf).
Proof.
  induction n as [|n IH]; intros [m ts]; [apply rtc_refl|]. cbn [run_acts snd fst].
  destruct (ts !! j) as [[c p]|] eqn:Hj; [|apply rtc_refl].
  destruct (act p m) as [[m' p']|] eqn:Ha; [|apply rtc_refl].
  eapply rtc_l; [|apply IH]. exists j. by eapply step_act.
Qed.

Lemma run_moves_steps l : forall cf, Forall move_ok l -> steps cf (run_moves l cf).
Proof.
  induction l as [|mv l IH]; intros [m ts] Hl; [apply rtc_refl|]. apply Forall_cons_1 in Hl as [Hm Hl].
  destruct mv as [j c|j n]; cbn [run_moves snd fst].
  - destruct (ts !! j) as [[c0 [v| | | | |]]|] eqn:Hj; try (by apply IH).
    eapply rtc_l; [|by apply IH]. exists j. by eapply step_call.
  - eapply rtc_trans; [apply run_acts_steps|by apply IH].
Qed.

Lemma step_start j c v c' (cf : config) :
  cf.2 !! j = Some (mk_thread c (Ret v)) -> call_ok c' ->
  step j cf (cf.1, <[j := mk_thread c' (start c')]> cf.2).
Proof. destruct cf as [m ts]. apply step_call. Qed.

(** A whole call by one thread without interference. *)
Definition whole (j : nat) (c : call) : list move := [MCall j c; MActs j 200].

Definition task0 : TaskHandle := mk_handle 0 1.

(** CPU 1 brings the first task up to running. *)
Definition boot_moves : list move :=
  whole 1 (CallOnline 1) ++ whole 1 (CallSpawn 4096 0 None) ++ whole 1 (CallClaim 1).

Definition booted : config := run_moves boot_moves (initial 3).

Ltac moves_ok := repeat (apply Forall_cons_2 || apply Forall_nil_2); cbn [move_ok call_ok]; try done;
  try (unfold fits, NO_DEADLINE, U64_MAX; cbn; lia).

Lemma booted_steps : steps (initial 3) booted.
Proof. apply run_moves_steps. unfold boot_moves, whole. cbn [app]. moves_ok. Qed.

Lemma task0_gen : task_gen 1.
Proof. unfold task_gen. lia. Qed.

(** The task with a wake-up recorded while it runs. *)
Definition pending_config : config := run_moves (whole 2 (CallWake 1 task0)) booted.

Lemma run_acts_other i g n j : forall cf c p,
  cf.2 !! j = Some (mk_thread c p) -> ~ ends c i g -> rtc (other_step i g) cf (run_acts n j cf).
Proof.
  induction n as [|n IH]; intros [m ts] c p Hj Hc; [apply rtc_refl|]. cbn [run_acts snd fst] in *. rewrite Hj.
  destruct (act p m) as [[m' p']|] eqn:Ha; [|apply rtc_refl]. eapply rtc_l.
  - exists j. split; [by eapply step_act|]. intros c' q Hq. cbn [snd] in Hq. rewrite Hj in Hq. by injection Hq as <- <-.
  - eapply IH; [|done]. cbn [snd]. apply list_lookup_insert_eq. by apply lookup_lt_Some in Hj.
Qed.

(** The access of a wake that records it in the word of a running task. *)
Definition waking : config := run_moves [MCall 2 (CallWake 1 task0); MActs 2 2] booted.

Lemma sched_refines_lifecycle_witness :
  word waking.1 0 = encode 1 (PRunning false) ∧
  exists g ph, word (run_acts 1 2 waking).1 0 = encode g ph ∧ (g, ph) = (1, PRunning true).
Proof.
  assert (Hs : steps (initial 3) waking).
  { eapply rtc_trans; [apply booted_steps|]. apply run_moves_steps. moves_ok. }
  split; [by vm_compute|].
  destruct (waking.2 !! 2%nat) as [[c p]|] eqn:Hj; [|by vm_compute in Hj].
  destruct (act p waking.1) as [[m' p']|] eqn:Ha.
  2: { exfalso. assert (E : word (run_acts 1 2 waking).1 0 = word waking.1 0) by (cbn [run_acts]; by rewrite Hj, Ha).
    by vm_compute in E. }
  assert (Hstep : step 2 waking (run_acts 1 2 waking)).
  { cbn [run_acts]. rewrite Hj, Ha. rewrite (surjective_pairing waking) at 1. by apply (step_act 2 c p). }
  destruct (sched_refines_lifecycle 3 waking 2 _ 0 Hs Hstep ltac:(by apply Nat.ltb_lt))
    as (g & ph & g' & ph' & _ & Hg' & _ & E' & _).
  exists g', ph'. split; [exact E'|].
  destruct (encode_inj g' ph' 1 (PRunning true) Hg' task0_gen) as [-> ->]; [|done]. rewrite <- E'. by vm_compute.
Defined.

Lemma sched_running_exclusive_witness :
  word booted.1 0 = encode 1 (PRunning false) ∧
  exists b', word pending_config.1 0 = encode 1 (PRunning b').
Proof.
  assert (Hw : word booted.1 0 = encode 1 (PRunning false)) by (by vm_compute). split; [done|].
  set (mid := (booted.1, <[2%nat := mk_thread (CallWake 1 task0) (start (CallWake 1 task0))]> booted.2)).
  destruct (sched_running_exclusive 3 booted (run_acts 200 2 mid) 0 1 false booted_steps
    ltac:(by apply Nat.ltb_lt) task0_gen Hw) as (b' & E & _).
  - assert (E : booted.2 !! 2%nat = Some (mk_thread CallEventWakes (Ret VUnit))) by (by vm_compute).
    apply (rtc_l _ _ mid).
    + exists 2%nat. split; [apply (step_start 2 CallEventWakes VUnit); [exact E|by apply fits_const]|].
      intros c p Hp. rewrite E in Hp. injection Hp as <- <-. by intros [].
    + apply (run_acts_other 0 1 200 2 mid (CallWake 1 task0) (start (CallWake 1 task0))); [|by intros []].
      unfold mid. cbn [snd]. apply list_lookup_insert_eq. apply lookup_lt_Some in E. exact E.
  - exists b'. exact E.
Defined.

Lemma sched_wake_not_lost_witness :
  exists (cf' : config) ph, word cf'.1 0 = encode 1 ph ∧
    (ph = PRunning true ∨ ph = PRunnable ∨ ph = PCompleted ∨ ph = PStopping).
Proof.
  assert (Hs : steps (initial 3) pending_config).
  { eapply rtc_trans; [apply booted_steps|]. apply run_moves_steps. unfold whole. moves_ok. }
  assert (Hstep : step 2 pending_config (pending_config.1,
    <[2%nat := mk_thread (CallState task0) (start (CallState task0))]> pending_config.2)).
  { apply (step_start 2 (CallWake 1 task0) (VBool true)); [by vm_compute|exact I]. }
  destruct (sched_wake_not_lost 3 pending_config 2 _ 0 1 Hs Hstep task0_gen ltac:(by vm_compute)) as (ph & E & Hph).
  eexists _, ph. split; [exact E|exact Hph].
Defined.

(** ** A lost registration *)










