(* ===== verification/SchedulerSeq.v ===== *)
(** * The scheduler's operations on their own ([src/src/scheduler.rs])

    What the operations of [Scheduler.v] compute when nothing interferes:
    every call returns ([terminates]), and [claim_next] is a round-robin
    search for the first runnable slot, from which bounded waiting follows. *)

From Stdlib Require Import ZArith Lia.
From stdpp Require Import base list option numbers.
From S2P Require Import Prelude Scheduler SchedulerConc.

#[local] Open Scope Z_scope.
#[local] Open Scope prog_scope.

Implicit Types m : Scheduler.

Definition sized m : Prop := length (tasks m) = MAX_TASKS ∧ length (cpus m) = MAX_CPUS.

Lemma sized_write c v m : sized m -> sized (write c v m).
Proof. intros [H1 H2]. destruct (length_write c v m) as [E1 E2]. split; congruence. Qed.

Lemma sized_range m c : sized m -> valid_cell c -> in_range m c.
Proof. intros [H1 H2] Hc. destruct c; cbn in *; [by rewrite H1|by rewrite H2|done]. Qed.

Lemma read_other c c' v m : sized m -> valid_cell c' -> c ≠ c' -> read c (write c' v m) = read c m.
Proof. intros Hm Hc Hne. rewrite read_write by (by apply sized_range). by rewrite decide_False. Qed.

(** ** Termination *)

(** Alone on the machine, [p] returns. *)
Definition terminates {A} (p : prog A) : Prop := forall m, sized m -> exists a, (run p m).2 = Some a.

Lemma run_sized {A} (p : prog A) : forall m, sized m -> sized (run p m).1.
Proof.
  induction p as [a| |c k IH|c v k IH|c old new k IH|c v k IH]; intros m Hm; cbn [run fst]; auto using sized_write.
  destruct (_ =? _); auto using sized_write.
Qed.

Lemma run_bind {A B} (p : prog A) (f : A -> prog B) : forall m,
  run (pbind p f) m = match (run p m).2 with Some a => run (f a) (run p m).1 | None => ((run p m).1, None) end.
Proof.
  induction p as [a| |c k IH|c v k IH|c old new k IH|c v k IH]; intros m; cbn [run pbind fst snd]; auto.
  destruct (_ =? _); auto.
Qed.

Lemma terminates_ret {A} (a : A) : terminates (Ret a).
Proof. intros m _. by exists a. Qed.

Lemma terminates_load {A} c (k : Z -> prog A) : (forall v, terminates (k v)) -> terminates (Load c k).
Proof. intros H m Hm. by apply H. Qed.

Lemma terminates_store {A} c v (k : prog A) : terminates k -> terminates (Store c v k).
Proof. intros H m Hm. apply H. by apply sized_write. Qed.

Lemma terminates_cas {A} c old new (k : bool -> prog A) : (forall b, terminates (k b)) -> terminates (Cas c old new k).
Proof. intros H m Hm. cbn [run]. destruct (_ =? _); apply H; auto using sized_write. Qed.

Lemma terminates_add {A} c v (k : Z -> prog A) : (forall x, terminates (k x)) -> terminates (FetchAdd c v k).
Proof. intros H m Hm. apply H. by apply sized_write. Qed.

Lemma terminates_bind {A B} (p : prog A) (f : A -> prog B) :
  terminates p -> (forall a, terminates (f a)) -> terminates (pbind p f).
Proof.
  intros Hp Hf m Hm. rewrite run_bind. destruct (Hp m Hm) as [a ->]. apply Hf. by apply run_sized.
Qed.

Lemma terminates_slot {A} h (none : A) k :
  (forall i, (i < MAX_TASKS)%nat -> terminates (k i)) -> terminates (with_slot h none k).
Proof.
  intros H. unfold with_slot. destruct (Nat.ltb_spec (Z.to_nat (h_slot h)) MAX_TASKS); [by apply H|apply terminates_ret].
Qed.

Create HintDb sched.
#[export] Hint Resolve terminates_ret terminates_load terminates_store terminates_cas terminates_add terminates_bind
  terminates_slot : sched.

(** Walk through a program without loops. *)
Ltac branches :=
  repeat (intros; cbv zeta; first
    [ apply terminates_ret
    | match goal with
      | |- terminates (if ?b then _ else _) => destruct b
      | |- terminates (match ?o with Some _ => _ | None => _ end) => destruct o
      end
    | apply terminates_load | apply terminates_store | apply terminates_cas | apply terminates_add
    | apply terminates_slot ]).

(** A compare-exchange against a word that has just been read succeeds. *)
Lemma cas_fresh {A} i old next (k : bool -> prog A) m :
  read (CTask i FState) m = old -> run (Cas (CTask i FState) old next k) m = run (k true) (write (CTask i FState) next m).
Proof. intros E. cbn [run]. by rewrite E, Z.eqb_refl. Qed.

Lemma read_state_after f v i m :
  sized m -> (i < MAX_TASKS)%nat -> f ≠ FState -> read (CTask i FState) (write (CTask i f) v m) = read (CTask i FState) m.
Proof. intros Hm Hi Hf. apply read_other; [done|done|congruence]. Qed.

Lemma wake_terminates fuel h : terminates (wake (S fuel) h).
Proof.
  apply terminates_slot. intros i Hi m Hm. cbn [wake_loop run]. set (old := read (CTask i FState) m).
  destruct (negb _); [by eexists|].
  assert (Ha : forall next m', sized m' -> read (CTask i FState) m' = old -> exists b,
    (run (if next =? old then Ret true else Cas (CTask i FState) old next
      (fun ok => if ok then Ret true else wake_loop fuel i h)) m').2 = Some b).
  { intros next m' Hm' E. destruct (_ =? _); [by eexists|]. rewrite cas_fresh by done. by eexists. }
  destruct (_ =? BLOCKED); [|destruct (_ =? RUNNING); [|destruct (_ =? RUNNABLE); [|by eexists]]];
    cbn [run]; apply Ha; rewrite ?read_state_after; auto using sized_write.
Qed.

Lemma stop_terminates fuel h : terminates (request_stop (S fuel) h).
Proof.
  apply terminates_slot. intros i Hi m Hm. cbn [stop_loop run]. set (old := read (CTask i FState) m).
  destruct (negb _); [by eexists|].
  assert (Ha : forall next, exists b, (run (Store (CTask i FDeadline) NO_DEADLINE (Store (CTask i FWaitObject) 0
    (Cas (CTask i FState) old next (fun ok => if ok then Ret true else stop_loop fuel i h)))) m).2 = Some b).
  { intros next. cbn [run]. rewrite !read_state_after by auto using sized_write. fold old. rewrite Z.eqb_refl. by eexists. }
  destruct (_ =? RUNNING); [apply Ha|]. destruct (_ || _); [apply Ha|]. destruct (_ || _); by eexists.
Qed.

Lemma finish_terminates fuel h o : terminates (finish (S fuel) h o).
Proof.
  apply terminates_slot. intros i Hi m Hm. cbn [run]. destruct (_ =? 0); [by eexists|].
  cbn [finish_loop run]. set (old := read (CTask i FState) m). destruct (_ || _); [by eexists|]. cbv zeta.
  assert (Ha : forall next m', read (CTask i FState) m' = old -> exists b,
    (run (Cas (CTask i FState) old next (fun ok => if ok then Ret true else finish_loop fuel i h o)) m').2 = Some b).
  { intros next m' E. rewrite cas_fresh by done. by eexists. }
  destruct (negb (_ =? BLOCKED)); cbn [orb run].
  - apply Ha. rewrite !read_state_after; auto using sized_write.
  - destruct (is_blocked_outcome o); cbn [run]; apply Ha; rewrite ?read_state_after; auto using sized_write.
Qed.

Lemma spawn_terminates e a ul : terminates (spawn_internal e a ul).
Proof.
  unfold spawn_internal. destruct (_ && _); [apply terminates_ret|].
  destruct (match ul with Some _ => _ | None => _ end); [apply terminates_ret|].
  induction (seq 0 MAX_TASKS) as [|i rest IH]; [apply terminates_ret|]. cbn [spawn_scan].
  apply terminates_load. intros old. destruct (negb _); [apply IH|]. apply terminates_cas. intros [|]; [|apply IH].
  unfold spawn_fill. auto 20 with sched.
Qed.

Lemma signal_terminates fuel o : terminates (signal_event_object (S fuel) o).
Proof.
  unfold signal_event_object. destruct (o =? 0); [apply terminates_ret|]. generalize 0 as woken.
  induction (seq 0 MAX_TASKS) as [|i rest IH]; intros woken; [apply terminates_ret|]. cbn [signal_scan].
  apply terminates_load. intros w. destruct (negb _); [apply IH|].
  apply terminates_load. intros old. destruct (negb _); [apply IH|].
  apply terminates_bind; [apply wake_terminates|]. intros [|]; [|apply IH]. apply terminates_add. auto.
Qed.

Lemma reset_terminates fuel : terminates (reset_events (S fuel)).
Proof.
  unfold reset_events. induction (seq 0 MAX_TASKS) as [|i rest IH]; [apply terminates_ret|]. cbn [reset_scan].
  apply terminates_load. intros old. apply terminates_bind.
  - destruct (_ =? _); [apply wake_terminates|apply terminates_ret].
  - auto with sched.
Qed.

Lemma due_terminates now : terminates (wake_due now).
Proof.
  unfold wake_due. generalize 0 as woken.
  induction (seq 0 MAX_TASKS) as [|i rest IH]; intros woken; [apply terminates_ret|]. cbn [due_scan].
  apply terminates_load. intros old. destruct (negb _); [apply IH|].
  apply terminates_load. intros d. destruct (_ || _); [apply IH|].
  apply terminates_cas. intros [|]; [|apply IH]. apply terminates_store, terminates_cas. auto.
Qed.

Lemma claim_scan_terminates cpu indices : terminates (claim_scan cpu indices).
Proof.
  induction indices as [|i rest IH]; [apply terminates_ret|]. cbn [claim_scan].
  apply terminates_load. intros old. destruct (negb _); [apply IH|]. apply terminates_cas.
  intros [|]; [auto with sched|apply IH].
Qed.

(** A loop needs one iteration when nothing interferes. *)
Definition fuel_ok (c : call) : Prop :=
  match c with
  | CallWake fuel _ | CallSignal fuel _ | CallReset fuel | CallStop fuel _ | CallFinish fuel _ _ => (0 < fuel)%nat
  | _ => True
  end.

(** C30: every call returns when it runs undisturbed.  One iteration of each
    compare-exchange loop is enough on any scheduler: a retry only ever
    happens because another CPU has changed the word in between. *)
Theorem sched_calls_return c m :
  sized m -> fuel_ok c -> exists v, (run (start c) m).2 = Some v.
Proof.
  intros Hm Hf. enough (terminates (start c)) as H by (by apply H). clear m Hm.
  destruct c; cbn [start fuel_ok] in *; apply terminates_bind; try (intros; apply terminates_ret);
    try (destruct fuel; [lia|]).
  - unfold online_cpu. branches.
  - unfold record_tick. branches.
  - unfold clear_current. branches.
  - unfold cpu_load. branches.
  - unfold current_task. branches.
  - unfold event_wakes. branches.
  - apply spawn_terminates.
  - unfold arm_deadline. branches.
  - unfold wait_for_event_object. branches.
  - unfold task_state. branches.
  - apply wake_terminates.
  - apply signal_terminates.
  - apply reset_terminates.
  - apply due_terminates.
  - apply stop_terminates.
  - unfold claim_next. destruct (_ <? _)%nat; [|apply terminates_ret]. apply terminates_load. intros o.
    destruct (_ =? 0); [apply terminates_ret|]. apply terminates_add. intros x. apply claim_scan_terminates.
  - unfold save_context. branches.
  - unfold save_context_from_interrupt. branches.
  - unfold saved_context. branches.
  - unfold set_initial_context. branches.
  - apply finish_terminates.
  - unfold reclaim_completed. branches.
  - unfold entry. branches.
  - unfold address_space. branches.
  - unfold normalize_kernel_task. branches.
  - unfold user_launch. branches.
Qed.

Lemma sched_calls_return_witness : exists v, (run (start (CallWake 1 task0)) booted.1).2 = Some v.
Proof.
  apply (sched_calls_return (CallWake 1 task0) booted.1); [|by apply Nat.ltb_lt]. split; by vm_compute.
Defined.

(** ** Round robin *)

Definition runnable m (i : nat) : Prop := state (word m i) = RUNNABLE.

#[export] Instance runnable_dec m i : Decision (runnable m i).
Proof. unfold runnable. apply _. Defined.

(** The machine after [cpu] has claimed slot [i]. *)
Definition claimed (cpu i : nat) m : Scheduler :=
  let g := generation (word m i) in
  let m := write (CTask i FState) (pack g RUNNING) m in
  let m := write (CCpu cpu FCurrentSlot) (Z.of_nat i) m in
  let m := write (CCpu cpu FCurrentGeneration) g m in
  write (CCpu cpu FSwitches) (wrapping_add 64 (read (CCpu cpu FSwitches) m) 1) m.

Lemma run_claim_scan cpu m indices :
  run (claim_scan cpu indices) m =
  match list_find (runnable m) indices with
  | Some (_, i) => (claimed cpu i m, Some (Some (mk_handle (Z.of_nat i) (generation (word m i)))))
  | None => (m, Some None)
  end.
Proof.
  induction indices as [|i rest IH]; [done|]. cbn [claim_scan run list_find]. fold (word m i).
  destruct (decide (runnable m i)) as [Hr|Hr].
  - unfold runnable in Hr. rewrite Hr. cbn [negb Z.eqb]. change (RUNNABLE =? RUNNABLE) with true. cbn [negb run].
    fold (word m i). by rewrite Z.eqb_refl.
  - unfold runnable in Hr. destruct (Z.eqb_spec (state (word m i)) RUNNABLE); [done|]. cbn [negb]. rewrite IH.
    by destruct (list_find (runnable m) rest) as [[k j]|].
Qed.

#[local] Opaque claim_order.

(** Incrementing the cursor changes nothing else. *)
Definition advanced (cpu : nat) m : Scheduler :=
  write (CCpu cpu FCursor) (wrapping_add 64 (read (CCpu cpu FCursor) m) 1) m.

Lemma run_claim_next cpu m :
  (cpu < MAX_CPUS)%nat -> read (CCpu cpu FOnline) m ≠ 0 ->
  run (claim_next cpu) m =
  run (claim_scan cpu (claim_order (Z.to_nat (read (CCpu cpu FCursor) m mod Z.of_nat MAX_TASKS)))) (advanced cpu m).
Proof.
  intros Hc Ho. unfold claim_next. destruct (Nat.ltb_spec cpu MAX_CPUS); [|lia]. cbn [run].
  destruct (Z.eqb_spec (read (CCpu cpu FOnline) m) 0); [by destruct Ho|]. unfold advanced. reflexivity.
Qed.

Lemma word_advanced cpu m i : sized m -> (cpu < MAX_CPUS)%nat -> word (advanced cpu m) i = word m i.
Proof. intros Hm Hc. unfold word, advanced. by apply read_other. Qed.

Lemma runnable_advanced cpu m i : sized m -> (cpu < MAX_CPUS)%nat -> runnable (advanced cpu m) i <-> runnable m i.
Proof. intros Hm Hc. unfold runnable. by rewrite word_advanced. Qed.

Lemma read_claimed cpu i m c :
  sized m -> (cpu < MAX_CPUS)%nat -> (i < MAX_TASKS)%nat ->
  c ≠ CTask i FState -> c ≠ CCpu cpu FCurrentSlot -> c ≠ CCpu cpu FCurrentGeneration -> c ≠ CCpu cpu FSwitches ->
  read c (claimed cpu i m) = read c m.
Proof. intros. unfold claimed. rewrite !read_other by (done || auto using sized_write). done. Qed.

Lemma word_claimed cpu i m :
  sized m -> (cpu < MAX_CPUS)%nat -> (i < MAX_TASKS)%nat ->
  word (claimed cpu i m) i = pack (generation (word m i)) RUNNING.
Proof.
  intros. unfold claimed. unfold word at 1. rewrite !read_other by (done || auto using sized_write).
  rewrite read_write by (by apply sized_range). by rewrite decide_True.
Qed.

#[local] Transparent claim_order.

Lemma claim_order_lookup s k : (k < MAX_TASKS)%nat -> claim_order s !! k = Some ((s + k) mod MAX_TASKS)%nat.
Proof. intros Hk. unfold claim_order. by rewrite list_lookup_fmap, lookup_seq_lt by done. Qed.

(** Every slot is visited. *)
Lemma claim_order_all s i : (i < MAX_TASKS)%nat -> i ∈ claim_order s.
Proof.
  intros Hi. apply list_elem_of_lookup.
  exists ((i + MAX_TASKS - s mod MAX_TASKS) mod MAX_TASKS)%nat.
  assert (MAX_TASKS ≠ 0)%nat by done. pose proof (Nat.mod_upper_bound s MAX_TASKS ltac:(done)).
  rewrite claim_order_lookup by (by apply Nat.mod_upper_bound). f_equal.
  rewrite Nat.Div0.add_mod_idemp_r. rewrite <- (Nat.Div0.add_mod_idemp_l s).
  replace (s mod MAX_TASKS + (i + MAX_TASKS - s mod MAX_TASKS))%nat with (i + 1 * MAX_TASKS)%nat by lia.
  rewrite Nat.Div0.mod_add. by apply Nat.mod_small.
Qed.

(** The slot at which [cpu] starts its next search. *)
Definition start_slot (cpu : nat) m : nat := Z.to_nat (read (CCpu cpu FCursor) m mod Z.of_nat MAX_TASKS).

(** C28: [claim_next] is a round-robin search.  On an online CPU it claims the
    first runnable slot at or after the CPU's cursor, cyclically, marks it
    running in its generation, records it as current and changes no other
    slot; it returns nothing exactly when no slot is runnable.  Either way
    the cursor advances by one. *)
Theorem sched_claim_round_robin cpu m :
  sized m -> (cpu < MAX_CPUS)%nat -> read (CCpu cpu FOnline) m ≠ 0 ->
  match run (claim_next cpu) m with
  | (m', Some (Some h)) =>
      exists k, let i := ((start_slot cpu m + k) mod MAX_TASKS)%nat in
        (k < MAX_TASKS)%nat ∧ runnable m i ∧
        (forall k', (k' < k)%nat -> ~ runnable m ((start_slot cpu m + k') mod MAX_TASKS)) ∧
        h = mk_handle (Z.of_nat i) (generation (word m i)) ∧
        word m' i = pack (generation (word m i)) RUNNING ∧ (forall j, j ≠ i -> word m' j = word m j) ∧
        read (CCpu cpu FCursor) m' = wrapping_add 64 (read (CCpu cpu FCursor) m) 1
  | (m', Some None) =>
      (forall i, (i < MAX_TASKS)%nat -> ~ runnable m i) ∧ m' = advanced cpu m
  | (_, None) => False
  end.
Proof.
  intros Hm Hc Ho. rewrite run_claim_next, run_claim_scan by done. fold (start_slot cpu m).
  assert (Ha : sized (advanced cpu m)) by (by apply sized_write).
  destruct (list_find _ _) as [[k i]|] eqn:Ef.
  - apply list_find_Some in Ef as (Hk & Hr & Hn). apply runnable_advanced in Hr; [|done|done].
    assert (Hkl : (k < MAX_TASKS)%nat).
    { apply lookup_lt_Some in Hk. unfold claim_order in Hk. by rewrite length_fmap, length_seq in Hk. }
    rewrite claim_order_lookup in Hk by done. apply (inj Some) in Hk. exists k. cbv zeta. rewrite Hk.
    assert (Hi : (i < MAX_TASKS)%nat) by (rewrite <- Hk; by apply Nat.mod_upper_bound). rewrite word_advanced by done.
    split; [done|]. split; [done|]. split.
    { intros k' Hk' Hr'. apply (Hn k' ((start_slot cpu m + k') mod MAX_TASKS)%nat); [|done|by apply runnable_advanced].
      apply claim_order_lookup. lia. }
    split; [done|]. split; [by rewrite word_claimed, word_advanced by done|]. split.
    + intros j Hj. unfold word at 1. rewrite read_claimed by (done || congruence). by apply word_advanced.
    + rewrite read_claimed by (done || congruence). unfold advanced. rewrite read_write by (by apply sized_range).
      by rewrite decide_True.
  - apply list_find_None in Ef. split; [|done]. intros i Hi Hr. rewrite Forall_forall in Ef.
    apply (Ef i); [by apply list_elem_of_In, claim_order_all|by apply runnable_advanced].
Qed.

Lemma sched_claim_round_robin_witness :
  match run (claim_next 1) (run (start (CallSpawn 4096 0 None)) booted.1).1 with
  | (m', Some (Some h)) => h_slot h = 1 ∧ word m' 0 = word booted.1 0
  | _ => False
  end.
Proof.
  set (m := (run (start (CallSpawn 4096 0 None)) booted.1).1).
  pose proof (sched_claim_round_robin 1 m ltac:(split; by vm_compute) ltac:(by apply Nat.ltb_lt)
    ltac:(by vm_compute)) as H.
  assert (Hr : (run (claim_next 1) m).2 = Some (Some (mk_handle 1 1))) by (by vm_compute).
  destruct (run (claim_next 1) m) as [m' res]. cbn [snd] in Hr. subst res.
  destruct H as (k & _ & _ & _ & Eh & _ & Hw & _). split; [done|].
  rewrite Hw; [by vm_compute|]. intros E.
  apply (f_equal h_slot) in Eh. cbn [h_slot] in Eh. rewrite <- E in Eh. discriminate Eh.
Defined.

(** A claim that starts at a runnable slot takes it. *)
Lemma claim_hits cpu m i :
  sized m -> (cpu < MAX_CPUS)%nat -> (i < MAX_TASKS)%nat -> read (CCpu cpu FOnline) m ≠ 0 ->
  start_slot cpu m = i -> runnable m i ->
  (run (claim_next cpu) m).2 = Some (Some (mk_handle (Z.of_nat i) (generation (word m i)))).
Proof.
  intros Hm Hc Hi Ho Hs Hr. rewrite run_claim_next, run_claim_scan by done. fold (start_slot cpu m). rewrite Hs.
  destruct (list_find _ _) as [[k j]|] eqn:Ef.
  - apply list_find_Some in Ef as (Hk & _ & Hn). destruct k as [|k].
    + rewrite claim_order_lookup, Nat.add_0_r, Nat.mod_small in Hk by (done || lia). apply (inj Some) in Hk as <-.
      cbn [snd]. by rewrite word_advanced.
    + exfalso. apply (Hn 0%nat i); [|lia|by apply runnable_advanced].
      by rewrite claim_order_lookup, Nat.add_0_r, Nat.mod_small by (done || lia).
  - exfalso. apply list_find_None in Ef. rewrite Forall_forall in Ef.
    apply (Ef i); [by apply list_elem_of_In, claim_order_all|by apply runnable_advanced].
Qed.

Lemma claim_cursor cpu m :
  sized m -> (cpu < MAX_CPUS)%nat -> read (CCpu cpu FOnline) m ≠ 0 ->
  read (CCpu cpu FCursor) (run (claim_next cpu) m).1 = wrapping_add 64 (read (CCpu cpu FCursor) m) 1.
Proof.
  intros Hm Hc Ho. rewrite run_claim_next, run_claim_scan by done. fold (start_slot cpu m).
  assert (Ha : sized (advanced cpu m)) by (by apply sized_write).
  assert (E : read (CCpu cpu FCursor) (advanced cpu m) = wrapping_add 64 (read (CCpu cpu FCursor) m) 1).
  { unfold advanced. rewrite read_write by (by apply sized_range). by rewrite decide_True. }
  destruct (list_find _ _) as [[k i]|] eqn:Ef; cbn [fst]; [|done].
  apply list_find_Some in Ef as (Hk & _ & _). apply list_elem_of_lookup_2 in Hk.
  pose proof (claim_order_ok (start_slot cpu m)) as Hf. rewrite Forall_forall in Hf.
  apply list_elem_of_In, Hf in Hk. by rewrite read_claimed.
Qed.

(** The starts of consecutive claims reach every slot: within [MAX_TASKS]
    claims if the cursor does not wrap around meanwhile.  2^64 is 16 modulo
    [MAX_TASKS], so a wrap restarts the round after slot 15 and can delay a
    slot by 16 claims. *)
Lemma cursor_reaches c i :
  fits 64 c -> (i < MAX_TASKS)%nat ->
  exists k, wrapping_add 64 c (Z.of_nat k) mod Z.of_nat MAX_TASKS = Z.of_nat i ∧ (k < MAX_TASKS + 16)%nat ∧
    (c + Z.of_nat MAX_TASKS <= 2 ^ 64 -> (k < MAX_TASKS)%nat).
Proof.
  unfold fits, MAX_TASKS, wrapping_add. intros Hc Hi. change (Z.of_nat 24) with 24.
  pose proof (Z.mod_pos_bound (Z.of_nat i - c) 24 ltac:(lia)) as Hb.
  pose proof (Z.div_mod (Z.of_nat i - c) 24 ltac:(lia)) as Hd.
  set (k := (Z.of_nat i - c) mod 24) in *. set (q := (Z.of_nat i - c) / 24) in *.
  destruct (decide (c + k < 2 ^ 64)).
  - exists (Z.to_nat k). rewrite Z2Nat.id, wrap_small by (unfold fits; lia). split; [|lia].
    replace (c + k) with (Z.of_nat i + - q * 24) by lia. rewrite Z.mod_add, Z.mod_small by lia. done.
  - exists (Z.to_nat (2 ^ 64 - c + Z.of_nat i)). rewrite Z2Nat.id by lia.
    replace (c + (2 ^ 64 - c + Z.of_nat i)) with (Z.of_nat i + 1 * 2 ^ 64) by lia.
    unfold wrap. rewrite Z.mod_add, (Z.mod_small (Z.of_nat i) (2 ^ 64)), Z.mod_small by lia.
    split; [done|]. split; lia.
Qed.

(** C29: bounded waiting.  Let an online CPU claim again and again, with
    anything happening between its claims that leaves its cursor alone.  If a
    task is runnable at each of these moments, one of the claims takes it:
    one of [MAX_TASKS] claims when the 64-bit cursor does not wrap around
    among them, one of [MAX_TASKS + 16] in every case. *)
Theorem sched_bounded_waiting cpu i (ms : list Scheduler) :
  (cpu < MAX_CPUS)%nat -> (i < MAX_TASKS)%nat ->
  Forall (fun m => sized m ∧ read (CCpu cpu FOnline) m ≠ 0 ∧ fits 64 (read (CCpu cpu FCursor) m) ∧ runnable m i) ms ->
  (forall k m m', ms !! k = Some m -> ms !! S k = Some m' ->
     read (CCpu cpu FCursor) m' = read (CCpu cpu FCursor) (run (claim_next cpu) m).1) ->
  (length ms = MAX_TASKS + 16)%nat ∨
  (length ms = MAX_TASKS ∧
   forall m, ms !! 0%nat = Some m -> read (CCpu cpu FCursor) m + Z.of_nat MAX_TASKS <= 2 ^ 64) ->
  exists k m g, ms !! k = Some m ∧ (run (claim_next cpu) m).2 = Some (Some (mk_handle (Z.of_nat i) g)).
Proof.
  intros Hc Hi Hf Hch Hl. destruct (lookup_lt_is_Some_2 ms 0) as [m0 Hm0]; [unfold MAX_TASKS in Hl; lia|].
  destruct (Forall_lookup_1 _ _ _ _ Hf Hm0) as (_ & _ & Hfit & _). set (c := read (CCpu cpu FCursor) m0) in *.
  assert (Hcur : forall k m, ms !! k = Some m -> read (CCpu cpu FCursor) m = wrapping_add 64 c (Z.of_nat k)).
  { induction k as [|k IH]; intros m Hk.
    { rewrite Hm0 in Hk. injection Hk as <-. unfold wrapping_add. by rewrite Z.add_0_r, wrap_small. }
    assert (k < length ms)%nat as [p Hp]%lookup_lt_is_Some_2 by (apply lookup_lt_Some in Hk; lia).
    destruct (Forall_lookup_1 _ _ _ _ Hf Hp) as (Hs & Ho & _).
    rewrite (Hch k p m Hp Hk), claim_cursor, (IH p Hp) by done. unfold wrapping_add, wrap.
    rewrite Zplus_mod_idemp_l. f_equal. lia. }
  destruct (cursor_reaches c i Hfit Hi) as (k & Ek & Hk & Hk').
  destruct (lookup_lt_is_Some_2 ms k) as [m Hm].
  { destruct Hl as [-> |[-> Hnw]]; [done|]. by apply Hk', Hnw. }
  destruct (Forall_lookup_1 _ _ _ _ Hf Hm) as (Hs & Ho & _ & Hr).
  exists k, m, (generation (word m i)). split; [done|]. apply claim_hits; try done.
  unfold start_slot. by rewrite (Hcur k m Hm), Ek, Nat2Z.id.
Qed.

(** A single runnable task, seen by CPU 1 at its successive cursors. *)
Fixpoint idle_rounds (n : nat) (m : Scheduler) : list Scheduler :=
  match n with O => [] | S n => m :: idle_rounds n (advanced 1 m) end.

Definition ready_machine : Scheduler := (run (start (CallSpawn 4096 0 None)) (run (start (CallOnline 1)) scheduler_new).1).1.

Lemma sched_bounded_waiting_witness :
  exists k m g, idle_rounds MAX_TASKS ready_machine !! k = Some m ∧
    (run (claim_next 1) m).2 = Some (Some (mk_handle (Z.of_nat 0) g)).
Proof.
  apply (sched_bounded_waiting 1 0 (idle_rounds MAX_TASKS ready_machine)).
  - by apply Nat.ltb_lt.
  - by apply Nat.ltb_lt.
  - apply Forall_lookup_2. intros k m Hk. assert (Hb : Forall (fun m => bool_decide (sized m ∧
      read (CCpu 1 FOnline) m ≠ 0 ∧ (0 <= read (CCpu 1 FCursor) m ∧ read (CCpu 1 FCursor) m < 2 ^ 64) ∧
      runnable m 0) = true) (idle_rounds MAX_TASKS ready_machine)) by (apply (bool_decide_unpack _); by vm_compute).
    exact (bool_decide_eq_true_1 _ (Forall_lookup_1 _ _ _ _ Hb Hk)).
  - assert (H : Forall2 (fun m m' => read (CCpu 1 FCursor) m' = read (CCpu 1 FCursor) (run (claim_next 1) m).1)
      (take 23 (idle_rounds MAX_TASKS ready_machine)) (drop 1 (idle_rounds MAX_TASKS ready_machine)))
      by (apply (bool_decide_unpack _); by vm_compute).
    intros k m m' Hk Hk'. apply (Forall2_lookup_lr _ _ _ k m m' H).
    + rewrite lookup_take_lt; [done|]. apply lookup_lt_Some in Hk'.
      assert (length (idle_rounds MAX_TASKS ready_machine) = 24%nat) as E by (by vm_compute). lia.
    + by rewrite lookup_drop.
  - right. split; [by vm_compute|]. intros m Hm. assert (m = ready_machine) as -> by (by injection Hm as <-).
    by vm_compute.
Defined.
